(* ===== verification/_CoqProject ===== *)
-Q . S2P
Prelude.v
Wire.v
Hash.v
Transaction.v
Block.v
Codecs.v
Params.v
Pow.v
Coins.v
ScriptNum.v
ScriptOps.v
Sig.v
Taproot.v
Sighash.v
Checker.v
Interpreter.v
InterpreterProofs.v
Signet.v
Engine.v
Validation.v
ConnectSpec.v
Supply.v
BlockFile.v
Store.v
StoreInv.v
Chainstate.v
ChainstateProofs.v
Node.v
NodeProofs.v
P2P.v
P2PProofs.v
P2PTypes.v
AddrMan.v
AddrManProofs.v
Sync.v
PeerTable.v
Peers.v
Downloader.v
Connect.v
HandshakeProofs.v
SyncProofs.v
DownloaderProofs.v
NetProofs.v
NetLimits.v
Rpc.v
RpcProofs.v
Backends.v
BackendProofs.v
Actors.v
ActorProofs.v
Research.v
Startup.v
StartupProofs.v
Transport.v
TransportProofs.v
Monitor.v
Text.v
Reference.v
EndToEnd.v
Tasks.v
PeerTasks.v
PeerTaskProofs.v
ConcurrentNode.v
Digest.v
Vectors.v
ScriptTests.v
TaprootSpend.v
Differential.v
NodeTests.v
