(* ===== verification/Prelude.v ===== *)
(** * Bitcrab: a verification development for the Bitcrab full node

    Bitcrab (src/) is a Bitcoin full node in Rust.  This library translates its core
    into Rocq definitions, file by file, and proves what makes it correct.

    ** The program and its model

    - Wire format and data (crates/common): [Wire] (wire/encode.rs, decode.rs,
      error.rs: cursors, CompactSize, allocation limits), [Hash] (types/hash.rs),
      [Transaction] (amount.rs, transaction.rs, coin.rs, undo.rs, script.rs,
      flat_file_pos.rs), [Block] (block.rs: headers, compact targets, merkle root,
      block index, locators), [Codecs] (whole payloads), [Params] (params.rs,
      magic.rs, genesis.rs, networks/).
    - Proof of work (crates/consensus/pow.rs): [Pow].
    - Scripts (crates/script): [ScriptNum] (num.rs, error.rs), [ScriptOps] (opcode.rs,
      flags.rs, script_ops.rs), [Sig] (sig.rs), [Taproot] (taproot.rs), [Sighash]
      (sighash.rs), [Checker] (checker.rs), [Interpreter], [InterpreterProofs] and
      [TaprootSpend] (interpreter.rs).
    - Validation (crates/consensus): [Coins] (coins.rs: the write-back cache over the
      [CoinsStore] interface), [Signet] (signet.rs), [Engine] (engine.rs: the
      [ScriptEngine] interface), [Reference] (the engine of a build with
      libbitcoinconsensus), [Validation] (validation.rs: CheckTransaction,
      CheckBlock, ConnectBlock), [ConnectSpec] and [Supply] (its specification on a
      map of unspent coins, and the accounting).
    - Storage (crates/storage): [BlockFile] (block_file.rs), [Store] and [StoreInv]
      (block_manager.rs, store.rs, api/, backend/in_memory.rs; the backend is the
      class [StorageBackend], which the in-memory backend implements), [Backends] and
      [BackendProofs] (backend/rocksdb.rs, which implements it too, and the rest of the
      storage interface), [Actors] and [ActorProofs] (the loops of the store's worker
      and of the chainstate actor, their channels and their clients).
    - The chain (crates/consensus/chainstate.rs, crates/node): [Chainstate] and
      [ChainstateProofs] (the actor that indexes headers, keeps blocks and activates
      the chain), [Node] and [NodeProofs] (blockchain.rs, mempool.rs).
    - The network (crates/net/p2p): [P2P], [P2PProofs] and [P2PTypes] (message.rs,
      codec.rs, messages/, the read loop of node.rs), [AddrMan] and [AddrManProofs]
      (addr_man.rs), [Sync] and [SyncProofs] (sync/sync_manager.rs), [PeerTable]
      (peer_table.rs, net_types.rs, discovery.rs), [Peers] (peer_manager.rs and the
      traits through which it uses the chain), [Downloader] and [DownloaderProofs]
      (sync/block_downloader.rs), [Connect] and [HandshakeProofs] (connman.rs,
      initiator.rs, network.rs), [NetProofs] (all of them under any sequence of
      events), [NetLimits] (what the limits and bans do and do not achieve), [Transport]
      and [TransportProofs] (node.rs: the two tasks of a connection; the intervals of
      the periodic tasks), [Tasks] (tasks that share a state and take locks, in general),
      [PeerTasks] and [PeerTaskProofs] (the tasks that peer_manager.rs starts for headers
      and blocks, step by step, with the header mutex and the block semaphore),
      [ConcurrentNode] (their interleavings on the node).
    - JSON-RPC (crates/net/rpc): [Rpc] and [RpcProofs] (the methods, their answers as
      JSON values, the dispatch; the node is the class [RpcNodeProvider], which
      [Blockchain] implements); [Monitor] (cmd/monitor, a client of it).
    - The executable (cmd/bitcrab): [Startup] and [StartupProofs] (commands, opening
      the store, the order of start-up, shutting down), [Research] (research.rs,
      signature_experiment.rs and the command over them), [Text] (how hashes, chains
      and opcodes are written and read).
    - The program's own tests: [Digest] (the hash functions themselves), [Vectors],
      [ScriptTests] and [NodeTests] (the unit tests, as computations on the model),
      [Differential] (the cases of consensus/differential.rs).

    Bytes from a peer become messages (P2P); the peer manager hands headers and blocks
    to the node (Peers, Node), which asks the chainstate actor; the actor stores them
    (Store, BlockFile) and connects stored blocks in order (Chainstate, Validation) to
    the coin cache (Coins), running the scripts of every input (Engine, Interpreter).
    The sync manager, the downloader and the initiator decide what to ask of whom.
    [EndToEnd] follows a block along this path through all the components, and shows
    what a copy of it with an altered witness does there.

    ** Conventions

    A [Result] is [result], with [let?] for the question mark; a [Vec<u8>] or [String]
    is a list of integers; an integer of width [w] is a [Z], unchecked arithmetic
    wraps ([wrap_u], [wrap_s]) as in the release profile, [usize] counters of
    collections in memory are [nat], and offsets in files are unbounded.  [HashMap]s
    are [gmap]s; where the order of iteration can show, it is a parameter.  [Instant]s
    are nanoseconds, and every reading of a clock is an argument.  State is passed
    explicitly: the actor and the store are records, the actor's messages and the
    network handlers are written in small state monads ([action] in Chainstate, [NetM]
    in Peers).  A value that panics is a result of its own where the code can panic.

    What is not under src/ is a parameter: the digests ([Digests]), the curve
    ([Taproot.Secp], [EcdsaCurve]), hex ([Hex], [RpcText]), RocksDB ([Rocks]),
    libbitcoinconsensus ([Consensus]), the text of JSON ([JsonText]), the default
    hasher ([DefaultHasher]), the encoding of peers.dat ([Persistence]), hash map order
    ([HashOrder]), clocks, task scheduling and the outcome of sends ([Env], [NetEnv]).
    Classes ending in [Ok] state the documented laws that theorems use;
    toy instances evaluate the model on examples, and [Digest] has the real digests.

    ** Bounds and fuel

    Loops are structural where the code's are.  Where they are not, fuel is an upper
    bound that is proved to be enough or is the code's own bound: the instruction
    iterator and the framing loop consume at least one byte a round ([drain_terminates]
    shows that framing stops with nothing left to deliver), the handshake reads at
    least 24 bytes a round and gets one unit per byte, the merkle loop halves its list,
    locators double their step, the scans of a block file have one unit per byte, and
    activation connects at most 128 blocks a call, as the code does.

    The actors' channels and a connection's channel have the capacities of the code;
    the socket's is any positive number.

    ** What is proved

    - Money: connecting a block creates no coins beyond subsidy and fees
      ([connect_block_no_inflation], [supply_capped]), spends only existing, mature and
      validated coins ([connected_spends_valid]) and refines block connection on a map
      ([connect_block_refines]); the coin cache is invisible ([cache_refines_map]).
      The first, the refinement and the cache are for blocks (and additions) that
      create no output that is unspent already, which the code does not check.
    - Scripts: resource limits of every reachable state, the meaning of multisig, of
      key-hash, taproot key and witness spends ([eval_reachable_limits],
      [multisig_threshold], [p2wpkh_spend], [p2tr_key_spend], [witness_accounted]); the scope of signature hashes.
    - Work: retargeting and block work are the arithmetic they stand for
      ([calculate_next_work_spec], [calculate_block_work_spec]).
    - The reference engine accepts what the library accepts for every coin (lemma
      [reference_verdict]); nothing is assumed of the library's verdicts.
    - Conformance: the model gives every result that the program's unit tests expect,
      the hashes of the genesis blocks among them (lemmas [vectors_hold],
      [script_tests_hold], [signing_tests_hold], [node_tests_hold],
      [differential_verdicts], [genesis_proof_of_work]).
    - Storage: stored blocks are found again and survive a restart
      ([store_blocks_retrievable], [block_log_durable]); a store over RocksDB does what
      the store over a map does, errors apart ([rocks_store_simulated]).
    - Actors: messages take effect in the order of sending, each is answered, and
      collecting block writes changes nothing that can be observed
      ([store_linearizable], [store_drains]; lemma [batching_transparent]).
    - The whole path: a block the node waits for, whose frame arrives in any pieces, is
      stored and connected by the next turn of the connector task
      ([relayed_block_connects]).
    - Chain: a call of activation is a run of the relation [activation], which takes at
      each height the block that is due there and connects it exactly when the
      specification accepts it ([activation_refines]; lemma [activation_progress]: a
      due block that is accepted is connected first); header processing keeps a tree of
      headers and a tip of most work ([chainstate_invariant], [header_tree_invariant],
      [process_headers_spec], [process_header_most_work]; lemma
      [sync_window_spec]); start-up establishes all the invariants
      ([node_startup]).
    - Network: what is sent is received in order however the stream is cut, all of it
      while the connection is up, and only well-typed messages are ([transport_fifo],
      [transport_drains], [delivered_messages_typed]; lemma [stream_roundtrip]); which
      streams complete a handshake, and that two nodes agree ([handshake_admission];
      lemma [handshake_agrees]); no block is asked of two peers
      ([download_round_spec]); a silent peer loses the header slot (lemma
      [header_slot_taken_over]); address tables stay
      consistent, survive a restart and cannot be flushed by one source
      ([addrman_consistent]; lemmas [peers_file_roundtrip], [announcements_confined]);
      and all of it at once under any sequence of events, the steps of the initiator's
      loops and of the connections' tasks among them ([network_invariant]: of the
      quotas it keeps that of the pending attempts, the sum with the connected peers
      can exceed it, lemma [outbound_quota_exceeded]).
    - Concurrency: however the steps of the header and block tasks are interleaved, with
      one another and with everything else, the network's invariant and the limits on
      tasks hold, every task ends while the connections take messages, the index stays
      a tree of headers and a stored block stays stored ([tasks_invariant],
      [tasks_end], [concurrent_header_tree]; lemma [message_task_alone] ties the
      tasks to the handlers of [Peers]).
    - RPC: every request of a batch is answered, with the right error code (lemma
      [rpc_answers_batch]), a client gets back the stored block ([getblock_answers]),
      and the monitor shows the node's tips and peers (lemma [monitor_shows_node]).
    - Research: the projected sizes and weights are the exact sums, or an error where
      64 bits do not hold them (lemma [project_authorization_spec]).
    - Where the code does not do what it means to, a theorem says what it does:
      [second_coinbase_mints], [rejected_coinbase_stays], [activation_ignores_parent],
      [unread_peer_stops_headers], [mutated_block_sticks] and the lemmas
      [default_engine_rejects], [second_copy_drops_undo], [known_header_truncates_path],
      [malformed_header_stalls], [banned_peer_readmitted], [inbound_limit_exceeded],
      [outbound_quota_exceeded],
      [unread_peer_blocks_senders], [failed_dial_forgotten], [seeds_share_bucket],
      [stall_check_never_fires], [reserved_entries], [height_truncated],
      [prefix_iteration], [begin_locked_leaks], [drop_locked_last],
      [equal_heights_timing], [reference_skips_inputs].

    ** Not modelled

    The scheduler: what interleaves is the steps between two waits.  A header or block
    task is a program of such steps ([PeerTasks]), and so are the loops of the initiator
    and the task of a connection ([initiator_step], [conn_step]); the other handlers of
    the peer manager, the rounds of the downloader and the messages of the actors are
    one step each, in any order; the accept
    loop, the actors' loops, a connection's two tasks and the periodic tasks are step
    relations ([accept_step], [store_actor_step], [mailbox_step], [task_step],
    [schedule_step]).  Failures of the operating system's file operations.  Third-party
    code beyond the laws stated of it: the curve, RocksDB, libbitcoinconsensus, the HTTP
    server and client, the reading of JSON and of arguments, the terminal.  Logging and
    metrics.  The integration tests over sockets and files (test/, net/p2p/tests.rs).
    What is left of the sources beyond that is imports, wrappers of new types and their
    accessors, and the texts of error messages. *)

From Stdlib Require Export String ZArith Lia.
From stdpp Require Export prelude list gmap strings.

#[global] Open Scope Z_scope.

(** ** Results

    Rust's [Result<T, E>], with the [?] operator as a [let?] binder. *)

Inductive result (A E : Type) : Type :=
  | Ok (a : A)
  | Err (e : E).
Arguments Ok {A E} a.
Arguments Err {A E} e.

Definition rbind {A B E} (r : result A E) (k : A -> result B E) : result B E :=
  match r with Ok a => k a | Err e => Err e end.

Definition ok_or {A E} (o : option A) (e : E) : result A E :=
  match o with Some a => Ok a | None => Err e end.

Definition map_err {A E F} (f : E -> F) (r : result A E) : result A F :=
  match r with Ok a => Ok a | Err e => Err (f e) end.

(** [r.ok()]: forget the error. *)
Definition res_ok {A E} (r : result A E) : option A :=
  match r with Ok a => Some a | Err _ => None end.

Definition is_ok {A E} (r : result A E) : bool :=
  match r with Ok _ => true | Err _ => false end.

Declare Scope rust_scope.
Notation "'let?' x ':=' e 'in' k" := (rbind e (fun x => k))
  (at level 10, x name, e at level 200, k at level 200) : rust_scope.
Notation "'let?' ' p ':=' e 'in' k" :=
  (rbind e (fun v => match v with p => k end))
  (at level 10, p pattern, e at level 200, k at level 200) : rust_scope.
#[global] Open Scope rust_scope.

#[global] Instance result_eq_dec {A E} `{EqDecision A, EqDecision E} : EqDecision (result A E).
Proof. solve_decision. Defined.

Lemma rbind_ok {A B E} (r : result A E) (k : A -> result B E) (b : B) :
  rbind r k = Ok b <-> exists a, r = Ok a /\ k a = Ok b.
Proof. destruct r; simpl; split; naive_solver. Qed.

Lemma rbind_err {A B E} (r : result A E) (k : A -> result B E) (e : E) :
  rbind r k = Err e <-> r = Err e \/ exists a, r = Ok a /\ k a = Err e.
Proof. destruct r; simpl; naive_solver. Qed.

Lemma ok_or_ok {A E} (o : option A) (e : E) a : ok_or o e = Ok a <-> o = Some a.
Proof. destruct o; simpl; naive_solver. Qed.

Lemma map_err_ok {A E F} (f : E -> F) (r : result A E) a : map_err f r = Ok a <-> r = Ok a.
Proof. destruct r; simpl; naive_solver. Qed.

(** Splits every [let?] of a successful computation in the hypotheses. *)
Ltac inv_ok :=
  repeat match goal with
  | H : rbind _ _ = Ok _ |- _ => apply rbind_ok in H as (? & ? & H)
  | H : ok_or _ _ = Ok _ |- _ => apply ok_or_ok in H
  | H : map_err _ _ = Ok _ |- _ => apply map_err_ok in H
  | H : Ok _ = Ok _ |- _ => injection H as H; subst
  | H : Err _ = Ok _ |- _ => discriminate H
  | H : (let '(_, _) := ?p in _) = Ok _ |- _ => destruct p
  | p : (_ * _)%type |- _ => destruct p
  end; simpl in *.

(** ** Machine integers

    A Rust integer of width [w] is a [Z]; the predicates say when it is in
    range, the [wrap] functions are the casts [as u8], [as u32], ... *)

Definition u8_ok (z : Z) : Prop := 0 <= z < 2 ^ 8.
Definition u16_ok (z : Z) : Prop := 0 <= z < 2 ^ 16.
Definition u32_ok (z : Z) : Prop := 0 <= z < 2 ^ 32.
Definition u64_ok (z : Z) : Prop := 0 <= z < 2 ^ 64.
Definition i32_ok (z : Z) : Prop := - 2 ^ 31 <= z < 2 ^ 31.
Definition i64_ok (z : Z) : Prop := - 2 ^ 63 <= z < 2 ^ 63.

Definition U32_MAX : Z := 2 ^ 32 - 1.
Definition U64_MAX : Z := 2 ^ 64 - 1.

(** [as uN] *)
Definition wrap_u (w z : Z) : Z := z mod 2 ^ w.
(** [as iN]: two's complement *)
Definition wrap_s (w z : Z) : Z := (z + 2 ^ (w - 1)) mod 2 ^ w - 2 ^ (w - 1).

(** [checked_add], [checked_sub], [checked_mul] of an unsigned type with
    maximum [mx]; the saturating forms below them. *)
Definition checked_add_u (mx a b : Z) : option Z := if a + b <=? mx then Some (a + b) else None.
Definition checked_sub_u (a b : Z) : option Z := if b <=? a then Some (a - b) else None.
Definition checked_mul_u (mx a b : Z) : option Z := if a * b <=? mx then Some (a * b) else None.
Definition saturating_add_u (mx a b : Z) : Z := Z.min mx (a + b).
Definition saturating_sub_u (a b : Z) : Z := Z.max 0 (a - b).
Definition saturating_mul_u (mx a b : Z) : Z := Z.min mx (a * b).

Create HintDb rust_int.
#[global] Hint Unfold u8_ok u16_ok u32_ok u64_ok i32_ok i64_ok : rust_int.
Ltac int_unfold := unfold u8_ok, u16_ok, u32_ok, u64_ok, i32_ok, i64_ok in *.

Lemma wrap_u_small w z : 0 <= z < 2 ^ w -> wrap_u w z = z.
Proof. apply Z.mod_small. Qed.

Lemma wrap_s_small w z : 1 <= w -> - 2 ^ (w - 1) <= z < 2 ^ (w - 1) -> wrap_s w z = z.
Proof.
  intros Hw Hz. unfold wrap_s.
  assert (2 ^ w = 2 * 2 ^ (w - 1)) by (rewrite <- Z.pow_succ_r by lia; f_equal; lia).
  rewrite Z.mod_small; lia.
Qed.

Lemma wrap_s_range w z : 1 <= w -> - 2 ^ (w - 1) <= wrap_s w z < 2 ^ (w - 1).
Proof.
  intros Hw. unfold wrap_s.
  assert (2 ^ w = 2 * 2 ^ (w - 1)) by (rewrite <- Z.pow_succ_r by lia; f_equal; lia).
  assert (0 < 2 ^ (w - 1)) by (apply Z.pow_pos_nonneg; lia).
  pose proof (Z.mod_pos_bound (z + 2 ^ (w - 1)) (2 ^ w)). lia.
Qed.

(** Bit operations as arithmetic. *)
Lemma land_shiftl_low a b k : 0 <= k -> 0 <= b < 2 ^ k -> Z.land (Z.shiftl a k) b = 0.
Proof.
  intros Hk Hb. destruct (decide (b = 0)) as [->|Hb0]; [apply Z.land_0_r|].
  apply Z.bits_inj'. intros n Hn. rewrite Z.land_spec, Z.bits_0.
  destruct (Z.lt_ge_cases n k); [by rewrite Z.shiftl_spec_low|].
  rewrite (Z.bits_above_log2 b), andb_false_r; [done|lia|].
  assert (Z.log2 b < k) by (apply Z.log2_lt_pow2; lia). lia.
Qed.

Lemma lor_shiftl_add a b k : 0 <= k -> 0 <= b < 2 ^ k -> Z.lor (Z.shiftl a k) b = a * 2 ^ k + b.
Proof.
  intros Hk Hb. rewrite <- Z.add_nocarry_lor by (by apply land_shiftl_low).
  by rewrite Z.shiftl_mul_pow2.
Qed.

Lemma land_low a k : 0 <= k -> Z.land a (2 ^ k - 1) = a mod 2 ^ k.
Proof. intros. rewrite <- Z.land_ones by done. f_equal. rewrite Z.ones_equiv. lia. Qed.

Lemma land_ff a : Z.land a 0xFF = a mod 256.
Proof. apply (land_low a 8). lia. Qed.

(** ** Bytes *)

(** A byte slice or vector: each element is a [u8]. *)
Abbreviation bytes := (list Z) (only parsing).
Definition bytes_ok (l : bytes) : Prop := Forall u8_ok l.

(** [[u8; N]] *)
Definition array_ok (n : nat) (l : bytes) : Prop := length l = n /\ bytes_ok l.

(** [to_le_bytes] at a width of [n] bytes; two's complement for negative [z]. *)
Fixpoint le_bytes (n : nat) (z : Z) : bytes :=
  match n with
  | O => []
  | S n => z mod 256 :: le_bytes n (z / 256)
  end.

(** [from_le_bytes], unsigned. *)
Fixpoint of_le (l : bytes) : Z :=
  match l with
  | [] => 0
  | b :: l => b + 256 * of_le l
  end.

Definition be_bytes (n : nat) (z : Z) : bytes := reverse (le_bytes n z).
Definition of_be (l : bytes) : Z := of_le (reverse l).

(** [iN::from_le_bytes] *)
Definition of_le_signed (w : Z) (l : bytes) : Z := wrap_s w (of_le l).

Lemma bytes_ok_app l k : bytes_ok (l ++ k) <-> bytes_ok l /\ bytes_ok k.
Proof. apply Forall_app. Qed.

Lemma bytes_ok_take n l : bytes_ok l -> bytes_ok (take n l).
Proof. apply Forall_take. Qed.
Lemma bytes_ok_drop n l : bytes_ok l -> bytes_ok (drop n l).
Proof. apply Forall_drop. Qed.

Lemma length_le_bytes n z : length (le_bytes n z) = n.
Proof. revert z; induction n; intros; simpl; auto. Qed.

Lemma le_bytes_ok n z : bytes_ok (le_bytes n z).
Proof.
  revert z; induction n as [|n IH]; intros z; simpl; constructor; [|apply IH].
  unfold u8_ok. pose proof (Z.mod_pos_bound z 256). lia.
Qed.

Lemma pow256_S n : 2 ^ (8 * Z.of_nat (S n)) = 256 * 2 ^ (8 * Z.of_nat n).
Proof. rewrite Nat2Z.inj_succ, Z.mul_succ_r, Z.pow_add_r by lia. lia. Qed.

Lemma of_le_le_bytes n z : of_le (le_bytes n z) = z mod 2 ^ (8 * Z.of_nat n).
Proof.
  revert z; induction n as [|n IH]; intros z.
  - simpl. by rewrite Z.mod_1_r.
  - cbn [le_bytes of_le]. rewrite IH, pow256_S.
    rewrite Z.rem_mul_r; lia.
Qed.

Lemma of_le_bound l : bytes_ok l -> 0 <= of_le l < 2 ^ (8 * Z.of_nat (length l)).
Proof.
  induction 1 as [|b l Hb _ IH]; [simpl; lia|].
  cbn [of_le length]. rewrite pow256_S. int_unfold. lia.
Qed.

Lemma le_bytes_of_le l : bytes_ok l -> le_bytes (length l) (of_le l) = l.
Proof.
  induction 1 as [|b l Hb _ IH]; [done|].
  cbn [of_le length le_bytes]. int_unfold. f_equal.
  - rewrite (Z.mul_comm 256), Z.mod_add by lia. apply Z.mod_small; lia.
  - by rewrite (Z.mul_comm 256), Z.div_add, Z.div_small, Z.add_0_l, IH by lia.
Qed.

Lemma of_le_inj l k : bytes_ok l -> bytes_ok k -> length l = length k ->
  of_le l = of_le k -> l = k.
Proof. intros Hl Hk Hn E. by rewrite <- (le_bytes_of_le l), <- (le_bytes_of_le k), Hn, E by done. Qed.

Lemma of_le_app l k : of_le (l ++ k) = of_le l + 2 ^ (8 * Z.of_nat (length l)) * of_le k.
Proof.
  induction l as [|b l IH]; [simpl; lia|].
  cbn [app of_le length]. rewrite pow256_S, IH. lia.
Qed.

Lemma of_le_zeros n : of_le (replicate n 0) = 0.
Proof. induction n; simpl; lia. Qed.

Lemma le_bytes_small n z : 0 <= z < 2 ^ (8 * Z.of_nat n) -> of_le (le_bytes n z) = z.
Proof. intros. by rewrite of_le_le_bytes, Z.mod_small. Qed.

Lemma of_le_signed_le_bytes n z : (0 < n)%nat ->
  let w := 8 * Z.of_nat n in - 2 ^ (w - 1) <= z < 2 ^ (w - 1) ->
  of_le_signed w (le_bytes n z) = z.
Proof.
  intros Hn w Hz. unfold of_le_signed. rewrite of_le_le_bytes. fold w.
  transitivity (wrap_s w z); [|apply wrap_s_small; lia].
  unfold wrap_s. by rewrite Zplus_mod_idemp_l.
Qed.

Lemma le_bytes_mod n z : le_bytes n (z mod 2 ^ (8 * Z.of_nat n)) = le_bytes n z.
Proof.
  apply of_le_inj; auto using le_bytes_ok.
  - by rewrite !length_le_bytes.
  - rewrite !of_le_le_bytes. by rewrite Z.mod_mod by lia.
Qed.

Lemma le_bytes_wrap_s n z : (0 < n)%nat -> le_bytes n (wrap_s (8 * Z.of_nat n) z) = le_bytes n z.
Proof.
  intros Hn. set (w := 8 * Z.of_nat n).
  rewrite <- le_bytes_mod, <- (le_bytes_mod n z). fold w. f_equal.
  unfold wrap_s. rewrite Zminus_mod_idemp_l. f_equal. lia.
Qed.

Lemma le_bytes_of_le_signed n l : (0 < n)%nat -> array_ok n l ->
  le_bytes n (of_le_signed (8 * Z.of_nat n) l) = l.
Proof.
  intros Hn [<- Hl]. unfold of_le_signed. by rewrite le_bytes_wrap_s, le_bytes_of_le.
Qed.

(** ** Lists *)

(** [l[i]] after the code has checked that [i] is in range. *)
Abbreviation idx l i := (nth i l 0).

(** [l[a..b]] after the code has checked the bounds. *)
Definition slice {A} (l : list A) (a b : nat) : list A := take (b - a) (drop a l).

Lemma length_slice {A} (l : list A) a b : (a <= b <= length l)%nat -> length (slice l a b) = (b - a)%nat.
Proof. intros. unfold slice. rewrite length_take, length_drop. lia. Qed.

Lemma slice_ok l a b : bytes_ok l -> bytes_ok (slice l a b).
Proof. intros. by apply bytes_ok_take, bytes_ok_drop. Qed.

Lemma drop_slice {A} (l : list A) a b : (a <= b)%nat -> drop a l = slice l a b ++ drop b l.
Proof.
  intros. unfold slice. rewrite <- (take_drop (b - a) (drop a l)) at 1.
  f_equal. rewrite drop_drop. f_equal. lia.
Qed.

Lemma drop_app_ge' {A} (l k : list A) n : n = length l -> drop n (l ++ k) = k.
Proof. intros ->. apply drop_app_length. Qed.

Lemma take_app_eq {A} (l k : list A) n : n = length l -> take n (l ++ k) = l.
Proof. intros ->. apply take_app_length. Qed.

Lemma insert_split {A} (l : list A) i x d : (i < length l)%nat ->
  <[i := x]> l = take i l ++ x :: drop (S i) l /\ l = take i l ++ nth i l d :: drop (S i) l.
Proof.
  intros Hi. split; [by apply insert_take_drop|].
  destruct (lookup_lt_is_Some_2 _ _ Hi) as [y Hy].
  rewrite (nth_lookup_Some _ _ d _ Hy). symmetry. by apply take_drop_middle.
Qed.

(** Writing one byte of a little-endian number. *)
Lemma of_le_insert l i x : (i < length l)%nat ->
  of_le (<[i := x]> l) = of_le l + (x - idx l i) * 2 ^ (8 * Z.of_nat i).
Proof.
  intros Hi. destruct (insert_split l i x 0 Hi) as [-> E]. rewrite E at 3.
  rewrite !of_le_app, !length_take, Nat.min_l by lia. cbn [of_le]. lia.
Qed.

Lemma bytes_ok_insert l i x : bytes_ok l -> u8_ok x -> bytes_ok (<[i := x]> l).
Proof. intros. by apply Forall_insert. Qed.

Lemma idx_ok l i : bytes_ok l -> u8_ok (idx l i).
Proof.
  intros Hl. destruct (Nat.lt_ge_cases i (length l)) as [Hi|Hi].
  - destruct (lookup_lt_is_Some_2 _ _ Hi) as [y Hy]. rewrite (nth_lookup_Some _ _ 0 _ Hy).
    by eapply Forall_lookup_1.
  - rewrite nth_overflow by done. int_unfold; lia.
Qed.

(** Byte [i] of a little-endian number, as a quotient. *)
Lemma of_le_drop l i : (i <= length l)%nat -> bytes_ok l ->
  of_le (drop i l) = of_le l / 2 ^ (8 * Z.of_nat i).
Proof.
  intros Hi Hl. rewrite <- (take_drop i l) at 2. rewrite of_le_app, length_take, Nat.min_l by done.
  pose proof (of_le_bound (take i l) (bytes_ok_take i l Hl)) as B.
  rewrite length_take, Nat.min_l in B by done.
  rewrite Z.add_comm, Z.mul_comm, Z.div_add_l, Z.div_small; lia.
Qed.

Lemma fold_left_ext_in {A B} (f g : A -> B -> A) l a :
  (forall a b, In b l -> f a b = g a b) -> fold_left f l a = fold_left g l a.
Proof.
  revert a; induction l as [|b l IH]; intros a H; [done|]. cbn [fold_left].
  rewrite H by (by left). apply IH. intros. apply H. by right.
Qed.

Create HintDb wire.
(** A pair whose first component is known. *)
Lemma pair_eq {A B} (p : A * B) (a : A) : p.1 = a -> p = (a, p.2).
Proof. by intros <-; destruct p. Qed.

#[export] Hint Resolve le_bytes_ok bytes_ok_take bytes_ok_drop slice_ok : wire.

#[global] Opaque le_bytes.
