(* ===== verification/Wire.v ===== *)
(** * The wire format (crates/common/wire)

    [Encoder] and [Decoder] of encode.rs and decode.rs, the primitive
    encodings, CompactSize integers, length-prefixed vectors and lists, and
    the errors of error.rs.  The traits [BitcoinEncode] / [BitcoinDecode]
    become a pair of functions per type; the class [WireCodec] states what
    every such pair promises to the types built on top of it (round trip and
    non-emptiness), [WireCanonical] adds that the decoder accepts nothing but
    what the encoder writes. *)

From S2P Require Import Prelude.

(** ** Errors *)

Inductive DecodeError : Type :=
  | BufferTooShort (field : string) (needed available : nat)
  | TruncatedVarint (field : string)
  | NonCanonicalVarint (field : string) (value : Z) (encoded_len : nat)
  | AllocationTooLarge (field : string) (len limit : Z)
  | InvalidUtf8 (field : string)
  | TrailingBytes (context : string) (remaining : nat)
  | InvalidValue (field : string) (value : Z)
  | CustomError (msg : string).

Definition with_field (e : DecodeError) (field : string) : DecodeError :=
  match e with
  | BufferTooShort _ needed available => BufferTooShort field needed available
  | TruncatedVarint _ => TruncatedVarint field
  | NonCanonicalVarint _ value encoded_len => NonCanonicalVarint field value encoded_len
  | AllocationTooLarge _ len limit => AllocationTooLarge field len limit
  | InvalidUtf8 _ => InvalidUtf8 field
  | InvalidValue _ value => InvalidValue field value
  | other => other
  end.

(** ** Constants *)

Definition MAX_MESSAGE_SIZE : Z := 4 * 1024 * 1024.
Definition MAX_WIRE_ALLOCATION : Z := MAX_MESSAGE_SIZE.
(** [usize::MAX] on a 64-bit target *)
Definition USIZE_MAX : Z := U64_MAX.

(** ** Encoder *)

Record Encoder : Type := mkEncoder { buf : bytes }.

Definition Encoder_new : Encoder := mkEncoder [].
Definition finish_enc (e : Encoder) : bytes := buf e.
Definition push_bytes (v : bytes) (e : Encoder) : Encoder := mkEncoder (buf e ++ v).
Definition push_u8 (v : Z) (e : Encoder) : Encoder := mkEncoder (buf e ++ [v]).

(** [BitcoinEncode::encode] and [BitcoinDecode::decode] of a type [T]. *)
Abbreviation encoder_of T := (T -> Encoder -> Encoder).

Definition encode_u8 : encoder_of Z := fun v e => push_u8 v e.
Definition encode_u32 : encoder_of Z := fun v e => push_bytes (le_bytes 4 v) e.
Definition encode_u64 : encoder_of Z := fun v e => push_bytes (le_bytes 8 v) e.
Definition encode_i32 : encoder_of Z := fun v e => push_bytes (le_bytes 4 v) e.
Definition encode_i64 : encoder_of Z := fun v e => push_bytes (le_bytes 8 v) e.
Definition encode_bool : encoder_of bool := fun v e => push_u8 (if v then 1 else 0) e.
(** [[u8]] and [[u8; N]]: raw bytes, no length prefix *)
Definition encode_array : encoder_of bytes := fun v e => push_bytes v e.
Definition encode_U16BE : encoder_of Z := fun v e => push_bytes (be_bytes 2 v) e.

Definition encode_VarInt : encoder_of Z := fun n e =>
  if n <=? 0xFC then push_u8 (wrap_u 8 n) e
  else if n <=? 0xFFFF then push_bytes (le_bytes 2 (wrap_u 16 n)) (push_u8 0xFD e)
  else if n <=? 0xFFFFFFFF then push_bytes (le_bytes 4 (wrap_u 32 n)) (push_u8 0xFE e)
  else push_bytes (le_bytes 8 n) (push_u8 0xFF e).

(** [VarInt::serialized_size] *)
Definition VarInt_serialized_size (n : Z) : nat :=
  if n <=? 0xFC then 1
  else if n <=? 0xFFFF then 3
  else if n <=? 0xFFFFFFFF then 5
  else 9.

Definition encode_VarBytes : encoder_of bytes := fun v e =>
  push_bytes v (encode_VarInt (Z.of_nat (length v)) e).
(** [Vec<u8>] *)
Definition encode_Vec_u8 : encoder_of bytes := encode_VarBytes.
(** A Rust [str] is its UTF-8 bytes. *)
Definition encode_VarStr : encoder_of bytes := fun v e =>
  push_bytes v (encode_VarInt (Z.of_nat (length v)) e).

Definition encode_VarList {T} (enc : encoder_of T) : encoder_of (list T) := fun l e =>
  fold_left (fun e item => enc item e) l (encode_VarInt (Z.of_nat (length l)) e).

Definition serialize {T} (enc : encoder_of T) (value : T) : bytes :=
  finish_enc (enc value Encoder_new).

(** ** Decoder *)

Record Decoder : Type := mkDecoder { dec_data : bytes; dec_pos : nat }.
Abbreviation decoder_of T := (Decoder -> result (T * Decoder) DecodeError).

Definition Decoder_new (payload : bytes) : Decoder := mkDecoder payload 0.

Definition remaining (d : Decoder) : nat := (length (dec_data d) - dec_pos d)%nat.

Definition is_done (d : Decoder) : bool := Nat.eqb (dec_pos d) (length (dec_data d)).

Definition finish (d : Decoder) (context : string) : result unit DecodeError :=
  if is_done d then Ok tt else Err (TrailingBytes context (remaining d)).

Definition require (d : Decoder) (n : nat) (field : string) : result unit DecodeError :=
  if (remaining d <? n)%nat
  then Err (BufferTooShort field (dec_pos d + n) (length (dec_data d)))
  else Ok tt.

Definition advance (d : Decoder) (n : nat) : Decoder := mkDecoder (dec_data d) (dec_pos d + n).

Definition peek_u8 (d : Decoder) (field : string) : result Z DecodeError :=
  let? _ := require d 1 field in Ok (idx (dec_data d) (dec_pos d)).

(** [read_bytes]; [read_array::<N>] is the same with a constant length. *)
Definition read_bytes (n : nat) (field : string) : decoder_of bytes := fun d =>
  let? _ := require d n field in
  Ok (slice (dec_data d) (dec_pos d) (dec_pos d + n), advance d n).
Definition read_array (n : nat) (field : string) : decoder_of bytes := read_bytes n field.

Definition read_u8 (field : string) : decoder_of Z := fun d =>
  let? _ := require d 1 field in
  Ok (idx (dec_data d) (dec_pos d), advance d 1).

(** The fixed-width integer readers share one shape: take [n] bytes, convert. *)
Definition read_int (n : nat) (conv : bytes -> Z) (field : string) : decoder_of Z := fun d =>
  let? _ := require d n field in
  Ok (conv (slice (dec_data d) (dec_pos d) (dec_pos d + n)), advance d n).
Definition read_u16_le := read_int 2 of_le.
Definition read_u32_le := read_int 4 of_le.
Definition read_u64_le := read_int 8 of_le.
Definition read_i32_le := read_int 4 (of_le_signed 32).
Definition read_i64_le := read_int 8 (of_le_signed 64).
Definition read_u16_be := read_int 2 of_be.

Definition read_bool (field : string) : decoder_of bool := fun d =>
  let? _ := require d 1 field in
  Ok (negb (idx (dec_data d) (dec_pos d) =? 0), advance d 1).

Definition read_varint_raw (b : bytes) (field : string) : result (Z * nat) DecodeError :=
  match b with
  | [] => Err (TruncatedVarint field)
  | n :: _ =>
    if n <=? 0xFC then Ok (n, 1%nat)
    else if n =? 0xFD then
      if (length b <? 3)%nat then Err (TruncatedVarint field)
      else let value := of_le (slice b 1 3) in
           if value <? 0xFD then Err (NonCanonicalVarint field value 3) else Ok (value, 3%nat)
    else if n =? 0xFE then
      if (length b <? 5)%nat then Err (TruncatedVarint field)
      else let value := of_le (slice b 1 5) in
           if value <? 0x10000 then Err (NonCanonicalVarint field value 5) else Ok (value, 5%nat)
    else
      if (length b <? 9)%nat then Err (TruncatedVarint field)
      else let value := of_le (slice b 1 9) in
           if value <? 0x100000000 then Err (NonCanonicalVarint field value 9) else Ok (value, 9%nat)
  end.

Definition ensure_allocation_len (field : string) (len : Z) : result unit DecodeError :=
  if (MAX_WIRE_ALLOCATION <? len) || (USIZE_MAX <? len)
  then Err (AllocationTooLarge field len MAX_WIRE_ALLOCATION)
  else Ok tt.

Definition read_varint (field : string) : decoder_of Z := fun d =>
  let? '(v, consumed) := read_varint_raw (drop (dec_pos d) (dec_data d)) field in
  Ok (v, advance d consumed).

Definition read_varbytes (label : string) : decoder_of bytes := fun d =>
  let? '(len, d) := read_varint label d in
  let? _ := ensure_allocation_len label len in
  read_bytes (Z.to_nat len) label d.

(** The [for _ in 0..count] loop of [read_var_list]. *)
Fixpoint read_items {T} (dec : decoder_of T) (count : nat) (d : Decoder)
    : result (list T * Decoder) DecodeError :=
  match count with
  | O => Ok ([], d)
  | S count =>
    let? '(item, d) := dec d in
    let? '(items, d) := read_items dec count d in
    Ok (item :: items, d)
  end.

Definition read_var_list {T} (dec : decoder_of T) (label : string) : decoder_of (list T) := fun d =>
  let? '(count, d) := read_varint label d in
  let? _ := ensure_allocation_len label count in
  if Z.of_nat (remaining d) <? count
  then Err (AllocationTooLarge label count (Z.of_nat (remaining d)))
  else read_items dec (Z.to_nat count) d.

(** [std::str::from_utf8]: the well-formed byte sequences of Unicode table 3-7. *)
Definition is_cont (b : Z) : bool := (0x80 <=? b) && (b <=? 0xBF).
Fixpoint utf8_valid (l : bytes) : bool :=
  match l with
  | [] => true
  | a :: l1 =>
    if a <=? 0x7F then utf8_valid l1
    else if (0xC2 <=? a) && (a <=? 0xDF) then
      match l1 with b :: l2 => is_cont b && utf8_valid l2 | _ => false end
    else if (0xE0 <=? a) && (a <=? 0xEF) then
      match l1 with
      | b :: c :: l3 =>
        let lo := if a =? 0xE0 then 0xA0 else 0x80 in
        let hi := if a =? 0xED then 0x9F else 0xBF in
        (lo <=? b) && (b <=? hi) && is_cont c && utf8_valid l3
      | _ => false
      end
    else if (0xF0 <=? a) && (a <=? 0xF4) then
      match l1 with
      | b :: c :: e :: l4 =>
        let lo := if a =? 0xF0 then 0x90 else 0x80 in
        let hi := if a =? 0xF4 then 0x8F else 0xBF in
        (lo <=? b) && (b <=? hi) && is_cont c && is_cont e && utf8_valid l4
      | _ => false
      end
    else false
  end.

Definition read_var_str (field : string) : decoder_of bytes := fun d =>
  let? '(len, consumed) := read_varint_raw (drop (dec_pos d) (dec_data d)) field in
  let d := advance d consumed in
  let? _ := ensure_allocation_len field len in
  let len := Z.to_nat len in
  let? _ := require d len field in
  let s := slice (dec_data d) (dec_pos d) (dec_pos d + len) in
  if utf8_valid s then Ok (s, advance d len) else Err (InvalidUtf8 field).

(** The [BitcoinDecode] instances of the primitives. *)
Definition decode_u8 := read_u8 "u8".
Definition decode_U16BE := read_u16_be "U16BE".
Definition decode_u32 := read_u32_le "u32".
Definition decode_u64 := read_u64_le "u64".
Definition decode_i32 := read_i32_le "i32".
Definition decode_i64 := read_i64_le "i64".
Definition decode_bool := read_bool "bool".
Definition decode_VarInt := read_varint "VarInt".
Definition decode_Vec_u8 := read_varbytes "Vec<u8>".
Definition decode_array (n : nat) := read_array n "array".

Definition decode_optional_field {T} (dec : decoder_of T) : decoder_of (option T) := fun d =>
  if is_done d then Ok (None, d)
  else let? '(v, d) := dec d in Ok (Some v, d).

Definition decode_exact {T} (dec : decoder_of T) (payload : bytes) (context : string)
    : result T DecodeError :=
  let? '(value, d) := dec (Decoder_new payload) in
  let? _ := finish d context in
  Ok value.

(** ** What a codec promises *)

(** The decoder's representation invariant: the cursor is inside the payload. *)
Definition dec_ok (d : Decoder) : Prop :=
  (dec_pos d <= length (dec_data d))%nat /\ bytes_ok (dec_data d).

(** [dec] reads back [x] from [bs] wherever [bs] stands in the payload. *)
Definition decodes {T} (dec : decoder_of T) (x : T) (bs : bytes) : Prop :=
  forall pre post,
    dec (mkDecoder (pre ++ bs ++ post) (length pre)) =
    Ok (x, mkDecoder (pre ++ bs ++ post) (length pre + length bs)).

(** Going from [d] to [d'] consumed exactly the bytes [bs]. *)
Definition consumed (d : Decoder) (bs : bytes) (d' : Decoder) : Prop :=
  dec_data d' = dec_data d /\
  drop (dec_pos d) (dec_data d) = bs ++ drop (dec_pos d') (dec_data d) /\
  dec_pos d' = (dec_pos d + length bs)%nat /\ dec_ok d'.

(** [dec] only ever moves the cursor forward, inside the payload. *)
Definition advances {T} (dec : decoder_of T) : Prop :=
  forall d x d', dec_ok d -> dec d = Ok (x, d') -> exists bs, consumed d bs d'.

(** On success [dec] consumed exactly the encoding of its result. *)
Definition accepts {T} (dec : decoder_of T) (wf : T -> Prop) (ser : T -> bytes) : Prop :=
  forall d x d', dec_ok d -> dec d = Ok (x, d') -> wf x /\ consumed d (ser x) d'.

Class WireCodec {T} (enc : encoder_of T) (dec : decoder_of T) (wf : T -> Prop) : Prop := {
  wire_append : forall x e, enc x e = push_bytes (serialize enc x) e;
  wire_nonempty : forall x, wf x -> (0 < length (serialize enc x))%nat;
  wire_decodes : forall x, wf x -> decodes dec x (serialize enc x);
  wire_advances : advances dec;
}.

Class WireCanonical {T} (enc : encoder_of T) (dec : decoder_of T) (wf : T -> Prop) : Prop :=
  wire_accepts : accepts dec wf (serialize enc).

(** ** Composing codecs *)

Lemma buf_push_bytes v e : buf (push_bytes v e) = buf e ++ v.
Proof. done. Qed.

Lemma push_bytes_push_bytes v w e : push_bytes w (push_bytes v e) = push_bytes (v ++ w) e.
Proof. unfold push_bytes; simpl. by rewrite app_assoc. Qed.

Lemma push_u8_bytes v e : push_u8 v e = push_bytes [v] e.
Proof. done. Qed.

Lemma serialize_push {T} (enc : encoder_of T) f x :
  (forall e, enc x e = push_bytes f e) -> serialize enc x = f.
Proof. intros H. unfold serialize. by rewrite H. Qed.

Lemma decodes_ret {T} (x : T) : decodes (fun d => Ok (x, d)) x [].
Proof. intros pre post. simpl. by rewrite Nat.add_0_r. Qed.

Lemma decodes_bind {A B} (d1 : decoder_of A) (k : A -> decoder_of B) x y b1 b2 :
  decodes d1 x b1 -> decodes (k x) y b2 ->
  decodes (fun d => let? '(a, d) := d1 d in k a d) y (b1 ++ b2).
Proof.
  intros H1 H2 pre post. specialize (H1 pre (b2 ++ post)). specialize (H2 (pre ++ b1) post).
  rewrite <- !app_assoc in *. rewrite H1. simpl. rewrite length_app in H2.
  rewrite H2, length_app. do 2 f_equal. f_equal. lia.
Qed.

Lemma decodes_bind' {A B} (d1 : decoder_of A) (k : A -> decoder_of B) x y b1 b2 b :
  b = b1 ++ b2 -> decodes d1 x b1 -> decodes (k x) y b2 ->
  decodes (fun d => let? '(a, d) := d1 d in k a d) y b.
Proof. intros ->. apply decodes_bind. Qed.

(** The last field of a record: only the result is built after it. *)
Lemma decodes_last {A B} (d1 : decoder_of A) (f : A -> B) x b :
  decodes d1 x b -> decodes (fun d => let? '(a, d) := d1 d in Ok (f a, d)) (f x) b.
Proof. intros H pre post. by rewrite H. Qed.

Lemma consumed_refl d : dec_ok d -> consumed d [] d.
Proof. intros H. unfold consumed. simpl. rewrite Nat.add_0_r. done. Qed.

Lemma consumed_trans d d1 d2 b1 b2 :
  consumed d b1 d1 -> consumed d1 b2 d2 -> consumed d (b1 ++ b2) d2.
Proof.
  intros (E1 & D1 & P1 & _) (E2 & D2 & P2 & O2). rewrite E1 in *.
  repeat split; [congruence | | rewrite length_app; lia | apply O2 | apply O2].
  by rewrite D1, D2, app_assoc.
Qed.

Lemma consumed_ok d b d' : consumed d b d' -> dec_ok d'.
Proof. by intros (_ & _ & _ & H). Qed.

Lemma consumed_bytes_ok d b d' : dec_ok d -> consumed d b d' -> bytes_ok b.
Proof.
  intros [_ Hb] (_ & D & _). apply (bytes_ok_drop (dec_pos d)) in Hb.
  rewrite D in Hb. by apply bytes_ok_app in Hb as [? _].
Qed.

#[export] Hint Resolve consumed_refl consumed_ok : wire.

(** ** Primitive readers *)

Lemma require_ok d n f : require d n f = Ok tt <-> (n <= remaining d)%nat.
Proof. unfold require. destruct (Nat.ltb_spec (remaining d) n); split; try done; lia. Qed.

Lemma require_at pre bs post f n : n = length bs ->
  require (mkDecoder (pre ++ bs ++ post) (length pre)) n f = Ok tt.
Proof. intros ->. apply require_ok. unfold remaining; simpl. rewrite !length_app. lia. Qed.

Lemma slice_at {A} (pre bs post : list A) :
  slice (pre ++ bs ++ post) (length pre) (length pre + length bs) = bs.
Proof.
  unfold slice. rewrite drop_app_length. apply take_app_eq. lia.
Qed.

Lemma read_bytes_decodes n f bs : length bs = n -> decodes (read_bytes n f) bs bs.
Proof.
  intros <- pre post. unfold read_bytes. rewrite require_at by done. simpl.
  by rewrite slice_at.
Qed.

Lemma read_int_decodes n conv f bs : length bs = n -> decodes (read_int n conv f) (conv bs) bs.
Proof.
  intros <- pre post. unfold read_int. rewrite require_at by done. simpl.
  by rewrite slice_at.
Qed.

Lemma idx_at pre b post : idx (pre ++ b :: post) (length pre) = b.
Proof. by rewrite app_nth2, Nat.sub_diag by lia. Qed.

Lemma read_u8_decodes f b : decodes (read_u8 f) b [b].
Proof.
  intros pre post. unfold read_u8. rewrite require_at by done. simpl. by rewrite idx_at.
Qed.

Lemma read_bool_decodes f b : decodes (read_bool f) (negb (b =? 0)) [b].
Proof.
  intros pre post. unfold read_bool. rewrite require_at by done. simpl. by rewrite idx_at.
Qed.

Lemma advance_consumed d n : dec_ok d -> (n <= remaining d)%nat ->
  consumed d (slice (dec_data d) (dec_pos d) (dec_pos d + n)) (advance d n).
Proof.
  intros [Hp Hb] Hn. unfold remaining in Hn. unfold consumed, advance; simpl.
  rewrite length_slice by lia. repeat split; simpl; [|lia|lia|done].
  apply drop_slice. lia.
Qed.

Lemma read_bytes_inv n f d x d' : dec_ok d -> read_bytes n f d = Ok (x, d') ->
  array_ok n x /\ consumed d x d'.
Proof.
  intros Hd H. unfold read_bytes in H. inv_ok. destruct x0. apply require_ok in H0.
  pose proof (advance_consumed d n Hd H0) as C. split; [|done].
  split; [|eapply consumed_bytes_ok; eauto].
  destruct Hd. unfold remaining in *. rewrite length_slice; lia.
Qed.

Lemma read_int_inv n conv f d x d' : dec_ok d -> read_int n conv f d = Ok (x, d') ->
  exists bs, array_ok n bs /\ x = conv bs /\ consumed d bs d'.
Proof.
  intros Hd H. unfold read_int in H. inv_ok.
  destruct (read_bytes_inv n f d (slice (dec_data d) (dec_pos d) (dec_pos d + n)) (advance d n))
    as [??]; [done| |eauto].
  unfold read_bytes. by rewrite H0.
Qed.

Lemma slice_one d : dec_ok d -> (1 <= remaining d)%nat ->
  slice (dec_data d) (dec_pos d) (dec_pos d + 1) = [idx (dec_data d) (dec_pos d)].
Proof.
  intros [Hp _] Hr. unfold remaining in Hr. unfold slice.
  replace (dec_pos d + 1 - dec_pos d)%nat with 1%nat by lia.
  assert (dec_pos d < length (dec_data d))%nat as Hlt by lia.
  destruct (lookup_lt_is_Some_2 _ _ Hlt) as [x Hx].
  rewrite (drop_S _ _ _ Hx). simpl. rewrite take_0.
  by rewrite (nth_lookup_Some _ _ 0 _ Hx).
Qed.

Lemma read_u8_inv f d x d' : dec_ok d -> read_u8 f d = Ok (x, d') -> u8_ok x /\ consumed d [x] d'.
Proof.
  intros Hd H. unfold read_u8 in H. inv_ok. destruct x0. apply require_ok in H0.
  pose proof (advance_consumed d 1 Hd H0) as C. rewrite slice_one in C by done.
  split; [|done]. pose proof (consumed_bytes_ok _ _ _ Hd C) as Hb. by inversion Hb.
Qed.

Lemma read_bool_inv f d x d' : dec_ok d -> read_bool f d = Ok (x, d') ->
  exists b, u8_ok b /\ x = negb (b =? 0) /\ consumed d [b] d'.
Proof.
  intros Hd H. unfold read_bool in H. inv_ok.
  destruct (read_u8_inv f d (idx (dec_data d) (dec_pos d)) (advance d 1)) as [??]; [done| |eauto].
  unfold read_u8. by rewrite H0.
Qed.

(** ** CompactSize integers *)

(** The bytes [encode_VarInt] writes. *)
Definition varint_bytes (n : Z) : bytes :=
  if n <=? 0xFC then [n]
  else if n <=? 0xFFFF then 0xFD :: le_bytes 2 n
  else if n <=? 0xFFFFFFFF then 0xFE :: le_bytes 4 n
  else 0xFF :: le_bytes 8 n.

Lemma encode_VarInt_bytes n e : u64_ok n -> encode_VarInt n e = push_bytes (varint_bytes n) e.
Proof.
  intros Hn. int_unfold. unfold encode_VarInt, varint_bytes.
  repeat case_match; rewrite ?wrap_u_small, ?push_u8_bytes, ?push_bytes_push_bytes by lia; done.
Qed.

Lemma serialize_VarInt n : u64_ok n -> serialize encode_VarInt n = varint_bytes n.
Proof. intros. apply serialize_push. intros. by apply encode_VarInt_bytes. Qed.

Lemma length_varint_bytes n : length (varint_bytes n) = VarInt_serialized_size n.
Proof.
  unfold varint_bytes, VarInt_serialized_size.
  repeat case_match; simpl; by rewrite ?length_le_bytes.
Qed.

Lemma varint_bytes_pos n : (0 < length (varint_bytes n))%nat.
Proof. rewrite length_varint_bytes. unfold VarInt_serialized_size. repeat case_match; lia. Qed.

Lemma slice_1 {A} (b : A) l n : slice (b :: l) 1 (S n) = take n l.
Proof. unfold slice. simpl. by rewrite Nat.sub_0_r. Qed.

Lemma read_varint_raw_app n f post : u64_ok n ->
  read_varint_raw (varint_bytes n ++ post) f = Ok (n, length (varint_bytes n)).
Proof.
  intros Hn. int_unfold. unfold varint_bytes, read_varint_raw.
  destruct (Z.leb_spec n 0xFC) as [H1|H1]; cbn [app];
    [by rewrite (proj2 (Z.leb_le _ _)) by lia|].
  destruct (Z.leb_spec n 0xFFFF) as [H2|H2]; [|destruct (Z.leb_spec n 0xFFFFFFFF) as [H3|H3]];
    cbn [app]; cbn [Z.leb Z.eqb Z.compare Pos.compare Pos.compare_cont Pos.eqb];
    rewrite slice_1, take_app_eq, le_bytes_small by (rewrite ?length_le_bytes; lia);
    (rewrite (proj2 (Nat.ltb_ge _ _)) by (cbn [length]; rewrite length_app, length_le_bytes; lia));
    rewrite (proj2 (Z.ltb_ge _ _)) by lia; cbn [length]; by rewrite length_le_bytes.
Qed.

Lemma read_varint_decodes f n : u64_ok n -> decodes (read_varint f) n (varint_bytes n).
Proof.
  intros Hn pre post. unfold read_varint; simpl. rewrite drop_app_length.
  by rewrite read_varint_raw_app.
Qed.

Lemma read_varint_raw_inv b f v c : bytes_ok b -> read_varint_raw b f = Ok (v, c) ->
  u64_ok v /\ exists post, b = varint_bytes v ++ post /\ c = length (varint_bytes v).
Proof.
  intros Hb H. unfold read_varint_raw in H. destruct b as [|n b]; [done|].
  apply Forall_cons in Hb as [Hn Hb].
  assert (forall k t, (k <= length b)%nat -> t = n -> 2 ^ (8 * Z.of_nat k) <= 2 ^ 64 ->
    varint_bytes (of_le (take k b)) = t :: le_bytes k (of_le (take k b)) ->
    u64_ok (of_le (take k b)) /\ exists post, n :: b = varint_bytes (of_le (take k b)) ++ post /\
      S k = length (varint_bytes (of_le (take k b)))) as Hk.
  { intros k t Hl -> Hw E. pose proof (of_le_bound (take k b) (bytes_ok_take k b Hb)) as B.
    rewrite length_take_le in B by done. split; [int_unfold; lia|]. exists (drop k b).
    rewrite E. cbn [length app]. rewrite length_le_bytes. split; [|done]. f_equal.
    rewrite <- (length_take_le b k) at 1 by done.
    by rewrite le_bytes_of_le, take_drop by by apply bytes_ok_take. }
  destruct (Z.leb_spec n 0xFC); [|destruct (Z.eqb_spec n 0xFD); [|destruct (Z.eqb_spec n 0xFE)]].
  - simplify_eq. int_unfold. split; [lia|]. exists b. unfold varint_bytes.
    by rewrite (proj2 (Z.leb_le _ _)) by lia.
  - rewrite slice_1 in H. case_match; [done|]. case_match; [done|]. simplify_eq.
    rewrite Nat.ltb_ge, Z.ltb_ge in *. simpl in *. apply (Hk 2%nat 0xFD); [lia|done|lia|].
    pose proof (of_le_bound (take 2 b) (bytes_ok_take 2 b Hb)) as B.
    rewrite length_take_le in B by lia. unfold varint_bytes.
    by rewrite (proj2 (Z.leb_gt _ _)), (proj2 (Z.leb_le _ _)) by lia.
  - rewrite slice_1 in H. case_match; [done|]. case_match; [done|]. simplify_eq.
    rewrite Nat.ltb_ge, Z.ltb_ge in *. simpl in *. apply (Hk 4%nat 0xFE); [lia|done|lia|].
    pose proof (of_le_bound (take 4 b) (bytes_ok_take 4 b Hb)) as B.
    rewrite length_take_le in B by lia. unfold varint_bytes.
    by rewrite !(proj2 (Z.leb_gt _ _)), (proj2 (Z.leb_le _ _)) by lia.
  - rewrite slice_1 in H. case_match; [done|]. case_match; [done|]. simplify_eq.
    rewrite Nat.ltb_ge, Z.ltb_ge in *. simpl in *. int_unfold.
    apply (Hk 8%nat 0xFF); [lia|lia|lia|].
    unfold varint_bytes. by rewrite !(proj2 (Z.leb_gt _ _)) by lia.
Qed.

Lemma read_varint_inv f d v d' : dec_ok d -> read_varint f d = Ok (v, d') ->
  u64_ok v /\ consumed d (varint_bytes v) d'.
Proof.
  intros Hd H. unfold read_varint in H. inv_ok.
  destruct Hd as [Hp Hb]. apply read_varint_raw_inv in H0 as (Hv & post & E & ->);
    [|by apply bytes_ok_drop].
  split; [done|]. unfold consumed, advance; simpl.
  assert (length (varint_bytes v) + length post = length (dec_data d) - dec_pos d)%nat as HL.
  { apply (f_equal length) in E. rewrite length_drop, length_app in E. lia. }
  repeat split; simpl; [|lia|done].
  rewrite E, <- drop_drop, E. by rewrite drop_app_length.
Qed.

(** ** Length-prefixed vectors and lists *)

Lemma ensure_allocation_len_ok f n :
  ensure_allocation_len f n = Ok tt <-> n <= MAX_WIRE_ALLOCATION.
Proof.
  unfold ensure_allocation_len, MAX_WIRE_ALLOCATION, MAX_MESSAGE_SIZE, USIZE_MAX, U64_MAX.
  case_match eqn:E; split; try done.
  - intros. apply orb_true_iff in E as [E|E]; apply Z.ltb_lt in E; lia.
  - intros _. apply orb_false_iff in E as [E _]. by apply Z.ltb_ge in E.
Qed.

Lemma alloc_u64 n : (0 <= n <= MAX_WIRE_ALLOCATION) -> u64_ok n.
Proof. unfold MAX_WIRE_ALLOCATION, MAX_MESSAGE_SIZE. int_unfold. lia. Qed.

(** A vector the decoder is willing to allocate. *)
Definition vec_ok {A} (l : list A) : Prop := Z.of_nat (length l) <= MAX_WIRE_ALLOCATION.
Definition varbytes_ok (l : bytes) : Prop := bytes_ok l /\ vec_ok l.

Lemma vec_len_u64 {A} (l : list A) : vec_ok l -> u64_ok (Z.of_nat (length l)).
Proof. intros. apply alloc_u64. unfold vec_ok in *. lia. Qed.

Lemma serialize_VarBytes l : vec_ok l ->
  serialize encode_VarBytes l = varint_bytes (Z.of_nat (length l)) ++ l.
Proof.
  intros. apply serialize_push. intros e. unfold encode_VarBytes.
  by rewrite encode_VarInt_bytes, push_bytes_push_bytes by by apply vec_len_u64.
Qed.

Lemma decodes_guard {T U} (chk : result U DecodeError) u (dec : decoder_of T) x bs :
  chk = Ok u -> decodes dec x bs -> decodes (fun d => let? _ := chk in dec d) x bs.
Proof. intros -> H pre post. simpl. apply H. Qed.

Lemma read_varbytes_decodes f l : vec_ok l ->
  decodes (read_varbytes f) l (varint_bytes (Z.of_nat (length l)) ++ l).
Proof.
  intros Hl. apply (decodes_bind (read_varint f) (fun len d =>
    let? _ := ensure_allocation_len f len in read_bytes (Z.to_nat len) f d) (Z.of_nat (length l))).
  - by apply read_varint_decodes, vec_len_u64.
  - apply (decodes_guard _ tt (read_bytes (Z.to_nat (Z.of_nat (length l))) f)); [by apply ensure_allocation_len_ok|].
    apply read_bytes_decodes. lia.
Qed.

Lemma read_varbytes_inv f d x d' : dec_ok d -> read_varbytes f d = Ok (x, d') ->
  varbytes_ok x /\ consumed d (varint_bytes (Z.of_nat (length x)) ++ x) d'.
Proof.
  intros Hd H. unfold read_varbytes in H. inv_ok. destruct x0.
  apply read_varint_inv in H0 as [Hv C1]; [|done].
  apply read_bytes_inv in H as [[Hl Hb] C2]; [|eauto with wire].
  apply ensure_allocation_len_ok in H1. int_unfold.
  assert (Z.of_nat (length x) = z) as -> by lia.
  split; [split; [done|unfold vec_ok; lia]|]. eapply consumed_trans; eauto.
Qed.

Section Lists.
Context {T} (enc : encoder_of T) (dec : decoder_of T) (wf : T -> Prop).

Definition items_bytes (l : list T) : bytes := concat (map (serialize enc) l).

Definition list_ok (l : list T) : Prop := Forall wf l /\ vec_ok l.

Lemma encode_items_push (Happ : forall x e, enc x e = push_bytes (serialize enc x) e) l e :
  fold_left (fun e item => enc item e) l e = push_bytes (items_bytes l) e.
Proof.
  revert e; induction l as [|x l IH]; intros e; simpl.
  - unfold push_bytes. destruct e; simpl. by rewrite app_nil_r.
  - by rewrite IH, Happ, push_bytes_push_bytes.
Qed.

Lemma serialize_VarList (Happ : forall x e, enc x e = push_bytes (serialize enc x) e) l :
  vec_ok l ->
  serialize (encode_VarList enc) l = varint_bytes (Z.of_nat (length l)) ++ items_bytes l.
Proof.
  intros Hl. apply serialize_push. intros e. unfold encode_VarList.
  rewrite encode_items_push by done.
  by rewrite encode_VarInt_bytes, push_bytes_push_bytes by by apply vec_len_u64.
Qed.

Lemma encode_VarList_append (Happ : forall x e, enc x e = push_bytes (serialize enc x) e) l e :
  encode_VarList enc l e = push_bytes (serialize (encode_VarList enc) l) e.
Proof.
  unfold serialize, encode_VarList. rewrite !encode_items_push by done. simpl.
  assert (forall n e, encode_VarInt n e = push_bytes (serialize encode_VarInt n) e) as Hv.
  { intros n e'. unfold serialize, encode_VarInt, push_bytes, push_u8.
    repeat case_match; simpl; by rewrite <- ?app_assoc. }
  by rewrite (Hv _ e), push_bytes_push_bytes.
Qed.

Lemma read_items_decodes (Hdec : forall x, wf x -> decodes dec x (serialize enc x)) l :
  Forall wf l -> decodes (read_items dec (length l)) l (items_bytes l).
Proof.
  induction 1 as [|x l Hx _ IH]; [apply decodes_ret|]. simpl.
  apply (decodes_bind dec (fun item d => let? '(items, d) := read_items dec (length l) d in
    Ok (item :: items, d)) x); [auto|].
  eapply (decodes_bind' (read_items dec (length l)) (fun items d => Ok (x :: items, d)));
    [by rewrite app_nil_r| apply IH | apply decodes_ret].
Qed.

Lemma items_bytes_ge (Hne : forall x, wf x -> (0 < length (serialize enc x))%nat) l :
  Forall wf l -> (length l <= length (items_bytes l))%nat.
Proof.
  induction 1 as [|x l Hx _ IH]; simpl; [lia|].
  unfold items_bytes in *; simpl. rewrite length_app. specialize (Hne x Hx). lia.
Qed.

Lemma read_items_inv (Hinv : forall d x d', dec_ok d -> dec d = Ok (x, d') -> wf x /\ consumed d (serialize enc x) d') n :
  forall d l d', dec_ok d -> read_items dec n d = Ok (l, d') ->
  length l = n /\ Forall wf l /\ consumed d (items_bytes l) d'.
Proof.
  induction n as [|n IH]; intros d l d' Hd H; simpl in H; inv_ok.
  - auto with wire.
  - apply Hinv in H0 as [Hw C1]; [|done].
    apply IH in H1 as (<- & Hf & C2); [|eauto with wire].
    split; [done|split; [by constructor|]]. eapply consumed_trans; eauto.
Qed.

Lemma read_items_advances (Hadv : advances dec) n : advances (read_items dec n).
Proof.
  induction n as [|n IH]; intros d l d' Hd H; simpl in H; inv_ok; [eauto with wire|].
  apply Hadv in H0 as [b1 C1]; [|done]. apply IH in H1 as [b2 C2]; [|eauto with wire].
  exists (b1 ++ b2). eapply consumed_trans; eauto.
Qed.

Lemma read_var_list_decodes (Hdec : forall x, wf x -> decodes dec x (serialize enc x))
    (Hne : forall x, wf x -> (0 < length (serialize enc x))%nat) f l :
  list_ok l ->
  decodes (read_var_list dec f) l (varint_bytes (Z.of_nat (length l)) ++ items_bytes l).
Proof.
  intros [Hf Hl] pre post. unfold read_var_list.
  pose proof (read_varint_decodes f _ (vec_len_u64 l Hl) pre (items_bytes l ++ post)) as Hv.
  rewrite <- !app_assoc in *. rewrite Hv. simpl.
  rewrite (proj2 (ensure_allocation_len_ok f _)) by done. simpl.
  pose proof (items_bytes_ge Hne l Hf).
  rewrite (proj2 (Z.ltb_ge _ _)) by (unfold remaining; simpl; rewrite !length_app; lia).
  rewrite Nat2Z.id.
  pose proof (read_items_decodes Hdec l Hf (pre ++ varint_bytes (Z.of_nat (length l))) post) as Hi.
  rewrite <- !app_assoc, !length_app in Hi. rewrite Hi, length_app. do 2 f_equal. f_equal. lia.
Qed.

Lemma read_var_list_inv (Hinv : forall d x d', dec_ok d -> dec d = Ok (x, d') -> wf x /\ consumed d (serialize enc x) d') f d l d' :
  dec_ok d -> read_var_list dec f d = Ok (l, d') ->
  list_ok l /\ consumed d (varint_bytes (Z.of_nat (length l)) ++ items_bytes l) d'.
Proof.
  intros Hd H. unfold read_var_list in H. inv_ok. destruct x.
  apply read_varint_inv in H0 as [Hv C1]; [|done]. apply ensure_allocation_len_ok in H1.
  case_match; [done|]. apply (read_items_inv Hinv) in H as (Hn & Hf & C2); [|eauto with wire].
  int_unfold. assert (Z.of_nat (length l) = z) as -> by lia.
  split; [split; [done | unfold vec_ok; lia]|]. eapply consumed_trans; eauto.
Qed.

Lemma read_var_list_advances (Hadv : advances dec) f : advances (read_var_list dec f).
Proof.
  intros d l d' Hd H. unfold read_var_list in H. inv_ok. destruct x.
  apply read_varint_inv in H0 as [Hv C1]; [|done]. case_match; [done|].
  apply (read_items_advances Hadv) in H as [b C2]; [|eauto with wire].
  eexists. eapply consumed_trans; eauto.
Qed.
End Lists.

Lemma accepts_advances {T} (dec : decoder_of T) wf ser : accepts dec wf ser -> advances dec.
Proof. intros H d x d' Hd E. destruct (H d x d' Hd E). eauto. Qed.

(** The remaining laws of a canonical codec follow from acceptance. *)
Lemma canonical_codec {T} (enc : encoder_of T) dec wf :
  (forall x e, enc x e = push_bytes (serialize enc x) e) ->
  (forall x, wf x -> (0 < length (serialize enc x))%nat) ->
  (forall x, wf x -> decodes dec x (serialize enc x)) ->
  accepts dec wf (serialize enc) -> WireCodec enc dec wf.
Proof. intros. constructor; auto. by eapply accepts_advances. Qed.

(** ** Instances *)

Section IntInstances.
Variables (n : nat) (conv : bytes -> Z) (rng : Z -> Prop) (tob : Z -> bytes) (f : string).
Hypothesis Hn : (0 < n)%nat.
Hypothesis tob_len : forall z, length (tob z) = n.
Hypothesis conv_tob : forall z, rng z -> conv (tob z) = z.
Hypothesis conv_ok : forall l, array_ok n l -> rng (conv l) /\ tob (conv l) = l.

Lemma int_codec : WireCodec (fun v e => push_bytes (tob v) e) (read_int n conv f) rng.
Proof.
  assert (forall x, serialize (fun v e => push_bytes (tob v) e) x = tob x) as Hs
    by (intros; by apply serialize_push).
  split; intros; rewrite ?Hs; auto.
  - rewrite tob_len. lia.
  - rewrite <- (conv_tob x) at 1 by done. by apply read_int_decodes.
  - intros d z d' Hd H. apply read_int_inv in H as (bs & _ & _ & C); eauto.
Qed.

Lemma int_canonical : WireCanonical (fun v e => push_bytes (tob v) e) (read_int n conv f) rng.
Proof.
  intros d z d' Hd H. apply read_int_inv in H as (bs & Ha & -> & C); [|done].
  destruct (conv_ok bs Ha) as [Hr E]. split; [done|].
  by rewrite (serialize_push _ (tob (conv bs))), E.
Qed.
End IntInstances.

Lemma of_le_array n l : array_ok n l -> 0 <= of_le l < 2 ^ (8 * Z.of_nat n) /\ le_bytes n (of_le l) = l.
Proof. intros [<- Hb]. split; [by apply of_le_bound | by apply le_bytes_of_le]. Qed.

Lemma of_le_signed_array n l : (0 < n)%nat -> array_ok n l ->
  - 2 ^ (8 * Z.of_nat n - 1) <= of_le_signed (8 * Z.of_nat n) l < 2 ^ (8 * Z.of_nat n - 1) /\
  le_bytes n (of_le_signed (8 * Z.of_nat n) l) = l.
Proof.
  intros Hn Ha. split; [apply wrap_s_range; lia | by apply le_bytes_of_le_signed].
Qed.

#[export] Instance u32_codec : WireCodec encode_u32 decode_u32 u32_ok.
Proof. apply int_codec; [lia | apply length_le_bytes | intros; by apply le_bytes_small]. Qed.
#[export] Instance u32_canonical : WireCanonical encode_u32 decode_u32 u32_ok.
Proof. apply int_canonical. intros. by apply (of_le_array 4). Qed.
#[export] Instance u64_codec : WireCodec encode_u64 decode_u64 u64_ok.
Proof. apply int_codec; [lia | apply length_le_bytes | intros; by apply le_bytes_small]. Qed.
#[export] Instance u64_canonical : WireCanonical encode_u64 decode_u64 u64_ok.
Proof. apply int_canonical. intros. by apply (of_le_array 8). Qed.
#[export] Instance i32_codec : WireCodec encode_i32 decode_i32 i32_ok.
Proof.
  apply int_codec; [lia | apply length_le_bytes |].
  intros. by apply (of_le_signed_le_bytes 4); [lia|].
Qed.
#[export] Instance i32_canonical : WireCanonical encode_i32 decode_i32 i32_ok.
Proof. apply int_canonical. intros. apply (of_le_signed_array 4); [lia|done]. Qed.
#[export] Instance i64_codec : WireCodec encode_i64 decode_i64 i64_ok.
Proof.
  apply int_codec; [lia | apply length_le_bytes |].
  intros. by apply (of_le_signed_le_bytes 8); [lia|].
Qed.
#[export] Instance i64_canonical : WireCanonical encode_i64 decode_i64 i64_ok.
Proof. apply int_canonical. intros. apply (of_le_signed_array 8); [lia|done]. Qed.

Lemma be_bytes_array l : array_ok 2 l -> u16_ok (of_be l) /\ be_bytes 2 (of_be l) = l.
Proof.
  intros [Hl Hb]. unfold of_be, be_bytes.
  assert (array_ok 2 (reverse l)) as Ha
    by (split; [by rewrite length_reverse | unfold bytes_ok; by rewrite Forall_reverse]).
  destruct (of_le_array 2 _ Ha) as [? ->]. split; [done|apply reverse_involutive].
Qed.
#[export] Instance U16BE_codec : WireCodec encode_U16BE decode_U16BE u16_ok.
Proof.
  apply int_codec; [lia | intros; unfold be_bytes; by rewrite length_reverse, length_le_bytes |].
  intros. unfold of_be, be_bytes. rewrite reverse_involutive. by apply le_bytes_small.
Qed.
#[export] Instance U16BE_canonical : WireCanonical encode_U16BE decode_U16BE u16_ok.
Proof. apply int_canonical. apply be_bytes_array. Qed.

#[export] Instance u8_codec : WireCodec encode_u8 decode_u8 u8_ok.
Proof.
  assert (forall x, serialize encode_u8 x = [x]) as Hs by (intros; by apply serialize_push).
  split; intros; rewrite ?Hs.
  - done.
  - simpl; lia.
  - apply read_u8_decodes.
  - intros d x d' Hd H. apply read_u8_inv in H as [_ C]; eauto.
Qed.
#[export] Instance u8_canonical : WireCanonical encode_u8 decode_u8 u8_ok.
Proof. intros d x d' Hd H. by apply read_u8_inv in H. Qed.

#[export] Instance bool_codec : WireCodec encode_bool decode_bool (fun _ => True).
Proof.
  assert (forall x, serialize encode_bool x = [if x then 1 else 0]) as Hs
    by (intros; by apply serialize_push).
  split; intros; rewrite ?Hs.
  - done.
  - simpl; lia.
  - destruct x; apply read_bool_decodes.
  - intros d x d' Hd H. apply read_bool_inv in H as (b & _ & _ & C); eauto.
Qed.

#[export] Instance VarInt_codec : WireCodec encode_VarInt decode_VarInt u64_ok.
Proof.
  split; intros; rewrite ?serialize_VarInt by done.
  - unfold serialize, encode_VarInt, push_bytes, push_u8. repeat case_match; simpl; by rewrite <- ?app_assoc.
  - apply varint_bytes_pos.
  - by apply read_varint_decodes.
  - intros d x d' Hd H. apply read_varint_inv in H as [_ C]; eauto.
Qed.
#[export] Instance VarInt_canonical : WireCanonical encode_VarInt decode_VarInt u64_ok.
Proof. intros d x d' Hd H. apply read_varint_inv in H as [Hv C]; [|done]. by rewrite serialize_VarInt. Qed.

Lemma varbytes_codec f : WireCodec encode_VarBytes (read_varbytes f) varbytes_ok.
Proof.
  split.
  - intros. unfold serialize, encode_VarBytes. rewrite (wire_append (enc := encode_VarInt)).
    by rewrite !push_bytes_push_bytes.
  - intros x [_ Hx]. rewrite serialize_VarBytes, length_app by done.
    pose proof (varint_bytes_pos (Z.of_nat (length x))). lia.
  - intros x [_ Hx]. rewrite serialize_VarBytes by done. by apply read_varbytes_decodes.
  - intros d x d' Hd H. apply read_varbytes_inv in H as [_ C]; eauto.
Qed.
Lemma varbytes_canonical f : WireCanonical encode_VarBytes (read_varbytes f) varbytes_ok.
Proof.
  intros d x d' Hd H. apply read_varbytes_inv in H as [Hx C]; [|done].
  rewrite serialize_VarBytes by apply Hx. done.
Qed.
#[export] Instance Vec_u8_codec : WireCodec encode_Vec_u8 decode_Vec_u8 varbytes_ok := varbytes_codec _.
#[export] Instance Vec_u8_canonical : WireCanonical encode_Vec_u8 decode_Vec_u8 varbytes_ok := varbytes_canonical _.

Lemma array_codec n : (0 < n)%nat -> WireCodec encode_array (decode_array n) (array_ok n).
Proof.
  intros Hn.
  assert (forall x, serialize encode_array x = x) as Hs by (intros; by apply serialize_push).
  split; intros; rewrite ?Hs.
  - done.
  - destruct H. lia.
  - apply read_bytes_decodes, H.
  - intros d x d' Hd H. apply read_bytes_inv in H as [_ C]; eauto.
Qed.
Lemma array_canonical n : WireCanonical encode_array (decode_array n) (array_ok n).
Proof.
  intros d x d' Hd H. apply read_bytes_inv in H; [|done]. by rewrite (serialize_push encode_array x).
Qed.
#[export] Instance array32_codec : WireCodec encode_array (decode_array 32) (array_ok 32) := array_codec 32 ltac:(lia).
#[export] Instance array32_canonical : WireCanonical encode_array (decode_array 32) (array_ok 32) := array_canonical 32.

Lemma VarList_codec {T} (enc : encoder_of T) dec wf `{!WireCodec enc dec wf} f :
  WireCodec (encode_VarList enc) (read_var_list dec f) (list_ok wf).
Proof.
  split.
  - intros. apply encode_VarList_append, wire_append.
  - intros l [_ Hl]. rewrite (serialize_VarList enc wire_append), length_app by done.
    pose proof (varint_bytes_pos (Z.of_nat (length l))). lia.
  - intros l Hl. rewrite (serialize_VarList enc wire_append) by apply Hl.
    eapply read_var_list_decodes; eauto using wire_decodes, wire_nonempty.
  - apply read_var_list_advances, wire_advances.
Qed.
Lemma VarList_canonical {T} (enc : encoder_of T) dec wf `{!WireCodec enc dec wf, !WireCanonical enc dec wf} f :
  WireCanonical (encode_VarList enc) (read_var_list dec f) (list_ok wf).
Proof.
  intros d l d' Hd H. eapply read_var_list_inv in H as [Hl C]; [| |done].
  - rewrite (serialize_VarList enc wire_append) by apply Hl. done.
  - apply wire_accepts.
Qed.

(** ** Whole payloads *)

Lemma decode_exact_serialize {T} (enc : encoder_of T) dec wf `{!WireCodec enc dec wf} x ctx :
  wf x -> decode_exact dec (serialize enc x) ctx = Ok x.
Proof.
  intros Hx. unfold decode_exact, Decoder_new.
  pose proof (wire_decodes x Hx [] []) as H. rewrite app_nil_l, app_nil_r in H. simpl in H.
  rewrite H. simpl. unfold finish, is_done; simpl. by rewrite Nat.eqb_refl.
Qed.

Lemma decode_exact_inv {T} (enc : encoder_of T) dec wf `{!WireCanonical enc dec wf} x p ctx :
  bytes_ok p -> decode_exact dec p ctx = Ok x -> wf x /\ p = serialize enc x.
Proof.
  intros Hp H. unfold decode_exact in H. inv_ok.
  apply (wire_accepts (Decoder_new p)) in H0 as [Hw (E1 & E2 & E3 & _)];
    [|split; [simpl; lia|done]].
  split; [done|]. unfold finish, is_done in H1. simpl in *.
  destruct (Nat.eqb_spec (dec_pos d) (length (dec_data d))) as [Ed|]; [|done].
  rewrite Ed, E1, drop_all, app_nil_r, drop_0 in E2. done.
Qed.

(** Tactic: simplify the serialization of a record encoder, field by field. *)
Ltac ser_simpl :=
  unfold serialize, finish_enc in *;
  repeat (rewrite ?push_u8_bytes, ?push_bytes_push_bytes, ?buf_push_bytes in *; simpl in *).

#[global] Opaque serialize.
