(* ===== verification/Hash.v ===== *)
(** * Hash functions and hash types (crates/common/types/hash.rs)

    SHA-256, RIPEMD-160 and SHA-1 come from third-party crates: they are the
    operations of the class [Digests], with the digest lengths their
    documentation promises as [DigestsOk].  [hash256], [hash160] and the
    numeric order of [Hash256] are the code's own. *)

From S2P Require Import Prelude Wire.

Class Digests : Type := {
  sha256 : bytes -> bytes;
  ripemd160 : bytes -> bytes;
  sha1 : bytes -> bytes;
}.

Class DigestsOk (D : Digests) : Prop := {
  sha256_array : forall d, array_ok 32 (sha256 d);
  ripemd160_array : forall d, array_ok 20 (ripemd160 d);
  sha1_array : forall d, array_ok 20 (sha1 d);
}.

Section Hash.
Context {D : Digests}.

Definition hash256 (data : bytes) : bytes := sha256 (sha256 data).
Definition hash160 (data : bytes) : bytes := ripemd160 (sha256 data).
End Hash.

(** [Hash256], [BlockHash] and [Txid] are newtypes over [[u8; 32]]. *)
Abbreviation Hash256 := bytes (only parsing).
Abbreviation BlockHash := bytes (only parsing).
Abbreviation Txid := bytes (only parsing).
Definition hash_ok (h : bytes) : Prop := array_ok 32 h.

Definition ZERO_HASH : bytes := replicate 32 0.

Definition is_zero (h : bytes) : bool := forallb (fun b => b =? 0) h.

(** [Ord for Hash256]: the loop [for i in (0..32).rev()]. *)
Fixpoint cmp_from (i : nat) (a b : bytes) : comparison :=
  match i with
  | O => Eq
  | S i => match idx a i ?= idx b i with Eq => cmp_from i a b | c => c end
  end.
Definition Hash256_cmp (a b : Hash256) : comparison := cmp_from 32 a b.
Definition Hash256_le (a b : Hash256) : bool := match Hash256_cmp a b with Gt => false | _ => true end.
Definition Hash256_gt (a b : Hash256) : bool := match Hash256_cmp a b with Gt => true | _ => false end.

Definition encode_Hash256 : encoder_of Hash256 := encode_array.
Definition decode_Hash256 : decoder_of Hash256 := decode_array 32.

(** ** Lemmas *)

Lemma hash256_array {D : Digests} {DO : DigestsOk D} d : array_ok 32 (hash256 d).
Proof. apply sha256_array. Qed.

Lemma ZERO_HASH_ok : hash_ok ZERO_HASH.
Proof. split; [done|]. apply Forall_replicate. int_unfold. lia. Qed.

Lemma is_zero_of_le h : bytes_ok h -> is_zero h = true <-> of_le h = 0.
Proof.
  induction 1 as [|b l Hb Hl IH]; simpl; [done|].
  pose proof (of_le_bound l Hl). rewrite andb_true_iff, Z.eqb_eq. unfold is_zero in IH.
  rewrite IH. int_unfold. lia.
Qed.

Lemma of_le_nth_split l i : (i < length l)%nat ->
  of_le (take (S i) l) = of_le (take i l) + 2 ^ (8 * Z.of_nat i) * idx l i.
Proof.
  intros Hi. destruct (lookup_lt_is_Some_2 _ _ Hi) as [x Hx].
  rewrite (take_S_r _ _ _ Hx), of_le_app, length_take_le by lia.
  rewrite (nth_lookup_Some _ _ 0 _ Hx). simpl. lia.
Qed.

Lemma cmp_from_spec i a b : bytes_ok a -> bytes_ok b ->
  (i <= length a)%nat -> (i <= length b)%nat ->
  cmp_from i a b = (of_le (take i a) ?= of_le (take i b)).
Proof.
  intros Ha Hb. induction i as [|i IH]; intros La Lb; [done|].
  cbn [cmp_from]. rewrite !of_le_nth_split by lia.
  pose proof (of_le_bound (take i a) (bytes_ok_take i a Ha)) as Ba.
  pose proof (of_le_bound (take i b) (bytes_ok_take i b Hb)) as Bb.
  rewrite length_take_le in Ba, Bb by lia.
  destruct (Z.compare_spec (idx a i) (idx b i)) as [E|E|E].
  - rewrite IH, E by lia. destruct (Z.compare_spec (of_le (take i a)) (of_le (take i b)));
      symmetry; rewrite ?Z.compare_eq_iff, ?Z.compare_lt_iff, ?Z.compare_gt_iff; lia.
  - symmetry. apply Z.compare_lt_iff. nia.
  - symmetry. apply Z.compare_gt_iff. nia.
Qed.

Lemma Hash256_cmp_spec a b : hash_ok a -> hash_ok b ->
  Hash256_cmp a b = (of_le a ?= of_le b).
Proof.
  intros [La Ha] [Lb Hb]. unfold Hash256_cmp. rewrite cmp_from_spec by (done || lia).
  by rewrite !take_ge by lia.
Qed.

Lemma Hash256_le_spec a b : hash_ok a -> hash_ok b -> Hash256_le a b = (of_le a <=? of_le b).
Proof. intros. unfold Hash256_le, Z.leb. by rewrite Hash256_cmp_spec by done. Qed.

Lemma Hash256_gt_spec a b : hash_ok a -> hash_ok b -> Hash256_gt a b = (of_le b <? of_le a).
Proof.
  intros. unfold Hash256_gt, Z.ltb. rewrite Hash256_cmp_spec, (Z.compare_antisym (of_le a)) by done.
  by destruct (of_le a ?= of_le b).
Qed.

(** A concrete digest family, for evaluating the model on examples. *)
Definition toy_digest (n : nat) (d : bytes) : bytes :=
  take n (map (fun b => b mod 256) (reverse d) ++ replicate n (Z.of_nat (length d) mod 256)).
Definition toy_digests : Digests :=
  {| sha256 := toy_digest 32; ripemd160 := toy_digest 20; sha1 := toy_digest 20 |}.

Lemma toy_digest_array n d : array_ok n (toy_digest n d).
Proof.
  unfold toy_digest. split.
  - rewrite length_take, length_app, length_replicate. lia.
  - assert (forall z, u8_ok (z mod 256)) by (intros; int_unfold; apply Z.mod_pos_bound; lia).
    apply bytes_ok_take, bytes_ok_app. split.
    + apply Forall_forall. intros x. rewrite list_elem_of_In, in_map_iff. naive_solver.
    + apply Forall_replicate. auto.
Qed.
Lemma toy_digests_ok : DigestsOk toy_digests.
Proof. split; intros; apply toy_digest_array. Qed.
