(* ===== verification/Transaction.v ===== *)
(** * Amounts, scripts, transactions, coins (crates/common/types)

    amount.rs, script.rs (the byte buffer), transaction.rs, coin.rs, undo.rs
    and flat_file_pos.rs: the data, their arithmetic and their wire codecs. *)

From S2P Require Import Prelude Wire Hash.

(** ** Amounts (amount.rs) *)

Definition COIN : Z := 100000000.
Definition MAX_MONEY : Z := 21000000 * COIN.

(** [Amount] is a newtype over [u64]. *)
Abbreviation Amount := Z (only parsing).

Inductive AmountError : Type :=
  | ExceedsMaxMoney (sats : Z)
  | WouldBeNegative (minuend subtrahend : Z)
  | AmountOverflow.

Definition Amount_from_sat (sats : Z) : result Amount AmountError :=
  if MAX_MONEY <? sats then Err (ExceedsMaxMoney sats) else Ok sats.

Definition option_filter {A} (p : A -> bool) (o : option A) : option A :=
  match o with Some a => if p a then Some a else None | None => None end.

Definition Amount_checked_add (a b : Amount) : option Amount :=
  option_filter (fun v => v <=? MAX_MONEY) (checked_add_u U64_MAX a b).
Definition Amount_checked_sub (a b : Amount) : option Amount := checked_sub_u a b.
Definition Amount_checked_mul (a : Amount) (factor : Z) : option Amount :=
  option_filter (fun v => v <=? MAX_MONEY) (checked_mul_u U64_MAX a factor).
Definition Amount_is_valid (a : Amount) : bool := a <=? MAX_MONEY.

(** The documented range of [Amount]. *)
Definition amount_range (a : Amount) : Prop := 0 <= a <= MAX_MONEY.

Definition encode_Amount : encoder_of Amount := encode_u64.
Definition decode_Amount : decoder_of Amount := decode_u64.

(** ** Scripts (script.rs) *)

Abbreviation ScriptBuf := bytes (only parsing).
Definition encode_ScriptBuf : encoder_of ScriptBuf := encode_VarBytes.
Definition decode_ScriptBuf : decoder_of ScriptBuf := read_varbytes "ScriptBuf".

(** ** Transactions (transaction.rs) *)

Record OutPoint : Type := mkOutPoint { op_txid : Txid; op_vout : Z }.

Definition OutPoint_COINBASE : OutPoint := mkOutPoint ZERO_HASH U32_MAX.

Definition OutPoint_is_coinbase (o : OutPoint) : bool :=
  bool_decide (op_txid o = ZERO_HASH) && (op_vout o =? U32_MAX).

Definition encode_OutPoint : encoder_of OutPoint := fun o e =>
  encode_u32 (op_vout o) (encode_array (op_txid o) e).
Definition decode_OutPoint : decoder_of OutPoint := fun d =>
  let? '(txid_bytes, d) := decode_array 32 d in
  let? '(vout, d) := decode_u32 d in
  Ok (mkOutPoint txid_bytes vout, d).

Record TxIn : Type := mkTxIn {
  previous_output : OutPoint;
  script_sig : ScriptBuf;
  sequence : Z;
  witness : list bytes;
}.

Definition SEQUENCE_FINAL : Z := 0xFFFFFFFF.
Definition TxIn_is_final (i : TxIn) : bool := sequence i =? SEQUENCE_FINAL.
Definition signals_rbf (i : TxIn) : bool := sequence i <? 0xFFFFFFFE.

Definition encode_TxIn : encoder_of TxIn := fun i e =>
  encode_u32 (sequence i) (encode_ScriptBuf (script_sig i) (encode_OutPoint (previous_output i) e)).
Definition decode_TxIn : decoder_of TxIn := fun d =>
  let? '(prev, d) := decode_OutPoint d in
  let? '(sig, d) := decode_ScriptBuf d in
  let? '(seq, d) := decode_u32 d in
  Ok (mkTxIn prev sig seq [], d).

Record TxOut : Type := mkTxOut { value : Amount; script_pubkey : ScriptBuf }.

Definition encode_TxOut : encoder_of TxOut := fun o e =>
  encode_ScriptBuf (script_pubkey o) (encode_Amount (value o) e).
Definition decode_TxOut : decoder_of TxOut := fun d =>
  let? '(val, d) := decode_Amount d in
  let? '(script, d) := decode_ScriptBuf d in
  Ok (mkTxOut val script, d).

Record Transaction : Type := mkTransaction {
  version : Z;
  inputs : list TxIn;
  outputs : list TxOut;
  lock_time : Z;
}.

Definition is_coinbase (tx : Transaction) : bool :=
  match inputs tx with
  | [i] => OutPoint_is_coinbase (previous_output i)
  | _ => false
  end.

Definition is_segwit (tx : Transaction) : bool :=
  existsb (fun i => match witness i with [] => false | _ => true end) (inputs tx).

Definition item_serialized_size (item : bytes) : nat :=
  (VarInt_serialized_size (Z.of_nat (length item)) + length item)%nat.
Definition input_witness_size (i : TxIn) : nat :=
  (VarInt_serialized_size (Z.of_nat (length (witness i)))
   + fold_left (fun size item => size + item_serialized_size item) (witness i) 0)%nat.
Definition witness_serialized_size (tx : Transaction) : nat :=
  if negb (is_segwit tx) then 0%nat
  else fold_left (fun size i => (size + input_witness_size i)%nat) (inputs tx) 2%nat.

(** [output_value]: [try_fold] with [checked_add]. *)
Fixpoint sum_outputs (acc : Amount) (outs : list TxOut) : option Amount :=
  match outs with
  | [] => Some acc
  | o :: outs =>
    match Amount_checked_add acc (value o) with
    | Some acc => sum_outputs acc outs
    | None => None
    end
  end.
Definition output_value (tx : Transaction) : option Amount := sum_outputs 0 (outputs tx).

(** The encoding [txid] hashes, and the legacy branch of [encode]. *)
Definition encode_legacy : encoder_of Transaction := fun tx e =>
  encode_u32 (lock_time tx)
    (encode_VarList encode_TxOut (outputs tx)
      (encode_VarList encode_TxIn (inputs tx) (encode_u32 (version tx) e))).

(** The segwit branch of [encode]. *)
Definition encode_segwit : encoder_of Transaction := fun tx e =>
  let e := encode_u8 1 (encode_u8 0 (encode_u32 (version tx) e)) in
  let e := encode_VarList encode_TxOut (outputs tx) (encode_VarList encode_TxIn (inputs tx) e) in
  let e := fold_left (fun e i => encode_VarList encode_Vec_u8 (witness i) e) (inputs tx) e in
  encode_u32 (lock_time tx) e.

Definition encode_Transaction : encoder_of Transaction := fun tx e =>
  if is_segwit tx then encode_segwit tx e else encode_legacy tx e.

Definition set_witness (i : TxIn) (w : list bytes) : TxIn :=
  mkTxIn (previous_output i) (script_sig i) (sequence i) w.

(** The loop [for input in &mut inputs] of the segwit branch of [decode]. *)
Fixpoint read_witnesses (ins : list TxIn) (d : Decoder) : result (list TxIn * Decoder) DecodeError :=
  match ins with
  | [] => Ok ([], d)
  | i :: ins =>
    let? '(w, d) := read_var_list decode_Vec_u8 "Transaction::witness" d in
    let? '(ins, d) := read_witnesses ins d in
    Ok (set_witness i w :: ins, d)
  end.

Definition decode_Transaction : decoder_of Transaction := fun d =>
  let? '(version, d) := decode_u32 d in
  let? marker := peek_u8 d "Transaction::marker" in
  if marker =? 0 then
    let? '(_, d) := decode_u8 d in
    let? '(flag, d) := decode_u8 d in
    if negb (flag =? 1) then Err (CustomError "invalid SegWit flag") else
    let? '(ins, d) := read_var_list decode_TxIn "Transaction::inputs" d in
    let? '(outs, d) := read_var_list decode_TxOut "Transaction::outputs" d in
    let? '(ins, d) := read_witnesses ins d in
    let? '(lock_time, d) := decode_u32 d in
    Ok (mkTransaction version ins outs lock_time, d)
  else
    let? '(ins, d) := read_var_list decode_TxIn "Transaction::inputs" d in
    let? '(outs, d) := read_var_list decode_TxOut "Transaction::outputs" d in
    let? '(lock_time, d) := decode_u32 d in
    Ok (mkTransaction version ins outs lock_time, d).

Section Ids.
Context {D : Digests}.

Definition txid (tx : Transaction) : Txid := hash256 (serialize encode_legacy tx).

Definition wtxid (tx : Transaction) : Txid :=
  if negb (is_segwit tx) then txid tx else hash256 (serialize encode_Transaction tx).

(** [Transaction::signature_hash], the SIGHASH_ALL-only form of this file. *)
Definition signature_hash (tx : Transaction) (input_index : nat) (script : ScriptBuf)
    (sighash_type : Z) : bytes :=
  if (length (inputs tx) <=? input_index)%nat then 1 :: replicate 31 0
  else
    let ins := map (fun i => mkTxIn (previous_output i) [] (sequence i) (witness i)) (inputs tx) in
    let ins := alter (fun i => mkTxIn (previous_output i) script (sequence i) (witness i)) input_index ins in
    hash256 (finish_enc (encode_u32 sighash_type
      (encode_legacy (mkTransaction (version tx) ins (outputs tx) (lock_time tx)) Encoder_new))).
End Ids.

(** ** Coins and undo data (coin.rs, undo.rs) *)

Record Coin : Type := mkCoin { output : TxOut; height : Z; coin_is_coinbase : bool }.

Definition encode_Coin : encoder_of Coin := fun c e =>
  encode_TxOut (output c) (encode_bool (coin_is_coinbase c) (encode_u32 (height c) e)).
Definition decode_Coin : decoder_of Coin := fun d =>
  let? '(h, d) := decode_u32 d in
  let? '(cb, d) := decode_bool d in
  let? '(o, d) := decode_TxOut d in
  Ok (mkCoin o h cb, d).

Record BlockUndo : Type := mkBlockUndo { spent_coins : list Coin }.

Definition BlockUndo_new : BlockUndo := mkBlockUndo [].
Definition BlockUndo_push (u : BlockUndo) (c : Coin) : BlockUndo := mkBlockUndo (spent_coins u ++ [c]).

Definition encode_BlockUndo : encoder_of BlockUndo := fun u e =>
  encode_VarList encode_Coin (spent_coins u) e.
Definition decode_BlockUndo : decoder_of BlockUndo := fun d =>
  let? '(cs, d) := read_var_list decode_Coin "BlockUndo" d in Ok (mkBlockUndo cs, d).

(** ** Flat file positions (flat_file_pos.rs) *)

Record FlatFilePos : Type := mkFlatFilePos { ff_file : Z; ff_offset : Z }.

Definition encode_FlatFilePos : encoder_of FlatFilePos := fun p e =>
  encode_u32 (ff_offset p) (encode_u32 (ff_file p) e).
Definition decode_FlatFilePos : decoder_of FlatFilePos := fun d =>
  let? '(file, d) := decode_u32 d in
  let? '(offset, d) := decode_u32 d in
  Ok (mkFlatFilePos file offset, d).

(** ** Decidable equality and countability of the keys *)

#[export] Instance OutPoint_eq_dec : EqDecision OutPoint.
Proof. solve_decision. Defined.
#[export] Instance TxIn_eq_dec : EqDecision TxIn.
Proof. solve_decision. Defined.
#[export] Instance TxOut_eq_dec : EqDecision TxOut.
Proof. solve_decision. Defined.
#[export] Instance Transaction_eq_dec : EqDecision Transaction.
Proof. solve_decision. Defined.
#[export] Instance Coin_eq_dec : EqDecision Coin.
Proof. solve_decision. Defined.
#[export] Instance FlatFilePos_eq_dec : EqDecision FlatFilePos.
Proof. solve_decision. Defined.

#[export] Instance OutPoint_countable : Countable OutPoint.
Proof.
  apply (inj_countable' (fun o => (op_txid o, op_vout o)) (fun p => mkOutPoint p.1 p.2)).
  by intros [].
Defined.

(** ** Amount arithmetic *)

Lemma Amount_checked_add_spec a b r : 0 <= a -> 0 <= b ->
  Amount_checked_add a b = Some r <-> r = a + b /\ a + b <= MAX_MONEY.
Proof.
  intros Ha Hb. unfold Amount_checked_add, checked_add_u, option_filter, U64_MAX, MAX_MONEY, COIN.
  destruct (Z.leb_spec (a + b) (2 ^ 64 - 1)); [|split; [done|lia]].
  destruct (Z.leb_spec (a + b) (21000000 * 100000000)); split; try done; try lia.
  - intros [= <-]. lia.
  - by intros [-> _].
Qed.

Lemma sum_outputs_spec outs acc r : 0 <= acc <= MAX_MONEY -> Forall (fun o => 0 <= value o) outs ->
  sum_outputs acc outs = Some r <->
  r = acc + foldr (fun o s => value o + s) 0 outs /\ acc + foldr (fun o s => value o + s) 0 outs <= MAX_MONEY.
Proof.
  intros Hacc Hf. revert acc Hacc. induction Hf as [|o outs Ho Hf IH]; intros acc Hacc; simpl.
  - rewrite Z.add_0_r. split; [intros [= <-]; lia|by intros [-> _]].
  - assert (0 <= foldr (fun o s => value o + s) 0 outs) by (clear -Hf; induction Hf; simpl; lia).
    destruct (Amount_checked_add acc (value o)) as [s|] eqn:E.
    + apply Amount_checked_add_spec in E as [-> Hs]; [|lia|lia]. rewrite IH by lia. by rewrite Z.add_assoc.
    + split; [done|]. intros [_ Hle]. exfalso.
      assert (Amount_checked_add acc (value o) = Some (acc + value o)); [|congruence].
      apply Amount_checked_add_spec; lia.
Qed.

(** ** Codecs *)

Definition outpoint_ok (o : OutPoint) : Prop := hash_ok (op_txid o) /\ u32_ok (op_vout o).
Definition txin_base_ok (i : TxIn) : Prop :=
  outpoint_ok (previous_output i) /\ varbytes_ok (script_sig i) /\ u32_ok (sequence i).
Definition txin_ok (i : TxIn) : Prop := txin_base_ok i /\ witness i = [].
Definition txout_ok (o : TxOut) : Prop := u64_ok (value o) /\ varbytes_ok (script_pubkey o).
Definition coin_ok (c : Coin) : Prop := u32_ok (height c) /\ txout_ok (output c).
Definition undo_ok (u : BlockUndo) : Prop := list_ok coin_ok (spent_coins u).
Definition flatpos_ok (p : FlatFilePos) : Prop := u32_ok (ff_file p) /\ u32_ok (ff_offset p).

#[export] Instance ScriptBuf_codec : WireCodec encode_ScriptBuf decode_ScriptBuf varbytes_ok := varbytes_codec _.
#[export] Instance ScriptBuf_canonical : WireCanonical encode_ScriptBuf decode_ScriptBuf varbytes_ok := varbytes_canonical _.

Lemma serialize_array x : serialize encode_array x = x.
Proof. by apply serialize_push. Qed.
Lemma serialize_u32 x : serialize encode_u32 x = le_bytes 4 x.
Proof. by apply serialize_push. Qed.
Lemma serialize_u64 x : serialize encode_u64 x = le_bytes 8 x.
Proof. by apply serialize_push. Qed.

(** The append law at the field encoders records are built from. *)
#[local] Transparent serialize.
Lemma push_u8' x e : encode_u8 x e = push_bytes (serialize encode_u8 x) e. Proof. done. Qed.
Lemma push_u32 x e : encode_u32 x e = push_bytes (serialize encode_u32 x) e. Proof. done. Qed.
Lemma push_u64 x e : encode_u64 x e = push_bytes (serialize encode_u64 x) e. Proof. done. Qed.
Lemma push_bool x e : encode_bool x e = push_bytes (serialize encode_bool x) e. Proof. done. Qed.
Lemma push_array x e : encode_array x e = push_bytes (serialize encode_array x) e. Proof. done. Qed.
#[local] Opaque serialize.
Lemma push_ScriptBuf x e : encode_ScriptBuf x e = push_bytes (serialize encode_ScriptBuf x) e.
Proof. apply wire_append. Qed.

(** Rewrites a chain of field encoders into one [push_bytes]. *)
#[export] Hint Rewrite push_u8' push_u32 push_u64 push_bool push_ScriptBuf
  push_bytes_push_bytes : wire_push.
Ltac push_chain := autorewrite with wire_push.

(** Splits a successful record decoder into what its fields consumed. *)
Ltac accept_step :=
  match goal with
  | H : _ ?d = Ok (_, ?d'), Hd : dec_ok ?d |- _ =>
    let Hw := fresh "Hw" in let C := fresh "C" in
    apply wire_accepts in H as [Hw C]; [|exact Hd];
    pose proof (consumed_ok _ _ _ C)
  end.
Ltac advance_step :=
  match goal with
  | H : _ ?d = Ok (_, ?d'), Hd : dec_ok ?d |- _ =>
    let C := fresh "C" in
    apply wire_advances in H as [? C]; [|exact Hd];
    pose proof (consumed_ok _ _ _ C)
  end.

(** Discharges the laws of a record codec from those of its fields. *)
Ltac solve_decodes :=
  repeat (eapply decodes_bind'; [reflexivity | by apply wire_decodes |]);
  lazymatch goal with
  | |- decodes (fun d => rbind _ (fun v => let (a, d) := v in Ok (@?f a, d))) _ _ =>
    apply (decodes_last _ f); by apply wire_decodes
  end.
Ltac solve_accepts :=
  inv_ok; repeat accept_step; rewrite ?app_assoc;
  repeat (eapply consumed_trans; [|eassumption]); eassumption.

Lemma encode_OutPoint_push o e : encode_OutPoint o e =
  push_bytes (serialize encode_array (op_txid o) ++ serialize encode_u32 (op_vout o)) e.
Proof. unfold encode_OutPoint. rewrite (push_array (op_txid o)). by push_chain. Qed.
Lemma serialize_OutPoint o : serialize encode_OutPoint o =
  serialize encode_array (op_txid o) ++ serialize encode_u32 (op_vout o).
Proof. apply serialize_push, encode_OutPoint_push. Qed.

#[export] Instance OutPoint_canonical : WireCanonical encode_OutPoint decode_OutPoint outpoint_ok.
Proof.
  intros d x d' Hd H. rewrite serialize_OutPoint. unfold decode_OutPoint in H.
  inv_ok; repeat accept_step. split; [done|]. eapply consumed_trans; eauto.
Qed.
#[export] Instance OutPoint_codec : WireCodec encode_OutPoint decode_OutPoint outpoint_ok.
Proof.
  apply canonical_codec; [|intros x Hx|intros x [??]|apply OutPoint_canonical].
  - intros. by rewrite serialize_OutPoint, encode_OutPoint_push.
  - rewrite serialize_OutPoint, length_app, serialize_u32, length_le_bytes. lia.
  - rewrite serialize_OutPoint. destruct x.
    unfold decode_OutPoint. solve_decodes.
Qed.

(** TxIn: the witness is not part of an input's own encoding. *)
Lemma encode_TxIn_push i e : encode_TxIn i e =
  push_bytes (serialize encode_OutPoint (previous_output i) ++
    serialize encode_ScriptBuf (script_sig i) ++ serialize encode_u32 (sequence i)) e.
Proof.
  unfold encode_TxIn. rewrite (wire_append (enc := encode_OutPoint)). push_chain.
  by rewrite app_assoc.
Qed.
Lemma serialize_TxIn i : serialize encode_TxIn i =
  serialize encode_OutPoint (previous_output i) ++
    serialize encode_ScriptBuf (script_sig i) ++ serialize encode_u32 (sequence i).
Proof. apply serialize_push, encode_TxIn_push. Qed.

#[export] Instance TxIn_canonical : WireCanonical encode_TxIn decode_TxIn txin_ok.
Proof.
  intros d x d' Hd H. rewrite serialize_TxIn. unfold decode_TxIn in H.
  inv_ok; repeat accept_step. split; [done|]. rewrite app_assoc.
  repeat (eapply consumed_trans; eauto).
Qed.
#[export] Instance TxIn_codec : WireCodec encode_TxIn decode_TxIn txin_ok.
Proof.
  apply canonical_codec; [|intros x Hx|intros x [(?&?&?) Hw]|apply TxIn_canonical].
  - intros. by rewrite serialize_TxIn, encode_TxIn_push.
  - rewrite serialize_TxIn, !length_app, serialize_u32, length_le_bytes. lia.
  - rewrite serialize_TxIn. destruct x. simpl in *. subst.
    unfold decode_TxIn. solve_decodes.
Qed.

Lemma encode_TxOut_push o e : encode_TxOut o e =
  push_bytes (serialize encode_u64 (value o) ++ serialize encode_ScriptBuf (script_pubkey o)) e.
Proof. unfold encode_TxOut, encode_Amount. by push_chain. Qed.
Lemma serialize_TxOut o : serialize encode_TxOut o =
  serialize encode_u64 (value o) ++ serialize encode_ScriptBuf (script_pubkey o).
Proof. apply serialize_push, encode_TxOut_push. Qed.

#[export] Instance TxOut_canonical : WireCanonical encode_TxOut decode_TxOut txout_ok.
Proof.
  intros d x d' Hd H. rewrite serialize_TxOut. unfold decode_TxOut, decode_Amount in H.
  inv_ok; repeat accept_step. split; [done|]. eapply consumed_trans; eauto.
Qed.
#[export] Instance TxOut_codec : WireCodec encode_TxOut decode_TxOut txout_ok.
Proof.
  apply canonical_codec; [|intros x Hx|intros x [??]|apply TxOut_canonical].
  - intros. by rewrite serialize_TxOut, encode_TxOut_push.
  - rewrite serialize_TxOut, length_app, serialize_u64, length_le_bytes. lia.
  - rewrite serialize_TxOut. destruct x.
    unfold decode_TxOut, decode_Amount. solve_decodes.
Qed.

(** Coins carry a [bool], whose decoder accepts any non-zero byte as true. *)
Lemma encode_Coin_push c e : encode_Coin c e =
  push_bytes (serialize encode_u32 (height c) ++ serialize encode_bool (coin_is_coinbase c) ++
    serialize encode_TxOut (output c)) e.
Proof.
  unfold encode_Coin. rewrite (wire_append (enc := encode_TxOut)). push_chain. by rewrite app_assoc.
Qed.
Lemma serialize_Coin c : serialize encode_Coin c =
  serialize encode_u32 (height c) ++ serialize encode_bool (coin_is_coinbase c) ++
    serialize encode_TxOut (output c).
Proof. apply serialize_push, encode_Coin_push. Qed.

#[export] Instance Coin_codec : WireCodec encode_Coin decode_Coin coin_ok.
Proof.
  split; [|intros x Hx|intros x [??]|].
  - intros. by rewrite serialize_Coin, encode_Coin_push.
  - rewrite serialize_Coin, !length_app, serialize_u32, length_le_bytes. lia.
  - rewrite serialize_Coin. destruct x.
    unfold decode_Coin. solve_decodes.
  - intros d x d' Hd H. unfold decode_Coin in H. inv_ok; repeat advance_step.
    eexists. repeat (eapply consumed_trans; eauto).
Qed.

#[export] Instance BlockUndo_codec : WireCodec encode_BlockUndo decode_BlockUndo undo_ok.
Proof.
  pose proof (VarList_codec encode_Coin decode_Coin coin_ok "BlockUndo") as L.
  assert (forall u, serialize encode_BlockUndo u = serialize (encode_VarList encode_Coin) (spent_coins u))
    as Hs by done.
  split; intros; rewrite ?Hs.
  - unfold encode_BlockUndo. apply (wire_append (WireCodec := L)).
  - by apply (wire_nonempty (WireCodec := L)).
  - unfold decode_BlockUndo. destruct x.
    apply (decodes_last _ mkBlockUndo). by apply (wire_decodes (WireCodec := L)).
  - intros d x d' Hd H. unfold decode_BlockUndo in H. inv_ok.
    apply (wire_advances (WireCodec := L)) in H0 as [b C]; eauto.
Qed.

Lemma serialize_FlatFilePos p : serialize encode_FlatFilePos p =
  serialize encode_u32 (ff_file p) ++ serialize encode_u32 (ff_offset p).
Proof. apply serialize_push. intros. unfold encode_FlatFilePos. by push_chain. Qed.
#[export] Instance FlatFilePos_canonical : WireCanonical encode_FlatFilePos decode_FlatFilePos flatpos_ok.
Proof.
  intros d x d' Hd H. rewrite serialize_FlatFilePos. unfold decode_FlatFilePos in H.
  inv_ok; repeat accept_step. split; [done|]. eapply consumed_trans; eauto.
Qed.
#[export] Instance FlatFilePos_codec : WireCodec encode_FlatFilePos decode_FlatFilePos flatpos_ok.
Proof.
  apply canonical_codec; [|intros x Hx|intros x [??]|apply FlatFilePos_canonical].
  - intros. rewrite serialize_FlatFilePos. unfold encode_FlatFilePos. by push_chain.
  - rewrite serialize_FlatFilePos, length_app, serialize_u32, length_le_bytes. lia.
  - rewrite serialize_FlatFilePos. destruct x.
    unfold decode_FlatFilePos. solve_decodes.
Qed.

(** ** The transaction codec *)

Definition witness_ok (w : list bytes) : Prop := list_ok varbytes_ok w.
Abbreviation serialize_witness w := (serialize (encode_VarList encode_Vec_u8) w).
Definition witnesses_bytes (ws : list (list bytes)) : bytes := concat (map (fun w => serialize_witness w) ws).

(** What the code can encode and read back.  An input-less transaction is
    excluded: its input count is the byte that marks a segwit encoding. *)
Definition tx_ok (tx : Transaction) : Prop :=
  u32_ok (version tx) /\ u32_ok (lock_time tx) /\
  Forall txin_base_ok (inputs tx) /\ vec_ok (inputs tx) /\
  Forall witness_ok (map witness (inputs tx)) /\
  list_ok txout_ok (outputs tx).

Definition strip (i : TxIn) : TxIn := set_witness i [].

Instance TxIns_codec : WireCodec (encode_VarList encode_TxIn) (read_var_list decode_TxIn "Transaction::inputs") (list_ok txin_ok) := VarList_codec _ _ _ _.
Instance TxIns_canonical : WireCanonical (encode_VarList encode_TxIn) (read_var_list decode_TxIn "Transaction::inputs") (list_ok txin_ok) := VarList_canonical _ _ _ _.
Instance TxOuts_codec : WireCodec (encode_VarList encode_TxOut) (read_var_list decode_TxOut "Transaction::outputs") (list_ok txout_ok) := VarList_codec _ _ _ _.
Instance TxOuts_canonical : WireCanonical (encode_VarList encode_TxOut) (read_var_list decode_TxOut "Transaction::outputs") (list_ok txout_ok) := VarList_canonical _ _ _ _.
Instance Witness_codec : WireCodec (encode_VarList encode_Vec_u8) (read_var_list decode_Vec_u8 "Transaction::witness") witness_ok := VarList_codec _ _ _ _.
Instance Witness_canonical : WireCanonical (encode_VarList encode_Vec_u8) (read_var_list decode_Vec_u8 "Transaction::witness") witness_ok := VarList_canonical _ _ _ _.

Lemma push_TxIns l e : encode_VarList encode_TxIn l e = push_bytes (serialize (encode_VarList encode_TxIn) l) e.
Proof. apply (wire_append (WireCodec := TxIns_codec)). Qed.
Lemma push_TxOuts l e : encode_VarList encode_TxOut l e = push_bytes (serialize (encode_VarList encode_TxOut) l) e.
Proof. apply (wire_append (WireCodec := TxOuts_codec)). Qed.
Lemma push_Witness l e : encode_VarList encode_Vec_u8 l e = push_bytes (serialize_witness l) e.
Proof. apply (wire_append (WireCodec := Witness_codec)). Qed.
#[export] Hint Rewrite push_TxIns push_TxOuts push_Witness : wire_push.

Lemma serialize_legacy tx : serialize encode_legacy tx =
  serialize encode_u32 (version tx) ++ serialize (encode_VarList encode_TxIn) (inputs tx) ++
  serialize (encode_VarList encode_TxOut) (outputs tx) ++ serialize encode_u32 (lock_time tx).
Proof. apply serialize_push. intros e. unfold encode_legacy. push_chain. by rewrite !app_assoc. Qed.

Lemma push_witnesses ins e :
  fold_left (fun e i => encode_VarList encode_Vec_u8 (witness i) e) ins e =
  push_bytes (witnesses_bytes (map witness ins)) e.
Proof.
  revert e; induction ins as [|i ins IH]; intros e; simpl.
  - unfold push_bytes. destruct e. simpl. by rewrite app_nil_r.
  - rewrite IH. push_chain. done.
Qed.

Lemma serialize_segwit tx : serialize encode_segwit tx =
  serialize encode_u32 (version tx) ++ [0; 1] ++ serialize (encode_VarList encode_TxIn) (inputs tx) ++
  serialize (encode_VarList encode_TxOut) (outputs tx) ++
  witnesses_bytes (map witness (inputs tx)) ++ serialize encode_u32 (lock_time tx).
Proof.
  apply serialize_push. intros e. unfold encode_segwit. cbv zeta. rewrite push_witnesses. push_chain.
  rewrite <- !app_assoc. f_equal.
Qed.

Lemma encode_Transaction_append tx e :
  encode_Transaction tx e = push_bytes (serialize encode_Transaction tx) e.
Proof.
  assert (forall tx e, encode_legacy tx e = push_bytes (serialize encode_legacy tx) e) as Hl.
  { intros. rewrite serialize_legacy. unfold encode_legacy. push_chain. by rewrite !app_assoc. }
  assert (forall tx e, encode_segwit tx e = push_bytes (serialize encode_segwit tx) e) as Hs.
  { intros. rewrite serialize_segwit. unfold encode_segwit. cbv zeta. rewrite push_witnesses. push_chain.
    rewrite <- !app_assoc. f_equal. }
  unfold encode_Transaction. destruct (is_segwit tx) eqn:E; rewrite ?Hl, ?Hs; f_equal;
    symmetry; apply serialize_push; intros; unfold encode_Transaction; rewrite E; auto.
Qed.

Lemma serialize_Transaction tx : serialize encode_Transaction tx =
  if is_segwit tx then serialize encode_segwit tx else serialize encode_legacy tx.
Proof.
  Transparent serialize. unfold serialize, encode_Transaction. by destruct (is_segwit tx). Opaque serialize.
Qed.

Lemma serialize_TxIns_strip ins : vec_ok ins ->
  serialize (encode_VarList encode_TxIn) (map strip ins) = serialize (encode_VarList encode_TxIn) ins.
Proof.
  intros. rewrite !(serialize_VarList encode_TxIn (wire_append (WireCodec := TxIn_codec)))
    by (unfold vec_ok in *; by rewrite ?length_map).
  rewrite length_map. f_equal. unfold items_bytes. f_equal. rewrite map_map. apply map_ext.
  intros. by rewrite !serialize_TxIn.
Qed.

Lemma read_witnesses_decodes ws ins : Forall witness_ok ws -> length ins = length ws ->
  decodes (read_witnesses ins) (zip_with set_witness ins ws) (witnesses_bytes ws).
Proof.
  intros Hw. revert ins. induction Hw as [|w ws Hw _ IH]; intros [|i ins] Hl; simplify_eq/=.
  - apply decodes_ret.
  - apply (decodes_bind (read_var_list decode_Vec_u8 "Transaction::witness")
      (fun w d => let? '(ins, d) := read_witnesses ins d in Ok (set_witness i w :: ins, d)) w).
    + by apply (wire_decodes (WireCodec := Witness_codec)).
    + apply (decodes_last _ (fun ins => set_witness i w :: ins)). by apply IH.
Qed.

Lemma read_witnesses_inv ins : forall d ins' d', dec_ok d -> read_witnesses ins d = Ok (ins', d') ->
  exists ws, Forall witness_ok ws /\ length ws = length ins /\ ins' = zip_with set_witness ins ws /\
    consumed d (witnesses_bytes ws) d'.
Proof.
  induction ins as [|i ins IH]; intros d ins' d' Hd H; simpl in H; inv_ok.
  - exists []. auto with wire.
  - apply (wire_accepts (WireCanonical := Witness_canonical)) in H0 as [Hw C1]; [|done].
    apply IH in H1 as (ws & Hws & Hl & -> & C2); [|eauto with wire].
    exists (l :: ws). simpl. rewrite Hl. split_and!; auto. eapply consumed_trans; eauto.
Qed.

Lemma zip_set_witness ins : zip_with set_witness (map strip ins) (map witness ins) = ins.
Proof. induction ins as [|[] ins IH]; simpl; [done|]. by rewrite IH. Qed.

Lemma txins_strip_ok ins : Forall txin_base_ok ins -> vec_ok ins -> list_ok txin_ok (map strip ins).
Proof.
  intros Hf Hv. split; [|unfold vec_ok in *; by rewrite length_map].
  apply Forall_map. eapply Forall_impl; [exact Hf|]. by intros [].
Qed.

Lemma peek_at pre b bs post f :
  peek_u8 (mkDecoder (pre ++ (b :: bs) ++ post) (length pre)) f = Ok b.
Proof.
  unfold peek_u8. pose proof (require_at pre [b] (bs ++ post) f 1 eq_refl) as H.
  simpl in *. rewrite H. simpl. by rewrite idx_at.
Qed.

Lemma peek_inv d f b : dec_ok d -> peek_u8 d f = Ok b -> exists post, drop (dec_pos d) (dec_data d) = b :: post.
Proof.
  intros Hd H. unfold peek_u8 in H. inv_ok. destruct x. apply require_ok in H0.
  rewrite (drop_slice _ _ (dec_pos d + 1)) by lia. rewrite slice_one by done. by eexists.
Qed.

Lemma varint_bytes_head n : u64_ok n ->
  exists b bs, varint_bytes n = b :: bs /\ (b = 0 <-> n = 0).
Proof.
  intros Hn. int_unfold. unfold varint_bytes.
  repeat case_match; rewrite ?Z.leb_le, ?Z.leb_gt in *; do 2 eexists; (split; [done|lia]).
Qed.

Lemma serialize_TxIns_head ins : vec_ok ins ->
  exists b bs, serialize (encode_VarList encode_TxIn) ins = b :: bs /\ (b = 0 <-> ins = []).
Proof.
  intros Hv. rewrite (serialize_VarList encode_TxIn (wire_append (WireCodec := TxIn_codec))) by done.
  destruct (varint_bytes_head _ (vec_len_u64 ins Hv)) as (b & bs & -> & Hb).
  exists b, (bs ++ items_bytes encode_TxIn ins). split; [done|]. rewrite Hb. destruct ins; simpl; naive_solver lia.
Qed.

(** The part of [decode] after the version, for each value of the marker. *)
Lemma decodes_peek {T} f (k : Z -> decoder_of T) x b bs :
  decodes (k b) x (b :: bs) -> decodes (fun d => let? m := peek_u8 d f in k m d) x (b :: bs).
Proof. intros H pre post. rewrite peek_at. simpl. apply H. Qed.

Lemma decodes_ext {T} (f g : decoder_of T) x b : (forall d, f d = g d) -> decodes g x b -> decodes f x b.
Proof. intros E H pre post. by rewrite E. Qed.

Lemma not_segwit_strip tx : is_segwit tx = false -> map strip (inputs tx) = inputs tx.
Proof.
  unfold is_segwit. induction (inputs tx) as [|[o s q w] l IH]; simpl; [done|].
  destruct w; [|done]. intros H. by rewrite IH.
Qed.

Lemma decode_legacy_decodes tx : tx_ok tx -> is_segwit tx = false -> inputs tx <> [] ->
  decodes decode_Transaction tx (serialize encode_legacy tx).
Proof.
  intros (Hv & Hl & Hi & Hvi & _ & Ho) Hs Hne. rewrite serialize_legacy.
  unfold decode_Transaction. eapply decodes_bind'; [reflexivity|by apply wire_decodes|].
  assert (list_ok txin_ok (inputs tx)) as Hin by (rewrite <- not_segwit_strip by done; by apply txins_strip_ok).
  destruct (serialize_TxIns_head _ Hvi) as (b & bs & E & Hb). rewrite E. simpl.
  apply decodes_peek. rewrite (proj2 (Z.eqb_neq b 0)) by naive_solver.
  eapply decodes_bind'; [by rewrite app_comm_cons, <- E | by apply (wire_decodes (WireCodec := TxIns_codec)) |].
  eapply decodes_bind'; [reflexivity | by apply (wire_decodes (WireCodec := TxOuts_codec)) |].
  destruct tx. simpl in *. apply (decodes_last _ (fun lt => mkTransaction version0 inputs0 outputs0 lt)).
  by apply wire_decodes.
Qed.

(** The segwit branch reads back any transaction it can encode, also one whose
    witnesses are all empty. *)
Lemma decode_segwit_decodes tx : tx_ok tx ->
  decodes decode_Transaction tx (serialize encode_segwit tx).
Proof.
  intros (Hv & Hl & Hi & Hvi & Hw & Ho). rewrite serialize_segwit.
  unfold decode_Transaction. eapply decodes_bind'; [reflexivity|by apply wire_decodes|].
  simpl. apply decodes_peek. simpl.
  eapply (decodes_bind' _ _ 0 _ [0]); [reflexivity | apply read_u8_decodes |].
  eapply (decodes_bind' _ _ 1 _ [1]); [reflexivity | apply read_u8_decodes |]. simpl.
  eapply decodes_bind'; [by rewrite <- serialize_TxIns_strip |
    by apply (wire_decodes (WireCodec := TxIns_codec)), txins_strip_ok |].
  eapply decodes_bind'; [reflexivity | by apply (wire_decodes (WireCodec := TxOuts_codec)) |].
  eapply decodes_bind'; [reflexivity | apply read_witnesses_decodes; [done|by rewrite !length_map] |].
  rewrite zip_set_witness. destruct tx. simpl.
  apply (decodes_last _ (fun lt => mkTransaction version0 inputs0 outputs0 lt)).
  by apply wire_decodes.
Qed.

Definition tx_encodable (tx : Transaction) : Prop := tx_ok tx /\ inputs tx <> [].

Lemma decode_Transaction_decodes tx : tx_encodable tx ->
  decodes decode_Transaction tx (serialize encode_Transaction tx).
Proof.
  intros [Htx Hne]. rewrite serialize_Transaction.
  destruct (is_segwit tx) eqn:E; auto using decode_legacy_decodes, decode_segwit_decodes.
Qed.

Lemma zip_set_witness_ok ins ws : list_ok txin_ok ins -> Forall witness_ok ws -> length ws = length ins ->
  let ins' := zip_with set_witness ins ws in
  Forall txin_base_ok ins' /\ vec_ok ins' /\ map witness ins' = ws /\
  serialize (encode_VarList encode_TxIn) ins' = serialize (encode_VarList encode_TxIn) ins.
Proof.
  intros [Hi Hv] Hw Hl ins'.
  assert (map strip ins' = ins) as Hs.
  { unfold ins'. clear -Hi Hl. revert ws Hl. induction Hi as [|[o s q w] l [_ Hw] _ IH]; intros [|w' ws] Hl; simplify_eq/=; [done|].
    unfold strip at 1; simpl. f_equal. by apply IH. }
  assert (vec_ok ins') as Hv' by (unfold vec_ok, ins' in *; rewrite length_zip_with; lia).
  split_and!; [|done| |].
  - unfold ins'. clear -Hi. revert ws. induction Hi as [|[o s q w] l [Hb _] _ IH]; intros [|w' ws]; simpl; constructor; auto.
  - unfold ins'. clear -Hl. revert ws Hl. induction ins as [|i l IH]; intros [|w' ws] Hl; simplify_eq/=; [done|]. f_equal. auto.
  - by rewrite <- serialize_TxIns_strip, Hs.
Qed.

(** Every successful decode consumed one of the two encodings of its result. *)
Lemma decode_Transaction_inv d tx d' : dec_ok d -> decode_Transaction d = Ok (tx, d') ->
  tx_ok tx /\
  (consumed d (serialize encode_segwit tx) d' \/
   (consumed d (serialize encode_legacy tx) d' /\ is_segwit tx = false /\ inputs tx <> [])).
Proof.
  intros Hd H. unfold decode_Transaction in H. inv_ok.
  apply (wire_accepts (enc := encode_u32)) in H0 as [Hver C1]; [|done].
  destruct (peek_inv _ _ _ (consumed_ok _ _ _ C1) H1) as [post Hp].
  destruct (Z.eqb_spec x 0) as [->|Hx].
  - apply rbind_ok in H as ([m dm] & Hm & H). apply rbind_ok in H as ([fl df] & Hfl & H).
    apply (read_u8_inv "u8") in Hm as [_ C2]; [|eauto with wire].
    apply (read_u8_inv "u8") in Hfl as [_ C3]; [|eauto with wire].
    destruct (Z.eqb_spec fl 1) as [->|]; [simpl in H|done]. inv_ok.
    assert (m = 0) as -> by (destruct C2 as (_ & E & _); rewrite E in Hp; naive_solver).
    apply (wire_accepts (WireCanonical := TxIns_canonical)) in H0 as [Hi C4]; [|eauto with wire].
    apply (wire_accepts (WireCanonical := TxOuts_canonical)) in H2 as [Ho C5]; [|eauto with wire].
    apply read_witnesses_inv in H3 as (ws & Hws & Hl & -> & C6); [|eauto with wire].
    apply (wire_accepts (enc := encode_u32)) in H4 as [Hlt C7]; [|eauto with wire].
    destruct (zip_set_witness_ok _ _ Hi Hws Hl) as (Hb & Hv & Hm & Hser).
    split; [by unfold tx_ok; simpl; rewrite Hm|].
    left. rewrite serialize_segwit. simpl. rewrite Hm, Hser.
    pose proof (consumed_trans _ _ _ _ _ C2 C3) as C23. simpl in C23.
    pose proof (consumed_trans _ _ _ _ _ C1 (consumed_trans _ _ _ _ _ C23 (consumed_trans _ _ _ _ _ C4
      (consumed_trans _ _ _ _ _ C5 (consumed_trans _ _ _ _ _ C6 C7))))) as C. exact C.
  - inv_ok.
    apply (wire_accepts (WireCanonical := TxIns_canonical)) in H0 as [Hi C4]; [|eauto with wire].
    apply (wire_accepts (WireCanonical := TxOuts_canonical)) in H2 as [Ho C5]; [|eauto with wire].
    apply (wire_accepts (enc := encode_u32)) in H3 as [Hlt C7]; [|eauto with wire].
    assert (map witness l = replicate (length l) []) as Hm.
    { destruct Hi as [Hi _]. clear -Hi. induction Hi as [|i l [_ E] _ IH]; simpl; [done|]. by rewrite E, IH. }
    split.
    { unfold tx_ok; simpl. split_and!; try done; [|apply Hi|].
      - destruct Hi as [Hi _]. eapply Forall_impl; [exact Hi|]. by intros ? [].
      - rewrite Hm. apply Forall_replicate. split; [constructor|]. unfold vec_ok, MAX_WIRE_ALLOCATION, MAX_MESSAGE_SIZE. simpl. lia. }
    right. rewrite serialize_legacy. simpl. split_and!.
    + exact (consumed_trans _ _ _ _ _ C1 (consumed_trans _ _ _ _ _ C4 (consumed_trans _ _ _ _ _ C5 C7))).
    + unfold is_segwit; simpl. destruct Hi as [Hi _]. clear -Hi.
      induction Hi as [|i l [_ E] _ IH]; simpl; [done|]. by rewrite E.
    + intros ->. destruct (serialize_TxIns_head [] ltac:(apply Hi)) as (b & bs & E & Hb).
      destruct C4 as (_ & E4 & _). rewrite E4, E in Hp. naive_solver.
Qed.
