(* ===== verification/Block.v ===== *)
(** * Blocks (crates/common/types/block.rs)

    Headers and their 80-byte form, compact targets, the merkle root, block
    weight, the block index record and the block locator. *)

From Stdlib Require Import Sorted.
From S2P Require Import Prelude Wire Hash Transaction.

(** [BlockHeight] is a newtype over [u32]. *)
Abbreviation BlockHeight := Z (only parsing).
Definition BlockHeight_next (h : BlockHeight) : BlockHeight := saturating_add_u U32_MAX h 1.
Definition BlockHeight_prev (h : BlockHeight) : option BlockHeight := checked_sub_u h 1.

(** ** Headers *)

Record BlockHeader : Type := mkBlockHeader {
  hdr_version : Z;
  prev_hash : BlockHash;
  merkle_root_field : Hash256;
  time : Z;
  bits : Z;
  nonce : Z;
}.

Definition header_serialize (h : BlockHeader) : bytes :=
  le_bytes 4 (hdr_version h) ++ prev_hash h ++ merkle_root_field h ++
  le_bytes 4 (time h) ++ le_bytes 4 (bits h) ++ le_bytes 4 (nonce h).

Definition header_deserialize (b : bytes) : BlockHeader :=
  {| hdr_version := of_le_signed 32 (slice b 0 4);
     prev_hash := slice b 4 36;
     merkle_root_field := slice b 36 68;
     time := of_le (slice b 68 72);
     bits := of_le (slice b 72 76);
     nonce := of_le (slice b 76 80) |}.

Definition encode_BlockHeader : encoder_of BlockHeader := fun h e => push_bytes (header_serialize h) e.
Definition decode_BlockHeader : decoder_of BlockHeader := fun d =>
  let? '(b, d) := decode_array 80 d in Ok (header_deserialize b, d).

(** ** Compact targets *)

(** [if pos < 32 { target[pos] = m }] *)
Definition put_byte (target : bytes) (pos : nat) (m : Z) : bytes :=
  if (pos <? 32)%nat then <[pos := m]> target else target.

Definition bits_to_target (bits : Z) : Hash256 :=
  let exponent := Z.to_nat (Z.shiftr bits 24) in
  let mantissa := Z.land bits 0x00FFFFFF in
  let target := replicate 32 0 in
  if (exponent =? 0)%nat then target else
  let pos := (exponent - 3)%nat in
  let m0 := Z.land mantissa 0xFF in
  let m1 := Z.land (Z.shiftr mantissa 8) 0xFF in
  let m2 := Z.land (Z.shiftr mantissa 16) 0xFF in
  put_byte (put_byte (put_byte target pos m0) (pos + 1) m1) (pos + 2) m2.

(** [while n_size > 0 && bytes[n_size - 1] == 0 { n_size -= 1 }] *)
Fixpoint significant_size (b : bytes) (n_size : nat) : nat :=
  match n_size with
  | O => O
  | S n => if idx b n =? 0 then significant_size b n else S n
  end.

Definition target_to_bits (target : Hash256) : Z :=
  let b := target in
  let n_size := significant_size b 32 in
  if (n_size =? 0)%nat then 0 else
  let mantissa :=
    if (3 <=? n_size)%nat then
      Z.lor (Z.lor (Z.shiftl (idx b (n_size - 1)) 16) (Z.shiftl (idx b (n_size - 2)) 8))
        (idx b (n_size - 3))
    else if (n_size =? 2)%nat then Z.lor (Z.shiftl (idx b 1) 16) (Z.shiftl (idx b 0) 8)
    else Z.shiftl (idx b 0) 16 in
  let exponent := Z.of_nat n_size in
  if negb (Z.land mantissa 0x00800000 =? 0)
  then Z.lor (Z.shiftl (exponent + 1) 24) (Z.shiftr mantissa 8)
  else Z.lor (Z.shiftl exponent 24) mantissa.

Section Header.
Context {D : Digests}.

Definition block_hash (h : BlockHeader) : BlockHash := hash256 (header_serialize h).
Definition header_target (h : BlockHeader) : Hash256 := bits_to_target (bits h).
Definition meets_target (h : BlockHeader) : bool := Hash256_le (block_hash h) (header_target h).
End Header.

(** ** Blocks *)

Record Block : Type := mkBlock { header : BlockHeader; transactions : list Transaction }.

Definition encode_Block : encoder_of Block := fun b e =>
  encode_VarList encode_Transaction (transactions b) (encode_BlockHeader (header b) e).
Definition decode_Block : decoder_of Block := fun d =>
  let? '(h, d) := decode_BlockHeader d in
  let? '(txs, d) := read_var_list decode_Transaction "Block::transactions" d in
  Ok (mkBlock h txs, d).

(** [Block::weight] *)
Definition weight (b : Block) : Z :=
  let total := Z.of_nat (length (serialize encode_Block b)) in
  let wit := fold_left (fun s tx => s + Z.of_nat (witness_serialized_size tx)) (transactions b) 0 in
  let base := saturating_sub_u total wit in
  base * 3 + total.

Section Merkle.
Context {D : Digests}.

(** [if hashes.len() % 2 != 0 { hashes.push(hashes[hashes.len() - 1]) }] *)
Definition dup_odd (hashes : list Hash256) : list Hash256 :=
  if Nat.odd (length hashes) then hashes ++ [nth (length hashes - 1) hashes []] else hashes.

(** [hashes.chunks(2)], each pair hashed *)
Fixpoint hash_pairs (hashes : list Hash256) : list Hash256 :=
  match hashes with
  | a :: b :: rest => hash256 (a ++ b) :: hash_pairs rest
  | _ => []
  end.

(** The [while hashes.len() > 1] loop. *)
Fixpoint merkle_loop (fuel : nat) (hashes : list Hash256) : option Hash256 :=
  if (1 <? length hashes)%nat then
    match fuel with
    | O => None
    | S fuel => merkle_loop fuel (hash_pairs (dup_odd hashes))
    end
  else Some (nth 0 hashes []).

Definition merkle_of (hashes : list Hash256) : Hash256 :=
  match hashes with
  | [] => ZERO_HASH
  | _ => default ZERO_HASH (merkle_loop (length hashes) hashes)
  end.

Definition compute_merkle_root (b : Block) : Hash256 := merkle_of (map txid (transactions b)).
End Merkle.

(** ** Block index *)

Record BlockIndex : Type := mkBlockIndex {
  bi_header : BlockHeader;
  bi_height : BlockHeight;
  chain_work : Hash256;
  file_pos : option FlatFilePos;
  undo_pos : option FlatFilePos;
}.

Definition pos_or_zero (p : option FlatFilePos) : FlatFilePos := default (mkFlatFilePos 0 0) p.

Definition encode_BlockIndex : encoder_of BlockIndex := fun b e =>
  let e := encode_Hash256 (chain_work b) (encode_u32 (bi_height b) (encode_BlockHeader (bi_header b) e)) in
  let e := encode_FlatFilePos (pos_or_zero (file_pos b)) (encode_bool (bool_decide (is_Some (file_pos b))) e) in
  encode_FlatFilePos (pos_or_zero (undo_pos b)) (encode_bool (bool_decide (is_Some (undo_pos b))) e).

Definition decode_BlockIndex : decoder_of BlockIndex := fun d =>
  let? '(h, d) := decode_BlockHeader d in
  let? '(ht, d) := decode_u32 d in
  let? '(work, d) := decode_Hash256 d in
  let? '(has_pos, d) := decode_bool d in
  let? '(pos, d) := decode_FlatFilePos d in
  let fp := if has_pos : bool then Some pos else None in
  let? '(has_undo, d) := decode_bool d in
  let? '(undo, d) := decode_FlatFilePos d in
  let up := if has_undo : bool then Some undo else None in
  Ok (mkBlockIndex h ht work fp up, d).

(** ** Block locator *)

(** The [loop] of [build_block_locator]; [have] is in push order. *)
Fixpoint locator_loop (fuel : nat) (hash_at_height : Z -> option BlockHash)
    (height step : Z) (have : list BlockHash) : option (list BlockHash) :=
  match fuel with
  | O => None
  | S fuel =>
    let have := match hash_at_height height with Some h => have ++ [h] | None => have end in
    if height =? 0 then Some have
    else
      let height := saturating_sub_u height step in
      let step := if (10 <? length have)%nat then saturating_mul_u U32_MAX step 2 else step in
      locator_loop fuel hash_at_height height step have
  end.

Definition build_block_locator (tip_height : Z) (hash_at_height : Z -> option BlockHash)
    : list BlockHash :=
  default [] (locator_loop (S (Z.to_nat tip_height)) hash_at_height tip_height 1 []).

#[export] Instance BlockHeader_eq_dec : EqDecision BlockHeader.
Proof. solve_decision. Defined.
#[export] Instance Block_eq_dec : EqDecision Block.
Proof. solve_decision. Defined.
#[export] Instance BlockIndex_eq_dec : EqDecision BlockIndex.
Proof. solve_decision. Defined.

Example locator_short : build_block_locator 5 (fun h => Some [h]) = [[5]; [4]; [3]; [2]; [1]; [0]].
Proof. reflexivity. Qed.
Example mainnet_bits : target_to_bits (bits_to_target 0x1d00ffff) = 0x1d00ffff.
Proof. reflexivity. Qed.

(** ** Header codec *)

Definition header_ok (h : BlockHeader) : Prop :=
  i32_ok (hdr_version h) /\ hash_ok (prev_hash h) /\ hash_ok (merkle_root_field h) /\
  u32_ok (time h) /\ u32_ok (bits h) /\ u32_ok (nonce h).

Lemma length_header_serialize h : header_ok h -> length (header_serialize h) = 80%nat.
Proof.
  intros (_ & [Hp _] & [Hm _] & _). unfold header_serialize.
  rewrite !length_app, !length_le_bytes. lia.
Qed.

Lemma header_serialize_ok h : header_ok h -> bytes_ok (header_serialize h).
Proof.
  intros (_ & [_ Hp] & [_ Hm] & _). unfold header_serialize.
  rewrite !bytes_ok_app. auto 10 with wire.
Qed.

(** [slice] of a concatenation, one segment at a time. *)
Lemma slice_app_l {A} (l k : list A) b : b = length l -> slice (l ++ k) 0 b = l.
Proof. intros ->. unfold slice. apply take_app_eq. lia. Qed.
Lemma slice_app_r {A} (l k : list A) a b n : n = length l -> (n <= a <= b)%nat ->
  slice (l ++ k) a b = slice k (a - n) (b - n).
Proof. intros -> ?. unfold slice. rewrite drop_app_ge by lia. f_equal. lia. Qed.
Lemma slice_whole {A} (l : list A) b : b = length l -> slice l 0 b = l.
Proof. intros ->. unfold slice. apply take_ge. simpl. lia. Qed.

Lemma header_deserialize_serialize h : header_ok h ->
  header_deserialize (header_serialize h) = h.
Proof.
  intros (Hv & [Lp _] & [Lm _] & Ht & Hb & Hn). destruct h as [v p m t b n]. simpl in *.
  unfold header_deserialize, header_serialize. simpl.
  pose proof (length_le_bytes 4 v) as Lv. pose proof (length_le_bytes 4 t) as Lt.
  pose proof (length_le_bytes 4 b) as Lb. pose proof (length_le_bytes 4 n) as Ln.
  f_equal.
  - rewrite slice_app_l by done. by apply (of_le_signed_le_bytes 4); [lia|].
  - rewrite (slice_app_r _ _ _ _ 4) by (done || lia). cbn [Nat.sub]. by rewrite slice_app_l.
  - rewrite (slice_app_r _ _ _ _ 4), (slice_app_r _ _ _ _ 32) by (done || lia).
    cbn [Nat.sub]. by rewrite slice_app_l.
  - rewrite (slice_app_r _ _ _ _ 4), !(slice_app_r _ _ _ _ 32) by (done || lia).
    cbn [Nat.sub]. rewrite slice_app_l by done. by apply le_bytes_small.
  - rewrite (slice_app_r _ _ _ _ 4), !(slice_app_r _ _ _ _ 32), (slice_app_r _ _ _ _ 4) by (done || lia).
    cbn [Nat.sub]. rewrite slice_app_l by done. by apply le_bytes_small.
  - rewrite (slice_app_r _ _ _ _ 4), !(slice_app_r _ _ _ _ 32), !(slice_app_r _ _ _ _ 4) by (done || lia).
    cbn [Nat.sub]. rewrite slice_whole by done. by apply le_bytes_small.
Qed.

Lemma slice_array l a n : bytes_ok l -> (a + n <= length l)%nat -> array_ok n (slice l a (a + n)).
Proof. intros Hb Hl. split; [rewrite length_slice; lia | by apply slice_ok]. Qed.

Lemma header_deserialize_ok b : array_ok 80 b ->
  header_ok (header_deserialize b) /\ header_serialize (header_deserialize b) = b.
Proof.
  intros [L Hb].
  pose proof (slice_array b 0 4 Hb ltac:(lia)) as A0.
  pose proof (slice_array b 4 32 Hb ltac:(lia)) as A1.
  pose proof (slice_array b 36 32 Hb ltac:(lia)) as A2.
  pose proof (slice_array b 68 4 Hb ltac:(lia)) as A3.
  pose proof (slice_array b 72 4 Hb ltac:(lia)) as A4.
  pose proof (slice_array b 76 4 Hb ltac:(lia)) as A5. simpl in *.
  destruct (of_le_signed_array 4 _ ltac:(lia) A0) as [R0 E0].
  destruct (of_le_array 4 _ A3) as [R3 E3]. destruct (of_le_array 4 _ A4) as [R4 E4].
  destruct (of_le_array 4 _ A5) as [R5 E5].
  split; [by split_and!|].
  change (8 * Z.of_nat 4) with 32 in E0.
  unfold header_serialize, header_deserialize; cbn [hdr_version prev_hash merkle_root_field time bits nonce].
  rewrite E0, E3, E4, E5.
  transitivity (drop 0 b); [|done]. rewrite (drop_slice b 0 4), (drop_slice b 4 36),
    (drop_slice b 36 68), (drop_slice b 68 72), (drop_slice b 72 76), (drop_slice b 76 80) by lia.
  by rewrite (drop_ge b 80), app_nil_r by lia.
Qed.

#[export] Instance BlockHeader_canonical : WireCanonical encode_BlockHeader decode_BlockHeader header_ok.
Proof.
  intros d x d' Hd H. unfold decode_BlockHeader in H. inv_ok.
  apply (wire_accepts (WireCanonical := array_canonical 80)) in H0 as [Ha C]; [|done].
  rewrite serialize_array in C. destruct (header_deserialize_ok _ Ha) as [Hh E].
  rewrite (serialize_push _ (header_serialize (header_deserialize l))) by done. by rewrite E.
Qed.
#[export] Instance BlockHeader_codec : WireCodec encode_BlockHeader decode_BlockHeader header_ok.
Proof.
  assert (forall h, serialize encode_BlockHeader h = header_serialize h) as Hs
    by (intros; by apply serialize_push).
  apply canonical_codec; [|intros x Hx|intros x Hx|apply BlockHeader_canonical].
  - intros. by rewrite Hs.
  - rewrite Hs, length_header_serialize by done. lia.
  - rewrite Hs. unfold decode_BlockHeader. rewrite <- (header_deserialize_serialize x) at 1 by done.
    apply (decodes_last _ header_deserialize). rewrite <- (serialize_array (header_serialize x)) at 2.
    apply (wire_decodes (WireCodec := array_codec 80 ltac:(lia))).
    split; [by apply length_header_serialize | by apply header_serialize_ok].
Qed.

(** ** Block codec *)

#[export] Instance Transaction_codec : WireCodec encode_Transaction decode_Transaction tx_encodable.
Proof.
  split.
  - apply encode_Transaction_append.
  - intros tx _. rewrite serialize_Transaction. destruct (is_segwit tx);
      rewrite ?serialize_segwit, ?serialize_legacy, length_app, serialize_u32, length_le_bytes; lia.
  - apply decode_Transaction_decodes.
  - intros d tx d' Hd H. apply decode_Transaction_inv in H as [_ [C|[C _]]]; eauto.
Qed.

Instance Transactions_codec : WireCodec (encode_VarList encode_Transaction)
  (read_var_list decode_Transaction "Block::transactions") (list_ok tx_encodable) := VarList_codec _ _ _ _.

Definition block_ok (b : Block) : Prop := header_ok (header b) /\ list_ok tx_encodable (transactions b).

Lemma encode_Block_push b e : encode_Block b e =
  push_bytes (serialize encode_BlockHeader (header b) ++
    serialize (encode_VarList encode_Transaction) (transactions b)) e.
Proof.
  unfold encode_Block. rewrite (wire_append (WireCodec := Transactions_codec)).
  rewrite (wire_append (WireCodec := BlockHeader_codec) (header b)). apply push_bytes_push_bytes.
Qed.
Lemma serialize_Block b : serialize encode_Block b =
  serialize encode_BlockHeader (header b) ++ serialize (encode_VarList encode_Transaction) (transactions b).
Proof. apply serialize_push, encode_Block_push. Qed.
Lemma serialize_BlockHeader h : serialize encode_BlockHeader h = header_serialize h.
Proof. by apply serialize_push. Qed.

#[export] Instance Block_codec : WireCodec encode_Block decode_Block block_ok.
Proof.
  split.
  - intros. rewrite serialize_Block. apply encode_Block_push.
  - intros b [Hh _]. rewrite serialize_Block, length_app, serialize_BlockHeader, length_header_serialize by done. lia.
  - intros [h txs] [Hh Ht]. rewrite serialize_Block. unfold decode_Block.
    eapply decodes_bind'; [reflexivity | by apply (wire_decodes (WireCodec := BlockHeader_codec)) |].
    apply (decodes_last _ (fun txs => mkBlock h txs)). by apply (wire_decodes (WireCodec := Transactions_codec)).
  - intros d b d' Hd H. unfold decode_Block in H. inv_ok.
    apply (wire_advances (WireCodec := BlockHeader_codec)) in H0 as [b1 C1]; [|done].
    apply (wire_advances (WireCodec := Transactions_codec)) in H1 as [b2 C2]; [|eauto with wire].
    eexists. eapply consumed_trans; eauto.
Qed.

(** ** Block index codec *)

Definition pos_opt_ok (p : option FlatFilePos) : Prop := flatpos_ok (pos_or_zero p).
Definition block_index_ok (b : BlockIndex) : Prop :=
  header_ok (bi_header b) /\ u32_ok (bi_height b) /\ hash_ok (chain_work b) /\
  pos_opt_ok (file_pos b) /\ pos_opt_ok (undo_pos b).

Lemma push_FlatFilePos x e : encode_FlatFilePos x e = push_bytes (serialize encode_FlatFilePos x) e.
Proof. apply wire_append. Qed.
Lemma push_BlockHeader x e : encode_BlockHeader x e = push_bytes (serialize encode_BlockHeader x) e.
Proof. apply wire_append. Qed.

Lemma encode_BlockIndex_push b e : encode_BlockIndex b e =
  push_bytes (serialize encode_BlockHeader (bi_header b) ++ serialize encode_u32 (bi_height b) ++
    serialize encode_array (chain_work b) ++
    serialize encode_bool (bool_decide (is_Some (file_pos b))) ++
    serialize encode_FlatFilePos (pos_or_zero (file_pos b)) ++
    serialize encode_bool (bool_decide (is_Some (undo_pos b))) ++
    serialize encode_FlatFilePos (pos_or_zero (undo_pos b))) e.
Proof.
  unfold encode_BlockIndex, encode_Hash256. cbv zeta.
  rewrite push_BlockHeader, !push_FlatFilePos, (push_array (chain_work b)). push_chain. done.
Qed.

Lemma pos_opt_roundtrip p : (if bool_decide (is_Some p) then Some (pos_or_zero p) else None) = p.
Proof. by destruct p. Qed.

#[export] Instance BlockIndex_codec : WireCodec encode_BlockIndex decode_BlockIndex block_index_ok.
Proof.
  assert (forall b, serialize encode_BlockIndex b = _) as Hs
    by (intros b; apply serialize_push, encode_BlockIndex_push).
  split; [intros; rewrite Hs; apply encode_BlockIndex_push | intros x Hx | intros x Hx |].
  - rewrite Hs, length_app, serialize_BlockHeader, length_header_serialize by apply Hx. lia.
  - rewrite Hs. destruct x as [h ht w fp up]. destruct Hx as (Hh & Hht & Hw & Hf & Hu). simpl in *.
    unfold decode_BlockIndex, decode_Hash256.
    eapply decodes_bind'; [reflexivity | by apply (wire_decodes (WireCodec := BlockHeader_codec)) |].
    eapply decodes_bind'; [reflexivity | by apply wire_decodes |].
    eapply decodes_bind'; [reflexivity | by apply (wire_decodes (WireCodec := array32_codec)) |].
    eapply decodes_bind'; [reflexivity | by apply wire_decodes |].
    eapply decodes_bind'; [reflexivity | by apply wire_decodes |].
    eapply decodes_bind'; [reflexivity | by apply wire_decodes |].
    rewrite pos_opt_roundtrip.
    pose proof (decodes_last decode_FlatFilePos
      (fun u => mkBlockIndex h ht w fp (if bool_decide (is_Some up) then Some u else None)) (pos_or_zero up)
      (serialize encode_FlatFilePos (pos_or_zero up))) as H.
    cbv beta in H. rewrite pos_opt_roundtrip in H. apply H. by apply wire_decodes.
  - intros d x d' Hd H. unfold decode_BlockIndex, decode_Hash256 in H. inv_ok. repeat advance_step.
    eexists. repeat (eapply consumed_trans; eauto).
Qed.

(** ** Block weight *)

(** The block without its witness data, as hashed by pre-segwit nodes. *)
Definition stripped_size (b : Block) : nat :=
  (80 + VarInt_serialized_size (Z.of_nat (length (transactions b)))
   + foldr (fun tx s => length (serialize encode_legacy tx) + s) 0 (transactions b))%nat.

Lemma fold_left_sum {A} (f : A -> nat) l n : fold_left (fun s x => s + f x)%nat l n = (n + foldr (fun x s => f x + s) 0 l)%nat.
Proof. revert n; induction l as [|x l IH]; intros n; simpl; [lia|]. rewrite IH. lia. Qed.

Lemma length_items {T} (enc : encoder_of T) l :
  length (items_bytes enc l) = foldr (fun x s => length (serialize enc x) + s)%nat 0%nat l.
Proof. induction l as [|x l IH]; [done|]. unfold items_bytes in *. simpl. by rewrite length_app, IH. Qed.

Lemma length_serialize_witness w : witness_ok w ->
  length (serialize_witness w) = (VarInt_serialized_size (Z.of_nat (length w))
   + fold_left (fun size item => size + item_serialized_size item) w 0)%nat.
Proof.
  intros [Hf Hv]. rewrite (serialize_VarList encode_Vec_u8 (wire_append (WireCodec := Vec_u8_codec))) by done.
  rewrite length_app, length_varint_bytes, length_items. f_equal. rewrite fold_left_sum. simpl.
  clear Hv. induction Hf as [|x l [_ Hx] _ IH]; simpl; [done|]. rewrite IH. f_equal.
  unfold encode_Vec_u8. by rewrite serialize_VarBytes, length_app, length_varint_bytes by done.
Qed.

Lemma length_witnesses ws : Forall witness_ok ws ->
  length (witnesses_bytes ws) = foldr (fun w s => VarInt_serialized_size (Z.of_nat (length w))
   + fold_left (fun size item => size + item_serialized_size item) w 0 + s)%nat 0%nat ws.
Proof.
  induction 1 as [|w ws Hw _ IH]; [done|]. unfold witnesses_bytes in *. simpl.
  by rewrite length_app, IH, length_serialize_witness.
Qed.

Lemma tx_size_split tx : tx_ok tx ->
  length (serialize encode_Transaction tx) =
  (length (serialize encode_legacy tx) + witness_serialized_size tx)%nat.
Proof.
  intros (_ & _ & _ & _ & Hw & _). rewrite serialize_Transaction. unfold witness_serialized_size.
  destruct (is_segwit tx); [|simpl; lia]. rewrite serialize_segwit, serialize_legacy. simpl.
  rewrite fold_left_sum, !length_app. cbn [length]. rewrite !length_app, length_witnesses by done.
  unfold input_witness_size.
  assert (forall l : list TxIn, foldr (fun w s => VarInt_serialized_size (Z.of_nat (length w))
    + fold_left (fun size item => size + item_serialized_size item) w 0 + s)%nat 0%nat (map witness l)
    = foldr (fun x s => VarInt_serialized_size (Z.of_nat (length (witness x)))
    + fold_left (fun size item => size + item_serialized_size item) (witness x) 0 + s)%nat 0%nat l) as ->.
  { induction l; simpl; [done|]. by rewrite IHl. }
  lia.
Qed.

Lemma fold_left_sumZ {A} (f : A -> Z) l n : fold_left (fun s x => s + f x) l n = n + foldr (fun x s => f x + s) 0 l.
Proof. revert n; induction l as [|x l IH]; intros n; simpl; [lia|]. rewrite IH. lia. Qed.

Lemma block_size_split b : block_ok b ->
  length (serialize encode_Block b) =
  (stripped_size b + foldr (fun tx s => witness_serialized_size tx + s) 0 (transactions b))%nat.
Proof.
  intros [Hh [Hf Hv]]. rewrite serialize_Block, length_app, serialize_BlockHeader, length_header_serialize by done.
  rewrite (serialize_VarList encode_Transaction encode_Transaction_append) by done.
  rewrite length_app, length_varint_bytes, length_items. unfold stripped_size.
  enough (foldr (fun x s => (length (serialize encode_Transaction x) + s)%nat) 0%nat (transactions b) =
    (foldr (fun tx s => length (serialize encode_legacy tx) + s) 0 (transactions b) +
     foldr (fun tx s => witness_serialized_size tx + s) 0 (transactions b))%nat) as -> by lia.
  clear Hv. induction Hf as [|tx l [Htx _] _ IH]; simpl; [done|]. rewrite IH, tx_size_split by done. lia.
Qed.

(** [Block::weight] is the BIP 141 weight: three times the size of the
    block serialized without witness data plus its full serialized size.  The
    code obtains the base size by subtracting [witness_serialized_size]; the
    subtraction never saturates. *)
Lemma weight_bip141 b : block_ok b ->
  weight b = 3 * Z.of_nat (stripped_size b) + Z.of_nat (length (serialize encode_Block b)).
Proof.
  intros Hb. unfold weight. rewrite (block_size_split b Hb), fold_left_sumZ.
  assert (forall l, foldr (fun x s => Z.of_nat (witness_serialized_size x) + s) 0 l =
    Z.of_nat (foldr (fun tx s => witness_serialized_size tx + s)%nat 0%nat l)) as ->
    by (induction l; simpl; lia).
  unfold saturating_sub_u. lia.
Qed.

(** ** The merkle loop *)

Section MerkleSpec.
Context {D : Digests}.

Lemma length_dup_odd l : length (dup_odd l) = (if Nat.odd (length l) then S (length l) else length l).
Proof. unfold dup_odd. destruct (Nat.odd _); [rewrite length_app; simpl; lia|done]. Qed.

Lemma even_length_ind {A} (P : list A -> Prop) :
  P [] -> (forall a b l, Nat.Even (length l) -> P l -> P (a :: b :: l)) ->
  forall l, Nat.Even (length l) -> P l.
Proof.
  intros H0 H2 l Hl. remember (length l) as n eqn:E. revert l E Hl.
  induction n as [n IH] using lt_wf_ind. intros [|a [|b l]] -> Hl; [done|by apply Nat.even_spec in Hl|].
  assert (Nat.Even (length l)) as He by (apply Nat.even_spec in Hl; by apply Nat.even_spec).
  apply H2; [done|]. eapply IH; [|reflexivity|done]. simpl. lia.
Qed.

Lemma dup_odd_even l : Nat.Even (length (dup_odd l)).
Proof.
  rewrite length_dup_odd, <- Nat.even_spec. destruct (Nat.odd (length l)) eqn:E.
  - by rewrite Nat.even_succ.
  - by rewrite <- Nat.negb_odd, E.
Qed.

Lemma length_hash_pairs l : Nat.Even (length l) -> (2 * length (hash_pairs l) = length l)%nat.
Proof. revert l. apply even_length_ind; [done|]. intros. simpl in *. lia. Qed.

Lemma length_level l : (length l <= 2 * length (hash_pairs (dup_odd l)) <= S (length l))%nat.
Proof.
  rewrite length_hash_pairs by apply dup_odd_even. rewrite length_dup_odd.
  destruct (Nat.odd _); lia.
Qed.

Lemma merkle_loop_total fuel l : (length l <= S fuel)%nat -> is_Some (merkle_loop fuel l).
Proof.
  revert l; induction fuel as [|fuel IH]; intros l Hl; cbn [merkle_loop];
    destruct (Nat.ltb_spec 1 (length l)); eauto; [lia|].
  apply IH. pose proof (length_level l). lia.
Qed.

(** The root of a subtree of depth [k], from the top: a subtree with at most
    [2^k] leaves is hashed with itself, otherwise it splits at [2^k]. *)
Fixpoint subtree (k : nat) (l : list Hash256) : Hash256 :=
  match k with
  | O => nth 0 l []
  | S k =>
    if (length l <=? 2 ^ k)%nat then hash256 (subtree k l ++ subtree k l)
    else hash256 (subtree k (take (2 ^ k) l) ++ subtree k (drop (2 ^ k) l))
  end.

Lemma dup_odd_app l k : Nat.Even (length l) -> k <> [] -> dup_odd (l ++ k) = l ++ dup_odd k.
Proof.
  intros Hl Hk. unfold dup_odd. rewrite length_app, Nat.odd_add.
  assert (Nat.odd (length l) = false) as -> by (rewrite <- Nat.negb_even; apply Nat.even_spec in Hl; by rewrite Hl).
  simpl. destruct (Nat.odd (length k)) eqn:E; [|done].
  assert (0 < length k)%nat by (destruct k; simpl; [done|lia]).
  rewrite app_nth2, <- app_assoc by lia. do 4 f_equal. lia.
Qed.

Lemma hash_pairs_app l k : Nat.Even (length l) -> hash_pairs (l ++ k) = hash_pairs l ++ hash_pairs k.
Proof. revert l. apply even_length_ind; [done|]. intros a b l _ IH. simpl. by rewrite IH. Qed.

Lemma level_app l k : Nat.Even (length l) -> k <> [] ->
  hash_pairs (dup_odd (l ++ k)) = hash_pairs l ++ hash_pairs (dup_odd k).
Proof. intros. by rewrite dup_odd_app, hash_pairs_app. Qed.

(** One round of pairing removes the lowest level of the tree. *)
Lemma subtree_level k l : l <> [] -> (length l <= 2 ^ S k)%nat ->
  subtree (S k) l = subtree k (hash_pairs (dup_odd l)).
Proof.
  revert l; induction k as [|k IH]; intros l Hl Hn.
  - destruct l as [|a [|b [|c l]]]; simpl in *; try done; lia.
  - cbn [subtree]. pose proof (length_level l) as Hlen. rewrite !Nat.pow_succ_r' in *.
    destruct (Nat.leb_spec (length l) (2 * 2 ^ k)) as [Hs|Hs];
      destruct (Nat.leb_spec (length (hash_pairs (dup_odd l))) (2 ^ k)) as [Hp|Hp]; try lia.
    + rewrite <- (IH l) by (done || rewrite ?Nat.pow_succ_r'; lia). done.
    + set (u := take (2 * 2 ^ k) l). set (v := drop (2 * 2 ^ k) l).
      assert (length u = 2 * 2 ^ k)%nat as Hu by (unfold u; rewrite length_take; lia).
      assert (length v = length l - 2 * 2 ^ k)%nat as Hv by (unfold v; rewrite length_drop; lia).
      assert (Nat.Even (length u)) as He by (rewrite Hu; by exists (2 ^ k)%nat).
      assert (v <> []) as Hv0 by (intros E; rewrite E in Hv; simpl in Hv; lia).
      assert (u <> []) as Hu0 by (intros E; rewrite E in Hu; simpl in Hu; lia).
      replace l with (u ++ v) by apply take_drop. rewrite level_app by done.
      pose proof (length_hash_pairs u He) as Hpu.
      rewrite take_app_eq, drop_app_ge' by lia.
      assert (hash_pairs u = hash_pairs (dup_odd u)) as Hd.
      { unfold dup_odd. rewrite <- Nat.negb_even. apply Nat.even_spec in He. by rewrite He. }
      rewrite Hd, <- !IH by (done || rewrite ?Nat.pow_succ_r'; lia). done.
Qed.

Lemma merkle_loop_subtree k fuel l r : l <> [] -> (length l <= 2 ^ k)%nat -> (2 ^ k < 2 * length l)%nat ->
  merkle_loop fuel l = Some r -> r = subtree k l.
Proof.
  revert fuel l; induction k as [|k IH]; intros fuel l Hl Hn Hm H.
  - simpl in *. destruct fuel; simpl in H; destruct (Nat.ltb_spec 1 (length l)); try lia; congruence.
  - rewrite Nat.pow_succ_r' in *. pose proof (length_level l) as Hlen.
    assert (1 <= 2 ^ k)%nat by (apply Nat.neq_0_lt_0, Nat.pow_nonzero; lia).
    destruct fuel as [|fuel]; cbn [merkle_loop] in H; destruct (Nat.ltb_spec 1 (length l)); try done; try lia.
    rewrite subtree_level by (done || rewrite ?Nat.pow_succ_r'; lia). eapply IH; [|lia..|done].
    intros E. rewrite E in Hlen. simpl in Hlen. lia.
Qed.

(** The depth of the tree over [n] leaves. *)
Lemma log2_up_depth n : (0 < n)%nat -> (n <= 2 ^ Nat.log2_up n < 2 * n)%nat.
Proof.
  intros Hn. pose proof (Nat.log2_up_spec n) as H.
  destruct (decide (n = 1)%nat) as [->|]; [simpl; lia|].
  specialize (H ltac:(lia)). destruct (Nat.log2_up n) as [|k] eqn:E; [simpl in *; lia|].
  rewrite Nat.pow_succ_r' in *. simpl in H. lia.
Qed.

Lemma merkle_of_subtree l : l <> [] -> merkle_of l = subtree (Nat.log2_up (length l)) l.
Proof.
  intros Hl. assert (0 < length l)%nat by (destruct l; simpl; [done|lia]).
  pose proof (log2_up_depth (length l)). unfold merkle_of. destruct l as [|h l]; [done|].
  destruct (merkle_loop_total (length (h :: l)) (h :: l)) as [r E]; [lia|].
  rewrite E. simpl default. eapply merkle_loop_subtree; [done| |  |exact E]; lia.
Qed.

Lemma dup_odd_twice l : Nat.odd (length l) = true ->
  dup_odd (l ++ [nth (length l - 1) l []]) = dup_odd l.
Proof.
  intros Ho. assert (Nat.odd (length (l ++ [nth (length l - 1) l []])) = false) as E.
  { rewrite length_app. simpl. by rewrite Nat.add_1_r, Nat.odd_succ, <- Nat.negb_odd, Ho. }
  unfold dup_odd at 1. rewrite E. unfold dup_odd. by rewrite Ho.
Qed.

Lemma merkle_loop_dup fuel l : Nat.odd (length l) = true -> (1 < length l)%nat ->
  merkle_loop fuel (l ++ [nth (length l - 1) l []]) = merkle_loop fuel l.
Proof.
  intros Ho Hl. destruct fuel; cbn [merkle_loop]; rewrite length_app; simpl;
  destruct (Nat.ltb_spec 1 (length l)); destruct (Nat.ltb_spec 1 (length l + 1)); try lia; try done.
  by rewrite dup_odd_twice.
Qed.

Lemma merkle_loop_fuel fuel fuel' l r : (fuel <= fuel')%nat -> merkle_loop fuel l = Some r -> merkle_loop fuel' l = Some r.
Proof.
  revert fuel' l; induction fuel as [|fuel IH]; intros [|fuel'] l Hf; cbn [merkle_loop];
    destruct (Nat.ltb_spec 1 (length l)); try done; [lia|]. apply IH. lia.
Qed.

Lemma merkle_of_dup l : Nat.odd (length l) = true -> (1 < length l)%nat ->
  merkle_of (l ++ [nth (length l - 1) l []]) = merkle_of l.
Proof.
  intros Ho Hl. set (l' := l ++ _). assert (length l' = S (length l)) as Hl' by (unfold l'; rewrite length_app; simpl; lia).
  destruct (merkle_loop_total (length l) l) as [r E]; [lia|].
  assert (merkle_loop (length l') l' = Some r) as E'.
  { eapply merkle_loop_fuel with (fuel := length l); [lia|]. unfold l'. by rewrite merkle_loop_dup. }
  unfold merkle_of. destruct l' eqn:El'; [done|]. rewrite <- El' in *. destruct l eqn:El; [simpl in *; lia|].
  rewrite <- El in *. by rewrite E, E'.
Qed.

(** The merkle root of a block is the root of the tree read from the
    top: of depth [ceil(log2 n)], each node splitting its transaction ids at
    the largest smaller power of two and a short right subtree hashed with
    itself.  The code's bottom-up loop always terminates with this value. *)
Lemma compute_merkle_root_tree (b : Block) :
  compute_merkle_root b =
  match transactions b with
  | [] => ZERO_HASH
  | txs => subtree (Nat.log2_up (length txs)) (map txid txs)
  end.
Proof.
  unfold compute_merkle_root. destruct (transactions b) as [|tx txs]; [done|].
  rewrite merkle_of_subtree by done. by rewrite length_map.
Qed.

(** A block with an odd number of transactions, at least three, has the
    same merkle root as the block with its last transaction repeated: the
    root alone does not determine the transaction list. *)
Lemma merkle_root_duplicate_tail (h : BlockHeader) (txs : list Transaction) (tx : Transaction) :
  Nat.odd (length txs) = false -> txs <> [] ->
  compute_merkle_root (mkBlock h (txs ++ [tx; tx])) = compute_merkle_root (mkBlock h (txs ++ [tx])).
Proof.
  intros Ho Hn. unfold compute_merkle_root. simpl. rewrite !map_app. simpl.
  assert (0 < length txs)%nat by (destruct txs; simpl; [done|lia]).
  set (l := map txid txs ++ [txid tx]).
  assert (length l = S (length txs)) as Hl by (unfold l; rewrite length_app, length_map; simpl; lia).
  rewrite <- (merkle_of_dup l).
  - unfold l. rewrite length_app, length_map. simpl. rewrite Nat.add_sub, app_nth2, length_map, Nat.sub_diag by (rewrite length_map; lia).
    by rewrite <- app_assoc.
  - rewrite Hl, Nat.odd_succ, <- Nat.negb_odd. by rewrite Ho.
  - lia.
Qed.
End MerkleSpec.

(** ** The block locator *)

Section Locator.
Context (hash_at_height : Z -> option BlockHash).

(** The heights the loop visits, from [height] down to genesis. *)
Lemma locator_loop_heights fuel height step have : 0 <= height -> 1 <= step ->
  (Z.to_nat height < fuel)%nat ->
  exists hs, locator_loop fuel hash_at_height height step have = Some (have ++ omap hash_at_height hs) /\
    StronglySorted Z.gt hs /\ head hs = Some height /\ last hs = Some 0.
Proof.
  revert height step have; induction fuel as [|fuel IH]; intros h st have Hh Hst Hf; [lia|].
  cbn [locator_loop].
  assert (match hash_at_height h with Some x => have ++ [x] | None => have end
          = have ++ omap hash_at_height [h]) as ->.
  { simpl. destruct (hash_at_height h); [done|]. by rewrite app_nil_r. }
  destruct (Z.eqb_spec h 0) as [->|Hne].
  - exists [0]. split_and!; [done| |done|done]. repeat constructor.
  - destruct (IH (saturating_sub_u h st) (if (10 <? length (have ++ omap hash_at_height [h]))%nat
       then saturating_mul_u U32_MAX st 2 else st) (have ++ omap hash_at_height [h])) as (hs & E & Hs & Hhd & Hl).
    + unfold saturating_sub_u. lia.
    + unfold saturating_mul_u, U32_MAX. destruct (_ <? _)%nat; lia.
    + unfold saturating_sub_u. lia.
    + exists (h :: hs). rewrite E. split_and!.
      * f_equal. rewrite <- app_assoc. f_equal. simpl. by destruct (hash_at_height h).
      * constructor; [done|]. destruct hs as [|x hs]; [done|]. injection Hhd as ->.
        apply StronglySorted_inv in Hs as [_ Hs].
        assert (h > saturating_sub_u h st) by (unfold saturating_sub_u; lia).
        constructor; [done|]. eapply Forall_impl; [exact Hs|]. simpl. lia.
      * done.
      * destruct hs; [done|]. by rewrite last_cons_cons.
Qed.
End Locator.

(** Doubling phase: from step [2^j] at most [33 - j] entries follow. *)
Lemma locator_doubling f fuel j height have r : 0 <= j <= 32 -> 0 <= height <= 2 ^ 32 - 2 ^ j ->
  (10 < length have)%nat ->
  locator_loop fuel (fun h => Some (f h)) height (Z.min U32_MAX (2 ^ j)) have = Some r ->
  (length r <= length have + Z.to_nat (33 - j))%nat.
Proof.
  revert j height have; induction fuel as [|fuel IH]; intros j h have Hj Hh Hl; cbn [locator_loop]; [done|].
  assert (length (have ++ [f h]) = S (length have)) as E by (rewrite length_app; simpl; lia).
  destruct (Z.eqb_spec h 0) as [->|Hne]; [intros [= <-]; lia|].
  destruct (decide (j = 32)) as [->|]; [lia|].
  assert (2 ^ (j + 1) = 2 * 2 ^ j) as Hp by (rewrite Z.pow_add_r by lia; lia).
  assert (2 ^ j <= 2 ^ 31) by (apply Z.pow_le_mono_r; lia).
  rewrite E. destruct (Nat.ltb_spec 10 (S (length have))); [|lia].
  replace (saturating_mul_u U32_MAX (Z.min U32_MAX (2 ^ j)) 2) with (Z.min U32_MAX (2 ^ (j + 1)))
    by (unfold saturating_mul_u, U32_MAX; lia).
  intros Hr%IH; [|lia| |lia].
  - lia.
  - unfold saturating_sub_u, U32_MAX. lia.
Qed.

Lemma locator_length f fuel height have r : 0 <= height -> height + Z.of_nat (length have) <= 2 ^ 32 - 1 ->
  (length have <= 10)%nat -> locator_loop fuel (fun h => Some (f h)) height 1 have = Some r ->
  (length r <= 43)%nat.
Proof.
  revert height have; induction fuel as [|fuel IH]; intros h have Hh Hh' Hl; cbn [locator_loop]; [done|].
  assert (length (have ++ [f h]) = S (length have)) as E by (rewrite length_app; simpl; lia).
  destruct (Z.eqb_spec h 0) as [->|Hne]; [intros [= <-]; lia|].
  rewrite E. destruct (Nat.ltb_spec 10 (S (length have))) as [Hlt|Hge].
  - intros H. apply (locator_doubling f fuel 1) in H; [lia|lia| |lia]. unfold saturating_sub_u. lia.
  - apply IH; unfold saturating_sub_u; lia.
Qed.

Lemma locator_loop_total_hashes g n h st have : (forall h, is_Some (g h)) ->
  locator_loop n g h st have = locator_loop n (fun h => Some (default [] (g h))) h st have.
Proof.
  intros Hall. revert h st have. induction n as [|n IH]; intros h st have; [done|]. cbn [locator_loop].
  destruct (Hall h) as [x ->]. simpl. destruct (_ =? _); [done|]. apply IH.
Qed.

(** The block locator lists the hashes at strictly decreasing heights
    from the tip to genesis, skipping only heights with no hash; when every
    height has a hash it has at most 43 entries whatever the [u32] height. *)
Lemma build_block_locator_spec (tip : Z) (hash_at_height : Z -> option BlockHash) : u32_ok tip ->
  (exists hs, build_block_locator tip hash_at_height = omap hash_at_height hs /\
     StronglySorted Z.gt hs /\ head hs = Some tip /\ last hs = Some 0) /\
  ((forall h, is_Some (hash_at_height h)) -> (length (build_block_locator tip hash_at_height) <= 43)%nat).
Proof.
  intros Ht. int_unfold.
  destruct (locator_loop_heights hash_at_height (S (Z.to_nat tip)) tip 1 []) as (hs & E & H); [lia..|].
  assert (build_block_locator tip hash_at_height = omap hash_at_height hs) as Eb
    by (unfold build_block_locator; by rewrite E).
  split; [by exists hs|]. intros Hall. rewrite Eb. change ([] ++ omap hash_at_height hs) with (omap hash_at_height hs) in E.
  rewrite (locator_loop_total_hashes hash_at_height) in E by done.
  eapply (locator_length _ _ tip []); [..|exact E]; cbn [length]; lia.
Qed.

Lemma build_block_locator_witness :
  (exists hs, build_block_locator 500 (fun h => Some [h]) = omap (fun h => Some [h]) hs /\
     StronglySorted Z.gt hs /\ head hs = Some 500 /\ last hs = Some 0) /\
  (length (build_block_locator 500 (fun h => Some [h])) <= 43)%nat.
Proof.
  split.
  - apply (build_block_locator_spec 500 (fun h => Some [h])). split; [lia|reflexivity].
  - apply (build_block_locator_spec 500 (fun h => Some [h])); [split; [lia|reflexivity]|eauto].
Defined.

(** ** Compact targets *)

Lemma put_byte_ok t pos m : hash_ok t -> u8_ok m -> hash_ok (put_byte t pos m).
Proof.
  intros [Ht Hb] Hm. unfold put_byte. destruct (_ <? _)%nat; [|done].
  split; [by rewrite length_insert | by apply bytes_ok_insert].
Qed.

Lemma put_byte_other t pos m i : (i <> pos)%nat -> idx (put_byte t pos m) i = idx t i.
Proof.
  intros Hi. unfold put_byte. destruct (_ <? _)%nat; [|done].
  rewrite !nth_lookup, list_lookup_insert_ne; [done|lia].
Qed.

Lemma put_byte_value t pos m : hash_ok t -> u8_ok m -> idx t pos = 0 ->
  of_le (put_byte t pos m) = (of_le t + m * 2 ^ (8 * Z.of_nat pos)) mod 2 ^ 256.
Proof.
  intros Ht Hm H0. pose proof (put_byte_ok t pos m Ht Hm) as [Hl Hb]. pose proof (of_le_bound _ Hb) as B.
  rewrite Hl in B. change (2 ^ (8 * Z.of_nat 32)) with (2 ^ 256) in B.
  destruct Ht as [Hl' Hb']. pose proof (of_le_bound _ Hb') as B'. rewrite Hl' in B'.
  change (2 ^ (8 * Z.of_nat 32)) with (2 ^ 256) in B'.
  revert B. unfold put_byte. destruct (Nat.ltb_spec pos 32) as [Hp|Hp]; intros B.
  - rewrite of_le_insert, H0, Z.sub_0_r in * by lia. by rewrite Z.mod_small.
  - replace (8 * Z.of_nat pos) with (8 * Z.of_nat pos - 256 + 256) by lia.
    rewrite Z.pow_add_r, Z.mul_assoc, Z.mod_add, Z.mod_small by lia. done.
Qed.

Lemma split_bytes3 m : 0 <= m < 2 ^ 24 ->
  m = Z.land m 0xFF + Z.land (Z.shiftr m 8) 0xFF * 2 ^ 8 + Z.land (Z.shiftr m 16) 0xFF * 2 ^ 16.
Proof. intros. rewrite !land_ff, !Z.shiftr_div_pow2 by lia. change (2 ^ 8) with 256. change (2 ^ 16) with (256 * 256).
  rewrite <- Z.div_div by lia. 
  assert (m / 256 / 256 < 256) by (apply Z.div_lt_upper_bound; [lia|]; apply Z.div_lt_upper_bound; lia).
  pose proof (Z.div_pos m 256). pose proof (Z.div_pos (m / 256) 256).
  rewrite (Z.mod_small (m / 256 / 256)) by lia.
  pose proof (Z.div_mod m 256). pose proof (Z.div_mod (m / 256) 256). lia.
Qed.

Lemma land_ff_ok a : u8_ok (Z.land a 0xFF).
Proof. rewrite land_ff. int_unfold. apply Z.mod_pos_bound. lia. Qed.

Definition exponent_of (bits : Z) : Z := bits / 2 ^ 24.
Definition mantissa_of (bits : Z) : Z := bits mod 2 ^ 24.

Lemma bits_to_target_ok b : hash_ok (bits_to_target b).
Proof.
  unfold bits_to_target. destruct (_ =? _)%nat; [apply ZERO_HASH_ok|].
  auto using put_byte_ok, land_ff_ok, ZERO_HASH_ok.
Qed.

(** The number [bits_to_target] denotes.  Exponents 1 and 2 place the
    mantissa as exponent 3 does. *)
Lemma bits_to_target_value b : u32_ok b ->
  of_le (bits_to_target b) =
  if exponent_of b =? 0 then 0
  else (mantissa_of b * 2 ^ (8 * Z.max 0 (exponent_of b - 3))) mod 2 ^ 256.
Proof.
  intros Hb. unfold bits_to_target, exponent_of, mantissa_of. int_unfold.
  change 0x00FFFFFF with (2 ^ 24 - 1). rewrite Z.shiftr_div_pow2, land_low by lia. set (e := b / 2 ^ 24). set (m := b mod 2 ^ 24).
  assert (0 <= e) by (apply Z.div_pos; lia).
  assert (0 <= m < 2 ^ 24) as Hm by (apply Z.mod_pos_bound; lia).
  destruct (Nat.eqb_spec (Z.to_nat e) 0); destruct (Z.eqb_spec e 0); try lia; [apply of_le_zeros|].
  set (pos := (Z.to_nat e - 3)%nat). replace (Z.max 0 (e - 3)) with (Z.of_nat pos) by lia.
  assert (forall i, idx (replicate 32 0) i = 0) as H0 by (intros i; rewrite nth_lookup;
    destruct (replicate 32 0 !! i) eqn:E; [apply lookup_replicate in E as [-> _]|]; done).
  pose proof ZERO_HASH_ok as Hz. unfold ZERO_HASH in Hz.
  pose proof (land_ff_ok m). pose proof (land_ff_ok (Z.shiftr m 8)). pose proof (land_ff_ok (Z.shiftr m 16)).
  rewrite !put_byte_value by (auto 6 using put_byte_ok || rewrite ?put_byte_other by lia; auto).
  rewrite of_le_zeros, !Nat2Z.inj_add, !Z.mul_add_distr_l, !Z.pow_add_r by lia.
  rewrite !Zplus_mod_idemp_l, <- Z.add_assoc, !Zplus_mod_idemp_l. f_equal. pose proof (split_bytes3 m Hm) as Hs.
  set (m0 := Z.land m 0xFF) in *. set (m1 := Z.land (Z.shiftr m 8) 0xFF) in *.
  set (m2 := Z.land (Z.shiftr m 16) 0xFF) in *. rewrite Hs.
  change (8 * Z.of_nat 1) with 8. change (8 * Z.of_nat 2) with 16. ring.
Qed.

Lemma significant_size_spec b n : (n <= length b)%nat -> bytes_ok b ->
  let k := significant_size b n in
  (k <= n)%nat /\ of_le (take n b) = of_le (take k b) /\ (k <> O -> 0 < idx b (k - 1)).
Proof.
  intros Hn Hb. induction n as [|n IH]; [done|].
  cbn [significant_size]. pose proof (idx_ok b n Hb) as Hx. int_unfold.
  destruct (Z.eqb_spec (idx b n) 0) as [E|E].
  - rewrite of_le_nth_split, E, Z.mul_0_r, Z.add_0_r by lia.
    destruct IH as (? & ? & ?); [lia|]. split; [lia|done].
  - split; [lia|]. split; [done|]. intros _. replace (S n - 1)%nat with n by lia. lia.
Qed.

(** The three most significant bytes of a number, as the mantissa. *)
Lemma top3_value t n : hash_ok t -> (3 <= n <= 32)%nat ->
  of_le (take n t) / 2 ^ (8 * Z.of_nat (n - 3)) =
  Z.lor (Z.lor (Z.shiftl (idx t (n - 1)) 16) (Z.shiftl (idx t (n - 2)) 8)) (idx t (n - 3)).
Proof.
  intros [Hl Hb] Hn. pose proof (idx_ok t (n - 1) Hb). pose proof (idx_ok t (n - 2) Hb).
  pose proof (idx_ok t (n - 3) Hb). int_unfold.
  replace n with (S (S (S (n - 3)))) at 1 by lia. set (k := (n - 3)%nat) in *.
  replace (n - 1)%nat with (S (S k)) in * by lia. replace (n - 2)%nat with (S k) in * by lia.
  rewrite !of_le_nth_split by lia.
  pose proof (of_le_bound (take k t) (bytes_ok_take k t Hb)) as B. rewrite length_take, Nat.min_l in B by lia.
  rewrite !pow256_S. set (p := 2 ^ (8 * Z.of_nat k)) in *.
  replace (of_le (take k t) + p * idx t k + 256 * p * idx t (S k) + 256 * (256 * p) * idx t (S (S k)))
    with ((idx t k + 256 * idx t (S k) + 65536 * idx t (S (S k))) * p + of_le (take k t)) by ring.
  rewrite Z.div_add_l, Z.div_small by lia.
  assert (Z.shiftl (idx t (S k)) 8 = idx t (S k) * 256) as Es by (by rewrite Z.shiftl_mul_pow2).
  rewrite (lor_shiftl_add _ _ 16) by (rewrite ?Es; lia). rewrite Es.
  replace (idx t (S (S k)) * 2 ^ 16 + idx t (S k) * 256) with (Z.shiftl (idx t (S (S k)) * 256 + idx t (S k)) 8)
    by (rewrite Z.shiftl_mul_pow2 by lia; ring).
  rewrite lor_shiftl_add by lia. ring.
Qed.

Lemma land_bit23 m : 0 <= m < 2 ^ 24 -> Z.land m 0x00800000 = 0 <-> m < 2 ^ 23.
Proof.
  intros Hm. change 0x00800000 with (Z.shiftl 1 23). rewrite Z.land_comm. split; intros H.
  - destruct (Z.lt_ge_cases m (2 ^ 23)) as [|Hge]; [done|]. exfalso.
    assert (Z.testbit (Z.land (Z.shiftl 1 23) m) 23 = true); [|by rewrite H in *].
    rewrite Z.land_spec. apply andb_true_iff. split; [done|].
    apply Z.testbit_true; [lia|]. replace (m / 2 ^ 23) with 1; [done|].
    apply Z.div_unique with (m - 2 ^ 23); lia.
  - apply land_shiftl_low; lia.
Qed.

(** [target_to_bits] keeps the top of the number: some [k] low bytes are
    dropped and what is left is a positive mantissa below [2^23]. *)
Lemma target_to_bits_value t : hash_ok t -> (3 <= significant_size t 32)%nat ->
  exists k, let m := of_le t / 2 ^ (8 * Z.of_nat k) in
    target_to_bits t = Z.of_nat (k + 3) * 2 ^ 24 + m /\ (k <= 30)%nat /\ 2 ^ 15 <= m < 2 ^ 23.
Proof.
  intros Ht Hn. pose proof Ht as [Hl Hb].
  destruct (significant_size_spec t 32) as (Hk & Hv & Htop); [lia|done|].
  rewrite take_ge in Hv by lia. unfold target_to_bits. set (n := significant_size t 32) in *.
  destruct (Nat.eqb_spec n 0); [lia|]. destruct (Nat.leb_spec 3 n); [|lia].
  rewrite <- top3_value, <- Hv by done. specialize (Htop ltac:(lia)).
  set (q := of_le t / 2 ^ (8 * Z.of_nat (n - 3))).
  assert (2 ^ 16 <= q < 2 ^ 24) as Hq.
  { unfold q. rewrite Hv, top3_value by done.
    pose proof (idx_ok t (n - 1) Hb). pose proof (idx_ok t (n - 2) Hb). pose proof (idx_ok t (n - 3) Hb).
    int_unfold. assert (Z.shiftl (idx t (n - 2)) 8 = idx t (n - 2) * 256) as Es by (by rewrite Z.shiftl_mul_pow2).
    rewrite (lor_shiftl_add _ _ 16) by (rewrite ?Es; lia). rewrite Es.
    replace (idx t (n - 1) * 2 ^ 16 + idx t (n - 2) * 256) with (Z.shiftl (idx t (n - 1) * 256 + idx t (n - 2)) 8)
      by (rewrite Z.shiftl_mul_pow2 by lia; ring).
    rewrite lor_shiftl_add; lia. }
  pose proof (land_bit23 q ltac:(lia)) as Hbit.
  destruct (Z.eqb_spec (Z.land q 0x00800000) 0) as [E|E]; cbn [negb].
  - exists (n - 3)%nat. fold q. split_and!; [|lia|..|by apply Hbit]; [|lia].
    rewrite lor_shiftl_add by lia. do 2 f_equal. lia.
  - exists (n - 2)%nat. replace (of_le t / 2 ^ (8 * Z.of_nat (n - 2))) with (q / 2 ^ 8).
    2: { unfold q. rewrite Z.div_div by lia. f_equal. rewrite <- Z.pow_add_r by lia. f_equal. lia. }
    assert (2 ^ 23 <= q) by (destruct (Z.lt_ge_cases q (2 ^ 23)) as [Hlt|]; [by apply Hbit in Hlt|done]).
    assert (2 ^ 15 <= q / 2 ^ 8) by (apply Z.div_le_lower_bound; lia).
    assert (q / 2 ^ 8 < 2 ^ 16) by (apply Z.div_lt_upper_bound; lia).
    rewrite Z.shiftr_div_pow2, lor_shiftl_add by lia. split_and!; [f_equal; lia|lia..].
Qed.

Lemma significant_size_ge3 t : hash_ok t -> 2 ^ 16 <= of_le t -> (3 <= significant_size t 32)%nat.
Proof.
  intros [Hl Hb] Hv. destruct (significant_size_spec t 32) as (Hk & E & _); [lia|done|].
  rewrite take_ge in E by lia. destruct (Nat.le_gt_cases 3 (significant_size t 32)) as [|Hlt]; [done|].
  exfalso. pose proof (of_le_bound (take (significant_size t 32) t) (bytes_ok_take _ _ Hb)) as B.
  rewrite length_take, Nat.min_l in B by lia.
  assert (2 ^ (8 * Z.of_nat (significant_size t 32)) <= 2 ^ 16) by (apply Z.pow_le_mono_r; lia). lia.
Qed.

Lemma compact_fields e m : 0 <= e < 256 -> 0 <= m < 2 ^ 24 ->
  let b := e * 2 ^ 24 + m in u32_ok b /\ exponent_of b = e /\ mantissa_of b = m.
Proof.
  intros He Hm b. unfold exponent_of, mantissa_of, b. int_unfold. split; [lia|]. split.
  - by rewrite Z.div_add_l, Z.div_small, Z.add_0_r by lia.
  - by rewrite Z.add_comm, Z.mod_add, Z.mod_small by lia.
Qed.

Lemma compact_scale_unique m j k : 2 ^ 15 <= m < 2 ^ 23 ->
  2 ^ 15 <= m * 2 ^ (8 * Z.of_nat j) / 2 ^ (8 * Z.of_nat k) < 2 ^ 23 -> k = j.
Proof.
  intros Hm Hq. destruct (Nat.lt_trichotomy k j) as [H|[H|H]]; [|done|]; exfalso.
  - replace (8 * Z.of_nat j) with (8 * (Z.of_nat j - Z.of_nat k - 1) + 8 + 8 * Z.of_nat k) in Hq by lia.
    rewrite !Z.pow_add_r, !Z.mul_assoc, Z.div_mul in Hq by lia.
    assert (0 < 2 ^ (8 * (Z.of_nat j - Z.of_nat k - 1))) by (apply Z.pow_pos_nonneg; lia). nia.
  - replace (8 * Z.of_nat k) with (8 * Z.of_nat j + 8 + 8 * (Z.of_nat k - Z.of_nat j - 1)) in Hq by lia.
    rewrite !Z.pow_add_r, <- !Z.div_div, Z.div_mul in Hq by lia.
    assert (m / 2 ^ 8 < 2 ^ 15) by (apply Z.div_lt_upper_bound; lia).
    assert (0 <= m / 2 ^ 8) by (apply Z.div_pos; lia).
    set (p := 2 ^ (8 * (Z.of_nat k - Z.of_nat j - 1))) in *.
    assert (0 < p) by (apply Z.pow_pos_nonneg; lia).
    assert (m / 2 ^ 8 / p <= m / 2 ^ 8) by (apply Z.div_le_upper_bound; nia). lia.
Qed.

(** Every target of at least three significant bytes survives the compact
    form up to rounding down: the low [k] bytes are cleared and at least 15
    significant bits are kept. *)
Lemma compact_rounds_down (t : Hash256) : hash_ok t -> 2 ^ 16 <= of_le t ->
  exists k, of_le (bits_to_target (target_to_bits t)) = of_le t / 2 ^ (8 * k) * 2 ^ (8 * k) /\
    2 ^ 15 <= of_le t / 2 ^ (8 * k) < 2 ^ 23.
Proof.
  intros Ht Hv. destruct (target_to_bits_value t Ht) as (k & E & Hk & Hm); [by apply significant_size_ge3|].
  exists (Z.of_nat k). split; [|done].
  destruct (compact_fields (Z.of_nat (k + 3)) (of_le t / 2 ^ (8 * Z.of_nat k))) as (Hb & He & Hma); [lia..|].
  rewrite <- E in Hb, He, Hma. rewrite bits_to_target_value, He, Hma by done.
  destruct (Z.eqb_spec (Z.of_nat (k + 3)) 0); [lia|]. replace (Z.max 0 _) with (Z.of_nat k) by lia.
  apply Z.mod_small. pose proof (of_le_bound t (proj2 Ht)) as B. rewrite (proj1 Ht) in B.
  change (2 ^ (8 * Z.of_nat 32)) with (2 ^ 256) in B.
  pose proof (Z.mul_div_le (of_le t) (2 ^ (8 * Z.of_nat k))). lia.
Qed.

Lemma compact_rounds_down_witness :
  exists k, of_le (bits_to_target (target_to_bits (le_bytes 32 0x123456789a))) =
    0x123456789a / 2 ^ (8 * k) * 2 ^ (8 * k) /\ 2 ^ 15 <= 0x123456789a / 2 ^ (8 * k) < 2 ^ 23.
Proof.
  replace 0x123456789a with (of_le (le_bytes 32 0x123456789a)) at 2 3 4 by reflexivity.
  apply (compact_rounds_down (le_bytes 32 0x123456789a)).
  - split; [apply length_le_bytes | apply le_bytes_ok].
  - vm_compute. discriminate.
Defined.

(** Normalized compact targets round trip: a mantissa of 16 to 23 bits
    whose shifted value fits 256 bits is what [target_to_bits] gives back. *)
Lemma compact_roundtrip (e m : Z) : 3 <= e -> 2 ^ 15 <= m < 2 ^ 23 -> m * 2 ^ (8 * (e - 3)) < 2 ^ 256 ->
  2 ^ 16 <= m * 2 ^ (8 * (e - 3)) ->
  target_to_bits (bits_to_target (e * 2 ^ 24 + m)) = e * 2 ^ 24 + m.
Proof.
  intros He Hm Hlt Hge.
  assert (e < 256) as He'.
  { destruct (Z.lt_ge_cases e 256) as [|H]; [done|]. exfalso.
    assert (2 ^ 256 <= 2 ^ (8 * (e - 3))) by (apply Z.pow_le_mono_r; lia). nia. }
  destruct (compact_fields e m) as (Hb & Ee & Em); [lia..|]. set (b := e * 2 ^ 24 + m) in *.
  assert (of_le (bits_to_target b) = m * 2 ^ (8 * Z.of_nat (Z.to_nat (e - 3)))) as Hv.
  { rewrite bits_to_target_value, Ee, Em by done. destruct (Z.eqb_spec e 0); [lia|].
    rewrite Z.max_r, Z2Nat.id by lia. apply Z.mod_small. lia. }
  destruct (target_to_bits_value (bits_to_target b)) as (k & E & Hk & Hq); [apply bits_to_target_ok|..].
  { apply significant_size_ge3; [apply bits_to_target_ok|]. rewrite Hv, Z2Nat.id; lia. }
  rewrite Hv in E, Hq. apply compact_scale_unique in Hq as ->; [|done].
  rewrite E, Z.div_mul by (apply Z.pow_nonzero; lia). unfold b. lia.
Qed.

Lemma compact_roundtrip_witness : target_to_bits (bits_to_target (0x1d * 2 ^ 24 + 0xffff)) = 0x1d * 2 ^ 24 + 0xffff.
Proof. apply (compact_roundtrip 0x1d 0xffff); [lia | lia | reflexivity | vm_compute; discriminate]. Defined.

(** Targets of one byte do not survive the compact form: the code leaves
    the mantissa unshifted for exponents 1 and 2, where the compact format
    shifts it right by [8 * (3 - exponent)], so a target [v] comes back as
    [v * 2^16]. *)
Lemma compact_small_targets_scaled (v : Z) : 1 <= v < 128 ->
  of_le (bits_to_target (target_to_bits (le_bytes 32 v))) = v * 2 ^ 16.
Proof.
  intros Hv.
  assert (forallb (fun v => of_le (bits_to_target (target_to_bits (le_bytes 32 v))) =? v * 2 ^ 16) (seqZ 1 127) = true) as H
    by (vm_compute; reflexivity).
  apply Z.eqb_eq. rewrite forallb_forall in H. apply H. apply list_elem_of_In, elem_of_seqZ. lia.
Qed.

Lemma compact_small_targets_witness : of_le (bits_to_target (target_to_bits (le_bytes 32 1))) = 1 * 2 ^ 16.
Proof. apply (compact_small_targets_scaled 1). lia. Defined.
