(* ===== verification/Codecs.v ===== *)
(** * The wire format as a whole

    The round trips and the canonicity of the codecs, stated on whole payloads
    ([decode_exact] of decode.rs): what is encoded decodes to itself, and what
    is accepted is what the encoder writes. *)

From S2P Require Import Prelude Wire Hash Transaction Block.

(** Blocks round trip: decoding the serialization of a block gives the block
    back and leaves no byte over. *)
Lemma block_roundtrip (b : Block) (ctx : string) : block_ok b ->
  decode_exact decode_Block (serialize encode_Block b) ctx = Ok b.
Proof. apply decode_exact_serialize. apply _. Qed.

(** The CompactSize integers of the wire are canonical: a payload decodes to
    a number exactly when it is the shortest encoding of that 64-bit number. *)
Lemma varint_canonical (p : bytes) (n : Z) (ctx : string) : bytes_ok p ->
  decode_exact decode_VarInt p ctx = Ok n <-> u64_ok n /\ p = serialize encode_VarInt n.
Proof.
  intros Hp. split; [apply (decode_exact_inv encode_VarInt decode_VarInt u64_ok); done|].
  intros [Hn ->]. by apply (decode_exact_serialize encode_VarInt decode_VarInt u64_ok).
Qed.

(** C35: transactions: an accepted payload is the segwit or the legacy encoding
    of the transaction it decodes to, the legacy one only without witnesses, and
    every encodable transaction decodes to itself. *)
Theorem transaction_wire (ctx : string) :
  (forall tx, tx_encodable tx -> decode_exact decode_Transaction (serialize encode_Transaction tx) ctx = Ok tx) /\
  (forall p tx, bytes_ok p -> decode_exact decode_Transaction p ctx = Ok tx ->
     tx_ok tx /\ (p = serialize encode_segwit tx \/
       (p = serialize encode_legacy tx /\ is_segwit tx = false /\ inputs tx <> []))).
Proof.
  split; [intros tx; apply decode_exact_serialize; apply _|].
  intros p tx Hp H. unfold decode_exact in H. inv_ok.
  match goal with H : decode_Transaction _ = Ok _ |- _ => apply decode_Transaction_inv in H as [Hok Hc]; [|split; [simpl; lia|done]] end.
  assert (forall s, consumed (Decoder_new p) s d -> p = s) as Hall.
  { intros s (E1 & E2 & E3 & _). unfold finish, is_done in *. cbn in *.
    destruct (Nat.eqb_spec (dec_pos d) (length (dec_data d))) as [Ed|]; [|done]. by rewrite Ed, E1, drop_all, app_nil_r, drop_0 in E2. }
  split; [done|]. destruct Hc as [Hc|(Hc & ? & ?)]; [left|right]; eauto.
Qed.

(** What the node stores reads back: block index entries, coins, undo data
    and file positions. *)
Lemma stored_records_roundtrip (ctx : string) :
  (forall x, block_index_ok x -> decode_exact decode_BlockIndex (serialize encode_BlockIndex x) ctx = Ok x) /\
  (forall x, coin_ok x -> decode_exact decode_Coin (serialize encode_Coin x) ctx = Ok x) /\
  (forall x, undo_ok x -> decode_exact decode_BlockUndo (serialize encode_BlockUndo x) ctx = Ok x) /\
  (forall x, flatpos_ok x -> decode_exact decode_FlatFilePos (serialize encode_FlatFilePos x) ctx = Ok x).
Proof. split_and!; intros x; apply decode_exact_serialize; apply _. Qed.

(** ** Concrete payloads *)

Definition sample_transaction (n : Z) : Transaction :=
  mkTransaction 2 [mkTxIn (mkOutPoint (replicate 32 n) 1) [0x51] 5 [[1; 2]; []]] [mkTxOut n [0x6a]] 0.
Definition sample_block : Block :=
  mkBlock (mkBlockHeader 1 (replicate 32 7) (replicate 32 8) 9 0x1d00ffff 11) [sample_transaction 3; sample_transaction 4].
Lemma sample_block_ok : block_ok sample_block.
Proof.
  unfold block_ok, header_ok, list_ok, tx_encodable, tx_ok, txin_base_ok, outpoint_ok, witness_ok, list_ok, txout_ok, varbytes_ok, hash_ok, array_ok, vec_ok, i32_ok, u32_ok, u64_ok.
  apply (bool_decide_unpack _). vm_compute. exact I.
Qed.

Lemma block_roundtrip_witness : decode_exact decode_Block (serialize encode_Block sample_block) "block" = Ok sample_block.
Proof. apply (block_roundtrip sample_block "block"). exact sample_block_ok. Defined.

Lemma varint_canonical_witness : decode_exact decode_VarInt [0xfd; 0x00; 0x01] "n" = Ok 256.
Proof.
  apply (varint_canonical [0xfd; 0x00; 0x01] 256 "n").
  - apply (bool_decide_unpack _). vm_compute. exact I.
  - split; [by (split; vm_compute)|vm_compute; reflexivity].
Defined.

Lemma weight_bip141_witness : weight sample_block = 3 * Z.of_nat (stripped_size sample_block) + Z.of_nat (length (serialize encode_Block sample_block)).
Proof. apply (weight_bip141 sample_block). exact sample_block_ok. Defined.

Lemma merkle_root_duplicate_tail_witness :
  @compute_merkle_root toy_digests (mkBlock (header sample_block) ([sample_transaction 3; sample_transaction 4] ++ [sample_transaction 5; sample_transaction 5])) =
  @compute_merkle_root toy_digests (mkBlock (header sample_block) ([sample_transaction 3; sample_transaction 4] ++ [sample_transaction 5])).
Proof. apply (@merkle_root_duplicate_tail toy_digests); [reflexivity|discriminate]. Defined.
