(* ===== verification/Params.v ===== *)
(** * Chain parameters (crates/common/types)

    params.rs, magic.rs, genesis.rs, networks/mod.rs and the four networks.
    The [hex] crate is third-party: [decode] and [decode_to_slice] are the
    operations of the class [Hex], [HexOk] states what its documentation
    promises.  A constructor of parameters returns [None] where the code
    panics ([expect], [unwrap]). *)

From Stdlib Require Import Ascii.
From S2P Require Import Prelude Wire Hash Transaction Block.

Class Hex : Type := {
  (** [hex::decode] *)
  hex_decode : string -> option bytes;
  (** [hex::decode_to_slice] into a slice of [n] bytes *)
  hex_decode_to_slice : string -> nat -> option bytes;
}.

Definition hex_digit (c : ascii) : option Z :=
  let n := Z.of_N (N_of_ascii c) in
  if (48 <=? n) && (n <=? 57) then Some (n - 48)
  else if (97 <=? n) && (n <=? 102) then Some (n - 87)
  else if (65 <=? n) && (n <=? 70) then Some (n - 55)
  else None.

(** The bytes a string of hexadecimal digit pairs denotes. *)
Fixpoint hex_pairs (s : string) : option bytes :=
  match s with
  | EmptyString => Some []
  | String a (String b s) =>
    match hex_digit a, hex_digit b, hex_pairs s with
    | Some x, Some y, Some l => Some (x * 16 + y :: l)
    | _, _, _ => None
    end
  | _ => None
  end.

Class HexOk (H : Hex) : Prop := {
  hex_decode_ok : forall s, hex_decode s = hex_pairs s;
  (** an input whose length is not twice the slice's is an error *)
  hex_slice_length : forall s n, String.length s <> (2 * n)%nat -> hex_decode_to_slice s n = None;
  hex_slice_ok : forall s n, String.length s = (2 * n)%nat -> hex_decode_to_slice s n = hex_pairs s;
}.

(** The documented behaviour as a function, for evaluating examples. *)
Definition hex_reference : Hex := {|
  hex_decode := hex_pairs;
  hex_decode_to_slice s n := if decide (String.length s = 2 * n)%nat then hex_pairs s else None |}.
Lemma hex_reference_ok : HexOk hex_reference.
Proof. split; intros; simpl; try done; by case_decide. Qed.

(** ** Message-start bytes (magic.rs) *)

Record Magic : Type := mkMagic { magic_bytes : bytes }.
Definition MAINNET : Magic := mkMagic [0xF9; 0xBE; 0xB4; 0xD9].
Definition TESTNET3 : Magic := mkMagic [0x0B; 0x11; 0x09; 0x07].
Definition SIGNET : Magic := mkMagic [0x0A; 0x03; 0xCF; 0x40].
Definition REGTEST : Magic := mkMagic [0xFA; 0xBF; 0xB5; 0xDA].

#[export] Instance Magic_eq_dec : EqDecision Magic.
Proof. solve_decision. Defined.

Definition encode_Magic : encoder_of Magic := fun m e => encode_array (magic_bytes m) e.
Definition decode_Magic : decoder_of Magic := fun d =>
  let? '(b, d) := decode_array 4 d in Ok (mkMagic b, d).

(** ** Consensus parameters (params.rs) *)

Inductive Base58Type : Type :=
  | PubKeyAddress | ScriptAddress | SecretKey | ExtPublicKey | ExtSecretKey.
#[export] Instance Base58Type_eq_dec : EqDecision Base58Type.
Proof. solve_decision. Defined.

Record ConsensusParams : Type := mkConsensusParams {
  bip34_height : Z;
  bip65_height : Z;
  bip66_height : Z;
  segwit_height : Z;
  pow_limit : Hash256;
  pow_target_spacing : Z;
  pow_target_timespan : Z;
  pow_no_retargeting : bool;
  f_pow_allow_min_difficulty_blocks : bool;
  n_subsidy_halving_interval : Z;
  n_minimum_chain_work : Hash256;
  default_assume_valid : BlockHash;
  signet_blocks : bool;
  signet_challenge : bytes;
}.

Record ChainParams : Type := mkChainParams {
  magic : Magic;
  genesis_header : BlockHeader;
  consensus : ConsensusParams;
  default_port : Z;
  bech32_hrp : string;
  (** a [HashMap], as the entries inserted *)
  base58_prefixes : list (Base58Type * bytes);
  dns_seeds : list string;
}.

(** ** Genesis blocks (genesis.rs) *)

Record Genesis : Type := mkGenesis {
  g_version : Z;
  timestamp : Z;
  g_bits : Z;
  g_nonce : Z;
  message : string;
  output_script : ScriptBuf;
  reward : Amount;
}.

(** [as_bytes] *)
Fixpoint string_bytes (s : string) : bytes :=
  match s with
  | EmptyString => []
  | String a s => Z.of_N (N_of_ascii a) :: string_bytes s
  end.

Definition GENESIS_MESSAGE : string :=
  "The Times 03/Jan/2009 Chancellor on brink of second bailout for banks".
Definition GENESIS_SCRIPT_HEX : string :=
  "4104678afdb0fe5548271967f1a67130b7105cd6a828e03909a67962e0ea1f61deb649f6bc3f4cef38c4f35504e51ec112de5c384df7ba0b8d578a4c702b6bf11d5fac".

Section Networks.
Context {H : Hex} {D : Digests}.

(** The four constructors differ in time, target and nonce. *)
Definition genesis_of (time bits nonce : Z) : option Genesis :=
  script ← hex_decode GENESIS_SCRIPT_HEX;
  reward ← res_ok (Amount_from_sat 5000000000);
  Some (mkGenesis 1 time bits nonce GENESIS_MESSAGE script reward).
Definition Genesis_mainnet := genesis_of 1231006505 0x1d00ffff 2083236893.
Definition Genesis_testnet3 := genesis_of 1296688602 0x1d00ffff 414098458.
Definition Genesis_signet := genesis_of 1598918400 0x1e0377ae 52613770.
Definition Genesis_regtest := genesis_of 1296688602 0x207fffff 2.

Definition from_magic (m : Magic) : option Genesis :=
  if decide (m = MAINNET) then Genesis_mainnet
  else if decide (m = TESTNET3) then Genesis_testnet3
  else if decide (m = SIGNET) then Genesis_signet
  else if decide (m = REGTEST) then Genesis_regtest
  else Genesis_signet.

(** [Genesis::build] *)
Definition genesis_script_sig (g : Genesis) : ScriptBuf :=
  [0x04] ++ le_bytes 4 486604799 ++ [0x01; 0x04] ++
  [wrap_u 8 (Z.of_nat (String.length (message g)))] ++ string_bytes (message g).
Definition genesis_coinbase (g : Genesis) : Transaction :=
  mkTransaction 1
    [mkTxIn (mkOutPoint ZERO_HASH 0xffffffff) (genesis_script_sig g) 0xffffffff []]
    [mkTxOut (reward g) (output_script g)] 0.
Definition build (g : Genesis) : Block :=
  let header root := mkBlockHeader (g_version g) ZERO_HASH root (timestamp g) (g_bits g) (g_nonce g) in
  let block := mkBlock (header ZERO_HASH) [genesis_coinbase g] in
  mkBlock (header (compute_merkle_root block)) [genesis_coinbase g].

(** [Hash256::from_str] (hash.rs): decode 32 bytes, then reverse them. *)
Definition Hash256_from_str (s : string) : option Hash256 := reverse <$> hex_decode_to_slice s 32.
(** [from_hex_be]: panics ([None]) on an error *)
Definition from_hex_be := Hash256_from_str.

Definition from_signet_challenge (challenge : bytes) : Magic :=
  mkMagic (take 4 (hash256 (serialize encode_VarBytes challenge))).

Definition test_prefixes : list (Base58Type * bytes) :=
  [(PubKeyAddress, [111]); (ScriptAddress, [196]); (SecretKey, [239]);
   (ExtPublicKey, [0x04; 0x35; 0x87; 0xCF]); (ExtSecretKey, [0x04; 0x35; 0x83; 0x94])].

Definition mainnet_params : option ChainParams :=
  genesis ← build <$> Genesis_mainnet;
  limit ← from_hex_be "00000000ffffffffffffffffffffffffffffffffffffffffffffffffffffffff";
  work ← from_hex_be "000000000000000000000000000000000000000017dde1c649f3708d14b6";
  assume_valid ← from_hex_be "000000000000000000035c3f0d31e71a5cb24c9ad35140bbdaed4af95ba3d52e";
  Some (mkChainParams MAINNET (header genesis)
    (mkConsensusParams 227931 388381 363725 481824 limit 600 (14 * 24 * 60 * 60) false false
       210000 work assume_valid false [])
    8333 "bc"
    [(PubKeyAddress, [0]); (ScriptAddress, [5]); (SecretKey, [128]);
     (ExtPublicKey, [0x04; 0x88; 0xB2; 0x1E]); (ExtSecretKey, [0x04; 0x88; 0xAD; 0xE4])]
    ["seed.bitcoin.sipa.be"; "dnsseed.bluematt.me"; "dnsseed.bitcoin.dashjr-list.of.hetzner.de";
     "seed.bitcoinstats.com"; "seed.bitcoin.jonasschnelli.ch"; "seed.btc.petertodd.net"]).

Definition testnet3_params : option ChainParams :=
  genesis ← build <$> Genesis_testnet3;
  limit ← from_hex_be "00000000ffffffffffffffffffffffffffffffffffffffffffffffffffffffff";
  work ← from_hex_be "0000000000000000000000000000000000000000000017dde1c649f3708d14b6";
  assume_valid ← from_hex_be "000000007a61e4230b28ac5cb6b5e5a0130de37ac1faf2f8987d2fa6505b67f4";
  Some (mkChainParams TESTNET3 (header genesis)
    (mkConsensusParams 21111 581885 330776 834624 limit 600 (14 * 24 * 60 * 60) false true
       210000 work assume_valid false [])
    18333 "tb" test_prefixes
    ["testnet-seed.bitcoin.jonasschnelli.ch"; "seed.tbtc.petertodd.net";
     "seed.testnet.bitcoin.sprovoost.nl"; "testnet-seed.bluematt.me"; "seed.testnet.achownodes.xyz"]).

Definition SIGNET_CHALLENGE_HEX : string :=
  "512103ad5e0edad18cb1f0fc0d28a3d4f1f3e445640337489abb10404f2d1e086be430210359ef5021964fe22d6f8e05b2463c9540ce96883fe3b278760f048f5189f2e6c452ae".

Definition signet_params : option ChainParams :=
  genesis ← build <$> Genesis_signet;
  challenge ← hex_decode SIGNET_CHALLENGE_HEX;
  limit ← from_hex_be "00000377ae000000000000000000000000000000000000000000000000000000";
  work ← from_hex_be "00000000000000000000000000000000000000000000000000000b463ea0a4b8";
  assume_valid ← from_hex_be "00000008414aab61092ef93f1aacc54cf9e9f16af29ddad493b908a01ff5c329";
  Some (mkChainParams SIGNET (header genesis)
    (mkConsensusParams 1 1 1 1 limit 600 (14 * 24 * 60 * 60) false false
       210000 work assume_valid true challenge)
    38333 "tb" test_prefixes ["seed.signet.bitcoin.sprovoost.nl"]).

Definition regtest_params : option ChainParams :=
  genesis ← build <$> Genesis_regtest;
  limit ← from_hex_be "7fffffffffffffffffffffffffffffffffffffffffffffffffffffffffffffff";
  work ← from_hex_be "0000000000000000000000000000000000000000000000000000000000000000";
  assume_valid ← from_hex_be "06226e46111a0b59caaf126043eb5b79c60f48e789a30595d9715734b6dee15c";
  Some (mkChainParams REGTEST (header genesis)
    (mkConsensusParams 100 1351 1251 0 limit 600 (14 * 24 * 60 * 60) true true
       150 work assume_valid false [])
    18444 "bcrt" test_prefixes []).

(** ** Chain types (networks/mod.rs) *)

Inductive ChainType : Type := Mainnet | Testnet3 | Signet | Regtest.

Definition chain_params (c : ChainType) : option ChainParams :=
  match c with
  | Mainnet => mainnet_params
  | Testnet3 => testnet3_params
  | Signet => signet_params
  | Regtest => regtest_params
  end.

Definition datadir_suffix (c : ChainType) : option string :=
  match c with
  | Mainnet => None
  | Testnet3 => Some "testnet3"
  | Signet => Some "signet"
  | Regtest => Some "regtest"
  end.

(** [ChainParams::genesis_hash] *)
Definition genesis_hash (p : ChainParams) : BlockHash := block_hash (genesis_header p).
End Networks.

(** ** Properties *)

Section Properties.
Context {H : Hex} {HO : HexOk H} {D : Digests}.

Lemma from_hex_be_ok s : String.length s = 64%nat -> from_hex_be s = reverse <$> hex_pairs s.
Proof. intros E. unfold from_hex_be, Hash256_from_str. by rewrite hex_slice_ok by lia. Qed.

Lemma genesis_of_ok t b n : exists script, genesis_of t b n = Some (mkGenesis 1 t b n GENESIS_MESSAGE script 5000000000)
  /\ length script = 67%nat /\ bytes_ok script.
Proof.
  unfold genesis_of. rewrite hex_decode_ok.
  set (o := hex_pairs GENESIS_SCRIPT_HEX). vm_compute in o.
  eexists. split; [reflexivity|]. split; [reflexivity|].
  apply (bool_decide_unpack _). vm_compute. exact I.
Qed.

(** The parameters of the main network cannot be built: the minimum chain
    work literal has 60 hexadecimal digits instead of 64, so [from_hex_be]
    always panics. *)
Lemma mainnet_params_panic : chain_params Mainnet = None.
Proof.
  unfold chain_params, mainnet_params. destruct (genesis_of_ok 1231006505 0x1d00ffff 2083236893) as (sc & E & _).
  unfold Genesis_mainnet. rewrite E. simpl fmap.
  rewrite (from_hex_be_ok "00000000ffffffffffffffffffffffffffffffffffffffffffffffffffffffff") by done.
  unfold from_hex_be, Hash256_from_str. rewrite (hex_slice_length "000000000000000000000000000000000000000017dde1c649f3708d14b6") by done.
  by destruct (hex_pairs _).
Qed.

(** What retargeting and the proof-of-work check rely on. *)
Definition params_sane (p : ChainParams) : Prop :=
  let c := consensus p in
  hash_ok (pow_limit c) /\ hash_ok (n_minimum_chain_work c) /\ hash_ok (default_assume_valid c) /\
  pow_target_timespan c / pow_target_spacing c = 2016 /\
  of_le (bits_to_target (bits (genesis_header p))) <= of_le (pow_limit c) /\
  0 < of_le (bits_to_target (bits (genesis_header p))) /\
  prev_hash (genesis_header p) = ZERO_HASH /\
  array_ok 4 (magic_bytes (magic p)).

Lemma hash_ok_dec h : bool_decide (length h = 32%nat) && forallb (fun b => (0 <=? b) && (b <? 256)) h = true -> hash_ok h.
Proof.
  rewrite andb_true_iff, bool_decide_eq_true, forallb_forall. intros [L F]. split; [done|].
  apply Forall_forall. intros x Hx%list_elem_of_In. specialize (F x Hx). int_unfold. lia.
Qed.

Ltac solve_params :=
  rewrite ?hex_decode_ok, !from_hex_be_ok by done;
  repeat match goal with |- context [hex_pairs ?s] =>
    let o := eval vm_compute in (hex_pairs s) in change (hex_pairs s) with o end;
  eexists; split; [reflexivity|]; unfold params_sane; cbn -[bits_to_target of_le];
  split_and!; first [by apply hash_ok_dec | by vm_compute | split; [done|by apply (bool_decide_unpack _); vm_compute]].

(** Every other network's parameters can be built, and they are the ones
    the consensus code relies on: 32-byte limits, a retarget interval of 2016
    blocks, and a genesis target that is positive and within the limit. *)
Lemma chain_params_sane (c : ChainType) : c <> Mainnet ->
  exists p, chain_params c = Some p /\ params_sane p.
Proof.
  intros Hc. destruct c; [done|..]; unfold chain_params.
  - unfold testnet3_params. destruct (genesis_of_ok 1296688602 0x1d00ffff 414098458) as (sc & E & _).
    unfold Genesis_testnet3. rewrite E. simpl fmap. solve_params.
  - unfold signet_params. destruct (genesis_of_ok 1598918400 0x1e0377ae 52613770) as (sc & E & _).
    unfold Genesis_signet. rewrite E. simpl fmap. solve_params.
  - unfold regtest_params. destruct (genesis_of_ok 1296688602 0x207fffff 2) as (sc & E & _).
    unfold Genesis_regtest. rewrite E. simpl fmap. solve_params.
Qed.
End Properties.

Lemma mainnet_params_panic_witness : @chain_params hex_reference toy_digests Mainnet = None.
Proof. exact (@mainnet_params_panic hex_reference hex_reference_ok toy_digests). Defined.

Lemma chain_params_sane_witness :
  exists p, @chain_params hex_reference toy_digests Signet = Some p /\ params_sane p.
Proof. apply (@chain_params_sane hex_reference hex_reference_ok toy_digests Signet). discriminate. Defined.
