(* ===== verification/Pow.v ===== *)
(** * Proof of work and difficulty (crates/consensus/pow.rs)

    The code works on 32-byte little-endian arrays and 32-bit limbs; every
    loop is modelled byte by byte or limb by limb, and the theorems relate it
    to arithmetic on the numbers the arrays denote.  Unsigned additions that
    are not checked wrap, as in the release profile. *)

From S2P Require Import Prelude Wire Hash Transaction Block Params.

(** [BlockIndexProvider::get_block_index_by_height] *)
Class BlockIndexProvider : Type := get_block_index_by_height : Z -> option BlockIndex.

(** ** 256-bit arithmetic *)

(** [for i in 0..32 { sum = a[i] + b[i] + carry; ... }] *)
Fixpoint add_loop (a b : bytes) (carry : Z) : bytes :=
  match a, b with
  | x :: a, y :: b =>
    let sum := x + y + carry in
    Z.land sum 0xFF :: add_loop a b (Z.shiftr sum 8)
  | _, _ => []
  end.

Definition add_chain_work (a b : Hash256) : Hash256 := add_loop a b 0.

(** [for i in 0..32 { sum = l[i] + carry; ... }] *)
Fixpoint carry_loop (l : bytes) (carry : Z) : bytes :=
  match l with
  | x :: l =>
    let sum := x + carry in
    Z.land sum 0xFF :: carry_loop l (Z.shiftr sum 8)
  | [] => []
  end.

(** [!target_bytes[i]] *)
Definition not_bytes (l : bytes) : bytes := map (fun b => 255 - b) l.

(** the inner loop [remainder[j] = (remainder[j] << 1) | c] *)
Fixpoint shl_loop (l : bytes) (c : Z) : bytes :=
  match l with
  | x :: l =>
    let next_c := Z.shiftr x 7 in
    Z.lor (wrap_u 8 (Z.shiftl x 1)) c :: shl_loop l next_c
  | [] => []
  end.

(** the comparison loop, most significant byte first *)
Fixpoint ge_from (i : nat) (a b : bytes) : bool :=
  match i with
  | O => true
  | S i => if idx a i <? idx b i then false
           else if idx b i <? idx a i then true
           else ge_from i a b
  end.

(** the subtraction loop *)
Fixpoint sub_loop (a b : bytes) (borrow : Z) : bytes :=
  match a, b with
  | x :: a, y :: b =>
    let diff := x - y - borrow in
    if diff <? 0 then diff + 256 :: sub_loop a b 1 else diff :: sub_loop a b 0
  | _, _ => []
  end.

(** [v[i] |= bit] *)
Definition or_at (l : bytes) (i : nat) (bit : Z) : bytes := <[i := Z.lor (idx l i) bit]> l.

(** One iteration of [for i in (0..256).rev()], on (quotient, remainder). *)
Definition div_step (numerator denominator : bytes) (i : nat) (s : bytes * bytes) : bytes * bytes :=
  let '(quotient, remainder) := s in
  let remainder := shl_loop remainder 0 in
  let bit := Z.land (Z.shiftr (idx numerator (i / 8)) (Z.of_nat (i mod 8))) 1 in
  let remainder := or_at remainder 0 bit in
  if ge_from 32 remainder denominator
  then (or_at quotient (i / 8) (Z.shiftl 1 (Z.of_nat (i mod 8))), sub_loop remainder denominator 0)
  else (quotient, remainder).

Fixpoint div_loop (numerator denominator : bytes) (i : nat) (s : bytes * bytes) : bytes * bytes :=
  match i with
  | O => s
  | S i => div_loop numerator denominator i (div_step numerator denominator i s)
  end.

Definition calculate_block_work (bits : Z) : Hash256 :=
  let target := bits_to_target bits in
  if is_zero target then ZERO_HASH else
  let numerator := not_bytes target in
  let denominator := carry_loop target 1 in
  let '(quotient, _) := div_loop numerator denominator 256 (replicate 32 0, replicate 32 0) in
  carry_loop quotient 1.

(** ** Retargeting arithmetic on sixteen 32-bit limbs *)

(** [for i in 0..16 { val = expanded[i] * mul + carry; ... }] *)
Fixpoint mul_loop (l : list Z) (mul carry : Z) : list Z :=
  match l with
  | x :: l =>
    let val := x * mul + carry in
    Z.land val 0xFFFFFFFF :: mul_loop l mul (Z.shiftr val 32)
  | [] => []
  end.

(** [for i in (0..16).rev() { val = expanded[i] + (remainder << 32); ... }]:
    the result for the limbs [l] and the remainder handed down to lower limbs. *)
Fixpoint div_limbs (l : list Z) (div : Z) : list Z * Z :=
  match l with
  | x :: l =>
    let '(q, remainder) := div_limbs l div in
    let val := x + Z.shiftl remainder 32 in
    (wrap_u 32 (val / div) :: q, val mod div)
  | [] => ([], 0)
  end.

(** [u32::from_le_bytes(target_bytes[i*4..(i+1)*4])] for [i] in [0..n] *)
Definition limbs_of (n : nat) (t : bytes) : list Z :=
  map (fun i => of_le (slice t (i * 4) (S i * 4)))%nat (seq 0 n).

Definition multiply_and_divide (target : Hash256) (mul div : Z) : Hash256 :=
  let expanded := limbs_of 8 target ++ replicate 8 0 in
  let expanded := mul_loop expanded mul 0 in
  let '(expanded, _) := div_limbs expanded div in
  if existsb (fun x => negb (x =? 0)) (drop 8 expanded)
  then replicate 32 0xFF
  else concat (map (le_bytes 4) (take 8 expanded)).

Definition calculate_next_work_required (index_prev : BlockIndex) (first_block_time : Z)
    (params : ConsensusParams) : Z :=
  if pow_no_retargeting params then bits (bi_header index_prev) else
  let actual_timespan := saturating_sub_u (time (bi_header index_prev)) first_block_time in
  let min_timespan := wrap_s 64 (pow_target_timespan params / 4) in
  let max_timespan := wrap_s 64 (wrap_u 64 (pow_target_timespan params * 4)) in
  let actual_timespan := if actual_timespan <? min_timespan then min_timespan else actual_timespan in
  let actual_timespan := if max_timespan <? actual_timespan then max_timespan else actual_timespan in
  let target := bits_to_target (bits (bi_header index_prev)) in
  let target := multiply_and_divide target (wrap_u 64 actual_timespan) (pow_target_timespan params) in
  let target := if Hash256_gt target (pow_limit params) then pow_limit params else target in
  target_to_bits target.

Definition get_next_work_required {P : BlockIndexProvider} (index_prev : BlockIndex)
    (header : BlockHeader) (params : ConsensusParams) : Z :=
  if pow_no_retargeting params then bits (bi_header index_prev) else
  if f_pow_allow_min_difficulty_blocks params then
    if wrap_u 32 (time (bi_header index_prev) + wrap_u 32 (wrap_u 32 (pow_target_spacing params) * 2)) <? time header
    then target_to_bits (pow_limit params)
    else bits (bi_header index_prev)
  else
  let next_height := wrap_u 32 (bi_height index_prev + 1) in
  let difficulty_adjustment_interval := pow_target_timespan params / pow_target_spacing params in
  if negb (next_height mod wrap_u 32 difficulty_adjustment_interval =? 0) then bits (bi_header index_prev) else
  let first_height := saturating_sub_u (bi_height index_prev)
    (wrap_u 32 (wrap_u 32 difficulty_adjustment_interval - 1)) in
  match get_block_index_by_height first_height with
  | None => bits (bi_header index_prev)
  | Some index_first => calculate_next_work_required index_prev (time (bi_header index_first)) params
  end.

Example work_of_min_difficulty : calculate_block_work 0x1d00ffff = le_bytes 32 0x100010001.
Proof. vm_compute. reflexivity. Qed.
Example retarget_quarter : multiply_and_divide (le_bytes 32 1000) 302400 1209600 = le_bytes 32 250.
Proof. vm_compute. reflexivity. Qed.

(** ** Byte loops as arithmetic *)

Lemma carry_step s r p : 0 < p -> s mod 256 + 256 * ((r + s / 256) mod p) = (s + 256 * r) mod (256 * p).
Proof.
  intros Hp. rewrite Z.rem_mul_r by lia. rewrite (Z.mul_comm 256 r), Z.mod_add, Z.div_add by lia.
  by rewrite (Z.add_comm r).
Qed.

Lemma pow256_pos n : 0 < 2 ^ (8 * Z.of_nat n).
Proof. apply Z.pow_pos_nonneg; lia. Qed.
#[local] Hint Resolve pow256_pos : core.

Lemma mod256_ok z : u8_ok (z mod 256).
Proof. int_unfold. apply Z.mod_pos_bound. lia. Qed.

Lemma add_loop_value a b c : length a = length b ->
  of_le (add_loop a b c) = (of_le a + of_le b + c) mod 2 ^ (8 * Z.of_nat (length a)).
Proof.
  revert b c; induction a as [|x a IH]; intros [|y b] c Hl; try done; [by rewrite Z.mod_1_r|].
  cbn [add_loop of_le length]. rewrite land_ff, Z.shiftr_div_pow2, IH, pow256_S by (simpl in *; lia).
  change (2 ^ 8) with 256. rewrite carry_step by done. f_equal. ring.
Qed.

Lemma add_loop_array n a b c : array_ok n a -> array_ok n b -> array_ok n (add_loop a b c).
Proof.
  intros [<- _] [Hl _]. clear -Hl. revert b c Hl; induction a as [|x a IH]; intros [|y b] c Hl; try done.
  { split; [done|constructor]. }
  destruct (IH b (Z.shiftr (x + y + c) 8)) as [L O]; [simpl in *; lia|].
  split; [simpl; lia|]. constructor; [rewrite land_ff; apply mod256_ok | done].
Qed.

Lemma carry_loop_value l c :
  of_le (carry_loop l c) = (of_le l + c) mod 2 ^ (8 * Z.of_nat (length l)).
Proof.
  revert c; induction l as [|x l IH]; intros c; [by rewrite Z.mod_1_r|].
  cbn [carry_loop of_le length]. rewrite land_ff, Z.shiftr_div_pow2, IH, pow256_S by lia.
  change (2 ^ 8) with 256. rewrite carry_step by done. f_equal. ring.
Qed.

Lemma carry_loop_array n l c : array_ok n l -> array_ok n (carry_loop l c).
Proof.
  intros [<- _]. revert c; induction l as [|x l IH]; intros c; [split; [done|constructor]|].
  destruct (IH (Z.shiftr (x + c) 8)) as [L O].
  split; [simpl; lia|]. constructor; [rewrite land_ff; apply mod256_ok | done].
Qed.

Lemma not_bytes_value l : of_le (not_bytes l) = 2 ^ (8 * Z.of_nat (length l)) - 1 - of_le l.
Proof.
  induction l as [|x l IH]; [done|]. unfold not_bytes in *. cbn [map of_le length].
  rewrite IH, pow256_S. lia.
Qed.

Lemma not_bytes_array n l : array_ok n l -> array_ok n (not_bytes l).
Proof.
  intros [<- Hb]. split; [apply length_map|]. apply Forall_forall. intros x.
  rewrite list_elem_of_In. intros (y & <- & Hy)%in_map_iff. unfold bytes_ok in Hb. rewrite Forall_forall in Hb.
  specialize (Hb y). rewrite list_elem_of_In in Hb. specialize (Hb Hy). int_unfold. lia.
Qed.

Lemma shl_byte x c : u8_ok x -> 0 <= c <= 1 ->
  Z.lor (wrap_u 8 (Z.shiftl x 1)) c = (2 * x + c) mod 256 /\ Z.shiftr x 7 = (2 * x + c) / 256.
Proof.
  intros Hx Hc. int_unfold. rewrite Z.shiftr_div_pow2, Z.shiftl_mul_pow2 by lia.
  change (2 ^ 1) with 2. change (2 ^ 7) with 128.
  assert (2 * x + c = (2 * (x mod 128) + c) + (x / 128) * 256) as E by (pose proof (Z.div_mod x 128); lia).
  pose proof (Z.mod_pos_bound x 128). rewrite E. split.
  - rewrite Z.mod_add, (Z.mod_small (2 * (x mod 128) + c)) by lia. unfold wrap_u.
    replace (x * 2) with (2 * (x mod 128) + (x / 128) * 2 ^ 8) by (pose proof (Z.div_mod x 128); lia).
    rewrite Z.mod_add, Z.mod_small by lia.
    replace (2 * (x mod 128)) with (Z.shiftl (x mod 128) 1) at 1 by (rewrite Z.shiftl_mul_pow2; lia).
    rewrite lor_shiftl_add; lia.
  - rewrite Z.div_add, (Z.div_small (2 * (x mod 128) + c)); lia.
Qed.

Lemma shl_loop_value l c : bytes_ok l -> 0 <= c <= 1 ->
  of_le (shl_loop l c) = (2 * of_le l + c) mod 2 ^ (8 * Z.of_nat (length l)).
Proof.
  intros Hl. revert c; induction Hl as [|x l Hx Hl IH]; intros c Hc; [by rewrite Z.mod_1_r|].
  cbn [shl_loop of_le length]. destruct (shl_byte x c Hx Hc) as [-> E].
  assert (0 <= Z.shiftr x 7 <= 1).
  { rewrite E. int_unfold. split; [apply Z.div_pos; lia|]. enough ((2 * x + c) / 256 < 2) by lia.
    apply Z.div_lt_upper_bound; lia. }
  rewrite IH, E, pow256_S, carry_step by done. f_equal. ring.
Qed.

Lemma shl_loop_array n l c : array_ok n l -> 0 <= c <= 1 -> array_ok n (shl_loop l c).
Proof.
  intros [<- Hl]. revert c; induction Hl as [|x l Hx Hl IH]; intros c Hc; [split; [done|constructor]|].
  cbn [shl_loop]. destruct (shl_byte x c Hx Hc) as [-> _].
  destruct (IH (Z.shiftr x 7)) as [L O].
  { destruct (shl_byte x c Hx Hc) as [_ ->]. int_unfold. split; [apply Z.div_pos; lia|].
    enough ((2 * x + c) / 256 < 2) by lia. apply Z.div_lt_upper_bound; lia. }
  split; [simpl; lia|]. constructor; [apply mod256_ok|done].
Qed.

Lemma sub_loop_value a b w : length a = length b -> bytes_ok a -> bytes_ok b -> 0 <= w <= 1 ->
  of_le (sub_loop a b w) = (of_le a - of_le b - w) mod 2 ^ (8 * Z.of_nat (length a)).
Proof.
  intros Hl Ha. revert b w Hl; induction Ha as [|x a Hx Ha IH]; intros [|y b] w Hl Hb Hw; try done.
  { simpl. by rewrite Z.mod_1_r. }
  inversion Hb as [|? ? Hy Hb']; subst. cbn [sub_loop of_le length]. int_unfold.
  assert (length a = length b) as Hl' by (simpl in Hl; lia).
  replace (x + 256 * of_le a - (y + 256 * of_le b) - w) with ((x - y - w) + 256 * (of_le a - of_le b)) by ring.
  rewrite pow256_S, <- carry_step by done.
  destruct (Z.ltb_spec (x - y - w) 0); cbn [of_le]; rewrite IH by (done || lia).
  - rewrite <- (Z.mod_unique (x - y - w) 256 (-1) (x - y - w + 256)), <- (Z.div_unique (x - y - w) 256 (-1) (x - y - w + 256)) by lia.
    do 3 f_equal; lia.
  - rewrite (Z.mod_small (x - y - w)), (Z.div_small (x - y - w)) by lia. do 3 f_equal; lia.
Qed.

Lemma sub_loop_array n a b w : array_ok n a -> array_ok n b -> 0 <= w <= 1 -> array_ok n (sub_loop a b w).
Proof.
  intros [<- Ha] [Hl Hb] Hw. symmetry in Hl. revert b w Hl Hb Hw; induction Ha as [|x a Hx Ha IH]; intros [|y b] w Hl Hb Hw; try done.
  inversion Hb as [|? ? Hy Hb']; subst. cbn [sub_loop].
  destruct (Z.ltb_spec (x - y - w) 0).
  - destruct (IH b 1) as [L O]; [simpl in *; lia|done|lia|]. split; [simpl; lia|]. constructor; [int_unfold; lia|done].
  - destruct (IH b 0) as [L O]; [simpl in *; lia|done|lia|]. split; [simpl; lia|]. constructor; [int_unfold; lia|done].
Qed.

Lemma ge_from_cmp i a b : ge_from i a b = match cmp_from i a b with Lt => false | _ => true end.
Proof.
  induction i as [|i IH]; [done|]. cbn [ge_from cmp_from]. unfold Z.ltb.
  rewrite (Z.compare_antisym (idx a i) (idx b i)). destruct (idx a i ?= idx b i); [apply IH|done|done].
Qed.

Lemma ge_from_spec a b : hash_ok a -> hash_ok b -> ge_from 32 a b = (of_le b <=? of_le a).
Proof.
  intros Ha Hb. rewrite ge_from_cmp. change (cmp_from 32 a b) with (Hash256_cmp a b).
  rewrite Hash256_cmp_spec by done. unfold Z.leb. rewrite (Z.compare_antisym (of_le a)).
  by destruct (of_le a ?= of_le b).
Qed.

(** ** The long division *)

Lemma idx_value l i : bytes_ok l -> (i < length l)%nat -> idx l i = (of_le l / 2 ^ (8 * Z.of_nat i)) mod 256.
Proof.
  intros Hl Hi. rewrite <- of_le_drop by (done || lia).
  destruct (lookup_lt_is_Some_2 _ _ Hi) as [x Hx].
  rewrite (drop_S _ _ _ Hx), (nth_lookup_Some _ _ 0 _ Hx). cbn [of_le].
  rewrite (Z.mul_comm 256), Z.mod_add by lia. symmetry. apply Z.mod_small.
  pose proof (idx_ok l i Hl). rewrite (nth_lookup_Some _ _ 0 _ Hx) in *. by int_unfold.
Qed.

(** Bit [i] of a little-endian number. *)
Lemma bit_value l i : bytes_ok l -> (i < 8 * length l)%nat ->
  Z.land (Z.shiftr (idx l (i / 8)) (Z.of_nat (i mod 8))) 1 = (of_le l / 2 ^ Z.of_nat i) mod 2.
Proof.
  intros Hl Hi. change 1 with (2 ^ 1 - 1) at 1. rewrite land_low by lia. change (2 ^ 1) with 2.
  assert (i / 8 < length l)%nat by (apply Nat.Div0.div_lt_upper_bound; lia).
  pose proof (Nat.mod_upper_bound i 8 ltac:(lia)) as Hr.
  rewrite idx_value by done. rewrite <- !Z.bit0_mod, Z.shiftr_spec, Z.add_0_l by lia. f_equal.
  change 256 with (2 ^ 8). rewrite Z.mod_pow2_bits_low, !Z.div_pow2_bits by lia. f_equal.
  pose proof (Nat.div_mod_eq i 8). lia.
Qed.

(** Setting bit [i] of a number whose low [i + 1] bits are clear. *)
Lemma or_at_value q i : hash_ok q -> (i < 256)%nat -> of_le q mod 2 ^ Z.of_nat (S i) = 0 ->
  let q' := or_at q (i / 8) (Z.shiftl 1 (Z.of_nat (i mod 8))) in
  hash_ok q' /\ of_le q' = of_le q + 2 ^ Z.of_nat i.
Proof.
  intros [Hl Hb] Hi Hz. set (j := (i / 8)%nat). set (r := (i mod 8)%nat).
  assert (j < 32)%nat by (apply Nat.Div0.div_lt_upper_bound; lia).
  pose proof (Nat.mod_upper_bound i 8 ltac:(lia)) as Hr. fold r in Hr.
  assert (i = 8 * j + r)%nat as Ei by apply Nat.div_mod_eq.
  assert (exists k, idx q j = Z.shiftl k (Z.of_nat (S r))) as [k Hk].
  { rewrite idx_value by (done || lia). apply Z.div_exact in Hz; [|lia]. rewrite Hz.
    exists ((of_le q / 2 ^ Z.of_nat (S i)) mod 2 ^ (8 - Z.of_nat (S r))).
    rewrite Z.shiftl_mul_pow2 by lia.
    replace (2 ^ Z.of_nat (S i)) with (2 ^ (8 * Z.of_nat j) * 2 ^ Z.of_nat (S r)) at 1
      by (rewrite <- Z.pow_add_r by lia; f_equal; lia).
    rewrite <- Z.mul_assoc, (Z.mul_comm (2 ^ (8 * Z.of_nat j))), Z.div_mul by lia.
    rewrite (Z.mul_comm (2 ^ Z.of_nat (S r))), <- Z.mul_mod_distr_r by lia.
    f_equal. rewrite <- Z.pow_add_r by lia. replace (8 - _ + _) with 8 by lia. done. }
  pose proof (idx_ok q j Hb) as Hj. int_unfold.
  assert (Z.lor (idx q j) (Z.shiftl 1 (Z.of_nat r)) = idx q j + 2 ^ Z.of_nat r) as Hor.
  { rewrite Hk, Z.shiftl_1_l, lor_shiftl_add, Z.shiftl_mul_pow2; try lia.
    split; [lia|]. apply Z.pow_lt_mono_r; lia. }
  assert (idx q j + 2 ^ Z.of_nat r < 256).
  { rewrite Hk, Z.shiftl_mul_pow2 in * by lia.
    assert (2 ^ 8 = 2 ^ (8 - Z.of_nat (S r)) * 2 ^ Z.of_nat (S r)) as E8 by (rewrite <- Z.pow_add_r by lia; f_equal; lia).
    assert (2 ^ Z.of_nat r < 2 ^ Z.of_nat (S r)) by (apply Z.pow_lt_mono_r; lia).
    change 256 with (2 ^ 8). rewrite E8 in Hj |- *. set (p := 2 ^ Z.of_nat (S r)) in *.
    set (m := 2 ^ (8 - Z.of_nat (S r))) in *. assert (k < m) by nia. nia. }
  unfold or_at. rewrite Hor. cbv zeta. split.
  - split; [by rewrite length_insert|]. apply bytes_ok_insert; [done|]. int_unfold. lia.
  - rewrite of_le_insert by lia. replace (idx q j + 2 ^ Z.of_nat r - idx q j) with (2 ^ Z.of_nat r) by lia.
    rewrite <- Z.pow_add_r by lia. do 2 f_equal. lia.
Qed.

Section Division.
Context (n d : bytes) (Hn : hash_ok n) (Hd : hash_ok d) (Hd0 : 0 < of_le d).

(** After the bits above [i] are processed: the quotient and remainder of
    the numerator's high part. *)
Definition div_inv (i : nat) (s : bytes * bytes) : Prop :=
  hash_ok s.1 /\ hash_ok s.2 /\ of_le s.1 mod 2 ^ Z.of_nat i = 0 /\ of_le s.2 < of_le d /\
  of_le n / 2 ^ Z.of_nat i = (of_le s.1 / 2 ^ Z.of_nat i) * of_le d + of_le s.2.

Lemma or_at_shl r bit : r <> [] -> or_at (shl_loop r 0) 0 bit = shl_loop r bit.
Proof. destruct r as [|x r]; [done|]. intros _. unfold or_at. simpl. by rewrite Z.lor_0_r. Qed.

Lemma hash_bound h : hash_ok h -> 0 <= of_le h < 2 ^ 256.
Proof. intros [Hl Hb]. pose proof (of_le_bound h Hb) as B. by rewrite Hl in B. Qed.

Lemma div_step_inv i s : (i < 256)%nat -> div_inv (S i) s -> div_inv i (div_step n d i s).
Proof.
  intros Hi. destruct s as [q r]. intros (Hq & Hr & Hz & Hlt & E). cbn [fst snd] in *.
  pose proof (hash_bound _ Hn) as Bn. pose proof (hash_bound _ Hr) as Br. pose proof (hash_bound _ Hq) as Bq.
  set (bit := (of_le n / 2 ^ Z.of_nat i) mod 2).
  assert (0 <= bit <= 1) as Hbit by (pose proof (Z.mod_pos_bound (of_le n / 2 ^ Z.of_nat i) 2); unfold bit; lia).
  assert (2 ^ Z.of_nat (S i) = 2 * 2 ^ Z.of_nat i) as Hp by (rewrite Nat2Z.inj_succ, Z.pow_succ_r; lia).
  assert (0 < 2 ^ Z.of_nat i) as Hpos by (apply Z.pow_pos_nonneg; lia).
  assert (of_le n / 2 ^ Z.of_nat i = 2 * (of_le n / 2 ^ Z.of_nat (S i)) + bit) as En.
  { replace (2 ^ Z.of_nat (S i)) with (2 ^ Z.of_nat i * 2) by lia.
    rewrite <- Z.div_div by lia. apply Z.div_mod. lia. }
  assert (of_le q / 2 ^ Z.of_nat i = 2 * (of_le q / 2 ^ Z.of_nat (S i))) as Eq.
  { apply Z.div_exact in Hz; [|lia]. set (k := of_le q / 2 ^ Z.of_nat (S i)) in *.
    rewrite Hz, Hp. replace (2 * 2 ^ Z.of_nat i * k) with (2 * k * 2 ^ Z.of_nat i) by ring. apply Z.div_mul. lia. }
  assert (of_le q mod 2 ^ Z.of_nat i = 0) as Hzi.
  { apply Z.div_exact in Hz; [|lia]. set (k := of_le q / 2 ^ Z.of_nat (S i)) in *.
    rewrite Hz, Hp. replace (2 * 2 ^ Z.of_nat i * k) with (2 * k * 2 ^ Z.of_nat i) by ring. apply Z.mod_mul. lia. }
  assert (of_le n / 2 ^ Z.of_nat i < 2 ^ 256) by (apply Z.div_lt_upper_bound; nia).
  assert (0 <= of_le q / 2 ^ Z.of_nat (S i)) by (apply Z.div_pos; lia).
  assert (r <> []) as Hr0 by (intros ->; by destruct Hr).
  unfold div_step. rewrite bit_value by (apply Hn || rewrite (proj1 Hn); lia). fold bit. rewrite or_at_shl by done.
  pose proof (shl_loop_array 32 r bit Hr Hbit) as Hr'.
  assert (of_le (shl_loop r bit) = 2 * of_le r + bit) as Er.
  { rewrite shl_loop_value by (done || apply Hr). rewrite (proj1 Hr). apply Z.mod_small.
    change (2 ^ (8 * Z.of_nat 32)) with (2 ^ 256). nia. }
  rewrite ge_from_spec, Er by done. destruct (Z.leb_spec (of_le d) (2 * of_le r + bit)) as [Hge|Hl].
  - destruct (or_at_value q i Hq Hi Hz) as [Hq' Eq']. unfold div_inv. cbn [fst snd].
    assert (of_le (sub_loop (shl_loop r bit) d 0) = 2 * of_le r + bit - of_le d) as Es.
    { rewrite sub_loop_value; [|by rewrite (proj1 Hr'), (proj1 Hd)|apply Hr'|apply Hd|lia].
      rewrite Er, (proj1 Hr'), Z.sub_0_r. apply Z.mod_small. change (2 ^ (8 * Z.of_nat 32)) with (2 ^ 256).
      pose proof (hash_bound _ Hr'). lia. }
    split_and!; [done|apply sub_loop_array; [done..|lia]| |lia|].
    + rewrite Eq'. replace (of_le q + 2 ^ Z.of_nat i) with (of_le q + 1 * 2 ^ Z.of_nat i) by lia. by rewrite Z.mod_add by lia.
    + rewrite Es, Eq'. replace (of_le q + 2 ^ Z.of_nat i) with (of_le q + 1 * 2 ^ Z.of_nat i) by lia.
      rewrite Z.div_add by lia. rewrite En, E, Eq. ring.
  - unfold div_inv. cbn [fst snd]. split_and!; [done..|lia|]. rewrite Er, En, E, Eq. ring.
Qed.

Lemma div_loop_inv i s : (i <= 256)%nat -> div_inv i s -> div_inv 0 (div_loop n d i s).
Proof. revert s; induction i as [|i IH]; intros s Hi Hs; [done|]. apply IH; [lia|]. apply div_step_inv; [lia|done]. Qed.

Lemma div_loop_spec : let s := div_loop n d 256 (replicate 32 0, replicate 32 0) in
  hash_ok s.1 /\ of_le s.1 = of_le n / of_le d.
Proof.
  pose proof (hash_bound _ Hn) as Bn.
  destruct (div_loop_inv 256 (replicate 32 0, replicate 32 0)) as (Hq & Hr & _ & Hlt & E); [done| |].
  - pose proof ZERO_HASH_ok as H0. unfold ZERO_HASH in H0. unfold div_inv. cbn [fst snd].
    rewrite of_le_zeros. split_and!; [done|done|done|done|].
    change (Z.of_nat 256) with 256. rewrite !Z.div_small by lia. lia.
  - split; [done|]. pose proof (hash_bound _ Hr). change (2 ^ Z.of_nat 0) with 1 in E.
    rewrite !Z.div_1_r in E. apply Z.div_unique with (of_le (div_loop n d 256 (replicate 32 0, replicate 32 0)).2); lia.
Qed.
End Division.

(** ** The limb loops as arithmetic *)

Definition of_limbs (l : list Z) : Z := foldr (fun x v => x + 2 ^ 32 * v) 0 l.

Lemma pow32_S n : 2 ^ (32 * Z.of_nat (S n)) = 2 ^ 32 * 2 ^ (32 * Z.of_nat n).
Proof. rewrite Nat2Z.inj_succ, Z.mul_succ_r, Z.pow_add_r by lia. lia. Qed.

Lemma of_limbs_app l k : of_limbs (l ++ k) = of_limbs l + 2 ^ (32 * Z.of_nat (length l)) * of_limbs k.
Proof.
  induction l as [|x l IH]; [unfold of_limbs; simpl; by destruct (foldr _ _ _)|].
  unfold of_limbs in *. cbn [app foldr length]. rewrite IH, pow32_S. ring.
Qed.

Lemma of_limbs_bound l : Forall u32_ok l -> 0 <= of_limbs l < 2 ^ (32 * Z.of_nat (length l)).
Proof.
  induction 1 as [|x l Hx _ IH]; [vm_compute; intuition discriminate|].
  unfold of_limbs in *. cbn [foldr length]. rewrite pow32_S.
  int_unfold. nia.
Qed.

Lemma mul_loop_value l m c :
  of_limbs (mul_loop l m c) = (of_limbs l * m + c) mod 2 ^ (32 * Z.of_nat (length l)) /\
  length (mul_loop l m c) = length l /\ Forall u32_ok (mul_loop l m c).
Proof.
  revert c; induction l as [|x l IH]; intros c; [cbn -[Z.modulo]; rewrite Z.mod_1_r; auto|].
  cbn [mul_loop length]. destruct (IH (Z.shiftr (x * m + c) 32)) as (E & L & F).
  change 0xFFFFFFFF with (2 ^ 32 - 1). rewrite land_low by lia. split_and!.
  - unfold of_limbs in *. cbn [foldr]. rewrite E, pow32_S, Z.shiftr_div_pow2, Z.rem_mul_r by lia.
    f_equal; [|f_equal; f_equal].
    + replace ((x + 2 ^ 32 * _) * m + c) with (x * m + c + foldr (fun x v => x + 2 ^ 32 * v) 0 l * m * 2 ^ 32) by ring.
      by rewrite Z.mod_add by lia.
    + replace ((x + 2 ^ 32 * _) * m + c) with (x * m + c + foldr (fun x v => x + 2 ^ 32 * v) 0 l * m * 2 ^ 32) by ring.
      rewrite Z.div_add by lia. ring.
  - simpl. lia.
  - constructor; [int_unfold; apply Z.mod_pos_bound; lia|done].
Qed.

Lemma div_limbs_spec l dv : 0 < dv -> Forall u32_ok l ->
  let '(q, r) := div_limbs l dv in
  of_limbs l = of_limbs q * dv + r /\ 0 <= r < dv /\ length q = length l /\ Forall u32_ok q.
Proof.
  intros Hd. induction 1 as [|x l Hx _ IH]; [cbn; auto with lia|].
  cbn [div_limbs]. destruct (div_limbs l dv) as [q r]. destruct IH as (E & Hr & L & F).
  rewrite Z.shiftl_mul_pow2 by lia. int_unfold.
  assert (0 <= (x + r * 2 ^ 32) / dv < 2 ^ 32) as Hq
    by (split; [apply Z.div_pos; lia | apply Z.div_lt_upper_bound; nia]).
  unfold wrap_u. rewrite Z.mod_small by done. unfold of_limbs in *. cbn [foldr length].
  pose proof (Z.div_mod (x + r * 2 ^ 32) dv). pose proof (Z.mod_pos_bound (x + r * 2 ^ 32) dv).
  split_and!; [rewrite E; lia|lia|lia|lia|]. constructor; [int_unfold; lia|done].
Qed.

Lemma limbs_of_S n t : limbs_of (S n) t = limbs_of n t ++ [of_le (slice t (n * 4) (S n * 4))].
Proof. unfold limbs_of. by rewrite seq_S, map_app. Qed.

Lemma limbs_of_value n t : bytes_ok t -> (4 * n <= length t)%nat ->
  of_limbs (limbs_of n t) = of_le (take (4 * n) t) /\ length (limbs_of n t) = n /\ Forall u32_ok (limbs_of n t).
Proof.
  intros Ht. induction n as [|n IH]; intros Hn; [done|]. destruct IH as (E & L & F); [lia|].
  rewrite limbs_of_S. split_and!.
  - rewrite of_limbs_app, E, L.
    assert (take (4 * S n) t = take (4 * n) t ++ slice t (n * 4) (S n * 4)) as ->.
    { unfold slice. rewrite (Nat.mul_comm n 4), take_take_drop. f_equal. lia. }
    rewrite of_le_app, length_take, Nat.min_l by lia. unfold of_limbs. cbn [foldr]. rewrite Z.mul_0_r, Z.add_0_r.
    do 3 f_equal. lia.
  - rewrite length_app, L. simpl. lia.
  - apply Forall_app. split; [done|]. constructor; [|constructor].
    assert (bytes_ok (slice t (n * 4) (S n * 4))) as Hs by auto with wire.
    pose proof (of_le_bound _ Hs) as B. rewrite length_slice in B by lia.
    replace (S n * 4 - n * 4)%nat with 4%nat in B by lia. done.
Qed.

Lemma limbs_bytes_value l : Forall u32_ok l ->
  of_le (concat (map (le_bytes 4) l)) = of_limbs l /\ array_ok (4 * length l) (concat (map (le_bytes 4) l)).
Proof.
  induction 1 as [|x l Hx _ [IH [L O]]]; [split; [done|]; split; [done|constructor]|].
  unfold of_limbs in *. cbn [map concat foldr length]. split.
  - by rewrite of_le_app, IH, length_le_bytes, le_bytes_small.
  - split; [rewrite length_app, length_le_bytes; lia|]. apply bytes_ok_app. auto with wire.
Qed.

Lemma of_limbs_zero l : Forall u32_ok l -> existsb (fun x => negb (x =? 0)) l = false <-> of_limbs l = 0.
Proof.
  induction 1 as [|x l Hx Hl IH]; [done|]. unfold of_limbs in *. cbn [existsb foldr].
  pose proof (of_limbs_bound l Hl). unfold of_limbs in *. rewrite orb_false_iff, negb_false_iff, Z.eqb_eq, IH.
  int_unfold. lia.
Qed.

Lemma multiply_and_divide_value t m dv : hash_ok t -> u64_ok m -> 0 < dv ->
  hash_ok (multiply_and_divide t m dv) /\
  of_le (multiply_and_divide t m dv) = Z.min (2 ^ 256 - 1) (of_le t * m / dv).
Proof.
  intros Ht Hm Hd. unfold multiply_and_divide.
  destruct (limbs_of_value 8 t) as (E1 & L1 & F1); [apply Ht|rewrite (proj1 Ht); lia|].
  rewrite take_ge in E1 by (rewrite (proj1 Ht); lia).
  destruct (mul_loop_value (limbs_of 8 t ++ replicate 8 0) m 0) as (E2 & L2 & F2).
  assert (length (limbs_of 8 t ++ replicate 8 0) = 16%nat) as L by (rewrite length_app, L1; done).
  rewrite L in *. pose proof (hash_bound t Ht) as Bt.
  rewrite of_limbs_app, E1 in E2. change (of_limbs (replicate 8 0)) with 0 in E2.
  change (2 ^ (32 * Z.of_nat 16)) with (2 ^ 512) in E2.
  rewrite Z.mul_0_r, !Z.add_0_r, Z.mod_small in E2 by (int_unfold; nia).
  pose proof (div_limbs_spec _ dv Hd F2) as Hdiv.
  destruct (div_limbs _ dv) as [q r]. destruct Hdiv as (E3 & Hr & L3 & F3).
  assert (of_limbs q = of_le t * m / dv) as Eq by (apply Z.div_unique with r; lia).
  assert (Forall u32_ok (drop 8 q)) as Fd by (by apply Forall_drop).
  assert (Forall u32_ok (take 8 q)) as Ft by (by apply Forall_take).
  assert (length (take 8 q) = 8%nat) as Lt by (rewrite length_take; lia).
  rewrite <- (take_drop 8 q), of_limbs_app, Lt in Eq. change (2 ^ (32 * Z.of_nat 8)) with (2 ^ 256) in Eq.
  pose proof (of_limbs_bound _ Ft) as Bl. rewrite Lt in Bl. change (2 ^ (32 * Z.of_nat 8)) with (2 ^ 256) in Bl.
  pose proof (of_limbs_bound _ Fd) as Bh. pose proof (of_limbs_zero _ Fd) as Hz.
  destruct (existsb _ (drop 8 q)).
  - assert (of_limbs (drop 8 q) <> 0) by (intros H0; by apply Hz in H0). split.
    + split; [done|]. apply Forall_replicate. int_unfold. lia.
    + change (of_le (replicate 32 0xFF)) with (2 ^ 256 - 1). lia.
  - assert (of_limbs (drop 8 q) = 0) as H0 by (by apply Hz). rewrite H0 in *.
    destruct (limbs_bytes_value _ Ft) as [E4 O4]. rewrite Lt in O4. split; [done|]. rewrite E4. lia.
Qed.

Lemma bits_to_target_lt b : u32_ok b -> of_le (bits_to_target b) < 2 ^ 256 - 1.
Proof.
  intros Hb. rewrite bits_to_target_value by done. destruct (_ =? 0); [lia|].
  set (k := Z.max 0 (exponent_of b - 3)). set (m := mantissa_of b).
  assert (0 <= m < 2 ^ 24) by (apply Z.mod_pos_bound; lia).
  destruct (decide (k = 0)) as [->|Hk]; [rewrite Z.mul_1_r, Z.mod_small; lia|].
  set (v := (m * 2 ^ (8 * k)) mod 2 ^ 256). assert (0 <= v < 2 ^ 256) by (apply Z.mod_pos_bound; lia).
  enough (v mod 256 = 0) as E.
  { destruct (decide (v = 2 ^ 256 - 1)) as [Ev|]; [|lia]. by rewrite Ev in E. }
  unfold v. change (2 ^ 256) with (256 * 2 ^ 248). rewrite Z.rem_mul_r by lia.
  rewrite Z.add_mod, Z.mod_mod, (Z.mul_comm 256), Z.mod_mul, Z.add_0_r, Z.mod_mod by lia.
  replace (8 * k) with (8 + 8 * (k - 1)) by lia. rewrite Z.pow_add_r by lia.
  change (2 ^ 8) with 256. rewrite Z.mul_assoc, (Z.mul_comm m), <- Z.mul_assoc, (Z.mul_comm 256). apply Z.mod_mul. lia.
Qed.

Lemma calculate_block_work_value b : u32_ok b ->
  hash_ok (calculate_block_work b) /\
  of_le (calculate_block_work b) =
    (if of_le (bits_to_target b) =? 0 then 0 else 2 ^ 256 / (of_le (bits_to_target b) + 1)).
Proof.
  intros Hb. unfold calculate_block_work. set (t := bits_to_target b).
  pose proof (bits_to_target_ok b) as Ht. fold t in Ht. pose proof (hash_bound t Ht) as Bt.
  pose proof (bits_to_target_lt b Hb) as Hlt. fold t in Hlt.
  destruct (is_zero t) eqn:Ez.
  { apply is_zero_of_le in Ez; [|apply Ht]. rewrite Ez. split; [apply ZERO_HASH_ok|apply of_le_zeros]. }
  assert (of_le t <> 0) as Hne by (intros E; apply is_zero_of_le in E; [congruence|apply Ht]).
  destruct (Z.eqb_spec (of_le t) 0); [done|].
  pose proof (not_bytes_array 32 t Ht) as Hn. pose proof (carry_loop_array 32 t 1 Ht) as Hd.
  pose proof (not_bytes_value t) as En. pose proof (carry_loop_value t 1) as Ed. rewrite (proj1 Ht) in En, Ed.
  change (2 ^ (8 * Z.of_nat 32)) with (2 ^ 256) in En, Ed. rewrite Z.mod_small in Ed by lia.
  destruct (div_loop_spec (not_bytes t) (carry_loop t 1) Hn Hd) as [Hq Eq]; [lia|].
  destruct (div_loop _ _ _ _) as [q r]. cbn [fst] in *.
  split; [by apply carry_loop_array|]. rewrite carry_loop_value, (proj1 Hq), Eq, En, Ed.
  change (2 ^ (8 * Z.of_nat 32)) with (2 ^ 256).
  replace (2 ^ 256 - 1 - of_le t) with (2 ^ 256 + (-1) * (of_le t + 1)) by lia. rewrite Z.div_add by lia.
  assert (2 ^ 256 / (of_le t + 1) < 2 ^ 256) by (apply Z.div_lt; lia).
  assert (1 <= 2 ^ 256 / (of_le t + 1)) by (apply Z.div_le_lower_bound; lia).
  rewrite Z.mod_small; lia.
Qed.

(** The work of a header is [2^256 / (target + 1)] rounded down, computed
    exactly by the byte-wise long division, and zero for a zero target. *)
Lemma calculate_block_work_spec (b : Z) : u32_ok b ->
  of_le (calculate_block_work b) =
    (if of_le (bits_to_target b) =? 0 then 0 else 2 ^ 256 / (of_le (bits_to_target b) + 1)).
Proof. intros Hb. by apply calculate_block_work_value. Qed.

Lemma calculate_block_work_witness : of_le (calculate_block_work 0x1d00ffff) = 0x100010001.
Proof.
  rewrite (calculate_block_work_spec 0x1d00ffff); [vm_compute; reflexivity|]. split; [lia|reflexivity].
Defined.

(** Accumulating chain work is addition modulo [2^256], so work never
    decreases along a chain until the total passes [2^256]. *)
Lemma add_chain_work_spec (a b : Hash256) : hash_ok a -> hash_ok b ->
  hash_ok (add_chain_work a b) /\ of_le (add_chain_work a b) = (of_le a + of_le b) mod 2 ^ 256 /\
  (of_le a + of_le b < 2 ^ 256 -> Hash256_le a (add_chain_work a b) = true).
Proof.
  intros Ha Hb. pose proof (add_loop_array 32 a b 0 Ha Hb) as Hs.
  assert (of_le (add_chain_work a b) = (of_le a + of_le b) mod 2 ^ 256) as E.
  { unfold add_chain_work. rewrite add_loop_value, Z.add_0_r, (proj1 Ha) by (by rewrite (proj1 Ha), (proj1 Hb)). done. }
  split_and!; [done|done|]. intros Hlt. rewrite Hash256_le_spec, E by done.
  pose proof (hash_bound a Ha). pose proof (hash_bound b Hb). rewrite Z.mod_small by lia. lia.
Qed.

Lemma le_bytes_hash z : hash_ok (le_bytes 32 z).
Proof. split; [apply length_le_bytes|apply le_bytes_ok]. Qed.

Lemma add_chain_work_witness :
  hash_ok (add_chain_work (le_bytes 32 5) (le_bytes 32 7)) /\
  of_le (add_chain_work (le_bytes 32 5) (le_bytes 32 7)) =
    (of_le (le_bytes 32 5) + of_le (le_bytes 32 7)) mod 2 ^ 256 /\
  Hash256_le (le_bytes 32 5) (add_chain_work (le_bytes 32 5) (le_bytes 32 7)) = true.
Proof.
  destruct (add_chain_work_spec (le_bytes 32 5) (le_bytes 32 7)) as (H1 & H2 & H3); [apply le_bytes_hash..|].
  split_and!; [exact H1|exact H2|apply H3; vm_compute; reflexivity].
Defined.

(** The timespan used for retargeting: clamped to a factor of four. *)
Definition clamp_timespan (timespan actual : Z) : Z := Z.min (timespan * 4) (Z.max (timespan / 4) actual).

(** C33: a retarget multiplies the previous target by the clamped timespan and
    divides by the target timespan in full precision, caps the result at the
    proof-of-work limit and encodes it: the intermediate product never
    overflows and the 512-bit saturation is unobservable below the cap. *)
Theorem calculate_next_work_spec (prev : BlockIndex) (first_time : Z) (params : ConsensusParams) :
  pow_no_retargeting params = false -> u32_ok (time (bi_header prev)) -> u32_ok first_time ->
  0 < pow_target_timespan params < 2 ^ 32 -> hash_ok (pow_limit params) ->
  let span := clamp_timespan (pow_target_timespan params) (Z.max 0 (time (bi_header prev) - first_time)) in
  exists t, hash_ok t /\
    of_le t = Z.min (of_le (pow_limit params))
      (of_le (bits_to_target (bits (bi_header prev))) * span / pow_target_timespan params) /\
    calculate_next_work_required prev first_time params = target_to_bits t.
Proof.
  intros Hn Ht Hf Hts Hl span. unfold calculate_next_work_required. rewrite Hn. int_unfold.
  set (ts := pow_target_timespan params) in *.
  assert (0 <= ts / 4 <= ts) by (split; [apply Z.div_pos; lia|apply Z.div_le_upper_bound; lia]).
  rewrite (wrap_u_small 64 (ts * 4)), !wrap_s_small by lia.
  assert (0 <= span < 2 ^ 64) as Hs by (unfold span, clamp_timespan; lia).
  set (sp := saturating_sub_u _ _). match goal with |- context [wrap_u 64 ?x] => replace x with span end.
  2: { unfold span, clamp_timespan, sp, saturating_sub_u. destruct (Z.ltb_spec (Z.max 0 (time (bi_header prev) - first_time)) (ts / 4));
       case_match; lia. }
  rewrite wrap_u_small by lia.
  destruct (multiply_and_divide_value (bits_to_target (bits (bi_header prev))) span ts) as [Hh E];
    [apply bits_to_target_ok|by int_unfold|lia|].
  pose proof (hash_bound _ Hl). pose proof (hash_bound _ Hh).
  rewrite Hash256_gt_spec by done. destruct (Z.ltb_spec (of_le (pow_limit params)) (of_le (multiply_and_divide (bits_to_target (bits (bi_header prev))) span ts))).
  - exists (pow_limit params). split_and!; [done| |done]. lia.
  - eexists. split_and!; [exact Hh| |done]. lia.
Qed.

Definition sample_params : ConsensusParams :=
  mkConsensusParams 1 1 1 1 (le_bytes 32 (2 ^ 224 - 1)) 600 1209600 false false 210000
    ZERO_HASH ZERO_HASH false [].
Definition sample_header (t b : Z) : BlockHeader := mkBlockHeader 1 ZERO_HASH ZERO_HASH t b 0.
Definition sample_index (h t b : Z) : BlockIndex := mkBlockIndex (sample_header t b) h ZERO_HASH None None.

Lemma calculate_next_work_witness :
  exists t, hash_ok t /\
    of_le t = Z.min (of_le (pow_limit sample_params))
      (of_le (bits_to_target 0x1c00ffff) * clamp_timespan 1209600 (Z.max 0 (2000000 - 1000000)) / 1209600) /\
    calculate_next_work_required (sample_index 2015 2000000 0x1c00ffff) 1000000 sample_params = target_to_bits t.
Proof.
  apply (calculate_next_work_spec (sample_index 2015 2000000 0x1c00ffff) 1000000 sample_params);
    [reflexivity|by (split; vm_compute)|by (split; vm_compute)|split; reflexivity|apply le_bytes_hash].
Defined.

(** Without the minimum-difficulty rule the required bits change only when
    the next height is a multiple of the adjustment interval, and then the
    retarget compares the previous block with the one exactly
    [interval - 1] below it; if that index is missing the bits are kept. *)
Lemma get_next_work_schedule {P : BlockIndexProvider} (prev : BlockIndex) (h : BlockHeader) (params : ConsensusParams) (interval : Z) :
  pow_no_retargeting params = false -> f_pow_allow_min_difficulty_blocks params = false ->
  interval = pow_target_timespan params / pow_target_spacing params -> 0 < interval < 2 ^ 32 ->
  0 <= bi_height prev < 2 ^ 32 - 1 ->
  ((bi_height prev + 1) mod interval <> 0 -> get_next_work_required prev h params = bits (bi_header prev)) /\
  ((bi_height prev + 1) mod interval = 0 ->
     0 <= bi_height prev - (interval - 1) /\
     get_next_work_required prev h params =
       match get_block_index_by_height (bi_height prev - (interval - 1)) with
       | Some first => calculate_next_work_required prev (time (bi_header first)) params
       | None => bits (bi_header prev)
       end).
Proof.
  intros H1 H2 Hi Hi0 Hh. unfold get_next_work_required. rewrite H1, H2, <- Hi. cbv zeta.
  rewrite (wrap_u_small 32 (bi_height prev + 1)), (wrap_u_small 32 interval), (wrap_u_small 32 (interval - 1)) by lia.
  destruct (Z.eqb_spec ((bi_height prev + 1) mod interval) 0) as [E|E]; cbn [negb]; split; try done.
  intros _. assert (interval <= bi_height prev + 1).
  { apply Z.div_exact in E; [|lia]. assert (0 < (bi_height prev + 1) / interval); [|nia].
    assert (0 <= (bi_height prev + 1) / interval) by (apply Z.div_pos; lia). nia. }
  split; [lia|]. unfold saturating_sub_u. by rewrite Z.max_r by lia.
Qed.

Lemma get_next_work_schedule_witness :
  @get_next_work_required (fun h => if h =? 0 then Some (sample_index 0 1000000 0x1c00ffff) else None)
    (sample_index 2015 2000000 0x1c00ffff) (sample_header 2000600 0x1c00ffff) sample_params =
  calculate_next_work_required (sample_index 2015 2000000 0x1c00ffff) 1000000 sample_params.
Proof.
  apply (@get_next_work_schedule (fun h => if h =? 0 then Some (sample_index 0 1000000 0x1c00ffff) else None)
    (sample_index 2015 2000000 0x1c00ffff) (sample_header 2000600 0x1c00ffff) sample_params 2016);
    [reflexivity..|split; reflexivity|split; [vm_compute; discriminate|reflexivity]|reflexivity].
Defined.
