(* ===== verification/Coins.v ===== *)
(** * The UTXO cache (crates/consensus/coins.rs)

    [CoinsView] is the trait of coins.rs; [CoinsStore] is what the cache
    expects of the store it flushes to.  [CoinsViewCache] is the write-back
    cache.  The specification is a finite map from outpoints to unspent coins:
    every operation of the cache refines the map operation, and flushing moves
    the map into the base view without changing what a reader sees.

    [HashMap::retain] visits entries in an unspecified order, so [trim_to_budget]
    takes the visiting order as an argument. *)

From S2P Require Import Prelude Wire Hash Transaction.

(** [trait CoinsView] *)
Class CoinsView (V : Type) : Type := {
  get_coin : V -> OutPoint -> option Coin;
  get_best_block : V -> option BlockHash;
}.

(** [CoinUpdate] of block_manager.rs *)
Inductive CoinUpdate : Type := Add (c : Coin) | Remove.

(** The effect of one flush on the coins of a view. *)
Definition apply_update (u : option CoinUpdate) (old : option Coin) : option Coin :=
  match u with Some (Add c) => Some c | Some Remove => None | None => old end.

(** A view that is also the store flushes are written to. *)
Class CoinsStore (V E : Type) `{CoinsView V} : Type :=
  update_utxos : V -> gmap OutPoint CoinUpdate -> option BlockHash -> list (Z * BlockHash) -> result unit E * V.

Class CoinsStoreOk (V E : Type) `{CoinsStore V E} : Prop := {
  update_utxos_coins : forall v v' ups best conn, update_utxos v ups best conn = (Ok tt, v') ->
    forall o, get_coin v' o = apply_update (ups !! o) (get_coin v o);
  update_utxos_best : forall v v' ups best conn, update_utxos v ups best conn = (Ok tt, v') ->
    get_best_block v' = match best with Some h => Some h | None => get_best_block v end;
  update_utxos_failed : forall v v' e ups best conn, update_utxos v ups best conn = (Err e, v') ->
    get_best_block v' = get_best_block v /\ forall o, get_coin v' o = get_coin v o;
}.

Definition ESTIMATED_CACHE_ENTRY_BYTES : nat := 256.

Record CoinCacheEntry : Type := mkEntry { coin : option Coin; is_dirty : bool; is_fresh : bool }.

(** [coin: None, is_dirty: true, is_fresh: false] *)
Definition spent_entry : CoinCacheEntry := mkEntry None true false.

Record CoinsViewCache (V : Type) : Type := mkCache {
  base : V;
  cache : gmap OutPoint CoinCacheEntry;
  best_block : option BlockHash;
  connected_blocks : list (Z * BlockHash);
  max_entries : nat;
  hits : Z;
  misses : Z;
}.
Arguments mkCache {V}.
Arguments base {V}.
Arguments cache {V}.
Arguments best_block {V}.
Arguments connected_blocks {V}.
Arguments max_entries {V}.
Arguments hits {V}.
Arguments misses {V}.

Definition with_cache {V} (c : CoinsViewCache V) (m : gmap OutPoint CoinCacheEntry) : CoinsViewCache V :=
  mkCache (base c) m (best_block c) (connected_blocks c) (max_entries c) (hits c) (misses c).

Section Cache.
Context {V : Type} {CV : CoinsView V}.

Definition cache_new (b : V) (budget_bytes : nat) : CoinsViewCache V :=
  mkCache b ∅ (get_best_block b) [] (Nat.max (budget_bytes / ESTIMATED_CACHE_ENTRY_BYTES) 1) 0 0.

Definition set_best_block (c : CoinsViewCache V) (hash : BlockHash) (height : Z) : CoinsViewCache V :=
  mkCache (base c) (cache c) (Some hash) (connected_blocks c ++ [(height, hash)]) (max_entries c) (hits c) (misses c).

Definition add_coin (c : CoinsViewCache V) (outpoint : OutPoint) (cn : Coin) (possible_overwrite : bool)
    : CoinsViewCache V :=
  let entry :=
    match cache c !! outpoint with
    | Some existing => mkEntry (Some cn) true (is_fresh existing)
    | None => mkEntry (Some cn) true true
    end in
  with_cache c (<[outpoint := entry]> (cache c)).

Definition spend_coin (c : CoinsViewCache V) (outpoint : OutPoint) : option Coin * CoinsViewCache V :=
  match cache c !! outpoint with
  | Some entry =>
    match coin entry with
    | None => (None, c)
    | Some cn =>
      (Some cn,
       if is_fresh entry then with_cache c (delete outpoint (cache c))
       else with_cache c (<[outpoint := spent_entry]> (cache c)))
    end
  | None =>
    match get_coin (base c) outpoint with
    | Some cn => (Some cn, with_cache c (<[outpoint := spent_entry]> (cache c)))
    | None => (None, c)
    end
  end.

Definition spend_coin_known (c : CoinsViewCache V) (outpoint : OutPoint) : CoinsViewCache V :=
  match cache c !! outpoint with
  | Some _ => (spend_coin c outpoint).2
  | None => with_cache c (<[outpoint := spent_entry]> (cache c))
  end.

Definition entry_update (e : CoinCacheEntry) : option CoinUpdate :=
  if is_dirty e then
    match coin e with
    | Some cn => Some (Add cn)
    | None => if is_fresh e then None else Some Remove
    end
  else None.
Definition to_updates (c : CoinsViewCache V) : gmap OutPoint CoinUpdate := omap entry_update (cache c).

(** The closure of the first [retain] of [clear_history]. *)
Definition clean_entry (e : CoinCacheEntry) : option CoinCacheEntry :=
  if is_dirty e then
    match coin e with
    | None => None
    | Some _ => Some (mkEntry (coin e) false false)
    end
  else Some e.

(** The [retain] of [trim_to_budget], visiting the entries in [order]. *)
Fixpoint trim_loop (order : list OutPoint) (remaining : nat) (m : gmap OutPoint CoinCacheEntry)
    : gmap OutPoint CoinCacheEntry :=
  match order with
  | [] => m
  | o :: order =>
    match m !! o with
    | Some entry =>
      if (0 <? remaining)%nat && negb (is_dirty entry)
      then trim_loop order (remaining - 1) (delete o m)
      else trim_loop order remaining m
    | None => trim_loop order remaining m
    end
  end.
Definition trim_to_budget (order : list OutPoint) (c : CoinsViewCache V) : CoinsViewCache V :=
  with_cache c (trim_loop order (size (cache c) - max_entries c) (cache c)).

Definition clear_history (order : list OutPoint) (c : CoinsViewCache V) : CoinsViewCache V :=
  trim_to_budget order
    (mkCache (base c) (omap clean_entry (cache c)) (best_block c) [] (max_entries c) (hits c) (misses c)).

(** [CoinsView for CoinsViewCache]: a lookup also counts a hit or a miss. *)
Definition get_coin_counted (c : CoinsViewCache V) (outpoint : OutPoint) : option Coin * CoinsViewCache V :=
  match cache c !! outpoint with
  | Some entry =>
    (coin entry, mkCache (base c) (cache c) (best_block c) (connected_blocks c) (max_entries c) (hits c + 1) (misses c))
  | None =>
    (get_coin (base c) outpoint,
     mkCache (base c) (cache c) (best_block c) (connected_blocks c) (max_entries c) (hits c) (misses c + 1))
  end.
#[export] Instance cache_view : CoinsView (CoinsViewCache V) := {|
  get_coin c o := (get_coin_counted c o).1;
  get_best_block c := match best_block c with Some h => Some h | None => get_best_block (base c) end |}.

(** [StoreCoinsView::flush]; the cache's base is the store written to. *)
Definition flush {E} `{!CoinsStore V E} (order : list OutPoint) (c : CoinsViewCache V)
    : result unit E * CoinsViewCache V :=
  let '(r, b) := update_utxos (base c) (to_updates c) (get_best_block c) (connected_blocks c) in
  let c := mkCache b (cache c) (best_block c) (connected_blocks c) (max_entries c) (hits c) (misses c) in
  match r with
  | Ok _ => (Ok tt, clear_history order c)
  | Err e => (Err e, c)
  end.

(** ** The representation invariant

    A fresh entry has no coin in the base; a clean entry agrees with it. *)
Definition entry_ok (b : option Coin) (e : CoinCacheEntry) : Prop :=
  (is_fresh e = true -> b = None) /\ (is_dirty e = false -> coin e = b).
Definition cache_ok (c : CoinsViewCache V) : Prop :=
  forall o e, cache c !! o = Some e -> entry_ok (get_coin (base c) o) e.

Lemma get_coin_eq (c : CoinsViewCache V) o :
  get_coin c o = match cache c !! o with Some e => coin e | None => get_coin (base c) o end.
Proof. simpl. unfold get_coin_counted. by destruct (cache c !! o). Qed.

Lemma cache_new_ok b n : cache_ok (cache_new b n) /\ forall o, get_coin (cache_new b n) o = get_coin b o.
Proof. split; [intros o e H; cbn [cache_new cache] in H; by rewrite lookup_empty in H | intros o; by rewrite get_coin_eq]. Qed.

(** The outpoint may be added without breaking freshness. *)
Definition addable (c : CoinsViewCache V) (o : OutPoint) : Prop :=
  is_Some (cache c !! o) \/ get_coin (base c) o = None.

Lemma absent_addable (c : CoinsViewCache V) o : get_coin c o = None -> addable c o.
Proof. rewrite get_coin_eq. unfold addable. destruct (cache c !! o); eauto. Qed.

Lemma add_coin_view c o cn b o' :
  get_coin (add_coin c o cn b) o' = if decide (o' = o) then Some cn else get_coin c o'.
Proof.
  rewrite !get_coin_eq. unfold add_coin, with_cache. cbn [cache base]. case_decide as E.
  - subst. rewrite lookup_insert_eq. by destruct (cache c !! o).
  - by rewrite lookup_insert_ne.
Qed.

Lemma add_coin_ok c o cn b : cache_ok c -> addable c o -> cache_ok (add_coin c o cn b).
Proof.
  intros Hc Ha o' e. unfold add_coin, with_cache. cbn [cache base]. destruct (decide (o = o')) as [<-|Hne].
  - rewrite lookup_insert_eq. intros [= <-]. destruct (cache c !! o) as [e|] eqn:E; split; cbn; try done.
    + apply (Hc o e E).
    + intros _. destruct Ha as [[? Ha]|Ha]; [congruence|done].
  - rewrite lookup_insert_ne by done. apply Hc.
Qed.

Lemma insert_spent_ok c o : cache_ok c -> cache_ok (with_cache c (<[o := spent_entry]> (cache c))).
Proof.
  intros Hc o' e. cbn [with_cache cache base]. destruct (decide (o = o')) as [<-|Hne].
  - rewrite lookup_insert_eq. by intros [= <-].
  - rewrite lookup_insert_ne by done. apply Hc.
Qed.
Lemma delete_entry_ok c o : cache_ok c -> cache_ok (with_cache c (delete o (cache c))).
Proof. intros Hc o' e. cbn [with_cache cache base]. rewrite lookup_delete_Some. intros [_ H]. by apply Hc. Qed.

Lemma insert_spent_view c o o' :
  get_coin (with_cache c (<[o := spent_entry]> (cache c))) o' = if decide (o' = o) then None else get_coin c o'.
Proof.
  rewrite !get_coin_eq. cbn [with_cache cache base]. case_decide; subst;
    [by rewrite lookup_insert_eq | by rewrite lookup_insert_ne].
Qed.

Lemma spend_coin_spec c o : cache_ok c ->
  (spend_coin c o).1 = get_coin c o /\ cache_ok (spend_coin c o).2 /\
  forall o', get_coin (spend_coin c o).2 o' = if decide (o' = o) then None else get_coin c o'.
Proof.
  intros Hc. rewrite get_coin_eq. unfold spend_coin.
  destruct (cache c !! o) as [e|] eqn:E; [destruct (coin e) as [cn|] eqn:Ec; [destruct (is_fresh e) eqn:Ef|]|
    destruct (get_coin (base c) o) as [cn|] eqn:Eb]; cbn [fst snd]; (split; [done|]);
    (split; [by auto using insert_spent_ok, delete_entry_ok|]); intros o'; rewrite ?insert_spent_view; try done.
  - rewrite !get_coin_eq. cbn [with_cache cache base]. case_decide; subst.
    + rewrite lookup_delete_eq. by apply (Hc o e E).
    + by rewrite lookup_delete_ne.
  - case_decide; [|done]. subst. by rewrite get_coin_eq, E.
  - case_decide; [|done]. subst. by rewrite get_coin_eq, E.
Qed.

Lemma spend_coin_known_spec c o : cache_ok c ->
  cache_ok (spend_coin_known c o) /\
  forall o', get_coin (spend_coin_known c o) o' = if decide (o' = o) then None else get_coin c o'.
Proof.
  intros Hc. unfold spend_coin_known. destruct (cache c !! o) eqn:E.
  - by destruct (spend_coin_spec c o Hc) as (_ & ? & ?).
  - split; [by apply insert_spent_ok | intros; apply insert_spent_view].
Qed.

(** Operations never remove an entry whose base has a coin. *)
Lemma spend_coin_known_addable c o o' : cache_ok c -> addable c o' -> addable (spend_coin_known c o) o'.
Proof.
  intros Hc Ha. unfold spend_coin_known, spend_coin, addable in *.
  destruct (decide (o = o')) as [<-|Hne].
  - destruct (cache c !! o) as [e|] eqn:E.
    + destruct (coin e) eqn:Ec; [destruct (is_fresh e) eqn:Ef|]; cbn.
      * right. by apply (Hc o e E).
      * left. rewrite lookup_insert_eq. eauto.
      * left. rewrite E. eauto.
    + left. cbn. rewrite lookup_insert_eq. eauto.
  - destruct (cache c !! o) as [e|] eqn:E.
    + destruct (coin e) eqn:Ec; [destruct (is_fresh e) eqn:Ef|]; cbn;
        by rewrite ?lookup_insert_ne, ?lookup_delete_ne by done.
    + cbn. by rewrite lookup_insert_ne by done.
Qed.
Lemma add_coin_addable c o cn b o' : addable c o' -> addable (add_coin c o cn b) o'.
Proof.
  intros Ha. unfold addable, add_coin, with_cache in *. cbn. destruct (decide (o = o')) as [<-|Hne].
  - left. rewrite lookup_insert_eq. eauto.
  - by rewrite lookup_insert_ne.
Qed.

Lemma set_best_block_view c h n o : get_coin (set_best_block c h n) o = get_coin c o.
Proof. by rewrite !get_coin_eq. Qed.
Lemma set_best_block_ok c h n : cache_ok c -> cache_ok (set_best_block c h n).
Proof. done. Qed.
End Cache.

(** ** Flushing *)

Lemma trim_loop_lookup order n m o :
  trim_loop order n m !! o = m !! o \/
  (trim_loop order n m !! o = None /\ exists e, m !! o = Some e /\ is_dirty e = false).
Proof.
  revert n m; induction order as [|k order IH]; intros n m; [by left|]. cbn [trim_loop].
  destruct (m !! k) as [e|] eqn:E; [|apply IH].
  destruct (_ && _) eqn:Hc; [|apply IH].
  apply andb_true_iff in Hc as [_ Hd%negb_true_iff].
  destruct (IH (n - 1)%nat (delete k m)) as [H|(H & e' & H1 & H2)].
  - destruct (decide (k = o)) as [->|Hne]; rewrite H.
    + right. rewrite lookup_delete_eq. eauto.
    + left. by rewrite lookup_delete_ne.
  - right. split; [done|]. apply lookup_delete_Some in H1 as [_ H1]. eauto.
Qed.

Lemma trim_loop_size order n m : NoDup order ->
  (forall o, o ∈ order -> exists e, m !! o = Some e /\ is_dirty e = false) ->
  size (trim_loop order n m) = (size m - Nat.min n (length order))%nat.
Proof.
  revert n m; induction order as [|k order IH]; intros n m Hnd Hm; [simpl; lia|].
  apply NoDup_cons in Hnd as [Hk Hnd]. cbn [trim_loop length].
  destruct (Hm k) as (e & E & Hd); [by left|]. rewrite E, Hd. simpl negb. rewrite andb_true_r.
  destruct (Nat.ltb_spec 0 n) as [Hn|Hn].
  - rewrite IH; [|done|].
    + rewrite map_size_delete, E. simpl. lia.
    + intros o Ho. destruct (Hm o) as (e' & E' & ?); [by right|]. exists e'. split; [|done].
      rewrite lookup_delete_ne; [done|]. by intros ->.
  - rewrite IH; [lia|done|]. intros o Ho. apply Hm. by right.
Qed.

Section Flush.
Context {V E : Type} {CV : CoinsView V} {CS : CoinsStore V E} {CO : CoinsStoreOk V E}.

Lemma flush_ok order (c c' : CoinsViewCache V) : cache_ok c -> flush order c = (Ok tt, c') ->
  cache_ok c' /\ (forall o, get_coin c' o = get_coin c o) /\ (forall o, get_coin (base c') o = get_coin c o).
Proof.
  intros Hc. unfold flush. destruct (update_utxos _ _ _ _) as [[[]|] b] eqn:Hu; [|done]. intros [= <-].
  pose proof (update_utxos_coins _ _ _ _ _ Hu) as Hb.
  assert (forall o, get_coin b o = get_coin c o) as Hbase.
  { intros o. rewrite Hb, get_coin_eq. unfold to_updates. rewrite lookup_omap.
    destruct (cache c !! o) as [e|] eqn:Ee; simpl; [|done]. destruct (Hc o e Ee) as [Hf Hd]. unfold entry_update.
    destruct (is_dirty e); [|by rewrite Hd]. destruct (coin e); [done|]. destruct (is_fresh e); [by apply Hf|done]. }
  set (c1 := mkCache b _ _ _ _ _ _).
  assert (forall o e, cache (clear_history order c1) !! o = Some e -> entry_ok (get_coin b o) e /\ coin e = get_coin c o) as Hent.
  { intros o e He. unfold clear_history, trim_to_budget, with_cache in He. cbn [cache] in He.
    match type of He with trim_loop ?a ?n ?m !! _ = _ => destruct (trim_loop_lookup a n m o) as [Hl|(Hl & _)] end;
      rewrite Hl in He; [|done].
    rewrite lookup_omap in He. unfold c1 in He. cbn [cache] in He.
    destruct (cache c !! o) as [e0|] eqn:E0; [|done]. destruct (Hc o e0 E0) as [Hf Hd]. simpl in He.
    rewrite Hbase, !get_coin_eq, E0. unfold clean_entry in He.
    destruct (is_dirty e0) eqn:D; [destruct (coin e0) eqn:Co; [|done]|]; injection He as <-; (split; [|done]); split; cbn; try done.
    intros Hfe. rewrite Hd by done. by apply Hf. }
  split_and!.
  - intros o e He. by apply Hent in He as [? _].
  - intros o. rewrite get_coin_eq. destruct (cache _ !! o) as [e|] eqn:Ee; [by apply Hent in Ee as [_ ?]|].
    by rewrite <- Hbase.
  - apply Hbase.
Qed.

(** A flush the store refuses changes nothing a reader sees. *)
Lemma flush_failed order (c c' : CoinsViewCache V) e : cache_ok c -> flush order c = (Err e, c') ->
  cache_ok c' /\ forall o, get_coin c' o = get_coin c o.
Proof.
  intros Hc. unfold flush. destruct (update_utxos _ _ _ _) as [[|e'] b] eqn:Hu; [done|]. intros [= _ <-].
  apply update_utxos_failed in Hu as [_ Hb]. split.
  - intros o en He. cbn [cache base] in *. rewrite Hb. by apply Hc.
  - intros o. rewrite !get_coin_eq. cbn [cache base]. by rewrite Hb.
Qed.

(** A flush makes the base view hold exactly what readers saw, changes no
    reader's answer, leaves no dirty entry, and brings the cache down to its
    budget whatever order the hash map is visited in. *)
Lemma flush_spec (order : list OutPoint) (c c' : CoinsViewCache V) :
  cache_ok c -> NoDup order -> (forall o, o ∈ order <-> is_Some (omap clean_entry (cache c) !! o)) ->
  flush order c = (Ok tt, c') ->
  cache_ok c' /\ (forall o, get_coin c' o = get_coin c o /\ get_coin (base c') o = get_coin c o) /\
  (forall o e, cache c' !! o = Some e -> is_dirty e = false) /\
  (size (cache c') <= max_entries c)%nat /\ connected_blocks c' = [].
Proof.
  intros Hc Hnd Hord Hf. destruct (flush_ok order c c' Hc Hf) as (H1 & H2 & H3).
  unfold flush in Hf. destruct (update_utxos _ _ _ _) as [[[]|] b] eqn:Hu; [|done]. injection Hf as <-.
  assert (forall o e, omap clean_entry (cache c) !! o = Some e -> is_dirty e = false) as Hclean.
  { intros o e. rewrite lookup_omap. destruct (cache c !! o) as [e0|]; [|done]. simpl. unfold clean_entry.
    destruct (is_dirty e0) eqn:D; [destruct (coin e0)|]; naive_solver. }
  split_and!; [done|auto| | |done].
  - intros o e He. unfold clear_history, trim_to_budget, with_cache in He. cbn [cache] in He.
    match type of He with trim_loop ?a ?n ?m !! _ = _ => destruct (trim_loop_lookup a n m o) as [Hl|(Hl & _)] end;
      rewrite Hl in He; [|done]. by eapply Hclean.
  - unfold clear_history, trim_to_budget, with_cache. cbn [cache max_entries]. rewrite trim_loop_size; [|done|].
    + assert (length order = size (omap clean_entry (cache c))) as ->; [|lia].
      assert (list_to_set (C := gset OutPoint) order = dom (omap clean_entry (cache c))) as Hs.
      { apply set_eq. intros o. rewrite elem_of_list_to_set, Hord, elem_of_dom. done. }
      rewrite <- size_dom, <- Hs. by rewrite size_list_to_set.
    + intros o Ho. apply Hord in Ho as [e He]. eauto.
Qed.
End Flush.

(** ** Refinement of a finite map of unspent coins *)

Abbreviation UtxoMap := (gmap OutPoint Coin).

Section Refinement.
Context {V E : Type} {CV : CoinsView V} {CS : CoinsStore V E} {CO : CoinsStoreOk V E}.

Inductive CacheOp : Type :=
  | OpAdd (o : OutPoint) (cn : Coin) (possible_overwrite : bool)
  | OpSpend (o : OutPoint)
  | OpSpendKnown (o : OutPoint)
  | OpBest (hash : BlockHash) (height : Z)
  | OpFlush (order : list OutPoint).

Definition run_op (c : CoinsViewCache V) (op : CacheOp) : CoinsViewCache V :=
  match op with
  | OpAdd o cn b => add_coin c o cn b
  | OpSpend o => (spend_coin c o).2
  | OpSpendKnown o => spend_coin_known c o
  | OpBest h n => set_best_block c h n
  | OpFlush order => (flush order c).2
  end.

(** The specification: adding is allowed only for an outpoint not unspent. *)
Definition spec_op (m : UtxoMap) (op : CacheOp) : option UtxoMap :=
  match op with
  | OpAdd o cn _ => match m !! o with None => Some (<[o := cn]> m) | Some _ => None end
  | OpSpend o | OpSpendKnown o => Some (delete o m)
  | OpBest _ _ | OpFlush _ => Some m
  end.
Fixpoint spec_ops (m : UtxoMap) (ops : list CacheOp) : option UtxoMap :=
  match ops with
  | [] => Some m
  | op :: ops => match spec_op m op with Some m => spec_ops m ops | None => None end
  end.

Definition refines (c : CoinsViewCache V) (m : UtxoMap) : Prop :=
  cache_ok c /\ forall o, get_coin c o = m !! o.

Lemma run_op_refines c m op m' : refines c m -> spec_op m op = Some m' -> refines (run_op c op) m'.
Proof.
  intros [Hc Hm] Hs. destruct op as [o cn b|o|o|h n|order]; cbn [run_op spec_op] in *.
  - destruct (m !! o) eqn:Eo; [done|]. injection Hs as <-. split.
    + apply add_coin_ok; [done|]. apply absent_addable. by rewrite Hm.
    + intros o'. rewrite add_coin_view, Hm. case_decide; subst; [by rewrite lookup_insert_eq|by rewrite lookup_insert_ne].
  - injection Hs as <-. destruct (spend_coin_spec c o Hc) as (_ & ? & Hv). split; [done|].
    intros o'. rewrite Hv, Hm. case_decide; subst; [by rewrite lookup_delete_eq|by rewrite lookup_delete_ne].
  - injection Hs as <-. destruct (spend_coin_known_spec c o Hc) as (? & Hv). split; [done|].
    intros o'. rewrite Hv, Hm. case_decide; subst; [by rewrite lookup_delete_eq|by rewrite lookup_delete_ne].
  - injection Hs as <-. split; [done|]. intros o. by rewrite set_best_block_view.
  - injection Hs as <-. destruct (flush order c) as [[[]|e] c'] eqn:Ef; cbn [snd].
    + destruct (flush_ok order c c' Hc Ef) as (? & Hv & _). split; [done|]. intros o. by rewrite Hv.
    + destruct (flush_failed order c c' e Hc Ef) as [? Hv]. split; [done|]. intros o. by rewrite Hv.
Qed.

Lemma run_ops_refines ops c m m' : refines c m -> spec_ops m ops = Some m' -> refines (fold_left run_op ops c) m'.
Proof.
  revert c m; induction ops as [|op ops IH]; intros c m Hr Hs; cbn in *; [by injection Hs as <-|].
  destruct (spec_op m op) as [m1|] eqn:E1; [|done]. eapply IH; [|done]. by eapply run_op_refines.
Qed.

(** C18: whatever sequence of additions, spends and flushes runs against the
    cache, readers see the map of unspent coins the same sequence produces,
    provided no addition overwrites a coin that is still unspent. *)
Theorem cache_refines_map (b : V) (budget : nat) (m m' : UtxoMap) (ops : list CacheOp) :
  (forall o, get_coin b o = m !! o) -> spec_ops m ops = Some m' ->
  forall o, get_coin (fold_left run_op ops (cache_new b budget)) o = m' !! o.
Proof.
  intros Hb Hs. destruct (cache_new_ok b budget) as [Hok Hv].
  apply (run_ops_refines ops (cache_new b budget) m m'); [|done].
  split; [done|]. intros o. by rewrite Hv, Hb.
Qed.

(** The proviso is needed: [add_coin] marks an entry fresh without looking
    at the base, so adding over a coin the base still holds and spending the
    addition brings the old coin back as unspent. *)
Lemma overwrite_resurrects (b : V) (budget : nat) (o : OutPoint) (c_old c_new : Coin) (po : bool) :
  get_coin b o = Some c_old ->
  let c := add_coin (cache_new b budget) o c_new po in
  get_coin c o = Some c_new /\ (spend_coin c o).1 = Some c_new /\
  get_coin (spend_coin c o).2 o = Some c_old.
Proof.
  intros Hb c.
  assert (cache c !! o = Some (mkEntry (Some c_new) true true)) as He.
  { unfold c, add_coin, cache_new, with_cache. cbn [cache]. by rewrite lookup_empty, lookup_insert_eq. }
  unfold spend_coin. rewrite He. cbn [coin is_fresh fst snd]. split_and!; [by rewrite get_coin_eq, He|done|].
  rewrite get_coin_eq. cbn [with_cache cache base]. by rewrite lookup_delete_eq.
Qed.
End Refinement.

(** ** A concrete store, for evaluating the cache *)

Record MapStore : Type := mkMapStore { ms_coins : gmap OutPoint Coin; ms_best : option BlockHash }.
Definition map_view : CoinsView MapStore :=
  {| get_coin s o := ms_coins s !! o; get_best_block := ms_best |}.
Definition apply_updates (ups : gmap OutPoint CoinUpdate) (m : gmap OutPoint Coin) : gmap OutPoint Coin :=
  merge (fun u c => apply_update u c) ups m.
Definition map_store : @CoinsStore MapStore unit map_view := fun s ups best _ =>
  (Ok tt, mkMapStore (apply_updates ups (ms_coins s)) (match best with Some h => Some h | None => ms_best s end)).
Lemma map_store_ok : @CoinsStoreOk MapStore unit map_view map_store.
Proof.
  split; [intros v v' ups best conn [= <-]|intros v v' ups best conn [= <-]; done|intros v v' e ups best conn [=]]. intros o. cbn. unfold apply_updates.
  rewrite lookup_merge. destruct (ups !! o) as [[]|], (ms_coins v !! o); done.
Qed.

Definition sample_outpoint (n : Z) : OutPoint := mkOutPoint (replicate 32 n) 0.
Definition sample_coin (v : Z) : Coin := mkCoin (mkTxOut v []) 1 false.
Definition sample_store : MapStore := mkMapStore {[ sample_outpoint 1 := sample_coin 50 ]} None.
Definition sample_ops : list CacheOp :=
  [OpAdd (sample_outpoint 2) (sample_coin 7) false; OpSpend (sample_outpoint 1);
   OpFlush [sample_outpoint 2]; OpSpendKnown (sample_outpoint 2)].

Lemma cache_refines_map_witness :
  @get_coin _ (@cache_view _ map_view)
    (fold_left (@run_op MapStore unit map_view map_store) sample_ops (@cache_new _ map_view sample_store 1024)) (sample_outpoint 2)
  = (∅ : gmap OutPoint Coin) !! sample_outpoint 2.
Proof.
  apply (@cache_refines_map MapStore unit map_view map_store map_store_ok sample_store 1024
    (ms_coins sample_store)); [reflexivity|vm_compute; reflexivity].
Defined.

Lemma overwrite_resurrects_witness :
  let c := @add_coin _ (@cache_new _ map_view sample_store 1024) (sample_outpoint 1) (sample_coin 9) false in
  @get_coin _ (@cache_view _ map_view) c (sample_outpoint 1) = Some (sample_coin 9) /\
  (@spend_coin _ map_view c (sample_outpoint 1)).1 = Some (sample_coin 9) /\
  @get_coin _ (@cache_view _ map_view) (@spend_coin _ map_view c (sample_outpoint 1)).2 (sample_outpoint 1) = Some (sample_coin 50).
Proof.
  apply (@overwrite_resurrects MapStore map_view sample_store 1024 (sample_outpoint 1) (sample_coin 50) (sample_coin 9) false).
  vm_compute. reflexivity.
Defined.

Definition sample_cache : CoinsViewCache MapStore :=
  @add_coin _ (@cache_new _ map_view sample_store 1) (sample_outpoint 2) (sample_coin 7) false.
Lemma flush_spec_witness :
  let c' := (@flush _ map_view _ map_store [sample_outpoint 2] sample_cache).2 in
  @cache_ok _ map_view c' /\
  (forall o, @get_coin _ (@cache_view _ map_view) c' o = @get_coin _ (@cache_view _ map_view) sample_cache o /\
             @get_coin _ map_view (base c') o = @get_coin _ (@cache_view _ map_view) sample_cache o) /\
  (forall o e, cache c' !! o = Some e -> is_dirty e = false) /\
  (size (cache c') <= 1)%nat /\ connected_blocks c' = [].
Proof.
  apply (@flush_spec MapStore unit map_view map_store map_store_ok [sample_outpoint 2] sample_cache).
  - apply (@add_coin_ok _ map_view); [apply (@cache_new_ok _ map_view)|]. right. vm_compute. reflexivity.
  - apply NoDup_singleton.
  - intros o. rewrite list_elem_of_singleton. unfold sample_cache, add_coin, cache_new, with_cache. cbn [cache].
    rewrite lookup_empty, lookup_omap. destruct (decide (o = sample_outpoint 2)) as [->|Hne].
    + rewrite lookup_insert_eq. split; [intros _; eexists; reflexivity|done].
    + rewrite lookup_insert_ne, lookup_empty by done. split; [done|intros [? [=]]].
  - reflexivity.
Defined.
