(* ===== verification/ScriptNum.v ===== *)
(** * Script errors and script numbers (crates/script/error.rs, num.rs)

    [ScriptNum] is sign-magnitude little-endian: the arithmetic of the code is
    on [i64]; shifts are at the code's width. *)

From S2P Require Import Prelude.

(** [ScriptError] (error.rs) *)
Inductive ScriptError : Type :=
  | EvalFalse | OpReturn
  | ScriptSize | PushSize | OpCount | StackSize | PubkeyCount | SigCount
  | Verify | EqualVerify | CheckMultisigVerify | CheckSigVerify | NumEqualVerify
  | BadOpcode | DisabledOpcode | InvalidStackOperation | InvalidAltstackOperation
  | UnbalancedConditional
  | NegativeLocktime | UnsatisfiedLocktime
  | SigHashType | SigDer | MinimalData | SigPushOnly | SigHighS | SigNullDummy
  | PubkeyType | CleanStack | MinimalIf | SigNullFail
  | DiscourageUpgradableNops | DiscourageUpgradableWitnessProgram
  | WitnessProgramWrongLength | WitnessProgramWitnessEmpty | WitnessProgramMismatch
  | WitnessMalleated | WitnessMalleatedP2sh | WitnessUnexpected | WitnessPubkeyType
  | OpCodeseparator | SigFindAndDelete
  | TaprootWrongControlSize | DiscourageUpgradableTaprootVersion | DiscourageOpSuccess
  | DiscourageUpgradablePubkeyType | TapscriptCheckMultisig | SchnorrSigSize
  | SchnorrSigHashType | SchnorrSig | SchnorrSigPubkey | TapscriptValidationWeight
  | TapscriptMinimalIf
  | UnknownError.
#[export] Instance ScriptError_eq_dec : EqDecision ScriptError.
Proof. solve_decision. Defined.

Abbreviation ScriptResult T := (result T ScriptError).

Definition DEFAULT_MAX_NUM_SIZE : nat := 4.

(** [result |= (byte as i64) << (8 * i)] *)
Fixpoint decode_loop (i : Z) (data : bytes) (acc : Z) : Z :=
  match data with
  | [] => acc
  | byte :: data => decode_loop (i + 1) data (Z.lor acc (wrap_s 64 (Z.shiftl byte ((8 * i) mod 64))))
  end.

Definition decode_unchecked (data : bytes) : Z :=
  if (length data =? 0)%nat then 0 else
  let res := decode_loop 0 data 0 in
  if negb (Z.land (idx data (length data - 1)) 0x80 =? 0) then
    let sign_mask := Z.lnot (wrap_s 64 (Z.shiftl 0x80 ((8 * (Z.of_nat (length data) - 1)) mod 64))) in
    wrap_s 64 (- Z.land res sign_mask)
  else res.

Definition is_minimally_encoded (data : bytes) : bool :=
  match last data with
  | None => true
  | Some l =>
    if Z.land l 0x7f =? 0
    then (1 <? length data)%nat && negb (Z.land (idx data (length data - 2)) 0x80 =? 0)
    else true
  end.

(** [ScriptNum::decode] *)
Definition ScriptNum_decode (data : bytes) (require_minimal : bool) (max_size : nat) : ScriptResult Z :=
  if (max_size <? length data)%nat then Err UnknownError
  else if require_minimal && negb (is_minimally_encoded data) then Err MinimalData
  else Ok (decode_unchecked data).

(** [while absolute > 0]: a [u64] has at most eight significant bytes. *)
Fixpoint magnitude_loop (fuel : nat) (absolute : Z) : bytes :=
  match fuel with
  | O => []
  | S fuel => if 0 <? absolute then Z.land absolute 0xff :: magnitude_loop fuel (Z.shiftr absolute 8) else []
  end.

(** [ScriptNum::encode] *)
Definition ScriptNum_encode (value : Z) : bytes :=
  if value =? 0 then [] else
  let negative := value <? 0 in
  let r := magnitude_loop 8 (Z.abs value) in
  if match last r with Some l => negb (Z.land l 0x80 =? 0) | None => false end
  then r ++ [if negative then 0x80 else 0x00]
  else if negative then <[(length r - 1)%nat := Z.lor (idx r (length r - 1)) 0x80]> r
  else r.

Fixpoint cast_loop (data : bytes) : bool :=
  match data with
  | [] => false
  | [byte] => negb (byte =? 0) && negb (byte =? 0x80)
  | byte :: data => if negb (byte =? 0) then true else cast_loop data
  end.
(** [cast_to_bool]: the first non-zero byte decides; a final [0x80] is a sign. *)
Definition cast_to_bool (data : bytes) : bool := cast_loop data.

Example encode_128 : ScriptNum_encode 128 = [0x80; 0x00].
Proof. reflexivity. Qed.
Example encode_m128 : ScriptNum_encode (-128) = [0x80; 0x80].
Proof. reflexivity. Qed.
Example cast_negative_zero : cast_to_bool [0; 0x80] = false.
Proof. reflexivity. Qed.

(** ** The value an encoding denotes *)

(** Sign-magnitude value of [l ++ [b]]. *)
Definition sm_value (l : bytes) (b : Z) : Z :=
  if b <? 128 then of_le l + 2 ^ (8 * Z.of_nat (length l)) * b
  else - (of_le l + 2 ^ (8 * Z.of_nat (length l)) * (b - 128)).

Lemma decode_loop_value data i acc : bytes_ok data -> 0 <= i -> i + Z.of_nat (length data) <= 7 ->
  0 <= acc < 2 ^ (8 * i) -> decode_loop i data acc = acc + 2 ^ (8 * i) * of_le data.
Proof.
  intros Hd. revert i acc; induction Hd as [|b data Hb _ IH]; intros i acc Hi Hl Ha; cbn [decode_loop of_le length] in *; [lia|].
  assert (2 ^ (8 * (i + 1)) = 2 ^ (8 * i) * 256) as Hp by (rewrite Z.mul_add_distr_l, Z.pow_add_r by lia; lia).
  assert (0 < 2 ^ (8 * i)) by (apply Z.pow_pos_nonneg; lia).
  assert (2 ^ (8 * i) <= 2 ^ 48) by (apply Z.pow_le_mono_r; lia).
  int_unfold. rewrite Z.mod_small by lia.
  assert (Z.shiftl b (8 * i) = b * 2 ^ (8 * i)) as Es by (by rewrite Z.shiftl_mul_pow2 by lia).
  assert (0 <= b * 2 ^ (8 * i) < 2 ^ 56) by nia.
  rewrite wrap_s_small by (rewrite ?Es; lia).
  rewrite Z.lor_comm, lor_shiftl_add by lia. rewrite IH, Hp by (rewrite ?Hp; nia). ring.
Qed.

Lemma land_bit7 b : u8_ok b -> (Z.land b 0x80 =? 0) = (b <? 128).
Proof.
  intros Hb. assert (forallb (fun b => Bool.eqb (Z.land b 0x80 =? 0) (b <? 128)) (seqZ 0 256) = true) as H by (vm_compute; reflexivity).
  rewrite forallb_forall in H. apply eqb_prop, H. apply list_elem_of_In, elem_of_seqZ. by int_unfold.
Qed.

Lemma land_low7 b : u8_ok b -> (Z.land b 0x7f =? 0) = (b =? 0) || (b =? 128).
Proof.
  intros Hb. assert (forallb (fun b => Bool.eqb (Z.land b 0x7f =? 0) ((b =? 0) || (b =? 128))) (seqZ 0 256) = true) as H by (vm_compute; reflexivity).
  rewrite forallb_forall in H. apply eqb_prop, H. apply list_elem_of_In, elem_of_seqZ. by int_unfold.
Qed.

Lemma lor_bit7 b : 0 <= b < 128 -> Z.lor b 0x80 = b + 128.
Proof. intros. change (Z.lor b 0x80) with (Z.lor b (Z.shiftl 1 7)). rewrite Z.lor_comm, lor_shiftl_add; lia. Qed.

Lemma clear_bit l k : 0 <= k -> 0 <= l < 2 ^ k -> Z.land (l + 2 ^ k) (Z.lnot (2 ^ k)) = l.
Proof.
  intros Hk Hl. rewrite <- Z.ldiff_land. rewrite <- Z.sub_nocarry_ldiff; [lia|].
  apply Z.bits_inj'. intros n Hn. rewrite Z.ldiff_spec, Z.bits_0.
  destruct (decide (n = k)) as [->|Hne].
  - apply andb_false_iff. right. apply negb_false_iff, Z.testbit_true; [done|].
    replace (l + 2 ^ k) with (l + 1 * 2 ^ k) by lia. rewrite Z.div_add, Z.div_small by lia. done.
  - by rewrite Z.pow2_bits_false by lia.
Qed.

Lemma idx_last (l : bytes) b : idx (l ++ [b]) (length (l ++ [b]) - 1) = b.
Proof. rewrite length_app, app_nth2; simpl; [|lia]. by replace (length l + 1 - 1 - length l)%nat with O by lia. Qed.

Lemma decode_unchecked_value l b : bytes_ok (l ++ [b]) -> (length l <= 6)%nat ->
  decode_unchecked (l ++ [b]) = sm_value l b.
Proof.
  intros Hd Hl. pose proof Hd as [Hl' Hb0]%bytes_ok_app. assert (u8_ok b) as Hb by (by inversion Hb0).
  unfold decode_unchecked. rewrite idx_last. destruct (Nat.eqb_spec (length (l ++ [b])) 0) as [E|_];
    [rewrite length_app in E; simpl in E; lia|].
  rewrite decode_loop_value by (try done; try lia; rewrite length_app; simpl; lia).
  rewrite land_bit7, of_le_app by done. cbn [of_le].
  unfold sm_value. pose proof (of_le_bound l Hl') as B. int_unfold.
  assert (2 ^ (8 * Z.of_nat (length l)) <= 2 ^ 48) by (apply Z.pow_le_mono_r; lia).
  set (p := 2 ^ (8 * Z.of_nat (length l))) in *.
  destruct (Z.ltb_spec b 128); cbn [negb]; [lia|].
  rewrite length_app. cbn [length]. replace (8 * (Z.of_nat (length l + 1) - 1)) with (8 * Z.of_nat (length l)) by lia.
  rewrite Z.mod_small by lia. rewrite Z.shiftl_mul_pow2 by lia. fold p.
  rewrite (wrap_s_small 64 (0x80 * p)) by lia.
  replace (0 + 2 ^ (8 * 0) * (of_le l + p * (b + 256 * 0))) with ((of_le l + p * (b - 128)) + 2 ^ (8 * Z.of_nat (length l) + 7))
    by (rewrite Z.pow_add_r by lia; fold p; change (2 ^ (8 * 0)) with 1; ring).
  replace (0x80 * p) with (2 ^ (8 * Z.of_nat (length l) + 7)) by (rewrite Z.pow_add_r by lia; fold p; ring).
  rewrite clear_bit; [|lia|rewrite Z.pow_add_r by lia; fold p; nia].
  apply wrap_s_small; [lia|]. nia.
Qed.

(** ** Encoding *)

Lemma magnitude_loop_spec fuel z : 0 <= z < 2 ^ (8 * Z.of_nat fuel) ->
  of_le (magnitude_loop fuel z) = z /\ bytes_ok (magnitude_loop fuel z) /\ (length (magnitude_loop fuel z) <= fuel)%nat /\
  (0 < z -> exists l b, magnitude_loop fuel z = l ++ [b] /\ 0 < b).
Proof.
  revert z; induction fuel as [|fuel IH]; intros z Hz.
  { change (2 ^ (8 * Z.of_nat 0)) with 1 in Hz. split_and!; [simpl; lia|constructor|done|lia]. }
  cbn [magnitude_loop]. rewrite pow256_S in Hz. destruct (Z.ltb_spec 0 z); [|split_and!; [simpl; lia|constructor|simpl; lia|lia]].
  rewrite land_ff, Z.shiftr_div_pow2 by lia. change (2 ^ 8) with 256.
  destruct (IH (z / 256)) as (E & O & L & Ht).
  { split; [apply Z.div_pos; lia|apply Z.div_lt_upper_bound; lia]. }
  pose proof (Z.div_mod z 256). pose proof (Z.mod_pos_bound z 256). split_and!.
  - cbn [of_le]. rewrite E. lia.
  - constructor; [int_unfold; lia|done].
  - simpl. lia.
  - intros _. destruct (Z.lt_ge_cases 0 (z / 256)) as [Hpos|Hneg].
    + destruct (Ht Hpos) as (l & b & -> & Hb). by exists (z mod 256 :: l), b.
    + assert (z / 256 = 0) as E0 by (pose proof (Z.div_pos z 256); lia).
      exists [], (z mod 256). rewrite E0. split; [by destruct fuel|lia].
Qed.

(** The magnitude bytes are the only encoding with a non-zero top byte. *)
Lemma magnitude_loop_unique fuel l b : bytes_ok (l ++ [b]) -> 0 < b -> (length l < fuel)%nat ->
  magnitude_loop fuel (of_le (l ++ [b])) = l ++ [b].
Proof.
  intros Hd Hb Hf. revert l Hd Hf; induction fuel as [|fuel IH]; intros l Hd Hf; [lia|].
  assert (0 < of_le (l ++ [b])) as Hpos.
  { rewrite of_le_app. cbn [of_le]. apply bytes_ok_app in Hd as [Hl _]. pose proof (of_le_bound l Hl).
    assert (0 < 2 ^ (8 * Z.of_nat (length l))) by (apply Z.pow_pos_nonneg; lia). nia. }
  cbn [magnitude_loop]. destruct (Z.ltb_spec 0 (of_le (l ++ [b]))); [|lia].
  rewrite land_ff, Z.shiftr_div_pow2 by lia. change (2 ^ 8) with 256.
  destruct l as [|x l]; cbn [app of_le length] in *.
  - rewrite Z.mul_0_r, Z.add_0_r in *. inversion Hd; subst. int_unfold. rewrite Z.mod_small, Z.div_small by lia.
    by destruct fuel.
  - inversion Hd as [|? ? Hx Hd']; subst. int_unfold.
    rewrite (Z.mul_comm 256), Z.mod_add, Z.mod_small, Z.div_add, Z.div_small, Z.add_0_l by lia.
    f_equal. apply IH; [done|lia].
Qed.

Lemma last_app_single {A} (l : list A) b : last (l ++ [b]) = Some b.
Proof. apply last_snoc. Qed.

Lemma insert_last (l : bytes) b x : <[(length (l ++ [b]) - 1)%nat := x]> (l ++ [b]) = l ++ [x].
Proof.
  rewrite length_app. simpl. replace (length l + 1 - 1)%nat with (length l + 0)%nat by lia.
  by rewrite insert_app_r.
Qed.

(** The encoding of a non-zero number, from its magnitude bytes. *)
Lemma encode_shape v l b : v <> 0 -> magnitude_loop 8 (Z.abs v) = l ++ [b] -> u8_ok b ->
  ScriptNum_encode v =
    if b <? 128 then l ++ [if v <? 0 then b + 128 else b]
    else (l ++ [b]) ++ [if v <? 0 then 0x80 else 0x00].
Proof.
  intros Hv E Hb. unfold ScriptNum_encode. destruct (Z.eqb_spec v 0); [done|].
  rewrite E, last_app_single, land_bit7, insert_last, idx_last by done.
  int_unfold. destruct (Z.ltb_spec b 128); cbn [negb]; [|done]. rewrite lor_bit7 by lia. by destruct (v <? 0).
Qed.

Lemma encode_spec v : - 2 ^ 55 < v < 2 ^ 55 ->
  bytes_ok (ScriptNum_encode v) /\ (length (ScriptNum_encode v) <= 7)%nat /\
  decode_unchecked (ScriptNum_encode v) = v /\ is_minimally_encoded (ScriptNum_encode v) = true.
Proof.
  intros Hv. destruct (decide (v = 0)) as [->|Hv0]; [split_and!; [constructor|simpl; lia|done|done]|].
  destruct (magnitude_loop_spec 8 (Z.abs v)) as (E & O & L & Ht); [change (2 ^ (8 * Z.of_nat 8)) with (2 ^ 64); lia|].
  destruct Ht as (l & b & Em & Hb); [lia|]. rewrite Em in *.
  pose proof O as [Ol Ob]%bytes_ok_app. assert (u8_ok b) as Hb8 by (by inversion Ob).
  rewrite (encode_shape v l b Hv0 Em Hb8). rewrite of_le_app in E. cbn [of_le] in E.
  pose proof (of_le_bound l Ol) as Bl. set (p := 2 ^ (8 * Z.of_nat (length l))) in *.
  assert (p * b <= Z.abs v) as Hle by lia. int_unfold.
  destruct (Z.ltb_spec b 128).
  - assert (length l <= 6)%nat as L6.
    { destruct (Nat.le_gt_cases (length l) 6) as [|Hgt]; [done|]. exfalso.
      assert (2 ^ 56 <= p) by (apply Z.pow_le_mono_r; lia). nia. }
    assert (bytes_ok (l ++ [if v <? 0 then b + 128 else b])) as Hok.
    { apply bytes_ok_app. split; [done|]. constructor; [|constructor]. int_unfold. destruct (v <? 0); lia. }
    split_and!; [done|rewrite length_app; simpl; lia| |].
    + rewrite decode_unchecked_value by done. unfold sm_value. fold p.
      destruct (Z.ltb_spec v 0); [destruct (Z.ltb_spec (b + 128) 128); [lia|]|destruct (Z.ltb_spec b 128); [|lia]].
      * replace (b + 128 - 128) with b by lia. lia.
      * lia.
    + unfold is_minimally_encoded. rewrite last_app_single, land_low7 by (int_unfold; destruct (v <? 0); lia).
      destruct (_ || _) eqn:Hz; [|done]. exfalso. apply orb_true_iff in Hz. destruct (v <? 0); lia.
  - assert (length l <= 5)%nat as L5.
    { destruct (Nat.le_gt_cases (length l) 5) as [|Hgt]; [done|]. exfalso.
      assert (2 ^ 48 <= p) by (apply Z.pow_le_mono_r; lia). nia. }
    assert (bytes_ok ((l ++ [b]) ++ [if v <? 0 then 0x80 else 0x00])) as Hok.
    { apply bytes_ok_app. split; [done|]. constructor; [|constructor]. int_unfold. destruct (v <? 0); lia. }
    assert (length (l ++ [b]) = S (length l)) as Ll by (rewrite length_app; simpl; lia).
    split_and!; [done|rewrite length_app; simpl; lia| |].
    + rewrite decode_unchecked_value by (done || lia). unfold sm_value.
      rewrite of_le_app. cbn [of_le]. fold p. destruct (Z.ltb_spec v 0).
      * change (128 <? 128) with false. cbv iota. rewrite Z.sub_diag. lia.
      * change (0 <? 128) with true. cbv iota. lia.
    + unfold is_minimally_encoded. rewrite last_app_single, land_low7 by (int_unfold; destruct (v <? 0); lia).
      assert ((((if v <? 0 then 0x80 else 0x00) =? 0) || ((if v <? 0 then 0x80 else 0x00) =? 128)) = true) as -> by (by destruct (v <? 0)).
      rewrite length_app, Ll. simpl length. apply andb_true_iff. split; [by apply Nat.ltb_lt; lia|].
      rewrite app_nth1 by lia. replace (S (length l) + 1 - 2)%nat with (length (l ++ [b]) - 1)%nat by lia.
      rewrite idx_last, land_bit7 by done. by destruct (Z.ltb_spec b 128); [lia|].
Qed.

Lemma snoc_cases {A} (l : list A) : l = [] \/ exists k x, l = k ++ [x].
Proof. destruct l as [|x l _] using rev_ind; [by left|right; eauto]. Qed.

(** A sign-only top byte sits above a byte whose high bit is taken. *)
Lemma sign_byte_below l b : bytes_ok l ->
  (1 <? length (l ++ [b]))%nat && negb (Z.land (idx (l ++ [b]) (length (l ++ [b]) - 2)) 0x80 =? 0) = true ->
  exists k c, l = k ++ [c] /\ u8_ok c /\ 128 <= c /\ 0 < of_le l.
Proof.
  intros Ol [H1 H2]%andb_true_iff. destruct (snoc_cases l) as [->|(k & c & ->)]; [done|].
  exists k, c. split; [done|].
  rewrite (app_nth1 (k ++ [c])), length_app in H2 by (rewrite !length_app; simpl; lia). simpl in H2.
  replace (length (k ++ [c]) + 1 - 2)%nat with (length (k ++ [c]) - 1)%nat in H2 by lia.
  pose proof Ol as [Ok Oc]%bytes_ok_app. assert (u8_ok c) as Hc by (by inversion Oc).
  rewrite idx_last, land_bit7 in H2 by done. destruct (Z.ltb_spec c 128); [done|].
  split_and!; [done|done|]. rewrite of_le_app. cbn [of_le]. pose proof (of_le_bound k Ok).
  assert (0 < 2 ^ (8 * Z.of_nat (length k))) by (apply Z.pow_pos_nonneg; lia). nia.
Qed.

Lemma encode_decode d : bytes_ok d -> (length d <= 7)%nat -> is_minimally_encoded d = true ->
  ScriptNum_encode (decode_unchecked d) = d.
Proof.
  intros Hd Hl Hm. destruct (snoc_cases d) as [->|(l & b & ->)]; [done|].
  rewrite length_app in Hl. simpl in Hl. pose proof Hd as [Ol Ob]%bytes_ok_app. assert (u8_ok b) as Hb by (by inversion Ob).
  rewrite decode_unchecked_value by (done || lia). pose proof (of_le_bound l Ol) as Bl.
  unfold is_minimally_encoded in Hm. rewrite last_app_single, land_low7 in Hm by done.
  assert (0 < 2 ^ (8 * Z.of_nat (length l))) by (apply Z.pow_pos_nonneg; lia).
  unfold sm_value. int_unfold. destruct (Z.ltb_spec b 128) as [Hlt|Hge].
  - destruct (decide (b = 0)) as [->|Hb0].
    + destruct (sign_byte_below l 0 Ol Hm) as (k & c & -> & Hc & Hc8 & Hpos). rewrite length_app in Hl. simpl in Hl.
      rewrite Z.mul_0_r, Z.add_0_r.
      rewrite (encode_shape _ k c) by (done || lia || (rewrite Z.abs_eq by lia; apply magnitude_loop_unique; [done|lia|lia])).
      destruct (Z.ltb_spec c 128); [lia|]. by destruct (Z.ltb_spec (of_le (k ++ [c])) 0); [lia|].
    + assert (of_le (l ++ [b]) = of_le l + 2 ^ (8 * Z.of_nat (length l)) * b) as E by (rewrite of_le_app; cbn [of_le]; ring).
      rewrite <- E. rewrite (encode_shape _ l b); [| |rewrite Z.abs_eq by nia; apply magnitude_loop_unique; [done|lia|lia]|done]; [|nia].
      destruct (Z.ltb_spec b 128); [|lia]. by destruct (Z.ltb_spec (of_le (l ++ [b])) 0); [nia|].
  - destruct (decide (b = 128)) as [->|Hb1].
    + destruct (sign_byte_below l 128 Ol Hm) as (k & c & -> & Hc & Hc8 & Hpos). rewrite length_app in Hl. simpl in Hl.
      rewrite Z.mul_0_r, Z.add_0_r.
      rewrite (encode_shape _ k c) by (done || lia || (rewrite Z.abs_neq, Z.opp_involutive by lia; apply magnitude_loop_unique; [done|lia|lia])).
      destruct (Z.ltb_spec c 128); [lia|]. by destruct (Z.ltb_spec (- of_le (k ++ [c])) 0); [|lia].
    + set (b' := b - 128). assert (bytes_ok (l ++ [b'])) as Hd' by (apply bytes_ok_app; split; [done|constructor; [int_unfold; lia|constructor]]).
      assert (of_le (l ++ [b']) = of_le l + 2 ^ (8 * Z.of_nat (length l)) * b') as E by (rewrite of_le_app; cbn [of_le]; ring).
      rewrite <- E. assert (0 < of_le (l ++ [b'])) by nia.
      rewrite (encode_shape _ l b'); [|lia|rewrite Z.abs_neq, Z.opp_involutive by lia; apply magnitude_loop_unique; [done|lia|lia]|int_unfold; lia].
      destruct (Z.ltb_spec b' 128); [|lia]. destruct (Z.ltb_spec (- of_le (l ++ [b'])) 0); [|lia].
      do 2 f_equal. lia.
Qed.

(** The four-byte operands of arithmetic are 32-bit sign-magnitude numbers. *)
Lemma decode_bound d n : bytes_ok d -> (length d <= n)%nat -> (1 <= n <= 7)%nat ->
  - 2 ^ (8 * Z.of_nat n - 1) < decode_unchecked d < 2 ^ (8 * Z.of_nat n - 1).
Proof.
  intros Hd Hl Hn. assert (0 < 2 ^ (8 * Z.of_nat n - 1)) by (apply Z.pow_pos_nonneg; lia).
  destruct (snoc_cases d) as [->|(l & b & ->)]; [cbn; lia|].
  rewrite length_app in Hl. simpl in Hl. pose proof Hd as [Ol Ob]%bytes_ok_app. assert (u8_ok b) as Hb by (by inversion Ob).
  rewrite decode_unchecked_value by (done || lia). pose proof (of_le_bound l Ol) as Bl. int_unfold.
  assert (2 ^ (8 * Z.of_nat (length l)) * 2 ^ 7 <= 2 ^ (8 * Z.of_nat n - 1))
    by (rewrite <- Z.pow_add_r by lia; apply Z.pow_le_mono_r; lia).
  unfold sm_value. destruct (Z.ltb_spec b 128); nia.
Qed.

(** Script numbers round trip in both directions: every value of up to 55
    magnitude bits decodes from its encoding, which is minimal; and every
    minimal byte string of up to seven bytes is the encoding of its value. *)
Lemma scriptnum_roundtrip :
  (forall v, - 2 ^ 55 < v < 2 ^ 55 -> ScriptNum_decode (ScriptNum_encode v) true 7 = Ok v) /\
  (forall d v, bytes_ok d -> ScriptNum_decode d true 7 = Ok v -> ScriptNum_encode v = d).
Proof.
  split.
  - intros v Hv. destruct (encode_spec v Hv) as (_ & L & E & M). unfold ScriptNum_decode.
    destruct (Nat.ltb_spec 7 (length (ScriptNum_encode v))); [lia|]. by rewrite M, E.
  - intros d v Hd. unfold ScriptNum_decode. destruct (Nat.ltb_spec 7 (length d)); [done|].
    destruct (is_minimally_encoded d) eqn:M; [|done]. intros [= <-]. by apply encode_decode.
Qed.

Lemma cast_loop_cons x l : l <> [] -> cast_loop (x :: l) = if negb (x =? 0) then true else cast_loop l.
Proof. by destruct l. Qed.

Lemma cast_loop_snoc l b : bytes_ok l ->
  cast_loop (l ++ [b]) = negb (of_le l =? 0) || (negb (b =? 0) && negb (b =? 128)).
Proof.
  induction 1 as [|x l Hx Hl IH]; [done|]. cbn [app of_le].
  rewrite cast_loop_cons by (by destruct l).
  pose proof (of_le_bound l Hl). int_unfold. destruct (Z.eqb_spec x 0) as [->|Hx0]; cbn [negb].
  - rewrite IH. f_equal. f_equal. destruct (Z.eqb_spec (of_le l) 0), (Z.eqb_spec (0 + 256 * of_le l) 0); lia || done.
  - destruct (Z.eqb_spec (x + 256 * of_le l) 0); [lia|done].
Qed.

(** A stack element is true exactly when the number it denotes is not zero;
    in particular every encoding of negative zero is false. *)
Lemma cast_to_bool_nonzero (d : bytes) : bytes_ok d -> (length d <= 7)%nat ->
  cast_to_bool d = negb (decode_unchecked d =? 0).
Proof.
  intros Hd Hl. destruct (snoc_cases d) as [->|(l & b & ->)]; [done|]. unfold cast_to_bool.
  rewrite length_app in Hl. simpl in Hl. pose proof Hd as [Ol Ob]%bytes_ok_app. assert (u8_ok b) as Hb by (by inversion Ob).
  rewrite cast_loop_snoc, decode_unchecked_value by (done || lia). pose proof (of_le_bound l Ol) as Bl. int_unfold.
  assert (0 < 2 ^ (8 * Z.of_nat (length l))) by (apply Z.pow_pos_nonneg; lia).
  unfold sm_value. destruct (Z.eqb_spec (of_le l) 0) as [->|H0]; cbn [negb orb].
  - destruct (Z.ltb_spec b 128); [destruct (Z.eqb_spec b 0), (Z.eqb_spec b 128)|destruct (Z.eqb_spec b 128), (Z.eqb_spec b 0)];
      cbn [negb andb]; symmetry; rewrite ?negb_true_iff, ?negb_false_iff, ?Z.eqb_eq, ?Z.eqb_neq; nia.
  - symmetry. apply negb_true_iff, Z.eqb_neq. destruct (Z.ltb_spec b 128); nia.
Qed.

Lemma cast_to_bool_witness : cast_to_bool [0; 1] = negb (decode_unchecked [0; 1] =? 0).
Proof.
  apply (cast_to_bool_nonzero [0; 1]); [|simpl; lia]. repeat constructor; vm_compute; discriminate.
Defined.
