(* ===== verification/ScriptOps.v ===== *)
(** * Script structure (crates/script/opcode.rs, flags.rs, script_ops.rs)

    Opcodes, verification flags, the instruction iterator of [CScript::GetOp],
    data pushes, witness programs and [FindAndDelete]. *)

From S2P Require Import Prelude ScriptNum.

(** ** Opcodes (opcode.rs): a newtype over [u8] *)

Definition OP_0 : Z := 0x00.
Definition OP_PUSHDATA1 : Z := 0x4c.
Definition OP_PUSHDATA2 : Z := 0x4d.
Definition OP_PUSHDATA4 : Z := 0x4e.
Definition OP_1NEGATE : Z := 0x4f.
Definition OP_1 : Z := 0x51.
Definition OP_16 : Z := 0x60.
Definition OP_NOP : Z := 0x61.
Definition OP_IF : Z := 0x63.
Definition OP_NOTIF : Z := 0x64.
Definition OP_ELSE : Z := 0x67.
Definition OP_ENDIF : Z := 0x68.
Definition OP_VERIFY : Z := 0x69.
Definition OP_RETURN : Z := 0x6a.
Definition OP_TOALTSTACK : Z := 0x6b.
Definition OP_FROMALTSTACK : Z := 0x6c.
Definition OP_2DROP : Z := 0x6d.
Definition OP_2DUP : Z := 0x6e.
Definition OP_3DUP : Z := 0x6f.
Definition OP_2OVER : Z := 0x70.
Definition OP_2ROT : Z := 0x71.
Definition OP_2SWAP : Z := 0x72.
Definition OP_IFDUP : Z := 0x73.
Definition OP_DEPTH : Z := 0x74.
Definition OP_DROP : Z := 0x75.
Definition OP_DUP : Z := 0x76.
Definition OP_NIP : Z := 0x77.
Definition OP_OVER : Z := 0x78.
Definition OP_PICK : Z := 0x79.
Definition OP_ROLL : Z := 0x7a.
Definition OP_ROT : Z := 0x7b.
Definition OP_SWAP : Z := 0x7c.
Definition OP_TUCK : Z := 0x7d.
Definition OP_CAT : Z := 0x7e.
Definition OP_SUBSTR : Z := 0x7f.
Definition OP_LEFT : Z := 0x80.
Definition OP_RIGHT : Z := 0x81.
Definition OP_SIZE : Z := 0x82.
Definition OP_INVERT : Z := 0x83.
Definition OP_AND : Z := 0x84.
Definition OP_OR : Z := 0x85.
Definition OP_XOR : Z := 0x86.
Definition OP_EQUAL : Z := 0x87.
Definition OP_EQUALVERIFY : Z := 0x88.
Definition OP_1ADD : Z := 0x8b.
Definition OP_1SUB : Z := 0x8c.
Definition OP_2MUL : Z := 0x8d.
Definition OP_2DIV : Z := 0x8e.
Definition OP_NEGATE : Z := 0x8f.
Definition OP_ABS : Z := 0x90.
Definition OP_NOT : Z := 0x91.
Definition OP_0NOTEQUAL : Z := 0x92.
Definition OP_ADD : Z := 0x93.
Definition OP_SUB : Z := 0x94.
Definition OP_MUL : Z := 0x95.
Definition OP_DIV : Z := 0x96.
Definition OP_MOD : Z := 0x97.
Definition OP_LSHIFT : Z := 0x98.
Definition OP_RSHIFT : Z := 0x99.
Definition OP_BOOLAND : Z := 0x9a.
Definition OP_BOOLOR : Z := 0x9b.
Definition OP_NUMEQUAL : Z := 0x9c.
Definition OP_NUMEQUALVERIFY : Z := 0x9d.
Definition OP_NUMNOTEQUAL : Z := 0x9e.
Definition OP_LESSTHAN : Z := 0x9f.
Definition OP_GREATERTHAN : Z := 0xa0.
Definition OP_LESSTHANOREQUAL : Z := 0xa1.
Definition OP_GREATERTHANOREQUAL : Z := 0xa2.
Definition OP_MIN : Z := 0xa3.
Definition OP_MAX : Z := 0xa4.
Definition OP_WITHIN : Z := 0xa5.
Definition OP_RIPEMD160 : Z := 0xa6.
Definition OP_SHA1 : Z := 0xa7.
Definition OP_SHA256 : Z := 0xa8.
Definition OP_HASH160 : Z := 0xa9.
Definition OP_HASH256 : Z := 0xaa.
Definition OP_CODESEPARATOR : Z := 0xab.
Definition OP_CHECKSIG : Z := 0xac.
Definition OP_CHECKSIGVERIFY : Z := 0xad.
Definition OP_CHECKMULTISIG : Z := 0xae.
Definition OP_CHECKMULTISIGVERIFY : Z := 0xaf.
Definition OP_NOP1 : Z := 0xb0.
Definition OP_CHECKLOCKTIMEVERIFY : Z := 0xb1.
Definition OP_CHECKSEQUENCEVERIFY : Z := 0xb2.
Definition OP_NOP4 : Z := 0xb3.
Definition OP_NOP10 : Z := 0xb9.

Definition is_push (op : Z) : bool := op <=? OP_16.
Definition counts_towards_op_limit (op : Z) : bool := OP_16 <? op.

Definition is_disabled (op : Z) : bool :=
  existsb (Z.eqb op)
    [OP_CAT; OP_SUBSTR; OP_LEFT; OP_RIGHT; OP_INVERT; OP_AND; OP_OR; OP_XOR; OP_2MUL; OP_2DIV;
     OP_MUL; OP_DIV; OP_MOD; OP_LSHIFT; OP_RSHIFT].

Definition decode_op_n (op : Z) : option Z :=
  if op =? OP_0 then Some 0
  else if op =? OP_1NEGATE then Some (-1)
  else if (OP_1 <=? op) && (op <=? OP_16) then Some (op - (OP_1 - 1))
  else None.

(** ** Flags (flags.rs) *)

Abbreviation VerifyFlags := Z (only parsing).
Definition FLAG_P2SH : Z := Z.shiftl 1 0.
Definition FLAG_STRICTENC : Z := Z.shiftl 1 1.
Definition FLAG_DERSIG : Z := Z.shiftl 1 2.
Definition FLAG_LOW_S : Z := Z.shiftl 1 3.
Definition FLAG_NULLDUMMY : Z := Z.shiftl 1 4.
Definition FLAG_SIGPUSHONLY : Z := Z.shiftl 1 5.
Definition FLAG_MINIMALDATA : Z := Z.shiftl 1 6.
Definition FLAG_DISCOURAGE_UPGRADABLE_NOPS : Z := Z.shiftl 1 7.
Definition FLAG_CLEANSTACK : Z := Z.shiftl 1 8.
Definition FLAG_CHECKLOCKTIMEVERIFY : Z := Z.shiftl 1 9.
Definition FLAG_CHECKSEQUENCEVERIFY : Z := Z.shiftl 1 10.
Definition FLAG_WITNESS : Z := Z.shiftl 1 11.
Definition FLAG_DISCOURAGE_UPGRADABLE_WITNESS_PROGRAM : Z := Z.shiftl 1 12.
Definition FLAG_MINIMALIF : Z := Z.shiftl 1 13.
Definition FLAG_NULLFAIL : Z := Z.shiftl 1 14.
Definition FLAG_WITNESS_PUBKEYTYPE : Z := Z.shiftl 1 15.
Definition FLAG_CONST_SCRIPTCODE : Z := Z.shiftl 1 16.
Definition FLAG_TAPROOT : Z := Z.shiftl 1 17.
Definition FLAG_DISCOURAGE_UPGRADABLE_TAPROOT_VERSION : Z := Z.shiftl 1 18.
Definition FLAG_DISCOURAGE_OP_SUCCESS : Z := Z.shiftl 1 19.
Definition FLAG_DISCOURAGE_UPGRADABLE_PUBKEYTYPE : Z := Z.shiftl 1 20.

Definition flags_union (a b : VerifyFlags) : VerifyFlags := Z.lor a b.
Definition CONSENSUS_SEGWIT : VerifyFlags :=
  Z.lor (Z.lor (Z.lor (Z.lor (Z.lor FLAG_P2SH FLAG_DERSIG) FLAG_NULLDUMMY)
    FLAG_CHECKLOCKTIMEVERIFY) FLAG_CHECKSEQUENCEVERIFY) FLAG_WITNESS.
Definition CONSENSUS_TAPROOT : VerifyFlags := Z.lor CONSENSUS_SEGWIT FLAG_TAPROOT.

(** [VerifyFlags::contains] *)
Definition flag (flags other : VerifyFlags) : bool := Z.land flags other =? other.

(** ** Instructions (script_ops.rs) *)

Record Instruction : Type := mkInstruction {
  offset : nat;
  opcode : Z;
  data : bytes;
  next : nat;
}.

(** [Iterator::next] at position [pos]; on an error the iterator moves to the
    end of the script. *)
Definition next_instruction (script : bytes) (pos : nat) : option (ScriptResult Instruction) :=
  if (length script <=? pos)%nat then None else
  let opcode_byte := idx script pos in
  let cursor := S pos in
  if opcode_byte <=? OP_PUSHDATA4 then
    let size_len := if opcode_byte <? OP_PUSHDATA1 then 0%nat
      else if opcode_byte =? OP_PUSHDATA1 then 1%nat
      else if opcode_byte =? OP_PUSHDATA2 then 2%nat
      else 4%nat in
    if (length script - cursor <? size_len)%nat then Some (Err BadOpcode) else
    let len := if opcode_byte <? OP_PUSHDATA1 then Z.to_nat opcode_byte
      else Z.to_nat (of_le (slice script cursor (cursor + size_len))) in
    let cursor := (cursor + size_len)%nat in
    if (length script - cursor <? len)%nat then Some (Err BadOpcode)
    else Some (Ok (mkInstruction pos opcode_byte (slice script cursor (cursor + len)) (cursor + len)))
  else Some (Ok (mkInstruction pos opcode_byte [] cursor)).

(** The items the iterator yields from [pos] on. *)
Fixpoint instructions_from (fuel : nat) (script : bytes) (pos : nat) : list (ScriptResult Instruction) :=
  match fuel with
  | O => []
  | S fuel =>
    match next_instruction script pos with
    | None => []
    | Some (Err e) => [Err e]
    | Some (Ok i) => Ok i :: instructions_from fuel script (next i)
    end
  end.
Definition instructions (script : bytes) : list (ScriptResult Instruction) :=
  instructions_from (length script) script 0.

Definition is_push_only (script : bytes) : bool :=
  forallb (fun r => match r with Ok i => is_push (opcode i) | Err _ => false end) (instructions script).

Definition is_pay_to_script_hash (script : bytes) : bool :=
  (length script =? 23)%nat && (idx script 0 =? OP_HASH160) && (idx script 1 =? 0x14) &&
  (idx script 22 =? OP_EQUAL).

Record WitnessProgram : Type := mkWitnessProgram { wp_version : Z; program : bytes }.

Definition parse_witness_program (script : bytes) : option WitnessProgram :=
  if (length script <? 4)%nat || (42 <? length script)%nat then None else
  let version_byte := idx script 0 in
  if negb (version_byte =? OP_0) && negb ((OP_1 <=? version_byte) && (version_byte <=? OP_16)) then None else
  if negb (Z.to_nat (idx script 1) + 2 =? length script)%nat then None else
  let version := if version_byte =? OP_0 then 0 else version_byte - (OP_1 - 1) in
  Some (mkWitnessProgram version (drop 2 script)).

(** [while pos + signature_push.len() <= script.len()]; [None] is running out
    of fuel. *)
Fixpoint find_loop (fuel : nat) (script sp : bytes) (res : bytes) (found last_kept pos : nat)
    : option (bytes * nat) :=
  if (pos + length sp <=? length script)%nat then
    match fuel with
    | O => None
    | S fuel =>
      if bool_decide (slice script pos (pos + length sp) = sp) then
        find_loop fuel script sp (res ++ slice script last_kept pos) (S found)
          (pos + length sp) (pos + length sp)
      else
        match next_instruction (drop pos script) 0 with
        | Some (Ok i) => find_loop fuel script sp res found last_kept (pos + next i)
        | _ => Some (res ++ drop last_kept script, found)
        end
    end
  else Some (res ++ drop last_kept script, found).

Definition find_and_delete (script signature_push : bytes) : bytes * nat :=
  if (length signature_push =? 0)%nat || (length script <? length signature_push)%nat then (script, 0%nat)
  else default (script, 0%nat) (find_loop (length script) script signature_push [] 0 0 0).

Definition contains_codeseparator (script : bytes) : bool :=
  existsb (fun r => match r with Ok i => opcode i =? OP_CODESEPARATOR | Err _ => false end) (instructions script).

(** What [push_data] writes before the payload. *)
Definition push_prefix (len : nat) : bytes :=
  if (len <? Z.to_nat OP_PUSHDATA1)%nat then [wrap_u 8 (Z.of_nat len)]
  else if (len <=? 0xff)%nat then [OP_PUSHDATA1; wrap_u 8 (Z.of_nat len)]
  else if (Z.of_nat len <=? 0xffff) then OP_PUSHDATA2 :: le_bytes 2 (wrap_u 16 (Z.of_nat len))
  else OP_PUSHDATA4 :: le_bytes 4 (wrap_u 32 (Z.of_nat len)).
Definition push_data (script d : bytes) : bytes := script ++ push_prefix (length d) ++ d.

Definition check_minimal_push (d : bytes) (op : Z) : bool :=
  if (length d =? 0)%nat then op =? OP_0
  else if (length d =? 1)%nat && ((1 <=? idx d 0) && (idx d 0 <=? 16)) then op =? OP_1 + idx d 0 - 1
  else if (length d =? 1)%nat && (idx d 0 =? 0x81) then op =? OP_1NEGATE
  else if (length d <=? 75)%nat then (Z.to_nat op =? length d)%nat
  else if (length d <=? 255)%nat then op =? OP_PUSHDATA1
  else if (Z.of_nat (length d) <=? 65535) then op =? OP_PUSHDATA2
  else true.

Example find_example : find_and_delete [2; 0xde; 0xad; OP_DUP; 2; 0xde; 0xad] [2; 0xde; 0xad] = ([OP_DUP], 2%nat).
Proof. vm_compute. reflexivity. Qed.
Example instructions_example : instructions [2; 1; 2; OP_DUP] =
  [Ok (mkInstruction 0 2 [1; 2] 3); Ok (mkInstruction 3 OP_DUP [] 4)].
Proof. vm_compute. reflexivity. Qed.

(** ** The iterator *)

Lemma next_instruction_ok script pos i : next_instruction script pos = Some (Ok i) ->
  offset i = pos /\ (pos < next i <= length script)%nat /\ opcode i = idx script pos /\
  (exists k, data i = slice script k (next i) /\ (k <= next i)%nat) /\
  next_instruction script pos <> None.
Proof.
  unfold next_instruction. destruct (Nat.leb_spec (length script) pos); [done|].
  destruct (_ <=? OP_PUSHDATA4).
  - set (sl := if idx script pos <? OP_PUSHDATA1 then 0%nat else _).
    destruct (Nat.ltb_spec (length script - S pos) sl); [done|].
    set (len := if idx script pos <? OP_PUSHDATA1 then _ else _).
    destruct (Nat.ltb_spec (length script - (S pos + sl)) len); [done|].
    intros [= <-]. cbn [offset next opcode data]. split_and!; try done; try lia.
    exists (S pos + sl)%nat. split; [done|lia].
  - intros [= <-]. cbn [offset next opcode data]. split_and!; try done; try lia.
    exists (S pos). split; [|lia]. unfold slice. by rewrite Nat.sub_diag.
Qed.

Lemma instructions_from_fuel fuel fuel' script pos :
  (length script - pos <= fuel)%nat -> (length script - pos <= fuel')%nat ->
  instructions_from fuel script pos = instructions_from fuel' script pos.
Proof.
  assert (forall n f f' p, (length script - p <= n)%nat -> (n <= f)%nat -> (n <= f')%nat ->
    instructions_from f script p = instructions_from f' script p) as H.
  { induction n as [|n IH]; intros f f' p Hp Hf Hf'.
    - assert (next_instruction script p = None) as E.
      { unfold next_instruction. destruct (Nat.leb_spec (length script) p); [done|lia]. }
      destruct f, f'; cbn; by rewrite ?E.
    - destruct f, f'; [lia..|]. cbn [instructions_from].
      destruct (next_instruction script p) as [[i|e]|] eqn:E; [|done|done].
      apply next_instruction_ok in E as (_ & Hn & _). f_equal. apply IH; lia. }
  intros. eapply (H (length script - pos)%nat); lia.
Qed.

(** The unfolding equation of the iterator, free of fuel. *)
Definition instructions_at (script : bytes) (pos : nat) := instructions_from (length script - pos) script pos.

Lemma instructions_at_eq script pos :
  instructions_at script pos =
  match next_instruction script pos with
  | None => []
  | Some (Err e) => [Err e]
  | Some (Ok i) => Ok i :: instructions_at script (next i)
  end.
Proof.
  unfold instructions_at. destruct (next_instruction script pos) as [[i|e]|] eqn:E.
  - pose proof (next_instruction_ok _ _ _ E) as (_ & Hn & _).
    rewrite (instructions_from_fuel _ (S (length script - pos))) by lia. cbn [instructions_from]. rewrite E. f_equal.
    apply instructions_from_fuel; lia.
  - rewrite (instructions_from_fuel _ (S (length script - pos))) by lia. cbn [instructions_from]. by rewrite E.
  - destruct (length script - pos)%nat; [done|]. cbn [instructions_from]. by rewrite E.
Qed.

Lemma instructions_at_0 script : instructions script = instructions_at script 0.
Proof. unfold instructions, instructions_at. by rewrite Nat.sub_0_r. Qed.

(** The instructions parsed, when there is no error. *)
Definition parsed (l : list (ScriptResult Instruction)) : list Instruction := omap res_ok l.
Definition no_error (l : list (ScriptResult Instruction)) : Prop := Forall (fun r => is_ok r = true) l.

Lemma parsed_ok i l : parsed (Ok i :: l) = i :: parsed l.
Proof. done. Qed.

Lemma instructions_at_ind (P : nat -> list (ScriptResult Instruction) -> Prop) script :
  (forall pos, next_instruction script pos = None -> P pos []) ->
  (forall pos e, next_instruction script pos = Some (Err e) -> P pos [Err e]) ->
  (forall pos i, next_instruction script pos = Some (Ok i) ->
     P (next i) (instructions_at script (next i)) -> P pos (Ok i :: instructions_at script (next i))) ->
  forall pos, P pos (instructions_at script pos).
Proof.
  intros H0 H1 H2 pos. remember (length script - pos)%nat as n eqn:En. revert pos En.
  induction n as [n IH] using lt_wf_ind. intros pos ->. rewrite instructions_at_eq.
  destruct (next_instruction script pos) as [[i|e]|] eqn:E; [|by apply H1|by apply H0].
  apply H2; [done|]. pose proof (next_instruction_ok _ _ _ E) as (_ & Hn & _).
  eapply IH; [|reflexivity]. lia.
Qed.

Lemma no_error_cover script pos : (pos <= length script)%nat -> no_error (instructions_at script pos) ->
  concat (map (fun i => slice script (offset i) (next i)) (parsed (instructions_at script pos))) = drop pos script.
Proof.
  revert pos. apply (instructions_at_ind (fun pos l => (pos <= length script)%nat -> no_error l ->
    concat (map (fun i => slice script (offset i) (next i)) (parsed l)) = drop pos script)).
  - intros pos E Hp _. unfold next_instruction in E. destruct (Nat.leb_spec (length script) pos) as [Hle|].
    + by rewrite drop_ge.
    + destruct (_ <=? _); [|done]. repeat (destruct (_ <? _)%nat; try done).
  - intros pos e _ _ He. inversion He; done.
  - intros pos i E IH Hp He. pose proof (next_instruction_ok _ _ _ E) as (Ho & Hn & _).
    rewrite parsed_ok. cbn [map concat]. apply Forall_cons in He as [_ He].
    rewrite IH by (done || lia). rewrite Ho. symmetry. apply drop_slice. lia.
Qed.

(** ** Pushes *)

Definition push_opcode (len : nat) : Z := idx (push_prefix len) 0.

Lemma length_push_prefix n : length (push_prefix n) =
  (if (n <? 76)%nat then 1 else if (n <=? 0xff)%nat then 2 else if (Z.of_nat n <=? 0xffff)%Z then 3 else 5)%nat.
Proof.
  unfold push_prefix. change (Z.to_nat OP_PUSHDATA1) with 76%nat.
  destruct (_ <? _)%nat; [done|]. destruct (_ <=? _)%nat; [done|].
  destruct (_ <=? _); cbn [length]; by rewrite length_le_bytes.
Qed.

Lemma slice_app_mid {A} (pre l post : list A) n m : n = length pre -> m = (length pre + length l)%nat ->
  slice (pre ++ l ++ post) n m = l.
Proof. intros -> ->. unfold slice. rewrite drop_app_length. apply take_app_eq. lia. Qed.

Lemma slice_behind_head {A} (pre l post : list A) n : length l = S n ->
  slice (pre ++ l ++ post) (S (length pre)) (S (length pre) + n) = drop 1 l.
Proof.
  destruct l as [|x l]; [done|]. intros [= <-]. change (drop 1 (x :: l)) with l.
  replace (pre ++ (x :: l) ++ post) with ((pre ++ [x]) ++ l ++ post) by (by rewrite <- !app_assoc).
  apply slice_app_mid; rewrite length_app; simpl; lia.
Qed.

Definition size_width (op : Z) : nat :=
  if op <? OP_PUSHDATA1 then 0%nat
  else if op =? OP_PUSHDATA1 then 1%nat
  else if op =? OP_PUSHDATA2 then 2%nat
  else 4%nat.

(** An opcode, the bytes of its length field and its payload parse back. *)
Lemma next_instruction_shape pre op szb d post : (op <=? OP_PUSHDATA4) = true ->
  length szb = size_width op ->
  (if op <? OP_PUSHDATA1 then Z.to_nat op else Z.to_nat (of_le szb)) = length d ->
  next_instruction (pre ++ (op :: szb ++ d) ++ post) (length pre) =
  Some (Ok (mkInstruction (length pre) op d (length pre + S (length szb + length d)))).
Proof.
  intros Hop Hsz Hlen. set (s := pre ++ (op :: szb ++ d) ++ post).
  assert (length s = (length pre + S (length szb + length d) + length post)%nat) as Ls
    by (unfold s; rewrite !length_app; cbn [length]; rewrite length_app; lia).
  assert (idx s (length pre) = op) as Eo by (unfold s; by rewrite app_nth2, Nat.sub_diag by lia).
  assert (slice s (S (length pre)) (S (length pre) + length szb) = szb) as Es.
  { unfold s. replace ((op :: szb ++ d) ++ post) with ((op :: szb) ++ (d ++ post)) by (by rewrite <- !app_comm_cons, <- app_assoc).
    rewrite slice_behind_head; done. }
  assert (slice s (S (length pre) + length szb) (S (length pre) + length szb + length d) = d) as Ed.
  { unfold s. replace (pre ++ (op :: szb ++ d) ++ post) with ((pre ++ op :: szb) ++ d ++ post)
      by (rewrite <- !app_comm_cons, <- !app_assoc; by rewrite <- !app_comm_cons).
    apply slice_app_mid; rewrite length_app; cbn [length]; lia. }
  unfold next_instruction. rewrite Eo, Hop. fold (size_width op). rewrite <- Hsz, Es, Hlen.
  destruct (Nat.leb_spec (length s) (length pre)); [lia|].
  destruct (Nat.ltb_spec (length s - S (length pre)) (length szb)); [lia|].
  destruct (Nat.ltb_spec (length s - (S (length pre) + length szb)) (length d)); [lia|].
  rewrite Ed. do 3 f_equal. lia.
Qed.

Lemma push_prefix_shape n : Z.of_nat n < 2 ^ 32 -> exists szb,
  push_prefix n = push_opcode n :: szb /\ (push_opcode n <=? OP_PUSHDATA4) = true /\
  length szb = size_width (push_opcode n) /\
  (if push_opcode n <? OP_PUSHDATA1 then Z.to_nat (push_opcode n) else Z.to_nat (of_le szb)) = n.
Proof.
  intros Hn. unfold push_opcode, push_prefix. change (Z.to_nat OP_PUSHDATA1) with 76%nat.
  destruct (Nat.ltb_spec n 76); [|destruct (Nat.leb_spec n 255); [|destruct (Z.leb_spec (Z.of_nat n) 65535)]];
    cbn [nth]; rewrite wrap_u_small by lia; eexists; (split; [reflexivity|]).
  - unfold size_width, OP_PUSHDATA1, OP_PUSHDATA4. destruct (Z.ltb_spec (Z.of_nat n) 0x4c); [|lia].
    split; [lia|]. split; [done|]. lia.
  - split; [done|]. split; [done|]. cbn. lia.
  - split; [done|]. split; [by rewrite length_le_bytes|]. cbn [OP_PUSHDATA2 OP_PUSHDATA1 Z.ltb Z.compare Pos.compare Pos.compare_cont].
    rewrite le_bytes_small by (simpl; lia). lia.
  - split; [done|]. split; [by rewrite length_le_bytes|]. cbn [OP_PUSHDATA4 OP_PUSHDATA1 Z.ltb Z.compare Pos.compare Pos.compare_cont].
    rewrite le_bytes_small by (simpl; lia). lia.
Qed.

Lemma next_instruction_push pre d post : Z.of_nat (length d) < 2 ^ 32 ->
  next_instruction (pre ++ push_data [] d ++ post) (length pre) =
  Some (Ok (mkInstruction (length pre) (push_opcode (length d)) d (length pre + length (push_data [] d)))).
Proof.
  intros Hd. unfold push_data. cbn [app]. destruct (push_prefix_shape (length d) Hd) as (szb & E & Hop & Hw & Hv).
  rewrite E at 1. rewrite <- app_comm_cons. rewrite next_instruction_shape by done.
  rewrite E, length_app. done.
Qed.

(** A data push parses back: the iterator reads [push_data] of any payload
    below [2^32] bytes as one push instruction carrying exactly that payload,
    and the result is push-only. *)
Lemma push_data_roundtrip (d : bytes) : Z.of_nat (length d) < 2 ^ 32 ->
  instructions (push_data [] d) =
    [Ok (mkInstruction 0 (push_opcode (length d)) d (length (push_data [] d)))] /\
  is_push_only (push_data [] d) = true.
Proof.
  intros Hd. pose proof (next_instruction_push [] d [] Hd) as E. cbn [app length Nat.add] in E. rewrite app_nil_r in E.
  assert (instructions (push_data [] d) =
    [Ok (mkInstruction 0 (push_opcode (length d)) d (length (push_data [] d)))]) as Ei.
  { rewrite instructions_at_0, instructions_at_eq, E. cbn [next]. f_equal.
    rewrite instructions_at_eq. unfold next_instruction. by rewrite (proj2 (Nat.leb_le _ _) (Nat.le_refl _)). }
  split; [done|]. unfold is_push_only. rewrite Ei. cbn [forallb opcode]. rewrite andb_true_r.
  destruct (push_prefix_shape (length d) Hd) as (_ & _ & Hop & _). unfold is_push, OP_16, OP_PUSHDATA4 in *. lia.
Qed.

Lemma push_data_roundtrip_witness :
  instructions (push_data [] (replicate 80 7)) = [Ok (mkInstruction 0 (push_opcode 80) (replicate 80 7) 82)] /\
  is_push_only (push_data [] (replicate 80 7)) = true.
Proof. apply (push_data_roundtrip (replicate 80 7)). reflexivity. Defined.

(** A script the iterator parses without error is exactly the
    concatenation of its instructions: nothing is skipped or read twice. *)
Lemma instructions_cover (script : bytes) : no_error (instructions script) ->
  concat (map (fun i => slice script (offset i) (next i)) (parsed (instructions script))) = script.
Proof. rewrite instructions_at_0. intros H. by rewrite no_error_cover by (done || lia). Qed.

Lemma instructions_cover_witness :
  concat (map (fun i => slice [2; 1; 2; OP_DUP] (offset i) (next i)) (parsed (instructions [2; 1; 2; OP_DUP])))
  = [2; 1; 2; OP_DUP].
Proof. apply (instructions_cover [2; 1; 2; OP_DUP]). repeat constructor. Defined.

Lemma find_loop_spec fuel script sp res found last_kept pos :
  (0 < length sp)%nat -> (length script - pos <= fuel)%nat -> (last_kept <= pos <= length script)%nat ->
  exists r n, find_loop fuel script sp res found last_kept pos = Some (r, n) /\
    (length r + n * length sp = length res + (length script - last_kept) + found * length sp)%nat /\
    (found <= n)%nat /\ (n = found -> r = res ++ drop last_kept script).
Proof.
  intros Hsp. revert res found last_kept pos; induction fuel as [|fuel IH]; intros res found lk pos Hf Hp;
    cbn [find_loop]; destruct (Nat.leb_spec (pos + length sp) (length script)) as [Hle|Hle]; try lia;
    try (exists (res ++ drop lk script), found; split_and!; [done|rewrite length_app, length_drop; lia|lia|done]).
  case_bool_decide as Hm.
  - destruct (IH (res ++ slice script lk pos) (S found) (pos + length sp)%nat (pos + length sp)%nat) as (r & n & E & Hl & Hn & _); [lia..|].
    exists r, n. split_and!; [done| |lia|lia]. rewrite Hl, length_app, length_slice by lia. lia.
  - destruct (next_instruction (drop pos script) 0) as [[i|e]|] eqn:E;
      try (exists (res ++ drop lk script), found; split_and!; [done|rewrite length_app, length_drop; lia|lia|done]).
    pose proof (next_instruction_ok _ _ _ E) as (_ & Hn & _). rewrite length_drop in Hn. apply IH; lia.
Qed.

(** [FindAndDelete] terminates on every script and only ever removes
    copies of the searched push: the lengths account for every byte, and a
    script without a match is returned unchanged. *)
Lemma find_and_delete_spec (script sp : bytes) :
  let '(r, found) := find_and_delete script sp in
  (length r + found * length sp = length script)%nat /\ (found = O -> r = script) /\
  (sp <> [] -> is_Some (find_loop (length script) script sp [] 0 0 0)).
Proof.
  unfold find_and_delete. destruct (Nat.eqb_spec (length sp) 0) as [E0|E0]; cbn [orb].
  { destruct sp; [|done]. split_and!; [simpl; lia|done|done]. }
  destruct (find_loop_spec (length script) script sp [] 0 0 0) as (r & n & E & Hl & _ & H0); [lia..|].
  destruct (Nat.ltb_spec (length script) (length sp)); [split_and!; [lia|done|rewrite E; eauto]|].
  rewrite E. cbn [default]. split_and!; [simpl in Hl; lia|intros ->; by apply H0|eauto].
Qed.

Definition witness_version_byte (v : Z) : Z := if v =? 0 then OP_0 else v + 0x50.

(** Witness programs are recognised exactly: a byte string parses as
    version [v] and program [p] if and only if it is the version opcode, the
    length byte and the 2 to 40 program bytes. *)
Lemma witness_program_shape (s : bytes) (v : Z) (p : bytes) : bytes_ok s ->
  parse_witness_program s = Some (mkWitnessProgram v p) <->
  s = witness_version_byte v :: Z.of_nat (length p) :: p /\ 0 <= v <= 16 /\ (2 <= length p <= 40)%nat.
Proof.
  intros Hs. unfold parse_witness_program. split.
  - destruct s as [|a [|b q]]; [done|done|]. cbn [length nth drop].
    destruct (Nat.ltb_spec (S (S (length q))) 4); [done|]. destruct (Nat.ltb_spec 42 (S (S (length q)))); [done|].
    cbn [orb]. destruct (_ && _) eqn:Hv; [done|]. destruct (Nat.eqb_spec (Z.to_nat b + 2) (S (S (length q)))) as [Hb|]; [|done].
    cbn [negb]. rewrite drop_0. intros [= <- <-]. apply Forall_cons in Hs as [_ Hs]. apply Forall_cons in Hs as [Hb8 _].
    int_unfold. unfold witness_version_byte, OP_0, OP_1, OP_16 in *. apply andb_false_iff in Hv.
    destruct (Z.eqb_spec a 0) as [->|Ha].
    + cbn. split; [do 2 f_equal; lia|lia].
    + destruct Hv as [Hv|Hv]; [cbn in Hv; congruence|]. apply negb_false_iff, andb_true_iff in Hv as [H1 H2].
      destruct (Z.eqb_spec (a - (0x51 - 1)) 0); [lia|]. split; [f_equal; [lia|f_equal; lia]|lia].
  - intros (-> & Hv & Hp). cbn [length nth]. destruct (Nat.ltb_spec (S (S (length p))) 4); [lia|].
    destruct (Nat.ltb_spec 42 (S (S (length p)))); [lia|]. cbn [orb]. rewrite Nat2Z.id.
    destruct (Nat.eqb_spec (length p + 2) (S (S (length p)))); [|lia]. cbn [negb].
    unfold witness_version_byte, OP_0, OP_1, OP_16. destruct (Z.eqb_spec v 0) as [->|Hv0]; [done|].
    destruct (Z.eqb_spec (v + 0x50) 0); [lia|]. destruct (Z.leb_spec 0x51 (v + 0x50)); [|lia].
    destruct (Z.leb_spec (v + 0x50) 0x60); [|lia]. cbn [negb andb]. do 2 f_equal. lia.
Qed.

Lemma witness_program_shape_witness :
  parse_witness_program (0x51 :: 32 :: replicate 32 9) = Some (mkWitnessProgram 1 (replicate 32 9)).
Proof.
  apply (witness_program_shape (0x51 :: 32 :: replicate 32 9) 1 (replicate 32 9)).
  - apply (bool_decide_unpack _). vm_compute. exact I.
  - split; [reflexivity|]. split; [lia|]. simpl. lia.
Defined.
