(* ===== verification/Sig.v ===== *)
(** * Signature and public key encodings (crates/script/sig.rs)

    The byte-layout rules checked before any curve arithmetic.  The theorems
    show that the index arithmetic of the strict DER check accepts exactly the
    documented layout, and that the low-S test is the numeric comparison with
    half the group order. *)

From S2P Require Import Prelude ScriptNum ScriptOps.

Definition SIGHASH_ALL : Z := 1.
Definition SIGHASH_NONE : Z := 2.
Definition SIGHASH_SINGLE : Z := 3.
Definition SIGHASH_ANYONECANPAY : Z := 0x80.

Definition HALF_CURVE_ORDER : bytes :=
  [0x7F; 0xFF; 0xFF; 0xFF; 0xFF; 0xFF; 0xFF; 0xFF; 0xFF; 0xFF; 0xFF; 0xFF; 0xFF; 0xFF; 0xFF; 0xFF;
   0x5D; 0x57; 0x6E; 0x73; 0x57; 0xA4; 0x50; 0x1D; 0xDF; 0xE9; 0x2F; 0x46; 0x68; 0x1B; 0x20; 0xA0].

(** [x & 0x80 != 0] *)
Definition high_bit (x : Z) : bool := negb (Z.land x 0x80 =? 0).

Definition is_valid_signature_encoding (sig : bytes) : bool :=
  if (length sig <? 9)%nat || (73 <? length sig)%nat then false else
  if negb (idx sig 0 =? 0x30) then false else
  if negb (Z.to_nat (idx sig 1) =? length sig - 3)%nat then false else
  let len_r := Z.to_nat (idx sig 3) in
  if (length sig <=? 5 + len_r)%nat then false else
  let len_s := Z.to_nat (idx sig (5 + len_r)) in
  if negb (len_r + len_s + 7 =? length sig)%nat then false else
  if negb (idx sig 2 =? 0x02) then false else
  if (len_r =? 0)%nat then false else
  if high_bit (idx sig 4) then false else
  if (1 <? len_r)%nat && (idx sig 4 =? 0x00) && negb (high_bit (idx sig 5)) then false else
  if negb (idx sig (len_r + 4) =? 0x02) then false else
  if (len_s =? 0)%nat then false else
  if high_bit (idx sig (len_r + 6)) then false else
  if (1 <? len_s)%nat && (idx sig (len_r + 6) =? 0x00) && negb (high_bit (idx sig (len_r + 7))) then false
  else true.

(** [<=] on byte arrays: lexicographic *)
Fixpoint lex_le (a b : bytes) : bool :=
  match a, b with
  | x :: a, y :: b => if x <? y then true else if y <? x then false else lex_le a b
  | [], _ => true
  | _ :: _, [] => false
  end.

Definition is_low_der_signature (sig : bytes) : bool :=
  if negb (is_valid_signature_encoding sig) then false else
  let len_r := Z.to_nat (idx sig 3) in
  let len_s := Z.to_nat (idx sig (5 + len_r)) in
  let s := slice sig (len_r + 6) (len_r + 6 + len_s) in
  let s := match s with 0x00 :: ((_ :: _) as rest) => rest | _ => s end in
  if (32 <? length s)%nat then false
  else lex_le (replicate (32 - length s) 0 ++ s) HALF_CURVE_ORDER.

Definition is_defined_hashtype (sig : bytes) : bool :=
  match last sig with
  | None => false
  | Some hashtype =>
    let b := Z.land hashtype (255 - SIGHASH_ANYONECANPAY) in
    (SIGHASH_ALL <=? b) && (b <=? SIGHASH_SINGLE)
  end.

Definition is_compressed_or_uncompressed_pubkey (pubkey : bytes) : bool :=
  if (length pubkey =? 33)%nat then (idx pubkey 0 =? 0x02) || (idx pubkey 0 =? 0x03)
  else if (length pubkey =? 65)%nat then idx pubkey 0 =? 0x04
  else false.

Definition is_compressed_pubkey (pubkey : bytes) : bool :=
  (length pubkey =? 33)%nat && ((idx pubkey 0 =? 0x02) || (idx pubkey 0 =? 0x03)).

Definition check_signature_encoding (sig : bytes) (flags : VerifyFlags) : ScriptResult unit :=
  if (length sig =? 0)%nat then Ok tt else
  if (flag flags FLAG_DERSIG || flag flags FLAG_LOW_S || flag flags FLAG_STRICTENC)
     && negb (is_valid_signature_encoding sig) then Err SigDer else
  if flag flags FLAG_LOW_S && negb (is_low_der_signature sig) then Err SigHighS else
  if flag flags FLAG_STRICTENC && negb (is_defined_hashtype sig) then Err SigHashType
  else Ok tt.

Definition check_pubkey_encoding (pubkey : bytes) (flags : VerifyFlags) (is_witness_v0 : bool) : ScriptResult unit :=
  if flag flags FLAG_STRICTENC && negb (is_compressed_or_uncompressed_pubkey pubkey) then Err PubkeyType else
  if flag flags FLAG_WITNESS_PUBKEYTYPE && is_witness_v0 && negb (is_compressed_pubkey pubkey) then Err WitnessPubkeyType
  else Ok tt.

(** ** The layout the strict check accepts *)

(** A positive, minimally padded DER integer body. *)
Definition der_int (x : bytes) : Prop :=
  x <> [] /\ idx x 0 < 128 /\ ((1 < length x)%nat -> idx x 0 = 0 -> 128 <= idx x 1).

Definition der_sig (r s : bytes) (hashtype : Z) : bytes :=
  [0x30; Z.of_nat (length r + length s + 4); 0x02; Z.of_nat (length r)] ++ r ++
  [0x02; Z.of_nat (length s)] ++ s ++ [hashtype].

Lemma high_bit_spec x : u8_ok x -> high_bit x = (128 <=? x).
Proof. intros H. unfold high_bit. rewrite land_bit7 by done. by destruct (Z.ltb_spec x 128), (Z.leb_spec 128 x); lia || done. Qed.

(** The two tests on an integer body, as the code writes them. *)
Definition der_int_tests (len : nat) (x0 x1 : Z) : bool :=
  negb (len =? 0)%nat && negb (high_bit x0) && negb ((1 <? len)%nat && (x0 =? 0x00) && negb (high_bit x1)).

Lemma der_int_tests_spec x rest : bytes_ok (x ++ rest) ->
  der_int_tests (length x) (idx (x ++ rest) 0) (idx (x ++ rest) 1) = true <-> der_int x.
Proof.
  intros Hb. pose proof (idx_ok _ 0 Hb) as H0. pose proof (idx_ok _ 1 Hb) as H1.
  unfold der_int_tests, der_int. rewrite !high_bit_spec by done. int_unfold.
  destruct x as [|a [|b x]]; cbn [length app nth] in *; [split; [done|by intros [? _]]|..].
  - rewrite !andb_true_iff. cbn. rewrite negb_true_iff, Z.leb_gt. split; [intros [[_ ?] _]; split_and!; [done|lia|lia]|].
    intros (_ & ? & _). auto.
  - rewrite !andb_true_iff, !negb_true_iff. cbn [Nat.eqb Nat.ltb Nat.leb]. rewrite andb_true_l, Z.leb_gt, andb_false_iff, negb_false_iff, Z.eqb_neq, Z.leb_le.
    split.
    + intros [[_ ?] Hz]. split_and!; [done|lia|lia].
    + intros (_ & ? & Hz). split; [done|]. destruct (decide (a = 0)); [right|left]; auto with lia.
Qed.

(** The checks as one conjunction, on a signature cut at its fields. *)
Lemma is_valid_fields a0 a1 a2 a3 r b0 b1 rest : bytes_ok (a0 :: a1 :: a2 :: a3 :: r ++ b0 :: b1 :: rest) ->
  length r = Z.to_nat a3 ->
  is_valid_signature_encoding (a0 :: a1 :: a2 :: a3 :: r ++ b0 :: b1 :: rest) = true <->
  let n := (6 + length r + length rest)%nat in
  (9 <= n <= 73)%nat /\ a0 = 0x30 /\ Z.to_nat a1 = (n - 3)%nat /\ (length r + Z.to_nat b1 + 7 = n)%nat /\
  a2 = 0x02 /\ der_int_tests (length r) (idx (r ++ b0 :: b1 :: rest) 0) (idx (r ++ b0 :: b1 :: rest) 1) = true /\
  b0 = 0x02 /\ der_int_tests (Z.to_nat b1) (idx rest 0) (idx rest 1) = true.
Proof.
  intros Hb Hr. set (sg := a0 :: _).
  assert (length sg = (6 + length r + length rest)%nat) as L.
  { unfold sg. cbn [length]. rewrite length_app. cbn [length]. lia. }
  assert (forall k, idx sg (length r + (4 + k)) = idx (b0 :: b1 :: rest) k) as Hidx.
  { intros k. replace (length r + (4 + k))%nat with (4 + (length r + k))%nat by lia. unfold sg. cbn [Nat.add nth].
    rewrite app_nth2 by lia. by replace (length r + k - length r)%nat with k by lia. }
  unfold is_valid_signature_encoding, der_int_tests. rewrite L.
  change (idx sg 0) with a0. change (idx sg 1) with a1. change (idx sg 2) with a2. change (idx sg 3) with a3.
  change (idx sg 4) with (idx (r ++ b0 :: b1 :: rest) 0). change (idx sg 5) with (idx (r ++ b0 :: b1 :: rest) 1).
  rewrite <- Hr. replace (5 + length r)%nat with (length r + (4 + 1))%nat by lia. 
  replace (length r + 6)%nat with (length r + (4 + 2))%nat by lia. replace (length r + 7)%nat with (length r + (4 + 3))%nat by lia.
  replace (length r + 4)%nat with (length r + (4 + 0))%nat by lia. rewrite !Hidx. cbn [nth].
  set (n := (6 + length r + length rest)%nat).
  destruct (Nat.ltb_spec n 9); [cbn; split; [done|lia]|]. destruct (Nat.ltb_spec 73 n); [cbn; split; [done|lia]|]. cbn [orb].
  destruct (Z.eqb_spec a0 0x30); cbn [negb]; [|naive_solver].
  destruct (Nat.eqb_spec (Z.to_nat a1) (n - 3)); cbn [negb]; [|naive_solver].
  destruct (Nat.leb_spec n (length r + (4 + 1))); [unfold n in *; lia|].
  destruct (Nat.eqb_spec (length r + Z.to_nat b1 + 7) n); cbn [negb]; [|naive_solver].
  destruct (Z.eqb_spec a2 0x02); cbn [negb]; [|naive_solver].
  destruct (length r =? 0)%nat; cbn [negb andb]; [naive_solver|].
  destruct (high_bit (idx (r ++ _) 0)); cbn [negb andb]; [naive_solver|].
  destruct ((1 <? length r)%nat && _ && _); cbn [negb andb]; [naive_solver|].
  destruct (Z.eqb_spec b0 0x02); cbn [negb]; [|naive_solver].
  destruct (Z.to_nat b1 =? 0)%nat; cbn [negb andb]; [naive_solver|].
  destruct (high_bit (idx rest 0)); cbn [negb andb]; [naive_solver|].
  destruct ((1 <? Z.to_nat b1)%nat && _ && _); cbn [negb andb]; naive_solver.
Qed.

(** Cutting a long enough signature at its fields. *)
Lemma cut_fields sg : bytes_ok sg -> (9 <= length sg)%nat -> (5 + Z.to_nat (idx sg 3) < length sg)%nat ->
  exists a0 a1 a2 a3 r b0 b1 rest, sg = a0 :: a1 :: a2 :: a3 :: r ++ b0 :: b1 :: rest /\ length r = Z.to_nat a3.
Proof.
  intros Hb H9 H5. destruct sg as [|a0 [|a1 [|a2 [|a3 t]]]]; cbn [length nth] in *; try lia.
  exists a0, a1, a2, a3, (take (Z.to_nat a3) t). pose proof (take_drop (Z.to_nat a3) t) as Et.
  assert (2 <= length (drop (Z.to_nat a3) t))%nat as Hd by (rewrite length_drop; lia).
  destruct (drop (Z.to_nat a3) t) as [|b0 [|b1 rest]] eqn:E; cbn [length] in Hd; try lia.
  exists b0, b1, rest. rewrite Et. split; [done|]. rewrite length_take. lia.
Qed.

Lemma valid_layout_l sig : bytes_ok sig -> is_valid_signature_encoding sig = true ->
  exists r s ht, sig = der_sig r s ht /\ der_int r /\ der_int s /\ (length r + length s <= 66)%nat.
Proof.
  intros Hb H.
  assert (9 <= length sig)%nat as H9.
  { unfold is_valid_signature_encoding in H. destruct (Nat.ltb_spec (length sig) 9); [done|lia]. }
  assert (5 + Z.to_nat (idx sig 3) < length sig)%nat as H5.
  { unfold is_valid_signature_encoding in H. destruct (_ || _); [done|]. destruct (negb _); [done|]. destruct (negb _); [done|].
    destruct (Nat.leb_spec (length sig) (5 + Z.to_nat (idx sig 3))); [done|lia]. }
  destruct (cut_fields sig Hb H9 H5) as (a0 & a1 & a2 & a3 & r & b0 & b1 & rest & -> & Hr).
  pose proof Hb as Hb'. apply (is_valid_fields _ _ _ _ _ _ _ _ Hb Hr) in H as (Hn & -> & H1 & Hl & -> & Tr & -> & Ts).
  do 4 (apply Forall_cons in Hb' as [? Hb']).
  apply bytes_ok_app in Hb' as Hb2. destruct Hb2 as [_ Hb2]. apply Forall_cons in Hb2 as [_ Hb2]. apply Forall_cons in Hb2 as [Hb1 Hb2].
  assert (length rest = Z.to_nat b1 + 1)%nat as Lr by lia.
  destruct (snoc_cases rest) as [->|(s & ht & ->)]; [simpl in Lr; lia|]. rewrite length_app in Lr, Hn, H1. simpl in Lr, Hn, H1.
  exists r, s, ht. int_unfold. split_and!.
  + unfold der_sig. replace a1 with (Z.of_nat (length r + length s + 4)) by lia.
    replace a3 with (Z.of_nat (length r)) by lia. by replace b1 with (Z.of_nat (length s)) by lia.
  + by apply (der_int_tests_spec r (0x02 :: b1 :: s ++ [ht])).
  + replace (Z.to_nat b1) with (length s) in Ts by lia. by apply (der_int_tests_spec s [ht]).
  + lia.
Qed.

Lemma valid_layout_r sig : bytes_ok sig ->
  (exists r s ht, sig = der_sig r s ht /\ der_int r /\ der_int s /\ (length r + length s <= 66)%nat) ->
  is_valid_signature_encoding sig = true.
Proof.
  intros Hb (r & s & ht & -> & Dr & Ds & Hl). unfold der_sig in *. cbn [app] in *.
  pose proof Hb as Hb'. do 4 (apply Forall_cons in Hb' as [? Hb']).
  apply bytes_ok_app in Hb' as Hb2. destruct Hb2 as [_ Hb2]. apply Forall_cons in Hb2 as [_ Hb2]. apply Forall_cons in Hb2 as [_ Hb2].
  apply is_valid_fields; [done|lia|]. rewrite length_app. cbn [length]. rewrite !Nat2Z.id.
  assert (length r <> 0)%nat by (destruct r; [by destruct Dr|done]). assert (length s <> 0)%nat by (destruct s; [by destruct Ds|done]).
  split_and!; try lia.
  + by apply (der_int_tests_spec r (0x02 :: Z.of_nat (length s) :: s ++ [ht])).
  + by apply (der_int_tests_spec s [ht]).
Qed.

(** The strict encoding check accepts exactly the strings
    [0x30 len 0x02 |R| R 0x02 |S| S hashtype] of at most 73 bytes whose [R] and
    [S] are positive, minimally padded integers. *)
Lemma valid_encoding_layout (sig : bytes) : bytes_ok sig ->
  is_valid_signature_encoding sig = true <->
  exists r s ht, sig = der_sig r s ht /\ der_int r /\ der_int s /\ (length r + length s <= 66)%nat.
Proof. intros Hb. split; [by apply valid_layout_l | by apply valid_layout_r]. Qed.

Definition sample_sig (s : bytes) : bytes := der_sig (replicate 32 0x11) s 1.
Lemma valid_encoding_layout_witness :
  is_valid_signature_encoding (sample_sig (replicate 32 0x22)) = true <->
  exists r s ht, sample_sig (replicate 32 0x22) = der_sig r s ht /\ der_int r /\ der_int s /\ (length r + length s <= 66)%nat.
Proof.
  apply (valid_encoding_layout (sample_sig (replicate 32 0x22))).
  apply (bool_decide_unpack _). vm_compute. exact I.
Defined.

(** ** Low S *)

Lemma of_be_cons x l : of_be (x :: l) = of_be l + 2 ^ (8 * Z.of_nat (length l)) * x.
Proof. unfold of_be. rewrite reverse_cons, of_le_app, length_reverse. cbn [of_le]. lia. Qed.

Lemma of_be_bound l : bytes_ok l -> 0 <= of_be l < 2 ^ (8 * Z.of_nat (length l)).
Proof.
  intros Hl. unfold of_be. rewrite <- (length_reverse l). apply of_le_bound.
  unfold bytes_ok in *. by rewrite Forall_reverse.
Qed.

Lemma lex_le_spec a b : bytes_ok a -> bytes_ok b -> length a = length b -> lex_le a b = (of_be a <=? of_be b).
Proof.
  intros Ha. revert b; induction Ha as [|x a Hx Ha IH]; intros [|y b] Hb Hl; try done.
  inversion Hb as [|? ? Hy Hb']; subst. injection Hl as Hl. cbn [lex_le]. rewrite !of_be_cons, Hl.
  pose proof (of_be_bound a Ha) as Ba. pose proof (of_be_bound b Hb') as Bb. rewrite Hl in Ba.
  set (p := 2 ^ (8 * Z.of_nat (length b))) in *. int_unfold.
  destruct (Z.ltb_spec x y); [symmetry; apply Z.leb_le; nia|].
  destruct (Z.ltb_spec y x); [symmetry; apply Z.leb_gt; nia|].
  rewrite IH by done. assert (x = y) as -> by lia.
  destruct (Z.leb_spec (of_be a) (of_be b)), (Z.leb_spec (of_be a + p * y) (of_be b + p * y)); lia || done.
Qed.

Lemma of_be_zeros n l : of_be (replicate n 0 ++ l) = of_be l.
Proof.
  induction n as [|n IH]; [done|]. cbn [replicate app]. rewrite of_be_cons, IH. lia.
Qed.

Lemma HALF_CURVE_ORDER_ok : bytes_ok HALF_CURVE_ORDER.
Proof. apply (bool_decide_unpack _). vm_compute. exact I. Qed.

Lemma der_fields r s ht : bytes_ok (der_sig r s ht) ->
  Z.to_nat (idx (der_sig r s ht) 3) = length r /\
  Z.to_nat (idx (der_sig r s ht) (5 + length r)) = length s /\
  slice (der_sig r s ht) (length r + 6) (length r + 6 + length s) = s.
Proof.
  intros _. unfold der_sig. cbn [app nth Nat.add]. rewrite Nat2Z.id. split; [done|]. split.
  - replace (S (length r)) with (length r + 1)%nat by lia. rewrite app_nth2 by lia.
    replace (length r + 1 - length r)%nat with 1%nat by lia. cbn. apply Nat2Z.id.
  - replace (0x30 :: Z.of_nat (length r + length s + 4) :: 0x02 :: Z.of_nat (length r) :: r ++ 0x02 :: Z.of_nat (length s) :: s ++ [ht])
      with (([0x30; Z.of_nat (length r + length s + 4); 0x02; Z.of_nat (length r)] ++ r ++ [0x02; Z.of_nat (length s)]) ++ s ++ [ht])
      by (cbn [app]; by rewrite <- app_assoc).
    apply slice_app_mid; rewrite !length_app; cbn [length]; lia.
Qed.

(** Dropping a DER padding byte keeps the number; without one, more than 32
    bytes are at least [2^256]. *)
Lemma strip_padding s : bytes_ok s -> der_int s ->
  let s' := match s with 0x00 :: ((_ :: _) as rest) => rest | _ => s end in
  bytes_ok s' /\ of_be s' = of_be s /\ ((32 < length s')%nat -> 2 ^ 256 <= of_be s').
Proof.
  intros Hs (Hne & Hpos & Hmin). destruct s as [|x s]; [done|].
  inversion Hs as [|? ? Hx Hs']; subst. int_unfold.
  assert (forall y l, 0 < y -> bytes_ok l -> (32 < length (y :: l))%nat -> 2 ^ 256 <= of_be (y :: l)) as Hbig.
  { intros y l Hy Hl Hlen. rewrite of_be_cons. pose proof (of_be_bound l Hl).
    assert (2 ^ 256 <= 2 ^ (8 * Z.of_nat (length l))) by (apply Z.pow_le_mono_r; simpl in Hlen; lia). nia. }
  destruct (decide (x = 0)) as [->|Hx0].
  - destruct s as [|y s]; [split_and!; [done|done|simpl; lia]|]. cbn zeta.
    specialize (Hmin ltac:(simpl; lia) eq_refl). cbn [nth] in Hmin. inversion Hs'; subst.
    split_and!; [done| |intros Hlen; apply (Hbig y s); [lia|done|exact Hlen]]. rewrite (of_be_cons 0). lia.
  - assert ((match x :: s with 0x00 :: ((_ :: _) as rest) => rest | _ => x :: s end) = x :: s) as -> by (destruct x; done).
    split_and!; [done|done|]. intros Hlen. apply (Hbig x s); [lia|done|exact Hlen].
Qed.

(** For a strictly encoded signature the low-S test is the numeric test
    [S <= n/2], whatever padding [S] carries. *)
Lemma low_s_spec (r s : bytes) (ht : Z) : bytes_ok (der_sig r s ht) -> der_int r -> der_int s ->
  (length r + length s <= 66)%nat ->
  is_low_der_signature (der_sig r s ht) = (of_be s <=? of_be HALF_CURVE_ORDER).
Proof.
  intros Hb Dr Ds Hl. unfold is_low_der_signature.
  assert (is_valid_signature_encoding (der_sig r s ht) = true) as ->.
  { apply (valid_layout_r (der_sig r s ht) Hb). by exists r, s, ht. }
  destruct (der_fields r s ht Hb) as (E3 & E5 & Es). rewrite E3, E5, Es. cbn [negb].
  assert (bytes_ok s) as Hs.
  { unfold der_sig in Hb. cbn [app] in Hb. do 4 (apply Forall_cons in Hb as [_ Hb]).
    apply bytes_ok_app in Hb as [_ Hb]. do 2 (apply Forall_cons in Hb as [_ Hb]). by apply bytes_ok_app in Hb as [Hb _]. }
  set (s' := match s with 0x00 :: ((_ :: _) as rest) => rest | _ => s end).
  assert (bytes_ok s' /\ of_be s' = of_be s /\ ((32 < length s')%nat -> 2 ^ 256 <= of_be s')) as (Hs' & Ev & Hbig).
  { apply strip_padding; done. }
  destruct (Nat.ltb_spec 32 (length s')) as [Hlt|Hle].
  - symmetry. apply Z.leb_gt. specialize (Hbig Hlt). pose proof (of_be_bound _ HALF_CURVE_ORDER_ok) as B.
    change (2 ^ (8 * Z.of_nat (length HALF_CURVE_ORDER))) with (2 ^ 256) in B. lia.
  - rewrite lex_le_spec; [by rewrite of_be_zeros, Ev| |apply HALF_CURVE_ORDER_ok|].
    + apply bytes_ok_app. split; [apply Forall_replicate; int_unfold; lia|done].
    + rewrite length_app, length_replicate. change (length HALF_CURVE_ORDER) with 32%nat. lia.
Qed.

Lemma low_s_witness : is_low_der_signature (sample_sig (replicate 32 0x22)) = (of_be (replicate 32 0x22) <=? of_be HALF_CURVE_ORDER).
Proof.
  apply (low_s_spec (replicate 32 0x11) (replicate 32 0x22) 1).
  - apply (bool_decide_unpack _). vm_compute. exact I.
  - split_and!; [discriminate|vm_compute; reflexivity|intros _; vm_compute; discriminate].
  - split_and!; [discriminate|vm_compute; reflexivity|intros _; vm_compute; discriminate].
  - vm_compute. lia.
Defined.
