(* ===== verification/Taproot.v ===== *)
(** * Taproot data structures (crates/script/taproot.rs)

    Tagged hashes, the execution data signature hashing needs, control blocks,
    the script-tree merkle path and the OP_SUCCESS table.  The curve operations
    of the [secp256k1] crate are the operations of the class [Secp]. *)

From S2P Require Import Prelude Wire Hash Params ScriptNum ScriptOps Sig.

(** The [secp256k1] operations the script engine calls. *)
Class Secp : Type := {
  PublicKey : Type;
  EcdsaSignature : Type;
  XOnlyPublicKey : Type;
  SchnorrSignature : Type;
  Scalar : Type;
  PublicKey_from_slice : bytes -> option PublicKey;
  Signature_from_der_lax : bytes -> option EcdsaSignature;
  verify_ecdsa : bytes -> EcdsaSignature -> PublicKey -> bool;
  XOnlyPublicKey_from_slice : bytes -> option XOnlyPublicKey;
  SchnorrSignature_from_slice : bytes -> option SchnorrSignature;
  verify_schnorr : SchnorrSignature -> bytes -> XOnlyPublicKey -> bool;
  Scalar_from_be_bytes : bytes -> option Scalar;
  (** internal key, output key, output parity is odd, tweak *)
  tweak_add_check : XOnlyPublicKey -> XOnlyPublicKey -> bool -> Scalar -> bool;
}.

Definition TAPROOT_LEAF_MASK : Z := 0xfe.
Definition TAPROOT_LEAF_TAPSCRIPT : Z := 0xc0.
Definition TAPROOT_CONTROL_BASE_SIZE : nat := 33.
Definition TAPROOT_CONTROL_NODE_SIZE : nat := 32.
Definition TAPROOT_CONTROL_MAX_NODE_COUNT : nat := 128.
Definition TAPROOT_CONTROL_MAX_SIZE : nat :=
  TAPROOT_CONTROL_BASE_SIZE + TAPROOT_CONTROL_NODE_SIZE * TAPROOT_CONTROL_MAX_NODE_COUNT.
Definition WITNESS_V1_TAPROOT_SIZE : nat := 32.
Definition ANNEX_TAG : Z := 0x50.
Definition VALIDATION_WEIGHT_OFFSET : Z := 50.
Definition VALIDATION_WEIGHT_PER_SIGOP_PASSED : Z := 50.

Record ScriptExecutionData : Type := mkExecData {
  exec_tapleaf_hash : option bytes;
  annex_hash : option bytes;
  codeseparator_pos : Z;
  validation_weight_left : Z;
}.
Definition ScriptExecutionData_new : ScriptExecutionData := mkExecData None None U32_MAX 0.

Record ControlBlock : Type := mkControlBlock {
  leaf_version : Z;
  parity_odd : bool;
  internal_key : bytes;
  merkle_path : list bytes;
}.

(** [chunks_exact(32)] *)
Fixpoint chunks32 (n : nat) (l : bytes) : list bytes :=
  match n with
  | O => []
  | S n => take 32 l :: chunks32 n (drop 32 l)
  end.

Definition parse_control_block (control : bytes) : option ControlBlock :=
  if (length control <? TAPROOT_CONTROL_BASE_SIZE)%nat
     || (TAPROOT_CONTROL_MAX_SIZE <? length control)%nat
     || negb ((length control - TAPROOT_CONTROL_BASE_SIZE) mod TAPROOT_CONTROL_NODE_SIZE =? 0)%nat
  then None else
  let path := drop TAPROOT_CONTROL_BASE_SIZE control in
  Some (mkControlBlock (Z.land (idx control 0) TAPROOT_LEAF_MASK) (Z.land (idx control 0) 1 =? 1)
    (slice control 1 33) (chunks32 (length path / TAPROOT_CONTROL_NODE_SIZE) path)).

(** [write_compact_size]: the bytes appended *)
Definition write_compact_size (value : Z) : bytes :=
  if value <? 0xfd then [wrap_u 8 value]
  else if value <=? 0xffff then 0xfd :: le_bytes 2 (wrap_u 16 value)
  else if value <=? 0xffffffff then 0xfe :: le_bytes 4 (wrap_u 32 value)
  else 0xff :: le_bytes 8 value.

Definition is_op_success (op : Z) : bool :=
  (op =? 80) || (op =? 98) || ((126 <=? op) && (op <=? 129)) || ((131 <=? op) && (op <=? 134))
  || ((137 <=? op) && (op <=? 138)) || ((141 <=? op) && (op <=? 142)) || ((149 <=? op) && (op <=? 153))
  || ((187 <=? op) && (op <=? 254)).

Section Hashing.
Context {D : Digests}.

Definition tagged_hash (tag : string) (dat : bytes) : bytes :=
  let tag_hash := sha256 (string_bytes tag) in
  sha256 (tag_hash ++ tag_hash ++ dat).

Definition compute_tapleaf_hash (version : Z) (script : bytes) : bytes :=
  tagged_hash "TapLeaf" (version :: write_compact_size (Z.of_nat (length script)) ++ script).

(** One level of the path: siblings are hashed in lexicographic order. *)
Definition tap_branch (node sibling : bytes) : bytes :=
  tagged_hash "TapBranch" (if lex_le node sibling then node ++ sibling else sibling ++ node).

Definition compute_taproot_merkle_root (control : ControlBlock) (tapleaf_hash : bytes) : bytes :=
  fold_left tap_branch (merkle_path control) tapleaf_hash.

Context {S : Secp}.

Definition verify_taproot_commitment (control : ControlBlock) (prog : bytes) (tapleaf_hash : bytes) : bool :=
  match XOnlyPublicKey_from_slice prog with
  | None => false
  | Some output_key =>
    match XOnlyPublicKey_from_slice (internal_key control) with
    | None => false
    | Some ikey =>
      let merkle_root := compute_taproot_merkle_root control tapleaf_hash in
      let tweak := tagged_hash "TapTweak" (internal_key control ++ merkle_root) in
      match Scalar_from_be_bytes tweak with
      | None => false
      | Some tweak => tweak_add_check ikey output_key (parity_odd control) tweak
      end
    end
  end.
End Hashing.

(** ** Lemmas *)

Lemma write_compact_size_varint n : u64_ok n -> write_compact_size n = serialize encode_VarInt n.
Proof.
  intros Hn. symmetry. apply serialize_push. intros e. unfold encode_VarInt, write_compact_size.
  destruct (Z.leb_spec n 0xFC), (Z.ltb_spec n 0xfd); try lia; [done|].
  destruct (n <=? 0xFFFF); [by rewrite push_u8_bytes, push_bytes_push_bytes|].
  destruct (n <=? 0xFFFFFFFF); by rewrite push_u8_bytes, push_bytes_push_bytes.
Qed.

Lemma lex_le_total a b : length a = length b -> lex_le a b = false -> lex_le b a = true.
Proof.
  revert b; induction a as [|x a IH]; intros [|y b] Hl; try done. cbn [lex_le].
  destruct (Z.ltb_spec x y); [done|]. destruct (Z.ltb_spec y x); [done|]. intros H'. apply IH; [simpl in Hl; lia|done].
Qed.

Lemma lex_le_antisym a b : length a = length b -> lex_le a b = true -> lex_le b a = true -> a = b.
Proof.
  revert b; induction a as [|x a IH]; intros [|y b] Hl; try done. cbn [lex_le].
  destruct (Z.ltb_spec x y); [destruct (Z.ltb_spec y x); [lia|done]|].
  destruct (Z.ltb_spec y x); [done|]. intros H1 H2. f_equal; [lia|]. apply IH; [simpl in Hl; lia|done|done].
Qed.

Lemma chunks32_concat n l : length l = (32 * n)%nat -> concat (chunks32 n l) = l /\ Forall (fun c => length c = 32%nat) (chunks32 n l).
Proof.
  revert l; induction n as [|n IH]; intros l Hl; cbn [chunks32 concat].
  - split; [by apply nil_length_inv in Hl|constructor].
  - destruct (IH (drop 32 l)) as [E F]; [rewrite length_drop; lia|]. rewrite E.
    split; [apply take_drop|]. constructor; [rewrite length_take; lia|done].
Qed.

(** The branch hash does not depend on which child is ours: sorting the
    pair makes the path free of direction bits. *)
Lemma tap_branch_commutes {D : Digests} (a b : bytes) : length a = length b ->
  tap_branch a b = tap_branch b a.
Proof.
  intros Hl. unfold tap_branch. destruct (lex_le a b) eqn:E1, (lex_le b a) eqn:E2; try done.
  - by rewrite (lex_le_antisym a b Hl E1 E2).
  - apply lex_le_total in E1; [congruence|done].
Qed.

Lemma tap_branch_commutes_witness : @tap_branch toy_digests (replicate 32 1) (replicate 32 2)
  = @tap_branch toy_digests (replicate 32 2) (replicate 32 1).
Proof. apply (@tap_branch_commutes toy_digests). reflexivity. Defined.

(** A control block parses exactly when it is a control byte, a 32-byte
    key and at most 128 nodes of 32 bytes, and the parse loses nothing: the
    fields concatenate back to the input. *)
Lemma control_block_roundtrip (c : bytes) : bytes_ok c ->
  match parse_control_block c with
  | Some b => exists k, (k <= 128)%nat /\ length c = (33 + 32 * k)%nat /\ length (merkle_path b) = k /\
      c = (leaf_version b + (if parity_odd b then 1 else 0)) :: internal_key b ++ concat (merkle_path b)
  | None => forall k, (k <= 128)%nat -> length c <> (33 + 32 * k)%nat
  end.
Proof.
  intros Hc. unfold parse_control_block, TAPROOT_CONTROL_MAX_SIZE, TAPROOT_CONTROL_BASE_SIZE, TAPROOT_CONTROL_NODE_SIZE, TAPROOT_CONTROL_MAX_NODE_COUNT.
  destruct (_ || _) eqn:E.
  - intros k Hk Hl. rewrite Hl in E. rewrite !orb_true_iff, !Nat.ltb_lt, negb_true_iff, Nat.eqb_neq in E.
    replace (33 + 32 * k - 33)%nat with (k * 32)%nat in E by lia. rewrite Nat.Div0.mod_mul in E. lia.
  - rewrite !orb_false_iff, !Nat.ltb_ge, negb_false_iff, Nat.eqb_eq in E. destruct E as [[H1 H2] H3].
    set (k := ((length c - 33) / 32)%nat).
    assert (length c = 33 + 32 * k)%nat as Hl by (pose proof (Nat.div_mod_eq (length c - 33) 32); unfold k; lia).
    assert (length (drop 33 c) / 32 = k)%nat as Ek by (by rewrite length_drop).
    rewrite Ek. cbn [leaf_version parity_odd internal_key merkle_path].
    destruct (chunks32_concat k (drop 33 c)) as [Ec Fc]; [rewrite length_drop; lia|].
    exists k. split_and!; [lia|done| |].
    + clear. generalize (drop 33 c). induction k as [|k IH]; intros l; cbn; [done|]. by rewrite IH.
    + rewrite Ec. destruct c as [|x c]; [simpl in Hl; lia|]. inversion Hc; subst. cbn [nth]. f_equal.
      * change TAPROOT_LEAF_MASK with 254.
        assert (forallb (fun x => x =? Z.land x 254 + (if Z.land x 1 =? 1 then 1 else 0)) (seqZ 0 256) = true) as Hf by (vm_compute; reflexivity).
        rewrite forallb_forall in Hf. apply Z.eqb_eq, Hf, list_elem_of_In, elem_of_seqZ. by int_unfold.
      * unfold slice. cbn [drop Nat.sub]. change (drop 0 c) with c. change (drop 33 (x :: c)) with (drop 32 c). by rewrite take_drop.
Qed.

Lemma control_block_roundtrip_witness :
  match parse_control_block (0xc1 :: replicate 64 7) with
  | Some b => exists k, (k <= 128)%nat /\ length (0xc1 :: replicate 64 7) = (33 + 32 * k)%nat /\ length (merkle_path b) = k /\
      0xc1 :: replicate 64 7 = (leaf_version b + (if parity_odd b then 1 else 0)) :: internal_key b ++ concat (merkle_path b)
  | None => forall k, (k <= 128)%nat -> length (0xc1 :: replicate 64 7) <> (33 + 32 * k)%nat
  end.
Proof.
  apply (control_block_roundtrip (0xc1 :: replicate 64 7)). apply (bool_decide_unpack _). vm_compute. exact I.
Defined.

(** ** Concrete curve operations, for witnesses *)

Definition toy_secp : Secp := {|
  PublicKey := bytes; EcdsaSignature := bytes; XOnlyPublicKey := bytes; SchnorrSignature := bytes; Scalar := bytes;
  PublicKey_from_slice := Some; Signature_from_der_lax := Some; verify_ecdsa _ s k := bool_decide (s = k);
  XOnlyPublicKey_from_slice := Some; SchnorrSignature_from_slice := Some; verify_schnorr s _ k := bool_decide (s = k);
  Scalar_from_be_bytes := Some; tweak_add_check _ _ _ _ := true |}.
