(* ===== verification/Sighash.v ===== *)
(** * Signature hashes (crates/script/sighash.rs)

    Legacy, BIP 143 and BIP 341 signature hashes, with their midstate caches. *)

From S2P Require Import Prelude Wire Hash Transaction ScriptNum ScriptOps Sig Taproot.

Definition SIGHASH_SINGLE_BUG : bytes := 1 :: replicate 31 0.
Definition SIGHASH_DEFAULT : Z := 0x00.

(** [value.to_sat() as i64] *)
Definition sat_i64 (a : Amount) : Z := wrap_s 64 a.

(** [(hash_type & 0x1f) as u8] and the ANYONECANPAY bit *)
Definition base_type (hash_type : Z) : Z := Z.land hash_type 0x1f.
Definition anyone_can_pay (hash_type : Z) : bool :=
  negb (Z.land (wrap_u 8 hash_type) SIGHASH_ANYONECANPAY =? 0).

(** An output as the hashes serialize it: amount as [i64], then the script. *)
Definition encode_output : encoder_of TxOut := fun o e =>
  encode_VarBytes (script_pubkey o) (encode_i64 (sat_i64 (value o)) e).

Definition no_input : TxIn := mkTxIn (mkOutPoint [] 0) [] 0 [].
Definition no_output : TxOut := mkTxOut 0 [].
(** [tx.inputs[i]] and [tx.outputs[i]] at an index in range *)
Definition input_at (tx : Transaction) (i : nat) : TxIn := nth i (inputs tx) no_input.
Definition output_at (l : list TxOut) (i : nat) : TxOut := nth i l no_output.

Section Sighash.
Context {D : Digests}.

(** The body of the loop over [signed_inputs]. *)
Definition encode_signed_input (tx : Transaction) (input_index : nat) (script_code : bytes) (base : Z)
    (e : Encoder) (i : nat) : Encoder :=
  let input := input_at tx i in
  let e := encode_OutPoint (previous_output input) e in
  let e := if (i =? input_index)%nat then encode_VarBytes script_code e else encode_VarBytes [] e in
  let seq := if negb (i =? input_index)%nat && ((base =? SIGHASH_NONE) || (base =? SIGHASH_SINGLE))
             then 0 else sequence input in
  encode_u32 seq e.

(** The [match base_type] over the outputs. *)
Definition encode_signed_outputs (tx : Transaction) (input_index : nat) (base : Z) (e : Encoder) : Encoder :=
  if base =? SIGHASH_NONE then encode_VarInt 0 e
  else if base =? SIGHASH_SINGLE then
    fold_left (fun e i =>
        if (i <? input_index)%nat then encode_VarBytes [] (encode_i64 (-1) e)
        else encode_output (output_at (outputs tx) i) e)
      (seq 0 (S input_index)) (encode_VarInt (Z.of_nat (input_index + 1)) e)
  else fold_left (fun e o => encode_output o e) (outputs tx) (encode_VarInt (Z.of_nat (length (outputs tx))) e).

(** The preimage hashed when neither out-of-range case applies. *)
Definition legacy_preimage (tx : Transaction) (input_index : nat) (script_code : bytes) (hash_type : Z) : bytes :=
  let base := base_type hash_type in
  let e := encode_u32 (version tx) Encoder_new in
  let signed_inputs := if anyone_can_pay hash_type then [input_index] else seq 0 (length (inputs tx)) in
  let e := encode_VarInt (Z.of_nat (length signed_inputs)) e in
  let e := fold_left (encode_signed_input tx input_index script_code base) signed_inputs e in
  let e := encode_signed_outputs tx input_index base e in
  finish_enc (encode_u32 hash_type (encode_u32 (lock_time tx) e)).

Definition legacy_signature_hash (tx : Transaction) (input_index : nat) (script_code : bytes) (hash_type : Z) : bytes :=
  if (length (inputs tx) <=? input_index)%nat then SIGHASH_SINGLE_BUG
  else if (base_type hash_type =? SIGHASH_SINGLE) && (length (outputs tx) <=? input_index)%nat then SIGHASH_SINGLE_BUG
  else hash256 (legacy_preimage tx input_index script_code hash_type).

(** ** BIP 143 *)

Record Bip143Cache : Type := mkBip143Cache { hash_prevouts : bytes; hash_sequence : bytes; hash_outputs : bytes }.

Definition prevouts_bytes (tx : Transaction) : bytes :=
  finish_enc (fold_left (fun e i => encode_OutPoint (previous_output i) e) (inputs tx) Encoder_new).
Definition sequences_bytes (tx : Transaction) : bytes :=
  finish_enc (fold_left (fun e i => encode_u32 (sequence i) e) (inputs tx) Encoder_new).
Definition outputs_bytes (tx : Transaction) : bytes :=
  finish_enc (fold_left (fun e o => encode_output o e) (outputs tx) Encoder_new).

Definition Bip143Cache_new (tx : Transaction) : Bip143Cache :=
  mkBip143Cache (hash256 (prevouts_bytes tx)) (hash256 (sequences_bytes tx)) (hash256 (outputs_bytes tx)).

Definition witness_v0_preimage (tx : Transaction) (input_index : nat) (script_code : bytes) (amount_sat : Z)
    (hash_type : Z) (cache : Bip143Cache) : bytes :=
  let base := base_type hash_type in
  let acp := anyone_can_pay hash_type in
  let zero := replicate 32 0 in
  let h_prevouts := if acp then zero else hash_prevouts cache in
  let h_sequence := if acp || (base =? SIGHASH_SINGLE) || (base =? SIGHASH_NONE) then zero else hash_sequence cache in
  let h_outputs :=
    if negb (base =? SIGHASH_SINGLE) && negb (base =? SIGHASH_NONE) then hash_outputs cache
    else if (base =? SIGHASH_SINGLE) && (input_index <? length (outputs tx))%nat
      then hash256 (finish_enc (encode_output (output_at (outputs tx) input_index) Encoder_new))
    else zero in
  let input := input_at tx input_index in
  let e := encode_array h_sequence (encode_array h_prevouts (encode_u32 (version tx) Encoder_new)) in
  let e := encode_VarBytes script_code (encode_OutPoint (previous_output input) e) in
  let e := encode_u32 (sequence input) (encode_i64 amount_sat e) in
  let e := encode_u32 (lock_time tx) (encode_array h_outputs e) in
  finish_enc (encode_u32 hash_type e).

Definition witness_v0_signature_hash (tx : Transaction) (input_index : nat) (script_code : bytes) (amount_sat : Z)
    (hash_type : Z) (cache : Bip143Cache) : bytes :=
  hash256 (witness_v0_preimage tx input_index script_code amount_sat hash_type cache).

(** ** BIP 341 *)

Record TaprootCache : Type := mkTaprootCache {
  sha_prevouts : bytes; sha_amounts : bytes; sha_scriptpubkeys : bytes; sha_sequences : bytes; sha_outputs : bytes }.

Definition TaprootCache_new (tx : Transaction) (spent_outputs : list TxOut) : TaprootCache :=
  mkTaprootCache (sha256 (prevouts_bytes tx))
    (sha256 (finish_enc (fold_left (fun e o => encode_i64 (sat_i64 (value o)) e) spent_outputs Encoder_new)))
    (sha256 (finish_enc (fold_left (fun e o => encode_VarBytes (script_pubkey o) e) spent_outputs Encoder_new)))
    (sha256 (sequences_bytes tx))
    (sha256 (outputs_bytes tx)).

Definition taproot_message (tx : Transaction) (input_index : nat) (spent_outputs : list TxOut)
    (hash_type ext_flag : Z) (exec_data : ScriptExecutionData) (cache : TaprootCache) (leaf_ext : bytes) : bytes :=
  let output_type := if hash_type =? SIGHASH_DEFAULT then SIGHASH_ALL else Z.land hash_type 3 in
  let input_type := Z.land hash_type SIGHASH_ANYONECANPAY in
  let annex_present := bool_decide (is_Some (annex_hash exec_data)) in
  [0x00; hash_type] ++ le_bytes 4 (version tx) ++ le_bytes 4 (lock_time tx)
  ++ (if negb (input_type =? SIGHASH_ANYONECANPAY)
      then sha_prevouts cache ++ sha_amounts cache ++ sha_scriptpubkeys cache ++ sha_sequences cache else [])
  ++ (if output_type =? SIGHASH_ALL then sha_outputs cache else [])
  ++ [Z.lor (Z.shiftl ext_flag 1) (if annex_present then 1 else 0)]
  ++ (if input_type =? SIGHASH_ANYONECANPAY then
        let input := input_at tx input_index in
        let spent := output_at spent_outputs input_index in
        serialize encode_OutPoint (previous_output input) ++ le_bytes 8 (sat_i64 (value spent))
        ++ serialize encode_VarBytes (script_pubkey spent) ++ le_bytes 4 (sequence input)
      else le_bytes 4 (wrap_u 32 (Z.of_nat input_index)))
  ++ default [] (annex_hash exec_data)
  ++ (if output_type =? SIGHASH_SINGLE
      then sha256 (finish_enc (encode_output (output_at (outputs tx) input_index) Encoder_new)) else [])
  ++ leaf_ext.

Definition taproot_signature_hash (tx : Transaction) (input_index : nat) (spent_outputs : list TxOut)
    (hash_type ext_flag : Z) (exec_data : ScriptExecutionData) (cache : TaprootCache) : option bytes :=
  let output_type := if hash_type =? SIGHASH_DEFAULT then SIGHASH_ALL else Z.land hash_type 3 in
  if (length (inputs tx) <=? input_index)%nat || negb (length spent_outputs =? length (inputs tx))%nat then None
  else if (output_type =? SIGHASH_SINGLE) && (length (outputs tx) <=? input_index)%nat then None
  else
    let message := taproot_message tx input_index spent_outputs hash_type ext_flag exec_data cache in
    if ext_flag =? 1 then
      match exec_tapleaf_hash exec_data with
      | None => None
      | Some h => Some (tagged_hash "TapSighash" (message (h ++ [0x00] ++ le_bytes 4 (codeseparator_pos exec_data))))
      end
    else Some (tagged_hash "TapSighash" (message [])).
End Sighash.

(** ** Legacy hashing against the plain definition of transaction.rs *)

Lemma fold_left_nth {A B} (g : B -> A -> B) (d : A) l e k :
  fold_left (fun e j => g e (nth (j - k) l d)) (seq k (length l)) e = fold_left g l e.
Proof.
  revert e k; induction l as [|x l IH]; intros e k; [done|]. cbn [length seq fold_left].
  rewrite Nat.sub_diag. cbn [nth]. rewrite <- (IH (g e x) (S k)).
  apply fold_left_ext_in. intros e' j [Hj _]%in_seq. replace (j - k)%nat with (S (j - S k)) by lia. done.
Qed.

Lemma fold_left_seq_nth {A B} (g : B -> A -> B) (d : A) l e :
  fold_left (fun e j => g e (nth j l d)) (seq 0 (length l)) e = fold_left g l e.
Proof.
  rewrite <- (fold_left_nth g d l e 0). apply fold_left_ext_in. intros e' j _. by rewrite Nat.sub_0_r.
Qed.

Lemma encode_i64_sat v e : encode_i64 (sat_i64 v) e = encode_u64 v e.
Proof. unfold encode_i64, encode_u64, sat_i64. by rewrite (le_bytes_wrap_s 8) by lia. Qed.
Lemma encode_output_TxOut o e : encode_output o e = encode_TxOut o e.
Proof. unfold encode_output, encode_TxOut. by rewrite encode_i64_sat. Qed.

(** The inputs [signature_hash] of transaction.rs serializes. *)
Definition blanked_inputs (tx : Transaction) (input_index : nat) (script : bytes) : list TxIn :=
  alter (fun i => mkTxIn (previous_output i) script (sequence i) (witness i)) input_index
    (map (fun i => mkTxIn (previous_output i) [] (sequence i) (witness i)) (inputs tx)).

Lemma blanked_inputs_nth tx k script j : (j < length (inputs tx))%nat ->
  nth j (blanked_inputs tx k script) no_input =
  let i := input_at tx j in mkTxIn (previous_output i) (if (j =? k)%nat then script else []) (sequence i) (witness i).
Proof.
  intros Hj. destruct (lookup_lt_is_Some_2 _ _ Hj) as [x Hx]. unfold input_at, blanked_inputs.
  rewrite (nth_lookup_Some _ _ no_input _ Hx), nth_lookup.
  destruct (Nat.eqb_spec j k) as [->|Hne].
  - by rewrite list_lookup_alter_eq, list_lookup_fmap, Hx.
  - by rewrite list_lookup_alter_ne, list_lookup_fmap, Hx.
Qed.

Section Properties.
Context {D : Digests}.

(** With SIGHASH_ALL the flag-driven legacy hash of the script engine is
    the simple hash of transaction.rs (blank every script, substitute the
    signed one, append the type), on every transaction and index. *)
Lemma legacy_all_equivalence (tx : Transaction) (i : nat) (script : bytes) :
  legacy_signature_hash tx i script SIGHASH_ALL = signature_hash tx i script SIGHASH_ALL.
Proof.
  unfold legacy_signature_hash, signature_hash. destruct (Nat.leb_spec (length (inputs tx)) i); [done|].
  change (base_type SIGHASH_ALL =? SIGHASH_SINGLE) with false. cbn [andb]. f_equal.
  unfold legacy_preimage. change (base_type SIGHASH_ALL) with SIGHASH_ALL. change (anyone_can_pay SIGHASH_ALL) with false.
  cbv zeta iota. unfold encode_legacy. cbn [lock_time outputs inputs version]. fold (blanked_inputs tx i script).
  do 3 f_equal. unfold encode_signed_outputs. change (SIGHASH_ALL =? SIGHASH_NONE) with false. change (SIGHASH_ALL =? SIGHASH_SINGLE) with false.
  cbv iota. unfold encode_VarList. 
  assert (length (blanked_inputs tx i script) = length (inputs tx)) as Hl by (unfold blanked_inputs; by rewrite length_alter, length_map).
  rewrite Hl, length_seq.
  transitivity (fold_left (fun e o => encode_TxOut o e) (outputs tx) (encode_VarInt (Z.of_nat (length (outputs tx)))
    (fold_left (encode_signed_input tx i script SIGHASH_ALL) (seq 0 (length (inputs tx)))
      (encode_VarInt (Z.of_nat (length (inputs tx))) (encode_u32 (version tx) Encoder_new))))).
  { apply fold_left_ext_in. intros. apply encode_output_TxOut. }
  do 2 f_equal. rewrite <- (fold_left_seq_nth (fun e i => encode_TxIn i e) no_input), Hl.
  apply fold_left_ext_in. intros e j [_ Hj]%in_seq. rewrite blanked_inputs_nth by lia.
  unfold encode_signed_input, encode_TxIn, encode_ScriptBuf. cbv zeta. cbn [previous_output script_sig sequence].
  change (SIGHASH_ALL =? SIGHASH_NONE) with false. change (SIGHASH_ALL =? SIGHASH_SINGLE) with false.
  rewrite orb_false_r, andb_false_r. by destruct (j =? i)%nat.
Qed.

(** What a legacy signature leaves free: with ANYONECANPAY it commits to
    its own outpoint and sequence only, so the other inputs and its own
    position may change; with SIGHASH_NONE it commits to no output. *)
Lemma legacy_hash_scope (tx tx' : Transaction) (i i' : nat) (script : bytes) (ht : Z) :
  anyone_can_pay ht = true -> base_type ht <> SIGHASH_SINGLE ->
  (i < length (inputs tx))%nat -> (i' < length (inputs tx'))%nat ->
  version tx = version tx' -> lock_time tx = lock_time tx' ->
  previous_output (input_at tx i) = previous_output (input_at tx' i') ->
  sequence (input_at tx i) = sequence (input_at tx' i') ->
  (base_type ht = SIGHASH_NONE \/ outputs tx = outputs tx') ->
  legacy_signature_hash tx i script ht = legacy_signature_hash tx' i' script ht.
Proof.
  intros Ha Hs Hi Hi' Hv Hlt Hp Hq Ho. unfold legacy_signature_hash.
  destruct (Nat.leb_spec (length (inputs tx)) i); [lia|]. destruct (Nat.leb_spec (length (inputs tx')) i'); [lia|].
  destruct (Z.eqb_spec (base_type ht) SIGHASH_SINGLE); [done|]. cbn [andb]. f_equal.
  unfold legacy_preimage. rewrite Ha. cbn [fold_left length]. unfold encode_signed_input.
  rewrite !Nat.eqb_refl, Hv, Hlt, Hp, Hq. cbn [negb andb]. do 3 f_equal. unfold encode_signed_outputs.
  destruct (Z.eqb_spec (base_type ht) SIGHASH_NONE); [done|]. destruct (Z.eqb_spec (base_type ht) SIGHASH_SINGLE); [done|].
  destruct Ho as [|Ho]; [done|]. by rewrite Ho.
Qed.

(** The BIP 341 digest exists exactly when the index is in range, every
    spent output is supplied, SIGHASH_SINGLE has its output and a tapscript
    spend has its leaf hash.  No condition is put on the hash type itself, so
    the types BIP 341 leaves undefined (for instance 4) are hashed too. *)
Lemma taproot_hash_defined (tx : Transaction) (i : nat) (spent : list TxOut) (ht ext : Z)
    (x : ScriptExecutionData) (c : TaprootCache) :
  is_Some (taproot_signature_hash tx i spent ht ext x c) <->
  (i < length (inputs tx))%nat /\ length spent = length (inputs tx) /\
  ((if ht =? SIGHASH_DEFAULT then SIGHASH_ALL else Z.land ht 3) = SIGHASH_SINGLE -> (i < length (outputs tx))%nat) /\
  (ext = 1 -> is_Some (exec_tapleaf_hash x)).
Proof.
  unfold taproot_signature_hash. set (ot := if ht =? SIGHASH_DEFAULT then _ else _).
  destruct (Nat.leb_spec (length (inputs tx)) i); cbn [orb]; [split; [by intros []|lia]|].
  destruct (Nat.eqb_spec (length spent) (length (inputs tx))); cbn [negb]; [|split; [by intros []|lia]].
  destruct (Z.eqb_spec ot SIGHASH_SINGLE); cbn [andb].
  - destruct (Nat.leb_spec (length (outputs tx)) i); [split; [by intros []|naive_solver lia]|].
    destruct (Z.eqb_spec ext 1); [|naive_solver]. destruct (exec_tapleaf_hash x); [naive_solver|].
    split; [by intros []|]. intros (_ & _ & _ & Hx). by apply Hx.
  - destruct (Z.eqb_spec ext 1); [|naive_solver]. destruct (exec_tapleaf_hash x); [naive_solver|].
    split; [by intros []|]. intros (_ & _ & _ & Hx). by apply Hx.
Qed.
End Properties.

Definition sample_tx (n : Z) : Transaction :=
  mkTransaction 2 [mkTxIn (mkOutPoint (replicate 32 n) 0) [] 5 []] [mkTxOut n []] 0.
Lemma legacy_hash_scope_witness :
  @legacy_signature_hash toy_digests (mkTransaction 2 (inputs (sample_tx 9) ++ inputs (sample_tx 1)) [] 0) 1 [0x51] 0x82 =
  @legacy_signature_hash toy_digests (sample_tx 1) 0 [0x51] 0x82.
Proof.
  apply (@legacy_hash_scope toy_digests (mkTransaction 2 (inputs (sample_tx 9) ++ inputs (sample_tx 1)) [] 0) (sample_tx 1) 1 0 [0x51] 0x82);
    [reflexivity|discriminate|simpl; lia|simpl; lia|reflexivity|reflexivity|reflexivity|reflexivity|left; reflexivity].
Defined.
