(* ===== verification/Checker.v ===== *)
(** * Signature checkers (crates/script/checker.rs)

    The trait [SignatureChecker] is a record of operations; [null_checker] and
    [transaction_checker] are its two implementations. *)

From S2P Require Import Prelude Wire Hash Transaction ScriptNum ScriptOps Sig Taproot Sighash.

Inductive SigVersion : Type := Base | WitnessV0 | TaprootKey | Tapscript.
#[export] Instance SigVersion_eq_dec : EqDecision SigVersion.
Proof. solve_decision. Defined.

Definition LOCKTIME_THRESHOLD : Z := 500000000.
Definition SEQUENCE_LOCKTIME_DISABLE_FLAG : Z := Z.shiftl 1 31.
Definition SEQUENCE_LOCKTIME_TYPE_FLAG : Z := Z.shiftl 1 22.
Definition SEQUENCE_LOCKTIME_MASK : Z := 0x0000ffff.

Record PrecomputedTransactionData : Type := mkPrecomputed { bip143 : Bip143Cache; taproot : TaprootCache }.
Definition PrecomputedTransactionData_new {D : Digests} (tx : Transaction) (spent_outputs : list TxOut) :=
  mkPrecomputed (Bip143Cache_new tx) (TaprootCache_new tx spent_outputs).

(** [trait SignatureChecker] *)
Record SignatureChecker : Type := mkChecker {
  check_ecdsa_signature : bytes -> bytes -> bytes -> SigVersion -> bool;
  check_schnorr_signature : bytes -> bytes -> SigVersion -> ScriptExecutionData -> ScriptResult unit;
  check_lock_time : Z -> bool;
  check_sequence : Z -> bool;
}.

(** [NullSignatureChecker], with the trait's default methods *)
Definition null_checker : SignatureChecker := {|
  check_ecdsa_signature _ _ _ _ := false;
  check_schnorr_signature _ _ _ _ := Err SchnorrSig;
  check_lock_time _ := false;
  check_sequence _ := false |}.

Section TransactionChecker.
Context {D : Digests} {S : Secp}.

Record TransactionSignatureChecker : Type := mkTxChecker {
  ck_tx : Transaction;
  input_index : nat;
  spent_outputs : list TxOut;
  ck_cache : PrecomputedTransactionData;
}.
Definition TransactionSignatureChecker_new (tx : Transaction) (i : nat) (spent : list TxOut) : TransactionSignatureChecker :=
  mkTxChecker tx i spent (PrecomputedTransactionData_new tx spent).
Definition with_midstates (c : TransactionSignatureChecker) (p : PrecomputedTransactionData) : TransactionSignatureChecker :=
  mkTxChecker (ck_tx c) (input_index c) (spent_outputs c) p.

Definition amount (c : TransactionSignatureChecker) : Z :=
  match spent_outputs c !! input_index c with Some o => sat_i64 (value o) | None => 0 end.

Definition tx_check_ecdsa (c : TransactionSignatureChecker) (sig pubkey script_code : bytes) (sv : SigVersion) : bool :=
  match last sig with
  | None => false
  | Some hash_type =>
    let sig_der := take (length sig - 1) sig in
    if (length sig_der =? 0)%nat then false else
    match PublicKey_from_slice pubkey with
    | None => false
    | Some pubkey =>
      match Signature_from_der_lax sig_der with
      | None => false
      | Some signature =>
        match sv with
        | Base => verify_ecdsa (legacy_signature_hash (ck_tx c) (input_index c) script_code hash_type) signature pubkey
        | WitnessV0 =>
          verify_ecdsa (witness_v0_signature_hash (ck_tx c) (input_index c) script_code (amount c) hash_type
            (bip143 (ck_cache c))) signature pubkey
        | TaprootKey | Tapscript => false
        end
      end
    end
  end.

Definition tx_check_schnorr (c : TransactionSignatureChecker) (sig pubkey : bytes) (sv : SigVersion)
    (exec_data : ScriptExecutionData) : ScriptResult unit :=
  let? '(signature_bytes, hash_type) :=
    if (length sig =? 64)%nat then Ok (sig, SIGHASH_DEFAULT)
    else if (length sig =? 65)%nat then
      if idx sig 64 =? SIGHASH_DEFAULT then Err SchnorrSigHashType else Ok (take 64 sig, idx sig 64)
    else Err SchnorrSigSize in
  let? ext_flag := match sv with TaprootKey => Ok 0 | Tapscript => Ok 1 | _ => Err SchnorrSig end in
  let? pubkey := ok_or (XOnlyPublicKey_from_slice pubkey) SchnorrSigPubkey in
  let? signature := ok_or (SchnorrSignature_from_slice signature_bytes) SchnorrSig in
  let? digest := ok_or (taproot_signature_hash (ck_tx c) (input_index c) (spent_outputs c) hash_type ext_flag
    exec_data (taproot (ck_cache c))) SchnorrSigHashType in
  if verify_schnorr signature digest pubkey then Ok tt else Err SchnorrSig.

Definition tx_check_lock_time (c : TransactionSignatureChecker) (stack_value : Z) : bool :=
  let tx_lock_time := lock_time (ck_tx c) in
  let same_kind := ((tx_lock_time <? LOCKTIME_THRESHOLD) && (stack_value <? LOCKTIME_THRESHOLD))
    || ((LOCKTIME_THRESHOLD <=? tx_lock_time) && (LOCKTIME_THRESHOLD <=? stack_value)) in
  if negb same_kind then false
  else if tx_lock_time <? stack_value then false
  else if sequence (input_at (ck_tx c) (input_index c)) =? SEQUENCE_FINAL then false
  else true.

Definition tx_check_sequence (c : TransactionSignatureChecker) (stack_value : Z) : bool :=
  let tx_sequence := sequence (input_at (ck_tx c) (input_index c)) in
  if version (ck_tx c) <? 2 then false
  else if negb (Z.land tx_sequence SEQUENCE_LOCKTIME_DISABLE_FLAG =? 0) then false
  else
    let mask := Z.lor SEQUENCE_LOCKTIME_TYPE_FLAG SEQUENCE_LOCKTIME_MASK in
    let tx_masked := Z.land tx_sequence mask in
    let stack_masked := Z.land stack_value mask in
    let same_kind := ((tx_masked <? SEQUENCE_LOCKTIME_TYPE_FLAG) && (stack_masked <? SEQUENCE_LOCKTIME_TYPE_FLAG))
      || ((SEQUENCE_LOCKTIME_TYPE_FLAG <=? tx_masked) && (SEQUENCE_LOCKTIME_TYPE_FLAG <=? stack_masked)) in
    if negb same_kind then false else stack_masked <=? tx_masked.

Definition transaction_checker (c : TransactionSignatureChecker) : SignatureChecker := {|
  check_ecdsa_signature := tx_check_ecdsa c;
  check_schnorr_signature := tx_check_schnorr c;
  check_lock_time := tx_check_lock_time c;
  check_sequence := tx_check_sequence c |}.

(** A lock time on the stack is satisfied exactly when it is of the same
    kind as the transaction's (both heights or both timestamps), not after
    it, and the input's sequence does not switch lock times off. *)
Lemma lock_time_satisfied (c : TransactionSignatureChecker) (v : Z) :
  check_lock_time (transaction_checker c) v = true <->
  v <= lock_time (ck_tx c) /\ (v < LOCKTIME_THRESHOLD <-> lock_time (ck_tx c) < LOCKTIME_THRESHOLD) /\
  sequence (input_at (ck_tx c) (input_index c)) <> SEQUENCE_FINAL.
Proof.
  cbn [check_lock_time transaction_checker]. unfold tx_check_lock_time.
  destruct (Z.ltb_spec (lock_time (ck_tx c)) LOCKTIME_THRESHOLD), (Z.ltb_spec v LOCKTIME_THRESHOLD),
    (Z.leb_spec LOCKTIME_THRESHOLD (lock_time (ck_tx c))), (Z.leb_spec LOCKTIME_THRESHOLD v); try lia; cbn [andb orb negb];
    destruct (Z.ltb_spec (lock_time (ck_tx c)) v), (Z.eqb_spec (sequence (input_at (ck_tx c) (input_index c))) SEQUENCE_FINAL);
    split; naive_solver lia.
Qed.
End TransactionChecker.
