(* ===== verification/Interpreter.v ===== *)
(** * The script interpreter (crates/script/interpreter.rs)

    [EvalScript] and [VerifyScript].  A stack is a list with its top first
    (the code's [Vec] has its top last); [remove], [swap] and [insert] near the
    top become patterns.  The loop over [Instructions] is a fold over the items
    the iterator yields; an early [return Err] is the error of the fold. *)

From S2P Require Import Prelude Wire Hash ScriptNum ScriptOps Sig Taproot Checker.

Definition MAX_SCRIPT_SIZE : nat := Z.to_nat 10000.
Definition MAX_OPS_PER_SCRIPT : nat := 201.
Definition MAX_SCRIPT_ELEMENT_SIZE : nat := 520.
Definition MAX_STACK_SIZE : nat := 1000.
Definition MAX_PUBKEYS_PER_MULTISIG : Z := 20.
Definition WITNESS_V0_SCRIPTHASH_SIZE : nat := 32.
Definition WITNESS_V0_KEYHASH_SIZE : nat := 20.
Definition OP_CHECKSIGADD : Z := 0xba.

Abbreviation Stack := (list bytes) (only parsing).

Record EvalState : Type := mkState {
  stack : list bytes;
  altstack : list bytes;
  condition_stack : list bool;
  op_count : nat;
  last_codeseparator : nat;
  exec_data : ScriptExecutionData;
}.
Definition with_stack (st : EvalState) (s : list bytes) : EvalState :=
  mkState s (altstack st) (condition_stack st) (op_count st) (last_codeseparator st) (exec_data st).
Definition with_conditions (st : EvalState) (c : list bool) : EvalState :=
  mkState (stack st) (altstack st) c (op_count st) (last_codeseparator st) (exec_data st).
Definition with_op_count (st : EvalState) (n : nat) : EvalState :=
  mkState (stack st) (altstack st) (condition_stack st) n (last_codeseparator st) (exec_data st).
Definition with_exec_data (st : EvalState) (x : ScriptExecutionData) : EvalState :=
  mkState (stack st) (altstack st) (condition_stack st) (op_count st) (last_codeseparator st) x.

Definition bool_elem (b : bool) : bytes := if b then [1] else [].

Definition pop (s : list bytes) : ScriptResult (bytes * list bytes) :=
  match s with x :: s => Ok (x, s) | [] => Err InvalidStackOperation end.
Definition require_depth (s : list bytes) (depth : nat) : ScriptResult unit :=
  if (length s <? depth)%nat then Err InvalidStackOperation else Ok tt.
(** [depth]-th element from the top, 1 being the top *)
Definition stack_top (s : list bytes) (depth : nat) : ScriptResult bytes :=
  if (length s <? depth)%nat then Err InvalidStackOperation else Ok (nth (depth - 1) s []).

Section Eval.
Context {D : Digests}.
Context (script : bytes) (flags : VerifyFlags) (checker : SignatureChecker) (sig_version : SigVersion).

Definition require_minimal : bool := flag flags FLAG_MINIMALDATA.
Definition legacy_limits : bool := match sig_version with Base | WitnessV0 => true | _ => false end.
Definition num4 (x : bytes) : ScriptResult Z := ScriptNum_decode x require_minimal DEFAULT_MAX_NUM_SIZE.

(** ** Stack opcodes *)

Definition exec_pick_roll (byte : Z) (s : list bytes) : ScriptResult (list bytes) :=
  let? _ := require_depth s 2 in
  let? '(top, s) := pop s in
  let? n := num4 top in
  if (n <? 0) || (Z.of_nat (length s) <=? n) then Err InvalidStackOperation else
  let k := Z.to_nat n in
  if byte =? OP_ROLL then Ok (nth k s [] :: delete k s) else Ok (nth k s [] :: s).

(** Opcodes from OP_2DROP to OP_SIZE, on the main stack. *)
Definition exec_stack (byte : Z) (s : list bytes) : ScriptResult (list bytes) :=
  if byte =? OP_2DROP then match s with _ :: _ :: s => Ok s | _ => Err InvalidStackOperation end
  else if byte =? OP_2DUP then
    match s with b :: a :: s => Ok (b :: a :: b :: a :: s) | _ => Err InvalidStackOperation end
  else if byte =? OP_3DUP then
    match s with c :: b :: a :: s => Ok (c :: b :: a :: c :: b :: a :: s) | _ => Err InvalidStackOperation end
  else if byte =? OP_2OVER then
    match s with d :: c :: b :: a :: s => Ok (b :: a :: d :: c :: b :: a :: s) | _ => Err InvalidStackOperation end
  else if byte =? OP_2ROT then
    match s with f :: e :: d :: c :: b :: a :: s => Ok (b :: a :: f :: e :: d :: c :: s) | _ => Err InvalidStackOperation end
  else if byte =? OP_2SWAP then
    match s with d :: c :: b :: a :: s => Ok (b :: a :: d :: c :: s) | _ => Err InvalidStackOperation end
  else if byte =? OP_IFDUP then
    let? top := stack_top s 1 in if cast_to_bool top then Ok (top :: s) else Ok s
  else if byte =? OP_DEPTH then Ok (ScriptNum_encode (Z.of_nat (length s)) :: s)
  else if byte =? OP_DROP then let? '(_, s) := pop s in Ok s
  else if byte =? OP_DUP then let? top := stack_top s 1 in Ok (top :: s)
  else if byte =? OP_NIP then match s with b :: _ :: s => Ok (b :: s) | _ => Err InvalidStackOperation end
  else if byte =? OP_OVER then let? item := stack_top s 2 in Ok (item :: s)
  else if (byte =? OP_PICK) || (byte =? OP_ROLL) then exec_pick_roll byte s
  else if byte =? OP_ROT then
    match s with c :: b :: a :: s => Ok (a :: c :: b :: s) | _ => Err InvalidStackOperation end
  else if byte =? OP_SWAP then match s with b :: a :: s => Ok (a :: b :: s) | _ => Err InvalidStackOperation end
  else if byte =? OP_TUCK then match s with b :: a :: s => Ok (b :: a :: b :: s) | _ => Err InvalidStackOperation end
  else let? top := stack_top s 1 in Ok (ScriptNum_encode (Z.of_nat (length top)) :: s).

(** ** Comparison and arithmetic *)

Definition exec_equal (byte : Z) (s : list bytes) : ScriptResult (list bytes) :=
  let? _ := require_depth s 2 in
  let? '(b, s) := pop s in
  let? '(a, s) := pop s in
  let equal := bool_decide (a = b) in
  if byte =? OP_EQUALVERIFY then (if negb equal then Err EqualVerify else Ok s)
  else Ok (bool_elem equal :: s).

Definition unary (byte value : Z) : Z :=
  if byte =? OP_1ADD then value + 1
  else if byte =? OP_1SUB then value - 1
  else if byte =? OP_NEGATE then - value
  else if byte =? OP_ABS then Z.abs value
  else if byte =? OP_NOT then Z.b2z (value =? 0)
  else Z.b2z (negb (value =? 0)).
Definition exec_unary (byte : Z) (s : list bytes) : ScriptResult (list bytes) :=
  let? '(top, s) := pop s in
  let? value := num4 top in
  Ok (ScriptNum_encode (unary byte value) :: s).

Definition binary (byte a b : Z) : Z :=
  if byte =? OP_ADD then a + b
  else if byte =? OP_SUB then a - b
  else if byte =? OP_BOOLAND then Z.b2z (negb (a =? 0) && negb (b =? 0))
  else if byte =? OP_BOOLOR then Z.b2z (negb (a =? 0) || negb (b =? 0))
  else if (byte =? OP_NUMEQUAL) || (byte =? OP_NUMEQUALVERIFY) then Z.b2z (a =? b)
  else if byte =? OP_NUMNOTEQUAL then Z.b2z (negb (a =? b))
  else if byte =? OP_LESSTHAN then Z.b2z (a <? b)
  else if byte =? OP_GREATERTHAN then Z.b2z (b <? a)
  else if byte =? OP_LESSTHANOREQUAL then Z.b2z (a <=? b)
  else if byte =? OP_GREATERTHANOREQUAL then Z.b2z (b <=? a)
  else if byte =? OP_MIN then Z.min a b
  else Z.max a b.
Definition exec_binary (byte : Z) (s : list bytes) : ScriptResult (list bytes) :=
  let? _ := require_depth s 2 in
  let? '(top, s) := pop s in
  let? b := num4 top in
  let? '(top, s) := pop s in
  let? a := num4 top in
  let r := binary byte a b in
  if byte =? OP_NUMEQUALVERIFY then (if r =? 0 then Err NumEqualVerify else Ok s)
  else Ok (ScriptNum_encode r :: s).

Definition exec_within (s : list bytes) : ScriptResult (list bytes) :=
  let? _ := require_depth s 3 in
  let? '(top, s) := pop s in
  let? mx := num4 top in
  let? '(top, s) := pop s in
  let? mn := num4 top in
  let? '(top, s) := pop s in
  let? value := num4 top in
  Ok (bool_elem ((mn <=? value) && (value <? mx)) :: s).

Definition digest_of (byte : Z) (d : bytes) : bytes :=
  if byte =? OP_RIPEMD160 then ripemd160 d
  else if byte =? OP_SHA1 then sha1 d
  else if byte =? OP_SHA256 then sha256 d
  else if byte =? OP_HASH160 then hash160 d
  else hash256 d.
Definition exec_hash (byte : Z) (s : list bytes) : ScriptResult (list bytes) :=
  let? '(d, s) := pop s in Ok (digest_of byte d :: s).

(** ** Signature opcodes *)

Definition build_script_code (last_cs : nat) (sig : bytes) : ScriptResult bytes :=
  let script_code := drop last_cs script in
  match sig_version with
  | Base =>
    let sig_push := push_data [] sig in
    let '(cleaned, found) := find_and_delete script_code sig_push in
    if (0 <? found)%nat && flag flags FLAG_CONST_SCRIPTCODE then Err SigFindAndDelete
    else if flag flags FLAG_CONST_SCRIPTCODE && contains_codeseparator script then Err OpCodeseparator
    else Ok cleaned
  | _ => Ok script_code
  end.

Definition is_v0 : bool := bool_decide (sig_version = WitnessV0).

Definition eval_checksig_tapscript (sig pubkey : bytes) (x : ScriptExecutionData)
    : ScriptResult (bool * ScriptExecutionData) :=
  let success := negb (length sig =? 0)%nat in
  let? x :=
    if success then
      let left := validation_weight_left x - VALIDATION_WEIGHT_PER_SIGOP_PASSED in
      if left <? 0 then Err TapscriptValidationWeight
      else Ok (mkExecData (exec_tapleaf_hash x) (annex_hash x) (codeseparator_pos x) left)
    else Ok x in
  if (length pubkey =? 0)%nat then Err PubkeyType
  else if (length pubkey =? 32)%nat then
    let? _ := if success then check_schnorr_signature checker sig pubkey Tapscript x else Ok tt in
    Ok (success, x)
  else if flag flags FLAG_DISCOURAGE_UPGRADABLE_PUBKEYTYPE then Err DiscourageUpgradablePubkeyType
  else Ok (success, x).

(** One ECDSA check of OP_CHECKSIG, with NULLFAIL. *)
Definition checksig_ecdsa (last_cs : nat) (sig pubkey : bytes) : ScriptResult bool :=
  let? script_code := build_script_code last_cs sig in
  let? _ := check_signature_encoding sig flags in
  let? _ := check_pubkey_encoding pubkey flags is_v0 in
  let ok := negb (length sig =? 0)%nat && check_ecdsa_signature checker sig pubkey script_code sig_version in
  if negb ok && flag flags FLAG_NULLFAIL && negb (length sig =? 0)%nat then Err SigNullFail else Ok ok.

Definition exec_checksig (byte : Z) (st : EvalState) : ScriptResult EvalState :=
  let? _ := require_depth (stack st) 2 in
  let? '(pubkey, s) := pop (stack st) in
  let? '(sig, s) := pop s in
  let? '(success, x) :=
    if bool_decide (sig_version = Tapscript) then eval_checksig_tapscript sig pubkey (exec_data st)
    else let? ok := checksig_ecdsa (last_codeseparator st) sig pubkey in Ok (ok, exec_data st) in
  let st := with_exec_data st x in
  if byte =? OP_CHECKSIGVERIFY then
    if negb success then Err CheckSigVerify else Ok (with_stack st s)
  else Ok (with_stack st (bool_elem success :: s)).

Definition exec_checksigadd (st : EvalState) : ScriptResult EvalState :=
  if negb (bool_decide (sig_version = Tapscript)) then Err BadOpcode else
  let? _ := require_depth (stack st) 3 in
  let? '(pubkey, s) := pop (stack st) in
  let? '(top, s) := pop s in
  let? num := num4 top in
  let? '(sig, s) := pop s in
  let? '(success, x) := eval_checksig_tapscript sig pubkey (exec_data st) in
  Ok (with_stack (with_exec_data st x) (ScriptNum_encode (num + Z.b2z success) :: s)).

(** The [while remaining_sigs > 0] loop: [sigs] from [sig_index] on, [keys]
    from [key_index] on; returns success and the unmatched signatures.  The
    arm with no key left is where [pubkeys[key_index]] would panic. *)
Fixpoint multisig_loop (last_cs : nat) (sigs keys : list bytes) : ScriptResult (bool * list bytes) :=
  match sigs with
  | [] => Ok (true, [])
  | sig :: sigs' =>
    match keys with
    | [] => Err UnknownError
    | pubkey :: keys' =>
      let? _ := check_signature_encoding sig flags in
      let? _ := check_pubkey_encoding pubkey flags is_v0 in
      let? script_code := build_script_code last_cs sig in
      let matched := negb (length sig =? 0)%nat && check_ecdsa_signature checker sig pubkey script_code sig_version in
      let sigs := if matched then sigs' else sigs in
      if (length keys' <? length sigs)%nat then Ok (false, sigs) else multisig_loop last_cs sigs keys'
    end
  end.

(** [eval_checkmultisig]: the verdict, the stack and the operation count. *)
Definition eval_checkmultisig (st : EvalState) : ScriptResult (bool * list bytes * nat) :=
  let? '(top, s) := pop (stack st) in
  let? key_count := num4 top in
  if negb ((0 <=? key_count) && (key_count <=? MAX_PUBKEYS_PER_MULTISIG)) then Err PubkeyCount else
  let keys_n := Z.to_nat key_count in
  let ops := (op_count st + keys_n)%nat in
  if (MAX_OPS_PER_SCRIPT <? ops)%nat then Err OpCount else
  let? _ := require_depth s keys_n in
  let pubkeys := reverse (take keys_n s) in
  let s := drop keys_n s in
  let? '(top, s) := pop s in
  let? sig_count := num4 top in
  if (sig_count <? 0) || (key_count <? sig_count) then Err SigCount else
  let sigs_n := Z.to_nat sig_count in
  let? _ := require_depth s sigs_n in
  let sigs := reverse (take sigs_n s) in
  let s := drop sigs_n s in
  let? '(dummy, s) := pop s in
  if flag flags FLAG_NULLDUMMY && negb (length dummy =? 0)%nat then Err SigNullDummy else
  let? '(success, unmatched) := multisig_loop (last_codeseparator st) sigs pubkeys in
  if negb success && flag flags FLAG_NULLFAIL && existsb (fun sig => negb (length sig =? 0)%nat) unmatched
  then Err SigNullFail else Ok (success, s, ops).

Definition exec_multisig (byte : Z) (st : EvalState) : ScriptResult EvalState :=
  if bool_decide (sig_version = Tapscript) then Err TapscriptCheckMultisig else
  let? '(success, s, ops) := eval_checkmultisig st in
  let st := with_op_count st ops in
  if byte =? OP_CHECKMULTISIGVERIFY then
    if negb success then Err CheckMultisigVerify else Ok (with_stack st s)
  else Ok (with_stack st (bool_elem success :: s)).

(** ** Control flow, lock times and the altstack *)

Definition executing (st : EvalState) : bool := forallb id (condition_stack st).

(** OP_IF and OP_NOTIF: the condition is popped only in an executing branch. *)
Definition exec_if (byte : Z) (st : EvalState) : ScriptResult EvalState :=
  if executing st then
    let? '(top, s) := pop (stack st) in
    let non_minimal := (1 <? length top)%nat || ((length top =? 1)%nat && negb (idx top 0 =? 1)) in
    let? _ := match sig_version with
      | Tapscript => if non_minimal then Err TapscriptMinimalIf else Ok tt
      | WitnessV0 => if flag flags FLAG_MINIMALIF && non_minimal then Err MinimalIf else Ok tt
      | _ => Ok tt
      end in
    let value := if byte =? OP_NOTIF then negb (cast_to_bool top) else cast_to_bool top in
    Ok (with_conditions (with_stack st s) (value :: condition_stack st))
  else Ok (with_conditions st (false :: condition_stack st)).

Definition exec_else (st : EvalState) : ScriptResult EvalState :=
  match condition_stack st with
  | c :: cs => Ok (with_conditions st (negb c :: cs))
  | [] => Err UnbalancedConditional
  end.
Definition exec_endif (st : EvalState) : ScriptResult EvalState :=
  match condition_stack st with
  | _ :: cs => Ok (with_conditions st cs)
  | [] => Err UnbalancedConditional
  end.

Definition exec_verify (s : list bytes) : ScriptResult (list bytes) :=
  let? '(top, s) := pop s in
  if negb (cast_to_bool top) then Err Verify else Ok s.

(** The active branches of OP_CHECKLOCKTIMEVERIFY and OP_CHECKSEQUENCEVERIFY,
    which read the top of the stack and leave it. *)
Definition exec_cltv (s : list bytes) : ScriptResult unit :=
  let? top := stack_top s 1 in
  let? lt := ScriptNum_decode top require_minimal 5 in
  if lt <? 0 then Err NegativeLocktime
  else if negb (check_lock_time checker lt) then Err UnsatisfiedLocktime else Ok tt.
Definition exec_csv (s : list bytes) : ScriptResult unit :=
  let? top := stack_top s 1 in
  let? seq := ScriptNum_decode top require_minimal 5 in
  if seq <? 0 then Err NegativeLocktime
  else if (Z.land seq SEQUENCE_LOCKTIME_DISABLE_FLAG =? 0) && negb (check_sequence checker seq)
  then Err UnsatisfiedLocktime else Ok tt.

Definition exec_toalt (st : EvalState) : ScriptResult EvalState :=
  let? '(top, s) := pop (stack st) in
  Ok (mkState s (top :: altstack st) (condition_stack st) (op_count st) (last_codeseparator st) (exec_data st)).
Definition exec_fromalt (st : EvalState) : ScriptResult EvalState :=
  match altstack st with
  | top :: alt =>
    Ok (mkState (top :: stack st) alt (condition_stack st) (op_count st) (last_codeseparator st) (exec_data st))
  | [] => Err InvalidAltstackOperation
  end.

Definition exec_codeseparator (i : Instruction) (st : EvalState) : ScriptResult EvalState :=
  let x := exec_data st in
  Ok (mkState (stack st) (altstack st) (condition_stack st) (op_count st) (next i)
    (mkExecData (exec_tapleaf_hash x) (annex_hash x) (wrap_u 32 (Z.of_nat (offset i))) (validation_weight_left x))).

(** ** The [match byte] of the loop *)

Definition on_stack (st : EvalState) (f : list bytes -> ScriptResult (list bytes)) : ScriptResult EvalState :=
  let? s := f (stack st) in Ok (with_stack st s).
Definition between (lo x hi : Z) : bool := (lo <=? x) && (x <=? hi).
Definition discouraged : ScriptResult unit :=
  if flag flags FLAG_DISCOURAGE_UPGRADABLE_NOPS then Err DiscourageUpgradableNops else Ok tt.

Definition exec_opcode (i : Instruction) (st : EvalState) : ScriptResult EvalState :=
  let byte := opcode i in
  if (byte =? OP_1NEGATE) || between OP_1 byte OP_16 then
    let? v := ok_or (decode_op_n byte) BadOpcode in Ok (with_stack st (ScriptNum_encode v :: stack st))
  else if byte =? OP_NOP then Ok st
  else if byte =? OP_CHECKLOCKTIMEVERIFY then let? _ := exec_cltv (stack st) in Ok st
  else if byte =? OP_CHECKSEQUENCEVERIFY then let? _ := exec_csv (stack st) in Ok st
  else if (byte =? OP_NOP1) || between OP_NOP4 byte OP_NOP10 then let? _ := discouraged in Ok st
  else if (byte =? OP_IF) || (byte =? OP_NOTIF) then exec_if byte st
  else if byte =? OP_ELSE then exec_else st
  else if byte =? OP_ENDIF then exec_endif st
  else if byte =? OP_VERIFY then on_stack st exec_verify
  else if byte =? OP_RETURN then Err OpReturn
  else if byte =? OP_TOALTSTACK then exec_toalt st
  else if byte =? OP_FROMALTSTACK then exec_fromalt st
  else if between OP_2DROP byte OP_TUCK || (byte =? OP_SIZE) then on_stack st (exec_stack byte)
  else if (byte =? OP_EQUAL) || (byte =? OP_EQUALVERIFY) then on_stack st (exec_equal byte)
  else if between OP_1ADD byte OP_1SUB || between OP_NEGATE byte OP_0NOTEQUAL then on_stack st (exec_unary byte)
  else if between OP_ADD byte OP_SUB || between OP_BOOLAND byte OP_MAX then on_stack st (exec_binary byte)
  else if byte =? OP_WITHIN then on_stack st exec_within
  else if between OP_RIPEMD160 byte OP_HASH256 then on_stack st (exec_hash byte)
  else if byte =? OP_CODESEPARATOR then exec_codeseparator i st
  else if (byte =? OP_CHECKSIG) || (byte =? OP_CHECKSIGVERIFY) then exec_checksig byte st
  else if byte =? OP_CHECKSIGADD then exec_checksigadd st
  else if (byte =? OP_CHECKMULTISIG) || (byte =? OP_CHECKMULTISIGVERIFY) then exec_multisig byte st
  else Err BadOpcode.

(** ** One iteration of the loop, and the loop *)

(** A lock-time opcode whose soft fork is not active: a NOP, whose [continue]
    also skips the stack-size check. *)
Definition inactive_locktime (byte : Z) : bool :=
  (byte =? OP_CHECKLOCKTIMEVERIFY) && negb (flag flags FLAG_CHECKLOCKTIMEVERIFY)
  || (byte =? OP_CHECKSEQUENCEVERIFY) && negb (flag flags FLAG_CHECKSEQUENCEVERIFY).

Definition count_op (byte : Z) (st : EvalState) : ScriptResult EvalState :=
  if legacy_limits && counts_towards_op_limit byte then
    if (MAX_OPS_PER_SCRIPT <? S (op_count st))%nat then Err OpCount else Ok (with_op_count st (S (op_count st)))
  else Ok st.

Definition exec_push (i : Instruction) (st : EvalState) : ScriptResult EvalState :=
  if require_minimal && negb (check_minimal_push (data i) (opcode i)) then Err MinimalData
  else Ok (with_stack st (data i :: stack st)).

Definition step (st : EvalState) (i : Instruction) : ScriptResult EvalState :=
  let byte := opcode i in
  if (MAX_SCRIPT_ELEMENT_SIZE <? length (data i))%nat then Err PushSize else
  let? st := count_op byte st in
  if is_disabled byte then Err DisabledOpcode
  else if negb (executing st) && negb (between OP_IF byte OP_ENDIF) then Ok st
  else if inactive_locktime byte then let? _ := discouraged in Ok st
  else
    let? st := if byte <=? OP_PUSHDATA4 then exec_push i st else exec_opcode i st in
    if (MAX_STACK_SIZE <? length (stack st) + length (altstack st))%nat then Err StackSize else Ok st.

Fixpoint eval_instrs (l : list (ScriptResult Instruction)) (st : EvalState) : ScriptResult EvalState :=
  match l with
  | [] => Ok st
  | r :: l => let? i := r in let? st := step st i in eval_instrs l st
  end.

Definition init_state (s : list bytes) (x : ScriptExecutionData) : EvalState := mkState s [] [] 0 0 x.

(** The stack and the execution data, which the code updates in place. *)
Definition eval_script_with_data (s : list bytes) (x : ScriptExecutionData)
    : ScriptResult (list bytes * ScriptExecutionData) :=
  if legacy_limits && (MAX_SCRIPT_SIZE <? length script)%nat then Err ScriptSize else
  let? st := eval_instrs (instructions script) (init_state s x) in
  match condition_stack st with
  | [] => Ok (stack st, exec_data st)
  | _ => Err UnbalancedConditional
  end.

Definition eval_script (s : list bytes) : ScriptResult (list bytes) :=
  let? '(s, _) := eval_script_with_data s ScriptExecutionData_new in Ok s.
End Eval.

(** ** VerifyScript *)

Section Verify.
Context {D : Digests} {K : Secp}.
Context (flags : VerifyFlags) (checker : SignatureChecker).

(** The scan for OP_SUCCESSx: [Ok true] when one is met before an error. *)
Fixpoint scan_op_success (l : list (ScriptResult Instruction)) : ScriptResult bool :=
  match l with
  | [] => Ok false
  | r :: l => let? i := r in if is_op_success (opcode i) then Ok true else scan_op_success l
  end.

(** The checks on the initial stack, the evaluation and the clean-stack rule. *)
Definition run_witness_script (s : list bytes) (script : bytes) (sv : SigVersion) (x : ScriptExecutionData)
    : ScriptResult unit :=
  if existsb (fun e => (MAX_SCRIPT_ELEMENT_SIZE <? length e)%nat) s then Err PushSize else
  let? '(s, _) := eval_script_with_data script flags checker sv s x in
  match s with
  | [top] => if negb (cast_to_bool top) then Err EvalFalse else Ok tt
  | _ => Err CleanStack
  end.

Definition execute_witness_script (s : list bytes) (script : bytes) (sv : SigVersion) (x : ScriptExecutionData)
    : ScriptResult unit :=
  if bool_decide (sv = Tapscript) then
    let? success := scan_op_success (instructions script) in
    if success then
      if flag flags FLAG_DISCOURAGE_OP_SUCCESS then Err DiscourageOpSuccess else Ok tt
    else if (MAX_STACK_SIZE <? length s)%nat then Err StackSize
    else run_witness_script s script sv x
  else run_witness_script s script sv x.

Definition serialized_witness_size (witness : list bytes) : Z :=
  fold_left (fun total item => total + Z.of_nat (length (write_compact_size (Z.of_nat (length item)))) + Z.of_nat (length item))
    witness (Z.of_nat (length (write_compact_size (Z.of_nat (length witness))))).

(** The P2PKH template over a 20-byte program. *)
Definition implied_script (prog : bytes) : bytes :=
  [OP_DUP; OP_HASH160; 0x14] ++ prog ++ [OP_EQUALVERIFY; OP_CHECKSIG].

(** Witness stacks come bottom first, as the wire has them: [reverse] puts the
    top first. *)
Definition verify_witness_v0 (witness : list bytes) (prog : bytes) : ScriptResult unit :=
  if (length prog =? WITNESS_V0_SCRIPTHASH_SIZE)%nat then
    match reverse witness with
    | [] => Err WitnessProgramWitnessEmpty
    | witness_script :: s =>
      if bool_decide (sha256 witness_script = prog)
      then execute_witness_script s witness_script WitnessV0 ScriptExecutionData_new
      else Err WitnessProgramMismatch
    end
  else if (length prog =? WITNESS_V0_KEYHASH_SIZE)%nat then
    if negb (length witness =? 2)%nat then Err WitnessProgramMismatch
    else execute_witness_script (reverse witness) (implied_script prog) WitnessV0 ScriptExecutionData_new
  else Err WitnessProgramWrongLength.

(** The annex, if there is one, is taken off the stack and hashed. *)
Definition split_annex (s : list bytes) : list bytes * option bytes :=
  match s with
  | last :: ((_ :: _) as rest) =>
    match last with
    | tag :: _ =>
      if tag =? ANNEX_TAG then (rest, Some (sha256 (write_compact_size (Z.of_nat (length last)) ++ last)))
      else (s, None)
    | [] => (s, None)
    end
  | _ => (s, None)
  end.

Definition verify_taproot (witness : list bytes) (prog : bytes) : ScriptResult unit :=
  if (length witness =? 0)%nat then Err WitnessProgramWitnessEmpty else
  let '(s, annex) := split_annex (reverse witness) in
  match s with
  | [sig] => check_schnorr_signature checker sig prog TaprootKey (mkExecData None annex U32_MAX 0)
  | control :: script :: s =>
    match parse_control_block control with
    | None => Err TaprootWrongControlSize
    | Some control =>
      let tapleaf_hash := compute_tapleaf_hash (leaf_version control) script in
      if negb (verify_taproot_commitment control prog tapleaf_hash) then Err WitnessProgramMismatch
      else if Z.land (leaf_version control) TAPROOT_LEAF_MASK =? TAPROOT_LEAF_TAPSCRIPT then
        execute_witness_script s script Tapscript
          (mkExecData (Some tapleaf_hash) annex U32_MAX (serialized_witness_size witness + VALIDATION_WEIGHT_OFFSET))
      else if flag flags FLAG_DISCOURAGE_UPGRADABLE_TAPROOT_VERSION then Err DiscourageUpgradableTaprootVersion
      else Ok tt
    end
  | [] => Err WitnessProgramWitnessEmpty
  end.

Definition verify_witness_program (witness : list bytes) (version : Z) (prog : bytes) (is_p2sh : bool)
    : ScriptResult unit :=
  if version =? 0 then verify_witness_v0 witness prog
  else if (version =? 1) && (length prog =? WITNESS_V1_TAPROOT_SIZE)%nat && negb is_p2sh && flag flags FLAG_TAPROOT
  then verify_taproot witness prog
  else if flag flags FLAG_DISCOURAGE_UPGRADABLE_WITNESS_PROGRAM then Err DiscourageUpgradableWitnessProgram
  else Ok tt.

(** [Vec::truncate(1)] keeps the bottom element. *)
Definition truncate1 (s : list bytes) : list bytes := match last s with Some x => [x] | None => [] end.

Definition top_true (s : list bytes) : bool := match s with top :: _ => cast_to_bool top | [] => false end.

(** The native witness block: the stack and [had_witness]. *)
Definition verify_native_witness (script_sig script_pubkey : bytes) (witness s : list bytes)
    : ScriptResult (list bytes * bool) :=
  if flag flags FLAG_WITNESS then
    match parse_witness_program script_pubkey with
    | Some p =>
      if negb (length script_sig =? 0)%nat then Err WitnessMalleated else
      let? _ := verify_witness_program witness (wp_version p) (program p) false in
      Ok (truncate1 s, true)
    | None => Ok (s, false)
    end
  else Ok (s, false).

(** The BIP 16 block, from the stack [after_sig] that scriptSig left. *)
Definition verify_p2sh (script_sig : bytes) (witness after_sig : list bytes) (had_witness : bool)
    : ScriptResult (list bytes * bool) :=
  if negb (is_push_only script_sig) then Err SigPushOnly else
  let? '(redeem_script, s) := pop after_sig in
  let? s := eval_script redeem_script flags checker Base s in
  if negb (top_true s) then Err EvalFalse else
  if flag flags FLAG_WITNESS then
    match parse_witness_program redeem_script with
    | Some p =>
      if negb (bool_decide (script_sig = push_data [] redeem_script)) then Err WitnessMalleatedP2sh else
      let? _ := verify_witness_program witness (wp_version p) (program p) true in
      Ok (truncate1 s, true)
    | None => Ok (s, had_witness)
    end
  else Ok (s, had_witness).

Definition verify_script (script_sig script_pubkey : bytes) (witness : list bytes) : ScriptResult unit :=
  if negb (flag flags FLAG_WITNESS) && negb (length witness =? 0)%nat then Err WitnessUnexpected
  else if flag flags FLAG_SIGPUSHONLY && negb (is_push_only script_sig) then Err SigPushOnly
  else
  let? after_sig := eval_script script_sig flags checker Base [] in
  let? s := eval_script script_pubkey flags checker Base after_sig in
  if negb (top_true s) then Err EvalFalse else
  let? '(s, had_witness) := verify_native_witness script_sig script_pubkey witness s in
  let? '(s, had_witness) :=
    if flag flags FLAG_P2SH && is_pay_to_script_hash script_pubkey
    then verify_p2sh script_sig witness after_sig had_witness
    else Ok (s, had_witness) in
  if flag flags FLAG_CLEANSTACK && negb (length s =? 1)%nat then Err CleanStack
  else if flag flags FLAG_WITNESS && negb had_witness && negb (length witness =? 0)%nat then Err WitnessUnexpected
  else Ok tt.
End Verify.
