(* ===== verification/InterpreterProofs.v ===== *)
(** * Properties of the script interpreter

    The resource limits every reachable evaluation state respects, the sigop
    budget of tapscript, branches that are not taken, the meaning of
    OP_CHECKMULTISIG, and the spends of the standard output types. *)

From S2P Require Import Prelude Wire Hash ScriptNum ScriptOps Sig Taproot Checker Interpreter.

(** ** Element sizes *)

Definition elems_ok (s : list bytes) : Prop :=
  Forall (fun e => (length e <= MAX_SCRIPT_ELEMENT_SIZE)%nat) s.

Lemma magnitude_length fuel z : (length (magnitude_loop fuel z) <= fuel)%nat.
Proof.
  revert z; induction fuel as [|fuel IH]; intros z; cbn [magnitude_loop]; [simpl; lia|].
  destruct (0 <? z); simpl; [|lia]. specialize (IH (Z.shiftr z 8)). lia.
Qed.

Lemma encode_small v : (length (ScriptNum_encode v) <= MAX_SCRIPT_ELEMENT_SIZE)%nat.
Proof.
  unfold ScriptNum_encode, MAX_SCRIPT_ELEMENT_SIZE. destruct (v =? 0); [simpl; lia|].
  pose proof (magnitude_length 8 (Z.abs v)) as H. revert H. generalize (magnitude_loop 8 (Z.abs v)). intros r H.
  case_match; [rewrite length_app; simpl; lia|].
  destruct (v <? 0); [rewrite length_insert|]; lia.
Qed.

Lemma bool_elem_small b : (length (bool_elem b) <= MAX_SCRIPT_ELEMENT_SIZE)%nat.
Proof. unfold MAX_SCRIPT_ELEMENT_SIZE. destruct b; simpl; lia. Qed.

Lemma digest_small {D : Digests} {DO : DigestsOk D} byte d :
  (length (digest_of byte d) <= MAX_SCRIPT_ELEMENT_SIZE)%nat.
Proof.
  unfold digest_of, hash160, hash256, MAX_SCRIPT_ELEMENT_SIZE.
  repeat case_match;
    [pose proof (ripemd160_array d) as [-> _]|pose proof (sha1_array d) as [-> _]|pose proof (sha256_array d) as [-> _]
    |pose proof (ripemd160_array (sha256 d)) as [-> _]|pose proof (sha256_array (sha256 d)) as [-> _]]; lia.
Qed.

Lemma elems_ok_nth s k : elems_ok s -> (length (nth k s []) <= MAX_SCRIPT_ELEMENT_SIZE)%nat.
Proof.
  intros H. rewrite nth_lookup. destruct (s !! k) eqn:E; [by eapply Forall_lookup in H|simpl; lia].
Qed.

Lemma elems_ok_delete s k : elems_ok s -> elems_ok (delete k s).
Proof. intros H. rewrite delete_take_drop. apply Forall_app; split; [by apply Forall_take|by apply Forall_drop]. Qed.

Lemma elems_ok_cons x s : (length x <= MAX_SCRIPT_ELEMENT_SIZE)%nat -> elems_ok s -> elems_ok (x :: s).
Proof. by constructor. Qed.
Lemma elems_ok_cons_inv x s : elems_ok (x :: s) -> (length x <= MAX_SCRIPT_ELEMENT_SIZE)%nat /\ elems_ok s.
Proof. intros H. by inversion H. Qed.
Lemma elems_ok_nil : elems_ok [].
Proof. constructor. Qed.
Lemma elems_ok_drop n s : elems_ok s -> elems_ok (drop n s).
Proof. apply Forall_drop. Qed.

Lemma pop_inv s x s' : pop s = Ok (x, s') -> s = x :: s'.
Proof. destruct s; simpl; congruence. Qed.

Lemma stack_top_inv s k x : stack_top s k = Ok x -> x = nth (k - 1) s [].
Proof. unfold stack_top. destruct (_ <? _)%nat; congruence. Qed.

Create HintDb elems.
#[export] Hint Resolve encode_small bool_elem_small digest_small elems_ok_nth elems_ok_delete : elems.
#[export] Hint Resolve elems_ok_cons elems_ok_nil elems_ok_drop : elems.

(** Splits a successful opcode into its branches and the stacks into their
    elements. *)
Ltac step_branch :=
  match goal with
  | H : rbind _ _ = Ok _ |- _ => apply rbind_ok in H as (? & ? & H)
  | H : pop _ = Ok (_, _) |- _ => apply pop_inv in H; subst
  | H : pop _ = Ok ?p |- _ => is_var p; destruct p
  | H : stack_top _ _ = Ok _ |- _ => apply stack_top_inv in H; subst
  | H : Ok _ = Ok _ |- _ => injection H as H; subst
  | H : Err _ = Ok _ |- _ => discriminate H
  | H : (if ?b then _ else _) = Ok _ |- _ => destruct b eqn:?
  | H : match ?s with [] => _ | _ :: _ => _ end = Ok _ |- _ => destruct s
  | H : (let '(_, _) := ?p in _) = Ok _ |- _ => destruct p
  | H : elems_ok (_ :: _) |- _ => apply elems_ok_cons_inv in H as [? H]
  end.

Section OpElems.
Context {D : Digests} {DO : DigestsOk D}.
Context (flags : VerifyFlags).

Lemma exec_pick_roll_elems byte s s' : exec_pick_roll flags byte s = Ok s' -> elems_ok s -> elems_ok s'.
Proof. unfold exec_pick_roll. intros H Hs. repeat step_branch; auto 10 with elems. Qed.

Lemma exec_stack_elems byte s s' : exec_stack flags byte s = Ok s' -> elems_ok s -> elems_ok s'.
Proof.
  unfold exec_stack. intros H Hs.
  repeat step_branch; eauto using exec_pick_roll_elems; auto 12 with elems.
Qed.

Lemma exec_equal_elems byte s s' : exec_equal byte s = Ok s' -> elems_ok s -> elems_ok s'.
Proof. unfold exec_equal. intros H Hs. repeat step_branch; auto with elems. Qed.

Lemma exec_unary_elems byte s s' : exec_unary flags byte s = Ok s' -> elems_ok s -> elems_ok s'.
Proof. unfold exec_unary. intros H Hs. repeat step_branch; auto with elems. Qed.

Lemma exec_binary_elems byte s s' : exec_binary flags byte s = Ok s' -> elems_ok s -> elems_ok s'.
Proof. unfold exec_binary. intros H Hs. repeat step_branch; auto with elems. Qed.

Lemma exec_within_elems s s' : exec_within flags s = Ok s' -> elems_ok s -> elems_ok s'.
Proof. unfold exec_within. intros H Hs. repeat step_branch; auto with elems. Qed.

Lemma exec_hash_elems byte s s' : exec_hash byte s = Ok s' -> elems_ok s -> elems_ok s'.
Proof. unfold exec_hash. intros H Hs. repeat step_branch; auto with elems. Qed.

Lemma exec_verify_elems s s' : exec_verify s = Ok s' -> elems_ok s -> elems_ok s'.
Proof. unfold exec_verify. intros H Hs. repeat step_branch; auto with elems. Qed.
End OpElems.
#[export] Hint Resolve exec_stack_elems exec_equal_elems exec_unary_elems exec_binary_elems exec_within_elems
  exec_hash_elems exec_verify_elems : elems.

(** ** The limits of an evaluation state *)

(** What holds between the opcodes; the stack size is checked after each. *)
Record state_bounded (script : bytes) (st : EvalState) : Prop := {
  sb_stack : elems_ok (stack st);
  sb_alt : elems_ok (altstack st);
  sb_ops : (op_count st <= MAX_OPS_PER_SCRIPT)%nat;
  sb_sep : (last_codeseparator st <= length script)%nat;
  sb_weight : 0 <= validation_weight_left (exec_data st);
}.
Definition state_ok (script : bytes) (st : EvalState) : Prop :=
  state_bounded script st /\ (length (stack st) + length (altstack st) <= MAX_STACK_SIZE)%nat.

Section StateBounds.
Context {D : Digests} {DO : DigestsOk D}.
Context (script : bytes) (flags : VerifyFlags) (checker : SignatureChecker) (sv : SigVersion).
Abbreviation bounded := (state_bounded script).

Lemma on_stack_bounded st f st' : on_stack st f = Ok st' -> bounded st ->
  (forall s s', f s = Ok s' -> elems_ok s -> elems_ok s') -> bounded st'.
Proof. unfold on_stack. intros H [] Hf. repeat step_branch. constructor; simpl; eauto. Qed.

Lemma checksig_tapscript_weight sig pk x b x' : eval_checksig_tapscript flags checker sig pk x = Ok (b, x') ->
  0 <= validation_weight_left x -> 0 <= validation_weight_left x'.
Proof.
  unfold eval_checksig_tapscript. intros H Hx. apply rbind_ok in H as (y & Hy & H).
  assert (0 <= validation_weight_left y) as Hl.
  { destruct (negb _); [|congruence]. destruct (Z.ltb_spec (validation_weight_left x - VALIDATION_WEIGHT_PER_SIGOP_PASSED) 0); [done|].
    injection Hy as <-. simpl. lia. }
  repeat step_branch; simplify_eq; done.
Qed.

(** Opens the state so that the stack equations substitute. *)
Ltac bounded_cases st H :=
  intros H []; destruct st as [s0 alt cnds ops sep x0]; cbn [stack altstack condition_stack op_count last_codeseparator exec_data] in *;
  repeat step_branch; simplify_eq; constructor; simpl; eauto using checksig_tapscript_weight; auto with elems.

Lemma exec_if_bounded byte st st' : exec_if flags sv byte st = Ok st' -> bounded st -> bounded st'.
Proof. unfold exec_if. bounded_cases st H. Qed.

Lemma exec_checksig_bounded byte st st' : exec_checksig script flags checker sv byte st = Ok st' -> bounded st -> bounded st'.
Proof. unfold exec_checksig. bounded_cases st H. Qed.

Lemma exec_checksigadd_bounded st st' : exec_checksigadd flags checker sv st = Ok st' -> bounded st -> bounded st'.
Proof. unfold exec_checksigadd. bounded_cases st H. Qed.

Lemma drop_cons_elems n s x s' : drop n s = x :: s' -> elems_ok s -> elems_ok s'.
Proof. intros E H. apply (elems_ok_drop n) in H. rewrite E in H. apply (elems_ok_cons_inv _ _ H). Qed.

Lemma eval_checkmultisig_bounded st b s n : eval_checkmultisig script flags checker sv st = Ok (b, s, n) ->
  bounded st -> elems_ok s /\ (n <= MAX_OPS_PER_SCRIPT)%nat.
Proof.
  unfold eval_checkmultisig. intros H []. destruct st as [s0 alt cnds ops sep x0]; cbn [stack op_count last_codeseparator] in *.
  repeat step_branch; simplify_eq; repeat match goal with H : (_ <? _)%nat = false |- _ => apply Nat.ltb_ge in H end.
  all: split; [eauto using drop_cons_elems|lia].
Qed.

Lemma exec_multisig_bounded byte st st' : exec_multisig script flags checker sv byte st = Ok st' -> bounded st -> bounded st'.
Proof.
  unfold exec_multisig. intros H B. repeat step_branch; simplify_eq;
    match goal with H : eval_checkmultisig _ _ _ _ _ = _ |- _ => apply eval_checkmultisig_bounded in H as [??]; [|done] end;
    destruct B; constructor; simpl; auto with elems.
Qed.

Lemma exec_opcode_bounded i st st' : exec_opcode script flags checker sv i st = Ok st' ->
  (next i <= length script)%nat -> bounded st -> bounded st'.
Proof.
  unfold exec_opcode. intros H Hi B.
  repeat match goal with
  | H : (if ?b then _ else _) = Ok _ |- _ => destruct b; [|]
  end; eauto using exec_if_bounded, exec_checksig_bounded, exec_checksigadd_bounded, exec_multisig_bounded,
    on_stack_bounded with elems; try discriminate.
  all: revert B; unfold exec_else, exec_endif, exec_toalt, exec_fromalt, exec_codeseparator in H; revert H.
  all: bounded_cases st H.
Qed.

Lemma count_op_ok byte st st' : count_op sv byte st = Ok st' -> bounded st ->
  bounded st' /\ stack st' = stack st /\ altstack st' = altstack st /\ condition_stack st' = condition_stack st /\
  exec_data st' = exec_data st /\ last_codeseparator st' = last_codeseparator st.
Proof.
  unfold count_op. intros H B. repeat step_branch; simplify_eq; [|done].
  match goal with H : (_ <? _)%nat = false |- _ => apply Nat.ltb_ge in H end.
  split; [|done]. destruct B; by constructor.
Qed.

Lemma step_ok st i st' : step script flags checker sv st i = Ok st' ->
  (next i <= length script)%nat -> state_ok script st -> state_ok script st'.
Proof.
  unfold step. intros H Hi [B Hlen]. repeat step_branch; simplify_eq;
    match goal with
    | H : count_op _ _ _ = Ok _ |- _ => apply count_op_ok in H as (B' & Es & Ea & _); [|done]
    end; try (split; [done|by rewrite Es, Ea]).
  all: match goal with H : (MAX_STACK_SIZE <? _)%nat = false |- _ => apply Nat.ltb_ge in H; split; [|done] end.
  - unfold exec_push in *. repeat step_branch; simplify_eq. destruct B'; constructor; simpl; auto.
    apply elems_ok_cons; [by apply Nat.ltb_ge|done].
  - by eapply exec_opcode_bounded.
Qed.

Lemma eval_instrs_ok l st st' :
  Forall (fun r => match r with Ok i => (next i <= length script)%nat | Err _ => True end) l ->
  eval_instrs script flags checker sv l st = Ok st' -> state_ok script st -> state_ok script st'.
Proof.
  intros Hl. revert st; induction Hl as [|r l Hr Hl IH]; intros st H B; cbn in H; [by simplify_eq|].
  destruct r as [i|]; [|done]. apply rbind_ok in H as (i' & [= <-] & H). apply rbind_ok in H as (st1 & H1 & H).
  eapply IH; [done|]. by eapply step_ok.
Qed.
End StateBounds.

Lemma instructions_next_le script :
  Forall (fun r => match r with Ok i => (next i <= length script)%nat | Err _ => True end) (instructions script).
Proof.
  rewrite instructions_at_0.
  apply (instructions_at_ind (fun _ l => Forall (fun r => match r with Ok i => (next i <= length script)%nat | Err _ => True end) l)).
  - constructor.
  - by repeat constructor.
  - intros pos i E IH. constructor; [|done]. apply next_instruction_ok in E as (_ & [_ ?] & _). done.
Qed.

Lemma init_state_ok script s x : elems_ok s -> (length s <= MAX_STACK_SIZE)%nat -> 0 <= validation_weight_left x ->
  state_ok script (init_state s x).
Proof.
  intros. split; [constructor|]; simpl; auto with elems; unfold MAX_OPS_PER_SCRIPT; lia.
Qed.

(** C20: evaluation keeps every resource limit.  From an initial stack within
    the limits, the state after any number of instructions has at most 1000
    elements on both stacks, each of at most 520 bytes, at most 201 counted
    operations, a sigop budget that is not overspent, and a code separator
    inside the script (so slicing the script there cannot panic). *)
Theorem eval_reachable_limits {D : Digests} {DO : DigestsOk D} (script : bytes) flags checker sv s x done todo st :
  elems_ok s -> (length s <= MAX_STACK_SIZE)%nat -> 0 <= validation_weight_left x ->
  instructions script = done ++ todo ->
  eval_instrs script flags checker sv done (init_state s x) = Ok st ->
  state_ok script st.
Proof.
  intros Hs Hl Hx E H. eapply eval_instrs_ok; [|exact H|by apply init_state_ok].
  pose proof (instructions_next_le script) as F. rewrite E in F. by apply Forall_app in F as [F _].
Qed.

Lemma eval_reachable_limits_witness :
  exists st, @eval_instrs toy_digests [OP_1; OP_DUP; OP_HASH160] CONSENSUS_TAPROOT null_checker Base
      (instructions [OP_1; OP_DUP; OP_HASH160]) (init_state [] ScriptExecutionData_new) = Ok st /\
    state_ok [OP_1; OP_DUP; OP_HASH160] st.
Proof.
  eexists. split; [vm_compute; reflexivity|].
  eapply (@eval_reachable_limits toy_digests toy_digests_ok [OP_1; OP_DUP; OP_HASH160] CONSENSUS_TAPROOT null_checker Base
    [] ScriptExecutionData_new _ []).
  - constructor.
  - simpl. lia.
  - simpl. lia.
  - symmetry. apply app_nil_r.
  - vm_compute. reflexivity.
Defined.

(** ** Branches that are not taken *)

Section NotTaken.
Context {D : Digests} (script : bytes) (flags : VerifyFlags) (checker : SignatureChecker) (sv : SigVersion).

(** What an instruction of a branch not taken may touch: the conditions and
    the operation count only. *)
Definition same_data (st st' : EvalState) : Prop :=
  stack st' = stack st /\ altstack st' = altstack st /\ exec_data st' = exec_data st /\
  last_codeseparator st' = last_codeseparator st.

Lemma count_op_same byte st st' : count_op sv byte st = Ok st' -> same_data st st' /\ condition_stack st' = condition_stack st.
Proof. unfold count_op. intros H. repeat step_branch; simplify_eq; done. Qed.

Lemma exec_control_same i st st' : executing st = false -> between OP_IF (opcode i) OP_ENDIF = true ->
  exec_opcode script flags checker sv i st = Ok st' -> same_data st st'.
Proof.
  unfold between. intros He Hb. apply andb_true_iff in Hb as [H1%Z.leb_le H2%Z.leb_le].
  unfold OP_IF, OP_ENDIF in *. unfold exec_opcode.
  assert (opcode i = 99 \/ opcode i = 100 \/ opcode i = 101 \/ opcode i = 102 \/ opcode i = 103 \/ opcode i = 104) as Hc by lia.
  destruct Hc as [E|[E|[E|[E|[E|E]]]]]; rewrite E; simpl; unfold exec_if, exec_else, exec_endif; rewrite ?He;
    intros H; repeat step_branch; simplify_eq; done.
Qed.

(** In a branch that is not taken no instruction changes the stacks, the
    code separator or the execution data: only the conditional opcodes and the
    operation count have an effect. *)
Lemma branch_not_taken (st : EvalState) (i : Instruction) (st' : EvalState) :
  executing st = false -> step script flags checker sv st i = Ok st' -> same_data st st'.
Proof.
  unfold step. intros He H. repeat step_branch; simplify_eq;
    match goal with H : count_op _ _ _ = Ok ?y |- _ => apply count_op_same in H as [S C]; assert (executing y = false) as He' by (unfold executing in *; by rewrite C) end; try done.
  - rewrite He' in *. destruct (between _ _ _) eqn:B; [|done]. unfold between in B.
    apply andb_true_iff in B as [B1%Z.leb_le B2%Z.leb_le].
    match goal with H : (opcode i <=? OP_PUSHDATA4) = true |- _ => apply Z.leb_le in H end. unfold OP_IF, OP_PUSHDATA4 in *. lia.
  - rewrite He' in *. destruct (between _ _ _) eqn:B; [|done].
    match goal with H : exec_opcode _ _ _ _ _ _ = Ok _ |- _ => apply exec_control_same in H; [|done|done] end.
    unfold same_data in *. naive_solver congruence.
Qed.
End NotTaken.

Lemma branch_not_taken_witness :
  exists st', @step toy_digests [] CONSENSUS_TAPROOT null_checker Base (mkState [] [] [false] 0 0 ScriptExecutionData_new)
      (mkInstruction 0 OP_DUP [] 1) = Ok st' /\
    same_data (mkState [] [] [false] 0 0 ScriptExecutionData_new) st'.
Proof.
  eexists. split; [vm_compute; reflexivity|].
  apply (@branch_not_taken toy_digests [] CONSENSUS_TAPROOT null_checker Base _ (mkInstruction 0 OP_DUP [] 1)).
  - reflexivity.
  - vm_compute. reflexivity.
Defined.

(** ** OP_CHECKMULTISIG *)

(** The signatures are valid for a subsequence of the keys, in order. *)
Inductive subseq_match (valid : bytes -> bytes -> bool) : list bytes -> list bytes -> Prop :=
  | sm_nil keys : subseq_match valid [] keys
  | sm_take sig sigs key keys : valid sig key = true -> subseq_match valid sigs keys ->
      subseq_match valid (sig :: sigs) (key :: keys)
  | sm_skip sigs key keys : subseq_match valid sigs keys -> subseq_match valid sigs (key :: keys).

Lemma subseq_match_tail valid sig sigs keys :
  subseq_match valid (sig :: sigs) keys -> subseq_match valid sigs keys.
Proof.
  intros H. remember (sig :: sigs) as l eqn:E. revert sig sigs E.
  induction H; intros ?? E; simplify_eq; [by constructor|constructor; eauto].
Qed.

Lemma subseq_match_length valid sigs keys : subseq_match valid sigs keys -> (length sigs <= length keys)%nat.
Proof. induction 1; simpl; lia. Qed.

Lemma subseq_match_cons valid sig sigs key keys :
  subseq_match valid (sig :: sigs) (key :: keys) <->
  if valid sig key then subseq_match valid sigs keys else subseq_match valid (sig :: sigs) keys.
Proof.
  split.
  - intros H. inversion H as [|? ? ? ? Hv Hm|? ? ? Hm]; subst.
    + by rewrite Hv.
    + destruct (valid sig key); [by eapply subseq_match_tail|done].
  - destruct (valid sig key) eqn:E; intros H; by constructor.
Qed.

Section Multisig.
Context (script : bytes) (flags : VerifyFlags) (checker : SignatureChecker) (sv : SigVersion) (last_cs : nat).

(** A non-empty signature the checker accepts for the key over its script code. *)
Definition valid_pair (sig key : bytes) : bool :=
  match build_script_code script flags sv last_cs sig with
  | Ok code => negb (length sig =? 0)%nat && check_ecdsa_signature checker sig key code sv
  | Err _ => false
  end.
Definition sig_wellformed (sig : bytes) : Prop :=
  check_signature_encoding sig flags = Ok tt /\ is_ok (build_script_code script flags sv last_cs sig) = true.
Definition key_wellformed (key : bytes) : Prop := check_pubkey_encoding key flags (is_v0 sv) = Ok tt.

(** C21: the greedy loop of OP_CHECKMULTISIG decides the threshold condition.
    With no more signatures than keys, whenever it returns a verdict the
    verdict is whether the signatures are valid for some subsequence of the
    keys in order, and it returns one on well-formed signatures and keys: the
    index into the keys never runs past their end. *)
Theorem multisig_threshold (sigs keys : list bytes) : (length sigs <= length keys)%nat ->
  (forall b rest, multisig_loop script flags checker sv last_cs sigs keys = Ok (b, rest) ->
     (b = true <-> subseq_match valid_pair sigs keys) /\ exists matched, sigs = matched ++ rest) /\
  (Forall sig_wellformed sigs -> Forall key_wellformed keys ->
     is_ok (multisig_loop script flags checker sv last_cs sigs keys) = true).
Proof.
  revert sigs; induction keys as [|key keys IH]; intros [|sig sigs] Hl; cbn [multisig_loop]; try (simpl in Hl; lia).
  1,2: split; [intros ?? [= <- <-]; split; [split; [constructor|done]|by exists []]|done].
  assert (forall code, build_script_code script flags sv last_cs sig = Ok code ->
    negb (length sig =? 0)%nat && check_ecdsa_signature checker sig key code sv = valid_pair sig key) as Hv.
  { intros code E. unfold valid_pair. by rewrite E. }
  set (sigs' := if valid_pair sig key then sigs else sig :: sigs).
  assert (forall r, (r = true <-> subseq_match valid_pair sigs' keys) -> (r = true <-> subseq_match valid_pair (sig :: sigs) (key :: keys))) as Hs.
  { intros r ->. rewrite subseq_match_cons. unfold sigs'. by destruct (valid_pair sig key). }
  assert (exists m, sig :: sigs = m ++ sigs') as [m Hm] by (unfold sigs'; destruct (valid_pair sig key); [by exists [sig]|by exists []]).
  split.
  - intros b rest H. inv_ok. match goal with H : build_script_code _ _ _ _ _ = Ok _ |- _ => rewrite (Hv _ H) in * end.
    fold sigs' in H. destruct (Nat.ltb_spec (length keys) (length sigs')) as [Hlt|Hge].
    + injection H as <- <-. split; [|by exists m]. apply Hs. split; [done|]. intros Hm'%subseq_match_length. lia.
    + apply (IH sigs' Hge) in H as [Hb [m' Em]]. split; [by apply Hs|]. exists (m ++ m'). rewrite Hm, Em. by rewrite app_assoc.
  - intros Fs Fk. inversion Fs as [|? ? [E1 E2] Fs']; inversion Fk as [|? ? E3 Fk']; subst. unfold key_wellformed in E3.
    rewrite E1, E3. cbn [rbind]. destruct (build_script_code script flags sv last_cs sig) as [code|] eqn:Ec; [|done].
    cbn [rbind]. rewrite (Hv _ eq_refl). fold sigs'. destruct (Nat.ltb_spec (length keys) (length sigs')) as [Hlt|Hge]; [done|].
    apply IH; [done| |done]. unfold sigs'. destruct (valid_pair sig key); [done|exact Fs].
Qed.
End Multisig.

(** A checker for concrete runs: a signature is the key it belongs to. *)
Definition echo_checker : SignatureChecker := {|
  check_ecdsa_signature sig key _ _ := bool_decide (sig = key);
  check_schnorr_signature sig key _ _ := if bool_decide (sig = key) then Ok tt else Err SchnorrSig;
  check_lock_time _ := true;
  check_sequence _ := true |}.

Lemma multisig_threshold_witness :
  (length [[1]; [3]] <= length [[1]; [2]; [3]])%nat /\
  multisig_loop [] 0 echo_checker Base 0 [[1]; [3]] [[1]; [2]; [3]] = Ok (true, []) /\
  subseq_match (valid_pair [] 0 echo_checker Base 0) [[1]; [3]] [[1]; [2]; [3]].
Proof.
  split; [simpl; lia|]. split; [vm_compute; reflexivity|].
  apply (proj1 (proj1 (multisig_threshold [] 0 echo_checker Base 0 [[1]; [3]] [[1]; [2]; [3]]
    ltac:(simpl; lia)) true [] ltac:(vm_compute; reflexivity))). reflexivity.
Defined.

(** ** Standard spends *)

Lemma rbind_ok_iff {A B E} (r : result A E) (f : A -> result B E) b :
  rbind r f = Ok b <-> exists a, r = Ok a /\ f a = Ok b.
Proof. split; [apply rbind_ok|]. by intros (a & -> & H). Qed.

Section Spends.
Context {D : Digests} {DO : DigestsOk D} {K : Secp} (flags : VerifyFlags) (checker : SignatureChecker).

Lemma implied_instructions prog : length prog = 20%nat ->
  instructions (implied_script prog) =
  [Ok (mkInstruction 0 OP_DUP [] 1); Ok (mkInstruction 1 OP_HASH160 [] 2); Ok (mkInstruction 2 0x14 prog 23);
   Ok (mkInstruction 23 OP_EQUALVERIFY [] 24); Ok (mkInstruction 24 OP_CHECKSIG [] 25)].
Proof. intros H. do 20 (destruct prog as [|? prog]; [done|]). destruct prog; [|done]. reflexivity. Qed.

(** The P2PKH template step by step, at the state a witness v0 run starts in. *)
Definition p2pkh_state (s : list bytes) (ops : nat) : EvalState := mkState s [] [] ops 0 ScriptExecutionData_new.

Lemma step_push_hash script s ops prog : length prog = 20%nat -> (length s <= 500)%nat ->
  step script flags checker WitnessV0 (p2pkh_state s ops) (mkInstruction 2 0x14 prog 23) = Ok (p2pkh_state (prog :: s) ops).
Proof.
  intros Hp Hs. unfold step. cbn [data opcode]. rewrite Hp. cbn -[Nat.ltb].
  unfold exec_push, require_minimal, check_minimal_push. cbn [data opcode]. rewrite Hp.
  rewrite andb_false_r. cbn -[Nat.ltb]. destruct (Nat.ltb_spec MAX_STACK_SIZE (S (length s + 0))); [|done].
  unfold MAX_STACK_SIZE in *. lia.
Qed.

Lemma step_equalverify script s ops a b : (ops <= 100)%nat -> (length s <= 500)%nat ->
  step script flags checker WitnessV0 (p2pkh_state (b :: a :: s) ops) (mkInstruction 23 OP_EQUALVERIFY [] 24) =
  if bool_decide (a = b) then Ok (p2pkh_state s (S ops)) else Err EqualVerify.
Proof.
  intros Ho Hs. unfold step, count_op. cbn -[Nat.ltb]. destruct (Nat.ltb_spec MAX_OPS_PER_SCRIPT (S ops)); [unfold MAX_OPS_PER_SCRIPT in *; lia|].
  change (MAX_SCRIPT_ELEMENT_SIZE <? 0)%nat with false. unfold exec_opcode, on_stack, exec_equal. cbn -[Nat.ltb].
  change (require_depth (b :: a :: s) 2) with (Ok (E := ScriptError) tt). cbn -[Nat.ltb].
  destruct (bool_decide (a = b)); [|done]. cbn -[Nat.ltb].
  destruct (Nat.ltb_spec MAX_STACK_SIZE (length s + 0)); [|done]. unfold MAX_STACK_SIZE in *. lia.
Qed.

Lemma step_checksig script ops pk sig : (ops <= 100)%nat ->
  step script flags checker WitnessV0 (p2pkh_state [pk; sig] ops) (mkInstruction 24 OP_CHECKSIG [] 25) =
  let? ok := checksig_ecdsa script flags checker WitnessV0 0 sig pk in Ok (p2pkh_state [bool_elem ok] (S ops)).
Proof.
  intros Ho. unfold step, count_op. cbn -[Nat.ltb checksig_ecdsa]. destruct (Nat.ltb_spec MAX_OPS_PER_SCRIPT (S ops)); [unfold MAX_OPS_PER_SCRIPT in *; lia|].
  change (MAX_SCRIPT_ELEMENT_SIZE <? 0)%nat with false. unfold exec_opcode, exec_checksig.
  change (bool_decide (WitnessV0 = Tapscript)) with false. cbn -[checksig_ecdsa Nat.ltb].
  change (require_depth _ _) with (Ok (E := ScriptError) tt). cbn -[checksig_ecdsa Nat.ltb].
  by destruct (checksig_ecdsa _ _ _ _ _ _ _).
Qed.

Lemma eval_implied (prog sig pk : bytes) : length prog = 20%nat ->
  eval_script_with_data (implied_script prog) flags checker WitnessV0 [pk; sig] ScriptExecutionData_new =
  if bool_decide (hash160 pk = prog) then
    let? ok := checksig_ecdsa (implied_script prog) flags checker WitnessV0 0 sig pk in
    Ok ([bool_elem ok], ScriptExecutionData_new)
  else Err EqualVerify.
Proof.
  intros Hp. unfold eval_script_with_data. rewrite implied_instructions by done.
  assert (length (implied_script prog) = 25%nat) as -> by (unfold implied_script; rewrite !length_app, Hp; done).
  change (legacy_limits WitnessV0 && (MAX_SCRIPT_SIZE <? 25)%nat) with false. cbv iota.
  cbn [eval_instrs rbind].
  change (step _ _ _ _ (init_state _ _) _) with (Ok (E := ScriptError) (p2pkh_state [pk; pk; sig] 1)). cbn [rbind].
  change (step _ _ _ _ (p2pkh_state [pk; pk; sig] 1) _) with (Ok (E := ScriptError) (p2pkh_state [hash160 pk; pk; sig] 2)). cbn [rbind].
  rewrite step_push_hash by (simpl; lia || done). cbn [rbind].
  rewrite step_equalverify by (simpl; lia). destruct (bool_decide (hash160 pk = prog)); [|done]. cbn [rbind].
  rewrite step_checksig by lia. by destruct (checksig_ecdsa _ _ _ _ _ _ _).
Qed.

(** Closes a branch that rejects: the witness does not have the shape. *)
Ltac no_spend :=
  split; [discriminate|]; intros (?sig & ?pk & E & ?H); destruct_and?; try discriminate E; injection E as <- <-;
  unfold MAX_SCRIPT_ELEMENT_SIZE in *; first [lia|congruence].

(** C22: a pay-to-witness-key-hash output is spent by exactly a signature and a
    key: the key hashes to the program, both are well encoded and within the
    element limit, and the checker accepts the signature over the P2PKH
    template. *)
Theorem p2wpkh_spend (witness : list bytes) (prog : bytes) : length prog = 20%nat ->
  verify_witness_program flags checker witness 0 prog false = Ok tt <->
  exists sig pk, witness = [sig; pk] /\ hash160 pk = prog /\ sig <> [] /\
    (length sig <= 520)%nat /\ (length pk <= 520)%nat /\
    check_signature_encoding sig flags = Ok tt /\ check_pubkey_encoding pk flags true = Ok tt /\
    check_ecdsa_signature checker sig pk (implied_script prog) WitnessV0 = true.
Proof.
  intros Hp. unfold verify_witness_program. cbn [Z.eqb]. unfold verify_witness_v0. rewrite Hp. cbn [Nat.eqb WITNESS_V0_SCRIPTHASH_SIZE WITNESS_V0_KEYHASH_SIZE].
  destruct witness as [|sig [|pk [|? ?]]]; cbn [length Nat.eqb negb]; try (no_spend).
  change (reverse [sig; pk]) with [pk; sig]. unfold execute_witness_script. rewrite bool_decide_false by done.
  unfold run_witness_script. cbn [existsb]. rewrite orb_false_r.
  destruct (Nat.ltb_spec MAX_SCRIPT_ELEMENT_SIZE (length pk)) as [Hl|Hpk]; [no_spend|].
  destruct (Nat.ltb_spec MAX_SCRIPT_ELEMENT_SIZE (length sig)) as [Hl|Hsig]; [no_spend|].
  cbn [orb]. rewrite eval_implied by done. unfold MAX_SCRIPT_ELEMENT_SIZE in *.
  destruct (bool_decide_reflect (hash160 pk = prog)) as [Hh|Hh]; [|no_spend].
  unfold checksig_ecdsa, build_script_code. change (drop 0 (implied_script prog)) with (implied_script prog). cbn [rbind].
  change (is_v0 WitnessV0) with true.
  destruct (check_signature_encoding sig flags) as [[]|] eqn:E1; cbn [rbind]; [|no_spend].
  destruct (check_pubkey_encoding pk flags true) as [[]|] eqn:E2; cbn [rbind]; [|no_spend].
  destruct sig as [|b sig]; cbn [length Nat.eqb negb andb].
  { rewrite andb_false_r. no_spend. }
  destruct (check_ecdsa_signature checker (b :: sig) pk (implied_script prog) WitnessV0) eqn:E3; cbn [negb andb].
  - split; [|done]. intros _. exists (b :: sig), pk. done.
  - destruct (flag flags FLAG_NULLFAIL); no_spend.
Qed.
End Spends.

Lemma p2wpkh_spend_witness :
  @verify_witness_program toy_digests toy_secp 0 echo_checker [[2]; [2]] 0 (@hash160 toy_digests [2]) false = Ok tt.
Proof.
  apply (@p2wpkh_spend toy_digests toy_secp 0 echo_checker [[2]; [2]] (@hash160 toy_digests [2])).
  - vm_compute. reflexivity.
  - exists [2], [2]. split_and!; try (vm_compute; reflexivity); simpl; try lia; discriminate.
Defined.

(** ** Witness data is always accounted for *)

Section WitnessRules.
Context {D : Digests} {K : Secp} (flags : VerifyFlags) (checker : SignatureChecker).

Lemma verify_native_witness_inv ss spk w s s' b :
  verify_native_witness flags checker ss spk w s = Ok (s', b) ->
  (flag flags FLAG_WITNESS = true /\ b = true /\ exists p, parse_witness_program spk = Some p /\ ss = [] /\
     verify_witness_program flags checker w (wp_version p) (program p) false = Ok tt) \/
  (b = false /\ (flag flags FLAG_WITNESS = true -> parse_witness_program spk = None)).
Proof.
  unfold verify_native_witness. intros H. destruct (flag flags FLAG_WITNESS); [|right; by simplify_eq].
  destruct (parse_witness_program spk) as [p|] eqn:E; [|right; by simplify_eq].
  destruct (Nat.eqb_spec (length ss) 0) as [Hs|]; [|done]. apply nil_length_inv in Hs as ->. cbn [negb] in H.
  repeat step_branch; simplify_eq. match goal with x : unit |- _ => destruct x end. left. eauto 10.
Qed.

Lemma verify_p2sh_inv ss w after b s' b' : verify_p2sh flags checker ss w after b = Ok (s', b') ->
  (flag flags FLAG_WITNESS = true /\ b' = true /\ exists redeem p, parse_witness_program redeem = Some p /\
     ss = push_data [] redeem /\ verify_witness_program flags checker w (wp_version p) (program p) true = Ok tt) \/ b' = b.
Proof.
  unfold verify_p2sh. intros H. repeat step_branch; simplify_eq; auto.
  destruct (parse_witness_program _) as [p|] eqn:E; [|right; by simplify_eq]. repeat step_branch; simplify_eq.
  match goal with H : negb (bool_decide _) = false |- _ => apply negb_false_iff, bool_decide_eq_true in H end.
  match goal with x : unit |- _ => destruct x end. left. eauto 10.
Qed.

(** C24: no unvalidated witness.  When an input verifies: a native witness
    program was spent with an empty scriptSig and its program verified, and a
    non-empty witness was consumed by a native program or by a P2SH-nested one
    whose scriptSig is exactly the push of the redeem script. *)
Theorem witness_accounted (ss spk : bytes) (w : list bytes) : verify_script flags checker ss spk w = Ok tt ->
  (flag flags FLAG_WITNESS = true -> forall p, parse_witness_program spk = Some p ->
     ss = [] /\ verify_witness_program flags checker w (wp_version p) (program p) false = Ok tt) /\
  (w <> [] -> flag flags FLAG_WITNESS = true /\
     ((exists p, parse_witness_program spk = Some p /\ ss = [] /\
         verify_witness_program flags checker w (wp_version p) (program p) false = Ok tt) \/
      (is_pay_to_script_hash spk = true /\ exists redeem p, parse_witness_program redeem = Some p /\
         ss = push_data [] redeem /\ verify_witness_program flags checker w (wp_version p) (program p) true = Ok tt))).
Proof.
  unfold verify_script. intros H. destruct (negb (flag flags FLAG_WITNESS) && _) eqn:E0; [done|].
  destruct (flag flags FLAG_SIGPUSHONLY && _); [done|]. inv_ok. destruct (negb (top_true _)); [done|]. inv_ok.
  match goal with H : verify_native_witness _ _ _ _ _ _ = _ |- _ => apply verify_native_witness_inv in H as Hn end.
  split.
  - intros Hf p Hp. destruct Hn as [(_ & _ & q & Hq & ?)|(_ & Hq)]; [naive_solver|]. by rewrite Hq in Hp.
  - intros Hw. assert ((length w =? 0)%nat = false) as Ew by (apply Nat.eqb_neq; by destruct w).
    rewrite Ew, andb_true_r in *. apply negb_false_iff in E0. split; [done|].
    destruct Hn as [(_ & _ & ?)|(-> & _)]; [by left|right].
    destruct (flag flags FLAG_P2SH && is_pay_to_script_hash spk) eqn:Ep.
    + apply andb_true_iff in Ep as [_ ->]. split; [done|].
      match goal with H : verify_p2sh _ _ _ _ _ _ = _ |- _ => apply verify_p2sh_inv in H as [(_ & _ & ?)| ->]; [done|] end.
      rewrite E0 in H. cbn in H. by destruct (_ && _) in H.
    + inv_ok. rewrite E0 in H. cbn in H. by destruct (_ && _) in H.
Qed.
End WitnessRules.

Definition sample_program : bytes := OP_0 :: 0x14 :: @hash160 toy_digests [2].
Lemma witness_accounted_witness :
  @verify_script toy_digests toy_secp (Z.lor FLAG_P2SH FLAG_WITNESS) echo_checker [] sample_program [[2]; [2]] = Ok tt /\
  (flag (Z.lor FLAG_P2SH FLAG_WITNESS) FLAG_WITNESS = true -> forall p, parse_witness_program sample_program = Some p ->
     @nil Z = [] /\ @verify_witness_program toy_digests toy_secp (Z.lor FLAG_P2SH FLAG_WITNESS) echo_checker [[2]; [2]]
       (wp_version p) (program p) false = Ok tt).
Proof.
  split; [vm_compute; reflexivity|].
  exact (proj1 (@witness_accounted toy_digests toy_secp (Z.lor FLAG_P2SH FLAG_WITNESS) echo_checker [] sample_program [[2]; [2]]
    ltac:(vm_compute; reflexivity))).
Defined.
