(* ===== verification/Signet.v ===== *)
(** * Signet block solutions (crates/consensus/signet.rs)

    BIP 325: the solution is cut out of the coinbase's witness commitment, two
    virtual transactions bind the header and the merkle root of the block so
    modified, and the challenge script is run on the solution. *)

From S2P Require Import Prelude Wire Hash Transaction Block Params ScriptNum ScriptOps Taproot Sighash Checker Interpreter.

Definition SIGNET_HEADER : bytes := [0xec; 0xc7; 0xda; 0xa2].
Definition MINIMUM_WITNESS_COMMITMENT : nat := 38.
Definition WITNESS_COMMITMENT_PREFIX : bytes := [0x6a; 0x24; 0xaa; 0x21; 0xa9; 0xed].

(** The message of [MalformedSolution]. *)
Inductive Malformed : Type := MalformedScriptSig (e : DecodeError) | MalformedWitness (e : DecodeError) | ExtraneousData.
Inductive SignetError : Type :=
  | ChallengeMissing
  | NoCoinbase
  | MissingWitnessCommitment
  | MalformedSolution (what : Malformed)
  | UnsupportedChallenge
  | ScriptFailed (e : ScriptError).

Record SignetTxs : Type := mkSignetTxs { to_spend : Transaction; to_sign : Transaction }.

(** [signet::push_data]: the bytes appended *)
Definition signet_push_data (d : bytes) : bytes :=
  let len := Z.of_nat (length d) in
  (if len <=? 75 then [wrap_u 8 len]
   else if len <=? 0xff then [0x4c; wrap_u 8 len]
   else if len <=? 0xffff then 0x4d :: le_bytes 2 (wrap_u 16 len)
   else 0x4e :: le_bytes 4 (wrap_u 32 len)) ++ d.

(** [coinbase.outputs.iter().enumerate().rev().find_map(..)]: the last match *)
Definition is_commitment (o : TxOut) : bool :=
  (MINIMUM_WITNESS_COMMITMENT <=? length (script_pubkey o))%nat &&
  bool_decide (take 6 (script_pubkey o) = WITNESS_COMMITMENT_PREFIX).
Fixpoint last_commitment (i : nat) (outs : list TxOut) : option nat :=
  match outs with
  | [] => None
  | o :: outs =>
    match last_commitment (S i) outs with
    | Some j => Some j
    | None => if is_commitment o then Some i else None
    end
  end.
Definition get_witness_commitment_index (coinbase : Transaction) : option nat :=
  last_commitment 0 (outputs coinbase).

(** The [while pos < script.len()] loop; [rest] is [script[pos..]]. *)
Fixpoint fetch_loop (fuel : nat) (header rest : bytes) (section : option bytes) (modified : bytes)
    : option bytes * bytes :=
  match fuel, rest with
  | S fuel, opcode :: rest =>
    if (opcode <=? 75) || ((0x4c <=? opcode) && (opcode <=? 0x4e)) then
      let size_len := if opcode <=? 75 then 0%nat else if opcode =? 0x4c then 1%nat else if opcode =? 0x4d then 2%nat else 4%nat in
      if (length rest <? size_len)%nat then (section, modified) else
      let len := if opcode <=? 75 then Z.to_nat opcode else Z.to_nat (of_le (take size_len rest)) in
      if (length rest <? size_len + len)%nat then (section, modified) else
      let d := take len (drop size_len rest) in
      let rest' := drop (size_len + len) rest in
      if bool_decide (section = None) && (length header <? len)%nat && bool_decide (take (length header) d = header)
      then fetch_loop fuel header rest' (Some (drop (length header) d))
             (modified ++ wrap_u 8 (Z.of_nat (length header)) :: header)
      else fetch_loop fuel header rest' section (modified ++ opcode :: take size_len rest ++ d)
    else fetch_loop fuel header rest section (modified ++ [opcode])
  | _, _ => (section, modified)
  end.
Definition fetch_and_clear_commitment_section (header script : bytes) : option bytes * bytes :=
  fetch_loop (length script) header script None [].

Definition parse_signet_solution (d : bytes) : result (bytes * list bytes) SignetError :=
  let? '(script_sig, d) := map_err (fun e => MalformedSolution (MalformedScriptSig e))
    (read_varbytes "signet_scriptSig" (Decoder_new d)) in
  let? '(wit, d) := map_err (fun e => MalformedSolution (MalformedWitness e))
    (read_var_list decode_Vec_u8 "signet_witness" d) in
  if negb (is_done d) then Err (MalformedSolution ExtraneousData) else Ok (script_sig, wit).

(** [tx.outputs[i].script_pubkey = script] *)
Definition set_output_script (tx : Transaction) (i : nat) (script : bytes) : Transaction :=
  mkTransaction (version tx) (inputs tx)
    (alter (fun o => mkTxOut (value o) script) i (outputs tx)) (lock_time tx).

Section Signet.
Context {D : Digests} {K : Secp}.

(** [signet::merkle_root]: the same loop as [Block::compute_merkle_root] *)
Definition merkle_root (hashes : list Hash256) : Hash256 := merkle_of hashes.

Definition compute_modified_merkle_root (b : Block) (modified_coinbase : Transaction) : Hash256 :=
  merkle_root (txid modified_coinbase :: map txid (drop 1 (transactions b))).

Definition to_spend_of (b : Block) (signet_merkle : Hash256) (challenge : bytes) : Transaction :=
  let block_data := le_bytes 4 (hdr_version (header b)) ++ prev_hash (header b) ++ signet_merkle ++ le_bytes 4 (time (header b)) in
  mkTransaction 0 [mkTxIn (mkOutPoint ZERO_HASH U32_MAX) (0x00 :: signet_push_data block_data) 0 []]
    [mkTxOut 0 challenge] 0.
Definition to_sign_of (spend : Transaction) (script_sig : bytes) (wit : list bytes) : Transaction :=
  mkTransaction 0 [mkTxIn (mkOutPoint (txid spend) 0) script_sig 0 wit] [mkTxOut 0 [0x6a]] 0.

Definition SignetTxs_new (b : Block) (challenge : bytes) : result SignetTxs SignetError :=
  let? coinbase := ok_or (head (transactions b)) NoCoinbase in
  if negb (is_coinbase coinbase) then Err NoCoinbase else
  let? cidx := ok_or (get_witness_commitment_index coinbase) MissingWitnessCommitment in
  let commitment := match outputs coinbase !! cidx with Some o => script_pubkey o | None => [] end in
  let '(solution, modified_commitment) := fetch_and_clear_commitment_section SIGNET_HEADER commitment in
  let modified_coinbase := set_output_script coinbase cidx modified_commitment in
  let? '(script_sig, wit) := match solution with Some s => parse_signet_solution s | None => Ok ([], []) end in
  let spend := to_spend_of b (compute_modified_merkle_root b modified_coinbase) challenge in
  Ok (mkSignetTxs spend (to_sign_of spend script_sig wit)).

Definition is_unsupported_challenge (challenge : bytes) : bool :=
  match parse_witness_program challenge with
  | Some p =>
    if wp_version p =? 0 then false
    else if wp_version p =? 1 then negb (length (program p) =? WITNESS_V1_TAPROOT_SIZE)%nat
    else true
  | None => false
  end.

Definition SIGNET_FLAGS : VerifyFlags :=
  Z.lor (Z.lor (Z.lor (Z.lor FLAG_P2SH FLAG_DERSIG) FLAG_NULLDUMMY) FLAG_WITNESS) FLAG_TAPROOT.

Definition verify_solution_script (txs : SignetTxs) (challenge : bytes) : result unit SignetError :=
  if is_unsupported_challenge challenge then Err UnsupportedChallenge else
  let input := input_at (to_sign txs) 0 in
  let checker := transaction_checker (TransactionSignatureChecker_new (to_sign txs) 0 (outputs (to_spend txs))) in
  map_err ScriptFailed (verify_script SIGNET_FLAGS checker (script_sig input) challenge (witness input)).

Definition check_signet_block_solution (b : Block) (params : ChainParams) : result unit SignetError :=
  if bool_decide (block_hash (header b) = genesis_hash params) then Ok tt else
  let challenge := signet_challenge (consensus params) in
  if (length challenge =? 0)%nat then Err ChallengeMissing else
  let? txs := SignetTxs_new b challenge in
  verify_solution_script txs challenge.
End Signet.

(** ** The tagged section *)

(** One push, whichever of its four encodings is used. *)
Lemma fetch_split fuel hdr op size d rest sec md :
  (op <=? 75) || ((0x4c <=? op) && (op <=? 0x4e)) = true ->
  (if op <=? 75 then 0%nat else if op =? 0x4c then 1%nat else if op =? 0x4d then 2%nat else 4%nat) = length size ->
  (if op <=? 75 then Z.to_nat op else Z.to_nat (of_le size)) = length d ->
  fetch_loop (S fuel) hdr (op :: size ++ d ++ rest) sec md =
  if bool_decide (sec = None) && (length hdr <? length d)%nat && bool_decide (take (length hdr) d = hdr)
  then fetch_loop fuel hdr rest (Some (drop (length hdr) d)) (md ++ wrap_u 8 (Z.of_nat (length hdr)) :: hdr)
  else fetch_loop fuel hdr rest sec (md ++ op :: size ++ d).
Proof.
  intros H1 H2 H3. cbn [fetch_loop]. rewrite H1, H2. cbv zeta.
  destruct (Nat.ltb_spec (length (size ++ d ++ rest)) (length size)) as [Hl|_]; [rewrite length_app in Hl; lia|].
  rewrite take_app_length. rewrite H3.
  destruct (Nat.ltb_spec (length (size ++ d ++ rest)) (length size + length d)) as [Hl|_]; [rewrite !length_app in Hl; lia|].
  rewrite drop_app_length, take_app_length.
  rewrite (app_assoc size d rest), <- (length_app size d), drop_app_length. done.
Qed.

Lemma fetch_push fuel hdr d rest sec md : Z.of_nat (length d) < 2 ^ 32 ->
  fetch_loop (S fuel) hdr (signet_push_data d ++ rest) sec md =
  if bool_decide (sec = None) && (length hdr <? length d)%nat && bool_decide (take (length hdr) d = hdr)
  then fetch_loop fuel hdr rest (Some (drop (length hdr) d)) (md ++ wrap_u 8 (Z.of_nat (length hdr)) :: hdr)
  else fetch_loop fuel hdr rest sec (md ++ signet_push_data d).
Proof.
  intros Hd. unfold signet_push_data.
  destruct (Z.leb_spec (Z.of_nat (length d)) 75); [|destruct (Z.leb_spec (Z.of_nat (length d)) 0xff);
    [|destruct (Z.leb_spec (Z.of_nat (length d)) 0xffff)]]; cbn [app]; rewrite <- ?app_assoc.
  - rewrite wrap_u_small by lia. apply (fetch_split fuel hdr _ []); destruct (Z.leb_spec (Z.of_nat (length d)) 75); simpl; lia.
  - rewrite wrap_u_small by lia. apply (fetch_split fuel hdr 0x4c [_]); [done..|]. simpl. lia.
  - rewrite wrap_u_small by lia. apply (fetch_split fuel hdr 0x4d); [done|by rewrite length_le_bytes|]. cbn [Z.leb Z.compare Pos.compare Pos.compare_cont]. rewrite le_bytes_small by lia. lia.
  - rewrite wrap_u_small by lia. apply (fetch_split fuel hdr 0x4e); [done|by rewrite length_le_bytes|]. cbn [Z.leb Z.compare Pos.compare Pos.compare_cont]. rewrite le_bytes_small by lia. lia.
Qed.

Lemma fetch_other fuel hdr op rest sec md : 0x4e < op ->
  fetch_loop (S fuel) hdr (op :: rest) sec md = fetch_loop fuel hdr rest sec (md ++ [op]).
Proof. intros H. cbn [fetch_loop]. by destruct (Z.leb_spec op 75), (Z.leb_spec op 0x4e), (0x4c <=? op); try lia. Qed.

Section SignetProperties.
Context {D : Digests} {K : Secp}.

(** A commitment output's script that carries the solution [sol]. *)
Definition solved_commitment (commitment sol : bytes) : bytes :=
  WITNESS_COMMITMENT_PREFIX ++ commitment ++ signet_push_data (SIGNET_HEADER ++ sol).
Definition blanked_commitment (commitment : bytes) : bytes :=
  WITNESS_COMMITMENT_PREFIX ++ commitment ++ 4 :: SIGNET_HEADER.

Lemma fetch_solved (commitment sol : bytes) : length commitment = 32%nat -> sol <> [] -> Z.of_nat (length sol) < 2 ^ 32 - 4 ->
  fetch_and_clear_commitment_section SIGNET_HEADER (solved_commitment commitment sol) = (Some sol, blanked_commitment commitment).
Proof.
  intros Hc Hs Hl. unfold fetch_and_clear_commitment_section.
  assert (solved_commitment commitment sol =
    0x6a :: signet_push_data ([0xaa; 0x21; 0xa9; 0xed] ++ commitment) ++ signet_push_data (SIGNET_HEADER ++ sol) ++ []) as ->.
  { unfold solved_commitment, WITNESS_COMMITMENT_PREFIX. rewrite app_nil_r.
    unfold signet_push_data at 2. rewrite length_app, Hc. cbn. by rewrite <- app_assoc. }
  assert (exists n, length (0x6a :: signet_push_data ([0xaa; 0x21; 0xa9; 0xed] ++ commitment) ++ signet_push_data (SIGNET_HEADER ++ sol) ++ []) = S (S (S n))) as [n ->].
  { cbn [length]. rewrite length_app. unfold signet_push_data at 1. rewrite !length_app, Hc. cbn. eauto. }
  rewrite fetch_other by lia.
  rewrite fetch_push by (rewrite length_app, Hc; simpl; lia).
  rewrite (bool_decide_false (take (length SIGNET_HEADER) _ = SIGNET_HEADER)) by (by cbn). rewrite andb_false_r.
  rewrite fetch_push by (rewrite length_app; simpl; lia).
  rewrite take_app_length, drop_app_length, !bool_decide_true by done. cbn [andb].
  destruct (Nat.ltb_spec (length SIGNET_HEADER) (length (SIGNET_HEADER ++ sol))) as [_|Hge].
  2: { destruct sol; [done|]. rewrite length_app in Hge. simpl in Hge. lia. }
  cbn [andb]. assert (forall f s m, fetch_loop f SIGNET_HEADER [] s m = (s, m)) as -> by (by intros []).
  f_equal. unfold blanked_commitment, signet_push_data, WITNESS_COMMITMENT_PREFIX. rewrite length_app, Hc. cbn. by rewrite <- app_assoc.
Qed.

Lemma last_commitment_at outs i k o : outs !! k = Some o -> is_commitment o = true ->
  (forall j o', (k < j)%nat -> outs !! j = Some o' -> is_commitment o' = false) ->
  last_commitment i outs = Some (i + k)%nat.
Proof.
  revert i k; induction outs as [|o' outs IH]; intros i k Hk Hc Hlast; [done|]. cbn [last_commitment].
  destruct k as [|k]; cbn in Hk.
  - injection Hk as ->. assert (forall i, last_commitment i outs = None) as ->.
    { assert (forall j o', outs !! j = Some o' -> is_commitment o' = false) as Hn by (intros j q Hj; apply (Hlast (S j)); [lia|done]).
      clear -Hn. induction outs as [|q outs IH]; intros i; [done|]. cbn. rewrite IH by (intros j r; apply (Hn (S j))).
      by rewrite (Hn 0%nat q eq_refl). }
    by rewrite Hc, Nat.add_0_r.
  - rewrite (IH (S i) k Hk Hc); [f_equal; lia|]. intros j q Hj. apply (Hlast (S j)). lia.
Qed.

Lemma solved_is_commitment v commitment sol : length commitment = 32%nat ->
  is_commitment (mkTxOut v (solved_commitment commitment sol)) = true.
Proof.
  intros Hc. unfold is_commitment, solved_commitment. cbn [script_pubkey]. apply andb_true_iff. split.
  - rewrite !length_app, Hc. apply Nat.leb_le. unfold MINIMUM_WITNESS_COMMITMENT. simpl. lia.
  - apply bool_decide_true. reflexivity.
Qed.

Lemma solved_index cb i v spk commitment sol : length commitment = 32%nat -> outputs cb !! i = Some (mkTxOut v spk) ->
  (forall j o', (i < j)%nat -> outputs cb !! j = Some o' -> is_commitment o' = false) ->
  get_witness_commitment_index (set_output_script cb i (solved_commitment commitment sol)) = Some i.
Proof.
  intros Hc Hi Hlast. unfold get_witness_commitment_index, set_output_script. cbn [outputs].
  apply (last_commitment_at _ 0 i (mkTxOut v (solved_commitment commitment sol))).
  - by rewrite list_lookup_alter_eq, Hi.
  - by apply solved_is_commitment.
  - intros j o' Hj. rewrite list_lookup_alter_ne by lia. by apply Hlast.
Qed.

(** The wire form of a solution: the scriptSig, then the witness stack. *)
Definition encode_solution (ss : bytes) (w : list bytes) : bytes :=
  serialize encode_VarBytes ss ++ serialize (encode_VarList encode_Vec_u8) w.

Lemma parse_encoded_solution ss w : varbytes_ok ss -> witness_ok w ->
  parse_signet_solution (encode_solution ss w) = Ok (ss, w).
Proof.
  intros Hs Hw. unfold parse_signet_solution, encode_solution.
  pose proof (wire_decodes (WireCodec := varbytes_codec "signet_scriptSig") ss Hs [] (serialize (encode_VarList encode_Vec_u8) w)) as H1.
  pose proof (wire_decodes (WireCodec := VarList_codec encode_Vec_u8 decode_Vec_u8 varbytes_ok "signet_witness") w Hw
    (serialize encode_VarBytes ss) []) as H2.
  cbn [app length] in H1. rewrite app_nil_r in H2. unfold Decoder_new. rewrite H1. cbn [map_err rbind Nat.add].
  rewrite H2. cbn [map_err rbind]. unfold is_done. cbn [dec_pos dec_data]. rewrite length_app, Nat.eqb_refl. done.
Qed.

Lemma set_output_script_twice tx i s1 s2 : set_output_script (set_output_script tx i s1) i s2 = set_output_script tx i s2.
Proof.
  unfold set_output_script. cbn [version inputs outputs lock_time].  f_equal. apply list_eq. intros j. rewrite !list_lookup_alter.
  repeat case_decide; subst; try done. by destruct (outputs tx !! j).
Qed.

(** The solution is extracted and not signed.  For a block whose last
    commitment output carries an encoded scriptSig and witness, the virtual
    transactions are: a spend that presents exactly that scriptSig and
    witness, and a transaction to spend that commits to the version, previous
    hash and time of the header and to the merkle root of the block with the
    solution blanked, so neither the solution nor the bits and nonce enter the
    signed data. *)
Lemma signet_solution_extracted (h : BlockHeader) (cb : Transaction) (rest : list Transaction) (i : nat)
    (o : TxOut) (commitment ss : bytes) (w : list bytes) (challenge : bytes) :
  is_coinbase cb = true -> outputs cb !! i = Some o ->
  (forall j o', (i < j)%nat -> outputs cb !! j = Some o' -> is_commitment o' = false) ->
  length commitment = 32%nat -> varbytes_ok ss -> witness_ok w ->
  Z.of_nat (length (encode_solution ss w)) < 2 ^ 32 - 4 ->
  let solved := mkBlock h (set_output_script cb i (solved_commitment commitment (encode_solution ss w)) :: rest) in
  let root := merkle_root (txid (set_output_script cb i (blanked_commitment commitment)) :: map txid rest) in
  let spend := to_spend_of (mkBlock (mkBlockHeader (hdr_version h) (prev_hash h) root (time h) 0 0) []) root challenge in
  SignetTxs_new solved challenge = Ok (mkSignetTxs spend (to_sign_of spend ss w)).
Proof.
  intros Hcb Hi Hlast Hc Hss Hw Hl solved root spend. destruct o as [v spk].
  assert (encode_solution ss w <> []) as Hne.
  { unfold encode_solution. intros E%app_eq_nil. destruct E as [E _].
    pose proof (wire_nonempty (WireCodec := varbytes_codec "signet_scriptSig") ss Hss) as Hp. rewrite E in Hp. simpl in Hp. lia. }
  unfold SignetTxs_new, solved. cbn [transactions head ok_or rbind].
  assert (is_coinbase (set_output_script cb i (solved_commitment commitment (encode_solution ss w))) = true) as ->.
  { unfold is_coinbase in *. by unfold set_output_script. }
  rewrite (solved_index cb i v spk) by done. cbn [negb ok_or rbind].
  assert (outputs (set_output_script cb i (solved_commitment commitment (encode_solution ss w))) !! i
    = Some (mkTxOut v (solved_commitment commitment (encode_solution ss w)))) as ->.
  { unfold set_output_script. cbn [outputs]. by rewrite list_lookup_alter_eq, Hi. }
  cbn [script_pubkey]. rewrite fetch_solved by done. rewrite parse_encoded_solution by done. cbn [rbind].
  rewrite set_output_script_twice. done.
Qed.

(** A challenge whose spends the engine cannot check (a witness program of
    an unknown version) is refused for every block but the genesis block,
    instead of accepting every block. *)
Lemma unsupported_challenge_refused (b : Block) (params : ChainParams) :
  is_unsupported_challenge (signet_challenge (consensus params)) = true ->
  block_hash (header b) <> genesis_hash params -> is_ok (check_signet_block_solution b params) = false.
Proof.
  intros Hu Hg. unfold check_signet_block_solution. rewrite bool_decide_false by done.
  destruct (_ =? 0)%nat; [done|]. destruct (SignetTxs_new b _) as [t|]; [|done]. cbn [rbind].
  unfold verify_solution_script. by rewrite Hu.
Qed.
End SignetProperties.

Definition sample_coinbase : Transaction :=
  mkTransaction 1 [mkTxIn OutPoint_COINBASE [1; 1] 0 []] [mkTxOut 5 []] 0.
Lemma signet_solution_extracted_witness :
  exists spend, @SignetTxs_new toy_digests
    (mkBlock (mkBlockHeader 1 (replicate 32 0) (replicate 32 0) 7 0x1e0377ae 9)
      [set_output_script sample_coinbase 0 (solved_commitment (replicate 32 3) (encode_solution [0x51] [[1]; [2]]))]) [0x51]
    = Ok (mkSignetTxs spend (@to_sign_of toy_digests spend [0x51] [[1]; [2]])).
Proof.
  eexists. refine (@signet_solution_extracted toy_digests
    (mkBlockHeader 1 (replicate 32 0) (replicate 32 0) 7 0x1e0377ae 9) sample_coinbase [] 0 (mkTxOut 5 []) (replicate 32 3)
    [0x51] [[1]; [2]] [0x51] _ _ _ _ _ _ _).
  - reflexivity.
  - reflexivity.
  - intros [|j] o' Hj Ho; [lia|discriminate Ho].
  - reflexivity.
  - split; [apply (bool_decide_unpack _); vm_compute; exact I|]. unfold vec_ok, MAX_WIRE_ALLOCATION, MAX_MESSAGE_SIZE. simpl. lia.
  - split; [|unfold vec_ok, MAX_WIRE_ALLOCATION, MAX_MESSAGE_SIZE; simpl; lia].
    apply Forall_cons_2; [|apply Forall_cons_2; [|apply Forall_nil_2]];
      (split; [apply (bool_decide_unpack _); vm_compute; exact I|unfold vec_ok, MAX_WIRE_ALLOCATION, MAX_MESSAGE_SIZE; simpl; lia]).
  - vm_compute. reflexivity.
Defined.

Definition future_challenge_params : ChainParams :=
  mkChainParams SIGNET (mkBlockHeader 1 ZERO_HASH ZERO_HASH 0 0 0)
    (mkConsensusParams 1 1 1 1 ZERO_HASH 600 1209600 false false 210000 ZERO_HASH ZERO_HASH true (0x52 :: 0x20 :: replicate 32 1))
    38333 "tb" [] [].
Lemma unsupported_challenge_refused_witness :
  is_ok (@check_signet_block_solution toy_digests toy_secp (mkBlock (mkBlockHeader 2 ZERO_HASH ZERO_HASH 1 0 0) [sample_coinbase])
    future_challenge_params) = false.
Proof.
  apply (@unsupported_challenge_refused toy_digests toy_secp).
  - reflexivity.
  - apply (bool_decide_unpack _). vm_compute. exact I.
Defined.
