(* ===== verification/Engine.v ===== *)
(** * The script engine (crates/consensus/engine.rs) and validation errors

    [ScriptEngine] is what block connection expects of an engine: a verdict on
    a transaction and the coins it spends, and [ScriptEngineOk] the one law it
    relies on.  [ConsensusEngine] is the code's engine; its [CoreReference]
    kind is modelled as the default build has it, without the
    [core-reference] feature. *)

From S2P Require Import Prelude Wire Hash Transaction Block ScriptNum ScriptOps Sig Taproot Sighash Checker Interpreter Signet.

(** [ValidationError] of validation.rs *)
Inductive ValidationError : Type :=
  | NoInputs | NoOutputs | TooLarge | AmountOutOfRange | TotalAmountOutOfRange
  | InputMissingOrSpent (o : OutPoint)
  | NegativeFee
  | ScriptFailure
  | ScriptErrorAt (index : nat) (error : ScriptError)
  | ReferenceEngineUnavailable
  | NoTransactions
  | InvalidCoinbase
  | InvalidMerkleRoot (expected actual : Hash256)
  | InvalidProofOfWork
  | WrongDifficulty (at_height expected actual : Z)
  | SignetSolution (e : SignetError)
  | DuplicateInput
  | BadCoinbaseScriptLength (len : nat)
  | NullPrevout
  | BadCoinbaseHeight (expected : Z)
  | BadWitnessNonceSize
  | WitnessCommitmentMismatch
  | UnexpectedWitness
  | BlockWeightTooLarge (w : Z)
  | CoinbaseValueTooHigh (claimed allowed : Z)
  | PrematureCoinbaseSpend (created spent : Z).

Class ScriptEngine (E : Type) : Type :=
  verify_transaction : E -> Transaction -> list Coin -> result unit ValidationError.

(** An engine never accepts a transaction with a coin missing. *)
Class ScriptEngineOk (E : Type) `{ScriptEngine E} : Prop :=
  verify_transaction_coins : forall e tx coins, verify_transaction e tx coins = Ok tt ->
    length coins = length (inputs tx).

Inductive ConsensusEngineKind : Type := Native | CoreReference.
Record ConsensusEngine : Type := mkEngine { kind : ConsensusEngineKind; engine_flags : VerifyFlags }.
Definition ConsensusEngine_new (k : ConsensusEngineKind) : ConsensusEngine := mkEngine k CONSENSUS_TAPROOT.
Definition with_flags (e : ConsensusEngine) (flags : VerifyFlags) : ConsensusEngine := mkEngine (kind e) flags.

Section Native.
Context {D : Digests} {K : Secp}.

(** The [for (index, input) in tx.inputs.iter().enumerate()] loop. *)
Fixpoint verify_inputs (tx : Transaction) (spent : list TxOut) (cache : PrecomputedTransactionData) (flags : VerifyFlags)
    (index : nat) (ins : list TxIn) : result unit ValidationError :=
  match ins with
  | [] => Ok tt
  | input :: ins =>
    let spk := match spent !! index with Some o => script_pubkey o | None => [] end in
    let checker := transaction_checker (with_midstates (TransactionSignatureChecker_new tx index spent) cache) in
    let? _ := map_err (ScriptErrorAt index) (verify_script flags checker (script_sig input) spk (witness input)) in
    verify_inputs tx spent cache flags (S index) ins
  end.

Definition verify_native (tx : Transaction) (coins : list Coin) (flags : VerifyFlags) : result unit ValidationError :=
  if negb (length coins =? length (inputs tx))%nat then Err ScriptFailure else
  let spent := map output coins in
  verify_inputs tx spent (PrecomputedTransactionData_new tx spent) flags 0 (inputs tx).

Definition verify_core_reference (tx : Transaction) (coins : list Coin) (flags : VerifyFlags) : result unit ValidationError :=
  Err ReferenceEngineUnavailable.

#[export] Instance ConsensusEngine_verify : ScriptEngine ConsensusEngine := fun e tx coins =>
  match kind e with
  | Native => verify_native tx coins (engine_flags e)
  | CoreReference => verify_core_reference tx coins (engine_flags e)
  end.

(** ** Properties *)

#[export] Instance ConsensusEngine_ok : ScriptEngineOk ConsensusEngine.
Proof.
  intros [[] fl] tx coins; cbn; [|done]. unfold verify_native.
  destruct (Nat.eqb_spec (length coins) (length (inputs tx))); [done|]. done.
Qed.

(** The verdict on input [i] on its own, with midstates of its own. *)
Definition verify_input (flags : VerifyFlags) (tx : Transaction) (spent : list TxOut) (i : nat) : ScriptResult unit :=
  verify_script flags (transaction_checker (TransactionSignatureChecker_new tx i spent))
    (script_sig (input_at tx i)) (match spent !! i with Some o => script_pubkey o | None => [] end) (witness (input_at tx i)).

Lemma verify_inputs_spec flags tx spent done ins : inputs tx = done ++ ins ->
  match verify_inputs tx spent (PrecomputedTransactionData_new tx spent) flags (length done) ins with
  | Ok _ => forall i, (length done <= i < length (inputs tx))%nat -> verify_input flags tx spent i = Ok tt
  | Err e => exists i se, e = ScriptErrorAt i se /\ (length done <= i < length (inputs tx))%nat /\
      verify_input flags tx spent i = Err se /\
      forall j, (length done <= j < i)%nat -> verify_input flags tx spent j = Ok tt
  end.
Proof.
  revert done; induction ins as [|x ins IH]; intros dn E; cbn [verify_inputs].
  { intros i Hi. rewrite E, app_nil_r in Hi. lia. }
  assert (input_at tx (length dn) = x) as Hx.
  { unfold input_at. rewrite E, app_nth2, Nat.sub_diag by lia. done. }
  assert (length dn < length (inputs tx))%nat as Hlen by (rewrite E, length_app; simpl; lia).
  specialize (IH (dn ++ [x])). rewrite <- app_assoc in IH. specialize (IH E). rewrite length_app, Nat.add_1_r in IH.
  change (verify_script flags _ (script_sig x) _ (witness x)) with
    (verify_script flags (transaction_checker (TransactionSignatureChecker_new tx (length dn) spent)) (script_sig x)
      (match spent !! length dn with Some o => script_pubkey o | None => [] end) (witness x)).
  destruct (verify_script _ _ _ _ _) as [[]|se] eqn:Ev; cbn [map_err rbind].
  - assert (verify_input flags tx spent (length dn) = Ok tt) as H0 by (unfold verify_input; by rewrite Hx).
    destruct (verify_inputs _ _ _ _ _ _) as [|e].
    + intros i Hi. destruct (decide (i = length dn)) as [->|]; [done|]. apply IH. lia.
    + destruct IH as (i & se & -> & Hi & Hv & Hj). exists i, se. split_and!; [done|lia|lia|done|].
      intros j Hjj. destruct (decide (j = length dn)) as [->|]; [done|]. apply Hj. lia.
  - exists (length dn), se. split_and!; [done|lia|lia| |lia]. unfold verify_input. by rewrite Hx.
Qed.

(** The native engine accepts a transaction exactly when every input's
    script verifies against the coin it spends, and otherwise reports the first
    failing input with its error; sharing the midstates across the inputs
    changes no verdict. *)
Lemma verify_native_spec (tx : Transaction) (coins : list Coin) (flags : VerifyFlags) :
  match verify_native tx coins flags with
  | Ok _ => length coins = length (inputs tx) /\
      forall i, (i < length (inputs tx))%nat -> verify_input flags tx (map output coins) i = Ok tt
  | Err ScriptFailure => length coins <> length (inputs tx)
  | Err (ScriptErrorAt i e) => (i < length (inputs tx))%nat /\ verify_input flags tx (map output coins) i = Err e /\
      forall j, (j < i)%nat -> verify_input flags tx (map output coins) j = Ok tt
  | Err _ => False
  end.
Proof.
  unfold verify_native. destruct (Nat.eqb_spec (length coins) (length (inputs tx))) as [Hl|Hl]; cbn [negb]; [|done].
  pose proof (verify_inputs_spec flags tx (map output coins) [] (inputs tx) eq_refl) as H. cbn [length] in H.
  destruct (verify_inputs _ _ _ _ _ _) as [[]|e].
  - split; [done|]. intros i Hi. apply H. lia.
  - destruct H as (i & se & -> & Hi & Hv & Hj). split_and!; [lia|done|]. intros j Hjj. apply Hj. lia.
Qed.
End Native.
