(* ===== verification/Validation.v ===== *)
(** * Consensus validation (crates/consensus/validation.rs)

    [CheckTransaction], [CheckBlock] and [ConnectBlock].  An [Amount] is a [Z];
    a view is any instance of [CoinsView]; the engine any instance of
    [ScriptEngine].  The script checks of a block run as parallel tasks: the
    order in which [JoinSet::join_next] yields them is the argument [join].
    [connect_block] returns its result and the view it leaves, since the code
    updates the cache in place. *)

From S2P Require Import Prelude Wire Hash Transaction Block Params Pow Coins ScriptNum ScriptOps Signet Engine.

Definition INITIAL_BLOCK_REWARD : Z := 50 * COIN.
Definition COINBASE_MATURITY : Z := 100.
Definition MAX_BLOCK_WEIGHT : Z := 4000000.
Definition MIN_COINBASE_SCRIPT_SIZE : nat := 2.
Definition MAX_COINBASE_SCRIPT_SIZE : nat := 100.

(** ** CheckTransaction *)

(** The loop over the outputs of [check_transaction]. *)
Fixpoint check_outputs (total : Amount) (outs : list TxOut) : result Amount ValidationError :=
  match outs with
  | [] => Ok total
  | o :: outs =>
    if negb (Amount_is_valid (value o)) then Err AmountOutOfRange else
    let? total := ok_or (Amount_checked_add total (value o)) TotalAmountOutOfRange in
    check_outputs total outs
  end.

(** [seen.insert(..)] over the inputs: true when one is met twice. *)
Fixpoint has_duplicate (seen : gset OutPoint) (ins : list TxIn) : bool :=
  match ins with
  | [] => false
  | i :: ins =>
    if bool_decide (previous_output i ∈ seen) then true
    else has_duplicate ({[previous_output i]} ∪ seen) ins
  end.

Definition check_transaction (tx : Transaction) : result unit ValidationError :=
  if (length (inputs tx) =? 0)%nat then Err NoInputs
  else if (length (outputs tx) =? 0)%nat then Err NoOutputs
  else
  let? total := check_outputs 0 (outputs tx) in
  if negb (Amount_is_valid total) then Err TotalAmountOutOfRange
  else if has_duplicate ∅ (inputs tx) then Err DuplicateInput
  else if is_coinbase tx then
    let len := match inputs tx with i :: _ => length (script_sig i) | [] => 0%nat end in
    if (len <? MIN_COINBASE_SCRIPT_SIZE)%nat || (MAX_COINBASE_SCRIPT_SIZE <? len)%nat
    then Err (BadCoinbaseScriptLength len) else Ok tt
  else if existsb (fun i => OutPoint_is_coinbase (previous_output i)) (inputs tx) then Err NullPrevout
  else Ok tt.

(** ** Subsidy, BIP 34 and the witness commitment *)

Definition block_subsidy (h : BlockHeight) (params : ChainParams) : Amount :=
  let halvings := h / n_subsidy_halving_interval (consensus params) in
  if 64 <=? halvings then 0
  else match Amount_from_sat (Z.shiftr INITIAL_BLOCK_REWARD halvings) with Ok a => a | Err _ => 0 end.

(** [block.transactions[0]] and its first input; [check_block] has run. *)
Definition coinbase_of (b : Block) : Transaction := nth 0 (transactions b) (mkTransaction 0 [] [] 0).
Definition first_input (tx : Transaction) : TxIn := nth 0 (inputs tx) (mkTxIn OutPoint_COINBASE [] 0 []).

Definition starts_with (l p : bytes) : bool := bool_decide (take (length p) l = p).

Definition check_bip34_height (b : Block) (h : BlockHeight) : result unit ValidationError :=
  let expected_push := push_data [] (ScriptNum_encode h) in
  if negb (starts_with (script_sig (first_input (coinbase_of b))) expected_push) then Err (BadCoinbaseHeight h) else Ok tt.

Section WithDigests.
Context {D : Digests} {K : Taproot.Secp}.

Definition check_witness_commitment (b : Block) : result unit ValidationError :=
  let coinbase := coinbase_of b in
  match get_witness_commitment_index coinbase with
  | None => if existsb is_segwit (transactions b) then Err UnexpectedWitness else Ok tt
  | Some commitment_index =>
    match witness (first_input coinbase) with
    | [nonce] =>
      if negb (length nonce =? 32)%nat then Err BadWitnessNonceSize else
      let witness_root := merkle_root (ZERO_HASH :: map wtxid (drop 1 (transactions b))) in
      let expected := hash256 (witness_root ++ nonce) in
      let script := match outputs coinbase !! commitment_index with Some o => script_pubkey o | None => [] end in
      if bool_decide (slice script 6 38 = expected) then Ok tt else Err WitnessCommitmentMismatch
    | _ => Err BadWitnessNonceSize
    end
  end.

(** ** Contextual checks of one transaction *)

(** The loop over the inputs: the value and the coins they spend. *)
Fixpoint gather_inputs {V} `{CoinsView V} (view : V) (h : BlockHeight) (total : Amount) (ins : list TxIn)
    : result (Amount * list Coin) ValidationError :=
  match ins with
  | [] => Ok (total, [])
  | i :: ins =>
    let? cn := ok_or (get_coin view (previous_output i)) (InputMissingOrSpent (previous_output i)) in
    if coin_is_coinbase cn && (saturating_sub_u h (height cn) <? COINBASE_MATURITY)
    then Err (PrematureCoinbaseSpend (height cn) h) else
    let? total := ok_or (Amount_checked_add total (value (output cn))) TotalAmountOutOfRange in
    let? '(total, coins) := gather_inputs view h total ins in
    Ok (total, cn :: coins)
  end.

Definition contextual_check_transaction_metadata {V} `{CoinsView V} (tx : Transaction) (view : V) (h : BlockHeight)
    : result (Amount * list Coin) ValidationError :=
  if is_coinbase tx then Ok (0, []) else
  let? '(total_in, coins) := gather_inputs view h 0 (inputs tx) in
  let? total_out := ok_or (sum_outputs 0 (outputs tx)) TotalAmountOutOfRange in
  if total_in <? total_out then Err NegativeFee else
  let? fee := ok_or (Amount_checked_sub total_in total_out) NegativeFee in
  Ok (fee, coins).

(** ** Headers and blocks *)

Definition check_block_header {P : BlockIndexProvider} (h : BlockHeader) (index_prev : BlockIndex) (params : ChainParams)
    : result unit ValidationError :=
  if negb (meets_target h) then Err InvalidProofOfWork else
  let expected_bits := get_next_work_required index_prev h (consensus params) in
  if negb (bits h =? expected_bits)
  then Err (WrongDifficulty (wrap_u 32 (bi_height index_prev + 1)) expected_bits (bits h)) else Ok tt.

Fixpoint check_transactions (txs : list Transaction) : result unit ValidationError :=
  match txs with
  | [] => Ok tt
  | tx :: txs => let? _ := check_transaction tx in check_transactions txs
  end.

Definition check_block (b : Block) (params : ChainParams) : result unit ValidationError :=
  if (length (transactions b) =? 0)%nat then Err NoTransactions else
  let computed_root := compute_merkle_root b in
  if negb (bool_decide (merkle_root_field (header b) = computed_root))
  then Err (InvalidMerkleRoot (merkle_root_field (header b)) computed_root)
  else if negb (is_coinbase (coinbase_of b)) then Err InvalidCoinbase
  else
  let? _ := check_transactions (transactions b) in
  if MAX_BLOCK_WEIGHT <? weight b then Err (BlockWeightTooLarge (weight b))
  else if signet_blocks (consensus params) then map_err SignetSolution (check_signet_block_solution b params)
  else Ok tt.

(** ** ConnectBlock *)

(** [OverlayCoinsView]: the block's own effects over the base view. *)
Record OverlayCoinsView (V : Type) : Type := mkOverlay { ov_base : V; ov_coins : gmap OutPoint (option Coin) }.
#[export] Instance overlay_view {V} `{CoinsView V} : CoinsView (OverlayCoinsView V) := {|
  get_coin v o := match ov_coins _ v !! o with Some c => c | None => get_coin (ov_base _ v) o end;
  get_best_block v := get_best_block (ov_base _ v) |}.

(** The outputs of a transaction as coins, by outpoint. *)
Definition tx_coins (tx : Transaction) (h : BlockHeight) (cb : bool) : list (OutPoint * Coin) :=
  imap (fun vout o => (mkOutPoint (txid tx) (wrap_u 32 (Z.of_nat vout)), mkCoin o h cb)) (outputs tx).

Definition overlay_tx (tx : Transaction) (h : BlockHeight) (overlay : gmap OutPoint (option Coin)) : gmap OutPoint (option Coin) :=
  let overlay := fold_left (fun m i => <[previous_output i := None]> m) (inputs tx) overlay in
  fold_left (fun m p => <[p.1 := Some p.2]> m) (tx_coins tx h false) overlay.

(** What the validation loop accumulates. *)
Record Progress : Type := mkProgress {
  total_fees : Amount;
  block_undo : BlockUndo;
  overlay : gmap OutPoint (option Coin);
  validated_spends : list (list OutPoint);
  verification_set : list (result unit ValidationError);
}.

Section Connect.
Context {V E : Type} {CV : CoinsView V} {P : BlockIndexProvider} {SE : ScriptEngine E}.
Context (params : ChainParams) (h : BlockHeight) (check_scripts : bool) (engine : E).

(** One iteration over [block.transactions.iter().skip(1)]. *)
Definition validate_tx (view : CoinsViewCache V) (p : Progress) (tx : Transaction) : result Progress ValidationError :=
  let? '(fee, coins) := contextual_check_transaction_metadata tx (mkOverlay _ view (overlay p)) h in
  let? fees := ok_or (Amount_checked_add (total_fees p) fee) TotalAmountOutOfRange in
  Ok (mkProgress fees (fold_left BlockUndo_push coins (block_undo p)) (overlay_tx tx h (overlay p))
    (validated_spends p ++ [map previous_output (inputs tx)])
    (if check_scripts then verification_set p ++ [verify_transaction engine tx coins] else verification_set p)).

Fixpoint validate_txs (view : CoinsViewCache V) (p : Progress) (txs : list Transaction) : result Progress ValidationError :=
  match txs with
  | [] => Ok p
  | tx :: txs => let? p := validate_tx view p tx in validate_txs view p txs
  end.

(** [while let Some(res) = verification_set.join_next().await] *)
Fixpoint await_all (results : list (result unit ValidationError)) : result unit ValidationError :=
  match results with
  | [] => Ok tt
  | r :: results => let? _ := r in await_all results
  end.

Definition add_coins (view : CoinsViewCache V) (coins : list (OutPoint * Coin)) : CoinsViewCache V :=
  fold_left (fun v p => add_coin v p.1 p.2 false) coins view.
Definition commit_tx (view : CoinsViewCache V) (tx : Transaction) (spends : list OutPoint) : CoinsViewCache V :=
  add_coins (fold_left spend_coin_known spends view) (tx_coins tx h false).
Definition commit_txs (view : CoinsViewCache V) (txs : list Transaction) (spends : list (list OutPoint)) : CoinsViewCache V :=
  fold_left (fun v p => commit_tx v p.1 p.2) (zip txs spends) view.

(** Step 6: the coinbase claims no more than the subsidy and the fees. *)
Definition check_coinbase_value (coinbase : Transaction) (fees : Amount) : result unit ValidationError :=
  let? claimed := ok_or (sum_outputs 0 (outputs coinbase)) TotalAmountOutOfRange in
  let? allowed := ok_or (Amount_checked_add (block_subsidy h params) fees) TotalAmountOutOfRange in
  if allowed <? claimed then Err (CoinbaseValueTooHigh claimed allowed) else Ok tt.

(** Steps 0 to 2. *)
Definition block_prechecks (b : Block) (index_prev : BlockIndex) : result unit ValidationError :=
  let? _ := check_block b params in
  let? _ := check_block_header (header b) index_prev params in
  let? _ := if bip34_height (consensus params) <=? h then check_bip34_height b h else Ok tt in
  if segwit_height (consensus params) <=? h then check_witness_commitment b else Ok tt.

Definition connect_block (join : list (result unit ValidationError) -> list (result unit ValidationError))
    (b : Block) (index_prev : BlockIndex) (view : CoinsViewCache V)
    : result (Amount * BlockUndo) ValidationError * CoinsViewCache V :=
  let txs := drop 1 (transactions b) in
  match
    let? _ := block_prechecks b index_prev in
    let? p := validate_txs view (mkProgress 0 BlockUndo_new ∅ [] []) txs in
    let? _ := await_all (join (verification_set p)) in
    Ok p
  with
  | Err e => (Err e, view)
  | Ok p =>
    let view := commit_txs view txs (validated_spends p) in
    let view := add_coins view (tx_coins (coinbase_of b) h true) in
    match check_coinbase_value (coinbase_of b) (total_fees p) with
    | Err e => (Err e, view)
    | Ok _ => (Ok (total_fees p, block_undo p), set_best_block view (block_hash (header b)) h)
    end
  end.
End Connect.
End WithDigests.
