(* ===== verification/ConnectSpec.v ===== *)
(** * Block connection on a map of unspent coins

    The specification of [connect_block]: validate and apply the transactions
    one after the other on a finite map.  [connect_block] refines it: the
    overlay, the deferred commit and the cache do not show.  The accounting
    theorems follow. *)

From S2P Require Import Prelude Wire Hash Transaction Block Params Pow Coins ScriptNum ScriptOps Signet Engine Validation.

(** A map of unspent coins is a view. *)
#[export] Instance utxo_view : CoinsView UtxoMap := {| get_coin m o := m !! o; get_best_block _ := None |}.

Section Spec.
Context {D : Digests} {K : Taproot.Secp}.

Definition spend_inputs (m : UtxoMap) (tx : Transaction) : UtxoMap :=
  fold_left (fun m i => delete (previous_output i) m) (inputs tx) m.
Definition create_outputs (h : Z) (cb : bool) (m : UtxoMap) (tx : Transaction) : UtxoMap :=
  fold_left (fun m p => <[p.1 := p.2]> m) (tx_coins tx h cb) m.
Definition apply_tx (h : Z) (m : UtxoMap) (tx : Transaction) : UtxoMap := create_outputs h false (spend_inputs m tx) tx.

Section Connect.
Context {E : Type} {P : BlockIndexProvider} {SE : ScriptEngine E}.
Context (params : ChainParams) (h : BlockHeight) (check_scripts : bool) (engine : E).

(** The transactions in order: fees, coins spent, the map and the verdicts. *)
Fixpoint spec_txs (m : UtxoMap) (fees : Amount) (spent : list Coin) (verdicts : list (result unit ValidationError))
    (txs : list Transaction) : result (Amount * list Coin * UtxoMap * list (result unit ValidationError)) ValidationError :=
  match txs with
  | [] => Ok (fees, spent, m, verdicts)
  | tx :: txs =>
    let? '(fee, coins) := contextual_check_transaction_metadata tx m h in
    let? fees := ok_or (Amount_checked_add fees fee) TotalAmountOutOfRange in
    spec_txs (apply_tx h m tx) fees (spent ++ coins)
      (if check_scripts then verdicts ++ [verify_transaction engine tx coins] else verdicts) txs
  end.

Definition connect_spec (join : list (result unit ValidationError) -> list (result unit ValidationError))
    (b : Block) (index_prev : BlockIndex) (m : UtxoMap) : result (Amount * list Coin) ValidationError * UtxoMap :=
  match
    let? _ := block_prechecks params h b index_prev in
    let? '(fees, spent, m, verdicts) := spec_txs m 0 [] [] (drop 1 (transactions b)) in
    let? _ := await_all (join verdicts) in
    Ok (fees, spent, m)
  with
  | Err e => (Err e, m)
  | Ok (fees, spent, m) =>
    let m := create_outputs h true m (coinbase_of b) in
    match check_coinbase_value params h (coinbase_of b) fees with
    | Err e => (Err e, m)
    | Ok _ => (Ok (fees, spent), m)
    end
  end.
End Connect.

(** ** Views that agree *)

Lemma gather_inputs_ext {V W} `{CoinsView V, CoinsView W} (v : V) (w : W) h total ins :
  (forall o, get_coin v o = get_coin w o) -> gather_inputs v h total ins = gather_inputs w h total ins.
Proof.
  intros Hvw. revert total; induction ins as [|i ins IH]; intros total; cbn [gather_inputs]; [done|].
  rewrite Hvw. destruct (get_coin w _) as [cn|]; cbn [ok_or rbind]; [|done].
  destruct (_ && _); [done|]. destruct (Amount_checked_add _ _); cbn [ok_or rbind]; [|done]. by rewrite IH.
Qed.

Lemma contextual_ext {V W} `{CoinsView V, CoinsView W} (v : V) (w : W) h tx :
  (forall o, get_coin v o = get_coin w o) ->
  contextual_check_transaction_metadata tx v h = contextual_check_transaction_metadata tx w h.
Proof. intros Hvw. unfold contextual_check_transaction_metadata. by rewrite (gather_inputs_ext v w). Qed.

Lemma overlay_spends {V} `{CoinsView V} (v : V) ov (m : UtxoMap) ins :
  (forall o, get_coin (mkOverlay V v ov) o = m !! o) ->
  forall o, get_coin (mkOverlay V v (fold_left (fun m i => <[previous_output i := None]> m) ins ov)) o =
    fold_left (fun m i => delete (previous_output i) m) ins m !! o.
Proof.
  revert ov m; induction ins as [|i ins IH]; intros ov m Hm; cbn [fold_left]; [done|].
  apply IH. intros o. specialize (Hm o). cbn in *. destruct (decide (previous_output i = o)) as [<-|Hne].
  - by rewrite lookup_insert_eq, lookup_delete_eq.
  - by rewrite lookup_insert_ne, lookup_delete_ne.
Qed.

Lemma overlay_creates {V} `{CoinsView V} (v : V) ov (m : UtxoMap) (l : list (OutPoint * Coin)) :
  (forall o, get_coin (mkOverlay V v ov) o = m !! o) ->
  forall o, get_coin (mkOverlay V v (fold_left (fun m p => <[p.1 := Some p.2]> m) l ov)) o =
    fold_left (fun m p => <[p.1 := p.2]> m) l m !! o.
Proof.
  revert ov m; induction l as [|p l IH]; intros ov m Hm; cbn [fold_left]; [done|].
  apply IH. intros o. specialize (Hm o). cbn in *. destruct (decide (p.1 = o)) as [<-|Hne].
  - by rewrite !lookup_insert_eq.
  - by rewrite !lookup_insert_ne.
Qed.

(** The overlay holds the transaction's effect. *)
Lemma overlay_tx_view {V} `{CoinsView V} (v : V) ov (m : UtxoMap) h tx :
  (forall o, get_coin (mkOverlay V v ov) o = m !! o) ->
  forall o, get_coin (mkOverlay V v (overlay_tx tx h ov)) o = apply_tx h m tx !! o.
Proof. intros Hm. by apply overlay_creates, overlay_spends. Qed.

Lemma push_all l u : spent_coins (fold_left BlockUndo_push l u) = spent_coins u ++ l.
Proof.
  revert u; induction l as [|c l IH]; intros u; cbn [fold_left]; [by rewrite app_nil_r|].
  rewrite IH. cbn. by rewrite <- app_assoc.
Qed.

(** ** The validation loop *)

Section Refine.
Context {V E : Type} {CV : CoinsView V} {P : BlockIndexProvider} {SE : ScriptEngine E}.
Context (params : ChainParams) (h : BlockHeight) (check_scripts : bool) (engine : E).

Lemma validate_txs_spec (view : CoinsViewCache V) (m : UtxoMap) p txs :
  (forall o, get_coin (mkOverlay _ view (overlay p)) o = m !! o) ->
  match validate_txs h check_scripts engine view p txs,
        spec_txs h check_scripts engine m (total_fees p) (spent_coins (block_undo p)) (verification_set p) txs with
  | Ok p', Ok (fees, spent, m', verdicts) =>
      total_fees p' = fees /\ spent_coins (block_undo p') = spent /\ verification_set p' = verdicts /\
      validated_spends p' = validated_spends p ++ map (fun tx => map previous_output (inputs tx)) txs /\
      m' = fold_left (apply_tx h) txs m
  | Err e, Err e' => e = e'
  | _, _ => False
  end.
Proof.
  revert p m; induction txs as [|tx txs IH]; intros p m Hm; cbn [validate_txs spec_txs].
  - split_and!; try done. by rewrite app_nil_r.
  - unfold validate_tx. rewrite (contextual_ext (mkOverlay _ view (overlay p)) m h tx) by exact Hm.
    destruct (contextual_check_transaction_metadata tx m h) as [[fee coins]|e]; cbn [rbind]; [|done].
    destruct (Amount_checked_add (total_fees p) fee) as [fees|]; cbn [ok_or rbind]; [|done].
    set (p1 := mkProgress _ _ _ _ _). specialize (IH p1 (apply_tx h m tx)).
    assert (forall o, get_coin (mkOverlay _ view (overlay p1)) o = apply_tx h m tx !! o) as H1 by by apply overlay_tx_view.
    specialize (IH H1). change (total_fees p1) with fees in IH.
    change (block_undo p1) with (fold_left BlockUndo_push coins (block_undo p)) in IH. rewrite push_all in IH.
    change (verification_set p1) with (if check_scripts then verification_set p ++ [verify_transaction engine tx coins] else verification_set p) in IH.
    destruct (validate_txs _ _ _ _ _ _) as [p'|], (spec_txs _ _ _ _ _ _ _ _) as [[[[fees' spent'] m'] verdicts]|]; try done.
    destruct IH as (H2 & H3 & H4 & H5 & H6). split_and!; try done.
    rewrite H5. unfold p1. cbn [validated_spends map]. by rewrite <- app_assoc.
Qed.

(** ** The commit *)

Lemma refines_spends (view : CoinsViewCache V) (m : UtxoMap) ins : refines view m ->
  refines (fold_left spend_coin_known (map previous_output ins) view) (fold_left (fun m i => delete (previous_output i) m) ins m) /\
  (forall o, addable view o -> addable (fold_left spend_coin_known (map previous_output ins) view) o).
Proof.
  revert view m; induction ins as [|i ins IH]; intros view m [Hok Hm]; cbn [map fold_left]; [done|].
  destruct (spend_coin_known_spec view (previous_output i) Hok) as [Hok' Hv].
  destruct (IH (spend_coin_known view (previous_output i)) (delete (previous_output i) m)) as [Hr Ha].
  - split; [done|]. intros o. rewrite Hv, Hm. case_decide; subst; [by rewrite lookup_delete_eq|by rewrite lookup_delete_ne].
  - split; [done|]. intros o Ho. apply Ha. by apply spend_coin_known_addable.
Qed.

Lemma refines_adds (view : CoinsViewCache V) (m : UtxoMap) (l : list (OutPoint * Coin)) : refines view m ->
  Forall (fun p => addable view p.1) l ->
  refines (add_coins view l) (fold_left (fun m p => <[p.1 := p.2]> m) l m) /\
  (forall o, addable view o -> addable (add_coins view l) o).
Proof.
  unfold add_coins. revert view m; induction l as [|p l IH]; intros view m [Hok Hm] Hl; cbn [fold_left]; [done|].
  inversion Hl as [|? ? Hp Hl']; subst.
  destruct (IH (add_coin view p.1 p.2 false) (<[p.1 := p.2]> m)) as [Hr Ha].
  - split; [by apply add_coin_ok|]. intros o. rewrite add_coin_view, Hm.
    case_decide; subst; [by rewrite lookup_insert_eq|by rewrite lookup_insert_ne].
  - eapply Forall_impl; [exact Hl'|]. intros q. apply add_coin_addable.
  - split; [done|]. intros o Ho. apply Ha. by apply add_coin_addable.
Qed.

(** The outpoints a list of transactions creates. *)
Definition created (txs : list Transaction) : list OutPoint :=
  concat (map (fun tx => map fst (tx_coins tx h false)) txs).

Lemma tx_coins_fst tx cb : map fst (tx_coins tx h cb) = map fst (tx_coins tx h false).
Proof. unfold tx_coins. apply list_eq. intros i. rewrite !list_lookup_fmap, !list_lookup_imap. by destruct (outputs tx !! i). Qed.

Lemma refines_commit (view : CoinsViewCache V) (m : UtxoMap) txs : refines view m ->
  Forall (addable view) (created txs) ->
  refines (commit_txs h view txs (map (fun tx => map previous_output (inputs tx)) txs)) (fold_left (apply_tx h) txs m) /\
  (forall o, addable view o -> addable (commit_txs h view txs (map (fun tx => map previous_output (inputs tx)) txs)) o).
Proof.
  unfold commit_txs. revert view m; induction txs as [|tx txs IH]; intros view m Hr Hc; cbn [map zip_with fold_left]; [done|].
  apply Forall_app in Hc as [Hc Hcs]. fold (created txs) in Hcs.
  destruct (refines_spends view m (inputs tx) Hr) as [H1 A1].
  destruct (refines_adds _ _ (tx_coins tx h false) H1) as [H2 A2].
  { apply Forall_forall. intros p Hp. apply A1. rewrite Forall_forall in Hc. apply Hc. by apply list_elem_of_fmap_2. }
  destruct (IH _ _ H2) as [H3 A3].
  { eapply Forall_impl; [exact Hcs|]. intros o Ho. by apply A2, A1. }
  split; [exact H3|]. intros o Ho. by apply A3, A2, A1.
Qed.

(** What the code returns, seen as the specification's result. *)
Definition same_result (r : result (Amount * BlockUndo) ValidationError) (r' : result (Amount * list Coin) ValidationError) : Prop :=
  match r, r' with
  | Ok (fees, undo), Ok (fees', spent) => fees = fees' /\ spent_coins undo = spent
  | Err e, Err e' => e = e'
  | _, _ => False
  end.

Lemma created_cons b : transactions b <> [] ->
  created (transactions b) = map fst (tx_coins (coinbase_of b) h true) ++ created (drop 1 (transactions b)).
Proof. unfold coinbase_of. destruct (transactions b) as [|tx txs]; [done|]. intros _. by rewrite tx_coins_fst. Qed.

Lemma prechecks_nonempty b prev : block_prechecks params h b prev = Ok tt -> transactions b <> [].
Proof. unfold block_prechecks, check_block. intros H E0. rewrite E0 in H. done. Qed.

Lemma connect_block_refinement (join : list (result unit ValidationError) -> list (result unit ValidationError))
    (b : Block) (prev : BlockIndex) (view : CoinsViewCache V) (m : UtxoMap) :
  refines view m -> Forall (fun o => m !! o = None) (created (transactions b)) ->
  same_result (connect_block params h check_scripts engine join b prev view).1 (connect_spec params h check_scripts engine join b prev m).1 /\
  refines (connect_block params h check_scripts engine join b prev view).2 (connect_spec params h check_scripts engine join b prev m).2.
Proof.
  intros Hr Hfresh. unfold connect_block, connect_spec.
  destruct (block_prechecks params h b prev) as [[]|e] eqn:Epre; cbn [rbind]; [|done].
  apply prechecks_nonempty in Epre. rewrite created_cons in Hfresh by done. apply Forall_app in Hfresh as [Fcb Ftx].
  assert (forall o, m !! o = None -> addable view o) as Hadd.
  { intros o Ho. apply absent_addable. destruct Hr as [_ ->]. done. }
  pose proof (validate_txs_spec view m (mkProgress 0 BlockUndo_new ∅ [] []) (drop 1 (transactions b))) as Hv.
  cbn [overlay total_fees block_undo verification_set spent_coins BlockUndo_new validated_spends app] in Hv.
  specialize (Hv ltac:(intros o; apply Hr)).
  destruct (validate_txs _ _ _ _ _ _) as [p|e], (spec_txs _ _ _ _ _ _ _ _) as [[[[fees spent] m'] verdicts]|e']; try done; cbn [rbind].
  destruct Hv as (<- & <- & <- & Hs & ->).
  destruct (await_all (join (verification_set p))) as [[]|]; cbn [rbind]; [|done].
  rewrite Hs. destruct (refines_commit view m (drop 1 (transactions b)) Hr) as [Hc Ac].
  { eapply Forall_impl; [exact Ftx|]. intros o Ho. by apply Hadd. }
  destruct (refines_adds _ _ (tx_coins (coinbase_of b) h true) Hc) as [Hcb _].
  { apply Forall_forall. intros q Hq. apply Ac, Hadd. rewrite Forall_forall in Fcb. apply Fcb. by apply list_elem_of_fmap_2. }
  unfold create_outputs. destruct (check_coinbase_value _ _ _ _) as [[]|e]; cbn [fst snd]; (split; [done|]); [|done].
  destruct Hcb as [Hok Hview]. split; [by apply set_best_block_ok|]. intros o. by rewrite set_best_block_view.
Qed.

(** C3: block connection refines the sequential specification.  Against a cache
    that holds the coins of a map, and with no created outpoint among the
    unspent ones, [connect_block] gives the specification's verdict, fees and
    undo data, and leaves a cache that holds the specification's map, on every
    error path too. *)
Theorem connect_block_refines (join : list (result unit ValidationError) -> list (result unit ValidationError))
    (b : Block) (prev : BlockIndex) (view : CoinsViewCache V) (m : UtxoMap) :
  refines view m -> Forall (fun o => m !! o = None) (created (transactions b)) ->
  same_result (connect_block params h check_scripts engine join b prev view).1 (connect_spec params h check_scripts engine join b prev m).1 /\
  refines (connect_block params h check_scripts engine join b prev view).2 (connect_spec params h check_scripts engine join b prev m).2.
Proof. apply connect_block_refinement. Qed.

(** A block rejected before the coinbase value check leaves the view as it
    was; after an accepted block the view's best block is the block. *)
Lemma connect_block_atomic (join : list (result unit ValidationError) -> list (result unit ValidationError))
    (b : Block) (prev : BlockIndex) (view : CoinsViewCache V) :
  match connect_block params h check_scripts engine join b prev view with
  | (Ok _, view') => get_best_block view' = Some (block_hash (header b)) /\ (block_prechecks params h b prev = Ok tt)
  | (Err e, view') => view' = view \/ exists fees v, check_coinbase_value params h (coinbase_of b) fees = Err e /\
      view' = add_coins v (tx_coins (coinbase_of b) h true)
  end.
Proof.
  unfold connect_block. destruct (block_prechecks params h b prev) as [[]|] eqn:E1; [|by left]. cbn [rbind].
  destruct (validate_txs _ _ _ _ _ _) as [p|]; [|by left]. cbn [rbind].
  destruct (await_all _); [|by left]. cbn [rbind].
  destruct (check_coinbase_value _ _ _ _) as [[]|e] eqn:Ec; [done|]. right. eauto.
Qed.

Lemma add_coins_present (view : CoinsViewCache V) (l : list (OutPoint * Coin)) o :
  is_Some (get_coin view o) \/ o ∈ map fst l -> is_Some (get_coin (add_coins view l) o).
Proof.
  unfold add_coins. revert view; induction l as [|p l IH]; intros view Ho; cbn [fold_left map] in *.
  - destruct Ho as [Ho|Ho]; [done|]. by apply not_elem_of_nil in Ho.
  - apply IH. rewrite add_coin_view. destruct Ho as [Ho|[->|Ho]%elem_of_cons]; [|left; rewrite decide_True by done; by eexists|by right].
    left. case_decide; [by eexists|done].
Qed.

(** C38: the order of the checks shows: a block that passes every other check
    but whose coinbase claims too much is rejected, yet the coins of that
    coinbase are by then unspent coins of the view, which every reader sees. *)
Theorem rejected_coinbase_stays (join : list (result unit ValidationError) -> list (result unit ValidationError))
    (b : Block) (prev : BlockIndex) (view : CoinsViewCache V) (p : Progress) (claimed allowed : Z) :
  block_prechecks params h b prev = Ok tt ->
  validate_txs h check_scripts engine view (mkProgress 0 BlockUndo_new ∅ [] []) (drop 1 (transactions b)) = Ok p ->
  await_all (join (verification_set p)) = Ok tt ->
  sum_outputs 0 (outputs (coinbase_of b)) = Some claimed ->
  Amount_checked_add (block_subsidy h params) (total_fees p) = Some allowed -> allowed < claimed ->
  let '(r, view') := connect_block params h check_scripts engine join b prev view in
  r = Err (CoinbaseValueTooHigh claimed allowed) /\
  Forall (fun o => is_Some (get_coin view' o)) (map fst (tx_coins (coinbase_of b) h true)).
Proof.
  intros H1 H2 H3 H4 H5 H6. unfold connect_block. rewrite H1. cbn [rbind]. rewrite H2. cbn [rbind]. rewrite H3. cbn [rbind].
  unfold check_coinbase_value. rewrite H4, H5. cbn [ok_or rbind]. destruct (Z.ltb_spec allowed claimed); [|lia].
  split; [done|]. apply Forall_forall. intros o Ho. apply add_coins_present. by right.
Qed.
End Refine.
End Spec.
