(* ===== verification/Supply.v ===== *)
(** * The money supply

    What [check_transaction] accepts, the subsidy schedule and its cap, and
    the accounting of block connection: the value of the unspent coins grows by
    at most the subsidy. *)

From S2P Require Import Prelude Wire Hash Transaction Block Params Pow Coins ScriptNum ScriptOps Taproot Signet Engine Validation ConnectSpec.

(** ** The value of a map of unspent coins *)

Definition coin_value (c : Coin) : Z := value (output c).
Definition total_value (m : UtxoMap) : Z := map_fold (fun _ c acc => coin_value c + acc) 0 m.

Lemma total_value_insert m o c : m !! o = None -> total_value (<[o := c]> m) = coin_value c + total_value m.
Proof. intros H. unfold total_value. rewrite map_fold_insert_L; [done|intros; lia|done]. Qed.

Lemma total_value_delete m o c : m !! o = Some c -> total_value (delete o m) = total_value m - coin_value c.
Proof.
  intros H. rewrite <- (insert_delete_id m o c H) at 2. rewrite total_value_insert by apply lookup_delete_eq. lia.
Qed.

Definition values_ok (m : UtxoMap) : Prop := map_Forall (fun _ c => 0 <= coin_value c) m.

Lemma total_value_insert_le m o c : values_ok m -> total_value (<[o := c]> m) <= coin_value c + total_value m.
Proof.
  intros Hm. destruct (m !! o) as [c'|] eqn:E; [|by rewrite total_value_insert].
  rewrite <- insert_delete_eq, total_value_insert by apply lookup_delete_eq.
  rewrite (total_value_delete m o c' E). specialize (Hm o c' E). simpl in Hm. lia.
Qed.

Lemma values_ok_insert m o c : values_ok m -> 0 <= coin_value c -> values_ok (<[o := c]> m).
Proof. intros. by apply map_Forall_insert_2. Qed.
Lemma values_ok_delete m o : values_ok m -> values_ok (delete o m).
Proof. intros. by apply map_Forall_delete. Qed.

Definition sum_values (l : list Coin) : Z := fold_right (fun c acc => coin_value c + acc) 0 l.

(** ** Spending and creating *)

Lemma total_value_creates (l : list (OutPoint * Coin)) m : values_ok m -> Forall (fun p => 0 <= coin_value p.2) l ->
  total_value (fold_left (fun m p => <[p.1 := p.2]> m) l m) <= total_value m + sum_values (map snd l) /\
  values_ok (fold_left (fun m p => <[p.1 := p.2]> m) l m).
Proof.
  revert m; induction l as [|p l IH]; intros m Hm Hl; cbn [fold_left map sum_values fold_right]; [by split; [lia|]|].
  inversion Hl as [|? ? Hp Hl']; subst. destruct (IH (<[p.1 := p.2]> m)) as [H1 H2]; [by apply values_ok_insert|done|].
  split; [|done]. pose proof (total_value_insert_le m p.1 p.2 Hm). unfold sum_values in *. lia.
Qed.

(** Exactly, when the outpoints are distinct and absent. *)
Lemma total_value_creates_new (l : list (OutPoint * Coin)) m : NoDup (map fst l) -> Forall (fun o => m !! o = None) (map fst l) ->
  total_value (fold_left (fun m p => <[p.1 := p.2]> m) l m) = total_value m + sum_values (map snd l).
Proof.
  revert m; induction l as [|p l IH]; intros m Hnd Hf; cbn [fold_left map sum_values fold_right] in *; [lia|].
  apply NoDup_cons in Hnd as [Hp Hnd]. apply Forall_cons in Hf as [Hn Hf]. rewrite IH; [|done|].
  - rewrite total_value_insert by done. unfold sum_values. lia.
  - apply Forall_forall. intros o Ho. rewrite Forall_forall in Hf. rewrite lookup_insert_ne; [by apply Hf|]. intros Ep. by rewrite <- Ep in Ho.
Qed.
Lemma creates_lookup (l : list (OutPoint * Coin)) (m : UtxoMap) o : m !! o = None -> o ∉ map fst l ->
  fold_left (fun m p => <[p.1 := p.2]> m) l m !! o = None.
Proof.
  revert m; induction l as [|p l IH]; intros m Hm Hn; cbn [fold_left map] in *; [done|]. apply not_elem_of_cons in Hn as [Hp Hn].
  apply IH; [|done]. by rewrite lookup_insert_ne.
Qed.
Lemma spends_lookup ins (m : UtxoMap) o : m !! o = None -> fold_left (fun m i => delete (previous_output i) m) ins m !! o = None.
Proof. revert m; induction ins as [|i ins IH]; intros m Hm; cbn [fold_left]; [done|]. apply IH, lookup_delete_None. by right. Qed.

(** The coins at the outpoints of [ins], all present and distinct. *)
Lemma total_value_spends ins coins m : values_ok m -> NoDup (map previous_output ins) ->
  Forall2 (fun i c => m !! previous_output i = Some c) ins coins ->
  total_value (fold_left (fun m i => delete (previous_output i) m) ins m) = total_value m - sum_values coins /\
  values_ok (fold_left (fun m i => delete (previous_output i) m) ins m).
Proof.
  revert coins m; induction ins as [|i ins IH]; intros coins m Hm Hnd H2; inversion H2 as [|? c ? cs Hc Hcs]; subst;
    cbn [fold_left map sum_values fold_right] in *; [by split; [lia|]|].
  apply NoDup_cons in Hnd as [Hni Hnd].
  destruct (IH cs (delete (previous_output i) m)) as [H1 H3].
  - by apply values_ok_delete.
  - done.
  - clear IH H2. induction Hcs as [|j d js ds Hd Hds IH']; constructor.
    + rewrite lookup_delete_ne; [done|]. intros E. apply Hni. rewrite E. cbn [map]. by left.
    + apply IH'; [intros Hin; apply Hni; by right|]. cbn [map] in Hnd. by apply NoDup_cons in Hnd as [_ ?].
  - split; [|done]. rewrite H1, (total_value_delete m _ c Hc). unfold sum_values. lia.
Qed.

Lemma imap_coin_values (f : nat -> OutPoint) h cb outs : Forall (fun o => 0 <= value o) outs ->
  Forall (fun p => 0 <= coin_value p.2) (imap (fun k o => (f k, mkCoin o h cb)) outs) /\
  sum_values (map snd (imap (fun k o => (f k, mkCoin o h cb)) outs)) = foldr (fun o acc => value o + acc) 0 outs.
Proof.
  intros H. revert f; induction H as [|o outs Ho Houts IH]; intros f; cbn [imap map]; [split; [constructor|done]|].
  destruct (IH (fun k => f (S k))) as [H1 H2]. split; [constructor; [exact Ho|exact H1]|].
  unfold sum_values in *. cbn [map fold_right foldr snd]. unfold coin_value at 1. cbn [output]. f_equal. exact H2.
Qed.

Lemma tx_coins_values {D : Digests} tx h cb : Forall (fun o => 0 <= value o) (outputs tx) ->
  Forall (fun p => 0 <= coin_value p.2) (tx_coins tx h cb) /\
  sum_values (map snd (tx_coins tx h cb)) = foldr (fun o acc => value o + acc) 0 (outputs tx).
Proof. apply (imap_coin_values (fun vout => mkOutPoint (txid tx) (wrap_u 32 (Z.of_nat vout)))). Qed.

(** ** CheckTransaction *)

Lemma has_duplicate_spec seen ins : has_duplicate seen ins = false <->
  NoDup (map previous_output ins) /\ Forall (fun i => previous_output i ∉ seen) ins.
Proof.
  revert seen; induction ins as [|i ins IH]; intros seen; cbn [has_duplicate map].
  - split; [intros _; split; constructor|done].
  - rewrite NoDup_cons, Forall_cons. case_bool_decide as Hin; [naive_solver|]. rewrite IH, !Forall_forall. split.
    + intros (Hnd & Hf). split_and!; [|done|done|].
      * intros (j & Hj & Hjin)%list_elem_of_fmap. apply (Hf j Hjin). rewrite <- Hj. set_solver.
      * intros j Hj Hs. apply (Hf j Hj). set_solver.
    + intros ((Hni & Hnd) & _ & Hf). split; [done|]. intros j Hj [Hs|Hs]%elem_of_union; [|by apply (Hf j Hj)].
      apply Hni. apply elem_of_singleton in Hs as <-. by apply list_elem_of_fmap_2.
Qed.

Lemma check_outputs_spec outs acc r : 0 <= acc <= MAX_MONEY -> Forall (fun o => 0 <= value o) outs ->
  check_outputs acc outs = Ok r <-> sum_outputs acc outs = Some r.
Proof.
  intros Hacc Hf. revert acc Hacc; induction Hf as [|o outs Ho Hf IH]; intros acc Hacc; cbn [check_outputs sum_outputs].
  - split; congruence.
  - unfold Amount_is_valid. destruct (Z.leb_spec (value o) MAX_MONEY); cbn [negb].
    + destruct (Amount_checked_add acc (value o)) as [s|] eqn:E; cbn [ok_or rbind]; [|done].
      apply Amount_checked_add_spec in E as [-> ?]; [|lia|lia]. apply IH. lia.
    + split; [done|]. destruct (Amount_checked_add acc (value o)) as [s|] eqn:E; [|done].
      apply Amount_checked_add_spec in E; lia.
Qed.

Definition outs_ok (tx : Transaction) : Prop := Forall (fun o => 0 <= value o) (outputs tx).
Definition outputs_sum (tx : Transaction) : Z := foldr (fun o s => value o + s) 0 (outputs tx).

Lemma is_coinbase_outpoint o : OutPoint_is_coinbase o = true <-> o = OutPoint_COINBASE.
Proof.
  destruct o as [t v]. unfold OutPoint_is_coinbase, OutPoint_COINBASE. cbn.
  rewrite andb_true_iff, bool_decide_eq_true, Z.eqb_eq. split; [by intros [-> ->]|by intros [= -> ->]].
Qed.

Lemma no_null_prevout ins : existsb (fun i => OutPoint_is_coinbase (previous_output i)) ins = false <->
  Forall (fun i => previous_output i <> OutPoint_COINBASE) ins.
Proof.
  induction ins as [|i ins IH]; cbn [existsb]; [split; [constructor|done]|].
  rewrite orb_false_iff, IH, Forall_cons. destruct (OutPoint_is_coinbase (previous_output i)) eqn:E.
  - apply is_coinbase_outpoint in E. naive_solver.
  - split; [|naive_solver]. intros [_ ?]. split; [|done]. intros E'. apply is_coinbase_outpoint in E'. congruence.
Qed.

(** The last step of [check_transaction]. *)
Lemma input_shape tx i ins : inputs tx = i :: ins ->
  (if is_coinbase tx then
    if (length (script_sig i) <? MIN_COINBASE_SCRIPT_SIZE)%nat || (MAX_COINBASE_SCRIPT_SIZE <? length (script_sig i))%nat
    then Err (BadCoinbaseScriptLength (length (script_sig i))) else Ok tt
  else if existsb (fun i => OutPoint_is_coinbase (previous_output i)) (i :: ins) then Err NullPrevout else Ok tt) = Ok tt <->
  (exists j, i :: ins = [j] /\ previous_output j = OutPoint_COINBASE /\ (2 <= length (script_sig j) <= 100)%nat) \/
   Forall (fun i => previous_output i <> OutPoint_COINBASE) (i :: ins).
Proof.
  intros Ei. destruct (is_coinbase tx) eqn:Ec.
  - unfold is_coinbase in Ec. rewrite Ei in Ec. destruct ins; [|done]. apply is_coinbase_outpoint in Ec.
    destruct (Nat.ltb_spec (length (script_sig i)) MIN_COINBASE_SCRIPT_SIZE), (Nat.ltb_spec MAX_COINBASE_SCRIPT_SIZE (length (script_sig i)));
      cbn [orb]; unfold MIN_COINBASE_SCRIPT_SIZE, MAX_COINBASE_SCRIPT_SIZE in *;
      (split; [try done|]); try (intros [(j & [= <-] & _ & ?)|[? _]%Forall_cons]; [lia|done]).
    + intros _. left. exists i. split_and!; [done|done|lia|lia].
    + done.
  - destruct (existsb _ _) eqn:Ex.
    + split; [done|]. intros [(j & [= <- ->] & Hj & _)|Hf].
      * unfold is_coinbase in Ec. rewrite Ei in Ec. apply is_coinbase_outpoint in Hj. congruence.
      * apply no_null_prevout in Hf. congruence.
    + split; [|done]. intros _. right. by apply no_null_prevout.
Qed.

Lemma check_transaction_lemma (tx : Transaction) : outs_ok tx ->
  check_transaction tx = Ok tt <->
  inputs tx <> [] /\ outputs tx <> [] /\ outputs_sum tx <= MAX_MONEY /\ NoDup (map previous_output (inputs tx)) /\
  ((exists i, inputs tx = [i] /\ previous_output i = OutPoint_COINBASE /\ (2 <= length (script_sig i) <= 100)%nat) \/
   Forall (fun i => previous_output i <> OutPoint_COINBASE) (inputs tx)).
Proof.
  intros Ho. unfold check_transaction.
  destruct (inputs tx) as [|i ins] eqn:Ei; [split; [done|naive_solver]|]. cbn [length Nat.eqb].
  destruct (length (outputs tx) =? 0)%nat eqn:El.
  { apply Nat.eqb_eq, nil_length_inv in El. split; [done|naive_solver]. }
  assert (outputs tx <> []) as Hne by (intros E0; rewrite E0 in El; done).
  destruct (check_outputs 0 (outputs tx)) as [total|e] eqn:Ec; cbn [rbind].
  2: { split; [done|]. intros (_ & _ & Hs & _). exfalso.
       assert (sum_outputs 0 (outputs tx) = Some (outputs_sum tx)) as E1 by (apply sum_outputs_spec; [unfold MAX_MONEY, COIN; lia|done|unfold outputs_sum in *; lia]).
       apply check_outputs_spec in E1; [congruence|unfold MAX_MONEY, COIN; lia|done]. }
  apply check_outputs_spec in Ec; [|unfold MAX_MONEY, COIN; lia|done].
  apply sum_outputs_spec in Ec as [-> Hs]; [|unfold MAX_MONEY, COIN; lia|done]. fold (outputs_sum tx) in Hs |- *. rewrite Z.add_0_l in *.
  unfold Amount_is_valid. destruct (Z.leb_spec (outputs_sum tx) MAX_MONEY); [|lia]. cbn [negb].
  destruct (has_duplicate ∅ (i :: ins)) eqn:Ed.
  { split; [done|]. intros (_ & _ & _ & Hnd & _). exfalso.
    assert (has_duplicate ∅ (i :: ins) = false); [|congruence]. apply has_duplicate_spec. split; [done|].
    apply Forall_forall. intros. apply not_elem_of_empty. }
  apply has_duplicate_spec in Ed as [Hnd _]. rewrite (input_shape tx i ins Ei). naive_solver.
Qed.

(** [check_transaction] accepts exactly the transactions with inputs and
    outputs, whose outputs sum to at most the money supply, which spend no
    outpoint twice, and whose inputs are a lone null outpoint with a script of
    2 to 100 bytes or contain no null outpoint. *)
Lemma check_transaction_spec (tx : Transaction) : outs_ok tx ->
  check_transaction tx = Ok tt <->
  inputs tx <> [] /\ outputs tx <> [] /\ outputs_sum tx <= MAX_MONEY /\ NoDup (map previous_output (inputs tx)) /\
  ((exists i, inputs tx = [i] /\ previous_output i = OutPoint_COINBASE /\ (2 <= length (script_sig i) <= 100)%nat) \/
   Forall (fun i => previous_output i <> OutPoint_COINBASE) (inputs tx)).
Proof. apply check_transaction_lemma. Qed.

Lemma check_transaction_inv tx : outs_ok tx -> check_transaction tx = Ok tt -> NoDup (map previous_output (inputs tx)) /\ outputs_sum tx <= MAX_MONEY.
Proof. intros Ho H. apply check_transaction_lemma in H; tauto. Qed.

Lemma check_transaction_witness :
  check_transaction (mkTransaction 1 [mkTxIn OutPoint_COINBASE [1; 7] 0 []] [mkTxOut 50 []] 0) = Ok tt.
Proof.
  apply (check_transaction_spec (mkTransaction 1 [mkTxIn OutPoint_COINBASE [1; 7] 0 []] [mkTxOut 50 []] 0)).
  - apply Forall_cons_2; [cbn; lia|apply Forall_nil_2].
  - split_and!; [discriminate|discriminate|vm_compute; discriminate|apply NoDup_singleton|].
    left. exists (mkTxIn OutPoint_COINBASE [1; 7] 0 []). split_and!; [reflexivity|reflexivity|simpl; lia|simpl; lia].
Defined.

(** ** What a validated transaction spends *)

Lemma gather_inputs_lookup (m : UtxoMap) h total ins t coins : gather_inputs m h total ins = Ok (t, coins) ->
  Forall2 (fun i c => m !! previous_output i = Some c) ins coins /\
  Forall (fun c => coin_is_coinbase c = true -> height c + COINBASE_MATURITY <= h) coins.
Proof.
  revert total t coins; induction ins as [|i ins IH]; intros total t coins H; cbn [gather_inputs] in H.
  - injection H as <- <-. split; constructor.
  - apply rbind_ok in H as (cn & Hcn & H). apply ok_or_ok in Hcn. destruct (_ && _) eqn:Em; [done|].
    apply rbind_ok in H as (s & _ & H). apply rbind_ok in H as ([t' cs] & Hr & H). injection H as <- <-.
    apply IH in Hr as [H1 H2]. split; constructor; try done. intros Hcb. rewrite Hcb in Em. cbn in Em.
    apply Z.ltb_ge in Em. unfold saturating_sub_u, COINBASE_MATURITY in *. lia.
Qed.

Lemma gather_inputs_sum (m : UtxoMap) h total ins t coins : values_ok m -> 0 <= total ->
  gather_inputs m h total ins = Ok (t, coins) -> t = total + sum_values coins.
Proof.
  intros Hm. revert total t coins; induction ins as [|i ins IH]; intros total t coins Ht H; cbn [gather_inputs] in H.
  - injection H as <- <-. cbn. lia.
  - apply rbind_ok in H as (cn & Hcn & H). apply ok_or_ok in Hcn. destruct (_ && _); [done|].
    apply rbind_ok in H as (s & Hs & H). apply ok_or_ok in Hs. pose proof (Hm _ _ Hcn) as Hv. cbn in Hv.
    apply Amount_checked_add_spec in Hs as [-> _]; [|done|done].
    apply rbind_ok in H as ([t' cs] & Hr & H). injection H as <- <-.
    apply IH in Hr as ->; [|unfold coin_value in *; lia]. unfold sum_values. cbn [fold_right]. unfold coin_value at 2. lia.
Qed.

Lemma contextual_spec (m : UtxoMap) h tx fee coins : values_ok m -> outs_ok tx -> is_coinbase tx = false ->
  contextual_check_transaction_metadata tx m h = Ok (fee, coins) ->
  Forall2 (fun i c => m !! previous_output i = Some c) (inputs tx) coins /\
  sum_values coins = outputs_sum tx + fee /\ 0 <= fee.
Proof.
  intros Hm Ho Hc. unfold contextual_check_transaction_metadata. rewrite Hc. intros H.
  apply rbind_ok in H as ([t cs] & Hg & H). pose proof (gather_inputs_lookup _ _ _ _ _ _ Hg) as [H1 _].
  apply gather_inputs_sum in Hg as ->; [|done|lia].
  apply rbind_ok in H as (out & Hout & H). apply ok_or_ok, sum_outputs_spec in Hout as [-> _]; [|unfold MAX_MONEY, COIN; lia|done].
  fold (outputs_sum tx) in H. rewrite !Z.add_0_l in H. destruct (Z.ltb_spec (sum_values cs) (outputs_sum tx)); [done|].
  unfold Amount_checked_sub, checked_sub_u in H. inv_ok.
  match goal with H : (if ?b then _ else _) = Some _ |- _ => destruct b; [|done]; injection H as <- end.
  split_and!; [done|lia|lia].
Qed.

Section Accounting.
Context {D : Digests} {K : Secp}.

(** A transaction that is not a coinbase moves value; the rest is its fee. *)
Lemma apply_tx_value h (m : UtxoMap) tx fee coins : values_ok m -> outs_ok tx -> is_coinbase tx = false ->
  NoDup (map previous_output (inputs tx)) ->
  contextual_check_transaction_metadata tx m h = Ok (fee, coins) ->
  total_value (apply_tx h m tx) + fee <= total_value m /\ values_ok (apply_tx h m tx) /\ 0 <= fee.
Proof.
  intros Hm Ho Hc Hnd H. apply contextual_spec in H as (H1 & H2 & H3); [|done..].
  destruct (total_value_spends (inputs tx) coins m Hm Hnd H1) as [S1 S2]. unfold apply_tx, create_outputs.
  destruct (tx_coins_values tx h false Ho) as [T1 T2]. fold (outputs_sum tx) in T2.
  destruct (total_value_creates (tx_coins tx h false) (spend_inputs m tx) S2 T1) as [C1 C2].
  unfold spend_inputs in *. split_and!; [lia|done|done].
Qed.

Context {E : Type} {P : BlockIndexProvider} {SE : ScriptEngine E}.
Context (params : ChainParams) (h : BlockHeight) (check_scripts : bool) (engine : E).

(** What [check_block] and decoding guarantee of a transaction after the first. *)
Definition ordinary (tx : Transaction) : Prop :=
  outs_ok tx /\ is_coinbase tx = false /\ NoDup (map previous_output (inputs tx)).

Lemma spec_txs_value txs m fees spent verdicts fees' spent' m' verdicts' : values_ok m -> 0 <= fees -> Forall ordinary txs ->
  spec_txs h check_scripts engine m fees spent verdicts txs = Ok (fees', spent', m', verdicts') ->
  total_value m' + fees' <= total_value m + fees /\ values_ok m' /\ 0 <= fees'.
Proof.
  intros Hm Hf Htx. revert m fees spent verdicts Hm Hf; induction Htx as [|tx txs (Ho & Hc & Hnd) Htx IH]; intros m fees spent verdicts Hm Hf H;
    cbn [spec_txs] in H; [by injection H as <- <- <- <-|].
  apply rbind_ok in H as ([fee coins] & H1 & H). apply rbind_ok in H as (fees1 & H2 & H). apply ok_or_ok in H2.
  destruct (apply_tx_value h m tx fee coins Hm Ho Hc Hnd H1) as (V1 & V2 & V3).
  apply Amount_checked_add_spec in H2 as [-> _]; [|done|done].
  assert (0 <= fees + fee) as Hff by lia. destruct (IH _ _ _ _ V2 Hff H) as (W1 & W2 & W3). split_and!; [lia|done|done].
Qed.

(** The outputs of the transactions shaped like a coinbase. *)
Definition minted (txs : list Transaction) : Z := foldr (fun tx acc => (if is_coinbase tx then outputs_sum tx else 0) + acc) 0 txs.
Definition all_new (m : UtxoMap) (l : list OutPoint) : Prop :=
  NoDup l /\ Forall (fun o => m !! o = None) l /\ m !! OutPoint_COINBASE = None /\ OutPoint_COINBASE ∉ l.

(** One transaction, exactly: it moves value and pays its fee, or, shaped like a
    coinbase, creates its outputs. *)
Lemma apply_tx_value_exact (m : UtxoMap) tx fee coins rest : values_ok m -> outs_ok tx -> NoDup (map previous_output (inputs tx)) ->
  all_new m (map fst (tx_coins tx h false) ++ rest) -> contextual_check_transaction_metadata tx m h = Ok (fee, coins) ->
  total_value (apply_tx h m tx) + fee = total_value m + (if is_coinbase tx then outputs_sum tx else 0) /\
  values_ok (apply_tx h m tx) /\ 0 <= fee /\ all_new (apply_tx h m tx) rest.
Proof.
  intros Hm Ho Hnd (N1 & N2 & N3 & N4) H. destruct (tx_coins_values tx h false Ho) as [T1 T2]. fold (outputs_sum tx) in T2.
  apply NoDup_app in N1 as (N1 & N1' & N1''). apply Forall_app in N2 as [N2 N2']. rewrite not_elem_of_app in N4. destruct N4 as [N4 N4'].
  assert (all_new (apply_tx h m tx) rest) as Hrest.
  { split_and!; [done| | |done].
    - apply Forall_forall. intros o Hr. rewrite Forall_forall in N2'. apply creates_lookup; [apply spends_lookup; by apply N2'|]. intros Hin. by apply (N1' o Hin).
    - apply creates_lookup; [by apply spends_lookup|done]. }
  assert (total_value (apply_tx h m tx) = total_value (spend_inputs m tx) + outputs_sum tx) as Hv.
  { unfold apply_tx, create_outputs. rewrite total_value_creates_new, T2; [done|done|].
    eapply Forall_impl; [exact N2|]. intros o Hn. by apply spends_lookup. }
  destruct (is_coinbase tx) eqn:Ec.
  - unfold contextual_check_transaction_metadata in H. rewrite Ec in H. injection H as <- <-.
    assert (spend_inputs m tx = m) as Hs.
    { unfold spend_inputs, is_coinbase in *. destruct (inputs tx) as [|i [|? ?]]; try done. apply is_coinbase_outpoint in Ec.
      cbn [fold_left]. rewrite Ec. by apply delete_id. }
    rewrite Hv, Hs. split_and!; [lia| |lia|done]. unfold apply_tx, create_outputs. rewrite Hs. by apply total_value_creates.
  - apply contextual_spec in H as (H1 & H2 & H3); [|done..]. destruct (total_value_spends (inputs tx) coins m Hm Hnd H1) as [S1 S2].
    rewrite Hv. unfold spend_inputs. rewrite S1. split_and!; [lia| |lia|done]. by apply total_value_creates.
Qed.

Lemma spec_txs_value_exact txs m fees spent verdicts fees' spent' m' verdicts' rest : values_ok m -> 0 <= fees ->
  Forall (fun tx => outs_ok tx /\ NoDup (map previous_output (inputs tx))) txs -> all_new m (created h txs ++ rest) ->
  spec_txs h check_scripts engine m fees spent verdicts txs = Ok (fees', spent', m', verdicts') ->
  total_value m' + fees' = total_value m + fees + minted txs /\ values_ok m' /\ 0 <= fees' /\ all_new m' rest.
Proof.
  intros Hm Hf Htx. revert m fees spent verdicts Hm Hf; induction Htx as [|tx txs (Ho & Hnd) Htx IH]; intros m fees spent verdicts Hm Hf Hn H;
    cbn [spec_txs minted foldr] in *; [injection H as <- <- <- <-; split_and!; done || lia|].
  apply rbind_ok in H as ([fee coins] & H1 & H). apply rbind_ok in H as (fees1 & H2 & H). apply ok_or_ok in H2.
  unfold created in Hn. cbn [map concat] in Hn. rewrite <- app_assoc in Hn.
  destruct (apply_tx_value_exact m tx fee coins _ Hm Ho Hnd Hn H1) as (V1 & V2 & V3 & V4).
  apply Amount_checked_add_spec in H2 as [-> _]; [|done|done].
  assert (0 <= fees + fee) as Hff by lia. destruct (IH _ _ _ _ V2 Hff V4 H) as (W1 & W2 & W3 & W4). fold (minted txs). split_and!; [lia|done..].
Qed.

(** With script checks on, no transaction after the first is a coinbase. *)
Lemma spec_txs_no_coinbase `{!ScriptEngineOk E} txs m fees spent verdicts fees' spent' m' verdicts' :
  check_scripts = true ->
  spec_txs h check_scripts engine m fees spent verdicts txs = Ok (fees', spent', m', verdicts') ->
  Forall (fun r => r = Ok tt) verdicts' ->
  Forall (fun r => r = Ok tt) verdicts /\ Forall (fun tx => is_coinbase tx = false) txs.
Proof.
  intros Hck. rewrite Hck. revert m fees spent verdicts; induction txs as [|tx txs IH]; intros m fees spent verdicts H Hv;
    cbn [spec_txs] in H; [by injection H as <- <- <- <-|].
  apply rbind_ok in H as ([fee coins] & H1 & H). apply rbind_ok in H as (fees1 & H2 & H).
  destruct (IH _ _ _ _ H Hv) as [Hvs Htxs]. apply Forall_app in Hvs as [Hvs Hlast]. split; [done|]. constructor; [|done].
  inversion Hlast as [|? ? Hok _]; subst. apply verify_transaction_coins in Hok.
  destruct (is_coinbase tx) eqn:Ec; [|done]. unfold contextual_check_transaction_metadata in H1. rewrite Ec in H1.
  injection H1 as <- <-. unfold is_coinbase in Ec. by destruct (inputs tx) as [|? []].
Qed.

(** Every transaction was checked against the coins of its own position. *)
Lemma spec_txs_each l1 tx l2 m fees spent verdicts fees' spent' m' verdicts' :
  check_scripts = true ->
  spec_txs h check_scripts engine m fees spent verdicts (l1 ++ tx :: l2) = Ok (fees', spent', m', verdicts') ->
  Forall (fun r => r = Ok tt) verdicts' ->
  exists fee coins, contextual_check_transaction_metadata tx (fold_left (apply_tx h) l1 m) h = Ok (fee, coins) /\
    verify_transaction engine tx coins = Ok tt.
Proof.
  intros Hck. revert m fees spent verdicts; induction l1 as [|tx' l1 IH]; intros m fees spent verdicts H Hv; cbn [app spec_txs fold_left] in *;
    apply rbind_ok in H as ([fee coins] & H1 & H); apply rbind_ok in H as (fees1 & H2 & H); [|by eapply IH].
  exists fee, coins. split; [done|]. clear -H Hv Hck. rewrite Hck in H.
  assert (forall l m fees spent verdicts, spec_txs h true engine m fees spent verdicts l = Ok (fees', spent', m', verdicts') ->
    verdicts ⊆+ verdicts') as Hsub.
  { clear. induction l as [|x l IH]; intros m fees spent verdicts H; cbn [spec_txs] in H; [by injection H as <- <- <- <-|].
    apply rbind_ok in H as ([fee coins] & _ & H). apply rbind_ok in H as (fees1 & _ & H). apply IH in H.
    etransitivity; [|exact H]. apply submseteq_inserts_r. done. }
  apply Hsub, submseteq_Permutation in H as [k Hk]. rewrite Hk, !Forall_app in Hv. destruct Hv as [[_ Hv] _]. by inversion Hv.
Qed.

Lemma await_all_ok l : await_all l = Ok tt -> Forall (fun r => r = Ok tt) l.
Proof.
  induction l as [|r l IH]; cbn [await_all]; [constructor|]. intros H. apply rbind_ok in H as ([] & -> & H). constructor; [done|by apply IH].
Qed.

Lemma check_transactions_ok txs : check_transactions txs = Ok tt -> Forall (fun tx => check_transaction tx = Ok tt) txs.
Proof.
  induction txs as [|tx txs IH]; cbn [check_transactions]; [constructor|]. intros H.
  apply rbind_ok in H as ([] & H1 & H). constructor; [done|by apply IH].
Qed.

Lemma prechecks_transactions b prev : block_prechecks params h b prev = Ok tt ->
  Forall (fun tx => check_transaction tx = Ok tt) (transactions b).
Proof.
  unfold block_prechecks, check_block. intros H. apply rbind_ok in H as ([] & H & _).
  repeat match goal with H : (if ?b then _ else _) = Ok _ |- _ => destruct b; [done|] end.
  apply rbind_ok in H as ([] & H & _). by apply check_transactions_ok.
Qed.

Lemma block_subsidy_nonneg hh : 0 <= block_subsidy hh params.
Proof.
  unfold block_subsidy, Amount_from_sat. destruct (64 <=? _); [lia|]. destruct (MAX_MONEY <? _); [lia|].
  apply Z.shiftr_nonneg. unfold INITIAL_BLOCK_REWARD, COIN. lia.
Qed.

(** What a successful run of the specification did. *)
Lemma connect_spec_value `{!ScriptEngineOk E} join b prev m fees spent m' :
  check_scripts = true -> (forall l, Permutation (join l) l) -> values_ok m -> Forall outs_ok (transactions b) ->
  connect_spec params h check_scripts engine join b prev m = (Ok (fees, spent), m') ->
  total_value m' <= total_value m + block_subsidy h params /\ values_ok m'.
Proof.
  intros Hck Hjoin Hm Ho. unfold connect_spec.
  destruct (block_prechecks params h b prev) as [[]|] eqn:Epre; cbn [rbind]; [|done].
  assert (transactions b <> []) as Hne by by eapply prechecks_nonempty.
  apply prechecks_transactions in Epre.
  destruct (spec_txs _ _ _ _ _ _ _ _) as [[[[fees' spent'] m1] verdicts]|] eqn:Etx; cbn [rbind]; [|done].
  destruct (await_all (join verdicts)) as [[]|] eqn:Eaw; cbn [rbind]; [|done].
  assert (Forall (fun r => r = Ok tt) verdicts) as Hv by (rewrite <- (Hjoin verdicts); by apply await_all_ok).
  destruct (spec_txs_no_coinbase _ _ _ _ _ _ _ _ _ Hck Etx Hv) as [_ Hcb].
  apply spec_txs_value in Etx as (V1 & V2 & V3); [|done|lia|].
  2: { apply Forall_forall. intros tx Htx. rewrite Forall_forall in Epre, Ho, Hcb.
       assert (tx ∈ transactions b) as Hin by (clear -Htx Hne; destruct (transactions b) as [|t l]; [done|]; right; exact Htx).
       split_and!; [by apply Ho|by apply Hcb|]. by apply (check_transaction_inv tx (Ho tx Hin) (Epre tx Hin)). }
  destruct (check_coinbase_value _ _ _ _) as [[]|] eqn:Ec; [|done]. intros [= <- <- <-].
  unfold check_coinbase_value in Ec. apply rbind_ok in Ec as (cl & Hcl & Ec). apply rbind_ok in Ec as (al & Hal & Ec).
  assert (outs_ok (coinbase_of b)) as Hob.
  { unfold coinbase_of. destruct (transactions b); [done|]. by inversion Ho. }
  apply ok_or_ok, sum_outputs_spec in Hcl as [-> _]; [|unfold MAX_MONEY, COIN; lia|done].
  apply ok_or_ok, Amount_checked_add_spec in Hal as [-> _]; [|apply block_subsidy_nonneg|done].
  destruct (Z.ltb_spec (block_subsidy h params + fees') (0 + foldr (fun o s => value o + s) 0 (outputs (coinbase_of b)))); [done|].
  destruct (tx_coins_values (coinbase_of b) h true Hob) as [T1 T2].
  destruct (total_value_creates (tx_coins (coinbase_of b) h true) m1 V2 T1) as [C1 C2].
  split; [|done]. unfold create_outputs. lia.
Qed.

(** The value after an accepted block, exactly. *)
Lemma connect_spec_value_exact join b prev m fees spent m' : values_ok m -> Forall outs_ok (transactions b) ->
  all_new m (created h (transactions b)) -> connect_spec params h check_scripts engine join b prev m = (Ok (fees, spent), m') ->
  total_value m' = total_value m - fees + outputs_sum (coinbase_of b) + minted (drop 1 (transactions b)) /\
  outputs_sum (coinbase_of b) <= block_subsidy h params + fees.
Proof.
  intros Hm Ho Hn. unfold connect_spec. destruct (block_prechecks params h b prev) as [[]|] eqn:Epre; cbn [rbind]; [|done].
  assert (transactions b <> []) as Hne by by eapply prechecks_nonempty. apply prechecks_transactions in Epre.
  assert (transactions b = coinbase_of b :: drop 1 (transactions b)) as Hb by (unfold coinbase_of; by destruct (transactions b)).
  destruct (spec_txs _ _ _ _ _ _ _ _) as [[[[fees' spent'] m1] verdicts]|] eqn:Etx; cbn [rbind]; [|done].
  destruct (await_all (join verdicts)) as [[]|]; cbn [rbind]; [|done].
  rewrite Hb in Ho, Epre, Hn. apply Forall_cons in Ho as [Hob Ho]. apply Forall_cons in Epre as [_ Epre].
  unfold created in Hn. cbn [map concat] in Hn. fold (created h (drop 1 (transactions b))) in Hn.
  apply (spec_txs_value_exact _ _ _ _ _ _ _ _ _ (map fst (tx_coins (coinbase_of b) h false))) in Etx as (V1 & V2 & V3 & V4); [|done|lia| |].
  2: { apply Forall_forall. intros tx Htx. rewrite Forall_forall in Epre, Ho. split; [by apply Ho|]. by apply (check_transaction_inv tx (Ho tx Htx) (Epre tx Htx)). }
  2: { destruct Hn as (N1 & N2 & N3 & N4). rewrite app_Permutation_comm in N1. rewrite Forall_app in N2. rewrite elem_of_app in N4. split_and!; [done| |done|].
       - apply Forall_app. tauto.
       - rewrite elem_of_app. tauto. }
  destruct (check_coinbase_value _ _ _ _) as [[]|] eqn:Ec; [|done]. intros [= <- <- <-].
  unfold check_coinbase_value in Ec. apply rbind_ok in Ec as (cl & Hcl & Ec). apply rbind_ok in Ec as (al & Hal & Ec).
  apply ok_or_ok, sum_outputs_spec in Hcl as [-> _]; [|unfold MAX_MONEY, COIN; lia|done].
  apply ok_or_ok, Amount_checked_add_spec in Hal as [-> _]; [|apply block_subsidy_nonneg|done].
  fold (outputs_sum (coinbase_of b)) in Ec. destruct (Z.ltb_spec (block_subsidy h params + fees') (0 + outputs_sum (coinbase_of b))); [done|].
  destruct (tx_coins_values (coinbase_of b) h true Hob) as [_ T2]. fold (outputs_sum (coinbase_of b)) in T2. destruct V4 as (N1 & N2 & _ & _).
  unfold create_outputs. rewrite total_value_creates_new, T2 by (by rewrite tx_coins_fst). split; lia.
Qed.
End Accounting.


(** The transactions of an accepted block were validated as the specification does,
    whether or not their outputs overwrite unspent ones. *)
Lemma accepted_txs {D : Digests} {K : Secp} {V E : Type} {CV : CoinsView V} {P : BlockIndexProvider}
    {SE : ScriptEngine E} (params : ChainParams) (h : BlockHeight) (check_scripts : bool) (engine : E)
    (join : list (result unit ValidationError) -> list (result unit ValidationError))
    (b : Block) (prev : BlockIndex) (view view' : CoinsViewCache V) (m : UtxoMap) r :
  refines view m -> connect_block params h check_scripts engine join b prev view = (Ok r, view') ->
  exists fees spent m' verdicts, spec_txs h check_scripts engine m 0 [] [] (drop 1 (transactions b)) = Ok (fees, spent, m', verdicts) /\ await_all (join verdicts) = Ok tt.
Proof.
  intros Hr H. unfold connect_block in H. destruct (block_prechecks params h b prev) as [[]|]; cbn [rbind] in H; [|done].
  pose proof (validate_txs_spec h check_scripts engine view m (mkProgress 0 BlockUndo_new ∅ [] []) (drop 1 (transactions b))) as Hv.
  cbn [overlay total_fees block_undo verification_set spent_coins BlockUndo_new] in Hv. specialize (Hv ltac:(intros o; apply Hr)).
  destruct (validate_txs _ _ _ _ _ _) as [p|e]; cbn [rbind] in H; [|done]. destruct (await_all (join (verification_set p))) as [[]|] eqn:Ea; cbn [rbind] in H; [|done].
  destruct (spec_txs _ _ _ _ _ _ _ _) as [[[[fees spent] m'] verdicts]|e']; [|done]. destruct Hv as (_ & _ & Hv & _). eexists _, _, _, _. split; [done|]. by rewrite <- Hv.
Qed.

(** The coins a transaction of an accepted block spends, and the engine's verdict. *)
Lemma spends_valid {D : Digests} {K : Secp} {V E : Type} {CV : CoinsView V} {P : BlockIndexProvider}
    {SE : ScriptEngine E} {SO : ScriptEngineOk E} (params : ChainParams) (h : BlockHeight) (engine : E)
    (join : list (result unit ValidationError) -> list (result unit ValidationError))
    (b : Block) (prev : BlockIndex) (view view' : CoinsViewCache V) (m : UtxoMap) fees undo l1 tx l2 :
  (forall l, Permutation (join l) l) ->
  refines view m -> connect_block params h true engine join b prev view = (Ok (fees, undo), view') ->
  drop 1 (transactions b) = l1 ++ tx :: l2 ->
  exists coins, Forall2 (fun i c => fold_left (apply_tx h) l1 m !! previous_output i = Some c) (inputs tx) coins /\
    Forall (fun c => coin_is_coinbase c = true -> height c + COINBASE_MATURITY <= h) coins /\
    verify_transaction engine tx coins = Ok tt.
Proof.
  intros Hj Hr H Htx. destruct (accepted_txs params h true engine join b prev view view' m _ Hr H) as (fees' & spent' & m1 & verdicts & Etx & Eaw).
  rewrite Htx in Etx.
  assert (Forall (fun r => r = Ok tt) verdicts) as Hv by (rewrite <- (Hj verdicts); by apply await_all_ok).
  destruct (spec_txs_no_coinbase _ _ _ _ _ _ _ _ _ _ _ _ eq_refl Etx Hv) as [_ Hcb].
  destruct (spec_txs_each _ _ _ _ _ _ _ _ _ _ _ _ _ _ eq_refl Etx Hv) as (fee & coins & Hc & Hver).
  apply Forall_app in Hcb as [_ Hcb]. inversion Hcb as [|? ? Hnc _]; subst.
  unfold contextual_check_transaction_metadata in Hc. rewrite Hnc in Hc.
  apply rbind_ok in Hc as ([t cs] & Hg & Hc). repeat (apply rbind_ok in Hc as (? & _ & Hc) || case_match; try done). 
  simplify_eq. exists coins. apply gather_inputs_lookup in Hg as [H1 H2]. done.
Qed.


(** ** The subsidy schedule *)

Section Subsidy.
Context (params : ChainParams) (Hi : 0 < n_subsidy_halving_interval (consensus params)).
Abbreviation interval := (n_subsidy_halving_interval (consensus params)).

(** The reward of the [k]-th era. *)
Definition era_reward (k : Z) : Z := if 64 <=? k then 0 else Z.shiftr INITIAL_BLOCK_REWARD k.

Lemma block_subsidy_era h : 0 <= h -> block_subsidy h params = era_reward (h / interval).
Proof.
  intros Hh. unfold block_subsidy, era_reward. destruct (64 <=? h / interval); [done|]. unfold Amount_from_sat.
  destruct (Z.ltb_spec MAX_MONEY (Z.shiftr INITIAL_BLOCK_REWARD (h / interval))) as [Hlt|]; [|done]. exfalso.
  assert (0 <= h / interval) by (apply Z.div_pos; lia). rewrite Z.shiftr_div_pow2 in Hlt by done.
  assert (INITIAL_BLOCK_REWARD / 2 ^ (h / interval) <= INITIAL_BLOCK_REWARD).
  { apply Z.div_le_upper_bound; [apply Z.pow_pos_nonneg; lia|]. assert (1 <= 2 ^ (h / interval)) by (apply (Z.pow_le_mono_r 2 0); lia).
    unfold INITIAL_BLOCK_REWARD, COIN. lia. }
  unfold MAX_MONEY, INITIAL_BLOCK_REWARD, COIN in *. lia.
Qed.

Lemma era_reward_halves k : 0 <= k -> 0 <= 2 * era_reward (k + 1) <= era_reward k.
Proof.
  intros Hk. unfold era_reward. assert (0 <= Z.shiftr INITIAL_BLOCK_REWARD k) by (apply Z.shiftr_nonneg; unfold INITIAL_BLOCK_REWARD, COIN; lia).
  destruct (Z.leb_spec 64 (k + 1)), (Z.leb_spec 64 k); try lia.
  rewrite <- Z.shiftr_shiftr, (Z.shiftr_div_pow2 _ 1) by lia. change (2 ^ 1) with 2.
  pose proof (Z.mul_div_le (Z.shiftr INITIAL_BLOCK_REWARD k) 2). pose proof (Z.div_pos (Z.shiftr INITIAL_BLOCK_REWARD k) 2). lia.
Qed.

(** All subsidies below height [n]. *)
Fixpoint supply (n : nat) : Z :=
  match n with O => 0 | S n => supply n + block_subsidy (Z.of_nat n) params end.

(** The supply so far, and a bound on what is still to come. *)
Lemma supply_potential n :
  let q := Z.of_nat n / interval in let r := Z.of_nat n mod interval in
  supply n + (interval - r) * era_reward q + interval * era_reward q <= 2 * interval * era_reward 0.
Proof.
  induction n as [|n IH]; cbn [supply].
  - rewrite Z.div_0_l, Z.mod_0_l by lia. lia.
  - cbv zeta in *. rewrite block_subsidy_era by lia.
    assert (0 <= Z.of_nat n / interval) as Hq by (apply Z.div_pos; lia).
    pose proof (Z.mod_pos_bound (Z.of_nat n) interval Hi) as Hr. pose proof (Z.div_mod (Z.of_nat n) interval ltac:(lia)) as Hdm.
    set (q := Z.of_nat n / interval) in *. set (r := Z.of_nat n mod interval) in *.
    destruct (decide (r + 1 = interval)) as [E1|E1].
    + assert (Z.of_nat (S n) / interval = q + 1) as -> by (symmetry; apply (Z.div_unique _ _ _ 0); lia).
      assert (Z.of_nat (S n) mod interval = 0) as -> by (symmetry; apply (Z.mod_unique _ _ (q + 1)); lia).
      pose proof (era_reward_halves q Hq). nia.
    + assert (Z.of_nat (S n) / interval = q) as -> by (symmetry; apply (Z.div_unique _ _ _ (r + 1)); lia).
      assert (Z.of_nat (S n) mod interval = r + 1) as -> by (symmetry; apply (Z.mod_unique _ _ q); lia). nia.
Qed.

(** C34: the subsidies of all blocks together never exceed the money supply of
    21 million coins, for any halving interval of at most 210000 blocks. *)
Theorem supply_capped (n : nat) : interval <= 210000 -> supply n <= MAX_MONEY.
Proof.
  intros H. pose proof (supply_potential n) as Hp. cbv zeta in Hp.
  assert (0 <= era_reward (Z.of_nat n / interval)) by
    (unfold era_reward; destruct (64 <=? _); [lia|apply Z.shiftr_nonneg; unfold INITIAL_BLOCK_REWARD, COIN; lia]).
  pose proof (Z.mod_pos_bound (Z.of_nat n) interval Hi).
  assert (era_reward 0 = 50 * COIN) as E0 by done. rewrite E0 in Hp. unfold MAX_MONEY, COIN in *. nia.
Qed.
End Subsidy.

(** ** A concrete chain, for evaluating block connection *)

Definition test_params : ChainParams :=
  mkChainParams REGTEST (mkBlockHeader 1 ZERO_HASH ZERO_HASH 0 0 0)
    (mkConsensusParams 1000 1000 1000 1000 (le_bytes 32 (2 ^ 255 - 1)) 600 1209600 true true 150 ZERO_HASH ZERO_HASH false [])
    18444 "bcrt" [] [].
Definition test_provider : BlockIndexProvider := fun _ => None.
Definition test_prev : BlockIndex := mkBlockIndex (mkBlockHeader 1 ZERO_HASH ZERO_HASH 0 0x207fffff 0) 199 ZERO_HASH None None.
Definition test_coinbase (v : Z) : Transaction := mkTransaction 1 [mkTxIn OutPoint_COINBASE [2; 200; 0] 0 []] [mkTxOut v [0x51]] 0.
Definition test_spend (v : Z) : Transaction := mkTransaction 1 [mkTxIn (sample_outpoint 1) [] 0 []] [mkTxOut v [0x51]] 0.
Definition test_block (txs : list Transaction) : Block :=
  mkBlock (mkBlockHeader 1 ZERO_HASH (@merkle_of toy_digests (map (@txid toy_digests) txs)) 1 0x207fffff 0) txs.
Definition test_store : MapStore := mkMapStore {[ sample_outpoint 1 := mkCoin (mkTxOut 50 [0x51]) 1 true ]} None.
Definition test_view : CoinsViewCache MapStore := @cache_new _ map_view test_store 1024.
Definition test_connect (check_scripts : bool) (txs : list Transaction) :=
  @connect_block toy_digests toy_secp MapStore ConsensusEngine map_view test_provider (@ConsensusEngine_verify toy_digests toy_secp)
    test_params 200 check_scripts (ConsensusEngine_new Native) (fun l => l) (test_block txs) test_prev test_view.
Definition test_spec (check_scripts : bool) (txs : list Transaction) :=
  @connect_spec toy_digests toy_secp ConsensusEngine test_provider (@ConsensusEngine_verify toy_digests toy_secp)
    test_params 200 check_scripts (ConsensusEngine_new Native) (fun l => l) (test_block txs) test_prev (ms_coins test_store).

Lemma test_view_refines : @refines MapStore map_view test_view (ms_coins test_store).
Proof. destruct (@cache_new_ok MapStore map_view test_store 1024) as [H1 H2]. split; [exact H1|]. intros o. exact (H2 o). Qed.

Lemma connect_block_refines_witness :
  same_result (test_connect true [test_coinbase 2500000010; test_spend 40]).1 (test_spec true [test_coinbase 2500000010; test_spend 40]).1 /\
  @refines MapStore map_view (test_connect true [test_coinbase 2500000010; test_spend 40]).2 (test_spec true [test_coinbase 2500000010; test_spend 40]).2.
Proof.
  apply (@connect_block_refines toy_digests toy_secp MapStore ConsensusEngine map_view test_provider
    (@ConsensusEngine_verify toy_digests toy_secp)).
  - exact test_view_refines.
  - apply (bool_decide_unpack _). vm_compute. exact I.
Defined.


Lemma supply_capped_witness : supply test_params 3 <= MAX_MONEY.
Proof. apply (supply_capped test_params); vm_compute; [reflexivity|discriminate]. Defined.

Lemma rejected_coinbase_stays_witness :
  (test_connect true [test_coinbase 2500000011; test_spend 40]).1 = Err (CoinbaseValueTooHigh 2500000011 2500000010) /\
  Forall (fun o => is_Some (@get_coin _ (@cache_view _ map_view) (test_connect true [test_coinbase 2500000011; test_spend 40]).2 o))
    (map fst (@tx_coins toy_digests (test_coinbase 2500000011) 200 true)).
Proof.
  refine (@rejected_coinbase_stays toy_digests toy_secp MapStore ConsensusEngine map_view test_provider
    (@ConsensusEngine_verify toy_digests toy_secp) test_params 200 true (ConsensusEngine_new Native) (fun l => l)
    (test_block [test_coinbase 2500000011; test_spend 40]) test_prev test_view _ 2500000011 2500000010 _ _ _ _ _ _).
  - vm_compute. reflexivity.
  - vm_compute. reflexivity.
  - vm_compute. reflexivity.
  - vm_compute. reflexivity.
  - vm_compute. reflexivity.
  - lia.
Defined.

(** C37: later coinbases mint.  Whether or not scripts are checked, and for any accepted
    block whose created outpoints are distinct, not unspent already and not the null
    one, the coins are afterwards worth exactly what they were worth, less the fees,
    plus what the coinbase claims (at most the subsidy and the fees), plus all the
    outputs of the later transactions that are shaped like a coinbase: [check_block]
    does not limit a block to one coinbase, and with script checks off, as for an
    assumed-valid block, nothing does. *)
Theorem second_coinbase_mints {D : Digests} {K : Secp} {V E : Type} {CV : CoinsView V} {P : BlockIndexProvider}
    {SE : ScriptEngine E} (params : ChainParams) (h : BlockHeight) (check_scripts : bool) (engine : E)
    (join : list (result unit ValidationError) -> list (result unit ValidationError))
    (b : Block) (prev : BlockIndex) (view view' : CoinsViewCache V) (m : UtxoMap) fees undo :
  refines view m -> values_ok m -> Forall outs_ok (transactions b) -> all_new m (created h (transactions b)) ->
  connect_block params h check_scripts engine join b prev view = (Ok (fees, undo), view') ->
  exists m', refines view' m' /\
    total_value m' = total_value m - fees + outputs_sum (coinbase_of b) + minted (drop 1 (transactions b)) /\
    outputs_sum (coinbase_of b) <= block_subsidy h params + fees.
Proof.
  intros Hr Hm Ho Hn H. destruct (connect_block_refinement params h check_scripts engine join b prev view m Hr ltac:(apply Hn)) as [Hs Hr'].
  rewrite H in Hs, Hr'. destruct (connect_spec _ _ _ _ _ _ _ _) as [[[fees' spent]|] m'] eqn:Es; [|done]. destruct Hs as [<- _].
  exists m'. split; [done|]. by apply (connect_spec_value_exact params h check_scripts engine join b prev m fees spent).
Qed.

Lemma second_coinbase_mints_witness :
  exists m', @refines MapStore map_view (test_connect false [test_coinbase 2500000000; test_coinbase 600]).2 m' /\
    total_value m' = total_value (ms_coins test_store) - 0 + 2500000000 + 600 /\ 2500000000 <= block_subsidy 200 test_params + 0.
Proof.
  eapply (@second_coinbase_mints toy_digests toy_secp MapStore ConsensusEngine map_view test_provider
    (@ConsensusEngine_verify toy_digests toy_secp) test_params 200 false (ConsensusEngine_new Native)
    (fun l => l) (test_block [test_coinbase 2500000000; test_coinbase 600]) test_prev test_view _ (ms_coins test_store)).
  - exact test_view_refines.
  - apply (bool_decide_unpack _). vm_compute. exact I.
  - apply (bool_decide_unpack _). vm_compute. exact I.
  - unfold all_new. apply (bool_decide_unpack _). vm_compute. exact I.
  - vm_compute. reflexivity.
Defined.

(** ** BIP 34 *)

Lemma push_data_short e : (length e <= 7)%nat -> push_data [] e = Z.of_nat (length e) :: e.
Proof.
  intros H. unfold push_data, push_prefix. destruct (Nat.ltb_spec (length e) (Z.to_nat OP_PUSHDATA1)) as [|Hge].
  - by rewrite wrap_u_small by lia.
  - change (Z.to_nat OP_PUSHDATA1) with 76%nat in Hge. lia.
Qed.

Lemma check_bip34_spec b h : u32_ok h ->
  check_bip34_height b h = Ok tt <->
  take (S (length (ScriptNum_encode h))) (script_sig (first_input (coinbase_of b))) =
    Z.of_nat (length (ScriptNum_encode h)) :: ScriptNum_encode h.
Proof.
  intros Hh. unfold check_bip34_height, starts_with. destruct (encode_spec h) as (_ & L & _); [int_unfold; lia|].
  rewrite push_data_short by done. cbn [length]. case_bool_decide; cbn [negb]; naive_solver.
Qed.

(** BIP 34 does its work: two blocks whose coinbases have the same script
    cannot both encode their heights unless the heights are equal, so coinbases
    of different heights are different transactions. *)
Lemma bip34_distinct (b b' : Block) (h h' : Z) : u32_ok h -> u32_ok h' ->
  check_bip34_height b h = Ok tt -> check_bip34_height b' h' = Ok tt ->
  script_sig (first_input (coinbase_of b)) = script_sig (first_input (coinbase_of b')) -> h = h'.
Proof.
  intros Hh Hh' H1 H2 E. apply check_bip34_spec in H1; [|done]. apply check_bip34_spec in H2; [|done]. rewrite <- E in H2.
  destruct (script_sig _) as [|x l]; [done|]. cbn [take] in H1, H2. injection H1 as Hx1 H1. injection H2 as Hx2 H2.
  assert (length (ScriptNum_encode h) = length (ScriptNum_encode h')) as El by lia. rewrite El, H2 in H1.
  destruct (encode_spec h) as (_ & _ & D1 & _); [int_unfold; lia|]. destruct (encode_spec h') as (_ & _ & D2 & _); [int_unfold; lia|].
  congruence.
Qed.

Lemma bip34_distinct_witness :
  check_bip34_height (test_block [test_coinbase 5]) 200 = Ok tt /\ check_bip34_height (test_block [test_coinbase 6]) 200 = Ok tt /\ 200 = 200.
Proof.
  split; [vm_compute; reflexivity|]. split; [vm_compute; reflexivity|].
  apply (bip34_distinct (test_block [test_coinbase 5]) (test_block [test_coinbase 6]) 200 200);
    [by (split; vm_compute)|by (split; vm_compute)|vm_compute; reflexivity|vm_compute; reflexivity|reflexivity].
Defined.

(** For heights 1 to 16 the rule rejects a coinbase that starts with the
    opcode OP_1 to OP_16, the way Bitcoin's own serialisation of a height
    writes these numbers: it demands a one-byte push instead. *)
Lemma bip34_small_height_rejected (b : Block) (h : Z) (rest : bytes) : 1 <= h <= 16 ->
  script_sig (first_input (coinbase_of b)) = (OP_1 + h - 1) :: rest ->
  check_bip34_height b h = Err (BadCoinbaseHeight h).
Proof.
  intros Hh E. unfold check_bip34_height, starts_with. rewrite E.
  assert (push_data [] (ScriptNum_encode h) = [1; h]) as ->.
  { assert (In h (seqZ 1 16)) as Hin by (apply list_elem_of_In, elem_of_seqZ; lia).
    assert (forallb (fun h => bool_decide (push_data [] (ScriptNum_encode h) = [1; h])) (seqZ 1 16) = true) as Hf by (vm_compute; reflexivity).
    rewrite forallb_forall in Hf. by apply Hf, bool_decide_eq_true in Hin. }
  rewrite bool_decide_false; [done|]. cbn [length take]. unfold OP_1. intros [= Hx]. lia.
Qed.

Lemma bip34_small_height_witness :
  check_bip34_height (mkBlock (mkBlockHeader 1 ZERO_HASH ZERO_HASH 0 0 0)
    [mkTransaction 1 [mkTxIn OutPoint_COINBASE [0x51; 0] 0 []] [mkTxOut 0 []] 0]) 1 = Err (BadCoinbaseHeight 1).
Proof.
  apply (bip34_small_height_rejected (mkBlock (mkBlockHeader 1 ZERO_HASH ZERO_HASH 0 0 0)
    [mkTransaction 1 [mkTxIn OutPoint_COINBASE [0x51; 0] 0 []] [mkTxOut 0 []] 0]) 1 [0]); [lia|reflexivity].
Defined.

