(* ===== verification/BlockFile.v ===== *)
(** * Flat block files (crates/storage/block_file.rs)

    [blk*.dat] and [rev*.dat]: record framing, preallocation in chunks,
    rotation and truncation of full files, the scan that finds the end of the
    used part, and reading a record back from its position.

    A file is its length and the bytes written to it; a byte inside the length
    that was never written reads as zero, which is what seeking past the end and
    writing one byte leaves.  The disk maps paths to files.  The operating system
    failing a call is not modelled; opening a file that does not exist is.  File
    sizes are unbounded integers: a [u64] offset does not overflow. *)

From S2P Require Import Prelude Wire Hash Transaction Block Params.
From stdpp Require Import pretty.
#[local] Open Scope Z_scope.

(** ** Errors (error.rs) *)

Inductive StoreError : Type :=
  | WireDecode (e : DecodeError)
  | RocksDB (e : string)
  | Io
  | LockPoisoned
  | Decode (msg : string)
  | Encode (msg : string)
  | MissingBestBlock
  | MissingBlockIndex
  | BlockFileUnavailable (file offset : Z)
  | IncompatibleDbVersion (found expected : Z)
  | MissingDbVersion (expected : Z)
  | Custom (msg : string).

(** ** Constants *)

Definition MAX_BLOCK_FILE_SIZE : Z := 128 * 1024 * 1024.
Definition BLOCK_FILE_CHUNK : Z := 16 * 1024 * 1024.
Definition UNDO_FILE_CHUNK : Z := 1024 * 1024.

(** ** Files *)

Record File : Type := mkFile { f_len : Z; f_bytes : gmap Z Z }.
Abbreviation Disk := (gmap bytes File).

Definition empty_file : File := mkFile 0 ∅.
Definition byte_at (f : File) (i : Z) : Z := default 0 (f_bytes f !! i).

(** [seek] and [read_exact] *)
Definition read_at (f : File) (off : Z) (n : nat) : option bytes :=
  if (n =? 0)%nat || (off + Z.of_nat n <=? f_len f)
  then Some (map (fun i => byte_at f (off + Z.of_nat i)) (seq 0 n)) else None.

Fixpoint put_bytes (off : Z) (data : bytes) (m : gmap Z Z) : gmap Z Z :=
  match data with
  | [] => m
  | b :: data => <[off := b]> (put_bytes (off + 1) data m)
  end.
(** [seek] and [write_all] *)
Definition write_at (f : File) (off : Z) (data : bytes) : File :=
  match data with
  | [] => f
  | _ => mkFile (Z.max (f_len f) (off + Z.of_nat (length data))) (put_bytes off data (f_bytes f))
  end.
(** [set_len] *)
Definition set_len (f : File) (n : Z) : File := mkFile n (filter (fun kv => kv.1 < n) (f_bytes f)).

(** ** [BlockFileInfo] *)

Record BlockFileInfo : Type := mkBlockFileInfo {
  fi_blocks : Z;
  fi_size : Z;
  undo_size : Z;
  height_first : Z;
  height_last : Z;
  time_first : Z;
  time_last : Z;
}.
Definition BlockFileInfo_default : BlockFileInfo := mkBlockFileInfo 0 0 0 0 0 0 0.

Definition update_for_block (i : BlockFileInfo) (height time : Z) : BlockFileInfo :=
  let first := fi_blocks i =? 0 in
  mkBlockFileInfo (wrap_u 32 (fi_blocks i + 1)) (fi_size i) (undo_size i)
    (if first then height else height_first i) (Z.max (height_last i) height)
    (if first then time else time_first i) (Z.max (time_last i) time).

Definition encode_BlockFileInfo : encoder_of BlockFileInfo := fun i e =>
  let e := encode_u64 (undo_size i) (encode_u64 (fi_size i) (encode_u32 (fi_blocks i) e)) in
  let e := encode_u32 (height_last i) (encode_u32 (height_first i) e) in
  encode_u32 (time_last i) (encode_u32 (time_first i) e).
Definition decode_BlockFileInfo : decoder_of BlockFileInfo := fun d =>
  let? '(blocks, d) := decode_u32 d in
  let? '(size, d) := decode_u64 d in
  let? '(undo, d) := decode_u64 d in
  let? '(hf, d) := decode_u32 d in
  let? '(hl, d) := decode_u32 d in
  let? '(tf, d) := decode_u32 d in
  let? '(tl, d) := decode_u32 d in
  Ok (mkBlockFileInfo blocks size undo hf hl tf tl, d).

(** ** [FlatFileSeq] *)

Record FlatFileSeq : Type := mkSeq { seq_dir : bytes; seq_prefix : string; chunk_size : Z }.

(** [{:05}]: at least five decimal digits *)
Fixpoint digit_count (fuel : nat) (n : Z) : nat :=
  match fuel with
  | O => 1
  | S fuel => if n <? 10 then 1 else S (digit_count fuel (n / 10))
  end.
Fixpoint dec_digits (k : nat) (n : Z) : bytes :=
  match k with
  | O => []
  | S k => dec_digits k (n / 10) ++ [48 + n mod 10]
  end.
Definition fmt05 (n : Z) : bytes := dec_digits (Nat.max 5 (digit_count 10 n)) n.

Definition path (s : FlatFileSeq) (n : Z) : bytes :=
  seq_dir s ++ string_bytes "/" ++ string_bytes (seq_prefix s) ++ fmt05 n ++ string_bytes ".dat".

Definition preallocate (s : FlatFileSeq) (f : File) (needed_until : Z) : File :=
  if f_len f <=? needed_until then
    let boundary := (needed_until / chunk_size s + 1) * chunk_size s in
    write_at f (boundary - 1) [0]
  else f.

Definition open_for_write (s : FlatFileSeq) (disk : Disk) (n offset : Z) : File :=
  preallocate s (default empty_file (disk !! path s n)) offset.

Definition open_for_read (s : FlatFileSeq) (disk : Disk) (n : Z) : result File StoreError :=
  ok_or (disk !! path s n) (BlockFileUnavailable n 0).

(** The [while] of [used_size]; every round moves the offset by nine or more. *)
Fixpoint used_loop (fuel : nat) (f : File) (magic : Magic) (offset : Z) : option Z :=
  match fuel with
  | O => None
  | S fuel =>
    if offset + 8 <=? f_len f then
      match read_at f offset 8 with
      | None => Some offset
      | Some header =>
        if negb (bool_decide (take 4 header = serialize encode_Magic magic)) then Some offset else
        let size := of_le (slice header 4 8) in
        if (size =? 0) || (f_len f <? offset + 8 + size) then Some offset
        else used_loop fuel f magic (offset + 8 + size)
      end
    else Some offset
  end.
Definition used_fuel (f : File) : nat := S (Z.to_nat (f_len f / 9)).
Definition used_size (s : FlatFileSeq) (disk : Disk) (n : Z) (magic : Magic) : Z :=
  match disk !! path s n with
  | None => 0
  | Some f => default 0 (used_loop (used_fuel f) f magic 0)
  end.

Definition finalize (s : FlatFileSeq) (disk : Disk) (n used_bytes : Z) : result Disk StoreError :=
  let? f := ok_or (disk !! path s n) Io in
  Ok (<[path s n := set_len f used_bytes]> disk).

(** ** [BlockFileManager] *)

Record BlockFileManager : Type := mkBlockFileManager {
  bf_blocks : FlatFileSeq;
  bf_undo : FlatFileSeq;
  bf_magic : Magic;
  current_file : Z;
  current_size : Z;
}.

Definition BlockFileManager_new (dir : bytes) (magic : Magic) (last_file : Z) (disk : Disk) : BlockFileManager :=
  let blocks := mkSeq (dir ++ string_bytes "/blocks") "blk" BLOCK_FILE_CHUNK in
  let undo := mkSeq (dir ++ string_bytes "/blocks") "rev" UNDO_FILE_CHUNK in
  mkBlockFileManager blocks undo magic last_file
    (match disk !! path blocks last_file with Some f => f_len f | None => 0 end).

(** [write_record]: the header, then the data. *)
Definition write_record (m : BlockFileManager) (f : File) (off : Z) (data : bytes) : File :=
  let header := finish_enc (encode_u32 (wrap_u 32 (Z.of_nat (length data))) (encode_Magic (bf_magic m) Encoder_new)) in
  write_at (write_at f off header) (off + Z.of_nat (length header)) data.

Definition rotate (m : BlockFileManager) (disk : Disk) (record_len : Z) : result (BlockFileManager * Disk) StoreError :=
  if (MAX_BLOCK_FILE_SIZE <? current_size m + record_len) && (0 <? current_size m) then
    let? disk := finalize (bf_blocks m) disk (current_file m) (current_size m) in
    Ok (mkBlockFileManager (bf_blocks m) (bf_undo m) (bf_magic m) (wrap_u 32 (current_file m + 1)) 0, disk)
  else Ok (m, disk).

Definition write_block (m : BlockFileManager) (disk : Disk) (raw_block : bytes)
    : result FlatFilePos StoreError * BlockFileManager * Disk :=
  let record_len := 8 + Z.of_nat (length raw_block) in
  match rotate m disk record_len with
  | Err e => (Err e, m, disk)
  | Ok (m, disk) =>
    let write_at := current_size m in
    let file := open_for_write (bf_blocks m) disk (current_file m) (write_at + record_len) in
    let disk := <[path (bf_blocks m) (current_file m) := write_record m file write_at raw_block]> disk in
    (Ok (mkFlatFilePos (current_file m) (wrap_u 32 (write_at + 8))),
     mkBlockFileManager (bf_blocks m) (bf_undo m) (bf_magic m) (current_file m) (current_size m + record_len), disk)
  end.

Definition write_undo (m : BlockFileManager) (disk : Disk) (blk_file : Z) (undo_data : bytes) (current_undo_size : Z)
    : FlatFilePos * Z * Disk :=
  let write_at := current_undo_size in
  let record_len := 8 + Z.of_nat (length undo_data) in
  let file := open_for_write (bf_undo m) disk blk_file (write_at + record_len) in
  let disk := <[path (bf_undo m) blk_file := write_record m file write_at undo_data]> disk in
  (mkFlatFilePos blk_file (wrap_u 32 (write_at + 8)), current_undo_size + 8 + Z.of_nat (length undo_data), disk).

Definition undo_used_size (m : BlockFileManager) (disk : Disk) (file : Z) : Z :=
  used_size (bf_undo m) disk file (bf_magic m).

Definition read_record (s : FlatFileSeq) (disk : Disk) (pos : FlatFilePos) : result bytes StoreError :=
  let? file := open_for_read s disk (ff_file pos) in
  let? size_at := ok_or (checked_sub_u (ff_offset pos) 4)
    (Decode ("FlatFilePos offset " +:+ pretty (ff_offset pos) +:+ " is too small to hold a size header")) in
  let? size_buf := ok_or (read_at file size_at 4) (BlockFileUnavailable (ff_file pos) (ff_offset pos)) in
  let? size := map_err WireDecode (decode_exact decode_u32 size_buf "record::size") in
  ok_or (read_at file (size_at + 4) (Z.to_nat size)) (BlockFileUnavailable (ff_file pos) (ff_offset pos)).

Definition read_block (m : BlockFileManager) (disk : Disk) (pos : FlatFilePos) : result bytes StoreError :=
  read_record (bf_blocks m) disk pos.
Definition read_undo (m : BlockFileManager) (disk : Disk) (pos : FlatFilePos) : result bytes StoreError :=
  read_record (bf_undo m) disk pos.

(** [BlockFileReader]: what readers share of the manager, without its position. *)
Record BlockFileReader : Type := mkReader { rd_blocks : FlatFileSeq; rd_undo : FlatFileSeq; rd_magic : Magic }.
Definition reader (m : BlockFileManager) : BlockFileReader := mkReader (bf_blocks m) (bf_undo m) (bf_magic m).
Definition reader_read_block (r : BlockFileReader) (disk : Disk) (pos : FlatFilePos) : result bytes StoreError := read_record (rd_blocks r) disk pos.
Definition reader_read_undo (r : BlockFileReader) (disk : Disk) (pos : FlatFilePos) : result bytes StoreError := read_record (rd_undo r) disk pos.

(** [flush] syncs the current file, which must exist once it has bytes. *)
Definition bf_flush (m : BlockFileManager) (disk : Disk) : result unit StoreError :=
  if current_size m =? 0 then Ok tt
  else let? _ := ok_or (disk !! path (bf_blocks m) (current_file m)) Io in Ok tt.

(** ** File contents *)

(** [bs] stands in the file at offset [off]. *)
Definition has (f : File) (off : Z) (bs : bytes) : Prop :=
  0 <= off /\ off + Z.of_nat (length bs) <= f_len f /\
  forall i b, bs !! i = Some b -> byte_at f (off + Z.of_nat i) = b.

Lemma has_app f off a b : has f off (a ++ b) <-> has f off a /\ has f (off + Z.of_nat (length a)) b.
Proof.
  unfold has. rewrite length_app. split.
  - intros (H0 & H1 & H2). split_and!; try lia; intros i x Hi.
    + apply H2. by apply lookup_app_l_Some.
    + replace (off + Z.of_nat (length a) + Z.of_nat i) with (off + Z.of_nat (length a + i)) by lia.
      apply H2. rewrite lookup_app_r by lia. by replace (length a + i - length a)%nat with i by lia.
  - intros [(H0 & H1 & H2) (_ & H3 & H4)]. split_and!; try lia. intros i x Hi.
    apply lookup_app_Some in Hi as [Hi|[Hl Hi]]; [by apply H2|]. apply H4 in Hi.
    by replace (off + Z.of_nat (length a) + Z.of_nat (i - length a)) with (off + Z.of_nat i) in Hi by lia.
Qed.

Lemma read_at_has f off bs : has f off bs -> read_at f off (length bs) = Some bs.
Proof.
  intros (H0 & H1 & H2). unfold read_at.
  replace (_ || _) with true by (symmetry; apply orb_true_iff; right; by apply Z.leb_le). f_equal.
  apply list_eq. intros i. rewrite list_lookup_fmap.
  destruct (bs !! i) as [b|] eqn:E.
  - rewrite lookup_seq_lt by (by eapply lookup_lt_Some). simpl. f_equal. by apply H2.
  - rewrite lookup_seq_ge; [done|]. by apply lookup_ge_None.
Qed.

Lemma read_at_inv f off n bs : 0 <= off -> read_at f off n = Some bs -> off + Z.of_nat n <= f_len f -> has f off bs /\ length bs = n.
Proof.
  unfold read_at. intros Ho. destruct (_ || _) eqn:E; [|done]. intros [= <-] Hl. rewrite length_map, length_seq.
  split; [|done]. unfold has. rewrite length_map, length_seq. split_and!; [done..|]. intros i b Hi. rewrite list_lookup_fmap in Hi.
  apply fmap_Some in Hi as (j & Hj & ->). by apply lookup_seq in Hj as [-> _].
Qed.

Lemma put_bytes_lookup off data m i :
  put_bytes off data m !! i =
  if decide (off <= i < off + Z.of_nat (length data)) then data !! Z.to_nat (i - off) else m !! i.
Proof.
  revert off. induction data as [|b data IH]; intros off; cbn [put_bytes length].
  - rewrite decide_False by lia. done.
  - destruct (decide (off = i)) as [->|Hne].
    + rewrite lookup_insert_eq, decide_True by lia. by rewrite Z.sub_diag.
    + rewrite lookup_insert_ne, IH by done. repeat case_decide; try lia; [|done].
      by replace (Z.to_nat (i - off)) with (S (Z.to_nat (i - (off + 1)))) by lia.
Qed.

Lemma f_len_write_at f off bs : off + Z.of_nat (length bs) <= f_len f -> f_len (write_at f off bs) = f_len f.
Proof. intros. destruct bs; simpl in *; lia. Qed.

Lemma byte_at_write f off bs i :
  byte_at (write_at f off bs) i =
  if decide (off <= i < off + Z.of_nat (length bs)) then default 0 (bs !! Z.to_nat (i - off)) else byte_at f i.
Proof.
  unfold byte_at. destruct bs as [|b bs].
  - rewrite decide_False by (simpl; lia). done.
  - unfold write_at. cbn [f_bytes]. rewrite put_bytes_lookup. by case_decide.
Qed.

Lemma write_at_has f off bs : 0 <= off -> off + Z.of_nat (length bs) <= f_len f -> has (write_at f off bs) off bs.
Proof.
  intros H0 H1. unfold has. rewrite f_len_write_at by done. split_and!; [done..|]. intros i b Hi.
  rewrite byte_at_write. rewrite decide_True by (apply lookup_lt_Some in Hi; lia).
  by replace (Z.to_nat (off + Z.of_nat i - off)) with i by lia; rewrite Hi.
Qed.

Lemma write_at_keep f off bs off' bs' : has f off bs ->
  off + Z.of_nat (length bs) <= off' \/ off' + Z.of_nat (length bs') <= off -> has (write_at f off' bs') off bs.
Proof.
  intros (H0 & H1 & H2) Hd. split_and!; [done|destruct bs'; simpl; lia|]. intros i b Hi. rewrite byte_at_write.
  pose proof (lookup_lt_Some _ _ _ Hi). rewrite decide_False by lia. by apply H2.
Qed.

Lemma preallocate_keep s f n off bs : 0 < chunk_size s -> 0 <= f_len f -> has f off bs -> has (preallocate s f n) off bs.
Proof.
  intros Hc Hl Hh. unfold preallocate. destruct (Z.leb_spec (f_len f) n); [|done].
  apply write_at_keep; [done|]. left. destruct Hh as (? & ? & ?).
  pose proof (Z.mul_succ_div_gt n (chunk_size s) Hc). nia.
Qed.
Lemma preallocate_len s f n : 0 < chunk_size s -> 0 <= n -> n < f_len (preallocate s f n) /\ f_len f <= f_len (preallocate s f n).
Proof.
  intros Hc Hn. unfold preallocate. destruct (Z.leb_spec (f_len f) n); [|lia].
  pose proof (Z.mul_succ_div_gt n (chunk_size s) Hc). unfold write_at. cbn [f_len length]. nia.
Qed.
(** What preallocation adds reads as zero. *)
Lemma preallocate_byte s f n i : byte_at (preallocate s f n) i = byte_at f i \/ byte_at (preallocate s f n) i = 0.
Proof.
  unfold preallocate. destruct (_ <=? _); [|by left]. rewrite byte_at_write. case_decide; [|by left].
  right. simpl in *. by replace (Z.to_nat _) with 0%nat by lia.
Qed.

Lemma set_len_keep f n off bs : has f off bs -> off + Z.of_nat (length bs) <= n -> has (set_len f n) off bs.
Proof.
  intros (H0 & H1 & H2) Hn. split_and!; [done|simpl; lia|]. intros i b Hi. pose proof (lookup_lt_Some _ _ _ Hi).
  unfold byte_at, set_len. cbn [f_bytes].
  replace (filter (fun kv : Z * Z => kv.1 < n) (f_bytes f) !! (off + Z.of_nat i)) with (f_bytes f !! (off + Z.of_nat i)); [by apply H2|].
  destruct (f_bytes f !! _) as [x|] eqn:E; symmetry.
  - apply map_lookup_filter_Some. simpl. split; [done|lia].
  - apply map_lookup_filter_None. by left.
Qed.

(** ** Records *)

Definition magic_ok (m : Magic) : Prop := array_ok 4 (magic_bytes m).
Definition record_bytes (m : Magic) (data : bytes) : bytes :=
  magic_bytes m ++ le_bytes 4 (Z.of_nat (length data)) ++ data.

Lemma record_header m (data : bytes) : Z.of_nat (length data) < 2 ^ 32 ->
  finish_enc (encode_u32 (wrap_u 32 (Z.of_nat (length data))) (encode_Magic m Encoder_new)) =
  magic_bytes m ++ le_bytes 4 (Z.of_nat (length data)).
Proof. intros. by rewrite wrap_u_small by lia. Qed.

Lemma length_record_bytes m (data : bytes) : magic_ok m -> length (record_bytes m data) = (8 + length data)%nat.
Proof. intros [Hm _]. unfold record_bytes. rewrite !length_app, length_le_bytes, Hm. lia. Qed.

(** The record at [pos] is intact. *)
Definition stored (g : Magic) (s : FlatFileSeq) (disk : Disk) (pos : FlatFilePos) (data : bytes) : Prop :=
  exists f, disk !! path s (ff_file pos) = Some f /\ 0 <= f_len f /\ has f (ff_offset pos - 8) (record_bytes g data).

Section Records.
Context (m : BlockFileManager) (Hm : magic_ok (bf_magic m)).

Lemma write_record_has f off data : 0 <= off -> Z.of_nat (length data) < 2 ^ 32 ->
  off + 8 + Z.of_nat (length data) <= f_len f ->
  has (write_record m f off data) off (record_bytes (bf_magic m) data).
Proof.
  intros H0 Hd Hf. unfold write_record, record_bytes. rewrite record_header by done. rewrite app_assoc.
  set (hd := magic_bytes _ ++ _). assert (length hd = 8%nat) as Hh
    by (unfold hd; rewrite length_app, length_le_bytes; destruct Hm as [-> _]; done).
  assert (f_len (write_at f off hd) = f_len f) as L by (apply f_len_write_at; lia).
  apply has_app. rewrite Hh. split.
  - apply write_at_keep; [apply write_at_has|]; lia.
  - apply write_at_has; rewrite ?L; lia.
Qed.

Lemma write_record_len f off data : 0 <= off -> Z.of_nat (length data) < 2 ^ 32 -> off + 8 + Z.of_nat (length data) <= f_len f ->
  f_len (write_record m f off data) = f_len f.
Proof.
  intros. unfold write_record. rewrite record_header by done.
  assert (length (magic_bytes (bf_magic m) ++ le_bytes 4 (Z.of_nat (length data))) = 8%nat) as Hh
    by (rewrite length_app, length_le_bytes; destruct Hm as [-> _]; done).
  rewrite Hh. rewrite !f_len_write_at; try lia. rewrite f_len_write_at; lia.
Qed.

Lemma write_record_keep f off data off' bs : has f off' bs -> Z.of_nat (length data) < 2 ^ 32 ->
  off' + Z.of_nat (length bs) <= off -> has (write_record m f off data) off' bs.
Proof.
  intros Hh Hd Hd'. unfold write_record. apply write_at_keep; [apply write_at_keep; [done|]|]; left; lia.
Qed.

(** Bytes after the record are untouched. *)
Lemma write_record_byte f off data i : Z.of_nat (length data) < 2 ^ 32 -> off + 8 + Z.of_nat (length data) <= i ->
  byte_at (write_record m f off data) i = byte_at f i.
Proof.
  intros Hd Hi. unfold write_record. rewrite record_header by done.
  assert (length (magic_bytes (bf_magic m) ++ le_bytes 4 (Z.of_nat (length data))) = 8%nat) as Hh
    by (rewrite length_app, length_le_bytes; destruct Hm as [-> _]; done).
  rewrite !byte_at_write, Hh. rewrite !decide_False by lia. done.
Qed.

Lemma read_record_stored s disk pos data : Z.of_nat (length data) < 2 ^ 32 -> stored (bf_magic m) s disk pos data ->
  read_record s disk pos = Ok data.
Proof.
  intros Hd (f & Hf & _ & Hh). unfold read_record, open_for_read. rewrite Hf. simpl rbind.
  unfold record_bytes in Hh. apply has_app in Hh as [[H0 _] Hh]. destruct Hm as [Hl _]. rewrite Hl in Hh.
  apply has_app in Hh as [Hs Hdat]. rewrite length_le_bytes in Hdat.
  unfold checked_sub_u. replace (4 <=? ff_offset pos) with true by (symmetry; apply Z.leb_le; lia). simpl rbind.
  replace (ff_offset pos - 8 + Z.of_nat 4) with (ff_offset pos - 4) in Hs by lia.
  pose proof (read_at_has _ _ _ Hs) as R. rewrite length_le_bytes in R. rewrite R. simpl rbind.
  rewrite <- serialize_u32, (decode_exact_serialize encode_u32 decode_u32 u32_ok) by (unfold u32_ok; lia). simpl rbind.
  rewrite Nat2Z.id. replace (ff_offset pos - 4 + 4) with (ff_offset pos - 8 + Z.of_nat 4 + Z.of_nat 4) by lia.
  by rewrite (read_at_has _ _ _ Hdat).
Qed.
End Records.

(** ** Paths are distinct *)

Definition dec_val (l : bytes) : Z := fold_left (fun v d => 10 * v + (d - 48)) l 0.

Lemma dec_val_digits k n : 0 <= n -> dec_val (dec_digits k n) = n mod 10 ^ Z.of_nat k.
Proof.
  revert n. induction k as [|k IH]; intros n Hn; [by rewrite Z.mod_1_r|].
  unfold dec_val in *. cbn [dec_digits]. rewrite fold_left_app. cbn [fold_left].
  rewrite IH by (apply Z.div_pos; lia). rewrite Nat2Z.inj_succ, Z.pow_succ_r by lia.
  rewrite (Z.mul_comm 10), Z.mul_comm, (Z.rem_mul_r n 10) by lia. lia.
Qed.

Lemma digit_count_bound fuel n : 0 <= n < 10 ^ Z.of_nat (S fuel) -> n < 10 ^ Z.of_nat (digit_count fuel n).
Proof.
  revert n. induction fuel as [|fuel IH]; intros n Hn; [cbn in *; lia|]. cbn [digit_count].
  destruct (Z.ltb_spec n 10); [change (10 ^ Z.of_nat 1) with 10; lia|].
  rewrite (Nat2Z.inj_succ (S fuel)), Z.pow_succ_r in Hn by lia. rewrite (Nat2Z.inj_succ (digit_count _ _)), Z.pow_succ_r by lia.
  assert (0 <= n / 10 < 10 ^ Z.of_nat (S fuel)) as Hd by (split; [apply Z.div_pos; lia | apply Z.div_lt_upper_bound; lia]).
  specialize (IH (n / 10) Hd). pose proof (Z.mod_pos_bound n 10). pose proof (Z.div_mod n 10). lia.
Qed.

Lemma fmt05_val n : u32_ok n -> dec_val (fmt05 n) = n.
Proof.
  intros Hn. unfold fmt05. rewrite dec_val_digits by apply Hn. apply Z.mod_small. split; [apply Hn|].
  eapply Z.lt_le_trans; [apply (digit_count_bound 10); unfold u32_ok in Hn; lia|].
  apply Z.pow_le_mono_r; lia.
Qed.

Lemma path_inj s n k : u32_ok n -> u32_ok k -> path s n = path s k -> n = k.
Proof.
  unfold path. intros Hn Hk H. do 3 apply app_inv_head in H. apply app_inv_tail in H.
  by rewrite <- (fmt05_val n Hn), <- (fmt05_val k Hk), H.
Qed.

(** The layout every manager has: one directory, the two prefixes. *)
Definition layout_ok (m : BlockFileManager) : Prop :=
  magic_ok (bf_magic m) /\
  seq_prefix (bf_blocks m) = "blk"%string /\ seq_prefix (bf_undo m) = "rev"%string /\
  seq_dir (bf_blocks m) = seq_dir (bf_undo m) /\
  0 < chunk_size (bf_blocks m) /\ 0 < chunk_size (bf_undo m).

Lemma path_blk_rev m n k : layout_ok m -> path (bf_blocks m) n <> path (bf_undo m) k.
Proof.
  intros (_ & Hb & Hr & Hd & _). unfold path. rewrite Hb, Hr, Hd. intros H.
  apply app_inv_head in H. simpl in H. discriminate H.
Qed.

(** ** The block log *)

Definition disk_ok (disk : Disk) : Prop := map_Forall (fun _ f => 0 <= f_len f) disk.

(** Every position handed out so far holds its block, no later than the write
    cursor; the current file exists once it has bytes. *)
Record log_inv (m : BlockFileManager) (disk : Disk) (log : list (FlatFilePos * bytes)) : Prop := {
  log_layout : layout_ok m;
  log_disk : disk_ok disk;
  log_cursor : 0 <= current_size m /\ u32_ok (current_file m);
  log_exists : 0 < current_size m -> is_Some (disk !! path (bf_blocks m) (current_file m));
  log_stored : Forall (fun p => stored (bf_magic m) (bf_blocks m) disk p.1 p.2 /\ 0 <= ff_file p.1 <= current_file m /\
    (ff_file p.1 = current_file m -> ff_offset p.1 + Z.of_nat (length p.2) <= current_size m)) log;
}.

(** Appending a record to an existing or new file of a sequence. *)
Lemma append_keep m s disk n size data pos d :
  layout_ok m -> disk_ok disk -> 0 < chunk_size s -> 0 <= size -> Z.of_nat (length data) < 2 ^ 32 ->
  u32_ok n -> u32_ok (ff_file pos) ->
  stored (bf_magic m) s disk pos d -> (ff_file pos = n -> ff_offset pos + Z.of_nat (length d) <= size) ->
  stored (bf_magic m) s (<[path s n := write_record m (open_for_write s disk n (size + (8 + Z.of_nat (length data)))) size data]> disk) pos d.
Proof.
  intros (Hm & _) Hdk Hc Hs Hd Hn Hp (f & Hf & Hl & Hh) Hpos. destruct (decide (ff_file pos = n)) as [<-|Hne].
  - eexists. rewrite lookup_insert_eq. split; [done|]. unfold open_for_write. rewrite Hf. simpl default.
    pose proof (preallocate_len s f (size + (8 + Z.of_nat (length data))) Hc ltac:(lia)) as [L1 L2].
    split; [rewrite write_record_len; lia || done|].
    apply write_record_keep; [apply preallocate_keep; done|done|]. rewrite length_record_bytes by done.
    specialize (Hpos eq_refl). lia.
  - exists f. rewrite lookup_insert_ne; [done|]. intros E. apply path_inj in E; [done..].
Qed.

Lemma append_stored m s disk n size data :
  layout_ok m -> 0 < chunk_size s -> 0 <= size -> Z.of_nat (length data) < 2 ^ 32 ->
  stored (bf_magic m) s (<[path s n := write_record m (open_for_write s disk n (size + (8 + Z.of_nat (length data)))) size data]> disk)
    (mkFlatFilePos n (size + 8)) data.
Proof.
  intros (Hm & _) Hc Hs Hd. eexists. cbn [ff_file ff_offset]. rewrite lookup_insert_eq. split; [done|].
  unfold open_for_write. set (f0 := default _ _).
  pose proof (preallocate_len s f0 (size + (8 + Z.of_nat (length data))) Hc ltac:(lia)) as [L1 L2].
  split; [rewrite write_record_len; lia || done|]. replace (size + 8 - 8) with size by lia. apply write_record_has; done || lia.
Qed.

Lemma append_disk_ok m s disk n size data : layout_ok m -> disk_ok disk -> 0 < chunk_size s -> 0 <= size ->
  Z.of_nat (length data) < 2 ^ 32 ->
  disk_ok (<[path s n := write_record m (open_for_write s disk n (size + (8 + Z.of_nat (length data)))) size data]> disk).
Proof.
  intros (Hm & _) Hdk Hc Hs Hd. apply map_Forall_insert_2; [|done]. unfold open_for_write. set (f0 := default _ _).
  pose proof (preallocate_len s f0 (size + (8 + Z.of_nat (length data))) Hc ltac:(lia)) as [L1 L2].
  rewrite write_record_len; lia || done.
Qed.

Lemma rotate_inv m disk log n : log_inv m disk log -> current_file m + 1 < 2 ^ 32 ->
  exists m' disk', rotate m disk n = Ok (m', disk') /\ log_inv m' disk' log /\
    (current_size m' = 0 \/ current_size m' + n <= MAX_BLOCK_FILE_SIZE) /\
    current_file m <= current_file m' <= current_file m + 1 /\
    bf_blocks m' = bf_blocks m /\ bf_undo m' = bf_undo m /\ bf_magic m' = bf_magic m.
Proof.
  intros [Hl Hd [Hc Hf] He Hst] Hlt. unfold rotate.
  destruct (Z.ltb_spec MAX_BLOCK_FILE_SIZE (current_size m + n)) as [Hmax|Hmax]; destruct (Z.ltb_spec 0 (current_size m)) as [Hpos|Hpos];
    cbn [andb]; try (eexists _, _; split; [done|]; split_and!; done || lia).
  destruct (He Hpos) as [f Hdf]. unfold finalize. rewrite Hdf. simpl rbind. eexists _, _. split; [done|].
  cbn [current_size current_file bf_blocks bf_undo bf_magic]. rewrite wrap_u_small by (unfold u32_ok in Hf; lia).
  split_and!; try done; try lia. split; cbn [current_size current_file bf_blocks bf_undo bf_magic]; try done.
  - apply map_Forall_insert_2; [simpl; lia|done].
  - unfold u32_ok in *. lia.
  - eapply Forall_impl; [exact Hst|]. intros [pos d] ((g & Hg & Hlen & Hh) & Hfile & Hoff). simpl in *.
    destruct Hl as (Hm & _). assert (0 <= ff_file pos <= current_file m + 1 /\ (ff_file pos = current_file m + 1 -> ff_offset pos + Z.of_nat (length d) <= 0)) as Hb by lia.
    split; [|lia]. unfold stored. cbn [bf_magic]. destruct (decide (ff_file pos = current_file m)) as [E|Hne].
    + rewrite E in *. simplify_eq. eexists. rewrite lookup_insert_eq. split; [done|]. split; [simpl; lia|].
      apply set_len_keep; [done|]. rewrite length_record_bytes by done. specialize (Hoff eq_refl). lia.
    + exists g. rewrite lookup_insert_ne; [done|]. intros E. apply path_inj in E; [congruence|done|unfold u32_ok in *; lia].
Qed.

Lemma write_block_log m disk log raw : log_inv m disk log -> current_file m + 1 < 2 ^ 32 -> Z.of_nat (length raw) < 2 ^ 32 ->
  exists pos m' disk', write_block m disk raw = (Ok pos, m', disk') /\ log_inv m' disk' ((pos, raw) :: log) /\ flatpos_ok pos /\
    current_file m <= current_file m' <= current_file m + 1 /\
    bf_blocks m' = bf_blocks m /\ bf_undo m' = bf_undo m /\ bf_magic m' = bf_magic m.
Proof.
  intros Hi Hlt Hraw. unfold write_block. set (n := 8 + Z.of_nat (length raw)).
  destruct (rotate_inv m disk log n Hi Hlt) as (m1 & d1 & -> & [Hl Hd [Hc Hf] He Hst] & Hfit & Hfile & Hb & Hu & Hg).
  assert (0 < chunk_size (bf_blocks m1)) as Hck by apply Hl.
  eexists _, _, _. split; [done|]. cbn [current_file bf_blocks bf_undo bf_magic]. assert (u32_ok (current_size m1 + 8)) as H32 by (unfold u32_ok, MAX_BLOCK_FILE_SIZE, n in *; lia).
  rewrite (wrap_u_small 32) by exact H32. split; [|by split_and!; try done; try lia].
  split; cbn [current_size current_file bf_blocks bf_undo bf_magic]; try done.
  - by apply append_disk_ok.
  - split; [unfold n; lia|done].
  - intros _. rewrite lookup_insert_eq. eauto.
  - constructor.
    + cbn [fst snd]. split; [by apply append_stored|]. cbn. unfold u32_ok, n in *. lia.
    + eapply Forall_impl; [exact Hst|]. intros [pos d] (Hs & Hfp & Hoff). simpl in *. split_and!; try lia.
      apply append_keep; try done. unfold u32_ok in *. lia.
Qed.

(** Only block files change. *)
Lemma write_block_frame m disk raw r m' disk' k : write_block m disk raw = (r, m', disk') ->
  (forall n, k <> path (bf_blocks m) n) -> disk' !! k = disk !! k.
Proof.
  unfold write_block, rotate, finalize. intros H Hk. destruct (_ && _).
  - destruct (disk !! path _ _) as [f|] eqn:E; simpl in H; [|by injection H as _ _ <-].
    injection H as _ _ <-. by rewrite !lookup_insert_ne by (intros F; by apply (Hk _ (eq_sym F))).
  - injection H as _ _ <-. by rewrite lookup_insert_ne by (intros F; by apply (Hk _ (eq_sym F))).
Qed.

(** The log survives a change of the disk outside the block files. *)
Lemma log_inv_frame m disk disk' log : log_inv m disk log -> disk_ok disk' ->
  (forall n, disk' !! path (bf_blocks m) n = disk !! path (bf_blocks m) n) -> log_inv m disk' log.
Proof.
  intros [Hl Hd Hc He Hst] Hd' Hk. split; try done; [by rewrite Hk|].
  eapply Forall_impl; [exact Hst|]. intros p ((f & Hf & Hrest) & Hp). split; [|done]. exists f. by rewrite Hk.
Qed.

Lemma read_block_logged m disk log pos raw : log_inv m disk log -> (pos, raw) ∈ log -> Z.of_nat (length raw) < 2 ^ 32 ->
  read_record (bf_blocks m) disk pos = Ok raw.
Proof.
  intros [Hl _ _ _ Hst] Hp Hr. rewrite Forall_forall in Hst. destruct (Hst _ Hp) as [Hs _].
  apply (read_record_stored m); [apply Hl|done..].
Qed.

(** A restart after the file number has been committed, as every batch of blocks
    commits it with the positions of its blocks: it resumes at the end of the current
    file, which is no earlier than the cursor.  After a crash between a rotation and
    that commit the store opens at the file number before ([Store_new] reads what is
    persisted, whatever it is); the positions in the later file were then returned by
    appends whose batch was never committed, and are not covered here. *)
Definition restart (dir : bytes) (m : BlockFileManager) (disk : Disk) : BlockFileManager :=
  BlockFileManager_new dir (bf_magic m) (current_file m) disk.

Inductive FileOp : Type := Append (raw : bytes) | Restart.

(** Appends of raw blocks with restarts in between; the results of the appends. *)
Fixpoint run_file_ops (dir : bytes) (m : BlockFileManager) (disk : Disk) (ops : list FileOp)
    : list (result FlatFilePos StoreError) * BlockFileManager * Disk :=
  match ops with
  | [] => ([], m, disk)
  | Append raw :: ops =>
    let '(r, m, disk) := write_block m disk raw in
    let '(rs, m, disk) := run_file_ops dir m disk ops in (r :: rs, m, disk)
  | Restart :: ops => run_file_ops dir (restart dir m disk) disk ops
  end.
Definition appended (ops : list FileOp) : list bytes :=
  omap (fun op => match op with Append raw => Some raw | Restart => None end) ops.

Definition in_dir (dir : bytes) (m : BlockFileManager) : Prop :=
  bf_blocks m = mkSeq (dir ++ string_bytes "/blocks") "blk" BLOCK_FILE_CHUNK /\
  bf_undo m = mkSeq (dir ++ string_bytes "/blocks") "rev" UNDO_FILE_CHUNK.

Lemma has_len_bound f off bs : has f off bs -> off + Z.of_nat (length bs) <= f_len f.
Proof. by intros (_ & H & _). Qed.

Lemma restart_inv dir m disk log : log_inv m disk log -> in_dir dir m -> log_inv (restart dir m disk) disk log.
Proof.
  intros [Hl Hd [Hc Hf] He Hst] [Hb Hu]. unfold restart, BlockFileManager_new. rewrite <- Hb, <- Hu.
  split; cbn [current_size current_file bf_blocks bf_undo bf_magic]; try done.
  - split; [|done]. destruct (disk !! _) as [f|] eqn:E; [|done]. exact (Hd _ _ E).
  - destruct (disk !! _) as [f|]; [eauto|lia].
  - eapply Forall_impl; [exact Hst|]. intros [pos d] (Hs & Hfp & Hoff). simpl in *. split_and!; try done; try lia.
    intros E. destruct Hs as (f & Hf' & _ & Hh). rewrite <- E, Hf'. destruct Hl as (Hm & _).
    apply has_len_bound in Hh. rewrite length_record_bytes in Hh by done. lia.
Qed.

Lemma run_file_ops_log dir ops m disk log : log_inv m disk log -> in_dir dir m ->
  current_file m + Z.of_nat (length ops) < 2 ^ 32 -> Forall (fun raw => Z.of_nat (length raw) < 2 ^ 32) (appended ops) ->
  exists ps m' disk', run_file_ops dir m disk ops = (map Ok ps, m', disk') /\ length ps = length (appended ops) /\
    log_inv m' disk' (rev (zip ps (appended ops)) ++ log).
Proof.
  revert m disk log. induction ops as [|[raw|] ops IH]; intros m disk log Hi Hdir Hlt Hraw.
  - by exists [], m, disk.
  - change (appended (Append raw :: ops)) with (raw :: appended ops) in *. apply Forall_cons in Hraw as [Hr Hraw].
    cbn [length] in Hlt. destruct (write_block_log m disk log raw Hi) as (pos & m1 & d1 & E & Hi1 & _ & Hf1 & Hb & Hu & Hg); [lia|done|].
    cbn [run_file_ops]. rewrite E.
    destruct (IH m1 d1 _ Hi1) as (ps & m2 & d2 & E2 & Hlen & Hi2); [by unfold in_dir in *; rewrite Hb, Hu|lia|done|].
    rewrite E2. exists (pos :: ps), m2, d2. split_and!; [done|by simpl; rewrite Hlen|]. cbn [zip_with rev].
    by rewrite <- app_assoc.
  - change (appended (Restart :: ops)) with (appended ops) in *. cbn [run_file_ops length] in *. apply IH; try done.
    + by apply restart_inv.
    + cbn. lia.
Qed.

Lemma new_inv dir magic : magic_ok magic -> log_inv (BlockFileManager_new dir magic 0 ∅) ∅ [].
Proof.
  intros Hm. unfold BlockFileManager_new. rewrite lookup_empty.
  by split; cbn; try done; unfold layout_ok, u32_ok; cbn; split_and!.
Qed.

(** C31: However many blocks are appended, with any rotations to new files and
    any restarts in between (each after the number of the current file was committed),
    every append succeeds and every position returned still reads back its own block
    at the end. *)
Theorem block_log_durable (dir : bytes) (magic : Magic) (ops : list FileOp) :
  magic_ok magic -> Z.of_nat (length ops) < 2 ^ 32 -> Forall (fun raw => Z.of_nat (length raw) < 2 ^ 32) (appended ops) ->
  let '(rs, m, disk) := run_file_ops dir (BlockFileManager_new dir magic 0 ∅) ∅ ops in
  Forall2 (fun raw r => exists pos, r = Ok pos /\ read_block m disk pos = Ok raw) (appended ops) rs.
Proof.
  intros Hm Hlt Hraw.
  destruct (run_file_ops_log dir ops _ _ [] (new_inv dir magic Hm)) as (ps & m & disk & E & Hlen & [Hl Hd _ _ Hst]); [done|cbn; lia|done|].
  rewrite E. rewrite app_nil_r in Hst. apply Forall_rev in Hst. rewrite rev_involutive in Hst.
  apply Forall2_fmap_r. apply Forall2_same_length_lookup. split; [done|]. intros i raw pos H1 H2. exists pos. split; [done|].
  eapply Forall_lookup_1 in Hst as [Hs _]; [|apply lookup_zip_with_Some; by exists pos, raw].
  apply (read_record_stored m); [apply Hl| |done]. by eapply Forall_lookup_1 in Hraw.
Qed.

(** ** The undo log and its scan *)

Definition file_bytes_ok (f : File) : Prop := map_Forall (fun _ b => u8_ok b) (f_bytes f).

Lemma read_at_ok f off n bs : file_bytes_ok f -> read_at f off n = Some bs -> array_ok n bs.
Proof.
  intros Hf. unfold read_at. destruct (_ || _); [|done]. intros [= <-]. split; [by rewrite length_map, length_seq|].
  apply Forall_forall. intros b [i [-> _]]%list_elem_of_fmap. unfold byte_at.
  destruct (f_bytes f !! _) as [b|] eqn:E; [exact (Hf _ _ E)|]. unfold u8_ok. simpl. lia.
Qed.

(** The fuel is enough: the scan always ends. *)
Lemma used_loop_total fuel f magic off : file_bytes_ok f -> 0 <= off -> f_len f - off < 9 * Z.of_nat fuel ->
  (0 < fuel)%nat -> is_Some (used_loop fuel f magic off).
Proof.
  intros Hf. revert off. induction fuel as [|fuel IH]; intros off Ho Hfuel Hpos; [lia|]. cbn [used_loop].
  destruct (Z.leb_spec (off + 8) (f_len f)) as [Hle|]; [|eauto].
  destruct (read_at f off 8) as [hd|] eqn:E; [|eauto]. apply read_at_ok in E as [Hl Hb]; [|done].
  destruct (negb _); [eauto|]. destruct (_ || _) eqn:Es; [eauto|].
  apply orb_false_iff in Es as [Hs0%Z.eqb_neq Hs1%Z.ltb_ge].
  pose proof (of_le_bound _ (slice_ok hd 4 8 Hb)). apply IH; lia.
Qed.

Lemma used_size_total f magic : file_bytes_ok f -> 0 <= f_len f -> is_Some (used_loop (used_fuel f) f magic 0).
Proof.
  intros Hf Hl. apply used_loop_total; [done|lia| |unfold used_fuel; lia]. unfold used_fuel.
  pose proof (Z.mul_succ_div_gt (f_len f) 9). pose proof (Z.div_pos (f_len f) 9). lia.
Qed.

Definition records (g : Magic) (l : list bytes) : bytes := concat (map (record_bytes g) l).
Lemma records_cons g d l : records g (d :: l) = record_bytes g d ++ records g l. Proof. done. Qed.
Lemma records_snoc g l d : records g (l ++ [d]) = records g l ++ record_bytes g d.
Proof. unfold records. rewrite map_app, concat_app. simpl. by rewrite app_nil_r. Qed.

Definition record_ok (d : bytes) : Prop := (0 < length d)%nat /\ Z.of_nat (length d) < 2 ^ 32.

Lemma length_records g l : magic_ok g -> Forall record_ok l -> (9 * length l <= length (records g l))%nat.
Proof.
  intros Hg. induction 1 as [|d l [Hd _] _ IH]; [done|]. rewrite records_cons, length_app, length_record_bytes by done.
  simpl length. lia.
Qed.

Lemma used_loop_records g f l fuel off : magic_ok g -> magic_bytes g <> replicate 4 0 -> Forall record_ok l ->
  has f off (records g l) -> (forall i, off + Z.of_nat (length (records g l)) <= i -> byte_at f i = 0) ->
  (length l < fuel)%nat -> used_loop fuel f g off = Some (off + Z.of_nat (length (records g l))).
Proof.
  intros Hg Hz Hl. revert fuel off. induction Hl as [|d l [Hd Hd32] Hl IH]; intros fuel off Hh Hzero Hfuel;
    (destruct fuel as [|fuel]; [simpl in Hfuel; lia|]); cbn [used_loop].
  - cbn [records map concat length] in *. rewrite Z.add_0_r in *. destruct (Z.leb_spec (off + 8) (f_len f)) as [Hle|]; [|done].
    destruct (read_at f off 8) as [hd|] eqn:E; [|done].
    apply read_at_inv in E as [(_ & _ & H) Hlen]; [|apply Hh|done]. rewrite bool_decide_false; [done|].
    change (serialize encode_Magic g) with (magic_bytes g). intros Hmg. apply Hz. rewrite <- Hmg.
    apply list_eq. intros i. destruct (decide (i < 4)%nat) as [Hi|Hi].
    + rewrite lookup_take_lt, lookup_replicate_2 by lia. destruct (lookup_lt_is_Some_2 hd i) as [b Hb]; [lia|].
      rewrite Hb. apply H in Hb. rewrite Hzero in Hb by lia. by subst.
    + rewrite lookup_take_ge by lia. symmetry. apply lookup_ge_None. rewrite length_replicate. lia.
  - rewrite records_cons in *. apply has_app in Hh as [Hr Hh].
    assert (length (record_bytes g d) = (8 + length d)%nat) as Lr by (by apply length_record_bytes).
    pose proof (has_len_bound _ _ _ Hr) as Hb. pose proof (has_len_bound _ _ _ Hh) as Hb2. rewrite Lr in *.
    replace (off + 8 <=? f_len f) with true by (symmetry; apply Z.leb_le; lia).
    unfold record_bytes in Hr. rewrite app_assoc in Hr. apply has_app in Hr as [Hr _].
    set (hd := magic_bytes g ++ _) in Hr. assert (length hd = 8%nat) as Lh
      by (unfold hd; rewrite length_app, length_le_bytes; destruct Hg as [-> _]; done).
    pose proof (read_at_has _ _ _ Hr) as R. rewrite Lh in R. rewrite R.
    rewrite bool_decide_true by (unfold hd; apply take_app_eq; symmetry; apply Hg). cbn [negb].
    assert (of_le (slice hd 4 8) = Z.of_nat (length d)) as ->.
    { unfold slice, hd. rewrite drop_app_ge' by (symmetry; apply Hg).
      rewrite take_ge by (rewrite length_le_bytes; lia). apply le_bytes_small. lia. }
    replace (Z.of_nat (length d) =? 0) with false by (symmetry; apply Z.eqb_neq; lia). cbn [orb].
    replace (f_len f <? off + 8 + Z.of_nat (length d)) with false by (symmetry; apply Z.ltb_ge; lia).
    replace (off + 8 + Z.of_nat (length d)) with (off + Z.of_nat (8 + length d)) by lia.
    rewrite IH; [rewrite length_app, Lr; f_equal; lia|done| |simpl in Hfuel; lia].
    intros i Hi. apply Hzero. rewrite length_app, Lr. lia.
Qed.

(** The undo file [n] holds exactly the records [l], then zeros. *)
Definition undo_inv (m : BlockFileManager) (disk : Disk) (n : Z) (l : list bytes) : Prop :=
  Forall record_ok l /\
  match disk !! path (bf_undo m) n with
  | None => l = []
  | Some f => 0 <= f_len f /\ has f 0 (records (bf_magic m) l) /\
      forall i, Z.of_nat (length (records (bf_magic m) l)) <= i -> byte_at f i = 0
  end.
Abbreviation undo_len m l := (Z.of_nat (length (records (bf_magic m) l))).

Lemma undo_used_size_inv m disk n l : layout_ok m -> magic_bytes (bf_magic m) <> replicate 4 0 ->
  undo_inv m disk n l -> undo_used_size m disk n = undo_len m l.
Proof.
  intros (Hm & _) Hz [Hl Hf]. unfold undo_used_size, used_size. destruct (disk !! _) as [f|]; [|by subst].
  destruct Hf as (H0 & Hh & Hzero). rewrite (used_loop_records _ _ l); try done.
  unfold used_fuel. pose proof (length_records _ _ Hm Hl). pose proof (has_len_bound _ _ _ Hh).
  pose proof (Z.mul_succ_div_gt (f_len f) 9). pose proof (Z.div_pos (f_len f) 9). lia.
Qed.

Lemma write_undo_inv m disk n l data : layout_ok m -> record_ok data -> undo_inv m disk n l ->
  undo_inv m (<[path (bf_undo m) n := write_record m (open_for_write (bf_undo m) disk n (undo_len m l + (8 + Z.of_nat (length data))))
    (undo_len m l) data]> disk) n (l ++ [data]).
Proof.
  intros Hlay Hd [Hl Hf]. pose proof Hlay as (Hm & _ & _ & _ & _ & Hc). destruct Hd as [Hd0 Hd].
  split; [apply Forall_app; by repeat constructor|]. rewrite lookup_insert_eq.
  set (f0 := default empty_file (disk !! path (bf_undo m) n)).
  assert (0 <= f_len f0 /\ has f0 0 (records (bf_magic m) l) /\ forall i, undo_len m l <= i -> byte_at f0 i = 0) as (L0 & H0 & Z0).
  { unfold f0. destruct (disk !! _) as [f|]; [done|]. subst l. cbn. done. }
  unfold open_for_write. fold f0. set (need := undo_len m l + _).
  destruct (preallocate_len (bf_undo m) f0 need Hc) as [P1 P2]; [unfold need; lia|].
  split_and!.
  - rewrite write_record_len; unfold need in *; lia || done.
  - rewrite records_snoc. apply has_app. split.
    + apply write_record_keep; [by apply preallocate_keep|done|lia].
    + apply write_record_has; unfold need in *; lia || done.
  - intros i. rewrite records_snoc, length_app, length_record_bytes by done. intros Hi.
    rewrite write_record_byte by (done || lia). destruct (preallocate_byte (bf_undo m) f0 need i) as [-> | ->]; [apply Z0; lia|done].
Qed.

(** Successive records of one undo file, the size carried along. *)
Fixpoint write_undos (m : BlockFileManager) (disk : Disk) (n size : Z) (l : list bytes) : list FlatFilePos * Z * Disk :=
  match l with
  | [] => ([], size, disk)
  | d :: l =>
    let '(pos, size, disk) := write_undo m disk n d size in
    let '(ps, size, disk) := write_undos m disk n size l in (pos :: ps, size, disk)
  end.

Definition undo_log (m : BlockFileManager) (disk : Disk) (n : Z) (l : list bytes) (log : list (FlatFilePos * bytes)) : Prop :=
  layout_ok m /\ disk_ok disk /\ undo_inv m disk n l /\
  Forall (fun p => stored (bf_magic m) (bf_undo m) disk p.1 p.2 /\ ff_file p.1 = n /\
    ff_offset p.1 + Z.of_nat (length p.2) <= undo_len m l) log.

Lemma write_undo_log m disk n l log data : undo_log m disk n l log -> record_ok data -> u32_ok n ->
  undo_len m l + 8 < 2 ^ 32 ->
  exists disk', write_undo m disk n data (undo_len m l) = (mkFlatFilePos n (undo_len m l + 8), undo_len m (l ++ [data]), disk') /\
    undo_log m disk' n (l ++ [data]) ((mkFlatFilePos n (undo_len m l + 8), data) :: log) /\
    (forall k, k <> path (bf_undo m) n -> disk' !! k = disk !! k).
Proof.
  intros (Hlay & Hdk & Hi & Hlog) Hd Hn H32. pose proof Hlay as (Hm & _ & _ & _ & _ & Hc). destruct Hd as [Hd0 Hd].
  assert (undo_len m (l ++ [data]) = undo_len m l + 8 + Z.of_nat (length data)) as EL
    by (rewrite records_snoc, length_app, length_record_bytes by done; lia).
  unfold write_undo. rewrite wrap_u_small by lia. rewrite EL. eexists. split; [done|]. split.
  - split_and!; [done|apply append_disk_ok; done || lia|by apply write_undo_inv|].
    rewrite EL. constructor; [cbn; split_and!; [apply append_stored; done || lia|done|lia]|].
    eapply Forall_impl; [exact Hlog|]. intros [pos d] (Hs & <- & Ho). simpl in *. split_and!; [|done|lia].
    apply append_keep; try done; lia.
  - intros k Hk. by rewrite lookup_insert_ne.
Qed.

Lemma write_undos_log m n ls disk l log : undo_log m disk n l log -> Forall record_ok ls -> u32_ok n ->
  undo_len m (l ++ ls) < 2 ^ 32 ->
  exists ps disk', write_undos m disk n (undo_len m l) ls = (ps, undo_len m (l ++ ls), disk') /\ length ps = length ls /\
    undo_log m disk' n (l ++ ls) (rev (zip ps ls) ++ log) /\ (forall k, k <> path (bf_undo m) n -> disk' !! k = disk !! k).
Proof.
  revert disk l log. induction ls as [|d ls IH]; intros disk l log Hi Hls Hn H32.
  - rewrite app_nil_r in *. by exists [], disk.
  - apply Forall_cons in Hls as [Hd Hls]. cbn [write_undos].
    replace (l ++ d :: ls) with ((l ++ [d]) ++ ls) in * by (by rewrite <- app_assoc).
    pose proof Hi as ((Hm & _) & _).
    destruct (write_undo_log m disk n l log d Hi Hd Hn) as (d1 & E & Hi1 & Hk1).
    { unfold records in *. rewrite !map_app, !concat_app, !length_app in H32. simpl in H32. rewrite app_nil_r, length_record_bytes in H32 by done. lia. }
    rewrite E. destruct (IH d1 (l ++ [d]) _ Hi1 Hls Hn H32) as (ps & d2 & E2 & Hlen & Hi2 & Hk2). rewrite E2.
    eexists (_ :: ps), d2. split_and!; [done|by simpl; rewrite Hlen| |].
    + cbn [zip_with rev]. by rewrite <- (app_assoc (rev _)).
    + intros k Hk. by rewrite Hk2, Hk1.
Qed.

(** Undo records appended to a fresh file all read back, the scan of a
    restarted node finds exactly the end of the last record although the file is
    preallocated with zeros, and no block file is touched. *)
Lemma undo_scan_resumes (m : BlockFileManager) (disk : Disk) (n : Z) (l : list bytes) :
  layout_ok m -> magic_bytes (bf_magic m) <> replicate 4 0 -> disk_ok disk -> u32_ok n ->
  disk !! path (bf_undo m) n = None -> Forall record_ok l -> Z.of_nat (length (records (bf_magic m) l)) < 2 ^ 32 ->
  let '(ps, size, disk') := write_undos m disk n 0 l in
  size = Z.of_nat (length (records (bf_magic m) l)) /\ undo_used_size m disk' n = size /\
  Forall2 (fun d pos => read_undo m disk' pos = Ok d) l ps /\
  forall k pos, ff_file pos = k -> read_block m disk' pos = read_block m disk pos.
Proof.
  intros Hlay Hz Hdk Hn Hnone Hl H32.
  destruct (write_undos_log m n l disk [] []) as (ps & disk' & E & Hlen & (_ & _ & Hi & Hlog) & Hk); [|done..|].
  { split_and!; [done..| |constructor]. split; [constructor|]. by rewrite Hnone. }
  cbn [app] in *. change (undo_len m []) with 0 in E. rewrite E. split_and!; [done|by apply undo_used_size_inv| |].
  - rewrite app_nil_r in Hlog. apply Forall_rev in Hlog. rewrite rev_involutive in Hlog.
    apply Forall2_same_length_lookup. split; [done|]. intros i d pos H1 H2.
    eapply Forall_lookup_1 in Hlog as [Hs _]; [|apply lookup_zip_with_Some; by exists pos, d].
    apply (read_record_stored m); [apply Hlay| |done]. by eapply Forall_lookup_1 in Hl as [_ ?].
  - intros k pos <-. unfold read_block, read_record, open_for_read. rewrite Hk; [done|]. by apply path_blk_rev.
Qed.

(** ** [BlockFileInfo] *)

Definition file_info_ok (i : BlockFileInfo) : Prop :=
  u32_ok (fi_blocks i) /\ u64_ok (fi_size i) /\ u64_ok (undo_size i) /\ u32_ok (height_first i) /\ u32_ok (height_last i) /\
  u32_ok (time_first i) /\ u32_ok (time_last i).

Lemma serialize_BlockFileInfo i : serialize encode_BlockFileInfo i =
  serialize encode_u32 (fi_blocks i) ++ serialize encode_u64 (fi_size i) ++ serialize encode_u64 (undo_size i) ++
  serialize encode_u32 (height_first i) ++ serialize encode_u32 (height_last i) ++
  serialize encode_u32 (time_first i) ++ serialize encode_u32 (time_last i).
Proof. apply serialize_push. intros. unfold encode_BlockFileInfo. push_chain. by rewrite !app_assoc. Qed.

Lemma length_BlockFileInfo i : length (serialize encode_BlockFileInfo i) = 36%nat.
Proof. by rewrite serialize_BlockFileInfo, !length_app, !serialize_u32, !serialize_u64, !length_le_bytes. Qed.

Lemma BlockFileInfo_decodes i : file_info_ok i -> decodes decode_BlockFileInfo i (serialize encode_BlockFileInfo i).
Proof.
  intros (? & ? & ? & ? & ? & ? & ?). rewrite serialize_BlockFileInfo. destruct i. unfold decode_BlockFileInfo. simpl in *.
  solve_decodes.
Qed.

(** What a sequence of blocks leaves in the record of its file: the count, the
    values of the first block, and the maxima. *)
Lemma update_for_blocks (h t : Z) (l : list (Z * Z)) (i : BlockFileInfo) :
  fi_blocks i = 0 -> height_last i = 0 -> time_last i = 0 -> Z.of_nat (length l) + 1 < 2 ^ 32 -> 0 <= h -> 0 <= t ->
  let i' := fold_left (fun i p => update_for_block i p.1 p.2) l (update_for_block i h t) in
  fi_blocks i' = Z.of_nat (length l) + 1 /\ height_first i' = h /\ time_first i' = t /\
  height_last i' = foldr Z.max h (map fst l) /\ time_last i' = foldr Z.max t (map snd l).
Proof.
  intros Hb Hl Ht Hlen Hh Htt. induction l as [|[h' t'] l IH] using rev_ind.
  - cbn. rewrite Hb, Hl, Ht. cbn. rewrite !Z.max_r by done. done.
  - rewrite length_app, Nat2Z.inj_add in *. cbn [length] in *. cbv zeta in *. rewrite fold_left_app. cbn [fold_left fst snd].
    destruct IH as (E1 & E2 & E3 & E4 & E5); [lia|]. set (i1 := fold_left _ l _) in *. unfold update_for_block.
    cbn [fi_blocks height_first time_first height_last time_last]. rewrite E1, E2, E3, E4, E5.
    rewrite wrap_u_small by lia. replace (Z.of_nat (length l) + 1 =? 0) with false by (symmetry; apply Z.eqb_neq; lia).
    rewrite !map_app, !foldr_app. cbn. split_and!; try done; try lia.
    + clear. induction (map fst l) as [|x xs IH]; cbn; lia.
    + clear. induction (map snd l) as [|x xs IH]; cbn; lia.
Qed.

(** ** Witnesses *)

Lemma block_log_durable_witness :
  let '(rs, m, disk) := run_file_ops [] (BlockFileManager_new [] MAINNET 0 ∅) ∅ [Append [1; 2; 3]; Restart; Append [4; 5]] in
  Forall2 (fun raw r => exists pos, r = Ok pos /\ read_block m disk pos = Ok raw) [[1; 2; 3]; [4; 5]] rs.
Proof.
  apply (block_log_durable [] MAINNET [Append [1; 2; 3]; Restart; Append [4; 5]]).
  - split; [done|]. repeat constructor; done.
  - done.
  - repeat constructor; done.
Defined.

Lemma undo_scan_resumes_witness :
  let m := BlockFileManager_new [] SIGNET 0 ∅ in
  let '(ps, size, disk') := write_undos m ∅ 0 0 [[7]; [8; 9]] in
  size = 19 /\ undo_used_size m disk' 0 = size /\
  Forall2 (fun d pos => read_undo m disk' pos = Ok d) [[7]; [8; 9]] ps /\
  forall k pos, ff_file pos = k -> read_block m disk' pos = read_block m ∅ pos.
Proof.
  apply (undo_scan_resumes (BlockFileManager_new [] SIGNET 0 ∅) ∅ 0 [[7]; [8; 9]]).
  - split_and!; try done. split; [done|]. repeat constructor; done.
  - done.
  - apply map_Forall_empty.
  - done.
  - done.
  - repeat constructor; done.
  - done.
Defined.
