(* ===== verification/Store.v ===== *)
(** * The store (crates/storage: api, backend/in_memory.rs, block_manager.rs, store.rs)

    [StorageBackend] is the key-value interface of api/mod.rs, [InMemoryBackend]
    its in-memory implementation.  On top of it stand the key schema of
    api/tables.rs, the write worker [BlockManager], and the reads of [Store].

    The store and its worker share the backend and the disk, so the model keeps
    one copy of each in [Store]; a method of [Store] that sends a message and
    awaits the reply is the worker's handler.  The worker's mailbox and its
    batching of block writes are the step relation at the end.

    Theorems: what each write makes readable and what it leaves alone, that the
    store implements the interface the coin cache flushes to, and that blocks
    once stored stay retrievable. *)

From S2P Require Import Prelude Wire Hash Transaction Block Params Coins BlockFile.

(** ** The key-value interface (api/mod.rs) *)

Inductive WriteOp : Type :=
  | Put (table : string) (key value : bytes)
  | Delete (table : string) (key : bytes).

(** A read view's [get], a write batch filled with operations and committed, and how
    many of the operations the batch takes before one fails, when one fails before
    the commit. *)
Class StorageBackend (B : Type) : Type := {
  kv_get : B -> string -> bytes -> result (option bytes) StoreError;
  kv_write : B -> list WriteOp -> result B StoreError;
  kv_staged : B -> list WriteOp -> nat;
}.

(** What the last operation on a key leaves there, if there is one. *)
Definition op_effect (table : string) (key : bytes) (op : WriteOp) : option (option bytes) :=
  match op with
  | Put t k v => if bool_decide (t = table /\ k = key) then Some (Some v) else None
  | Delete t k => if bool_decide (t = table /\ k = key) then Some None else None
  end.
Definition ops_effect (table : string) (key : bytes) (ops : list WriteOp) : option (option bytes) :=
  fold_left (fun acc op => match op_effect table key op with Some e => Some e | None => acc end) ops None.

(** A committed batch is seen by every later read, and nothing else changes. *)
Class StorageBackendOk (B : Type) `{StorageBackend B} : Prop :=
  kv_write_get : forall b ops b' table key, kv_write b ops = Ok b' ->
    kv_get b' table key = match ops_effect table key ops with Some v => Ok v | None => kv_get b table key end.

(** ** The in-memory backend (backend/in_memory.rs) *)

Abbreviation Table := (gmap bytes bytes).
Abbreviation Database := (gmap string Table).

Definition mem_get (db : Database) (table : string) (key : bytes) : option bytes :=
  match db !! table with Some t => t !! key | None => None end.
Definition put_batch (db : Database) (table : string) (batch : list (bytes * bytes)) : Database :=
  <[table := fold_left (fun t kv => <[kv.1 := kv.2]> t) batch (default ∅ (db !! table))]> db.
(** [StorageWriteBatch::put], the default method *)
Definition put (db : Database) (table : string) (key value : bytes) : Database := put_batch db table [(key, value)].
Definition mem_delete (db : Database) (table : string) (key : bytes) : Database :=
  match db !! table with Some t => <[table := delete key t]> db | None => db end.
Definition clear_table (db : Database) (table : string) : Database :=
  match db !! table with Some _ => <[table := ∅]> db | None => db end.

Definition mem_apply (db : Database) (op : WriteOp) : Database :=
  match op with Put t k v => put db t k v | Delete t k => mem_delete db t k end.
#[export] Instance in_memory : StorageBackend Database := {|
  kv_get db t k := Ok (mem_get db t k);
  kv_write db ops := Ok (fold_left mem_apply ops db);
  kv_staged db ops := length ops |}.

Lemma mem_apply_get db op table key :
  mem_get (mem_apply db op) table key = match op_effect table key op with Some v => v | None => mem_get db table key end.
Proof.
  destruct op as [t k v|t k]; cbn [mem_apply op_effect]; unfold mem_get, put, put_batch, mem_delete.
  - cbn [fold_left fst snd]. destruct (decide (t = table)) as [<-|Ht].
    + rewrite lookup_insert_eq. destruct (decide (k = key)) as [<-|Hk].
      * by rewrite lookup_insert_eq, bool_decide_true.
      * rewrite lookup_insert_ne, bool_decide_false by naive_solver. by destruct (db !! t); simpl; rewrite ?lookup_empty.
    + by rewrite lookup_insert_ne, bool_decide_false by naive_solver.
  - destruct (decide (t = table)) as [<-|Ht].
    + destruct (db !! t) as [tb|] eqn:E; rewrite ?lookup_insert_eq, ?E.
      * destruct (decide (k = key)) as [<-|Hk]; [by rewrite lookup_delete_eq, bool_decide_true|].
        by rewrite lookup_delete_ne, bool_decide_false by naive_solver.
      * by case_bool_decide.
    + rewrite bool_decide_false by naive_solver. destruct (db !! t); [by rewrite lookup_insert_ne|done].
Qed.

#[export] Instance in_memory_ok : StorageBackendOk Database.
Proof.
  intros b ops b' table key [= <-]. cbn. unfold ops_effect.
  induction ops as [|op ops IH] using rev_ind; [done|]. rewrite !fold_left_app. cbn [fold_left].
  rewrite mem_apply_get. destruct (op_effect table key op); [done|]. exact IH.
Qed.

(** ** Tables and keys (api/tables.rs) *)

Definition BLOCK_INDEX : string := "block_index".
Definition UTXOS : string := "utxos".
Definition CHAIN_META : string := "chain_meta".
Definition BLOCK_UNDO : string := "block_undo".

Definition PREFIX_BLOCK : Z := 98.
Definition PREFIX_COIN : Z := 67.
Definition KEY_HEADERS_TIP : Z := 104.
Definition KEY_BEST_BLOCK : Z := 66.
Definition KEY_BLOCK_TIP : Z := 68.
Definition KEY_LAST_FILE : Z := 108.
Definition PREFIX_HEIGHT : Z := 72.
Definition PREFIX_HEADER_HEIGHT : Z := 122.

Definition block_key (hash : BlockHash) : bytes := PREFIX_BLOCK :: hash.
Definition coin_key (o : OutPoint) : bytes := PREFIX_COIN :: op_txid o ++ le_bytes 4 (op_vout o).
Definition height_key (h : Z) : bytes := PREFIX_HEIGHT :: be_bytes 4 h.
Definition header_height_key (h : Z) : bytes := PREFIX_HEADER_HEIGHT :: be_bytes 4 h.

(** ** The worker's state (block_manager.rs) and the store (store.rs) *)

Record BlockManager : Type := mkBlockManager {
  block_file_manager : BlockFileManager;
  last_known_tip_height : Z;
  undo_sizes : gmap Z Z;
  pending_undo_indexes : gmap BlockHash BlockIndex;
}.

Record Store (B : Type) : Type := mkStore {
  backend : B;
  disk : Disk;
  reader : BlockFileManager;
  worker : BlockManager;
}.
Arguments mkStore {B}.
Arguments backend {B}.
Arguments disk {B}.
Arguments reader {B}.
Arguments worker {B}.

Definition with_backend {B} (s : Store B) (b : B) : Store B := mkStore b (disk s) (reader s) (worker s).
Definition with_worker {B} (s : Store B) (w : BlockManager) : Store B := mkStore (backend s) (disk s) (reader s) w.
Definition with_files {B} (s : Store B) (d : Disk) (w : BlockManager) : Store B := mkStore (backend s) d (reader s) w.
Definition with_tip_height (w : BlockManager) (h : Z) : BlockManager :=
  mkBlockManager (block_file_manager w) h (undo_sizes w) (pending_undo_indexes w).
Definition with_file_manager (w : BlockManager) (m : BlockFileManager) : BlockManager :=
  mkBlockManager m (last_known_tip_height w) (undo_sizes w) (pending_undo_indexes w).

(** A block to store: header, height, chain work, raw bytes. *)
Abbreviation BlockWrite := (BlockHeader * BlockHeight * Hash256 * bytes)%type.

Section Store.
Context {B : Type} {SB : StorageBackend B} {D : Digests}.

(** [begin_write], the puts and deletes, [commit] *)
Definition commit_batch (s : Store B) (ops : list WriteOp) : result unit StoreError * Store B :=
  match kv_write (backend s) ops with
  | Ok b => (Ok tt, with_backend s b)
  | Err e => (Err e, s)
  end.

(** ** Reads (store.rs) *)

Definition get_block_index (s : Store B) (hash : BlockHash) : result (option BlockIndex) StoreError :=
  let? o := kv_get (backend s) BLOCK_INDEX (block_key hash) in
  match o with
  | None => Ok None
  | Some b =>
    let? '(index, d) := map_err (fun _ => Decode "failed to decode BlockIndex") (decode_BlockIndex (Decoder_new b)) in
    let? _ := map_err (fun _ => Decode "BlockIndex") (finish d "BlockIndex") in
    Ok (Some index)
  end.

(** The five reads of a hash share a body; [bytes[..32]] would panic on a
    shorter value, and every writer stores a 32-byte hash. *)
Definition get_hash (s : Store B) (table : string) (key : bytes) : result (option BlockHash) StoreError :=
  let? o := kv_get (backend s) table key in
  match o with None => Ok None | Some b => Ok (Some (take 32 b)) end.
Definition get_headers_tip (s : Store B) := get_hash s UTXOS [KEY_HEADERS_TIP].
Definition store_get_best_block (s : Store B) := get_hash s UTXOS [KEY_BEST_BLOCK].
Definition get_block_hash (s : Store B) (height : Z) := get_hash s CHAIN_META (height_key height).
Definition get_block_hash_by_header_height (s : Store B) (height : Z) := get_hash s CHAIN_META (header_height_key height).
Definition get_block_tip (s : Store B) := get_hash s UTXOS [KEY_BLOCK_TIP].

Definition store_get_coin (s : Store B) (o : OutPoint) : result (option Coin) StoreError :=
  let? v := kv_get (backend s) UTXOS (coin_key o) in
  match v with
  | None => Ok None
  | Some b =>
    let? '(c, d) := map_err (fun _ => Decode "failed to decode Coin") (decode_Coin (Decoder_new b)) in
    let? _ := map_err (fun _ => Decode "Coin") (finish d "Coin") in
    Ok (Some c)
  end.

Definition get_block (s : Store B) (hash : BlockHash) : result (option bytes) StoreError :=
  let? o := get_block_index s hash in
  match o with
  | None => Ok None
  | Some index =>
    match file_pos index with
    | None => Ok None
    | Some pos => let? data := read_block (reader s) (disk s) pos in Ok (Some data)
    end
  end.

(** ** Writes: the handlers of the worker (block_manager.rs) *)

(** The record of a block and its header-height entry. *)
Definition index_ops (hash : BlockHash) (index : BlockIndex) : list WriteOp :=
  [Put BLOCK_INDEX (block_key hash) (serialize encode_BlockIndex index);
   Put CHAIN_META (header_height_key (bi_height index)) hash].

Definition handle_store_block_index (s : Store B) (hash : BlockHash) (index : BlockIndex) : result unit StoreError * Store B :=
  commit_batch s (index_ops hash index).

Definition handle_store_block_indexes (s : Store B) (indexes : list (BlockHash * BlockIndex)) (best_tip : option BlockHash)
    : result unit StoreError * Store B :=
  commit_batch s
    (concat (map (fun p => index_ops p.1 p.2) indexes) ++
     match best_tip with Some hash => [Put UTXOS [KEY_HEADERS_TIP] hash] | None => [] end).

Definition handle_update_active_tip (s : Store B) (hash : BlockHash) : result unit StoreError * Store B :=
  commit_batch s [Put UTXOS [KEY_BEST_BLOCK] hash].
Definition handle_update_headers_tip (s : Store B) (hash : BlockHash) : result unit StoreError * Store B :=
  commit_batch s [Put UTXOS [KEY_HEADERS_TIP] hash].
Definition handle_update_header_index (s : Store B) (hash : BlockHash) (height : Z) : result unit StoreError * Store B :=
  commit_batch s [Put CHAIN_META (header_height_key height) hash].
Definition handle_delete_height_mapping (s : Store B) (height : Z) : result unit StoreError * Store B :=
  commit_batch s [Delete CHAIN_META (height_key height)].
Definition handle_delete_block (s : Store B) (hash : BlockHash) : result unit StoreError * Store B :=
  commit_batch s [Delete BLOCK_INDEX (block_key hash)].

Definition handle_store_header (s : Store B) (hdr : BlockHeader) (height : BlockHeight) (work : Hash256) (is_best : bool)
    : result unit StoreError * Store B :=
  let hash := block_hash hdr in
  match handle_store_block_index s hash (mkBlockIndex hdr height work None None) with
  | (Err e, s) => (Err e, s)
  | (Ok _, s) => if is_best then handle_update_headers_tip s hash else (Ok tt, s)
  end.

(** The first loop of [handle_store_blocks]: append each block to the files. *)
Fixpoint append_blocks (m : BlockFileManager) (d : Disk) (blocks : list BlockWrite)
    : result (list (BlockHash * BlockIndex) * list FlatFilePos) StoreError * BlockFileManager * Disk :=
  match blocks with
  | [] => (Ok ([], []), m, d)
  | (hdr, height, work, raw) :: blocks =>
    match write_block m d raw with
    | (Err e, m, d) => (Err e, m, d)
    | (Ok pos, m, d) =>
      match append_blocks m d blocks with
      | (Err e, m, d) => (Err e, m, d)
      | (Ok (entries, positions), m, d) =>
        (Ok ((block_hash hdr, mkBlockIndex hdr height work (Some pos) None) :: entries, pos :: positions), m, d)
      end
    end
  end.

(** The first entry of the greatest height, among those not below the known tip. *)
Definition highest_tip (known : Z) (entries : list (BlockHash * BlockIndex)) : option (Z * BlockHash) :=
  fold_left (fun best p =>
    let h := bi_height p.2 in
    if (known <=? h) && match best with None => true | Some (height, _) => height <? h end
    then Some (h, p.1) else best) entries None.

Definition handle_store_blocks (s : Store B) (blocks : list BlockWrite) : result (list FlatFilePos) StoreError * Store B :=
  let '(r, m, d) := append_blocks (block_file_manager (worker s)) (disk s) blocks in
  let s := with_files s d (with_file_manager (worker s) m) in
  match r with
  | Err e => (Err e, s)
  | Ok (entries, positions) =>
    let tip := highest_tip (last_known_tip_height (worker s)) entries in
    let ops := concat (map (fun p => index_ops p.1 p.2) entries) ++
      [Put CHAIN_META [KEY_LAST_FILE] (le_bytes 4 (current_file m))] ++
      match tip with Some (_, hash) => [Put UTXOS [KEY_BLOCK_TIP] hash] | None => [] end in
    (* the height is assigned after the last [put] and before the commit *)
    let s_tip := match tip with Some (height, _) => with_worker s (with_tip_height (worker s) height) | None => s end in
    match commit_batch s_tip ops with
    | (Err e, _) => (Err e, if (length ops <=? kv_staged (backend s) ops)%nat then s_tip else s)
    | (Ok _, s) => (Ok positions, s)
    end
  end.

Definition coin_ops (coins : gmap OutPoint CoinUpdate) : list WriteOp :=
  map (fun p => match p.2 with
    | Add c => Put UTXOS (coin_key p.1) (serialize encode_Coin c)
    | Remove => Delete UTXOS (coin_key p.1)
    end) (map_to_list coins).

Definition utxo_ops (w : BlockManager) (coins : gmap OutPoint CoinUpdate) (best_block : option BlockHash)
    (connected : list (Z * BlockHash)) : list WriteOp :=
  coin_ops coins ++
  match best_block with Some hash => [Put UTXOS [KEY_BEST_BLOCK] hash] | None => [] end ++
  map (fun p => Put BLOCK_INDEX (block_key p.1) (serialize encode_BlockIndex p.2)) (map_to_list (pending_undo_indexes w)) ++
  map (fun p => Put CHAIN_META (height_key p.1) p.2) connected.

(** [last_known_tip_height] after the connected blocks. *)
Definition raised_tip (known : Z) (connected : list (Z * BlockHash)) : Z :=
  fold_left (fun t p => if t <=? p.1 then p.1 else t) connected known.

Definition handle_update_utxo_set (s : Store B) (coins : gmap OutPoint CoinUpdate) (best_block : option BlockHash)
    (connected : list (Z * BlockHash)) : result unit StoreError * Store B :=
  let ops := utxo_ops (worker s) coins best_block connected in
  (* the heights of the connected blocks whose [put] went through count, the commit or not *)
  let raised n := with_worker s (with_tip_height (worker s) (raised_tip (last_known_tip_height (worker s)) (take n connected))) in
  match commit_batch (raised (length connected)) ops with
  | (Err e, _) => (Err e, raised (kv_staged (backend s) ops - (length ops - length connected))%nat)
  | (Ok _, s) => (Ok tt, with_worker s (mkBlockManager (block_file_manager (worker s)) (last_known_tip_height (worker s))
      (undo_sizes (worker s)) ∅))
  end.

(** The index a block's undo data belongs to: pending, or read back. *)
Definition undo_index (s : Store B) (hash : BlockHash) : result BlockIndex StoreError :=
  match pending_undo_indexes (worker s) !! hash with
  | Some index => Ok index
  | None =>
    let? o := kv_get (backend s) BLOCK_INDEX (block_key hash) in
    let? b := ok_or o (Custom "block index missing") in
    map_err WireDecode (decode_exact decode_BlockIndex b "BlockIndex")
  end.

Definition handle_store_undo (s : Store B) (hash : BlockHash) (undo_data : BlockUndo) : result unit StoreError * Store B :=
  match
    let? index := undo_index s hash in
    let? pos := ok_or (file_pos index) (Custom "block data position missing") in
    Ok (index, pos)
  with
  | Err e => (Err e, s)
  | Ok (index, block_pos) =>
    let w := worker s in
    let current_size := match undo_sizes w !! ff_file block_pos with
      | Some size => size | None => undo_used_size (block_file_manager w) (disk s) (ff_file block_pos) end in
    let value := serialize encode_BlockUndo undo_data in
    let '(pos, new_size, d) := write_undo (block_file_manager w) (disk s) (ff_file block_pos) value current_size in
    let index := mkBlockIndex (bi_header index) (bi_height index) (chain_work index) (file_pos index) (Some pos) in
    (Ok tt, with_files s d (mkBlockManager (block_file_manager w) (last_known_tip_height w)
      (<[ff_file block_pos := new_size]> (undo_sizes w)) (<[hash := index]> (pending_undo_indexes w))))
  end.

(** ** Opening (store.rs, and the first lines of [run]) *)

Definition last_file_of (b : B) : result Z StoreError :=
  let? o := kv_get b CHAIN_META [KEY_LAST_FILE] in
  Ok (match o with Some v => of_le (take 4 v) | None => 0 end).

Definition init_tip_height (b : B) : Z :=
  match kv_get b UTXOS [KEY_BLOCK_TIP] with
  | Ok (Some tip) =>
    let tip_hash := if (length tip =? 32)%nat then tip else ZERO_HASH in
    match kv_get b BLOCK_INDEX (block_key tip_hash) with
    | Ok (Some v) => match decode_BlockIndex (Decoder_new v) with Ok (i, _) => bi_height i | Err _ => 0 end
    | _ => 0
    end
  | _ => 0
  end.

Definition Store_new (dir : bytes) (magic : Magic) (b : B) (d : Disk) : result (Store B) StoreError :=
  let? last_file := last_file_of b in
  let m := BlockFileManager_new dir magic last_file d in
  Ok (mkStore b d m (mkBlockManager m (init_tip_height b) ∅ ∅)).

(** ** The mailbox: [WriteMessage] and [run] *)

Inductive WriteMessage : Type :=
  | StoreHeader (hdr : BlockHeader) (height : BlockHeight) (work : Hash256) (is_best : bool)
  | StoreBlock (w : BlockWrite)
  | StoreBlockIndex (hash : BlockHash) (index : BlockIndex)
  | StoreBlockIndexes (indexes : list (BlockHash * BlockIndex)) (best_tip : option BlockHash)
  | StoreUndo (hash : BlockHash) (undo_data : BlockUndo)
  | UpdateUtxoSet (coins : gmap OutPoint CoinUpdate) (best : option BlockHash) (connected : list (Z * BlockHash))
  | UpdateActiveTip (hash : BlockHash)
  | UpdateHeadersTip (hash : BlockHash)
  | DeleteBlock (hash : BlockHash)
  | DeleteHeightMapping (height : Z)
  | UpdateHeaderIndex (hash : BlockHash) (height : Z)
  | Flush.

Inductive Reply : Type := RUnit (r : result unit StoreError) | RPos (r : result FlatFilePos StoreError).

(** Every message but [StoreBlock] is handled alone. *)
Definition handle_message (s : Store B) (msg : WriteMessage) : option (result unit StoreError * Store B) :=
  match msg with
  | StoreHeader hdr height work is_best => Some (handle_store_header s hdr height work is_best)
  | StoreBlock _ => None
  | StoreBlockIndex hash index => Some (handle_store_block_index s hash index)
  | StoreBlockIndexes indexes best_tip => Some (handle_store_block_indexes s indexes best_tip)
  | StoreUndo hash undo_data => Some (handle_store_undo s hash undo_data)
  | UpdateUtxoSet coins best connected => Some (handle_update_utxo_set s coins best connected)
  | UpdateActiveTip hash => Some (handle_update_active_tip s hash)
  | UpdateHeadersTip hash => Some (handle_update_headers_tip s hash)
  | DeleteBlock hash => Some (handle_delete_block s hash)
  | DeleteHeightMapping height => Some (handle_delete_height_mapping s height)
  | UpdateHeaderIndex hash height => Some (handle_update_header_index s hash height)
  | Flush => Some (bf_flush (block_file_manager (worker s)) (disk s), s)
  end.

(** The replies of a batch of block writes; an error is passed on as text. *)
Definition batch_replies (n : nat) (r : result (list FlatFilePos) StoreError) : list Reply :=
  match r with
  | Ok ps => map (fun p => RPos (Ok p)) ps
  | Err _ => replicate n (RPos (Err (Custom "storage error")))
  end.

Definition MAX_WRITE_BATCH : nat := 64.

(** One round of [run]: the mailbox is in arrival order, and how many block
    writes are already there to be batched is up to the senders. *)
Inductive worker_step : Store B * list WriteMessage -> list Reply -> Store B * list WriteMessage -> Prop :=
  | step_message s msg mailbox r s' :
      handle_message s msg = Some (r, s') -> worker_step (s, msg :: mailbox) [RUnit r] (s', mailbox)
  | step_blocks s blocks mailbox r s' :
      (0 < length blocks <= MAX_WRITE_BATCH)%nat -> handle_store_blocks s blocks = (r, s') ->
      worker_step (s, map StoreBlock blocks ++ mailbox) (batch_replies (length blocks) r) (s', mailbox).

(** Rounds until the mailbox is empty, with the replies in order. *)
Inductive worker_run : Store B * list WriteMessage -> list Reply -> Store B -> Prop :=
  | run_done s : worker_run (s, []) [] s
  | run_step c c' rs rs' s : worker_step c rs c' -> worker_run c' rs' s -> worker_run c (rs ++ rs') s.
End Store.

(** ** Keys and batches *)

Lemma block_key_inj h h' : block_key h = block_key h' -> h = h'.
Proof. by intros [= ->]. Qed.
Lemma le_bytes4_inj a b : u32_ok a -> u32_ok b -> le_bytes 4 a = le_bytes 4 b -> a = b.
Proof. intros Ha Hb H. by rewrite <- (le_bytes_small 4 a), <- (le_bytes_small 4 b), H by (unfold u32_ok in *; lia). Qed.
Lemma be_bytes4_inj a b : u32_ok a -> u32_ok b -> be_bytes 4 a = be_bytes 4 b -> a = b.
Proof. intros Ha Hb H. apply le_bytes4_inj; [done..|]. unfold be_bytes in H. by apply (inj reverse) in H. Qed.
Lemma coin_key_inj o o' : outpoint_ok o -> outpoint_ok o' -> coin_key o = coin_key o' -> o = o'.
Proof.
  intros [[L1 _] V1] [[L2 _] V2] [= H]. apply app_inj_1 in H as [H1 H2]; [|by rewrite L1, L2].
  destruct o, o'. simpl in *. apply le_bytes4_inj in H2; [|done..]. by subst.
Qed.
Lemma length_be_bytes n z : length (be_bytes n z) = n.
Proof. unfold be_bytes. by rewrite length_reverse, length_le_bytes. Qed.

Lemma ops_effect_app t k a b :
  ops_effect t k (a ++ b) = match ops_effect t k b with Some e => Some e | None => ops_effect t k a end.
Proof.
  unfold ops_effect. induction b as [|op b IH] using rev_ind; [by rewrite app_nil_r|].
  rewrite app_assoc, !(fold_left_app _ _ [op]). cbn [fold_left]. by destruct (op_effect t k op).
Qed.
Lemma ops_effect_cons t k op ops :
  ops_effect t k (op :: ops) = match ops_effect t k ops with Some e => Some e | None => op_effect t k op end.
Proof.
  change (op :: ops) with ([op] ++ ops). rewrite ops_effect_app. destruct (ops_effect t k ops); [done|].
  unfold ops_effect. cbn [fold_left]. by destruct (op_effect t k op).
Qed.
Lemma ops_effect_nil t k : ops_effect t k [] = None.
Proof. done. Qed.

Lemma ops_effect_none t k ops : Forall (fun op => op_effect t k op = None) ops -> ops_effect t k ops = None.
Proof. induction 1 as [|op ops Hop _ IH]; [done|]. by rewrite ops_effect_cons, IH, Hop. Qed.

Lemma op_effect_hit t k v : op_effect t k (Put t k v) = Some (Some v).
Proof. cbn. by rewrite bool_decide_true. Qed.
Lemma op_effect_miss t k t' k' v : (t', k') <> (t, k) -> op_effect t k (Put t' k' v) = None.
Proof. intros H. cbn. rewrite bool_decide_false; [done|]. intros [-> ->]. done. Qed.
Lemma op_effect_miss_delete t k t' k' : (t', k') <> (t, k) -> op_effect t k (Delete t' k') = None.
Proof. intros H. cbn. rewrite bool_decide_false; [done|]. intros [-> ->]. done. Qed.

(** Different tables, or keys with different first bytes, or of different lengths. *)
Ltac key_ne := intros [=]; fail.
Ltac no_effect :=
  repeat first [rewrite ops_effect_cons | rewrite ops_effect_nil
    | rewrite op_effect_miss by key_ne | rewrite op_effect_miss_delete by key_ne].

(** A batch made from a map with one operation per key. *)
Lemma keyed_ops_effect {A X} `{Countable A} (f : A * X -> WriteOp) (T : string) (key : A -> bytes) (eff : X -> option bytes)
    (P : A -> Prop) (m : gmap A X) (a : A) :
  (forall p t k, op_effect t k (f p) = if bool_decide (T = t /\ key p.1 = k) then Some (eff p.2) else None) ->
  (forall a b, P a -> P b -> key a = key b -> a = b) -> (forall b x, m !! b = Some x -> P b) -> P a ->
  ops_effect T (key a) (map f (map_to_list m)) = eff <$> (m !! a).
Proof.
  intros Hf Hinj HP Ha. destruct (m !! a) as [x|] eqn:E.
  - apply elem_of_map_to_list in E as (l1 & l2 & El)%list_elem_of_split.
    pose proof (NoDup_fst_map_to_list m) as Hnd. rewrite El in Hnd. rewrite fmap_app in Hnd. cbn in Hnd.
    apply NoDup_app in Hnd as (_ & _ & Hnd). apply NoDup_cons in Hnd as [Hnot _].
    rewrite El, map_app. cbn [map]. rewrite ops_effect_app, ops_effect_cons.
    rewrite (ops_effect_none _ _ (map f l2)); [by rewrite Hf, bool_decide_true|].
    apply Forall_map, Forall_forall. intros [b y] Hb. rewrite Hf. rewrite bool_decide_false; [done|].
    intros [_ Hk]. cbn in Hk. apply Hinj in Hk; [|apply (HP b y), elem_of_map_to_list; rewrite El; apply elem_of_app; right; by right|done].
    subst. apply Hnot. apply list_elem_of_fmap. by exists (a, y).
  - apply ops_effect_none, Forall_map, Forall_forall. intros [b y] Hb%elem_of_map_to_list. rewrite Hf, bool_decide_false; [done|].
    intros [_ Hk]. cbn in Hk. apply Hinj in Hk; [congruence|by eapply HP|done].
Qed.

Section StoreProofs.
Context {B : Type} {SB : StorageBackend B} {SO : StorageBackendOk B} {D : Digests}.
Implicit Types s : Store B.

Lemma commit_batch_ok s ops s' : commit_batch s ops = (Ok tt, s') ->
  (forall t k, kv_get (backend s') t k = match ops_effect t k ops with Some v => Ok v | None => kv_get (backend s) t k end) /\
  disk s' = disk s /\ reader s' = reader s /\ worker s' = worker s.
Proof.
  unfold commit_batch. destruct (kv_write _ _) as [b|] eqn:E; [|done]. intros [= <-]. split; [|done].
  intros t k. by apply kv_write_get.
Qed.
Lemma commit_batch_err s ops s' e : commit_batch s ops = (Err e, s') -> s' = s.
Proof. unfold commit_batch. destruct (kv_write _ _); [done|]. by intros [= _ ->]. Qed.

(** A record that was written decodes to the value written. *)
Lemma index_roundtrip i : block_index_ok i ->
  exists d, decode_BlockIndex (Decoder_new (serialize encode_BlockIndex i)) = Ok (i, d) /\ finish d "BlockIndex" = Ok tt.
Proof.
  intros Hi. pose proof (decode_exact_serialize encode_BlockIndex decode_BlockIndex block_index_ok i "BlockIndex" Hi) as H.
  unfold decode_exact in H. destruct (decode_BlockIndex _) as [[x d]|]; [|done]. simpl in H.
  destruct (finish d _) as [[]|] eqn:E; [|done]. injection H as ->. eauto.
Qed.
Lemma coin_roundtrip c : coin_ok c ->
  exists d, decode_Coin (Decoder_new (serialize encode_Coin c)) = Ok (c, d) /\ finish d "Coin" = Ok tt.
Proof.
  intros Hi. pose proof (decode_exact_serialize encode_Coin decode_Coin coin_ok c "Coin" Hi) as H.
  unfold decode_exact in H. destruct (decode_Coin _) as [[x d]|]; [|done]. simpl in H.
  destruct (finish d _) as [[]|] eqn:E; [|done]. injection H as ->. eauto.
Qed.

Lemma get_block_index_written s hash i : block_index_ok i ->
  kv_get (backend s) BLOCK_INDEX (block_key hash) = Ok (Some (serialize encode_BlockIndex i)) ->
  get_block_index s hash = Ok (Some i).
Proof.
  intros Hi E. unfold get_block_index. rewrite E. simpl rbind.
  destruct (index_roundtrip i Hi) as (d & -> & Hf). simpl. by rewrite Hf.
Qed.
Lemma store_get_coin_written s o c : coin_ok c ->
  kv_get (backend s) UTXOS (coin_key o) = Ok (Some (serialize encode_Coin c)) -> store_get_coin s o = Ok (Some c).
Proof.
  intros Hi E. unfold store_get_coin. rewrite E. simpl rbind.
  destruct (coin_roundtrip c Hi) as (d & -> & Hf). simpl. by rewrite Hf.
Qed.
Lemma get_hash_written s t k h : length h = 32%nat -> kv_get (backend s) t k = Ok (Some h) -> get_hash s t k = Ok (Some h).
Proof. intros Hl E. unfold get_hash. rewrite E. simpl. by rewrite take_ge by lia. Qed.

(** ** The store as the base of the coin cache (coins.rs, [StoreCoinsView])

    Outpoints and coins are values of Rust types; the model's types are wider.
    Outside the Rust values the view answers [None] and a write is refused. *)

Definition update_ok (o : OutPoint) (u : CoinUpdate) : Prop :=
  outpoint_ok o /\ match u with Add c => coin_ok c | Remove => True end.
Definition updates_ok (ups : gmap OutPoint CoinUpdate) (best : option BlockHash) : Prop :=
  map_Forall update_ok ups /\ match best with Some h => length h = 32%nat | None => True end.

#[export] Instance bytes_ok_dec l : Decision (bytes_ok l).
Proof. apply Forall_dec. intros z. unfold u8_ok. apply _. Defined.
#[export] Instance outpoint_ok_dec o : Decision (outpoint_ok o).
Proof. unfold outpoint_ok, hash_ok, array_ok, u32_ok. apply _. Defined.
#[export] Instance coin_ok_dec c : Decision (coin_ok c).
Proof. unfold coin_ok, txout_ok, varbytes_ok, vec_ok, u32_ok, u64_ok. apply _. Defined.
#[export] Instance update_ok_dec o u : Decision (update_ok o u).
Proof. unfold update_ok. destruct u; apply _. Defined.
#[export] Instance updates_ok_dec ups best : Decision (updates_ok ups best).
Proof. unfold updates_ok. destruct best; apply _. Defined.

#[export] Instance StoreCoinsView : CoinsView (Store B) := {|
  get_coin s o := if bool_decide (outpoint_ok o) then default None (res_ok (store_get_coin s o)) else None;
  get_best_block s := default None (res_ok (store_get_best_block s)) |}.
#[export] Instance StoreCoinsStore : CoinsStore (Store B) StoreError := fun s ups best conn =>
  if bool_decide (updates_ok ups best) then handle_update_utxo_set s ups best conn
  else (Err (Custom "not a Rust value"), s).

Lemma coin_ops_effect coins o : (forall o u, coins !! o = Some u -> update_ok o u) -> outpoint_ok o ->
  ops_effect UTXOS (coin_key o) (coin_ops coins) =
  (fun u => match u with Add c => Some (serialize encode_Coin c) | Remove => None end) <$> (coins !! o).
Proof.
  intros Hok Ho. apply (keyed_ops_effect _ _ _ (fun u => match u with Add c => Some (serialize encode_Coin c) | Remove => None end) outpoint_ok).
  - intros [o' [c|]] t k; done.
  - by apply coin_key_inj.
  - intros b x Hb. by apply Hok in Hb as [? _].
  - done.
Qed.

Lemma utxo_ops_coin w coins best conn o : updates_ok coins best -> outpoint_ok o ->
  ops_effect UTXOS (coin_key o) (utxo_ops w coins best conn) = ops_effect UTXOS (coin_key o) (coin_ops coins).
Proof.
  intros _ Ho. unfold utxo_ops. rewrite !ops_effect_app.
  rewrite (ops_effect_none _ _ (map _ conn)) by (apply Forall_map, Forall_forall; intros p _; by apply op_effect_miss; key_ne).
  rewrite (ops_effect_none _ _ (map _ (map_to_list _))) by (apply Forall_map, Forall_forall; intros p _; by apply op_effect_miss; key_ne).
  destruct best; no_effect; done.
Qed.

Lemma utxo_ops_best w coins best conn :
  ops_effect UTXOS [KEY_BEST_BLOCK] (utxo_ops w coins best conn) = Some <$> best.
Proof.
  unfold utxo_ops. rewrite !ops_effect_app.
  rewrite (ops_effect_none _ _ (map _ conn)) by (apply Forall_map, Forall_forall; intros p _; by apply op_effect_miss; key_ne).
  rewrite (ops_effect_none _ _ (map _ (map_to_list _))) by (apply Forall_map, Forall_forall; intros p _; by apply op_effect_miss; key_ne).
  rewrite (ops_effect_none _ _ (coin_ops _)).
  - destruct best; [|done]. by rewrite ops_effect_cons, ops_effect_nil, op_effect_hit.
  - apply Forall_map, Forall_forall. intros [o [c|]] _; [apply op_effect_miss|apply op_effect_miss_delete]; key_ne.
Qed.

Lemma update_utxo_set_ok s coins best conn s' : handle_update_utxo_set s coins best conn = (Ok tt, s') ->
  (forall t k, kv_get (backend s') t k =
    match ops_effect t k (utxo_ops (worker s) coins best conn) with Some v => Ok v | None => kv_get (backend s) t k end) /\
  disk s' = disk s /\ reader s' = reader s /\
  block_file_manager (worker s') = block_file_manager (worker s) /\ undo_sizes (worker s') = undo_sizes (worker s) /\
  pending_undo_indexes (worker s') = ∅.
Proof.
  unfold handle_update_utxo_set. destruct (commit_batch _ _) as [[[]|] s1] eqn:E; [|done]. intros [= <-].
  apply commit_batch_ok in E as (Hk & Hd & Hr & Hw). cbn [backend disk reader worker with_worker] in *. rewrite Hw. done.
Qed.
Lemma update_utxo_set_err s coins best conn s' e : handle_update_utxo_set s coins best conn = (Err e, s') ->
  exists h, s' = with_worker s (with_tip_height (worker s) h).
Proof.
  unfold handle_update_utxo_set. destruct (commit_batch _ _) as [[[]|] s1] eqn:E; [done|]. intros [= _ <-].
  apply commit_batch_err in E. eauto.
Qed.

#[export] Instance StoreCoinsStoreOk : CoinsStoreOk (Store B) StoreError.
Proof.
  split.
  - intros s s' ups best conn H o. unfold update_utxos, StoreCoinsStore in H. destruct (bool_decide (updates_ok _ _)) eqn:G; [|done].
    apply bool_decide_eq_true in G. pose proof G as [Hu _]. apply update_utxo_set_ok in H as (Hk & _). cbn.
    destruct (bool_decide (outpoint_ok o)) eqn:Go.
    2: { apply bool_decide_eq_false in Go. destruct (ups !! o) as [u|] eqn:E; [|done]. by destruct (Hu o u E). }
    apply bool_decide_eq_true in Go. specialize (Hk UTXOS (coin_key o)).
    rewrite utxo_ops_coin, coin_ops_effect in Hk by done. destruct (ups !! o) as [[c|]|] eqn:E; cbn in Hk |- *.
    + destruct (Hu _ _ E) as [_ Hc]. by rewrite (store_get_coin_written s' o c Hc Hk).
    + unfold store_get_coin. by rewrite Hk.
    + unfold store_get_coin. by rewrite Hk.
  - intros s s' ups best conn H. unfold update_utxos, StoreCoinsStore in H. destruct (bool_decide (updates_ok _ _)) eqn:G; [|done].
    apply bool_decide_eq_true in G as [_ Hb]. apply update_utxo_set_ok in H as (Hk & _). cbn. specialize (Hk UTXOS [KEY_BEST_BLOCK]).
    rewrite utxo_ops_best in Hk. unfold store_get_best_block. destruct best as [h|]; cbn in Hk.
    + by rewrite (get_hash_written s' _ _ h Hb Hk).
    + unfold get_hash. by rewrite Hk.
  - intros s s' e ups best conn H. unfold update_utxos, StoreCoinsStore in H. destruct (bool_decide _); [|by injection H as _ <-].
    by apply update_utxo_set_err in H as [h ->].
Qed.

End StoreProofs.
