(* ===== verification/StoreInv.v ===== *)
(** * What the store keeps

    The invariant of the store: every index record and every pending index that
    points into the block files points at an intact block, every undo file holds
    exactly its records, and the cached undo sizes are their total.  Each handler
    of the worker preserves it; the theorems on retrieving blocks and undo data
    follow. *)

From S2P Require Import Prelude Wire Hash Transaction Block Params Coins BlockFile Store.

Lemma elem_of_rev {A} (x : A) l : x ∈ rev l <-> x ∈ l.
Proof. rewrite rev_alt. apply elem_of_reverse. Qed.

Section Inv.
Context {B : Type} {SB : StorageBackend B} {SO : StorageBackendOk B} {D : Digests}.
Implicit Types s : Store B.
Implicit Types log : list (FlatFilePos * bytes).

Abbreviation bfm s := (block_file_manager (worker s)).

Definition same_files (a b : BlockFileManager) : Prop :=
  bf_blocks a = bf_blocks b /\ bf_undo a = bf_undo b /\ bf_magic a = bf_magic b.
Definition logged log (i : BlockIndex) : Prop := forall pos, file_pos i = Some pos -> pos ∈ log.*1.
Definition index_inv log (i : BlockIndex) : Prop := block_index_ok i /\ logged log i.

Record store_inv s log : Prop := {
  si_log : log_inv (bfm s) (disk s) log;
  si_small : Forall (fun p => Z.of_nat (length p.2) < 2 ^ 32) log;
  si_reader : same_files (reader s) (bfm s);
  si_magic : magic_bytes (bf_magic (bfm s)) <> replicate 4 0;
  si_undo : forall n, u32_ok n -> exists l, undo_inv (bfm s) (disk s) n l /\
    forall size, undo_sizes (worker s) !! n = Some size -> size = undo_len (bfm s) l;
  si_index : forall hash i, get_block_index s hash = Ok (Some i) -> index_inv log i;
  si_pending : forall hash i, pending_undo_indexes (worker s) !! hash = Some i -> index_inv log i;
}.

(** ** Reading through the index *)

Lemma get_block_index_ext s s' hash :
  kv_get (backend s') BLOCK_INDEX (block_key hash) = kv_get (backend s) BLOCK_INDEX (block_key hash) ->
  get_block_index s' hash = get_block_index s hash.
Proof. intros H. unfold get_block_index. by rewrite H. Qed.

Lemma logged_read s log pos : store_inv s log -> pos ∈ log.*1 ->
  exists raw, (pos, raw) ∈ log /\ read_block (reader s) (disk s) pos = Ok raw.
Proof.
  intros Hi [[p raw] [-> Hp]]%list_elem_of_fmap. exists raw. split; [done|]. unfold read_block.
  destruct (si_reader _ _ Hi) as (-> & _). apply (read_block_logged _ _ log); [apply Hi|done|].
  pose proof (si_small _ _ Hi) as Hs. rewrite Forall_forall in Hs. by apply (Hs _ Hp).
Qed.

(** A block whose index record has a position is always readable. *)
Lemma get_block_total s log hash i : store_inv s log -> get_block_index s hash = Ok (Some i) ->
  match file_pos i with
  | None => get_block s hash = Ok None
  | Some pos => exists raw, (pos, raw) ∈ log /\ get_block s hash = Ok (Some raw)
  end.
Proof.
  intros Hi E. unfold get_block. rewrite E. simpl. destruct (file_pos i) as [pos|] eqn:Hp; [|done].
  destruct (logged_read s log pos Hi) as (raw & Hraw & ->); [by apply (si_index _ _ Hi _ _ E)|]. eauto.
Qed.

(** ** Batches that touch no block index *)

Lemma store_inv_batch s log ops s' : store_inv s log -> commit_batch s ops = (Ok tt, s') ->
  (forall hash i, get_block_index s' hash = Ok (Some i) -> index_inv log i) -> store_inv s' log.
Proof.
  intros [H1 H2 H3 H4 H5 H6 H7] E Hx. apply commit_batch_ok in E as (_ & Hd & Hr & Hw).
  split; rewrite ?Hd, ?Hr, ?Hw; done.
Qed.

(** The records a batch of index operations leaves. *)
Definition entries_ops (entries : list (BlockHash * BlockIndex)) : list WriteOp :=
  concat (map (fun p => index_ops p.1 p.2) entries).

Lemma entries_ops_utxos k entries : ops_effect UTXOS k (entries_ops entries) = None.
Proof.
  unfold entries_ops. induction entries as [|p l IH]; [done|]. cbn [map concat]. rewrite ops_effect_app, IH.
  unfold index_ops. no_effect. done.
Qed.
Lemma entries_ops_heights n entries : ops_effect CHAIN_META (height_key n) (entries_ops entries) = None.
Proof.
  unfold entries_ops. induction entries as [|p l IH]; [done|]. cbn [map concat]. rewrite ops_effect_app, IH.
  unfold index_ops. no_effect. done.
Qed.
Lemma index_ops_index hash i hash' :
  ops_effect BLOCK_INDEX (block_key hash') (index_ops hash i) =
  if decide (hash = hash') then Some (Some (serialize encode_BlockIndex i)) else None.
Proof.
  unfold index_ops. rewrite !ops_effect_cons, ops_effect_nil. rewrite (op_effect_miss _ _ CHAIN_META) by key_ne.
  case_decide as E; [subst; apply op_effect_hit|]. apply op_effect_miss. by intros [= ->].
Qed.
Lemma entries_ops_index hash entries :
  ops_effect BLOCK_INDEX (block_key hash) (entries_ops entries) =
  match list_find (fun p => p.1 = hash) (reverse entries) with
  | Some (_, p) => Some (Some (serialize encode_BlockIndex p.2)) | None => None end.
Proof.
  unfold entries_ops. induction entries as [|p l IH] using rev_ind; [done|].
  rewrite map_app, concat_app, ops_effect_app, reverse_snoc. cbn [map concat]. rewrite app_nil_r, index_ops_index.
  cbn [list_find]. case_decide as E; [done|]. rewrite IH. by destruct (list_find _ (reverse l)) as [[j q]|].
Qed.

(** ** Storing blocks *)

Definition write_hash (w : BlockWrite) : BlockHash := block_hash w.1.1.1.
Definition write_raw (w : BlockWrite) : bytes := w.2.
Definition write_index (w : BlockWrite) (pos : FlatFilePos) : BlockIndex :=
  let '(hdr, height, work, _) := w in mkBlockIndex hdr height work (Some pos) None.
Definition write_ok (w : BlockWrite) : Prop :=
  let '(hdr, height, work, raw) := w in
  header_ok hdr /\ u32_ok height /\ hash_ok work /\ Z.of_nat (length raw) < 2 ^ 32.
Definition write_entries (blocks : list BlockWrite) (ps : list FlatFilePos) : list (BlockHash * BlockIndex) :=
  zip_with (fun w pos => (write_hash w, write_index w pos)) blocks ps.

Lemma append_blocks_log blocks m d log : log_inv m d log -> Forall write_ok blocks ->
  current_file m + Z.of_nat (length blocks) < 2 ^ 32 ->
  exists ps m' d', append_blocks m d blocks = (Ok (write_entries blocks ps, ps), m', d') /\ length ps = length blocks /\
    log_inv m' d' (rev (zip ps (map write_raw blocks)) ++ log) /\ same_files m' m /\ Forall flatpos_ok ps /\
    (forall k, (forall n, k <> path (bf_blocks m) n) -> d' !! k = d !! k) /\
    current_file m' <= current_file m + Z.of_nat (length blocks).
Proof.
  revert m d log. induction blocks as [|w blocks IH]; intros m d log Hi Hok Hlt.
  - exists [], m, d. cbn. split_and!; try done; lia.
  - apply Forall_cons in Hok as [Hw Hok]. destruct w as [[[hdr h] work] raw]. destruct Hw as (_ & _ & _ & Hr).
    cbn [length] in Hlt. destruct (write_block_log m d log raw Hi) as (pos & m1 & d1 & E & Hi1 & Hp & Hf & Hb & Hu & Hg); [lia|done|].
    cbn [append_blocks]. rewrite E. destruct (IH m1 d1 _ Hi1 Hok) as (ps & m2 & d2 & E2 & Hlen & Hi2 & (F1 & F2 & F3) & Hps & Hk & Hc); [lia|].
    rewrite E2. exists (pos :: ps), m2, d2. unfold same_files. rewrite F1, F2, F3, <- Hb, <- Hu, <- Hg. split_and!; try done.
    + simpl. by rewrite Hlen.
    + cbn [map zip_with rev]. by rewrite <- app_assoc.
    + by constructor.
    + intros k Hn. rewrite Hk by done. by eapply write_block_frame; [|rewrite <- Hb].
    + cbn [length]. lia.
Qed.

Lemma write_index_ok w pos : write_ok w -> flatpos_ok pos -> block_index_ok (write_index w pos).
Proof.
  destruct w as [[[hdr h] work] raw]. intros (H1 & H2 & H3 & _) Hp. unfold block_index_ok. cbn. split_and!; done.
Qed.

Lemma index_inv_mono log log' i : (forall x, x ∈ log.*1 -> x ∈ log'.*1) -> index_inv log i -> index_inv log' i.
Proof. intros H [Ho Hl]. split; [done|]. intros pos Hp. by apply H, Hl. Qed.

Lemma undo_inv_frame m m' d d' n l : bf_undo m' = bf_undo m -> bf_magic m' = bf_magic m ->
  d' !! path (bf_undo m) n = d !! path (bf_undo m) n -> undo_inv m d n l -> undo_inv m' d' n l.
Proof. intros Hu Hg Hd. unfold undo_inv. by rewrite Hu, Hg, Hd. Qed.

(** The block files may grow under the store. *)
Lemma store_inv_append s log m d log' h :
  store_inv s log -> log_inv m d (log' ++ log) -> Forall (fun p => Z.of_nat (length p.2) < 2 ^ 32) log' ->
  same_files m (bfm s) -> (forall k, (forall n, k <> path (bf_blocks (bfm s)) n) -> d !! k = disk s !! k) ->
  store_inv (with_files s d (with_tip_height (with_file_manager (worker s) m) h)) (log' ++ log).
Proof.
  intros [H1 H2 H3 H4 H5 H6 H7] Hl Hs (F1 & F2 & F3) Hk. destruct H3 as (R1 & R2 & R3).
  assert (forall x, x ∈ log.*1 -> x ∈ (log' ++ log).*1) as Hin by (intros x Hx; rewrite fmap_app; apply elem_of_app; by right).
  split; cbn [disk reader worker with_files with_tip_height with_file_manager block_file_manager undo_sizes pending_undo_indexes].
  - done.
  - by apply Forall_app.
  - unfold same_files. by rewrite F1, F2, F3.
  - by rewrite F3.
  - intros n Hn. destruct (H5 n Hn) as (l & Hu & Hsz). exists l. rewrite F3. split; [|done].
    apply (undo_inv_frame (bfm s) m (disk s)); try done. apply Hk. intros k E. symmetry in E. by apply path_blk_rev in E; [|apply H1].
  - intros hash i Hi. apply (index_inv_mono log); [done|]. by apply (H6 hash).
  - intros hash i Hi. apply (index_inv_mono log); [done|]. by apply (H7 hash).
Qed.

Lemma write_entries_elem blocks ps p : p ∈ write_entries blocks ps ->
  exists w pos, (w, pos) ∈ zip blocks ps /\ p = (write_hash w, write_index w pos).
Proof.
  unfold write_entries. intros [i Hi]%list_elem_of_lookup. apply lookup_zip_with_Some in Hi as (w & pos & -> & H1 & H2).
  exists w, pos. split; [|done]. apply list_elem_of_lookup. exists i. apply lookup_zip_with_Some. eauto.
Qed.

Definition blocks_ops (m : BlockFileManager) (known : Z) (entries : list (BlockHash * BlockIndex)) : list WriteOp :=
  entries_ops entries ++ [Put CHAIN_META [KEY_LAST_FILE] (le_bytes 4 (current_file m))] ++
  match highest_tip known entries with Some (_, hash) => [Put UTXOS [KEY_BLOCK_TIP] hash] | None => [] end.

Lemma blocks_ops_index m known entries hash :
  ops_effect BLOCK_INDEX (block_key hash) (blocks_ops m known entries) = ops_effect BLOCK_INDEX (block_key hash) (entries_ops entries).
Proof. unfold blocks_ops. rewrite !ops_effect_app. destruct (highest_tip _ _) as [[? ?]|]; by no_effect. Qed.
Lemma blocks_ops_coin m known entries o :
  ops_effect UTXOS (coin_key o) (blocks_ops m known entries) = None.
Proof.
  unfold blocks_ops. rewrite !ops_effect_app, entries_ops_utxos. destruct (highest_tip _ _) as [[? ?]|]; by no_effect.
Qed.
Lemma blocks_ops_best m known entries :
  ops_effect UTXOS [KEY_BEST_BLOCK] (blocks_ops m known entries) = None.
Proof.
  unfold blocks_ops. rewrite !ops_effect_app, entries_ops_utxos. destruct (highest_tip _ _) as [[? ?]|]; by no_effect.
Qed.

(** What a committed batch of block writes leaves: the log grows by the blocks,
    and the index holds the last write of each hash; a failed one leaves the appended
    files, and the known tip height as far as the calls got. *)
Lemma handle_store_blocks_spec s log blocks : store_inv s log -> Forall write_ok blocks ->
  current_file (bfm s) + Z.of_nat (length blocks) < 2 ^ 32 ->
  exists ps m d (s_at := fun tip => with_files s d (with_tip_height (with_file_manager (worker s) m) tip)) tip tip',
    length ps = length blocks /\ Forall flatpos_ok ps /\
    (forall tip, store_inv (s_at tip) (rev (zip ps (map write_raw blocks)) ++ log)) /\
    handle_store_blocks s blocks = match commit_batch (s_at tip) (blocks_ops m (last_known_tip_height (worker s)) (write_entries blocks ps)) with
      | (Ok _, s') => (Ok ps, s') | (Err e, _) => (Err e, s_at tip') end.
Proof.
  intros Hi Hok Hlt. destruct (append_blocks_log blocks (bfm s) (disk s) log) as (ps & m & d & E & Hlen & Hl & Hf & Hps & Hk & _);
    [apply Hi|done..|].
  set (known := last_known_tip_height (worker s)). set (tip := match highest_tip known (write_entries blocks ps) with Some (h, _) => h | None => known end).
  set (ops := blocks_ops m known (write_entries blocks ps)).
  exists ps, m, d, tip, (if (length ops <=? kv_staged (backend s) ops)%nat then tip else known). split; [done|]. split; [done|]. cbv zeta. split.
  - intros t. apply store_inv_append; try done. apply Forall_rev, Forall_forall. intros [pos raw] H. apply elem_of_zip_r in H.
    apply list_elem_of_fmap in H as (w & -> & Hw). rewrite Forall_forall in Hok. apply Hok in Hw.
    destruct w as [[[? ?] ?] ?]. apply Hw.
  - unfold handle_store_blocks. rewrite E. cbn [worker with_files with_file_manager last_known_tip_height]. fold known. subst tip ops.
    unfold blocks_ops, entries_ops. destruct (highest_tip _ _) as [[h hash]|]; destruct (_ <=? _)%nat; by destruct (commit_batch _ _) as [[]].
Qed.

Lemma read_pair s log pos raw : store_inv s log -> (pos, raw) ∈ log -> read_block (reader s) (disk s) pos = Ok raw.
Proof.
  intros Hi Hp. unfold read_block. destruct (si_reader _ _ Hi) as (-> & _).
  apply (read_block_logged _ _ log); [apply Hi|done|].
  pose proof (si_small _ _ Hi) as Hs. rewrite Forall_forall in Hs. by apply (Hs _ Hp).
Qed.

Lemma entries_get s s' ops entries hash : commit_batch s ops = (Ok tt, s') ->
  ops_effect BLOCK_INDEX (block_key hash) ops = ops_effect BLOCK_INDEX (block_key hash) (entries_ops entries) ->
  Forall (fun p => block_index_ok p.2) entries ->
  get_block_index s' hash = match list_find (fun p => p.1 = hash) (reverse entries) with
    | Some (_, p) => Ok (Some p.2) | None => get_block_index s hash end.
Proof.
  intros E Ho Hok. apply commit_batch_ok in E as (Hk & _). specialize (Hk BLOCK_INDEX (block_key hash)).
  rewrite Ho, entries_ops_index in Hk. destruct (list_find _ _) as [[j p]|] eqn:F; [|by apply get_block_index_ext].
  apply get_block_index_written; [|done]. apply list_find_Some in F as (Hj & _ & _).
  rewrite Forall_forall in Hok. apply Hok. apply list_elem_of_lookup_2 in Hj. by rewrite elem_of_reverse in Hj.
Qed.

Lemma write_entries_ok blocks ps : Forall write_ok blocks -> Forall flatpos_ok ps ->
  Forall (fun p => block_index_ok p.2) (write_entries blocks ps).
Proof.
  intros Hb Hp. apply Forall_forall. intros p (w & pos & Hz & ->)%write_entries_elem. cbn [snd].
  rewrite Forall_forall in Hb. rewrite Forall_forall in Hp. apply write_index_ok; [apply Hb; by eapply elem_of_zip_l | apply Hp; by eapply elem_of_zip_r].
Qed.

Lemma find_no_entry blocks ps hash : hash ∉ map write_hash blocks ->
  list_find (fun p => p.1 = hash) (reverse (write_entries blocks ps)) = None.
Proof.
  intros Hn. apply list_find_None, Forall_forall. intros p Hp. rewrite elem_of_reverse in Hp. apply write_entries_elem in Hp as (w & pos & Hz & ->).
  cbn. intros <-. apply Hn, list_elem_of_fmap. exists w. split; [done|]. by eapply elem_of_zip_l.
Qed.

(** The last of the blocks of a batch that have its hash. *)
Definition last_copy (blocks : list BlockWrite) (w : BlockWrite) : Prop :=
  exists before after, blocks = before ++ w :: after /\ write_hash w ∉ map write_hash after.
Lemma distinct_last_copy blocks w : NoDup (map write_hash blocks) -> w ∈ blocks -> last_copy blocks w.
Proof.
  intros Hnd (l1 & l2 & ->)%list_elem_of_split. exists l1, l2. split; [done|]. rewrite map_app in Hnd. apply NoDup_app in Hnd as (_ & _ & Hnd).
  cbn [map] in Hnd. by apply NoDup_cons in Hnd as [? _].
Qed.

(** The entry of a hash is the one of the last block written for it. *)
Lemma find_last_entry blocks ps w : last_copy blocks w -> length ps = length blocks ->
  exists j pos, list_find (fun p => p.1 = write_hash w) (reverse (write_entries blocks ps)) = Some (j, (write_hash w, write_index w pos)) /\
    (pos, write_raw w) ∈ zip ps (map write_raw blocks).
Proof.
  intros (l1 & l2 & -> & Hn) Hlen. rewrite length_app in Hlen. cbn [length] in Hlen. rewrite <- (take_drop (length l1) ps).
  assert (length (take (length l1) ps) = length l1) as H1 by (rewrite length_take; lia).
  destruct (drop (length l1) ps) as [|pos ps2] eqn:Ed; [apply (f_equal length) in Ed; rewrite length_drop in Ed; simpl in Ed; lia|].
  unfold write_entries. rewrite zip_with_app by done. cbn [zip_with]. rewrite reverse_app, reverse_cons, <- app_assoc.
  pose proof (find_no_entry l2 ps2 (write_hash w) Hn) as Hf. unfold write_entries in Hf. rewrite list_find_app_r by done. cbn [app list_find].
  rewrite decide_True by done. cbn [fmap option_fmap option_map prod_map]. eexists _, pos. split; [done|].
  rewrite map_app, zip_with_app by (by rewrite length_map). cbn [map zip_with]. apply elem_of_app. right. left.
Qed.
Lemma find_entry blocks ps w : NoDup (map write_hash blocks) -> length ps = length blocks -> w ∈ blocks ->
  exists j pos, list_find (fun p => p.1 = write_hash w) (reverse (write_entries blocks ps)) = Some (j, (write_hash w, write_index w pos)) /\
    (pos, write_raw w) ∈ zip ps (map write_raw blocks).
Proof. intros Hnd Hlen Hw. apply find_last_entry; [by apply distinct_last_copy|done]. Qed.

Lemma store_inv_blocks s log blocks : store_inv s log -> Forall write_ok blocks ->
  current_file (bfm s) + Z.of_nat (length blocks) < 2 ^ 32 ->
  exists log', store_inv (handle_store_blocks s blocks).2 (log' ++ log).
Proof.
  intros Hi Hok Hlt. destruct (handle_store_blocks_spec s log blocks Hi Hok Hlt) as (ps & m & d & tip & tip' & Hlen & Hps & Hi1 & ->).
  set (s1 := with_files s d (with_tip_height _ tip)) in *. exists (rev (zip ps (map write_raw blocks))).
  destruct (commit_batch s1 _) as [[[]|e] s'] eqn:E; cbn [snd]; [|apply Hi1].
  specialize (Hi1 tip). fold s1 in Hi1. eapply store_inv_batch; [exact Hi1|exact E|]. intros hash i Hget.
  rewrite (entries_get s1 s' _ (write_entries blocks ps) hash E) in Hget; [|apply blocks_ops_index|by apply write_entries_ok].
  destruct (list_find _ _) as [[j p]|] eqn:F; [|by apply (si_index _ _ Hi1 hash)].
  injection Hget as <-. pose proof (write_entries_ok blocks ps Hok Hps) as He. apply list_find_Some in F as (Hj & _ & _). apply list_elem_of_lookup_2 in Hj. rewrite elem_of_reverse in Hj.
  rewrite Forall_forall in He. split; [by apply He|].
  apply write_entries_elem in Hj as (w & pos & [k Hz]%list_elem_of_lookup & ->). apply lookup_zip_with_Some in Hz as (w' & pos' & [= <- <-] & H1 & H2).
  intros q Hq. destruct w as [[[? ?] ?] raw]. injection Hq as <-. apply list_elem_of_fmap. exists (pos, raw). split; [done|].
  apply elem_of_app. left. apply elem_of_rev, list_elem_of_lookup. exists k. apply lookup_zip_with_Some. exists pos, raw.
  split; [done|]. split; [done|]. by rewrite list_lookup_fmap, H1.
Qed.

(** Coins are untouched by a batch that writes none of their keys. *)
Lemma coins_frame s s' ops : commit_batch s ops = (Ok tt, s') ->
  (forall o, ops_effect UTXOS (coin_key o) ops = None) -> forall o, get_coin s' o = get_coin s o.
Proof.
  intros E Hn o. apply commit_batch_ok in E as (Hk & _). cbn. unfold store_get_coin. by rewrite Hk, Hn.
Qed.
Lemma best_frame s s' ops : commit_batch s ops = (Ok tt, s') ->
  ops_effect UTXOS [KEY_BEST_BLOCK] ops = None -> get_best_block s' = get_best_block s.
Proof. intros E Hn. apply commit_batch_ok in E as (Hk & _). cbn. unfold store_get_best_block, get_hash. by rewrite Hk, Hn. Qed.

Lemma store_blocks_coins s log blocks : store_inv s log -> Forall write_ok blocks ->
  current_file (bfm s) + Z.of_nat (length blocks) < 2 ^ 32 -> forall o, get_coin (handle_store_blocks s blocks).2 o = get_coin s o.
Proof.
  intros Hi Hok Hlt o. destruct (handle_store_blocks_spec s log blocks Hi Hok Hlt) as (ps & m & d & tip & tip' & _ & _ & _ & ->).
  set (s1 := with_files s d (with_tip_height _ tip)). destruct (commit_batch s1 _) as [[[]|e] s2] eqn:E; cbn [snd].
  - rewrite (coins_frame s1 s2 _ E); [done|]. intros o'. apply blocks_ops_coin.
  - done.
Qed.

(** Reading after a batch. *)
Lemma stored_blocks_read (s : Store B) (log : list (FlatFilePos * bytes)) (blocks : list BlockWrite)
    (ps : list FlatFilePos) (s' : Store B) :
  store_inv s log -> Forall write_ok blocks ->
  current_file (block_file_manager (worker s)) + Z.of_nat (length blocks) < 2 ^ 32 ->
  handle_store_blocks s blocks = (Ok ps, s') ->
  (forall w, last_copy blocks w -> get_block s' (write_hash w) = Ok (Some (write_raw w))) /\
  (forall hash, hash ∉ map write_hash blocks -> get_block s' hash = get_block s hash) /\
  (forall o, get_coin s' o = get_coin s o).
Proof.
  intros Hi Hok Hlt H. pose proof (store_inv_blocks s log blocks Hi Hok Hlt) as [log2 Hi2].
  destruct (handle_store_blocks_spec s log blocks Hi Hok Hlt) as (ps' & m & d & tip & tip' & Hlen & Hps & Hi1 & E1).
  rewrite H in E1, Hi2. cbn [snd] in Hi2. set (s1 := with_files s d (with_tip_height _ tip)) in *. specialize (Hi1 tip). fold s1 in Hi1.
  destruct (commit_batch s1 _) as [[[]|e] s2] eqn:E; [|done]. injection E1 as <- <-.
  assert (disk s' = disk s1 /\ reader s' = reader s1) as [Hd Hr] by (by apply commit_batch_ok in E as (_ & ? & ? & _)).
  assert (forall hash, get_block_index s' hash = match list_find (fun p => p.1 = hash) (reverse (write_entries blocks ps)) with
    | Some (_, p) => Ok (Some p.2) | None => get_block_index s hash end) as Hget.
  { intros hash. rewrite (entries_get s1 s' _ (write_entries blocks ps) hash E); [done|apply blocks_ops_index|by apply write_entries_ok]. }
  split_and!.
  - intros w Hw. unfold get_block. rewrite Hget. destruct (find_last_entry blocks ps w Hw Hlen) as (j & pos & -> & Hz).
    simpl rbind. destruct w as [[[? ?] ?] raw]. cbn [file_pos write_index snd]. rewrite Hd, Hr.
    rewrite (read_pair s1 _ pos raw Hi1); [done|]. apply elem_of_app. left. by apply elem_of_rev.
  - intros hash Hn. unfold get_block. rewrite Hget, find_no_entry by done.
    destruct (get_block_index s hash) as [[i|]|] eqn:Ei; simpl; [|done..]. destruct (file_pos i) as [pos|] eqn:Ep; [|done].
    pose proof (proj2 (si_index _ _ Hi _ _ Ei) pos Ep) as Hpos. destruct (logged_read s log pos Hi Hpos) as (raw & Hraw & ->).
    rewrite Hd, Hr, (read_pair s1 _ pos raw Hi1); [done|]. apply elem_of_app. by right.
  - intros o. rewrite <- (store_blocks_coins s log blocks Hi Hok Hlt o). by rewrite H.
Qed.

(** C30: After the worker acknowledges a batch of blocks, the block read back under a
    hash is, with its own bytes, the last one of the batch that has the hash, and
    where the batch has none the block stored before; so a block is read back as it
    was sent unless a later block of the batch or a later batch has the same hash
    (the hash leaves out the witness data), and then the later copy is.  The coins
    are untouched.  The store is a consistent one, the blocks and their headers have
    the widths of their types, and the number of files stays within 32 bits. *)
Theorem store_blocks_retrievable (s : Store B) (log : list (FlatFilePos * bytes)) (blocks : list BlockWrite)
    (ps : list FlatFilePos) (s' : Store B) :
  store_inv s log -> Forall write_ok blocks ->
  current_file (block_file_manager (worker s)) + Z.of_nat (length blocks) < 2 ^ 32 ->
  handle_store_blocks s blocks = (Ok ps, s') ->
  (forall w, last_copy blocks w -> get_block s' (write_hash w) = Ok (Some (write_raw w))) /\
  (forall hash, hash ∉ map write_hash blocks -> get_block s' hash = get_block s hash) /\
  (forall o, get_coin s' o = get_coin s o).
Proof. apply stored_blocks_read. Qed.

(** ** Undo data *)

Lemma undo_index_written s hash i log : store_inv s log -> undo_index s hash = Ok i -> index_inv log i.
Proof.
  intros Hi. unfold undo_index. destruct (pending_undo_indexes _ !! hash) as [i'|] eqn:E.
  - intros [= <-]. by apply (si_pending _ _ Hi _ _ E).
  - destruct (kv_get _ _ _) as [[b|]|] eqn:Ek; simpl; try done. unfold decode_exact.
    destruct (decode_BlockIndex _) as [[x d]|] eqn:Ed; simpl; [|done]. destruct (finish d _) as [[]|] eqn:Ef; simpl; [|done].
    intros [= ->]. apply (si_index _ _ Hi hash). unfold get_block_index. rewrite Ek. simpl. rewrite Ed. simpl. by rewrite Ef.
Qed.

Lemma logged_file s log pos : store_inv s log -> pos ∈ log.*1 -> u32_ok (ff_file pos).
Proof.
  intros Hi [[p raw] [-> Hp]]%list_elem_of_fmap. destruct (si_log _ _ Hi) as [_ _ [_ Hc] _ Hst]. rewrite Forall_forall in Hst.
  destruct (Hst _ Hp) as (_ & Hf & _). unfold u32_ok in *. simpl in *. lia.
Qed.

(** Where the next undo record of a file goes. *)
Definition undo_cursor s (n : Z) : Z :=
  match undo_sizes (worker s) !! n with Some size => size | None => undo_used_size (bfm s) (disk s) n end.

(** The position of the record fits its 32-bit offset. *)
Definition undo_fits s (hash : BlockHash) : Prop :=
  forall i pos, undo_index s hash = Ok i -> file_pos i = Some pos -> undo_cursor s (ff_file pos) + 8 < 2 ^ 32.

Lemma undo_cursor_inv s log n : store_inv s log -> u32_ok n ->
  exists l, undo_inv (bfm s) (disk s) n l /\ undo_cursor s n = undo_len (bfm s) l.
Proof.
  intros Hi Hn. destruct (si_undo _ _ Hi n Hn) as (l & Hu & Hs). exists l. split; [done|]. unfold undo_cursor.
  destruct (undo_sizes _ !! n) as [size|] eqn:E; [by apply Hs|].
  apply undo_used_size_inv; [apply (si_log _ _ Hi)|apply (si_magic _ _ Hi)|done].
Qed.

Definition with_undo (i : BlockIndex) (pos : FlatFilePos) : BlockIndex :=
  mkBlockIndex (bi_header i) (bi_height i) (chain_work i) (file_pos i) (Some pos).

Lemma store_undo_err s hash undo s' e : handle_store_undo s hash undo = (Err e, s') -> s' = s.
Proof.
  unfold handle_store_undo. destruct (rbind _ _) as [[i pos]|]; [|by intros [= _ ->]].
  by destruct (write_undo _ _ _ _ _) as [[? ?] ?].
Qed.

Lemma store_undo_spec s log hash undo s' : store_inv s log -> undo_ok undo ->
  Z.of_nat (length (serialize encode_BlockUndo undo)) < 2 ^ 32 -> undo_fits s hash ->
  handle_store_undo s hash undo = (Ok tt, s') ->
  exists i pos, undo_index s hash = Ok i /\ pending_undo_indexes (worker s') !! hash = Some (with_undo i pos) /\
    (forall h, h <> hash -> pending_undo_indexes (worker s') !! h = pending_undo_indexes (worker s) !! h) /\
    read_undo (reader s') (disk s') pos = Ok (serialize encode_BlockUndo undo) /\ store_inv s' log /\ backend s' = backend s.
Proof.
  intros Hi Hu Hsz Hcur. unfold handle_store_undo. destruct (undo_index s hash) as [i|] eqn:Ei; simpl rbind; [|done].
  pose proof (undo_index_written _ _ _ _ Hi Ei) as [Hiok Hlg]. destruct (file_pos i) as [bp|] eqn:Ep; simpl rbind; [|done].
  assert (u32_ok (ff_file bp)) as Hn by (by apply (logged_file s log); [|apply Hlg]).
  destruct (undo_cursor_inv s log _ Hi Hn) as (l & Hul & Ecur). pose proof (Hcur i bp Ei Ep) as Hc.
  cbv zeta. change (match undo_sizes (worker s) !! ff_file bp with Some size => size | None => undo_used_size (bfm s) (disk s) (ff_file bp) end)
    with (undo_cursor s (ff_file bp)). rewrite Ecur in *. assert (record_ok (serialize encode_BlockUndo undo)) as Hrec
    by (split; [by apply (wire_nonempty (WireCodec := BlockUndo_codec))|done]).
  pose proof (si_log _ _ Hi) as Hlog. pose proof Hlog as [Hlay Hdk _ _ _].
  destruct (write_undo_log (bfm s) (disk s) (ff_file bp) l [] (serialize encode_BlockUndo undo)) as (d & -> & (_ & Hdk' & Hul' & Hst) & Hk); try done.
  intros [= <-]. eexists i, _. cbn [worker with_files pending_undo_indexes reader disk backend]. rewrite lookup_insert_eq.
  assert (forall n, d !! path (bf_blocks (bfm s)) n = disk s !! path (bf_blocks (bfm s)) n) as Hblk
    by (intros n; apply Hk; by apply path_blk_rev).
  split; [done|]. split; [done|]. split; [intros h Hh; by rewrite lookup_insert_ne|]. split_and!; [| |done].
  - unfold read_undo. destruct (si_reader _ _ Hi) as (_ & -> & _). apply Forall_cons in Hst as [[Hs _] _].
    apply (read_record_stored (bfm s)); [apply Hlay|done|exact Hs].
  - destruct Hi as [H1 H2 H3 H4 H5 H6 H7]. split; cbn [worker with_files pending_undo_indexes reader disk block_file_manager undo_sizes]; try done.
    + by apply (log_inv_frame _ (disk s)).
    + intros n Hn'. destruct (decide (n = ff_file bp)) as [->|Hne].
      * eexists. split; [exact Hul'|]. intros size. rewrite lookup_insert_eq. by intros [= <-].
      * destruct (H5 n Hn') as (l' & Hl' & Hsz'). exists l'. split; [|by rewrite lookup_insert_ne by done].
        eapply undo_inv_frame; [done|done| |exact Hl']. apply Hk. intros E. apply path_inj in E; done.
    + intros h j. destruct (decide (h = hash)) as [->|Hne]; [|rewrite lookup_insert_ne by done; apply H7].
      rewrite lookup_insert_eq. intros [= <-]. split; [|intros q; cbn [file_pos]; rewrite Ep; intros [= <-]; by apply Hlg].
      destruct Hiok as (? & ? & ? & ? & ?). unfold block_index_ok. cbn. split_and!; try done. split; cbn; [done|].
      unfold u32_ok. lia.
Qed.

Lemma utxo_ops_index w coins best conn hash :
  ops_effect BLOCK_INDEX (block_key hash) (utxo_ops w coins best conn) =
  (fun i => Some (serialize encode_BlockIndex i)) <$> (pending_undo_indexes w !! hash).
Proof.
  unfold utxo_ops. rewrite !ops_effect_app.
  rewrite (ops_effect_none _ _ (map _ conn)) by (apply Forall_map, Forall_forall; intros p _; by apply op_effect_miss; key_ne).
  rewrite (keyed_ops_effect _ BLOCK_INDEX block_key (fun i => Some (serialize encode_BlockIndex i)) (fun _ => True)); [|done| |done|done].
  2: { intros a b _ _. apply block_key_inj. }
  destruct (pending_undo_indexes w !! hash); [done|]. cbn [fmap option_fmap option_map].
  rewrite (ops_effect_none _ _ (coin_ops _)).
  - destruct best; by no_effect.
  - apply Forall_map, Forall_forall. intros [o [c|]] _; [apply op_effect_miss|apply op_effect_miss_delete]; key_ne.
Qed.

Lemma update_utxo_index s coins best conn s' hash log : store_inv s log -> handle_update_utxo_set s coins best conn = (Ok tt, s') ->
  get_block_index s' hash = match pending_undo_indexes (worker s) !! hash with Some i => Ok (Some i) | None => get_block_index s hash end.
Proof.
  intros Hi E. apply update_utxo_set_ok in E as (Hk & _). specialize (Hk BLOCK_INDEX (block_key hash)). rewrite utxo_ops_index in Hk.
  destruct (pending_undo_indexes _ !! hash) as [i|] eqn:Ep; cbn in Hk; [|by apply get_block_index_ext].
  apply get_block_index_written; [|done]. by apply (si_pending _ _ Hi _ _ Ep).
Qed.

Lemma store_inv_utxos s log coins best conn : store_inv s log -> store_inv (handle_update_utxo_set s coins best conn).2 log.
Proof.
  intros Hi. destruct (handle_update_utxo_set s coins best conn) as [[[]|e] s'] eqn:E; cbn [snd].
  - assert (forall hash i, get_block_index s' hash = Ok (Some i) -> index_inv log i) as Hx.
    { intros hash i. rewrite (update_utxo_index s coins best conn s' hash log Hi E).
      destruct (pending_undo_indexes _ !! hash) as [j|] eqn:Ep; [intros [= <-]; by apply (si_pending _ _ Hi _ _ Ep)|by apply (si_index _ _ Hi)]. }
    apply update_utxo_set_ok in E as (_ & Hd & Hr & Hm & Hs & Hp). destruct Hi as [H1 H2 H3 H4 H5 H6 H7].
    split; rewrite ?Hd, ?Hr, ?Hm, ?Hs, ?Hp; try done.
  - apply update_utxo_set_err in E as [h ->]. by destruct Hi.
Qed.

(** Undo data stored for a block is in its index record after the next
    flush, and decodes to what was stored. *)
Lemma undo_recorded (s : Store B) (log : list (FlatFilePos * bytes)) (hash : BlockHash) (undo : BlockUndo) (s1 s2 : Store B)
    (coins : gmap OutPoint CoinUpdate) (best : option BlockHash) (conn : list (Z * BlockHash)) :
  store_inv s log -> undo_ok undo -> Z.of_nat (length (serialize encode_BlockUndo undo)) < 2 ^ 32 ->
  undo_fits s hash ->
  handle_store_undo s hash undo = (Ok tt, s1) -> handle_update_utxo_set s1 coins best conn = (Ok tt, s2) ->
  exists i pos data, get_block_index s2 hash = Ok (Some i) /\ undo_pos i = Some pos /\
    read_undo (reader s2) (disk s2) pos = Ok data /\ decode_exact decode_BlockUndo data "BlockUndo" = Ok undo.
Proof.
  intros Hi Hu Hsz Hcur E1 E2. destruct (store_undo_spec s log hash undo s1 Hi Hu Hsz Hcur E1) as (i & pos & Ei & Hp & _ & Hrd & Hi1 & Hb).
  exists (with_undo i pos), pos, (serialize encode_BlockUndo undo).
  rewrite (update_utxo_index s1 coins best conn s2 hash log Hi1 E2), Hp. apply update_utxo_set_ok in E2 as (_ & -> & -> & _).
  split_and!; [done..|]. by apply (decode_exact_serialize encode_BlockUndo decode_BlockUndo undo_ok).
Qed.

(** ** What single writes make readable *)

Lemma get_hash_ext s s' t k : kv_get (backend s') t k = kv_get (backend s) t k -> get_hash s' t k = get_hash s t k.
Proof. intros H. unfold get_hash. by rewrite H. Qed.

Lemma store_block_index_effects s hash i s' : handle_store_block_index s hash i = (Ok tt, s') -> block_index_ok i -> length hash = 32%nat ->
  get_block_index s' hash = Ok (Some i) /\ (forall h, h <> hash -> get_block_index s' h = get_block_index s h) /\
  get_block_hash_by_header_height s' (bi_height i) = Ok (Some hash) /\ get_headers_tip s' = get_headers_tip s /\
  (forall n, get_block_hash s' n = get_block_hash s n) /\ store_get_best_block s' = store_get_best_block s.
Proof.
  intros E Hi Hl. apply commit_batch_ok in E as (Hk & _). split_and!.
  - apply get_block_index_written; [done|]. by rewrite Hk, index_ops_index, decide_True.
  - intros h Hne. apply get_block_index_ext. by rewrite Hk, index_ops_index, decide_False.
  - apply get_hash_written; [done|]. rewrite Hk. unfold index_ops. by rewrite !ops_effect_cons, ops_effect_nil, op_effect_hit.
  - apply get_hash_ext. rewrite Hk. unfold index_ops. by no_effect.
  - intros n. apply get_hash_ext. rewrite Hk. unfold index_ops. by no_effect.
  - apply get_hash_ext. rewrite Hk. unfold index_ops. by no_effect.
Qed.
Lemma store_block_index_coins s hash i s' : handle_store_block_index s hash i = (Ok tt, s') -> forall o, get_coin s' o = get_coin s o.
Proof. intros E. apply (coins_frame s s' _ E). intros o. unfold index_ops. by no_effect. Qed.

(** Writing one hash under one key of a table other than the index. *)
Lemma put_hash_effects s t k hash s' : commit_batch s [Put t k hash] = (Ok tt, s') -> t <> BLOCK_INDEX -> length hash = 32%nat ->
  get_hash s' t k = Ok (Some hash) /\ (forall t' k', (t', k') <> (t, k) -> get_hash s' t' k' = get_hash s t' k') /\
  (forall h, get_block_index s' h = get_block_index s h).
Proof.
  intros E Ht Hl. apply commit_batch_ok in E as (Hk & _). split_and!.
  - apply get_hash_written; [done|]. by rewrite Hk, ops_effect_cons, ops_effect_nil, op_effect_hit.
  - intros t' k' Hne. apply get_hash_ext. rewrite Hk, ops_effect_cons, ops_effect_nil, op_effect_miss; [done|]. congruence.
  - intros h. apply get_block_index_ext. rewrite Hk, ops_effect_cons, ops_effect_nil, op_effect_miss; [done|]. congruence.
Qed.

(** ** The worker's rounds *)

(** What the senders of messages guarantee in state [s]. *)
Definition message_ok s log (msg : WriteMessage) : Prop :=
  match msg with
  | StoreHeader hdr height work _ => header_ok hdr /\ u32_ok height /\ hash_ok work
  | StoreBlock w => write_ok w
  | StoreBlockIndex _ index => index_inv log index
  | StoreBlockIndexes indexes _ => Forall (fun p => index_inv log p.2) indexes
  | StoreUndo hash undo => undo_ok undo /\ Z.of_nat (length (serialize encode_BlockUndo undo)) < 2 ^ 32 /\
      undo_fits s hash
  | _ => True
  end.

Lemma store_inv_index_batch s log ops entries : store_inv s log -> Forall (fun p => index_inv log p.2) entries ->
  (forall hash, ops_effect BLOCK_INDEX (block_key hash) ops = ops_effect BLOCK_INDEX (block_key hash) (entries_ops entries)) ->
  store_inv (commit_batch s ops).2 log.
Proof.
  intros Hi He Hops. destruct (commit_batch s ops) as [[[]|e] s'] eqn:E; cbn [snd]; [|by apply commit_batch_err in E as ->].
  eapply store_inv_batch; [exact Hi|exact E|]. intros hash i.
  rewrite (entries_get s s' ops entries hash E); [|done|eapply Forall_impl; [exact He|]; by intros ? [? _]].
  destruct (list_find _ _) as [[j p]|] eqn:F; [|by apply (si_index _ _ Hi)]. intros [= <-].
  apply list_find_Some in F as (Hj & _ & _). apply list_elem_of_lookup_2 in Hj. rewrite elem_of_reverse in Hj.
  rewrite Forall_forall in He. by apply He.
Qed.
Lemma store_inv_other_batch s log ops : store_inv s log -> (forall hash, ops_effect BLOCK_INDEX (block_key hash) ops = None) ->
  store_inv (commit_batch s ops).2 log.
Proof. intros Hi Hops. by apply (store_inv_index_batch s log ops []). Qed.

Lemma store_inv_delete s log hash : store_inv s log -> store_inv (handle_delete_block s hash).2 log.
Proof.
  intros Hi. unfold handle_delete_block. destruct (commit_batch s _) as [[[]|e] s'] eqn:E; cbn [snd]; [|by apply commit_batch_err in E as ->].
  eapply store_inv_batch; [exact Hi|exact E|]. intros h i Hget. apply commit_batch_ok in E as (Hk & _).
  specialize (Hk BLOCK_INDEX (block_key h)). rewrite ops_effect_cons, ops_effect_nil in Hk. cbn in Hk. case_bool_decide as Eh.
  - unfold get_block_index in Hget. by rewrite Hk in Hget.
  - rewrite (get_block_index_ext s) in Hget by done. by apply (si_index _ _ Hi h).
Qed.

Lemma store_inv_header s log hdr height work is_best : store_inv s log -> header_ok hdr -> u32_ok height -> hash_ok work ->
  store_inv (handle_store_header s hdr height work is_best).2 log.
Proof.
  intros Hi Hh Hn Hw. unfold handle_store_header, handle_store_block_index.
  assert (store_inv (commit_batch s (index_ops (block_hash hdr) (mkBlockIndex hdr height work None None))).2 log) as H1.
  { apply (store_inv_index_batch s log _ [(block_hash hdr, mkBlockIndex hdr height work None None)]); [done| |].
    - constructor; [|constructor]. split; [|done]. unfold block_index_ok. cbn. split_and!; done.
    - intros h. unfold entries_ops. cbn [map concat]. by rewrite app_nil_r. }
  destruct (commit_batch s _) as [[[]|e] s1]; cbn [snd] in *; [|done]. destruct is_best; [|done].
  apply store_inv_other_batch; [done|]. intros h. by no_effect.
Qed.

Lemma store_inv_message s log msg r s' : store_inv s log -> message_ok s log msg -> handle_message s msg = Some (r, s') -> store_inv s' log.
Proof.
  intros Hi Hm H. assert (forall x : result unit StoreError * Store B, Some x = Some (r, s') -> x.2 = s') as Hx by (by intros x [= ->]).
  destruct msg; cbn [handle_message message_ok] in *; try done; apply Hx in H as <-.
  - destruct Hm as (? & ? & ?). by apply store_inv_header.
  - apply (store_inv_index_batch s log _ [(hash, index)]); [done|by apply Forall_singleton|].
    intros h. unfold entries_ops. cbn [map concat]. by rewrite app_nil_r.
  - apply (store_inv_index_batch s log _ indexes); [done..|]. intros h. rewrite ops_effect_app. by destruct best_tip; no_effect.
  - destruct Hm as (? & ? & ?). destruct (handle_store_undo s hash undo_data) as [[[]|e] s1] eqn:E; cbn [snd].
    + by destruct (store_undo_spec s log hash undo_data s1) as (? & ? & _ & _ & _ & _ & ? & _).
    + by apply store_undo_err in E as ->.
  - by apply store_inv_utxos.
  - apply store_inv_other_batch; [done|]. intros h. by no_effect.
  - apply store_inv_other_batch; [done|]. intros h. by no_effect.
  - by apply store_inv_delete.
  - apply store_inv_other_batch; [done|]. intros h. by no_effect.
  - apply store_inv_other_batch; [done|]. intros h. by no_effect.
  - done.
Qed.

(** A round of the write worker takes messages from the front of the
    mailbox, answers each of them once, and keeps the store's invariant: every
    indexed block stays readable and the undo files stay exact, also when the
    backend refuses the batch. *)
Lemma worker_step_sound (s : Store B) (mailbox : list WriteMessage) (rs : list Reply) (s' : Store B) (mailbox' : list WriteMessage)
    (log : list (FlatFilePos * bytes)) :
  worker_step (s, mailbox) rs (s', mailbox') -> store_inv s log -> Forall (message_ok s log) mailbox ->
  current_file (block_file_manager (worker s)) + Z.of_nat (length mailbox) < 2 ^ 32 ->
  exists handled log', mailbox = handled ++ mailbox' /\ length rs = length handled /\ (0 < length handled)%nat /\
    store_inv s' (log' ++ log).
Proof.
  intros H Hi Hm Hlt. inversion H; subst; clear H.
  - apply Forall_cons in Hm as [Hm _]. eexists [_], []. split_and!; try done; [simpl; lia|]. by eapply store_inv_message.
  - apply Forall_app in Hm as [Hm _]. rewrite length_app, length_map in Hlt.
    assert (Forall write_ok blocks) as Hok by exact (proj1 (Forall_map StoreBlock _ _) Hm).
    destruct (store_inv_blocks s log blocks Hi Hok) as [log' Hi']; [lia|].
    destruct (handle_store_blocks_spec s log blocks Hi Hok) as (ps & m & d & tip & tip' & Hlen & _ & _ & E); [lia|].
    match goal with E' : handle_store_blocks s blocks = _ |- _ => rewrite E' in Hi', E end. cbn [snd] in Hi'.
    exists (map StoreBlock blocks), log'. rewrite length_map. split_and!; try done; try lia.
    destruct (commit_batch _ _) as [[]]; injection E as -> ->; unfold batch_replies; by rewrite ?length_map, ?length_replicate.
Qed.
End Inv.

(** ** A fresh in-memory store *)

Definition fresh_store (dir : bytes) (magic : Magic) : Store Database :=
  let m := BlockFileManager_new dir magic 0 ∅ in mkStore ∅ ∅ m (mkBlockManager m 0 ∅ ∅).

Lemma fresh_store_new dir magic : Store_new dir magic (∅ : Database) ∅ = Ok (fresh_store dir magic).
Proof. done. Qed.

Lemma fresh_store_inv dir magic : magic_ok magic -> magic_bytes magic <> replicate 4 0 -> store_inv (fresh_store dir magic) [].
Proof.
  intros Hm Hz. split; cbn [fresh_store worker block_file_manager disk reader undo_sizes pending_undo_indexes].
  - by apply new_inv.
  - constructor.
  - done.
  - done.
  - intros n Hn. exists []. split; [split; [constructor|by rewrite lookup_empty]|]. intros size. by rewrite lookup_empty.
  - intros hash i H. done.
  - intros hash i. by rewrite lookup_empty.
Qed.

Definition test_magic_store : Store Database := fresh_store [] REGTEST.
Lemma test_magic_inv : store_inv test_magic_store [].
Proof. apply fresh_store_inv; [|done]. split; [done|]. repeat constructor; done. Qed.

Definition test_header (n : Z) : BlockHeader := mkBlockHeader 1 ZERO_HASH ZERO_HASH n 0x207fffff 0.
Definition test_write (n : Z) : BlockWrite := (test_header n, n, ZERO_HASH, [n; n + 1]).
Definition test_writes : list BlockWrite := [test_write 1; test_write 2].
Definition test_stored : Store Database := (@handle_store_blocks _ in_memory toy_digests test_magic_store test_writes).2.

Lemma test_writes_ok : Forall write_ok test_writes.
Proof.
  repeat constructor; cbn; done.
Qed.

Lemma store_blocks_retrievable_witness :
  (forall w, @last_copy toy_digests test_writes w -> @get_block _ in_memory test_stored (@write_hash toy_digests w) = Ok (Some (write_raw w))) /\
  (forall hash, hash ∉ map (@write_hash toy_digests) test_writes ->
    @get_block _ in_memory test_stored hash = @get_block _ in_memory test_magic_store hash) /\
  (forall o, get_coin test_stored o = get_coin test_magic_store o).
Proof.
  apply (@store_blocks_retrievable Database in_memory in_memory_ok toy_digests test_magic_store [] test_writes
    [mkFlatFilePos 0 8; mkFlatFilePos 0 18] test_stored).
  - exact test_magic_inv.
  - exact test_writes_ok.
  - reflexivity.
  - apply (pair_eq (@handle_store_blocks _ in_memory toy_digests test_magic_store test_writes)). vm_compute. reflexivity.
Defined.

Definition test_undo : BlockUndo := mkBlockUndo [mkCoin (mkTxOut 50 [0x51]) 1 true].
Definition test_undone : Store Database := (@handle_store_undo _ in_memory test_stored (@write_hash toy_digests (test_write 1)) test_undo).2.
Definition test_flushed : Store Database := (@handle_update_utxo_set _ in_memory test_undone ∅ None []).2.

Lemma test_stored_inv : exists log, store_inv test_stored (log ++ []).
Proof.
  apply (@store_inv_blocks Database in_memory in_memory_ok toy_digests test_magic_store [] test_writes).
  - exact test_magic_inv.
  - exact test_writes_ok.
  - reflexivity.
Qed.

Lemma undo_recorded_witness :
  exists i pos data, @get_block_index _ in_memory test_flushed (@write_hash toy_digests (test_write 1)) = Ok (Some i) /\ undo_pos i = Some pos /\
    read_undo (reader test_flushed) (disk test_flushed) pos = Ok data /\ decode_exact decode_BlockUndo data "BlockUndo" = Ok test_undo.
Proof.
  destruct test_stored_inv as [log Hlog].
  apply (@undo_recorded Database in_memory in_memory_ok test_stored (log ++ []) (@write_hash toy_digests (test_write 1)) test_undo test_undone test_flushed ∅ None []).
  - exact Hlog.
  - repeat constructor; done.
  - vm_compute. reflexivity.
  - intros i pos Hi Hp. vm_compute in Hi. injection Hi as <-. injection Hp as <-. vm_compute. reflexivity.
  - apply (pair_eq (@handle_store_undo _ in_memory test_stored (@write_hash toy_digests (test_write 1)) test_undo)). vm_compute. reflexivity.
  - apply (pair_eq (@handle_update_utxo_set _ in_memory test_undone ∅ None [])). vm_compute. reflexivity.
Defined.

Lemma worker_step_sound_witness :
  exists handled log', map StoreBlock test_writes ++ [UpdateHeadersTip ZERO_HASH] = handled ++ [UpdateHeadersTip ZERO_HASH] /\
    length [RPos (Ok (mkFlatFilePos 0 8)); RPos (Ok (mkFlatFilePos 0 18))] = length handled /\ (0 < length handled)%nat /\
    store_inv test_stored (log' ++ []).
Proof.
  apply (@worker_step_sound Database in_memory in_memory_ok toy_digests test_magic_store
    (map StoreBlock test_writes ++ [UpdateHeadersTip ZERO_HASH]) _ test_stored [UpdateHeadersTip ZERO_HASH] []).
  - apply (@step_blocks Database in_memory toy_digests test_magic_store test_writes [UpdateHeadersTip ZERO_HASH]
      (Ok [mkFlatFilePos 0 8; mkFlatFilePos 0 18]) test_stored); [vm_compute; lia|].
    apply (pair_eq (@handle_store_blocks _ in_memory toy_digests test_magic_store test_writes)). vm_compute. reflexivity.
  - exact test_magic_inv.
  - apply Forall_app. split; [apply Forall_map; exact test_writes_ok|repeat constructor].
  - reflexivity.
Defined.
