(* ===== verification/Chainstate.v ===== *)
(** * The chainstate manager (crates/consensus/chainstate.rs)

    Headers enter the index and move the header tip, downloaded blocks wait for
    their turn, and [activate_best_chain] connects stored blocks one height after
    the other to the coin cache.

    The manager's store and the base of its coin cache are the same store, so the
    model keeps it once, as the cache's base.  Operations are actions: functions
    from the manager to a result and the manager, errors keeping the changes made
    before them.  The error texts are constructors.  What the environment decides
    is in [Env]: the clock, the order in which parallel script checks are joined,
    and the order in which the cache's hash map is visited when it is trimmed.

    Actor handles and channels only forward messages and are not modelled; the
    loop of the actor is [handle_chainstate_msg] folded over the mailbox. *)

From S2P Require Import Prelude Wire Hash Transaction Block Params Pow Coins ScriptNum ScriptOps Signet Engine Validation ConnectSpec BlockFile Store StoreInv.

Inductive ChainError : Type :=
  | StoreFailed (e : StoreError)
  | TipIndexMissing (hash : BlockHash)
  | GenesisIndexMissing (hash : BlockHash)
  | BlockUndecodable (e : DecodeError).

Definition FLUSH_INTERVAL_BLOCKS : Z := 1024.
Definition ACTIVATE_BATCH_SIZE : nat := 128.
(** [Duration::from_secs(30)], in seconds *)
Definition RETRY_SECONDS : Z := 30.
Definition MAX_SCOUT : Z := 500000.

Record Env : Type := mkEnv {
  clock : nat -> Z;
  join_order : nat -> list (result unit ValidationError) -> list (result unit ValidationError);
  visit_order : nat -> list OutPoint;
}.

(** [BlockIndexProvider for Store] *)
Definition store_index_by_height {B} `{StorageBackend B} (s : Store B) (height : Z) : option BlockIndex :=
  match
    match get_block_hash s height with
    | Ok (Some hash) => match get_block_index s hash with Ok (Some index) => Some index | _ => None end
    | _ => None
    end
  with
  | Some index => Some index
  | None =>
    match get_block_hash_by_header_height s height with
    | Ok (Some hash) => match get_block_index s hash with Ok (Some index) => Some index | _ => None end
    | _ => None
    end
  end.

Record ChainstateManager (B E : Type) : Type := mkManager {
  cs_params : ChainParams;
  waiting_blocks : gmap Z BlockHash;
  is_activating : bool;
  cs_cache : CoinsViewCache (Store B);
  blocks_since_flush : Z;
  active_tip : option (BlockHash * Z);
  cs_engine : E;
  script_checks : bool;
  last_failed_activation : option (BlockHeight * BlockHash * Z);
}.
Arguments mkManager {B E}.
Arguments cs_params {B E}.
Arguments waiting_blocks {B E}.
Arguments is_activating {B E}.
Arguments cs_cache {B E}.
Arguments blocks_since_flush {B E}.
Arguments active_tip {B E}.
Arguments cs_engine {B E}.
Arguments script_checks {B E}.
Arguments last_failed_activation {B E}.

Section Chainstate.
Context {B E : Type} {SB : StorageBackend B} {D : Digests} {K : Taproot.Secp} {SE : ScriptEngine E}.
Abbreviation Mgr := (ChainstateManager B E).

Definition cs_store (m : Mgr) : Store B := base (cs_cache m).
Definition set_cache (m : Mgr) (c : CoinsViewCache (Store B)) : Mgr :=
  mkManager (cs_params m) (waiting_blocks m) (is_activating m) c (blocks_since_flush m) (active_tip m)
    (cs_engine m) (script_checks m) (last_failed_activation m).
Definition with_base {V} (c : CoinsViewCache V) (v : V) : CoinsViewCache V :=
  mkCache v (cache c) (best_block c) (connected_blocks c) (max_entries c) (hits c) (misses c).
Definition set_store (m : Mgr) (s : Store B) : Mgr := set_cache m (with_base (cs_cache m) s).
Definition set_waiting (m : Mgr) (w : gmap Z BlockHash) : Mgr :=
  mkManager (cs_params m) w (is_activating m) (cs_cache m) (blocks_since_flush m) (active_tip m)
    (cs_engine m) (script_checks m) (last_failed_activation m).
Definition set_activating (m : Mgr) (b : bool) : Mgr :=
  mkManager (cs_params m) (waiting_blocks m) b (cs_cache m) (blocks_since_flush m) (active_tip m)
    (cs_engine m) (script_checks m) (last_failed_activation m).
Definition set_since_flush (m : Mgr) (n : Z) : Mgr :=
  mkManager (cs_params m) (waiting_blocks m) (is_activating m) (cs_cache m) n (active_tip m)
    (cs_engine m) (script_checks m) (last_failed_activation m).
Definition set_active_tip (m : Mgr) (t : option (BlockHash * Z)) : Mgr :=
  mkManager (cs_params m) (waiting_blocks m) (is_activating m) (cs_cache m) (blocks_since_flush m) t
    (cs_engine m) (script_checks m) (last_failed_activation m).
Definition set_failed (m : Mgr) (f : option (BlockHeight * BlockHash * Z)) : Mgr :=
  mkManager (cs_params m) (waiting_blocks m) (is_activating m) (cs_cache m) (blocks_since_flush m) (active_tip m)
    (cs_engine m) (script_checks m) f.

(** ** Actions *)

Definition action (A : Type) : Type := Mgr -> result A ChainError * Mgr.
Definition ret {A} (a : A) : action A := fun m => (Ok a, m).
Definition raise {A} (e : ChainError) : action A := fun m => (Err e, m).
Definition abind {A A'} (x : action A) (k : A -> action A') : action A' := fun m =>
  match x m with (Ok a, m) => k a m | (Err e, m) => (Err e, m) end.
(** A read of the store, and a write whose error is passed on. *)
Definition reads {A} (f : Store B -> result A StoreError) : action A := fun m =>
  (map_err StoreFailed (f (cs_store m)), m).
Definition writes {A} (f : Store B -> result A StoreError * Store B) : action A := fun m =>
  let '(r, s) := f (cs_store m) in (map_err StoreFailed r, set_store m s).
Definition modify (f : Mgr -> Mgr) : action unit := fun m => (Ok tt, f m).
Definition gets {A} (f : Mgr -> A) : action A := fun m => (Ok (f m), m).
Notation "'let!' x ':=' e 'in' k" := (abind e (fun x => k)) (at level 10, x name, e at level 200, k at level 200).

(** ** Construction *)

Definition ChainstateManager_new (params : ChainParams) (s : Store B) (dbcache_bytes : nat) (engine : E) (checks : bool) : Mgr :=
  let persisted_tip :=
    match default None (res_ok (store_get_best_block s)) with
    | Some hash => match default None (res_ok (get_block_index s hash)) with Some i => Some (hash, bi_height i) | None => None end
    | None => None
    end in
  mkManager params ∅ false (cache_new s (dbcache_bytes * 3 / 4)) 0 persisted_tip engine checks None.

(** ** Headers *)

Definition work_of (o : option BlockIndex) : Hash256 := match o with Some i => chain_work i | None => ZERO_HASH end.

Definition process_header (hdr : BlockHeader) (height : BlockHeight) : action unit :=
  let hash := block_hash hdr in
  let! known := reads (fun s => get_block_index s hash) in
  match known with
  | Some _ => ret tt
  | None =>
    let! prev_work := if is_zero (prev_hash hdr) then ret ZERO_HASH
      else (let! o := reads (fun s => get_block_index s (prev_hash hdr)) in ret (work_of o)) in
    let work := add_chain_work prev_work (calculate_block_work (bits hdr)) in
    let! _ := writes (fun s => handle_store_block_index s hash (mkBlockIndex hdr height work None None)) in
    let! tip := reads get_headers_tip in
    let! current_work := match tip with
      | Some tip_hash => (let! o := reads (fun s => get_block_index s tip_hash) in ret (work_of o))
      | None => ret ZERO_HASH
      end in
    if Hash256_gt work current_work then writes (fun s => handle_update_headers_tip s hash) else ret tt
  end.

Definition process_block_downloaded (hash : BlockHash) (height : BlockHeight) : action unit :=
  modify (fun m => set_waiting m (<[height := hash]> (waiting_blocks m))).

(** ** Repairing the header tip on start-up *)

(** The forward scan of the [H] entries above the header tip. *)
Fixpoint scout (fuel : nat) (s : Store B) (header_height scout_height : Z) (best : option BlockHash) (best_work : Hash256)
    : option BlockHash :=
  match fuel with
  | O => best
  | S fuel =>
    match get_block_hash s scout_height with
    | Ok (Some hash) =>
      let '(best, best_work) := match get_block_index s hash with
        | Ok (Some index) => if Hash256_gt (chain_work index) best_work then (Some hash, chain_work index) else (best, best_work)
        | _ => (best, best_work)
        end in
      let next := wrap_u 32 (scout_height + 1) in
      if wrap_u 32 (header_height + MAX_SCOUT) <? next then best else scout fuel s header_height next best best_work
    | _ => best
    end
  end.

Definition index_of_tip (tip : option BlockHash) : action (option BlockIndex) :=
  match tip with Some h => reads (fun s => get_block_index s h) | None => ret None end.
Definition height_or_zero (o : option BlockIndex) : Z := match o with Some i => bi_height i | None => 0 end.
Definition update_tip (o : option BlockHash) : action unit :=
  match o with Some hash => writes (fun s => handle_update_headers_tip s hash) | None => ret tt end.

Definition verify_and_repair_tips : action unit :=
  let! header_tip := reads get_headers_tip in
  let! validated_tip := reads store_get_best_block in
  let! header_index := index_of_tip header_tip in
  let! validated_index := index_of_tip validated_tip in
  let header_height := height_or_zero header_index in
  let validated_height := height_or_zero validated_index in
  let! found := gets (fun m => scout (S (Z.to_nat MAX_SCOUT)) (cs_store m) header_height (wrap_u 32 (header_height + 1)) None (work_of header_index)) in
  let! _ := update_tip found in
  let! _ := if header_height <? validated_height then update_tip validated_tip else ret tt in
  if wrap_u 32 (validated_height + 2000000) <? header_height then update_tip validated_tip else ret tt.

(** ** Activation *)

(** The hash to connect next: a waiting block, else the [H] or the [z] entry. *)
Definition next_hash (next_height : BlockHeight) : action (option BlockHash) := fun m =>
  match waiting_blocks m !! next_height with
  | Some hash => (Ok (Some hash), set_waiting m (delete next_height (waiting_blocks m)))
  | None =>
    let h_hash := default None (res_ok (get_block_hash (cs_store m) next_height)) in
    let z_hash := default None (res_ok (get_block_hash_by_header_height (cs_store m) next_height)) in
    (Ok (match h_hash with Some h => Some h | None => z_hash end), m)
  end.

(** The block failed less than thirty seconds ago. *)
Definition recently_failed (m : Mgr) (next_height : BlockHeight) (hash : BlockHash) (now : Z) : bool :=
  match last_failed_activation m with
  | Some (height, failed_hash, failed_at) =>
    (height =? next_height) && bool_decide (failed_hash = hash) && (now - failed_at <? RETRY_SECONDS)
  | None => false
  end.

Definition checks_scripts (m : Mgr) (assume_valid_height : option Z) (next_height : BlockHeight) : bool :=
  script_checks m && match assume_valid_height with None => true | Some height => height <? next_height end.

Definition connect_next (m : Mgr) (join : list (result unit ValidationError) -> list (result unit ValidationError))
    (assume_valid_height : option Z) (next_height : BlockHeight) (b : Block) (index_prev : BlockIndex)
    : result (Amount * BlockUndo) ValidationError * CoinsViewCache (Store B) :=
  connect_block (P := store_index_by_height (cs_store m)) (cs_params m) next_height (checks_scripts m assume_valid_height next_height)
    (cs_engine m) join b index_prev (cs_cache m).

(** [FlushStateToDisk], every [FLUSH_INTERVAL_BLOCKS] connected blocks. *)
Definition flush_if_due (order : list OutPoint) : action unit := fun m =>
  if FLUSH_INTERVAL_BLOCKS <=? blocks_since_flush m then
    match flush order (cs_cache m) with
    | (Ok _, c) => (Ok tt, set_since_flush (set_cache m c) 0)
    | (Err e, c) => (Err (StoreFailed e), set_cache m c)
    end
  else (Ok tt, m).

Definition tip_index (index_prev : BlockIndex) (b : Block) (next_height : BlockHeight) : BlockIndex :=
  mkBlockIndex (header b) next_height (add_chain_work (chain_work index_prev) (calculate_block_work (bits (header b)))) None None.

(** What follows an accepted block. *)
Definition connected (order : list OutPoint) (hash : BlockHash) (next_height : BlockHeight) (undo : BlockUndo) : action unit :=
  let! _ := modify (fun m => set_failed m None) in
  let! _ := writes (fun s => handle_store_undo s hash undo) in
  let! _ := modify (fun m => set_active_tip (set_cache m (set_best_block (cs_cache m) hash next_height)) (Some (hash, next_height))) in
  let! _ := modify (fun m => set_since_flush m (wrap_u 32 (blocks_since_flush m + 1))) in
  flush_if_due order.

(** The [loop]: [remaining] counts down from the batch size. *)
Fixpoint activate_loop (env : Env) (assume_valid_height : option Z) (remaining : nat) (current_tip : BlockIndex) : action unit :=
  match remaining with
  | O => ret tt
  | S remaining' =>
    let next_height := wrap_u 32 (bi_height current_tip + 1) in
    let! hash_opt := next_hash next_height in
    match hash_opt with
    | None => ret tt
    | Some hash =>
      let! failed := gets (fun m => recently_failed m next_height hash (clock env (2 * remaining)%nat)) in
      if failed : bool then ret tt else
      let! raw := reads (fun s => get_block s hash) in
      match raw with
      | None => ret tt
      | Some raw_block_bytes =>
        match decode_Block (Decoder_new raw_block_bytes) with
        | Err e => raise (BlockUndecodable e)
        | Ok (b, _) => fun m =>
          match connect_next m (join_order env remaining) assume_valid_height next_height b current_tip with
          | (Ok (_, undo), c) =>
            abind (connected (visit_order env remaining) hash next_height undo)
              (fun _ => activate_loop env assume_valid_height remaining' (tip_index current_tip b next_height)) (set_cache m c)
          | (Err _, c) => (Ok tt, set_failed (set_cache m c) (Some (next_height, hash, clock env (2 * remaining + 1)%nat)))
          end
        end
      end
    end
  end.

Definition assume_valid_of : action (option Z) := fun m =>
  let assume_valid := default_assume_valid (consensus (cs_params m)) in
  if is_zero assume_valid then (Ok None, m)
  else (let! o := reads (fun s => get_block_index s assume_valid) in ret (match o with Some i => Some (bi_height i) | None => None end)) m.

Definition current_tip_of : action BlockIndex := fun m =>
  match
    match get_best_block (cs_cache m) with
    | Some h => Some h
    | None => default None (res_ok (store_get_best_block (cs_store m)))
    end
  with
  | Some tip_hash =>
    (let! o := reads (fun s => get_block_index s tip_hash) in
     match o with Some i => ret i | None => raise (TipIndexMissing tip_hash) end) m
  | None =>
    let gen_hash := genesis_hash (cs_params m) in
    (let! o := reads (fun s => get_block_index s gen_hash) in
     match o with Some i => ret i | None => raise (GenesisIndexMissing gen_hash) end) m
  end.

Definition activate_best_chain_inner (env : Env) : action unit :=
  let! assume_valid_height := assume_valid_of in
  let! current_tip := current_tip_of in
  activate_loop env assume_valid_height ACTIVATE_BATCH_SIZE current_tip.

Definition activate_best_chain (env : Env) : action unit := fun m =>
  if is_activating m then (Ok tt, m) else
  let '(r, m) := activate_best_chain_inner env (set_activating m true) in (r, set_activating m false).

(** ** Genesis *)

Definition load_genesis_block (params : ChainParams) : action unit :=
  let hash := genesis_hash params in
  let! known := reads (fun s => get_block_index s hash) in
  match known with
  | Some _ => ret tt
  | None =>
    let work := calculate_block_work (bits (genesis_header params)) in
    let! _ := writes (fun s => handle_store_block_index s hash (mkBlockIndex (genesis_header params) 0 work None None)) in
    let! _ := writes (fun s => handle_update_headers_tip s hash) in
    let! _ := writes (fun s => handle_update_header_index s hash 0) in
    let! _ := writes (fun s => handle_update_active_tip s hash) in
    modify (fun m => set_active_tip (set_cache m (set_best_block (cs_cache m) hash 0)) (Some (hash, 0)))
  end.

(** ** The actor *)

Inductive ChainstateMsg : Type :=
  | ProcessHeader (hdr : BlockHeader) (height : BlockHeight)
  | ProcessHeaders (indexes : list (BlockHash * BlockIndex)) (best_tip : option BlockHash)
  | ProcessBlockDownloaded (hash : BlockHash) (height : BlockHeight)
  | ActivateBestChain
  | LoadGenesis (params : ChainParams).

Definition handle_chainstate_msg (env : Env) (msg : ChainstateMsg) : action unit :=
  match msg with
  | ProcessHeader hdr height => process_header hdr height
  | ProcessHeaders indexes best_tip => writes (fun s => handle_store_block_indexes s indexes best_tip)
  | ProcessBlockDownloaded hash height => process_block_downloaded hash height
  | ActivateBestChain => activate_best_chain env
  | LoadGenesis params => load_genesis_block params
  end.

(** [run_chainstate_loop]: the replies and the manager after the mailbox; the
    environment of a message is its own. *)
Definition run_chainstate_loop (m : Mgr) (msgs : list (Env * ChainstateMsg)) : list (result unit ChainError) * Mgr :=
  fold_left (fun st p => let '(r, m) := handle_chainstate_msg p.1 p.2 st.2 in (st.1 ++ [r], m)) msgs ([], (verify_and_repair_tips m).2).
End Chainstate.
