(* ===== verification/ChainstateProofs.v ===== *)
(** * Properties of the chainstate manager

    Activation refines connecting blocks one after the other on a map of unspent
    coins; the header tip is the header of most work; genesis; the tips; the
    flush interval. *)

From S2P Require Import Prelude Wire Hash Transaction Block Params Pow Coins ScriptNum ScriptOps Taproot Signet Engine Validation ConnectSpec BlockFile Store StoreInv Chainstate.

Section Proofs.
Context {B E : Type} {SB : StorageBackend B} {SO : StorageBackendOk B} {D : Digests} {K : Taproot.Secp} {SE : ScriptEngine E}.
Abbreviation Mgr := (ChainstateManager B E).

(** ** The specification of a run *)

(** One attempt to connect a block. *)
Record Event : Type := mkEvent {
  ev_provider : BlockIndexProvider;
  ev_scripts : bool;
  ev_join : list (result unit ValidationError) -> list (result unit ValidationError);
  ev_prev : BlockIndex;
  ev_block : Block;
}.
Definition ev_height (ev : Event) : BlockHeight := wrap_u 32 (bi_height (ev_prev ev) + 1).
Definition ev_next (ev : Event) : BlockIndex := tip_index (ev_prev ev) (ev_block ev) (ev_height ev).
(** None of the outputs the block creates is unspent already (BIP 30). *)
Definition ev_fresh (ev : Event) (u : UtxoMap) : Prop := Forall (fun o => u !! o = None) (created (ev_height ev) (transactions (ev_block ev))).
Definition ev_spec (params : ChainParams) (engine : E) (ev : Event) (u : UtxoMap) : result (Amount * list Coin) ValidationError * UtxoMap :=
  connect_spec (P := ev_provider ev) params (ev_height ev) (ev_scripts ev) engine (ev_join ev) (ev_block ev) (ev_prev ev) u.

(** The hash the chain continues with at a height: a waiting block, else the hash
    stored for the height, else the header of the height. *)
Definition due_hash (m : Mgr) (h : BlockHeight) : option BlockHash :=
  match waiting_blocks m !! h with
  | Some hash => Some hash
  | None => match default None (res_ok (get_block_hash (cs_store m) h)) with
    | Some hash => Some hash
    | None => default None (res_ok (get_block_hash_by_header_height (cs_store m) h))
    end
  end.
(** The block to connect at a height: the stored one of that hash, unless it failed
    in the last thirty seconds. *)
Definition due_block (env : Env) (n : nat) (m : Mgr) (h : BlockHeight) : result (option (BlockHash * Block)) ChainError :=
  match due_hash m h with
  | None => Ok None
  | Some hash =>
    if recently_failed m h hash (clock env (2 * n)%nat) then Ok None else
    match get_block (cs_store m) hash with
    | Ok (Some raw) => match decode_Block (Decoder_new raw) with Ok (b, _) => Ok (Some (hash, b)) | Err e => Err (BlockUndecodable e) end
    | Ok None => Ok None
    | Err e => Err (StoreFailed e)
    end
  end.
Definition next_of (tip : BlockIndex) : BlockHeight := wrap_u 32 (bi_height tip + 1).
(** Whatever was waiting at the height no longer is. *)
Definition taken (m : Mgr) (h : BlockHeight) : Mgr := set_waiting m (delete h (waiting_blocks m)).

(** The attempt of a block: on the tip, against the index of the store, with scripts
    checked when the node checks them and the height is above the assumed-valid one. *)
Definition attempt_event (env : Env) (assume : option Z) (n : nat) (tip : BlockIndex) (b : Block) (m : Mgr) : Event :=
  mkEvent (store_index_by_height (cs_store m))
    (script_checks m && match assume with None => true | Some height => height <? next_of tip end) (join_order env n) tip b.

(** The manager has moved on to the block: its hash is the best block and the active
    tip, and the coins are those of [u]. *)
Record advanced (hash : BlockHash) (h : BlockHeight) (u : UtxoMap) (m : Mgr) : Prop := {
  ad_coins : refines (cs_cache m) u;
  ad_best : get_best_block (cs_cache m) = Some hash;
  ad_tip : active_tip m = Some (hash, h);
  ad_failed : last_failed_activation m = None;
}.
(** The block's undo data is written and a due flush runs, on the manager [m] with its
    coins replaced by those of [u] over the same store. *)
Definition commits (env : Env) (n : nat) (hash : BlockHash) (h : BlockHeight) (spent : list Coin) (u : UtxoMap) (m : Mgr) (r : result unit ChainError) (m1 : Mgr) : Prop :=
  exists c undo, base c = cs_store m /\ refines c u /\ spent_coins undo = spent /\ connected (visit_order env n) hash h undo (set_cache m c) = (r, m1).

(** A run of at most [n] blocks from the tip [tip] and the coins [u]: the blocks it
    connects, the tip and the coins it ends with, its answer and the manager. *)
Inductive activation (env : Env) (assume : option Z) : nat -> BlockIndex -> UtxoMap -> Mgr -> list Event -> BlockIndex -> UtxoMap -> result unit ChainError -> Mgr -> Prop :=
  | act_batch tip u m : refines (cs_cache m) u -> activation env assume 0 tip u m [] tip u (Ok tt) m
  | act_idle n tip u m : refines (cs_cache m) u -> due_block env (S n) m (next_of tip) = Ok None ->
      activation env assume (S n) tip u m [] tip u (Ok tt) (taken m (next_of tip))
  | act_unreadable n tip u m e : refines (cs_cache m) u -> due_block env (S n) m (next_of tip) = Err e ->
      activation env assume (S n) tip u m [] tip u (Err e) (taken m (next_of tip))
  | act_rejected n tip u m hash b e u' c (ev := attempt_event env assume (S n) tip b m) :
      refines (cs_cache m) u -> due_block env (S n) m (next_of tip) = Ok (Some (hash, b)) -> ev_fresh ev u ->
      ev_spec (cs_params m) (cs_engine m) ev u = (Err e, u') -> base c = cs_store m -> refines c u' ->
      activation env assume (S n) tip u m [] tip u' (Ok tt)
        (set_failed (set_cache (taken m (next_of tip)) c) (Some (next_of tip, hash, clock env (2 * S n + 1)%nat)))
  | act_connected n tip u m hash b fees spent u1 m1 evs tip' u' r m' (ev := attempt_event env assume (S n) tip b m) :
      refines (cs_cache m) u -> due_block env (S n) m (next_of tip) = Ok (Some (hash, b)) -> ev_fresh ev u ->
      ev_spec (cs_params m) (cs_engine m) ev u = (Ok (fees, spent), u1) ->
      commits env (S n) hash (next_of tip) spent u1 (taken m (next_of tip)) (Ok tt) m1 -> advanced hash (next_of tip) u1 m1 ->
      activation env assume n (ev_next ev) u1 m1 evs tip' u' r m' -> activation env assume (S n) tip u m (ev :: evs) tip' u' r m'
  | act_halted n tip u m hash b fees spent u1 e m1 (ev := attempt_event env assume (S n) tip b m) :
      refines (cs_cache m) u -> due_block env (S n) m (next_of tip) = Ok (Some (hash, b)) -> ev_fresh ev u ->
      ev_spec (cs_params m) (cs_engine m) ev u = (Ok (fees, spent), u1) ->
      commits env (S n) hash (next_of tip) spent u1 (taken m (next_of tip)) (Err e) m1 -> refines (cs_cache m1) u1 ->
      activation env assume (S n) tip u m [ev] (ev_next ev) u1 (Err e) m1
  | act_overwrite n tip u m hash b r m' :
      refines (cs_cache m) u -> due_block env (S n) m (next_of tip) = Ok (Some (hash, b)) ->
      ~ ev_fresh (attempt_event env assume (S n) tip b m) u -> activate_loop env assume (S n) tip m = (r, m') ->
      activation env assume (S n) tip u m [] tip u r m'.

(** ** Frames *)

Lemma refines_base (c : CoinsViewCache (Store B)) u s : refines c u -> (forall o, get_coin s o = get_coin (base c) o) -> refines (with_base c s) u.
Proof.
  intros [Hc Hv] Hs. split.
  - intros o e He. cbn [with_base cache base] in *. rewrite Hs. by apply Hc.
  - intros o. rewrite <- Hv, !get_coin_eq. cbn [with_base cache base]. by rewrite Hs.
Qed.

Lemma store_undo_backend (s : Store B) hash undo : backend (handle_store_undo s hash undo).2 = backend s.
Proof.
  unfold handle_store_undo. destruct (rbind _ _) as [[i pos]|]; [|done]. by destruct (write_undo _ _ _ _ _) as [[? ?] ?].
Qed.
Lemma coins_same_backend (s s' : Store B) o : backend s' = backend s -> get_coin s' o = get_coin s o.
Proof. intros H. cbn. unfold store_get_coin. by rewrite H. Qed.

Lemma flush_if_due_refines order (m : Mgr) u : refines (cs_cache m) u -> refines (cs_cache (flush_if_due order m).2) u.
Proof.
  intros [Hc Hv]. unfold flush_if_due. destruct (_ <=? _); [|done].
  destruct (flush order (cs_cache m)) as [[[]|e] c] eqn:Ef; cbn [snd set_since_flush set_cache cs_cache].
  - destruct (flush_ok order _ c Hc Ef) as (? & Hv' & _). split; [done|]. intros o. by rewrite Hv'.
  - destruct (flush_failed order _ c e Hc Ef) as [? Hv']. split; [done|]. intros o. by rewrite Hv'.
Qed.

Lemma connected_refines order hash h undo (m : Mgr) u : refines (cs_cache m) u -> refines (cs_cache (connected order hash h undo m).2) u.
Proof.
  intros Hr. unfold connected, abind, modify, writes. cbn [set_failed cs_store cs_cache].
  pose proof (store_undo_backend (cs_store m) hash undo) as Hb. change (cs_store (set_failed m None)) with (cs_store m).
  destruct (handle_store_undo (cs_store m) hash undo) as [r s] eqn:Eu. cbn [snd] in Hb.
  assert (refines (with_base (cs_cache m) s) u) as Hr1.
  { apply refines_base; [done|]. intros o. by apply coins_same_backend. }
  destruct r as [[]|e]; cbn [map_err]; [|done]. apply flush_if_due_refines.
  cbn [set_since_flush set_active_tip set_cache cs_cache set_store]. split; [apply Hr1|]. intros o. rewrite set_best_block_view. apply Hr1.
Qed.

(** The parts of the manager no activation changes. *)
Definition same_config (m m' : Mgr) : Prop :=
  cs_params m' = cs_params m /\ cs_engine m' = cs_engine m /\ script_checks m' = script_checks m.

Lemma connected_config order hash h undo (m : Mgr) : same_config m (connected order hash h undo m).2.
Proof.
  unfold connected, abind, modify, writes. destruct (handle_store_undo _ _ _) as [[[]|e] s]; cbn [map_err]; [|done].
  unfold flush_if_due. destruct (_ <=? _); [|done]. by destruct (flush _ _) as [[[]|?] ?].
Qed.

(** Fetching the next hash touches only the waiting blocks. *)
Lemma next_hash_frame h (m : Mgr) : exists o w, next_hash h m = (Ok o, set_waiting m w).
Proof.
  unfold next_hash. destruct (waiting_blocks m !! h); [by eexists _, _|]. eexists _, (waiting_blocks m). by destruct m.
Qed.

(** What connecting a block never changes: the store, the budget and, unless the
    block is accepted, the best block. *)
Definition same_shell {V} (c c' : CoinsViewCache V) : Prop :=
  base c' = base c /\ best_block c' = best_block c /\ connected_blocks c' = connected_blocks c.

Lemma same_shell_trans {V} (a b c : CoinsViewCache V) : same_shell a b -> same_shell b c -> same_shell a c.
Proof. unfold same_shell. intros (-> & -> & ->) (-> & -> & ->). done. Qed.
Lemma add_coins_shell {V} (l : list (OutPoint * Coin)) (c : CoinsViewCache V) : same_shell c (add_coins c l).
Proof. unfold add_coins. revert c. induction l as [|p l IH]; intros c; [done|]. cbn [fold_left]. eapply same_shell_trans; [|apply IH]. done. Qed.
Lemma spend_known_shell {V} `{CoinsView V} (c : CoinsViewCache V) o : same_shell c (spend_coin_known c o).
Proof.
  unfold spend_coin_known, spend_coin. destruct (cache c !! o) as [e|]; [|done]. destruct (coin e); [|done]. by destruct (is_fresh e).
Qed.
Lemma spends_shell {V} `{CoinsView V} (l : list OutPoint) (c : CoinsViewCache V) : same_shell c (fold_left spend_coin_known l c).
Proof. revert c. induction l as [|o l IH]; intros c; [done|]. cbn [fold_left]. eapply same_shell_trans; [apply spend_known_shell|apply IH]. Qed.
Lemma commit_txs_shell {V} `{CoinsView V} h txs spends (c : CoinsViewCache V) : same_shell c (commit_txs h c txs spends).
Proof.
  unfold commit_txs. revert c. induction (zip txs spends) as [|p l IH]; intros c; [done|]. cbn [fold_left].
  eapply same_shell_trans; [|apply IH]. unfold commit_tx. eapply same_shell_trans; [apply spends_shell|apply add_coins_shell].
Qed.

Lemma connect_next_shell (m : Mgr) join av h b prev :
  match connect_next m join av h b prev with
  | (Ok _, c) => base c = base (cs_cache m) /\ best_block c = Some (block_hash (header b))
  | (Err _, c) => same_shell (cs_cache m) c
  end.
Proof.
  unfold connect_next, connect_block. destruct (rbind _ _) as [p|e]; [|done].
  set (c := add_coins (commit_txs _ _ _ _) _). assert (same_shell (cs_cache m) c) as Hs.
  { eapply same_shell_trans; [apply commit_txs_shell|apply add_coins_shell]. }
  destruct (check_coinbase_value _ _ _ _); [|done]. by destruct Hs as (? & _).
Qed.

(** ** One iteration *)

(** Fetching the next hash takes it from the waiting blocks. *)
Lemma next_hash_due h (m : Mgr) : next_hash h m = (Ok (due_hash m h), taken m h).
Proof.
  unfold next_hash, due_hash, taken. destruct (waiting_blocks m !! h) eqn:Ew; [done|]. rewrite delete_id by done. by destruct m.
Qed.

(** One iteration, from a block that is there. *)
Definition attempt (env : Env) (assume : option Z) (n : nat) (tip : BlockIndex) (hash : BlockHash) (b : Block) (m1 : Mgr)
    : result unit ChainError * Mgr :=
  match connect_next m1 (join_order env (S n)) assume (next_of tip) b tip with
  | (Ok (_, undo), c) =>
    abind (connected (visit_order env (S n)) hash (next_of tip) undo)
      (fun _ => activate_loop env assume n (tip_index tip b (next_of tip))) (set_cache m1 c)
  | (Err _, c) => (Ok tt, set_failed (set_cache m1 c) (Some (next_of tip, hash, clock env (2 * S n + 1)%nat)))
  end.

Lemma activate_loop_step env av n tip (m : Mgr) : activate_loop env av (S n) tip m =
  match due_block env (S n) m (next_of tip) with
  | Err e => (Err e, taken m (next_of tip))
  | Ok None => (Ok tt, taken m (next_of tip))
  | Ok (Some (hash, b)) => attempt env av n tip hash b (taken m (next_of tip))
  end.
Proof.
  cbn [activate_loop]. fold (next_of tip). unfold abind at 1. rewrite next_hash_due. unfold due_block. destruct (due_hash m (next_of tip)) as [hash|]; [|done].
  unfold abind at 1, gets. change (recently_failed (taken m (next_of tip))) with (recently_failed m). destruct (recently_failed m _ hash _); [done|].
  unfold abind at 1, reads. change (cs_store (taken m (next_of tip))) with (cs_store m).
  destruct (get_block (cs_store m) hash) as [[raw|]|e]; cbn [map_err]; [|done..]. by destruct (decode_Block _) as [[b d]|e].
Qed.

(** The effects of connecting a block are those of the specification. *)
Lemma connect_next_spec env av n tip b (m : Mgr) u (ev := attempt_event env av (S n) tip b m) : refines (cs_cache m) u -> ev_fresh ev u ->
  let '(r, c) := connect_next (taken m (next_of tip)) (join_order env (S n)) av (next_of tip) b tip in
  same_result r (ev_spec (cs_params m) (cs_engine m) ev u).1 /\ refines c (ev_spec (cs_params m) (cs_engine m) ev u).2 /\ base c = cs_store m.
Proof.
  intros Hr Hfresh. pose proof (connect_next_shell (taken m (next_of tip)) (join_order env (S n)) av (next_of tip) b tip) as Hb.
  destruct (connect_block_refinement (P := ev_provider ev) (cs_params m) (ev_height ev) (ev_scripts ev) (cs_engine m) (ev_join ev) b tip (cs_cache m) u Hr Hfresh) as [Hres Href].
  change (connect_block _ _ _ _ _ _ _ _) with (connect_next (taken m (next_of tip)) (join_order env (S n)) av (next_of tip) b tip) in *.
  destruct (connect_next _ _ _ _ _ _) as [r c]. split_and!; [done..|]. destruct r; apply Hb.
Qed.

(** A block that is in the store, and whose pending undo record has a position, can
    have its undo data written. *)
Lemma undo_writable (s : Store B) hash raw undo : get_block s hash = Ok (Some raw) ->
  (forall i, pending_undo_indexes (worker s) !! hash = Some i -> is_Some (file_pos i)) -> (handle_store_undo s hash undo).1 = Ok tt.
Proof.
  intros Hg Hp. unfold handle_store_undo. assert (exists i pos, undo_index s hash = Ok i /\ file_pos i = Some pos) as (i & pos & Hi & Hf).
  { unfold undo_index. destruct (pending_undo_indexes (worker s) !! hash) as [i|]; [destruct (Hp i) as [pos ?]; by eauto|].
    unfold get_block, get_block_index in Hg. destruct (kv_get _ _ _) as [[bs|]|]; cbn [rbind] in Hg; [|done..]. cbn [rbind ok_or].
    unfold decode_exact. destruct (decode_BlockIndex _) as [[i d]|]; cbn [rbind map_err] in *; [|done]. destruct (finish _ _) as [[]|]; cbn [rbind map_err] in *; [|done].
    destruct (file_pos i) as [pos|] eqn:Ep; [|done]. by exists i, pos. }
  rewrite Hi. cbn [rbind]. rewrite Hf. cbn [ok_or rbind]. by destruct (write_undo _ _ _ _ _) as [[? ?] ?].
Qed.

(** The tips after an accepted block, whether or not a flush fails, once its undo
    data is written. *)
Lemma connected_advanced order hash h undo (m : Mgr) u : refines (cs_cache m) u -> (handle_store_undo (cs_store m) hash undo).1 = Ok tt ->
  advanced hash h u (connected order hash h undo m).2.
Proof.
  intros Hr Hu. pose proof (connected_refines order hash h undo m u Hr) as Hc. split; [done| | |]; clear Hc.
  all: unfold connected, abind, modify, writes; change (cs_store (set_failed m None)) with (cs_store m); destruct (handle_store_undo (cs_store m) hash undo) as [r s]; cbn [fst] in Hu; subst r; cbn [map_err].
  all: unfold flush_if_due; destruct (_ <=? _); [|done]; unfold flush; by destruct (update_utxos _ _ _ _) as [[[]|?] ?].
Qed.
Lemma connected_ok_undo order hash h undo (m m' : Mgr) : connected order hash h undo m = (Ok tt, m') -> (handle_store_undo (cs_store m) hash undo).1 = Ok tt.
Proof.
  unfold connected, abind, modify, writes. change (cs_store (set_failed m None)) with (cs_store m). by destruct (handle_store_undo (cs_store m) hash undo) as [[[]|e] s].
Qed.

Lemma activate_loop_spec env av n tip (m : Mgr) u : refines (cs_cache m) u ->
  exists evs tip' u', activation env av n tip u m evs tip' u' (activate_loop env av n tip m).1 (activate_loop env av n tip m).2.
Proof.
  revert tip m u. induction n as [|n IH]; intros tip m u Hr; [eexists _, _, _; by apply act_batch|].
  pose proof (activate_loop_step env av n tip m) as Hl. destruct (due_block env (S n) m (next_of tip)) as [[[hash b]|]|e] eqn:Ed.
  2-3: rewrite Hl; eexists _, _, _; by econstructor.
  destruct (decide (ev_fresh (attempt_event env av (S n) tip b m) u)) as [Hf|Hn].
  2: { eexists _, _, _. eapply act_overwrite; [done..|]. by destruct (activate_loop _ _ _ _ _). }
  rewrite Hl. clear Hl. unfold attempt. pose proof (connect_next_spec env av n tip b m u Hr Hf) as Hs.
  destruct (connect_next _ _ _ _ _ _) as [[[fees undo]|e] c]; destruct (ev_spec _ _ _ _) as [[[fees' spent]|e'] u1] eqn:Es; destruct Hs as (Hres & Href & Hb); try done; cbn [fst snd] in *.
  2: { eexists _, _, _. by eapply act_rejected. }
  destruct Hres as [-> Hsp]. unfold abind. pose proof (connected_refines (visit_order env (S n)) hash (next_of tip) undo (set_cache (taken m (next_of tip)) c) u1 Href) as Hr1.
  destruct (connected _ _ _ _ _) as [[[]|e] m1] eqn:Ec; cbn [snd fst] in *.
  - destruct (IH (ev_next (attempt_event env av (S n) tip b m)) m1 u1 Hr1) as (evs & tip' & u' & Hact). eexists _, _, _. eapply act_connected; [done..|by eexists c, undo| |exact Hact].
    pose proof (connected_advanced (visit_order env (S n)) hash (next_of tip) undo (set_cache (taken m (next_of tip)) c) u1 Href (connected_ok_undo _ _ _ _ _ _ Ec)) as Ha. by rewrite Ec in Ha.
  - eexists _, _, _. eapply act_halted; [done..|by eexists c, undo|done].
Qed.

Lemma activation_length env av n tip u (m m' : Mgr) evs tip' u' r : activation env av n tip u m evs tip' u' r m' -> (length evs <= n)%nat.
Proof. induction 1; simpl; lia. Qed.

Lemma assume_valid_frame (m : Mgr) : (assume_valid_of m).2 = m.
Proof.
  unfold assume_valid_of. destruct (is_zero _); [done|]. unfold abind, reads, ret. by destruct (get_block_index _ _) as [[?|]|?].
Qed.
Lemma current_tip_frame (m : Mgr) : (current_tip_of m).2 = m.
Proof.
  unfold current_tip_of, abind, reads, ret, raise.
  destruct (match get_best_block _ with Some h => Some h | None => _ end); by destruct (get_block_index _ _) as [[?|]|?].
Qed.

Lemma current_tip_activating (m : Mgr) b : (current_tip_of (set_activating m b)).1 = (current_tip_of m).1.
Proof.
  unfold current_tip_of, abind, reads, ret, raise. cbn [set_activating cs_cache cs_params].
  change (cs_store (set_activating m b)) with (cs_store m).
  destruct (match get_best_block _ with Some h => Some h | None => _ end); by destruct (get_block_index _ _) as [[?|]|?].
Qed.

Lemma assume_valid_activating (m : Mgr) b : (assume_valid_of (set_activating m b)).1 = (assume_valid_of m).1.
Proof.
  unfold assume_valid_of, abind, reads, ret. cbn [set_activating cs_params]. change (cs_store (set_activating m b)) with (cs_store m).
  destruct (is_zero _); [done|]. by destruct (get_block_index _ _) as [[?|]|?].
Qed.

(** A call that is not already running is one run of the loop from the current tip. *)
Lemma activate_eq env (m : Mgr) av tip : is_activating m = false -> (assume_valid_of m).1 = Ok av -> (current_tip_of m).1 = Ok tip ->
  (activate_best_chain env m).1 = (activate_loop env av ACTIVATE_BATCH_SIZE tip (set_activating m true)).1 /\
  (activate_best_chain env m).2 = set_activating (activate_loop env av ACTIVATE_BATCH_SIZE tip (set_activating m true)).2 false.
Proof.
  intros Ha E1 E2. unfold activate_best_chain. rewrite Ha. rewrite <- (assume_valid_activating m true) in E1. rewrite <- (current_tip_activating m true) in E2.
  apply pair_eq in E1, E2. rewrite assume_valid_frame in E1. rewrite current_tip_frame in E2.
  assert (activate_best_chain_inner env (set_activating m true) = activate_loop env av ACTIVATE_BATCH_SIZE tip (set_activating m true)) as ->.
  { unfold activate_best_chain_inner. unfold abind at 1. rewrite E1. unfold abind at 1. by rewrite E2. }
  by destruct (activate_loop _ _ _ _ _).
Qed.

(** C4: Activation refines connecting blocks on a map of unspent coins.  A call of
    [activate_best_chain] is a run of [activation], at most 128 blocks long: at each
    height it takes the block that is due there (the stored block of the waiting
    hash, else of the hash stored for the height), connects it exactly when the
    specification accepts that block on the map of the blocks before, with scripts
    checked above the assumed-valid height, and then has the block as best block and
    active tip and the coins of the specification; a rejected block leaves the map
    of its attempt and is remembered with the time; a missing or undecodable block,
    a failed undo write or a failed flush ends the run with that answer.  The run is
    described up to a block that would overwrite an unspent output, where it goes on
    as the code does and nothing is claimed of its coins. *)
Theorem activation_refines (env : Env) (m : ChainstateManager B E) (u : UtxoMap) (av : option Z) (tip : BlockIndex) :
  refines (cs_cache m) u -> is_activating m = false -> (assume_valid_of m).1 = Ok av -> (current_tip_of m).1 = Ok tip ->
  exists evs tip' u' m', activation env av ACTIVATE_BATCH_SIZE tip u (set_activating m true) evs tip' u' (activate_best_chain env m).1 m' /\
    (length evs <= ACTIVATE_BATCH_SIZE)%nat /\ (activate_best_chain env m).2 = set_activating m' false.
Proof.
  intros Hr Ha Hv Ht. destruct (activate_eq env m av tip Ha Hv Ht) as [-> ->].
  generalize ACTIVATE_BATCH_SIZE as n. intros n. destruct (activate_loop_spec env av n tip (set_activating m true) u Hr) as (evs & tip' & u' & Hact).
  exists evs, tip', u', (activate_loop env av n tip (set_activating m true)).2. split_and!; [exact Hact|by eapply activation_length|done].
Qed.

(** What is known after the first block of a run was connected: the manager has moved
    on to it, and the run went on from there unless a flush failed. *)
Definition first_connected (env : Env) (av : option Z) (tip : BlockIndex) (hash : BlockHash) (b : Block) (u1 : UtxoMap) (answer : result unit ChainError) (m' : Mgr) : Prop :=
  exists m1 (r1 : result unit ChainError), advanced hash (next_of tip) u1 m1 /\
    match r1 with
    | Err e => answer = Err e /\ m' = set_activating m1 false
    | Ok _ => exists evs tip' u' m2, activation env av (pred ACTIVATE_BATCH_SIZE) (tip_index tip b (next_of tip)) u1 m1 evs tip' u' answer m2 /\ m' = set_activating m2 false
    end.

(** A loop whose due block is accepted connects it. *)
Lemma loop_progress env av n tip hash b (m : Mgr) u r u' (ev := attempt_event env av (S n) tip b m) : refines (cs_cache m) u ->
  due_block env (S n) m (next_of tip) = Ok (Some (hash, b)) ->
  (forall i, pending_undo_indexes (worker (cs_store m)) !! hash = Some i -> is_Some (file_pos i)) ->
  ev_fresh ev u -> ev_spec (cs_params m) (cs_engine m) ev u = (Ok r, u') ->
  exists m1 (r1 : result unit ChainError), advanced hash (next_of tip) u' m1 /\
    activate_loop env av (S n) tip m = match r1 with Err e => (Err e, m1) | Ok _ => activate_loop env av n (tip_index tip b (next_of tip)) m1 end.
Proof.
  intros Hr Hd Hp Hf Hs. assert (exists raw, get_block (cs_store m) hash = Ok (Some raw)) as [raw Hg].
  { unfold due_block in Hd. destruct (due_hash m _) as [h0|]; [|done]. destruct (recently_failed _ _ _ _); [done|].
    destruct (get_block (cs_store m) h0) as [[raw|]|e] eqn:Eg; [|done..]. destruct (decode_Block _) as [[b0 d]|]; [|done]. injection Hd as -> ->. by exists raw. }
  rewrite activate_loop_step, Hd. unfold attempt. pose proof (connect_next_spec env av n tip b m u Hr Hf) as Hc. fold ev in Hc. rewrite Hs in Hc. destruct r as [fees spent].
  destruct (connect_next _ _ _ _ _ _) as [[[fees' undo]|e] c]; destruct Hc as (Hres & Href & Hb); [|done]. cbn [fst snd] in *.
  pose proof (connected_advanced (visit_order env (S n)) hash (next_of tip) undo (set_cache (taken m (next_of tip)) c) u' Href) as Had.
  specialize (Had ltac:(change (cs_store (set_cache _ c)) with (base c); rewrite Hb; by apply (undo_writable _ _ raw))).
  unfold abind. destruct (connected _ _ _ _ _) as [[[]|e] m1]; cbn [fst snd] in *; exists m1; [by exists (Ok tt)|by exists (Err e)].
Qed.

(** Activation makes progress.  When the block due at the next height is accepted by
    the specification, the run connects it. *)
Lemma activation_progress (env : Env) (m : ChainstateManager B E) (u : UtxoMap) (av : option Z) (tip : BlockIndex) (hash : BlockHash)
    (b : Block) (r : Amount * list Coin) (u' : UtxoMap) (ev := attempt_event env av ACTIVATE_BATCH_SIZE tip b m) :
  refines (cs_cache m) u -> is_activating m = false -> (assume_valid_of m).1 = Ok av -> (current_tip_of m).1 = Ok tip ->
  due_block env ACTIVATE_BATCH_SIZE m (next_of tip) = Ok (Some (hash, b)) ->
  (forall i, pending_undo_indexes (worker (cs_store m)) !! hash = Some i -> is_Some (file_pos i)) ->
  ev_fresh ev u -> ev_spec (cs_params m) (cs_engine m) ev u = (Ok r, u') ->
  first_connected env av tip hash b u' (activate_best_chain env m).1 (activate_best_chain env m).2.
Proof.
  intros Hr Ha Hv Ht Hd Hp Hf Hs. destruct (activate_eq env m av tip Ha Hv Ht) as [-> ->]. unfold first_connected. subst ev.
  destruct ACTIVATE_BATCH_SIZE as [|n] eqn:En; [done|]. clear En. cbn [pred]. set (m0 := set_activating m true).
  destruct (loop_progress env av n tip hash b m0 u r u' Hr Hd Hp Hf Hs) as (m1 & r1 & Had & E1). rewrite E1. exists m1, r1. split; [done|].
  destruct r1 as [[]|e]; [|done]. destruct (activate_loop_spec env av n (tip_index tip b (next_of tip)) m1 u' (ad_coins _ _ _ _ Had)) as (evs & tip' & u2 & Hact).
  by eexists evs, tip', u2, _.
Qed.

(** ** The parent of a block *)

(** The same block, naming another parent. *)
Definition with_parent (p : BlockHash) (b : Block) : Block :=
  let h := header b in mkBlock (mkBlockHeader (hdr_version h) p (merkle_root_field h) (time h) (bits h) (nonce h)) (transactions b).

Lemma weight_parent p b : length p = length (prev_hash (header b)) -> weight (with_parent p b) = weight b.
Proof.
  intros Hl. unfold weight. cbn [with_parent transactions]. rewrite !serialize_Block, !length_app, (serialize_BlockHeader (header b)), serialize_BlockHeader. cbn [header with_parent transactions].
  unfold header_serialize. cbn [hdr_version prev_hash merkle_root_field time bits nonce]. rewrite !length_app, Hl. done.
Qed.

(** Outside signet, the parent a block names matters to its proof of work only. *)
Lemma prechecks_parent {P : BlockIndexProvider} params h prev p b : length p = length (prev_hash (header b)) ->
  signet_blocks (consensus params) = false -> meets_target (header b) = true -> meets_target (header (with_parent p b)) = true ->
  block_prechecks params h (with_parent p b) prev = block_prechecks params h b prev.
Proof.
  intros Hl Hs H1 H2. unfold block_prechecks, check_block, check_block_header. rewrite (weight_parent p b Hl), Hs, H1, H2. done.
Qed.
Lemma spec_parent params engine env av n tip p b (m : Mgr) u : length p = length (prev_hash (header b)) ->
  signet_blocks (consensus params) = false -> meets_target (header b) = true -> meets_target (header (with_parent p b)) = true ->
  ev_spec params engine (attempt_event env av n tip (with_parent p b) m) u = ev_spec params engine (attempt_event env av n tip b m) u.
Proof.
  intros. unfold ev_spec, connect_spec, ev_height. cbn [attempt_event ev_block ev_prev ev_join ev_scripts ev_provider].
  change (transactions (with_parent p b)) with (transactions b). change (coinbase_of (with_parent p b)) with (coinbase_of b).
  rewrite prechecks_parent by assumption. reflexivity.
Qed.

Lemma accepted_target params engine ev u r u' : ev_spec params engine ev u = (Ok r, u') -> meets_target (header (ev_block ev)) = true.
Proof.
  unfold ev_spec, connect_spec, block_prechecks, check_block_header. destruct (check_block _ _); [|discriminate]. cbn [rbind].
  destruct (meets_target _); [reflexivity|]. discriminate.
Qed.

(** C36: The parent of a block is never compared with the tip.  Outside signet, take any
    block the specification accepts on the tip, and change the parent it names to any
    32 bytes at all, as long as the proof of work still holds: when the changed
    block is the one due at the next height (and creates no output that is unspent
    already, and no undo record without a position is pending for it), activation
    makes it the best block and the active tip, with the coins of the first. *)
Theorem activation_ignores_parent (env : Env) (m : ChainstateManager B E) (u : UtxoMap) (av : option Z) (tip : BlockIndex) (hash : BlockHash)
    (b : Block) (p : BlockHash) (r : Amount * list Coin) (u' : UtxoMap) (ev := attempt_event env av ACTIVATE_BATCH_SIZE tip b m) :
  refines (cs_cache m) u -> is_activating m = false -> (assume_valid_of m).1 = Ok av -> (current_tip_of m).1 = Ok tip ->
  signet_blocks (consensus (cs_params m)) = false -> length p = length (prev_hash (header b)) ->
  ev_fresh ev u -> ev_spec (cs_params m) (cs_engine m) ev u = (Ok r, u') -> meets_target (header (with_parent p b)) = true ->
  due_block env ACTIVATE_BATCH_SIZE m (next_of tip) = Ok (Some (hash, with_parent p b)) ->
  (forall i, pending_undo_indexes (worker (cs_store m)) !! hash = Some i -> is_Some (file_pos i)) ->
  first_connected env av tip hash (with_parent p b) u' (activate_best_chain env m).1 (activate_best_chain env m).2.
Proof.
  intros Hr Ha Hv Ht Hsg Hl Hf Hs Hm Hd Hp. apply (activation_progress env m u av tip hash (with_parent p b) r u' Hr Ha Hv Ht Hd Hp Hf).
  rewrite (spec_parent (cs_params m) (cs_engine m) env av ACTIVATE_BATCH_SIZE tip p b m u Hl Hsg (accepted_target _ _ _ _ _ _ Hs) Hm). exact Hs.
Qed.

(** ** Headers *)

Definition found (r : result (option BlockIndex) StoreError) : option BlockIndex := default None (res_ok r).
(** The work of the header tip; nothing counts as zero. *)
Definition tip_work (s : Store B) : Hash256 :=
  match get_headers_tip s with Ok (Some t) => work_of (found (get_block_index s t)) | _ => ZERO_HASH end.
Definition header_work (s : Store B) (hdr : BlockHeader) : Hash256 :=
  add_chain_work (if is_zero (prev_hash hdr) then ZERO_HASH else work_of (found (get_block_index s (prev_hash hdr))))
    (calculate_block_work (bits hdr)).

Lemma work_of_ok (s : Store B) log r : store_inv s log -> hash_ok (work_of (found (get_block_index s r))).
Proof.
  intros Hi. unfold found. destruct (get_block_index s r) as [[i|]|] eqn:Eg; cbn; [|apply ZERO_HASH_ok..].
  apply (si_index _ _ Hi _ _ Eg).
Qed.
Lemma header_work_ok (s : Store B) log hdr : store_inv s log -> header_ok hdr -> hash_ok (header_work s hdr).
Proof.
  intros Hi Hh. apply add_loop_array; [destruct (is_zero _); [apply ZERO_HASH_ok|by apply (work_of_ok s log)]|].
  apply calculate_block_work_value. apply Hh.
Qed.

Lemma reads_ok {A} (f : Store B -> result A StoreError) (m : Mgr) : reads f m = (map_err StoreFailed (f (cs_store m)), m).
Proof. done. Qed.

(** The parent's work, as the handler reads it. *)
Lemma prev_work_eq (m m' : Mgr) hdr w :
  (if is_zero (prev_hash hdr) then ret ZERO_HASH
   else abind (reads (fun s => get_block_index s (prev_hash hdr))) (fun o => ret (work_of o))) m = (Ok w, m') ->
  m' = m /\ add_chain_work w (calculate_block_work (bits hdr)) = header_work (cs_store m) hdr.
Proof.
  unfold header_work. destruct (is_zero _); [by intros [= <- <-]|]. unfold abind, reads, ret, found.
  destruct (get_block_index _ _) as [o|]; [|done]. by intros [= <- <-].
Qed.

(** The tip's work, as the handler reads it after the write. *)
Lemma tip_work_eq (m m' : Mgr) tip w : get_headers_tip (cs_store m) = Ok tip ->
  match tip with
  | Some t => abind (reads (fun s => get_block_index s t)) (fun o => ret (work_of o))
  | None => ret ZERO_HASH
  end m = (Ok w, m') -> m' = m /\ w = tip_work (cs_store m).
Proof.
  unfold tip_work. intros ->. destruct tip as [t|]; [|by intros [= <- <-]]. unfold abind, reads, ret, found.
  destruct (get_block_index _ _) as [o|]; [|done]. by intros [= <- <-].
Qed.

Context {DO : DigestsOk D}.

Lemma process_header_inv hdr height (m m' : Mgr) : process_header hdr height m = (Ok tt, m') ->
  get_block_index (cs_store m) (block_hash hdr) = Ok None ->
  exists s1, handle_store_block_index (cs_store m) (block_hash hdr) (mkBlockIndex hdr height (header_work (cs_store m) hdr) None None) = (Ok tt, s1) /\
    (Hash256_gt (header_work (cs_store m) hdr) (tip_work s1) = false /\ cs_store m' = s1 \/
     Hash256_gt (header_work (cs_store m) hdr) (tip_work s1) = true /\ handle_update_headers_tip s1 (block_hash hdr) = (Ok tt, cs_store m')) /\
    cache (cs_cache m') = cache (cs_cache m).
Proof.
  intros H Hnone. unfold process_header in H. unfold abind at 1, reads at 1 in H. rewrite Hnone in H. cbn [map_err] in H.
  unfold abind at 1 in H. lazymatch type of H with (match ?x with pair _ _ => _ end) = _ => destruct x as [[w|e] m1] eqn:Ep end; [|done].
  apply prev_work_eq in Ep as [-> Ew]. rewrite Ew in H. unfold abind at 1, writes at 1 in H.
  destruct (handle_store_block_index _ _ _) as [[[]|e] s1] eqn:Es; [|done]. cbn [map_err] in H. exists s1. split; [done|].
  unfold abind at 1, reads at 1 in H. change (cs_store (set_store m s1)) with s1 in H.
  destruct (get_headers_tip s1) as [tip|] eqn:Et; [|done]. cbn [map_err] in H.
  unfold abind at 1 in H. lazymatch type of H with (match ?x with pair _ _ => _ end) = _ => destruct x as [[cw|e] m2] eqn:Ec end; [|done].
  apply tip_work_eq in Ec as [-> ->]; [|done]. change (cs_store (set_store m s1)) with s1 in H.
  destruct (Hash256_gt _ (tip_work s1)) eqn:Eg; [|by injection H as <-; split; [left|]].
  unfold writes in H. change (cs_store (set_store m s1)) with s1 in H. destruct (handle_update_headers_tip s1 _) as [[[]|e] s2]; [|done].
  injection H as <-. split; [by right|done].
Qed.

(** Processing a header changes only the store. *)
Lemma process_header_frame hdr height (m m' : Mgr) : process_header hdr height m = (Ok tt, m') -> exists s, m' = set_store m s.
Proof.
  intros H. destruct (get_block_index (cs_store m) (block_hash hdr)) as [[i|]|e] eqn:Eg;
    unfold process_header in H; unfold abind at 1, reads at 1 in H; rewrite Eg in H; cbn [map_err] in H; [|clear Eg|done].
  { injection H as <-. exists (cs_store m). by destruct m as [? ? ? []]. }
  unfold abind at 1 in H. lazymatch type of H with (match ?x with pair _ _ => _ end) = _ => destruct x as [[w|e] m1] eqn:Ep end; [|done].
  apply prev_work_eq in Ep as [-> _]. unfold abind at 1, writes at 1 in H.
  destruct (handle_store_block_index _ _ _) as [[[]|e] s1]; [|done]. cbn [map_err] in H. unfold abind at 1, reads at 1 in H.
  destruct (get_headers_tip _) as [tip|] eqn:Et; [|done]. cbn [map_err] in H.
  unfold abind at 1 in H. lazymatch type of H with (match ?x with pair _ _ => _ end) = _ => destruct x as [[cw|e] m2] eqn:Ec end; [|done].
  apply tip_work_eq in Ec as [-> _]; [|done]. destruct (Hash256_gt _ _); [|injection H as <-; by exists s1].
  unfold writes in H. destruct (handle_update_headers_tip _ _) as [r s2]. injection H as _ <-. by exists s2.
Qed.


(** ** Genesis *)

Lemma genesis_inv params (m m' : Mgr) : load_genesis_block params m = (Ok tt, m') ->
  get_block_index (cs_store m) (genesis_hash params) = Ok None ->
  exists s1 s2 s3 s4,
    handle_store_block_index (cs_store m) (genesis_hash params)
      (mkBlockIndex (genesis_header params) 0 (calculate_block_work (bits (genesis_header params))) None None) = (Ok tt, s1) /\
    handle_update_headers_tip s1 (genesis_hash params) = (Ok tt, s2) /\ handle_update_header_index s2 (genesis_hash params) 0 = (Ok tt, s3) /\
    handle_update_active_tip s3 (genesis_hash params) = (Ok tt, s4) /\
    m' = set_active_tip (set_cache m (set_best_block (with_base (cs_cache m) s4) (genesis_hash params) 0)) (Some (genesis_hash params, 0)).
Proof.
  intros H Hnone. unfold load_genesis_block, abind, reads, writes, modify in H. rewrite Hnone in H. cbn [map_err] in H.
  destruct (handle_store_block_index _ _ _) as [[[]|] s1] eqn:E1; [|done]. cbn [map_err set_store set_cache cs_store cs_cache with_base base] in H.
  destruct (handle_update_headers_tip _ _) as [[[]|] s2] eqn:E2; [|done]. cbn [map_err set_store set_cache cs_store cs_cache with_base base] in H.
  destruct (handle_update_header_index _ _ _) as [[[]|] s3] eqn:E3; [|done]. cbn [map_err set_store set_cache cs_store cs_cache with_base base] in H.
  destruct (handle_update_active_tip _ _) as [[[]|] s4] eqn:E4; [|done]. cbn [map_err] in H. injection H as <-.
  by exists s1, s2, s3, s4.
Qed.

Lemma load_genesis_store params (m m' : Mgr) log : header_ok (genesis_header params) -> load_genesis_block params m = (Ok tt, m') ->
  get_block_index (cs_store m) (genesis_hash params) = Ok None -> store_inv (cs_store m) log ->
  store_inv (cs_store m') log /\ forall o, get_coin (cs_store m') o = get_coin (cs_store m) o.
Proof.
  intros Hh H Hnone Hi. destruct (genesis_inv params m m' H Hnone) as (s1 & s2 & s3 & s4 & E1 & E2 & E3 & E4 & ->).
  change (cs_store (set_active_tip _ _)) with s4. split.
  - assert (store_inv s1 log) as I1.
    { eapply (store_inv_message _ log (StoreBlockIndex (genesis_hash params) _)); [exact Hi| |exact (f_equal Some E1)].
      split; [|done]. unfold block_index_ok. cbn. split_and!; try done. apply calculate_block_work_value. apply Hh. }
    assert (store_inv s2 log) as I2 by exact (store_inv_message _ log (UpdateHeadersTip _) _ _ I1 I (f_equal Some E2)).
    assert (store_inv s3 log) as I3 by exact (store_inv_message _ log (UpdateHeaderIndex _ _) _ _ I2 I (f_equal Some E3)).
    exact (store_inv_message _ log (UpdateActiveTip _) _ _ I3 I (f_equal Some E4)).
  - intros o. rewrite (coins_frame _ _ _ E4), (coins_frame _ _ _ E3), (coins_frame _ _ _ E2) by (intros; by no_effect).
    by apply (store_block_index_coins _ _ _ _ E1).
Qed.

(** Loading the genesis block into a store that does not have it makes it the
    header tip, the active tip and the best block at height 0, with its own work;
    loading it again changes nothing.  The connected-height entry of height 0 is
    not written: only the header-height entry is. *)
Lemma load_genesis_spec (params : ChainParams) (m m' : ChainstateManager B E) :
  header_ok (genesis_header params) -> load_genesis_block params m = (Ok tt, m') ->
  get_block_index (cs_store m) (genesis_hash params) = Ok None ->
  get_block_index (cs_store m') (genesis_hash params) =
    Ok (Some (mkBlockIndex (genesis_header params) 0 (calculate_block_work (bits (genesis_header params))) None None)) /\
  get_headers_tip (cs_store m') = Ok (Some (genesis_hash params)) /\ store_get_best_block (cs_store m') = Ok (Some (genesis_hash params)) /\
  active_tip m' = Some (genesis_hash params, 0) /\ get_best_block (cs_cache m') = Some (genesis_hash params) /\
  get_block_hash_by_header_height (cs_store m') 0 = Ok (Some (genesis_hash params)) /\
  get_block_hash (cs_store m') 0 = get_block_hash (cs_store m) 0 /\
  load_genesis_block params m' = (Ok tt, m').
Proof.
  intros Hh H Hnone. destruct (genesis_inv params m m' H Hnone) as (s1 & s2 & s3 & s4 & E1 & E2 & E3 & E4 & ->).
  assert (length (genesis_hash params) = 32%nat) as Hl by apply hash256_array.
  assert (block_index_ok (mkBlockIndex (genesis_header params) 0 (calculate_block_work (bits (genesis_header params))) None None)) as Hi.
  { unfold block_index_ok. cbn. split_and!; try done. apply calculate_block_work_value. apply Hh. }
  pose proof (store_block_index_effects _ _ _ _ E1 Hi Hl) as (A1 & _ & A3 & _ & A5 & _).
  pose proof (put_hash_effects _ _ _ _ _ E2 ltac:(done) Hl) as (B1 & B2 & B3).
  pose proof (put_hash_effects _ _ _ _ _ E3 ltac:(done) Hl) as (C1 & C2 & C3).
  pose proof (put_hash_effects _ _ _ _ _ E4 ltac:(done) Hl) as (D1 & D2 & D3).
  cbn [set_active_tip set_cache cs_store cs_cache set_best_block with_base base active_tip].
  assert (get_block_index s4 (genesis_hash params) = Ok (Some (mkBlockIndex (genesis_header params) 0 (calculate_block_work (bits (genesis_header params))) None None))) as G
    by (by rewrite D3, C3, B3). split_and!.
  - exact G.
  - unfold get_headers_tip in *. rewrite D2, C2 by key_ne. done.
  - exact D1.
  - done.
  - done.
  - unfold get_block_hash_by_header_height. rewrite D2 by key_ne. done.
  - unfold get_block_hash in *. rewrite D2, C2, B2 by key_ne. apply A5.
  - unfold load_genesis_block, abind, reads. cbn [set_active_tip set_cache cs_store cs_cache set_best_block with_base base]. by rewrite G.
Qed.

(** ** The tips and the flush counter *)

(** The manager between messages: not activating, the active tip is the best
    block of the cache, and a flush is due within the interval. *)
Record mgr_inv (m : Mgr) : Prop := {
  mi_idle : is_activating m = false;
  mi_tip : forall hash h, active_tip m = Some (hash, h) -> best_block (cs_cache m) = Some hash;
  mi_flush : 0 <= blocks_since_flush m < FLUSH_INTERVAL_BLOCKS;
}.
Definition tip_ok (m : Mgr) : Prop :=
  (forall hash h, active_tip m = Some (hash, h) -> best_block (cs_cache m) = Some hash) /\
  0 <= blocks_since_flush m < FLUSH_INTERVAL_BLOCKS.

Lemma set_store_tip (m : Mgr) s : tip_ok m -> tip_ok (set_store m s).
Proof. done. Qed.

Lemma flush_if_due_tip order (m m' : Mgr) : flush_if_due order m = (Ok tt, m') ->
  active_tip m' = active_tip m /\ best_block (cs_cache m') = best_block (cs_cache m) /\
  (0 <= blocks_since_flush m -> 0 <= blocks_since_flush m' < FLUSH_INTERVAL_BLOCKS).
Proof.
  unfold flush_if_due. destruct (Z.leb_spec FLUSH_INTERVAL_BLOCKS (blocks_since_flush m)).
  - unfold flush. destruct (update_utxos _ _ _ _) as [[[]|e] b]; [|done]. intros [= <-]. cbn. done.
  - intros [= <-]. split_and!; done || lia.
Qed.

Lemma connected_tip order hash h undo (m m' : Mgr) : connected order hash h undo m = (Ok tt, m') ->
  0 <= blocks_since_flush m < FLUSH_INTERVAL_BLOCKS -> tip_ok m' /\ active_tip m' = Some (hash, h).
Proof.
  intros H Hb. unfold connected, abind, modify, writes in H. destruct (handle_store_undo _ _ _) as [[[]|e] s]; [|done]. cbn [map_err] in H.
  apply flush_if_due_tip in H as (Ha & Hbb & Hf).
  cbn [set_since_flush set_active_tip set_cache active_tip cs_cache blocks_since_flush set_store set_failed set_best_block best_block] in *.
  rewrite wrap_u_small in Hf by (unfold FLUSH_INTERVAL_BLOCKS in *; lia). split; [|done]. split; [|apply Hf; lia].
  intros hash' h'. rewrite Ha, Hbb. by intros [= <- <-].
Qed.

Lemma activate_loop_tip env av n tip (m m' : Mgr) : tip_ok m -> activate_loop env av n tip m = (Ok tt, m') -> tip_ok m'.
Proof.
  revert tip m m'. induction n as [|n IH]; intros tip m m' Ht H; cbn [activate_loop] in H; [by injection H as <-|].
  unfold abind at 1 in H. destruct (next_hash_frame (wrap_u 32 (bi_height tip + 1)) m) as ([hash|] & w & En); rewrite En in H; [|by injection H as <-].
  unfold abind at 1, gets in H. destruct (recently_failed _ _ _ _); [by injection H as <-|].
  unfold abind at 1, reads in H. destruct (get_block _ hash) as [[raw|]|e]; cbn [map_err] in H; [|by injection H as <-|done].
  destruct (decode_Block _) as [[b d]|e]; [|done].
  pose proof (connect_next_shell (set_waiting m w) (join_order env (S n)) av (wrap_u 32 (bi_height tip + 1)) b tip) as Hs.
  destruct (connect_next _ _ _ _ _ _) as [[[fees undo]|e] c].
  - unfold abind in H. destruct (connected _ _ _ _ _) as [[[]|e] m2] eqn:Ec; [|done].
    eapply IH; [|exact H]. by apply connected_tip in Ec as [? _]; [|apply Ht].
  - injection H as <-. destruct Hs as (_ & Hbb & _). destruct Ht as [Ht1 Ht2]. split; [|done].
    cbn [set_failed set_cache set_waiting active_tip cs_cache] in *. rewrite Hbb. done.
Qed.

Lemma activate_tip env (m m' : Mgr) : tip_ok m -> activate_best_chain env m = (Ok tt, m') -> is_activating m = false -> tip_ok m' /\ is_activating m' = false.
Proof.
  intros Ht H Ha. unfold activate_best_chain in H. rewrite Ha in H. set (m1 := set_activating m true) in H.
  destruct (activate_best_chain_inner env m1) as [r m2] eqn:E2. injection H as -> <-. split; [|done].
  cut (tip_ok m2); [done|]. unfold activate_best_chain_inner in E2. unfold abind at 1 in E2.
  pose proof (assume_valid_frame m1) as F1. destruct (assume_valid_of m1) as [[av|e] m3]; cbn [snd] in F1; subst m3; [|done].
  unfold abind at 1 in E2. pose proof (current_tip_frame m1) as F2. destruct (current_tip_of m1) as [[tip|e] m3]; cbn [snd] in F2; subst m3; [|done].
  eapply activate_loop_tip; [|exact E2]. done.
Qed.

(** A message answered with success keeps the invariant. *)
Lemma manager_step (env : Env) (msg : ChainstateMsg) (m m' : ChainstateManager B E) :
  mgr_inv m -> handle_chainstate_msg env msg m = (Ok tt, m') -> mgr_inv m'.
Proof.
  intros [Hi Ht Hf] H. assert (tip_ok m) as Hok by done. destruct msg; cbn [handle_chainstate_msg] in H.
  - destruct (get_block_index (cs_store m) (block_hash hdr)) as [[i|]|e] eqn:Eg.
    + unfold process_header, abind at 1, reads in H. rewrite Eg in H. by injection H as <-.
    + apply process_header_frame in H as [s ->]. by split.
    + unfold process_header, abind at 1, reads in H. by rewrite Eg in H.
  - unfold writes in H. destruct (handle_store_block_indexes _ _ _) as [r s]. injection H as _ <-. by split.
  - unfold process_block_downloaded, modify in H. injection H as <-. by split.
  - destruct (activate_tip env m m' Hok H Hi) as [[? ?] ?]. by split.
  - destruct (get_block_index (cs_store m) (genesis_hash params)) as [[i|]|e] eqn:Eg.
    + unfold load_genesis_block, abind at 1, reads in H. rewrite Eg in H. by injection H as <-.
    + destruct (genesis_inv params m m' H Eg) as (s1 & s2 & s3 & s4 & _ & _ & _ & _ & ->). split; [done| |done].
      cbn. by intros hash h [= <- <-].
    + unfold load_genesis_block, abind at 1, reads in H. by rewrite Eg in H.
Qed.

(** C6: The manager's invariant holds after every message that is answered with
    success: it is idle, the active tip is the best block of the coin cache, and
    fewer than [FLUSH_INTERVAL_BLOCKS] blocks are unflushed. *)
Theorem chainstate_invariant (env : Env) (msg : ChainstateMsg) (m m' : ChainstateManager B E) :
  mgr_inv m -> handle_chainstate_msg env msg m = (Ok tt, m') -> mgr_inv m'.
Proof. apply manager_step. Qed.
End Proofs.

(** ** Concrete managers *)

Definition demo_params : ChainParams :=
  mkChainParams REGTEST (test_header 0)
    (mkConsensusParams 1000 1000 1000 1000 (le_bytes 32 (2 ^ 255 - 1)) 600 1209600 true true 150 ZERO_HASH ZERO_HASH false [])
    18444 "bcrt" [] [].
Definition demo_env : Env := mkEnv (fun _ => 0) (fun _ l => l) (fun _ => []).
Definition demo_new : ChainstateManager Database ConsensusEngine :=
  @ChainstateManager_new _ _ in_memory demo_params test_magic_store 1024 (ConsensusEngine_new Native) false.
Definition demo_genesis : ChainstateManager Database ConsensusEngine :=
  (@load_genesis_block _ _ in_memory toy_digests demo_params demo_new).2.

Definition demo_coinbase : Transaction := mkTransaction 1 [mkTxIn OutPoint_COINBASE [2; 200; 0] 0 []] [mkTxOut 50 [0x51]] 0.
(** A block of height 1 with the given parent. *)
Definition demo_block (parent : BlockHash) : Block :=
  mkBlock (mkBlockHeader 1 parent (@merkle_of toy_digests [@txid toy_digests demo_coinbase]) 1 0x207fffff 0) [demo_coinbase].
Definition demo_hash (parent : BlockHash) : BlockHash := @block_hash toy_digests (header (demo_block parent)).
(** The manager after the block was downloaded and stored. *)
Definition demo_stored (parent : BlockHash) : ChainstateManager Database ConsensusEngine :=
  let m := demo_genesis in
  set_store m (@handle_store_blocks _ in_memory toy_digests (cs_store m)
    [(header (demo_block parent), 1, ZERO_HASH, serialize encode_Block (demo_block parent))]).2.
Definition demo_activate (m : ChainstateManager Database ConsensusEngine) : result unit ChainError * ChainstateManager Database ConsensusEngine :=
  @activate_best_chain _ _ in_memory toy_digests toy_secp (@ConsensusEngine_verify toy_digests toy_secp) demo_env m.

Definition demo_parent : BlockHash := @genesis_hash toy_digests demo_params.
Definition demo_manager : ChainstateManager Database ConsensusEngine := demo_stored demo_parent.

Lemma demo_header_ok : header_ok (genesis_header demo_params).
Proof. unfold header_ok, u32_ok, i32_ok. cbn. split_and!; try done; apply ZERO_HASH_ok. Qed.

Lemma demo_store_inv : store_inv (cs_store demo_genesis) [] /\ forall o, get_coin (cs_store demo_genesis) o = None.
Proof.
  destruct (@load_genesis_store Database ConsensusEngine in_memory in_memory_ok toy_digests
    demo_params demo_new demo_genesis []) as [H1 H2].
  - exact demo_header_ok.
  - apply (pair_eq (@load_genesis_block _ _ in_memory toy_digests demo_params demo_new)). vm_compute. reflexivity.
  - vm_compute. reflexivity.
  - exact test_magic_inv.
  - split; [exact H1|]. intros o. rewrite H2. cbn. by case_bool_decide.
Qed.

(** Storing the block leaves the coins alone. *)
Ltac solve_demo_refines m :=
  destruct demo_store_inv as [Hi Hc];
  assert (forall o, get_coin (cs_store m) o = None) as Hn
    by (intros o; rewrite <- (Hc o); apply (store_blocks_coins _ [] _ Hi); [repeat constructor; vm_compute; done|vm_compute; reflexivity]);
  split;
  [ intros o e He; vm_compute in He; by destruct o as [[] ?]
  | intros o; rewrite get_coin_eq; change (cache (cs_cache m)) with (∅ : gmap OutPoint CoinCacheEntry); rewrite !lookup_empty; apply Hn ].
Lemma demo_refines : refines (cs_cache demo_manager) (∅ : UtxoMap).
Proof. solve_demo_refines demo_manager. Qed.
(** The block of height 1 that names another parent. *)
Definition orphan_parent : BlockHash := replicate 32 7.
Definition orphan_manager : ChainstateManager Database ConsensusEngine := demo_stored orphan_parent.
Lemma orphan_refines : refines (cs_cache orphan_manager) (∅ : UtxoMap).
Proof. solve_demo_refines orphan_manager. Qed.

Abbreviation demo_verify := (@ConsensusEngine_verify toy_digests toy_secp).
Definition demo_tip : BlockIndex :=
  mkBlockIndex (genesis_header demo_params) 0 (calculate_block_work (bits (genesis_header demo_params))) None None.

Abbreviation demo_activation := (@activation _ _ in_memory toy_digests toy_secp demo_verify).
Lemma activation_refines_witness :
  exists evs tip' u' m', demo_activation demo_env None ACTIVATE_BATCH_SIZE demo_tip ∅ (set_activating demo_manager true) evs tip' u' (demo_activate demo_manager).1 m' /\
    (length evs <= ACTIVATE_BATCH_SIZE)%nat /\ (demo_activate demo_manager).2 = set_activating m' false.
Proof.
  apply (@activation_refines _ _ in_memory in_memory_ok toy_digests toy_secp demo_verify demo_env demo_manager ∅ None demo_tip).
  - exact demo_refines.
  - reflexivity.
  - vm_compute. reflexivity.
  - vm_compute. reflexivity.
Defined.

Definition demo_event : Event := attempt_event demo_env None ACTIVATE_BATCH_SIZE demo_tip (demo_block demo_parent) orphan_manager.
Definition demo_outcome := @ev_spec _ toy_digests toy_secp demo_verify demo_params (ConsensusEngine_new Native) demo_event ∅.

Lemma activation_ignores_parent_witness :
  orphan_parent <> demo_parent /\
  @first_connected _ _ in_memory toy_digests toy_secp demo_verify demo_env None demo_tip (demo_hash orphan_parent) (demo_block orphan_parent) demo_outcome.2
    (demo_activate orphan_manager).1 (demo_activate orphan_manager).2.
Proof.
  split; [vm_compute; discriminate|].
  apply (@activation_ignores_parent _ _ in_memory in_memory_ok toy_digests toy_secp demo_verify demo_env orphan_manager ∅ None demo_tip (demo_hash orphan_parent)
    (demo_block demo_parent) orphan_parent (0, []) demo_outcome.2).
  - exact orphan_refines.
  - reflexivity.
  - vm_compute. reflexivity.
  - vm_compute. reflexivity.
  - reflexivity.
  - vm_compute. reflexivity.
  - apply (bool_decide_unpack _). vm_compute. exact I.
  - apply (pair_eq demo_outcome). vm_compute. reflexivity.
  - vm_compute. reflexivity.
  - vm_compute. reflexivity.
  - intros i Hi. vm_compute in Hi. discriminate.
Defined.

Definition demo_after_header : ChainstateManager Database ConsensusEngine :=
  (@process_header _ _ in_memory toy_digests (test_header 5) 1 demo_new).2.

Lemma load_genesis_spec_witness :
  @get_headers_tip _ in_memory (cs_store demo_genesis) = Ok (Some demo_parent) /\
  @get_block_hash _ in_memory (cs_store demo_genesis) 0 = @get_block_hash _ in_memory (cs_store demo_new) 0.
Proof.
  destruct (@load_genesis_spec _ _ in_memory in_memory_ok toy_digests toy_digests_ok demo_params demo_new demo_genesis) as (_ & H1 & _ & _ & _ & _ & H2 & _).
  - exact demo_header_ok.
  - apply (pair_eq (@load_genesis_block _ _ in_memory toy_digests demo_params demo_new)). vm_compute. reflexivity.
  - vm_compute. reflexivity.
  - split; [exact H1|exact H2].
Defined.

Lemma chainstate_invariant_witness : mgr_inv (demo_activate demo_manager).2.
Proof.
  apply (@chainstate_invariant _ _ in_memory toy_digests toy_secp demo_verify demo_env ActivateBestChain demo_manager).
  - split; [reflexivity| |split; [vm_compute; discriminate|reflexivity]].
    intros hash h H. vm_compute in H. injection H as <- <-. vm_compute. reflexivity.
  - apply (pair_eq (demo_activate demo_manager)). vm_compute. reflexivity.
Defined.
