(* ===== verification/Node.v ===== *)
(** * The blockchain facade and the mempool

    node/blockchain.rs and node/mempool.rs: header and block acceptance on top of
    the chainstate actor, the in-memory header path, block locators, the choice of
    the blocks to download, and the queries the network and RPC layers use.

    The facade's [store] is a clone that shares the chainstate's database and
    files, so the model reads the manager's store.  A call of the actor is handled
    before the caller goes on: the operations below are sequential. *)

From S2P Require Import Prelude Wire Hash Transaction Block Params Pow Coins Taproot Engine Validation BlockFile Store Chainstate.

(** ** Mempool *)

Inductive MempoolError : Type := Duplicate.
Record Mempool : Type := mkMempool { txs : gmap Txid Transaction }.
Definition Mempool_new : Mempool := mkMempool ∅.
Section Mempool.
Context {D : Digests}.
Definition accept_tx (p : Mempool) (tx : Transaction) : result unit MempoolError * Mempool :=
  let id := txid tx in
  match txs p !! id with
  | Some _ => (Err Duplicate, p)
  | None => (Ok tt, mkMempool (<[id := tx]> (txs p)))
  end.
Definition mempool_remove (p : Mempool) (id : Txid) : Mempool := mkMempool (delete id (txs p)).
Definition get_all (p : Mempool) : list Transaction := (map_to_list (txs p)).*2.
End Mempool.

(** ** State *)

Inductive NodeError : Type :=
  | NodeStore (e : StoreError)
  | NodeChain (e : ChainError)
  | OrphanHeader (parent : BlockHash)
  | HeaderCheckFailed (e : ValidationError)
  | StatelessFailed (e : ValidationError)
  | HeaderNotFound (hash : BlockHash).

Record Blockchain (B E : Type) : Type := mkBlockchain {
  bc_manager : ChainstateManager B E;
  mempool : Mempool;
  bc_params : ChainParams;
  best_header_chain : list BlockHash;
}.
Arguments mkBlockchain {B E}.
Arguments bc_manager {B E}.
Arguments mempool {B E}.
Arguments bc_params {B E}.
Arguments best_header_chain {B E}.

Section Node.
Context {B E : Type} {SB : StorageBackend B} {D : Digests} {K : Taproot.Secp} {SE : ScriptEngine E}.
Abbreviation Node := (Blockchain B E).

Definition bc_store (bc : Node) : Store B := cs_store (bc_manager bc).
Definition set_manager (bc : Node) (m : ChainstateManager B E) : Node :=
  mkBlockchain m (mempool bc) (bc_params bc) (best_header_chain bc).
Definition set_mempool (bc : Node) (p : Mempool) : Node :=
  mkBlockchain (bc_manager bc) p (bc_params bc) (best_header_chain bc).
Definition set_header_chain (bc : Node) (chain : list BlockHash) : Node :=
  mkBlockchain (bc_manager bc) (mempool bc) (bc_params bc) chain.

(** A message to the chainstate actor, and its reply. *)
Definition call_chainstate (env : Env) (msg : ChainstateMsg) (bc : Node) : result unit NodeError * Node :=
  let '(r, m) := handle_chainstate_msg env msg (bc_manager bc) in (map_err NodeChain r, set_manager bc m).

(** ** The header path *)

Definition index_opt (s : Store B) (hash : BlockHash) : option BlockIndex := default None (res_ok (get_block_index s hash)).

(** The walk back from the tip; [n] is [current_height]. *)
Fixpoint reconstruct_loop (s : Store B) (n : nat) (path : list BlockHash) (current_hash : option BlockHash) : list BlockHash :=
  match current_hash with
  | None => path
  | Some hash =>
    if is_zero hash then path else
    let path := <[n := hash]> path in
    match n with
    | O => path
    | S n => reconstruct_loop s n path (match index_opt s hash with Some i => Some (prev_hash (bi_header i)) | None => None end)
    end
  end.

Definition reconstruct_header_chain (bc : Node) : Node :=
  let s := bc_store bc in
  let headers_tip := default None (res_ok (get_headers_tip s)) in
  let blocks_tip := default None (res_ok (store_get_best_block s)) in
  match (match headers_tip with Some t => Some t | None => blocks_tip end) with
  | None => bc
  | Some tip_hash =>
    match index_opt s tip_hash with
    | None => bc
    | Some tip_index =>
      let total_expected := wrap_u 32 (bi_height tip_index + 1) in
      let path := replicate (Z.to_nat total_expected) ZERO_HASH in
      set_header_chain bc (reconstruct_loop s (Z.to_nat (bi_height tip_index)) path (Some tip_hash))
    end
  end.

Definition Blockchain_new (m : ChainstateManager B E) (p : Mempool) (params : ChainParams) : Node :=
  reconstruct_header_chain (mkBlockchain m p params []).

Definition genesis_index (params : ChainParams) : BlockIndex :=
  mkBlockIndex (genesis_header params) 0 (calculate_block_work (bits (genesis_header params))) None None.

(** [BlockIndexProvider for Blockchain] *)
Definition bc_index_by_height (bc : Node) (height : Z) : option BlockIndex :=
  if height =? 0 then Some (genesis_index (bc_params bc)) else store_index_by_height (bc_store bc) height.

(** [BlockIndexProvider for HeaderBatchProvider] *)
Definition batch_index_by_height (bc : Node) (by_height : gmap Z BlockIndex) (height : Z) : option BlockIndex :=
  match by_height !! height with Some i => Some i | None => bc_index_by_height bc height end.

Definition header_hash_at_height (bc : Node) (height : Z) : option BlockHash :=
  let fallback := match bc_index_by_height bc height with Some i => Some (block_hash (bi_header i)) | None => None end in
  match best_header_chain bc !! Z.to_nat height with
  | Some hash => if negb (is_zero hash) then Some hash else fallback
  | None => fallback
  end.

Definition block_locator (bc : Node) (tip : BlockHash) : list BlockHash :=
  let genesis := genesis_hash (bc_params bc) in
  match index_opt (bc_store bc) tip with
  | None => [genesis]
  | Some i =>
    let tip_height := bi_height i in
    let locator := build_block_locator tip_height
      (fun height => if height =? tip_height then Some tip else header_hash_at_height bc height) in
    if bool_decide (last locator = Some genesis) then locator else locator ++ [genesis]
  end.

Definition update_chain (chain : list BlockHash) (hash : BlockHash) (height : Z) : list BlockHash :=
  let n := Z.to_nat height in
  if (length chain =? 0)%nat && (height <? 2000) && (height =? 0) then chain ++ [hash]
  else if (n =? length chain)%nat then chain ++ [hash]
  else if (n <? length chain)%nat then
    if bool_decide (chain !! n = Some hash) then chain else take n chain ++ [hash]
  else chain.

Definition update_header_chain (bc : Node) (hash : BlockHash) (height : Z) : Node :=
  set_header_chain bc (update_chain (best_header_chain bc) hash height).

(** ** Headers *)

Definition bc_process_header (env : Env) (hdr : BlockHeader) (bc : Node) : result Z NodeError * Node :=
  let hash := block_hash hdr in
  match get_block_index (bc_store bc) hash with
  | Err e => (Err (NodeStore e), bc)
  | Ok (Some index) => (Ok (bi_height index), update_header_chain bc hash (bi_height index))
  | Ok None =>
    match
      if is_zero (prev_hash hdr) then Ok (0, None)
      else match get_block_index (bc_store bc) (prev_hash hdr) with
        | Err e => Err (NodeStore e)
        | Ok (Some parent_index) => Ok (BlockHeight_next (bi_height parent_index), Some parent_index)
        | Ok None => Err (OrphanHeader (prev_hash hdr))
        end
    with
    | Err e => (Err e, bc)
    | Ok (height, prev_index) =>
      match match prev_index with
        | Some prev => check_block_header (P := bc_index_by_height bc) hdr prev (bc_params bc)
        | None => Ok tt
        end with
      | Err e => (Err (HeaderCheckFailed e), bc)
      | Ok _ =>
        match call_chainstate env (ProcessHeader hdr height) bc with
        | (Err e, bc) => (Err e, bc)
        | (Ok _, bc) => (Ok height, update_header_chain bc hash height)
        end
      end
    end
  end.

(** The local state of [process_headers]. *)
Record HeaderBatch : Type := mkBatch {
  heights : list Z;
  pending : list (BlockHash * BlockIndex);
  by_hash : gmap BlockHash BlockIndex;
  by_height : gmap Z BlockIndex;
  best_work : Hash256;
  best_tip : option BlockHash;
}.

Definition batch_parent (s : Store B) (b : HeaderBatch) (prev : BlockHash) : option BlockIndex :=
  match by_hash b !! prev with Some i => Some i | None => index_opt s prev end.

(** The index a connected header gets. *)
Definition child_index (hdr : BlockHeader) (prev : BlockIndex) : BlockIndex :=
  mkBlockIndex hdr (BlockHeight_next (bi_height prev))
    (add_chain_work (chain_work prev) (calculate_block_work (bits hdr))) None None.

(** What the loop does with a header that is indexed, and with one that connects. *)
Definition batch_known (b : HeaderBatch) (hash : BlockHash) (index : BlockIndex) : HeaderBatch :=
  mkBatch (heights b ++ [bi_height index]) (pending b) (<[hash := index]> (by_hash b)) (<[bi_height index := index]> (by_height b))
    (best_work b) (best_tip b).
Definition batch_push (b : HeaderBatch) (hash : BlockHash) (index : BlockIndex) : HeaderBatch :=
  let better := Hash256_gt (chain_work index) (best_work b) in
  mkBatch (heights b ++ [bi_height index]) (pending b ++ [(hash, index)])
    (<[hash := index]> (by_hash b)) (<[bi_height index := index]> (by_height b))
    (if better then chain_work index else best_work b) (if better then Some hash else best_tip b).

Fixpoint accept_headers (bc : Node) (headers : list BlockHeader) (b : HeaderBatch) : result HeaderBatch NodeError :=
  match headers with
  | [] => Ok b
  | hdr :: headers =>
    let hash := block_hash hdr in
    let? known := map_err NodeStore (get_block_index (bc_store bc) hash) in
    match known with
    | Some index => accept_headers bc headers (batch_known b hash index)
    | None =>
      match batch_parent (bc_store bc) b (prev_hash hdr) with
      | None => Ok b
      | Some prev =>
        let? _ := map_err HeaderCheckFailed
          (check_block_header (P := batch_index_by_height bc (by_height b)) hdr prev (bc_params bc)) in
        accept_headers bc headers (batch_push b hash (child_index hdr prev))
      end
    end
  end.

Definition batch_start (s : Store B) (current_tip : option BlockHash) : HeaderBatch :=
  mkBatch [] [] ∅ ∅ (match current_tip with Some t => work_of (index_opt s t) | None => ZERO_HASH end) None.

Definition update_chains (headers : list BlockHeader) (heights : list Z) (bc : Node) : Node :=
  fold_left (fun bc p => update_header_chain bc (block_hash p.1) p.2) (zip headers heights) bc.

Definition process_headers (env : Env) (headers : list BlockHeader) (bc : Node) : result (list Z) NodeError * Node :=
  match
    let? current_tip := map_err NodeStore (get_headers_tip (bc_store bc)) in
    accept_headers bc headers (batch_start (bc_store bc) current_tip)
  with
  | Err e => (Err e, bc)
  | Ok b =>
    match (if (length (pending b) =? 0)%nat then (Ok tt, bc)
           else call_chainstate env (ProcessHeaders (pending b) (best_tip b)) bc) with
    | (Err e, bc) => (Err e, bc)
    | (Ok _, bc) => (Ok (heights b), update_chains headers (heights b) bc)
    end
  end.

(** ** Blocks *)

(** [store_block], awaited: the worker's reply to one block write. *)
Definition accept_block (bc : Node) (b : Block) (index : BlockIndex) : result unit NodeError * Node :=
  match file_pos index with
  | Some _ => (Ok tt, bc)
  | None =>
    let '(r, s) := handle_store_blocks (bc_store bc) [(header b, bi_height index, chain_work index, serialize encode_Block b)] in
    (match r with Ok _ => Ok tt | Err e => Err (NodeStore e) end, set_manager bc (set_store (bc_manager bc) s))
  end.

Definition process_block (env : Env) (b : Block) (bc : Node) : result Z NodeError * Node :=
  let hash := block_hash (header b) in
  match check_block b (bc_params bc) with
  | Err e => (Err (StatelessFailed e), bc)
  | Ok _ =>
    match get_block_index (bc_store bc) hash with
    | Err e => (Err (NodeStore e), bc)
    | Ok None => (Err (HeaderNotFound hash), bc)
    | Ok (Some index) =>
      match accept_block bc b index with
      | (Err e, bc) => (Err e, bc)
      | (Ok _, bc) =>
        match call_chainstate env (ProcessBlockDownloaded hash (bi_height index)) bc with
        | (Err e, bc) => (Err e, bc)
        | (Ok _, bc) => (Ok (bi_height index), bc)
        end
      end
    end
  end.

Definition add_to_mempool (tx : Transaction) (bc : Node) : result unit MempoolError * Node :=
  let '(r, p) := accept_tx (mempool bc) tx in (r, set_mempool bc p).
Definition load_genesis (env : Env) (bc : Node) : result unit NodeError * Node := call_chainstate env (LoadGenesis (bc_params bc)) bc.
Definition bc_activate_best_chain (env : Env) (bc : Node) : result unit NodeError * Node := call_chainstate env ActivateBestChain bc.

(** ** Queries *)

(** [now] is the seconds of the system clock. *)
Definition is_initial_block_download (bc : Node) (now : Z) : bool :=
  match get_block_tip (bc_store bc) with
  | Ok (Some tip_hash) =>
    match get_block_index (bc_store bc) tip_hash with
    | Ok (Some index) => time (bi_header index) + 86400 <? now
    | _ => true
    end
  | _ => true
  end.

Definition needs_block_data (s : Store B) (hash : BlockHash) : bool :=
  match get_block s hash with Ok (Some _) => false | _ => true end.

(** [needs_block_data(&hash) && queued.insert(hash)], and the push. *)
Definition enqueue (s : Store B) (q : list BlockHash * gset BlockHash) (hash : BlockHash) : list BlockHash * gset BlockHash :=
  if needs_block_data s hash && negb (bool_decide (hash ∈ q.2)) then (q.1 ++ [hash], {[hash]} ∪ q.2) else q.

(** The second phase, over the header-height entries of [h], [h + 1], ... *)
Fixpoint queue_indexed (s : Store B) (n : nat) (h : Z) (q : list BlockHash * gset BlockHash) : list BlockHash * gset BlockHash :=
  match n with
  | O => q
  | S n =>
    match get_block_hash_by_header_height s h with
    | Ok (Some hash) => queue_indexed s n (h + 1) (enqueue s q hash)
    | _ => q
    end
  end.

(** The cached hashes of the window. *)
Definition window (chain : list BlockHash) (first : Z) (limit : nat) : list BlockHash := take limit (drop (Z.to_nat first) chain).

Definition get_next_block_hashes_for_sync (bc : Node) (start_height : Z) (limit : nat) : list BlockHash :=
  let s := bc_store bc in
  let first := wrap_u 32 (start_height + 1) in
  let q := fold_left (enqueue s) (window (best_header_chain bc) first limit) ([], ∅) in
  if (length q.1 <? limit)%nat then
    let db_start := wrap_u 32 (first + wrap_u 32 (Z.of_nat (length q.1))) in
    let db_end := wrap_u 32 (first + wrap_u 32 (Z.of_nat limit)) in
    (queue_indexed s (Z.to_nat (db_end - db_start)) db_start q).1
  else q.1.

Definition has_next_block_on_disk (bc : Node) (start_height : Z) : bool :=
  match get_block_hash_by_header_height (bc_store bc) (wrap_u 32 (start_height + 1)) with
  | Ok (Some hash) => match get_block (bc_store bc) hash with Ok (Some _) => true | _ => false end
  | _ => false
  end.

(** [RpcNodeProvider for Blockchain] *)
Definition rpc_get_best_block (bc : Node) : result (option BlockHash) StoreError :=
  match active_tip (bc_manager bc) with Some (hash, _) => Ok (Some hash) | None => store_get_best_block (bc_store bc) end.
Definition get_block_index_height (bc : Node) (hash : BlockHash) : result (option Z) StoreError :=
  match get_block_index (bc_store bc) hash with
  | Ok (Some index) => Ok (Some (bi_height index)) | Ok None => Ok None | Err e => Err e
  end.

(** [SyncProvider for Blockchain] *)
Definition sync_get_block_index (bc : Node) (hash : BlockHash) : option BlockIndex :=
  if bool_decide (hash = genesis_hash (bc_params bc)) then Some (genesis_index (bc_params bc)) else index_opt (bc_store bc) hash.
Definition get_blocks_tip (bc : Node) : BlockHash * Z :=
  match active_tip (bc_manager bc) with
  | Some tip => tip
  | None =>
    match store_get_best_block (bc_store bc) with
    | Ok (Some hash) => (hash, height_or_zero (index_opt (bc_store bc) hash))
    | _ => (genesis_hash (bc_params bc), 0)
    end
  end.
Definition sync_get_headers_tip (bc : Node) : BlockHash * Z :=
  let hash := default ZERO_HASH (default None (res_ok (get_headers_tip (bc_store bc)))) in
  (hash, if bool_decide (hash = ZERO_HASH) then 0 else height_or_zero (index_opt (bc_store bc) hash)).
End Node.
