(* ===== verification/NodeProofs.v ===== *)
(** * Properties of the blockchain facade

    The index is a tree of headers rooted at parentless headers, with heights and
    work that add up along it, and every operation of the node keeps it so; header
    batches; the header path rebuilt on start-up; locators; the download window. *)

From Stdlib Require Import Sorted.
From S2P Require Import Prelude Wire Hash Transaction Block Params Pow Coins ScriptNum ScriptOps Taproot Signet Engine Validation ConnectSpec BlockFile Store StoreInv Chainstate ChainstateProofs Node.

(** In a decreasing list the last element is the least. *)
Lemma StronglySorted_last_ge (l : list Z) (z x : Z) : StronglySorted Z.gt l -> last l = Some z -> x ∈ l -> z <= x.
Proof.
  induction 1 as [|y l Hs IH Hy]; intros Hl Hx; [done|]. destruct l as [|y' l].
  - injection Hl as ->. apply list_elem_of_singleton in Hx. lia.
  - apply elem_of_cons in Hx as [->|Hx]; [|by apply IH]. rewrite Forall_forall in Hy.
    assert (z ∈ y' :: l) as Hz by (apply last_Some_elem_of; done). specialize (Hy z Hz). lia.
Qed.

Section Tree.
Context {B E : Type} {SB : StorageBackend B} {SO : StorageBackendOk B} {D : Digests} {K : Taproot.Secp} {SE : ScriptEngine E}.
Implicit Types s : Store B.
Implicit Types bc : Blockchain B E.

(** ** The tree of headers *)

Definition indexed s (hash : BlockHash) (i : BlockIndex) : Prop := get_block_index s hash = Ok (Some i).
(** The part of a record that never changes; file positions come later. *)
Definition core (i : BlockIndex) : BlockHeader * BlockHeight * Hash256 := (bi_header i, bi_height i, chain_work i).

(** A record is keyed by its header's hash, and it is a root or sits on its parent. *)
Definition node_ok s (hash : BlockHash) (i : BlockIndex) : Prop :=
  block_hash (bi_header i) = hash /\
  (is_zero (prev_hash (bi_header i)) = true /\ bi_height i = 0 /\ chain_work i = calculate_block_work (bits (bi_header i)) \/
   exists p, indexed s (prev_hash (bi_header i)) p /\ core i = core (child_index (bi_header i) p)).

Record header_tree s : Prop := {
  ht_file : u32_ok (current_file (block_file_manager (worker s)));
  ht_node : forall hash i, indexed s hash i -> block_index_ok i /\ node_ok s hash i;
  ht_pending : forall hash i, pending_undo_indexes (worker s) !! hash = Some i ->
    block_index_ok i /\ exists j, indexed s hash j /\ core j = core i;
}.

Lemma node_core s hash i j : core i = core j -> node_ok s hash i -> node_ok s hash j.
Proof. unfold node_ok, core. intros [= -> -> ->]. done. Qed.
Lemma child_core hdr p q : core p = core q -> child_index hdr p = child_index hdr q.
Proof. unfold core, child_index. by intros [= _ -> ->]. Qed.

(** Records may be added and rewritten as long as what is there keeps its core. *)
Lemma tree_extend s s' : header_tree s -> u32_ok (current_file (block_file_manager (worker s'))) ->
  (forall hash i, indexed s hash i -> exists j, indexed s' hash j /\ core j = core i) ->
  (forall hash i, indexed s' hash i -> block_index_ok i /\ ((exists j, indexed s hash j /\ core j = core i) \/ node_ok s' hash i)) ->
  (forall hash i, pending_undo_indexes (worker s') !! hash = Some i -> block_index_ok i /\ exists j, indexed s hash j /\ core j = core i) ->
  header_tree s'.
Proof.
  intros Ht Hf Hkeep Hnew Hpend. split; [done| |].
  - intros hash i Hi. destruct (Hnew hash i Hi) as [Hok [(j & Hj & Hc)|Hn]]; split; try done.
    apply (node_core _ _ j i Hc). destruct (ht_node _ Ht _ _ Hj) as [_ [Hh [Hr|(p & Hp & Hcp)]]]; split; [done|by left|done|right].
    destruct (Hkeep _ _ Hp) as (q & Hq & Hpq). exists q. split; [done|]. rewrite Hcp. f_equal. by apply child_core.
  - intros hash i Hi. destruct (Hpend hash i Hi) as [Hok (j & Hj & Hc)]. split; [done|].
    destruct (Hkeep _ _ Hj) as (q & Hq & Hqj). exists q. by rewrite Hqj.
Qed.

(** Nothing that reads the tree sees a change of the other tables. *)
Lemma tree_same s s' : header_tree s -> (forall hash, get_block_index s' hash = get_block_index s hash) -> worker s' = worker s -> header_tree s'.
Proof.
  intros Ht Hg Hw. apply (tree_extend s); unfold indexed; try rewrite Hw; [done|apply Ht|..].
  - intros hash i Hi. exists i. by rewrite Hg.
  - intros hash i. rewrite Hg. intros Hi. split; [by apply (ht_node _ Ht hash)|]. left. by exists i.
  - intros hash i. apply Ht.
Qed.

Lemma tree_put s t k hash s' : header_tree s -> commit_batch s [Put t k hash] = (Ok tt, s') -> t <> BLOCK_INDEX -> header_tree s'.
Proof.
  intros Ht Ec Hne. pose proof (commit_batch_ok _ _ _ Ec) as (Hk & _ & _ & Hw). apply (tree_same s); [done| |done].
  intros h. apply get_block_index_ext. rewrite Hk, ops_effect_cons, ops_effect_nil, op_effect_miss; [done|]. congruence.
Qed.

(** Writing records whose cores are those of the tree, or new nodes on it. *)
Lemma tree_batch s s' ops entries :
  header_tree s -> commit_batch s ops = (Ok tt, s') -> Forall (fun p => block_index_ok p.2) entries ->
  (forall hash, ops_effect BLOCK_INDEX (block_key hash) ops = ops_effect BLOCK_INDEX (block_key hash) (entries_ops entries)) ->
  (forall hash i j, (hash, i) ∈ entries -> indexed s hash j -> core j = core i) ->
  (forall hash i, (hash, i) ∈ entries -> (exists j, indexed s hash j /\ core j = core i) \/ node_ok s' hash i) ->
  header_tree s'.
Proof.
  intros Ht Ec Hok Hops Hold Hnew. pose proof (commit_batch_ok _ _ _ Ec) as (_ & _ & _ & Hw).
  assert (forall hash, get_block_index s' hash = get_block_index s hash /\ (forall i, (hash, i) ∉ entries) \/
    exists i, (hash, i) ∈ entries /\ get_block_index s' hash = Ok (Some i)) as Hget.
  { intros hash. rewrite (entries_get s s' ops entries hash Ec (Hops hash) Hok). destruct (list_find _ _) as [[k [h i]]|] eqn:F.
    - right. apply list_find_Some in F as (F1 & F2 & _). cbn [fst] in F2. subst h. apply list_elem_of_lookup_2 in F1.
      rewrite elem_of_reverse in F1. by exists i.
    - left. split; [done|]. intros i Hi. apply list_find_None in F. rewrite Forall_forall in F. apply (F (hash, i)); [|done].
      by rewrite elem_of_reverse. }
  apply (tree_extend s); try rewrite Hw; [done|apply Ht|..].
  - intros hash i Hi. unfold indexed. destruct (Hget hash) as [[-> _]|(j & Hj & ->)]; [by exists i|].
    exists j. split; [done|]. symmetry. by apply (Hold hash).
  - intros hash i Hi. unfold indexed in Hi. destruct (Hget hash) as [[Hsame _]|(j & Hj & Hsame)]; rewrite Hsame in Hi.
    + split; [by apply (ht_node _ Ht hash)|]. left. by exists i.
    + injection Hi as ->. split; [|by apply Hnew]. rewrite Forall_forall in Hok. by apply (Hok (hash, i)).
  - intros hash i. apply Ht.
Qed.
(** ** Undo data and flushes *)

Lemma undo_index_core s hash i : header_tree s -> undo_index s hash = Ok i -> block_index_ok i /\ exists j, indexed s hash j /\ core j = core i.
Proof.
  intros Ht. unfold undo_index. destruct (pending_undo_indexes _ !! hash) as [i'|] eqn:Ep; [intros [= <-]; by apply Ht|].
  destruct (kv_get _ _ _) as [[b|]|] eqn:Ek; simpl; try done. unfold decode_exact.
  destruct (decode_BlockIndex _) as [[x d]|] eqn:Ed; simpl; [|done]. destruct (finish d _) as [[]|] eqn:Ef; simpl; [|done].
  intros [= ->]. assert (indexed s hash i) as Hi by (unfold indexed, get_block_index; rewrite Ek; simpl; rewrite Ed; simpl; by rewrite Ef).
  split; [by apply (ht_node _ Ht hash)|by exists i].
Qed.

Lemma tree_undo s hash undo : header_tree s -> header_tree (handle_store_undo s hash undo).2.
Proof.
  intros Ht. unfold handle_store_undo. destruct (undo_index s hash) as [i|] eqn:Eu; simpl rbind; [|done].
  destruct (file_pos i) as [bp|] eqn:Ep; simpl rbind; [|done].
  destruct (undo_index_core s hash i Ht Eu) as [Hok (j & Hj & Hc)].
  destruct (write_undo _ _ _ _ _) as [[pos size] d] eqn:Ew. cbn [snd].
  assert (flatpos_ok pos) as Hpos.
  { unfold write_undo in Ew. injection Ew as <- _ _. destruct Hok as (_ & _ & _ & Hp & _). rewrite Ep in Hp. destruct Hp as [Hp _].
    split; [exact Hp|]. unfold u32_ok, wrap_u. cbn. apply Z.mod_pos_bound. lia. }
  apply (tree_extend s); cbn [worker with_files block_file_manager pending_undo_indexes]; [done|apply Ht|..].
  - intros h k Hk. by exists k.
  - intros h k Hk. split; [by apply (ht_node _ Ht h)|]. left. by exists k.
  - intros h k. destruct (decide (h = hash)) as [->|Hne]; [|rewrite lookup_insert_ne by done; apply Ht].
    rewrite lookup_insert_eq. intros [= <-]. split; [|by exists j]. destruct Hok as (? & ? & ? & ? & ?). unfold block_index_ok. cbn. split_and!; done.
Qed.

(** After a flush a record is its pending version, or what it was. *)
Lemma utxos_index_get s ups best conn s' hash : header_tree s -> handle_update_utxo_set s ups best conn = (Ok tt, s') ->
  get_block_index s' hash = match pending_undo_indexes (worker s) !! hash with Some i => Ok (Some i) | None => get_block_index s hash end.
Proof.
  intros Ht (Hk & _)%update_utxo_set_ok. specialize (Hk BLOCK_INDEX (block_key hash)). rewrite utxo_ops_index in Hk.
  destruct (pending_undo_indexes _ !! hash) as [i|] eqn:Ep; cbn in Hk; [|by apply get_block_index_ext].
  apply get_block_index_written; [|done]. by apply (ht_pending _ Ht hash).
Qed.

Lemma tree_utxos s ups best conn : header_tree s -> header_tree (update_utxos s ups best conn).2.
Proof.
  intros Ht. unfold update_utxos, StoreCoinsStore. destruct (bool_decide _); [|done].
  destruct (handle_update_utxo_set s ups best conn) as [[[]|e] s'] eqn:Eu; cbn [snd].
  - pose proof (fun hash => utxos_index_get s ups best conn s' hash Ht Eu) as Hget.
    apply update_utxo_set_ok in Eu as (_ & _ & _ & Hm & _ & Hp). apply (tree_extend s); [done|rewrite Hm; apply Ht|..].
    + intros hash i Hi. unfold indexed. rewrite Hget. destruct (pending_undo_indexes _ !! hash) as [j|] eqn:Ep; [|by exists i].
      destruct (ht_pending _ Ht _ _ Ep) as [_ (k & Hk & Hc)]. exists j. split; [done|]. unfold indexed in *. congruence.
    + intros hash i. unfold indexed. rewrite Hget. destruct (pending_undo_indexes _ !! hash) as [j|] eqn:Ep.
      * intros [= <-]. destruct (ht_pending _ Ht _ _ Ep) as [Hok Hex]. split; [done|by left].
      * intros Hi. split; [by apply (ht_node _ Ht hash)|]. left. by exists i.
    + intros hash i. by rewrite Hp, lookup_empty.
  - apply update_utxo_set_err in Eu as [h ->]. by apply (tree_extend s); try apply Ht; intros hash i Hi; [exists i|split; [by apply (ht_node _ Ht hash)|left; by exists i]].
Qed.
(** ** Activation writes undo data and flushes, nothing else *)

Definition keeps (P : Store B -> Prop) {A} (a : action A) : Prop :=
  forall m : ChainstateManager B E, P (cs_store m) -> P (cs_store (a m).2).

Lemma keeps_bind P {A A'} (a : action (B := B) (E := E) A) (k : A -> action A') :
  keeps P a -> (forall x, keeps P (k x)) -> keeps P (abind a k).
Proof.
  intros Ha Hk m Hm. unfold abind. specialize (Ha m Hm). destruct (a m) as [[x|e] m']; cbn [snd] in Ha; [|done]. by apply Hk.
Qed.
Lemma keeps_ret P {A} (x : A) : keeps P (ret x).
Proof. intros m Hm. exact Hm. Qed.
Lemma keeps_raise P {A} e : keeps P (raise (A := A) e).
Proof. intros m Hm. exact Hm. Qed.
Lemma keeps_reads P {A} (f : Store B -> result A StoreError) : keeps P (reads f).
Proof. intros m Hm. exact Hm. Qed.
Lemma keeps_gets P {A} (f : ChainstateManager B E -> A) : keeps P (gets f).
Proof. intros m Hm. exact Hm. Qed.
Lemma keeps_modify P f : (forall m : ChainstateManager B E, cs_store (f m) = cs_store m) -> keeps P (modify f).
Proof. intros Hf m Hm. unfold modify. cbn. by rewrite Hf. Qed.
Lemma keeps_writes P {A} (f : Store B -> result A StoreError * Store B) : (forall s, P s -> P (f s).2) -> keeps P (writes f).
Proof. intros Hf m Hm. unfold writes. specialize (Hf _ Hm). by destruct (f (cs_store m)). Qed.
#[local] Hint Resolve keeps_bind keeps_ret keeps_raise keeps_reads keeps_gets keeps_modify keeps_writes : keeps.

Section Activation.
Variable P : Store B -> Prop.
Hypothesis P_undo : forall s hash undo, P s -> P (handle_store_undo s hash undo).2.
Hypothesis P_utxos : forall s ups best conn, P s -> P (update_utxos s ups best conn).2.

Lemma keeps_flush order : keeps P (flush_if_due order).
Proof.
  intros m Hm. unfold flush_if_due. destruct (_ <=? _); [|done]. unfold flush.
  pose proof (P_utxos _ (to_updates (cs_cache m)) (get_best_block (cs_cache m)) (connected_blocks (cs_cache m)) Hm) as H.
  unfold cs_store in H. destruct (update_utxos _ _ _ _) as [[[]|e] b]; done.
Qed.
Lemma keeps_connected order hash h undo : keeps P (connected order hash h undo).
Proof. unfold connected. eauto 10 using keeps_flush with keeps. Qed.
Lemma keeps_next_hash h : keeps P (next_hash h).
Proof. intros m Hm. by destruct (next_hash_frame h m) as (o & w & ->). Qed.

Lemma keeps_loop env av n tip : keeps P (activate_loop env av n tip).
Proof.
  revert tip. induction n as [|n IH]; intros tip; cbn [activate_loop]; [apply keeps_ret|].
  apply keeps_bind; [apply keeps_next_hash|]. intros [hash|]; [|apply keeps_ret]. apply keeps_bind; [apply keeps_gets|].
  intros [|]; [apply keeps_ret|]. apply keeps_bind; [apply keeps_reads|]. intros [raw|]; [|apply keeps_ret].
  destruct (decode_Block _) as [[b d]|e]; [|apply keeps_raise]. intros m Hm.
  pose proof (connect_next_shell m (join_order env (S n)) av (wrap_u 32 (bi_height tip + 1)) b tip) as Hs.
  destruct (connect_next _ _ _ _ _ _) as [[[fees undo]|e] c].
  - apply keeps_bind; [apply keeps_connected|done|]. unfold cs_store. cbn. by destruct Hs as [-> _].
  - unfold cs_store. cbn. by destruct Hs as [-> _].
Qed.

Lemma keeps_activate env : keeps P (activate_best_chain env).
Proof.
  intros m Hm. unfold activate_best_chain. destruct (is_activating m); [done|].
  assert (keeps P (activate_best_chain_inner env)) as Hk.
  { unfold activate_best_chain_inner. apply keeps_bind; [|intros av; apply keeps_bind; [|intros tip; apply keeps_loop]].
    - intros m' Hm'. by rewrite assume_valid_frame.
    - intros m' Hm'. by rewrite current_tip_frame. }
  specialize (Hk (set_activating m true) Hm). by destruct (activate_best_chain_inner env _).
Qed.
End Activation.

(** ** Single headers *)

Lemma add_loop_zeros l : bytes_ok l -> add_loop (replicate (length l) 0) l 0 = l.
Proof.
  induction 1 as [|x l Hx Hl IH]; [done|]. cbn [length replicate add_loop]. unfold u8_ok in Hx.
  rewrite Z.add_0_l, Z.add_0_r, land_ff, Z.shiftr_div_pow2, Z.mod_small, Z.div_small by lia. by rewrite IH.
Qed.
Lemma zero_work w : hash_ok w -> add_chain_work ZERO_HASH w = w.
Proof. intros [Hl Hw]. unfold add_chain_work, ZERO_HASH. rewrite <- Hl. by apply add_loop_zeros. Qed.
Definition root_index (hdr : BlockHeader) : BlockIndex := mkBlockIndex hdr 0 (calculate_block_work (bits hdr)) None None.
(** What a new record may be: a root, or a child of an indexed record. *)
Definition attaches s (hdr : BlockHeader) (i : BlockIndex) : Prop :=
  is_zero (prev_hash hdr) = true /\ i = root_index hdr \/ exists p, indexed s (prev_hash hdr) p /\ i = child_index hdr p.

Lemma child_ok hdr p : header_ok hdr -> block_index_ok p -> block_index_ok (child_index hdr p).
Proof.
  intros Hh (_ & Hn & Hw & _). unfold block_index_ok. cbn. split_and!; try done.
  - unfold BlockHeight_next, saturating_add_u, U32_MAX, u32_ok in *. lia.
  - apply add_loop_array; [done|]. apply calculate_block_work_value. apply Hh.
Qed.
Lemma root_ok hdr : header_ok hdr -> block_index_ok (root_index hdr).
Proof. intros Hh. unfold block_index_ok. cbn. split_and!; try done. apply calculate_block_work_value. apply Hh. Qed.
Lemma attaches_ok s hdr i : header_tree s -> header_ok hdr -> attaches s hdr i -> block_index_ok i /\ bi_header i = hdr.
Proof.
  intros Ht Hh [[_ ->]|(p & Hp & ->)]; split; try done; [by apply root_ok|]. apply child_ok; [done|]. by apply (ht_node _ Ht (prev_hash hdr)).
Qed.

Lemma commit_keeps (Q : Store B -> Prop) s ops : Q s -> (forall s', commit_batch s ops = (Ok tt, s') -> Q s') -> Q (commit_batch s ops).2.
Proof. intros Hs Hok. destruct (commit_batch s ops) as [[[]|e] s'] eqn:Ec; cbn [snd]; [by apply Hok|]. by apply commit_batch_err in Ec as ->. Qed.

Lemma tree_attach s hdr i : header_tree s -> header_ok hdr -> get_block_index s (block_hash hdr) = Ok None -> attaches s hdr i ->
  header_tree (handle_store_block_index s (block_hash hdr) i).2.
Proof.
  intros Ht Hh Hnone Ha. destruct (attaches_ok s hdr i Ht Hh Ha) as [Hok Hhd]. apply (commit_keeps header_tree); [done|]. intros s' Ec.
  eapply (tree_batch s s' _ [(block_hash hdr, i)]); [exact Ht|exact Ec|..].
  - by constructor.
  - intros hash. unfold entries_ops. cbn [map concat]. by rewrite app_nil_r.
  - intros hash i' j [= -> ->]%list_elem_of_singleton Hj. unfold indexed in Hj. congruence.
  - intros hash i' [= -> ->]%list_elem_of_singleton. right. split; [by rewrite Hhd|].
    destruct Ha as [[Hz ->]|(q & Hq & ->)]; [by left|right]. exists q. split; [|done].
    unfold indexed in *. cbn [child_index bi_header].
    rewrite (entries_get s s' _ [(block_hash hdr, child_index hdr q)] (prev_hash hdr) Ec); [| |by constructor].
    + change (reverse [_]) with [(block_hash hdr, child_index hdr q)]. cbn [list_find]. rewrite decide_False; [done|]. cbn. congruence.
    + unfold entries_ops. cbn [map concat]. by rewrite app_nil_r.
Qed.

Lemma tree_puts s t k hash : t <> BLOCK_INDEX -> header_tree s -> header_tree (commit_batch s [Put t k hash]).2.
Proof. intros Hne Ht. apply (commit_keeps header_tree); [done|]. intros s' Ec. by apply (tree_put s t k hash). Qed.
Lemma keeps_headers_tip hash : keeps header_tree (writes (fun s => handle_update_headers_tip s hash)).
Proof. apply keeps_writes. intros s. by apply tree_puts. Qed.

Lemma tree_process_header hdr height (m : ChainstateManager B E) :
  header_tree (cs_store m) -> header_ok hdr ->
  (is_zero (prev_hash hdr) = true /\ height = 0 \/
   is_zero (prev_hash hdr) = false /\ exists p, indexed (cs_store m) (prev_hash hdr) p /\ height = BlockHeight_next (bi_height p)) ->
  header_tree (cs_store (process_header hdr height m).2).
Proof.
  intros Ht Hh Hpos. unfold process_header. unfold abind at 1, reads at 1.
  destruct (get_block_index (cs_store m) (block_hash hdr)) as [[i|]|e] eqn:Eg; cbn [map_err]; [done| |done].
  assert (exists w, (if is_zero (prev_hash hdr) then ret ZERO_HASH else abind (reads (fun s => get_block_index s (prev_hash hdr))) (fun o => ret (work_of o))) m = (Ok w, m) /\
    attaches (cs_store m) hdr (mkBlockIndex hdr height (add_chain_work w (calculate_block_work (bits hdr))) None None)) as (w & Ew & Ha).
  { destruct Hpos as [[Hz ->]|[Hz (p & Hp & ->)]]; rewrite Hz.
    - exists ZERO_HASH. split; [done|]. left. split; [done|]. rewrite zero_work; [done|]. apply calculate_block_work_value. apply Hh.
    - exists (chain_work p). unfold abind, reads. unfold indexed in Hp. rewrite Hp. split; [done|]. right. by exists p. }
  unfold abind at 1. rewrite Ew. unfold abind at 1, writes at 1.
  pose proof (tree_attach _ hdr _ Ht Hh Eg Ha) as Hs. destruct (handle_store_block_index _ _ _) as [[[]|e] s1]; cbn [snd] in Hs; [|done].
  cbn [map_err]. apply keeps_bind; [apply keeps_reads| |exact Hs]. intros tip. apply keeps_bind.
  - destruct tip; [|apply keeps_ret]. apply keeps_bind; [apply keeps_reads|intros; apply keeps_ret].
  - intros cw. destruct (Hash256_gt _ _); [apply keeps_headers_tip|apply keeps_ret].
Qed.

Lemma tree_genesis params : header_ok (genesis_header params) -> is_zero (prev_hash (genesis_header params)) = true ->
  keeps header_tree (load_genesis_block params).
Proof.
  intros Hh Hz m Ht. unfold load_genesis_block. unfold abind at 1, reads at 1. unfold genesis_hash.
  destruct (get_block_index (cs_store m) (block_hash (genesis_header params))) as [[i|]|e] eqn:Eg; cbn [map_err]; [done| |done].
  unfold abind at 1, writes at 1. assert (attaches (cs_store m) (genesis_header params) (root_index (genesis_header params))) as Ha by by left.
  pose proof (tree_attach _ _ _ Ht Hh Eg Ha) as Hs. unfold root_index in Hs. destruct (handle_store_block_index _ _ _) as [[[]|e] s1]; cbn [snd] in Hs; [|done].
  cbn [map_err]. apply keeps_bind; [apply keeps_headers_tip| |exact Hs]. intros _.
  apply keeps_bind; [apply keeps_writes; intros s; by apply tree_puts|]. intros _.
  apply keeps_bind; [apply keeps_writes; intros s; by apply tree_puts|]. intros _. by apply keeps_modify.
Qed.
(** ** Header batches *)

(** No two different headers of the list share a hash. *)
Definition distinct_headers (all : list BlockHeader) : Prop :=
  forall h1 h2, h1 ∈ all -> h2 ∈ all -> block_hash h1 = block_hash h2 -> h1 = h2.

(** A record of the batch: new, checked, and the child of a record of the batch or the store. *)
Definition pending_ok s (all : list BlockHeader) (b : HeaderBatch) (hash : BlockHash) (i : BlockIndex) : Prop :=
  get_block_index s hash = Ok None /\ by_hash b !! hash = Some i /\ block_hash (bi_header i) = hash /\ bi_header i ∈ all /\
  meets_target (bi_header i) = true /\ block_index_ok i /\
  exists q, batch_parent s b (prev_hash (bi_header i)) = Some q /\ i = child_index (bi_header i) q.

Record batch_inv s (all : list BlockHeader) (b : HeaderBatch) : Prop := {
  bv_by_hash : forall hash i, by_hash b !! hash = Some i -> indexed s hash i \/ (hash, i) ∈ pending b;
  bv_pending : forall hash i, (hash, i) ∈ pending b -> pending_ok s all b hash i;
}.

Lemma index_opt_indexed s hash i : index_opt s hash = Some i <-> indexed s hash i.
Proof. unfold index_opt, indexed. destruct (get_block_index s hash) as [[j|]|e]; cbn; naive_solver. Qed.

Lemma batch_parent_ok s all b hash q : header_tree s -> batch_inv s all b -> batch_parent s b hash = Some q ->
  block_index_ok q /\ (indexed s hash q \/ (hash, q) ∈ pending b).
Proof.
  intros Ht Hb. unfold batch_parent. destruct (by_hash b !! hash) as [j|] eqn:El.
  - intros [= ->]. pose proof (bv_by_hash _ _ _ Hb _ _ El) as H. split; [|done].
    destruct H as [H|H]; [by apply (ht_node _ Ht hash)|]. by apply (bv_pending _ _ _ Hb) in H as (_ & _ & _ & _ & _ & ? & _).
  - intros H%index_opt_indexed. split; [by apply (ht_node _ Ht hash)|by left].
Qed.

(** A batch in which lookups give the same records keeps the pending ones fine. *)
Lemma pending_ok_ext s all b b' hash i : pending_ok s all b hash i -> by_hash b' !! hash = by_hash b !! hash ->
  (forall h q, batch_parent s b h = Some q -> batch_parent s b' h = Some q) -> pending_ok s all b' hash i.
Proof.
  intros (H1 & H2 & H3 & H4 & H5 & H6 & q & H7 & H8) Hl Hq. unfold pending_ok. rewrite Hl. split_and!; try done. exists q. auto.
Qed.

(** Lookups only become more defined. *)
Definition batch_extends s (b b' : HeaderBatch) : Prop := forall h q, batch_parent s b h = Some q -> batch_parent s b' h = Some q.

Lemma batch_known_extends s all b hash index : batch_inv s all b -> indexed s hash index -> batch_extends s b (batch_known b hash index).
Proof.
  intros Hb Hi g q. unfold batch_parent. cbn [batch_known by_hash]. destruct (decide (g = hash)) as [->|Hg]; [|by rewrite lookup_insert_ne].
  rewrite lookup_insert_eq. destruct (by_hash b !! hash) as [j|] eqn:Ej; [|by rewrite (proj2 (index_opt_indexed s hash index) Hi)].
  intros [= ->]. destruct (bv_by_hash _ _ _ Hb _ _ Ej) as [H|H]; unfold indexed in *; [congruence|].
  apply (bv_pending _ _ _ Hb) in H as [H _]. congruence.
Qed.

Lemma batch_known_inv s all b hash index : batch_inv s all b -> indexed s hash index -> batch_inv s all (batch_known b hash index).
Proof.
  intros Hb Hi. split.
  - intros h i. cbn [batch_known by_hash pending]. destruct (decide (h = hash)) as [->|Hne].
    + rewrite lookup_insert_eq. intros [= <-]. by left.
    + rewrite lookup_insert_ne by done. apply Hb.
  - intros h i Hp. cbn [batch_known pending] in Hp. pose proof (bv_pending _ _ _ Hb _ _ Hp) as Hok. pose proof Hok as (Hnone & _).
    assert (h <> hash) as Hne by (intros ->; unfold indexed in Hi; congruence).
    apply (pending_ok_ext s all b); [done| |by apply (batch_known_extends s all)]. cbn [batch_known by_hash]. by rewrite lookup_insert_ne.
Qed.

(** A hash that is pending already is pending with the same record. *)
Lemma batch_push_same s all b hdr q : distinct_headers all -> hdr ∈ all ->
  get_block_index s (block_hash hdr) = Ok None -> batch_parent s b (prev_hash hdr) = Some q -> batch_inv s all b ->
  by_hash b !! block_hash hdr = Some (child_index hdr q) \/ by_hash b !! block_hash hdr = None.
Proof.
  intros Hd Hin Hnone Hq Hb. destruct (by_hash b !! block_hash hdr) as [j|] eqn:Ej; [left|by right].
  destruct (bv_by_hash _ _ _ Hb _ _ Ej) as [H|H]; [unfold indexed in H; congruence|].
  apply (bv_pending _ _ _ Hb) in H as (_ & _ & H3 & H4 & _ & _ & q' & H7 & H8).
  apply (Hd _ hdr) in H3; [|done..]. rewrite H3 in H7, H8. rewrite H8. congruence.
Qed.

Lemma batch_push_extends s all b hdr q : distinct_headers all -> hdr ∈ all ->
  get_block_index s (block_hash hdr) = Ok None -> batch_parent s b (prev_hash hdr) = Some q -> batch_inv s all b ->
  batch_extends s b (batch_push b (block_hash hdr) (child_index hdr q)).
Proof.
  intros Hd Hin Hnone Hq Hb g r. unfold batch_parent at 1 2. cbn [batch_push by_hash].
  destruct (decide (g = block_hash hdr)) as [->|Hg]; [|by rewrite lookup_insert_ne]. rewrite lookup_insert_eq.
  destruct (batch_push_same s all b hdr q) as [-> | ->]; try done. unfold index_opt. by rewrite Hnone.
Qed.

Lemma batch_push_inv s all b hdr q : header_tree s -> distinct_headers all -> hdr ∈ all -> header_ok hdr -> meets_target hdr = true ->
  get_block_index s (block_hash hdr) = Ok None -> batch_parent s b (prev_hash hdr) = Some q -> batch_inv s all b ->
  batch_inv s all (batch_push b (block_hash hdr) (child_index hdr q)).
Proof.
  intros Ht Hd Hin Hh Hpow Hnone Hq Hb. pose proof (batch_push_same s all b hdr q Hd Hin Hnone Hq Hb) as Hold.
  pose proof (batch_push_extends s all b hdr q Hd Hin Hnone Hq Hb) as Hkeep.
  set (hash := block_hash hdr) in *. set (index := child_index hdr q) in *.
  assert (pending_ok s all (batch_push b hash index) hash index) as Hnew.
  { unfold pending_ok. cbn [batch_push by_hash index child_index bi_header]. rewrite lookup_insert_eq.
    split_and!; try done; [by apply child_ok, (batch_parent_ok s all b (prev_hash hdr) q Ht Hb)|]. exists q. split; [by apply Hkeep|done]. }
  split.
  - intros h i. cbn [batch_push by_hash pending]. rewrite elem_of_app, list_elem_of_singleton. destruct (decide (h = hash)) as [->|Hne].
    + rewrite lookup_insert_eq. intros [= <-]. auto.
    + rewrite lookup_insert_ne by done. intros H. apply Hb in H as [H|H]; auto.
  - intros h i. cbn [batch_push pending]. rewrite elem_of_app, list_elem_of_singleton. intros [H|[= -> ->]]; [|done].
    destruct (decide (h = hash)) as [->|Hne].
    + pose proof (bv_pending _ _ _ Hb _ _ H) as (_ & Hl & _). destruct Hold as [Ho|Ho]; [|congruence]. by assert (i = index) as -> by congruence.
    + apply (pending_ok_ext s all b); [by apply Hb| |done]. cbn [batch_push by_hash]. by rewrite lookup_insert_ne.
Qed.

Lemma check_header_pow {P : BlockIndexProvider} hdr prev params : check_block_header hdr prev params = Ok tt -> meets_target hdr = true.
Proof. unfold check_block_header. by destruct (meets_target hdr). Qed.

(** What the loop leaves: the headers of a connected prefix have their heights,
    and it stopped at a new header without a known parent, or at the end. *)
Definition accepted s (b' : HeaderBatch) (headers : list BlockHeader) (hs : list Z) : Prop :=
  exists done rest, headers = done ++ rest /\
    Forall2 (fun hdr h => exists i, batch_parent s b' (block_hash hdr) = Some i /\ bi_height i = h) done hs /\
    match rest with
    | [] => True
    | hdr :: _ => get_block_index s (block_hash hdr) = Ok None /\ batch_parent s b' (prev_hash hdr) = None
    end.

Lemma accepted_cons s b b' hdr headers hs i h : batch_extends s b b' -> batch_parent s b (block_hash hdr) = Some i -> bi_height i = h ->
  accepted s b' headers hs -> accepted s b' (hdr :: headers) (h :: hs).
Proof. intros He Hp Hh (dn & rest & -> & HF & Hr). exists (hdr :: dn), rest. split_and!; try done. constructor; eauto. Qed.

Lemma accept_headers_inv bc all headers b b' : header_tree (bc_store bc) -> distinct_headers all -> Forall header_ok all ->
  (forall h, h ∈ headers -> h ∈ all) -> batch_inv (bc_store bc) all b -> accept_headers bc headers b = Ok b' ->
  batch_inv (bc_store bc) all b' /\ batch_extends (bc_store bc) b b' /\
  exists hs, heights b' = heights b ++ hs /\ accepted (bc_store bc) b' headers hs.
Proof.
  intros Ht Hd Hok. revert b. set (s := bc_store bc) in *. induction headers as [|hdr headers IH]; intros b Hsub Hb; cbn [accept_headers].
  { intros [= <-]. split_and!; [done|by intros ?|]. exists []. rewrite app_nil_r. split; [done|]. by exists [], []. }
  fold s. assert (forall h, h ∈ headers -> h ∈ all) as Hsub' by (intros h Hh; apply Hsub; by right).
  destruct (get_block_index s (block_hash hdr)) as [[index|]|e] eqn:Eg; simpl; [| |done].
  - intros H. destruct (IH (batch_known b (block_hash hdr) index) Hsub') as (H1 & H2 & hs & H3 & H4); [by apply batch_known_inv|done|].
    split; [done|]. split; [intros h q Hq; by apply H2, (batch_known_extends s all)|]. exists (bi_height index :: hs). split.
    + rewrite H3. cbn [batch_known heights]. by rewrite <- app_assoc.
    + apply (accepted_cons _ _ _ _ _ _ index _ H2); [|done..]. unfold batch_parent. cbn. by rewrite lookup_insert_eq.
  - destruct (batch_parent s b (prev_hash hdr)) as [q|] eqn:Ep.
    2: { intros [= <-]. split_and!; [done|by intros ?|]. exists []. rewrite app_nil_r. split; [done|]. by exists [], (hdr :: headers). }
    destruct (check_block_header _ _ _) as [[]|e] eqn:Ec; simpl; [|done]. intros H.
    assert (hdr ∈ all) as Hin by (apply Hsub; by left). rewrite Forall_forall in Hok.
    destruct (IH (batch_push b (block_hash hdr) (child_index hdr q)) Hsub') as (H1 & H2 & hs & H3 & H4); [|done|].
    { apply batch_push_inv; try done; [by apply Hok|by eapply check_header_pow]. }
    split; [done|]. split; [intros h r Hr; by apply H2, (batch_push_extends s all)|]. exists (BlockHeight_next (bi_height q) :: hs). split.
    + rewrite H3. cbn [batch_push heights child_index bi_height]. by rewrite <- app_assoc.
    + apply (accepted_cons _ _ _ _ _ _ (child_index hdr q) _ H2); [|done..]. unfold batch_parent. cbn. by rewrite lookup_insert_eq.
Qed.
(** The best work seen so far, and the header that has it. *)
Record best_inv (start : Hash256) (b : HeaderBatch) : Prop := {
  bw_tip : match best_tip b with
    | None => best_work b = start
    | Some hash => of_le start < of_le (best_work b) /\ exists i, (hash, i) ∈ pending b /\ chain_work i = best_work b
    end;
  bw_max : Forall (fun p => of_le (chain_work p.2) <= of_le (best_work b)) (pending b);
  bw_ok : hash_ok (best_work b);
}.

Lemma batch_push_best start b hash i : best_inv start b -> hash_ok (chain_work i) -> best_inv start (batch_push b hash i).
Proof.
  intros [Ht Hm Hk] Hi. assert (best_tip b = None \/ is_Some (best_tip b)) as Hcase by (destruct (best_tip b); eauto).
  assert (of_le start <= of_le (best_work b)) as Hge by (destruct (best_tip b); [lia|by rewrite Ht]).
  unfold batch_push. rewrite Hash256_gt_spec by done. destruct (Z.ltb_spec (of_le (best_work b)) (of_le (chain_work i))) as [Hlt|Hle];
    split; cbn [best_tip best_work pending]; try done.
  - split; [lia|]. exists i. split; [|done]. rewrite elem_of_app, list_elem_of_singleton. by right.
  - apply Forall_app. split; [|by constructor]. eapply Forall_impl; [exact Hm|]. cbn. intros ? ?. lia.
  - destruct (best_tip b) as [t|]; [|done]. destruct Ht as [Hlt (j & Hj & Hw)]. split; [done|]. exists j. split; [|done]. apply elem_of_app. by left.
  - apply Forall_app. split; [done|by constructor].
Qed.

Lemma accept_headers_best bc all headers b b' start : header_tree (bc_store bc) -> distinct_headers all -> Forall header_ok all ->
  (forall h, h ∈ headers -> h ∈ all) -> batch_inv (bc_store bc) all b -> best_inv start b -> accept_headers bc headers b = Ok b' -> best_inv start b'.
Proof.
  intros Ht Hd Hok. revert b. induction headers as [|hdr headers IH]; intros b Hsub Hb Hw; cbn [accept_headers]; [by intros [= <-]|].
  assert (forall h, h ∈ headers -> h ∈ all) as Hsub' by (intros h Hh; apply Hsub; by right).
  destruct (get_block_index (bc_store bc) (block_hash hdr)) as [[index|]|e] eqn:Eg; simpl; [| |done].
  - apply IH; [done|by apply batch_known_inv|]. by destruct Hw.
  - destruct (batch_parent (bc_store bc) b (prev_hash hdr)) as [q|] eqn:Ep; [|by intros [= <-]].
    destruct (check_block_header _ _ _) as [[]|e] eqn:Ec; simpl; [|done].
    assert (hdr ∈ all) as Hin by (apply Hsub; by left). rewrite Forall_forall in Hok. apply IH; [done| |].
    + apply batch_push_inv; try done; [by apply Hok|by eapply check_header_pow].
    + apply batch_push_best; [done|]. pose proof (batch_parent_ok _ all b _ _ Ht Hb Ep) as [Hq _].
      by apply (child_ok hdr q); [apply Hok|].
Qed.

(** Committing the batch adds its records and nothing else, and sets the tip. *)
Lemma commit_pending s s' all b : header_tree s -> batch_inv s all b ->
  handle_store_block_indexes s (pending b) (best_tip b) = (Ok tt, s') ->
  header_tree s' /\ (forall hash i, (hash, i) ∈ pending b -> indexed s' hash i) /\
  (forall hash, (forall i, (hash, i) ∉ pending b) -> get_block_index s' hash = get_block_index s hash) /\
  get_headers_tip s' = match best_tip b with Some t => Ok (Some (take 32 t)) | None => get_headers_tip s end.
Proof.
  intros Ht Hb Ec. unfold handle_store_block_indexes in Ec. fold (entries_ops (pending b)) in Ec.
  assert (Forall (fun p => block_index_ok p.2) (pending b)) as Hok.
  { apply Forall_forall. intros [h i] Hp. by apply (bv_pending _ _ _ Hb) in Hp as (_ & _ & _ & _ & _ & ? & _). }
  assert (forall hash, ops_effect BLOCK_INDEX (block_key hash) (entries_ops (pending b) ++ match best_tip b with Some hash => [Put UTXOS [KEY_HEADERS_TIP] hash] | None => [] end)
    = ops_effect BLOCK_INDEX (block_key hash) (entries_ops (pending b))) as Hops.
  { intros hash. rewrite ops_effect_app. destruct (best_tip b); by no_effect. }
  assert (forall hash, get_block_index s' hash = match list_find (fun p => p.1 = hash) (reverse (pending b)) with Some (_, p) => Ok (Some p.2) | None => get_block_index s hash end) as Hget.
  { intros hash. by apply (entries_get s s' _ (pending b) hash Ec). }
  assert (forall hash i, (hash, i) ∈ pending b -> indexed s' hash i) as Hin.
  { intros hash i Hp. unfold indexed. rewrite Hget. destruct (list_find_elem_of (fun p => p.1 = hash) (reverse (pending b)) (hash, i)) as [[k [h j]] F]; [by rewrite elem_of_reverse|done|].
    rewrite F. apply list_find_Some in F as (F1 & F2 & _). cbn [fst] in F2. subst h. apply list_elem_of_lookup_2 in F1. rewrite elem_of_reverse in F1.
    apply (bv_pending _ _ _ Hb) in F1 as (_ & F1 & _). apply (bv_pending _ _ _ Hb) in Hp as (_ & Hp & _). cbn. congruence. }
  assert (forall hash, (forall i, (hash, i) ∉ pending b) -> get_block_index s' hash = get_block_index s hash) as Hout.
  { intros hash Hn. rewrite Hget. destruct (list_find _ _) as [[k [h j]]|] eqn:F; [|done]. apply list_find_Some in F as (F1 & F2 & _).
    cbn [fst] in F2. subst h. apply list_elem_of_lookup_2 in F1. rewrite elem_of_reverse in F1. by destruct (Hn j). }
  split_and!; try done.
  - eapply (tree_batch s s' _ (pending b)); [done|exact Ec|done|done| |].
    + intros hash i j Hp Hj. apply (bv_pending _ _ _ Hb) in Hp as (Hp & _). unfold indexed in Hj. congruence.
    + intros hash i Hp. right. pose proof (bv_pending _ _ _ Hb _ _ Hp) as (_ & _ & H3 & _ & _ & _ & q & H7 & H8). split; [done|]. right.
      exists q. split; [|by rewrite H8 at 1]. destruct (batch_parent_ok s all b _ _ Ht Hb H7) as [_ [Hq|Hq]]; [|by apply Hin].
      unfold indexed in *. rewrite Hout; [done|]. intros j Hj. apply (bv_pending _ _ _ Hb) in Hj as (Hj & _). congruence.
  - pose proof (commit_batch_ok _ _ _ Ec) as (Hk & _). unfold get_headers_tip, get_hash. rewrite Hk, ops_effect_app.
    destruct (best_tip b) as [t|]; no_effect; [by rewrite op_effect_hit|]. by rewrite entries_ops_utxos.
Qed.
Lemma update_chains_store headers hs bc : bc_store (update_chains headers hs bc) = bc_store bc.
Proof. unfold update_chains. revert bc. induction (zip headers hs) as [|p l IH]; intros bc; [done|]. cbn [fold_left]. by rewrite IH. Qed.

(** The batch a successful call commits. *)
Lemma process_headers_batch env headers bc hs bc' : header_tree (bc_store bc) -> Forall header_ok headers -> distinct_headers headers ->
  process_headers env headers bc = (Ok hs, bc') ->
  exists b, batch_inv (bc_store bc) headers b /\ accepted (bc_store bc) b headers hs /\ best_inv (tip_work (bc_store bc)) b /\
    (pending b = [] /\ bc_store bc' = bc_store bc \/
     handle_store_block_indexes (bc_store bc) (pending b) (best_tip b) = (Ok tt, bc_store bc')).
Proof.
  intros Ht Hok Hd H. unfold process_headers in H. destruct (get_headers_tip (bc_store bc)) as [tip|e] eqn:Etip; simpl in H; [|done].
  destruct (accept_headers bc headers _) as [b|e] eqn:Ea; [|done]. exists b.
  set (b0 := batch_start (bc_store bc) tip) in Ea. assert (batch_inv (bc_store bc) headers b0) as Hb0.
  { split; cbn; [intros h i; by rewrite lookup_empty|]. by intros h i []%elem_of_nil. }
  assert (best_inv (tip_work (bc_store bc)) b0) as Hw0.
  { split; cbn; [|done|].
    - unfold tip_work. rewrite Etip. done.
    - destruct tip as [t|]; [|apply ZERO_HASH_ok]. destruct (index_opt _ t) as [i|] eqn:Ei; [|apply ZERO_HASH_ok].
      apply index_opt_indexed in Ei. by apply (ht_node _ Ht t). }
  destruct (accept_headers_inv bc headers headers b0 b Ht Hd Hok (fun _ x => x) Hb0 Ea) as (Hb & _ & hs' & Hhs & Hacc).
  pose proof (accept_headers_best bc headers headers b0 b _ Ht Hd Hok (fun _ x => x) Hb0 Hw0 Ea) as Hw.
  cbn in Hhs. subst hs'. destruct (length (pending b) =? 0)%nat eqn:El.
  - injection H as <- <-. rewrite update_chains_store. split_and!; try done. left. split; [|done]. by apply Nat.eqb_eq, nil_length_inv in El.
  - unfold call_chainstate in H. cbn [handle_chainstate_msg] in H. unfold writes in H. fold (bc_store bc) in H.
    destruct (handle_store_block_indexes _ _ _) as [[[]|e] s1] eqn:Es; cbn [map_err] in H; [|done]. injection H as <- <-. rewrite update_chains_store.
    split_and!; try done. right. done.
Qed.

Context {DO : DigestsOk D}.

(** The effect of the commit on the index and the tip, as the callers see it. *)
Lemma batch_parent_after s s' all b hash i : header_tree s -> batch_inv s all b ->
  (forall hash i, (hash, i) ∈ pending b -> indexed s' hash i) ->
  (forall hash, (forall i, (hash, i) ∉ pending b) -> get_block_index s' hash = get_block_index s hash) ->
  batch_parent s b hash = Some i <-> indexed s' hash i.
Proof.
  intros Ht Hb Hin Hout. destruct (by_hash b !! hash) as [j|] eqn:Ej.
  - unfold batch_parent. rewrite Ej. assert (indexed s' hash j) as Hj.
    { destruct (bv_by_hash _ _ _ Hb _ _ Ej) as [Hj|Hj]; [|by apply Hin]. unfold indexed in *. rewrite Hout; [done|].
      intros k Hk. apply (bv_pending _ _ _ Hb) in Hk as (Hk & _). congruence. }
    split; [by intros [= <-]|]. unfold indexed in *. congruence.
  - unfold batch_parent. rewrite Ej. rewrite index_opt_indexed. unfold indexed. rewrite Hout; [done|].
    intros k Hk. apply (bv_pending _ _ _ Hb) in Hk as (_ & Hk & _). congruence.
Qed.

Lemma tip_after s s' all b : header_tree s -> batch_inv s all b -> best_inv (tip_work s) b ->
  (forall hash i, (hash, i) ∈ pending b -> indexed s' hash i) ->
  (forall hash, (forall i, (hash, i) ∉ pending b) -> get_block_index s' hash = get_block_index s hash) ->
  get_headers_tip s' = match best_tip b with Some t => Ok (Some (take 32 t)) | None => get_headers_tip s end ->
  of_le (best_work b) <= of_le (tip_work s').
Proof.
  intros Ht Hb [Hw _ Hk] Hin Hout Htip. unfold tip_work in *. rewrite Htip. destruct (best_tip b) as [t|].
  - destruct Hw as [_ (i & Hi & <-)]. assert (length t = 32%nat) as Hl.
    { apply (bv_pending _ _ _ Hb) in Hi as (_ & _ & <- & _). apply hash256_array. }
    rewrite take_ge by lia. apply Hin in Hi. unfold indexed in Hi. by rewrite Hi.
  - rewrite Hw. destruct (get_headers_tip s) as [[t|]|]; [|done..]. destruct (get_block_index s t) as [[i|]|e] eqn:Et.
    { rewrite Hout, Et; [done|]. intros j Hj. apply (bv_pending _ _ _ Hb) in Hj as (Hj & _). congruence. }
    all: change (of_le (replicate 32 0) <= of_le (work_of (found (get_block_index s' t)))); rewrite of_le_zeros.
    all: apply hash_bound; unfold found; destruct (get_block_index s' t) as [[j|]|] eqn:Et'; cbn; [|apply ZERO_HASH_ok..].
    all: apply (proj2 (batch_parent_after s s' all b t j Ht Hb Hin Hout)) in Et'.
    all: by apply (batch_parent_ok s all b t j Ht Hb) in Et' as [(_ & _ & ? & _) _].
Qed.

(** C10: A successful call of [process_headers] commits a connected prefix of the
    message and keeps the index a tree.  Records that were there are untouched;
    every new one is a header of the message that meets its target and is the child
    of an indexed record.  The headers of the prefix are indexed at the heights
    returned, and a header after it has no indexed parent.  The work of the header
    tip never decreases, and no new header has more. *)
Theorem process_headers_spec (env : Env) (headers : list BlockHeader) (bc : Blockchain B E) (hs : list Z) (bc' : Blockchain B E) :
  header_tree (bc_store bc) -> Forall header_ok headers -> distinct_headers headers ->
  process_headers env headers bc = (Ok hs, bc') ->
  header_tree (bc_store bc') /\
  (forall hash i, indexed (bc_store bc) hash i -> indexed (bc_store bc') hash i) /\
  (forall hash i, indexed (bc_store bc') hash i -> indexed (bc_store bc) hash i \/
     bi_header i ∈ headers /\ meets_target (bi_header i) = true /\ of_le (chain_work i) <= of_le (tip_work (bc_store bc')) /\
     exists q, indexed (bc_store bc') (prev_hash (bi_header i)) q /\ i = child_index (bi_header i) q) /\
  (forall k hdr h, headers !! k = Some hdr -> hs !! k = Some h -> exists i, indexed (bc_store bc') (block_hash hdr) i /\ bi_height i = h) /\
  (forall hdr q, headers !! length hs = Some hdr -> ~ indexed (bc_store bc') (prev_hash hdr) q) /\
  of_le (tip_work (bc_store bc)) <= of_le (tip_work (bc_store bc')).
Proof.
  intros Ht Hok Hd H. destruct (process_headers_batch env headers bc hs bc' Ht Hok Hd H) as (b & Hb & Hacc & Hw & Hcommit).
  assert (header_tree (bc_store bc') /\ (forall hash i, (hash, i) ∈ pending b -> indexed (bc_store bc') hash i) /\
    (forall hash, (forall i, (hash, i) ∉ pending b) -> get_block_index (bc_store bc') hash = get_block_index (bc_store bc) hash) /\
    of_le (best_work b) <= of_le (tip_work (bc_store bc'))) as (Ht' & Hin & Hout & Htip).
  { destruct Hcommit as [[Hnil Heq]|Hc].
    - rewrite Heq, Hnil. split_and!; [done|by intros h i []%elem_of_nil|done|]. destruct Hw as [Hw _ _].
      destruct (best_tip b) as [t|]; [|by rewrite Hw]. rewrite Hnil in Hw. by destruct Hw as [_ (i & []%elem_of_nil & _)].
    - destruct (commit_pending _ _ headers b Ht Hb Hc) as (T1 & T2 & T3 & T4). split_and!; try done.
      by apply (tip_after (bc_store bc) _ headers b). }
  pose proof (fun hash i => batch_parent_after _ _ headers b hash i Ht Hb Hin Hout) as Hview.
  assert (of_le (tip_work (bc_store bc)) <= of_le (best_work b)) as Hstart.
  { destruct Hw as [Hw _ _]. destruct (best_tip b); [lia|by rewrite Hw]. }
  destruct Hacc as (dn & rest & Hsplit & HF & Hrest). pose proof (Forall2_length _ _ _ HF) as Hlen. split_and!; try done; try lia.
  - intros hash i Hi. unfold indexed in *. rewrite Hout; [done|]. intros j Hj. apply (bv_pending _ _ _ Hb) in Hj as (Hj & _). congruence.
  - intros hash i Hi. apply Hview in Hi. destruct (batch_parent_ok _ headers b hash i Ht Hb Hi) as [_ [Hi'|Hp]]; [by left|right].
    pose proof (bv_pending _ _ _ Hb _ _ Hp) as (_ & _ & _ & P1 & P2 & _ & q & P3 & P4). split_and!; try done.
    + destruct Hw as [_ Hmax _]. rewrite Forall_forall in Hmax. specialize (Hmax _ Hp). cbn in Hmax. lia.
    + exists q. split; [by apply Hview|done].
  - intros k hdr h Hk Hh. pose proof (lookup_lt_Some _ _ _ Hh). rewrite Hsplit, lookup_app_l in Hk by lia.
    destruct (Forall2_lookup_lr _ _ _ _ _ _ HF Hk Hh) as (i & Hi & Hhi). exists i. split; [by apply Hview|done].
  - intros hdr q Hk. rewrite Hsplit, lookup_app_r, <- Hlen, Nat.sub_diag in Hk by lia. destruct rest as [|hdr' rest]; [done|].
    injection Hk as ->. destruct Hrest as [_ Hnone]. rewrite <- Hview. congruence.
Qed.
(** ** The node's operations *)

Inductive NodeOp : Type :=
  | OpHeader (hdr : BlockHeader)
  | OpHeaders (headers : list BlockHeader)
  | OpBlock (b : Block)
  | OpActivate
  | OpGenesis
  | OpTransaction (tx : Transaction).

(** The state after an operation, whether it succeeded or not. *)
Definition node_step (env : Env) (op : NodeOp) bc : Blockchain B E :=
  match op with
  | OpHeader hdr => (bc_process_header env hdr bc).2
  | OpHeaders headers => (process_headers env headers bc).2
  | OpBlock b => (process_block env b bc).2
  | OpActivate => (bc_activate_best_chain env bc).2
  | OpGenesis => (load_genesis env bc).2
  | OpTransaction tx => (add_to_mempool tx bc).2
  end.
Definition node_run bc (ops : list (Env * NodeOp)) : Blockchain B E := fold_left (fun bc p => node_step p.1 p.2 bc) ops bc.

(** The messages are Rust values, and no two headers met share a hash. *)
Definition op_ok bc (op : NodeOp) : Prop :=
  match op with
  | OpHeader hdr => header_ok hdr
  | OpHeaders headers => Forall header_ok headers /\ distinct_headers headers
  | OpBlock b => header_ok (header b) /\ forall i, indexed (bc_store bc) (block_hash (header b)) i -> bi_header i = header b
  | OpGenesis => header_ok (genesis_header (bc_params bc)) /\ is_zero (prev_hash (genesis_header (bc_params bc))) = true
  | OpActivate | OpTransaction _ => True
  end.

Lemma tree_header_op env hdr bc : header_tree (bc_store bc) -> header_ok hdr -> header_tree (bc_store (bc_process_header env hdr bc).2).
Proof.
  intros Ht Hh. unfold bc_process_header. destruct (get_block_index (bc_store bc) (block_hash hdr)) as [[i|]|e] eqn:Eg; [done| |done].
  destruct (if is_zero (prev_hash hdr) then _ else _) as [[height prev]|e] eqn:Ep; [|done].
  destruct (match prev with Some _ => _ | None => _ end) as [[]|e]; [|done].
  assert (header_tree (bc_store (call_chainstate env (ProcessHeader hdr height) bc).2)) as H.
  { unfold call_chainstate. cbn [handle_chainstate_msg]. pose proof (tree_process_header hdr height (bc_manager bc) Ht Hh) as H.
    destruct (process_header hdr height (bc_manager bc)) as [r m]. apply H. destruct (is_zero (prev_hash hdr)); [left; split; [done|congruence]|right; split; [done|]].
    fold (bc_store bc). destruct (get_block_index (bc_store bc) (prev_hash hdr)) as [[q|]|] eqn:Eq; [|done..]. exists q. split; [done|congruence]. }
  by destruct (call_chainstate _ _ _) as [[]].
Qed.

Lemma tree_headers_op env headers bc : header_tree (bc_store bc) -> Forall header_ok headers -> distinct_headers headers ->
  header_tree (bc_store (process_headers env headers bc).2).
Proof.
  intros Ht Hok Hd. destruct (process_headers env headers bc) as [[hs|e] bc'] eqn:H; cbn [snd].
  - destruct (process_headers_batch env headers bc hs bc' Ht Hok Hd H) as (b & Hb & _ & _ & [[_ ->]|Hc]); [done|].
    by destruct (commit_pending _ _ headers b Ht Hb Hc).
  - unfold process_headers in H. destruct (rbind _ _) as [b|e']; [|by injection H as _ <-]. destruct (_ =? _)%nat; [done|].
    unfold call_chainstate in H. cbn [handle_chainstate_msg] in H. unfold writes in H.
    destruct (handle_store_block_indexes _ _ _) as [[[]|e'] s1] eqn:Es; cbn [map_err] in H; [done|]. injection H as _ <-.
    apply commit_batch_err in Es as ->. done.
Qed.

(** Appending one block: where its record goes. *)
Lemma append_one (m : BlockFileManager) d hdr height work raw : u32_ok (current_file m) ->
  match append_blocks m d [(hdr, height, work, raw)] with
  | (Ok (entries, _), m', _) => u32_ok (current_file m') /\
      exists pos, flatpos_ok pos /\ entries = [(block_hash hdr, mkBlockIndex hdr height work (Some pos) None)]
  | (Err _, m', _) => u32_ok (current_file m')
  end.
Proof.
  intros Hf. cbn [append_blocks]. unfold write_block, rotate.
  assert (forall x, u32_ok (wrap_u 32 x)) as Hw by (intros x; unfold u32_ok, wrap_u; apply Z.mod_pos_bound; lia).
  destruct (_ && _); [destruct (finalize _ _ _ _) as [d'|e]; cbn [rbind]; [|done]|]; (split; [apply Hw || done|]); eexists; (split; [|done]); split; apply Hw || done.
Qed.

Lemma tree_block_write s hdr height work raw j : header_tree s -> header_ok hdr -> indexed s (block_hash hdr) j -> core j = (hdr, height, work) ->
  header_tree (handle_store_blocks s [(hdr, height, work, raw)]).2.
Proof.
  intros Ht Hh Hj Hc. unfold handle_store_blocks.
  pose proof (append_one (block_file_manager (worker s)) (disk s) hdr height work raw (ht_file _ Ht)) as Ha.
  destruct (append_blocks _ _ _) as [[[[entries ps]|e] m] d]; cbv zeta.
  2: { apply (tree_extend s); cbn; try done; [| |apply Ht]; intros h i Hi; [by exists i|]. split; [by apply (ht_node _ Ht h)|]. left. by exists i. }
  destruct Ha as (Hf & pos & Hpos & ->). set (i := mkBlockIndex hdr height work (Some pos) None).
  assert (block_index_ok i) as Hi.
  { destruct (ht_node _ Ht _ _ Hj) as [(O1 & O2 & O3 & _) _]. unfold core in Hc. injection Hc as <- <- <-. by split_and!. }
  set (s0 := with_files s d (with_file_manager (worker s) m)). assert (header_tree s0) as Ht0.
  { apply (tree_extend s); cbn; try done; [| |apply Ht]; intros h k Hk; [by exists k|]. split; [by apply (ht_node _ Ht h)|]. left. by exists k. }
  set (tip := highest_tip _ _). set (s1 := match tip with Some _ => _ | None => _ end).
  assert (header_tree s1) as Ht1.
  { apply (tree_extend s); [done| | | |]; unfold s1; destruct tip as [[? ?]|]; cbn; try done; try apply Ht; intros h k Hk; (by exists k) || (split; [by apply (ht_node _ Ht h)|]; left; by exists k). }
  assert (indexed s1 (block_hash hdr) j) as Hj1 by (unfold s1; by destruct tip as [[? ?]|]).
  assert (header_tree (commit_batch s1 (blocks_ops m (last_known_tip_height (worker (with_files s d (with_file_manager (worker s) m)))) [(block_hash hdr, i)])).2) as Hfin.
  { apply (commit_keeps header_tree); [done|]. intros s' Ec. eapply (tree_batch s1 s' _ [(block_hash hdr, i)]); [done|exact Ec|by constructor| | |].
    - intros hash. apply blocks_ops_index.
    - intros hash i' j' [= -> ->]%list_elem_of_singleton Hj'. unfold indexed in *. by assert (j' = j) as -> by congruence.
    - intros hash i' [= -> ->]%list_elem_of_singleton. left. by exists j. }
  unfold blocks_ops in Hfin. fold s0 tip in Hfin. unfold entries_ops in Hfin. fold i. destruct (commit_batch s1 _) as [[]]; [done|]. by destruct (_ <=? _)%nat.
Qed.

Lemma tree_block_op env b bc : header_tree (bc_store bc) -> op_ok bc (OpBlock b) -> header_tree (bc_store (process_block env b bc).2).
Proof.
  intros Ht [Hh Hcol]. unfold process_block. destruct (check_block _ _); [|done].
  destruct (get_block_index (bc_store bc) (block_hash (header b))) as [[i|]|e] eqn:Eg; [|done..].
  assert (header_tree (bc_store (accept_block bc b i).2)) as H.
  { unfold accept_block. destruct (file_pos i); [done|].
    pose proof (tree_block_write (bc_store bc) (header b) (bi_height i) (chain_work i) (serialize encode_Block b) i Ht Hh Eg) as H.
    destruct (handle_store_blocks _ _) as [r s]. apply H. unfold core. by rewrite (Hcol i Eg). }
  destruct (accept_block bc b i) as [[[]|e] bc1]; cbn [snd] in H; [|done]. unfold call_chainstate. cbn [handle_chainstate_msg].
  unfold process_block_downloaded, modify. cbn. done.
Qed.

Lemma tree_step env op bc : header_tree (bc_store bc) -> op_ok bc op -> header_tree (bc_store (node_step env op bc)).
Proof.
  intros Ht Hop. destruct op; cbn [node_step op_ok] in *.
  - by apply tree_header_op.
  - destruct Hop. by apply tree_headers_op.
  - by apply tree_block_op.
  - pose proof (keeps_activate header_tree tree_undo tree_utxos env (bc_manager bc) Ht) as H. unfold bc_activate_best_chain, call_chainstate.
    cbn [handle_chainstate_msg]. by destruct (activate_best_chain env (bc_manager bc)).
  - destruct Hop as [Hh Hz]. pose proof (tree_genesis (bc_params bc) Hh Hz (bc_manager bc) Ht) as H. unfold load_genesis, call_chainstate.
    cbn [handle_chainstate_msg]. by destruct (load_genesis_block (bc_params bc) (bc_manager bc)).
  - unfold add_to_mempool. by destruct (accept_tx _ _).
Qed.

(** Every operation of a sequence meets its condition when its turn comes. *)
Fixpoint ops_ok bc (ops : list (Env * NodeOp)) : Prop :=
  match ops with [] => True | (env, op) :: ops => op_ok bc op /\ ops_ok (node_step env op bc) ops end.

(** C8: The index stays a tree of headers.  Take a node whose index is one and any
    sequence of the operations on headers, blocks, activation, genesis and
    transactions, each succeeding or failing, where ([ops_ok]) headers have the widths
    of their fields, the headers of a batch have distinct hashes, a block is not
    indexed under another header of the same hash, and the genesis header has no
    parent.  Then at the end each record is keyed by its header's hash, and it is a
    root, of height 0 and with the work of its own target, or has its parent in the
    index, one height below and with the work of its own target less. *)
Theorem header_tree_invariant (bc : Blockchain B E) (ops : list (Env * NodeOp)) :
  header_tree (bc_store bc) -> ops_ok bc ops -> header_tree (bc_store (node_run bc ops)).
Proof.
  unfold node_run. revert bc. induction ops as [|[env op] ops IH]; intros bc Ht Hok; [done|]. destruct Hok as [Hop Hok].
  cbn [fold_left]. apply IH; [|done]. by apply tree_step.
Qed.
(** ** The path to the root *)

(** The hashes from [hash] down to a root, by the parents of the records. *)
Inductive ancestry s : BlockHash -> list BlockHash -> Prop :=
  | anc_root hash i : indexed s hash i -> is_zero (prev_hash (bi_header i)) = true -> ancestry s hash [hash]
  | anc_step hash i l : indexed s hash i -> is_zero (prev_hash (bi_header i)) = false -> ancestry s (prev_hash (bi_header i)) l -> ancestry s hash (hash :: l).

(** The work of a path: the sum of the work of its targets. *)
Definition path_work s (l : list BlockHash) : Z :=
  foldr (fun h acc => match index_opt s h with Some i => of_le (calculate_block_work (bits (bi_header i))) + acc | None => acc end) 0 l.

Lemma tree_path s n : header_tree s -> (forall h i, is_zero h = true -> ~ indexed s h i) ->
  forall hash i, indexed s hash i -> bi_height i = Z.of_nat n -> Z.of_nat n < U32_MAX ->
  exists l, ancestry s hash l /\ length l = S n /\ of_le (chain_work i) = path_work s l mod 2 ^ 256.
Proof.
  intros Ht Hz. induction n as [|n IH]; intros hash i Hi Hn Hlt.
  all: destruct (ht_node _ Ht _ _ Hi) as [Hok [_ [(Hp & H0 & Hw)|(q & Hq & Hc)]]].
  - exists [hash]. split_and!; [by apply (anc_root s hash i)|done|]. cbn. rewrite (proj2 (index_opt_indexed _ _ _) Hi), Z.add_0_r, Hw.
    destruct Hok as (_ & _ & Hok & _). rewrite Hw in Hok. by rewrite Z.mod_small by (by apply hash_bound).
  - exfalso. unfold core in Hc. injection Hc as Hh Hwk. rewrite Hh in Hn. unfold BlockHeight_next, saturating_add_u, U32_MAX in Hn.
    destruct (ht_node _ Ht _ _ Hq) as [(_ & Hu & _) _]. unfold u32_ok in Hu. lia.
  - lia.
  - destruct (ht_node _ Ht _ _ Hq) as [Hokq _]. pose proof Hokq as (_ & Hu & Hwq & _). unfold core in Hc. injection Hc as Hh Hwk.
    unfold BlockHeight_next, saturating_add_u, u32_ok in *. destruct (IH _ q Hq) as (l & Hl & Hlen & Hwl); [unfold U32_MAX in *; lia..|].
    exists (hash :: l). split_and!; [|simpl; lia|].
    + apply (anc_step s hash i); try done. destruct (is_zero (prev_hash (bi_header i))) eqn:Ez; [|done]. by destruct (Hz _ q Ez).
    + cbn [path_work foldr]. rewrite (proj2 (index_opt_indexed _ _ _) Hi). fold (path_work s l).
      destruct Hok as (Hhd & _). assert (hash_ok (calculate_block_work (bits (bi_header i)))) as Hb by (apply calculate_block_work_value, Hhd).
      rewrite Hwk. unfold add_chain_work. rewrite add_loop_value, Z.add_0_r, (proj1 Hwq) by (by rewrite (proj1 Hwq), (proj1 Hb)).
      change (2 ^ (8 * Z.of_nat 32)) with (2 ^ 256). rewrite Hwl, Zplus_mod_idemp_l. f_equal. lia.
Qed.

Lemma ancestry_nonempty s hash l : ancestry s hash l -> exists i, indexed s hash i.
Proof. intros []; eauto. Qed.

Lemma reconstruct_loop_path s hash l : (forall h i, is_zero h = true -> ~ indexed s h i) -> ancestry s hash l ->
  forall n path, length l = S n -> (n < length path)%nat ->
  reconstruct_loop s n path (Some hash) = reverse l ++ drop (S n) path.
Proof.
  intros Hz Ha. assert (forall h i, indexed s h i -> is_zero h = false) as Hnz.
  { intros h i Hi. destruct (is_zero h) eqn:Eh; [by destruct (Hz h i)|done]. }
  induction Ha as [hash i Hi Hp|hash i l Hi Hp Ha IH]; intros n path Hlen Hlt; cbn [length] in Hlen.
  - assert (n = O) as -> by lia. cbn [reconstruct_loop]. rewrite (Hnz _ _ Hi). destruct path; [simpl in Hlt; lia|done].
  - destruct n as [|n]; [destruct Ha; discriminate|]. cbn [reconstruct_loop]. rewrite (Hnz _ _ Hi), (proj2 (index_opt_indexed _ _ _) Hi).
    rewrite IH by (rewrite ?length_insert; lia). rewrite reverse_cons, <- app_assoc. f_equal.
    rewrite insert_take_drop by lia. by rewrite drop_app_length' by (rewrite length_take; lia).
Qed.

(** On start-up the header path is rebuilt from the index: it is the path of
    parents from a root to the stored header tip, one hash per height, and the work
    of the tip is the sum of the work along it (modulo 2^256). *)
Lemma reconstruct_spec (bc : Blockchain B E) (tip : BlockHash) (i : BlockIndex) :
  header_tree (bc_store bc) -> (forall h j, is_zero h = true -> ~ indexed (bc_store bc) h j) ->
  get_headers_tip (bc_store bc) = Ok (Some tip) -> indexed (bc_store bc) tip i -> bi_height i < U32_MAX ->
  exists l, ancestry (bc_store bc) tip l /\ best_header_chain (reconstruct_header_chain bc) = reverse l /\
    Z.of_nat (length l) = bi_height i + 1 /\ of_le (chain_work i) = path_work (bc_store bc) l mod 2 ^ 256.
Proof.
  intros Ht Hz Htip Hi Hlt. destruct (ht_node _ Ht _ _ Hi) as [(_ & Hu & _) _]. unfold u32_ok, U32_MAX in *.
  destruct (tree_path (bc_store bc) (Z.to_nat (bi_height i)) Ht Hz tip i Hi) as (l & Hl & Hlen & Hw); [lia|unfold U32_MAX; lia|].
  exists l. split_and!; [done| |lia|done]. unfold reconstruct_header_chain. rewrite Htip.
  change (res_ok (Ok (Some tip))) with (Some (Some tip)). cbv beta iota zeta delta [default from_option id]. rewrite (proj2 (index_opt_indexed _ _ _) Hi).
  cbn [set_header_chain best_header_chain]. rewrite wrap_u_small by lia.
  rewrite (reconstruct_loop_path _ tip l Hz Hl) by (rewrite ?length_replicate; lia).
  rewrite drop_ge by (rewrite length_replicate; lia). by rewrite app_nil_r.
Qed.
(** ** Locators *)

(** The locator of an indexed tip starts at the tip and ends at genesis, and
    every other entry is the hash of the best header path at some lower height; the
    locator of an unknown tip is genesis alone. *)
Lemma block_locator_spec (bc : Blockchain B E) (tip : BlockHash) :
  header_tree (bc_store bc) ->
  last (block_locator bc tip) = Some (genesis_hash (bc_params bc)) /\
  match index_opt (bc_store bc) tip with
  | None => block_locator bc tip = [genesis_hash (bc_params bc)]
  | Some i => head (block_locator bc tip) = Some tip /\
      forall x, x ∈ block_locator bc tip -> x = tip \/ x = genesis_hash (bc_params bc) \/
        exists h, 0 <= h < bi_height i /\ header_hash_at_height bc h = Some x
  end.
Proof.
  intros Ht. unfold block_locator. destruct (index_opt (bc_store bc) tip) as [i|] eqn:Ei; [|done].
  apply index_opt_indexed in Ei. destruct (ht_node _ Ht _ _ Ei) as [(_ & Hu & _) _]. unfold u32_ok in Hu.
  set (f := fun height => if height =? bi_height i then Some tip else header_hash_at_height bc height).
  destruct (locator_loop_heights f (S (Z.to_nat (bi_height i))) (bi_height i) 1 []) as (hs & Eb & Hsort & Hhead & Hlast); [lia..|].
  assert (build_block_locator (bi_height i) f = omap f hs) as El by (unfold build_block_locator; by rewrite Eb). rewrite El. clear Eb El.
  destruct hs as [|h hs]; [done|]. injection Hhead as ->. assert (f (bi_height i) = Some tip) as Hf by (unfold f; by rewrite Z.eqb_refl).
  assert (omap f (bi_height i :: hs) = tip :: omap f hs) as El by (cbn; by rewrite Hf). rewrite El.
  assert (forall x, x ∈ omap f hs -> exists h, 0 <= h < bi_height i /\ header_hash_at_height bc h = Some x) as Hel.
  { intros x Hx. apply list_elem_of_omap in Hx as (h & Hh & Hx). inversion Hsort as [|? ? Hs Hgt]; subst. rewrite Forall_forall in Hgt. pose proof (Hgt h Hh).
    unfold f in Hx. destruct (Z.eqb_spec h (bi_height i)); [lia|]. exists h. split; [|done]. split; [|lia].
    apply (StronglySorted_last_ge (bi_height i :: hs)); [done..|]. by right. }
  case_bool_decide as Hg; (split; [done || by rewrite last_snoc|]); (split; [done|]); intros x Hx.
  - apply elem_of_cons in Hx as [->|Hx]; auto.
  - apply elem_of_app in Hx as [Hx|Hx%list_elem_of_singleton]; [|auto]. apply elem_of_cons in Hx as [->|Hx]; auto.
Qed.

(** ** The cached path *)

(** The path starts empty on a new store, loading genesis does not seed it, and
    an empty path only ever accepts a header of height 0: on the first run it stays
    empty, and the readers fall back on the height entries of the store. *)
Lemma empty_path_stays env headers bc hs bc' : best_header_chain bc = [] -> process_headers env headers bc = (Ok hs, bc') ->
  Forall (fun h => 0 < h) hs -> best_header_chain bc' = [].
Proof.
  intros H0 H Hpos. unfold process_headers in H. destruct (rbind _ _) as [b|e]; [|done].
  assert (forall bc1, best_header_chain bc1 = [] -> Forall (fun h => 0 < h) (heights b) -> best_header_chain (update_chains headers (heights b) bc1) = []) as Hu.
  { intros bc1 H1 Hp. unfold update_chains. assert (Forall (fun p => 0 < p.2) (zip headers (heights b))) as Hz.
    { apply Forall_forall. intros [x y] Hxy%elem_of_zip_r. rewrite Forall_forall in Hp. by apply Hp. }
    revert bc1 H1. induction Hz as [|[x h] l Hh _ IH]; intros bc1 H1; [done|]. cbn [fold_left fst snd]. apply IH.
    unfold update_header_chain. cbn [set_header_chain best_header_chain]. rewrite H1. unfold update_chain. cbn [length Nat.eqb]. cbn in Hh.
    destruct (Z.eqb_spec h 0); [lia|]. rewrite andb_false_r. destruct (Z.to_nat h) eqn:Eh; [lia|done]. }
  destruct (_ =? _)%nat; [injection H as <- <-; by apply Hu|]. unfold call_chainstate in H.
  destruct (handle_chainstate_msg _ _ _) as [[[]|e] m]; cbn [map_err] in H; [|done]. injection H as <- <-. by apply Hu.
Qed.
Lemma load_genesis_path env bc : best_header_chain (load_genesis env bc).2 = best_header_chain bc.
Proof. unfold load_genesis, call_chainstate. by destruct (handle_chainstate_msg _ _ _). Qed.

(** A header that is indexed already still rewrites the header path.  When a
    peer sends again a header of a side branch, the path is cut at its height and the
    header put on top, while the index and the header tip stay as they were: the
    cached path is then no longer the path of the most work. *)
Lemma known_header_truncates_path (env : Env) (hdr : BlockHeader) (bc : Blockchain B E) (i : BlockIndex) (tip : option BlockHash) :
  get_headers_tip (bc_store bc) = Ok tip -> indexed (bc_store bc) (block_hash hdr) i -> 0 <= bi_height i ->
  (Z.to_nat (bi_height i) < length (best_header_chain bc))%nat ->
  best_header_chain bc !! Z.to_nat (bi_height i) <> Some (block_hash hdr) ->
  process_headers env [hdr] bc =
    (Ok [bi_height i], set_header_chain bc (take (Z.to_nat (bi_height i)) (best_header_chain bc) ++ [block_hash hdr])).
Proof.
  intros Htip Hi H0 Hlt Hne. unfold process_headers. rewrite Htip. simpl rbind. unfold indexed in Hi. rewrite Hi. simpl rbind.
  cbn [accept_headers batch_known pending heights batch_start length Nat.eqb app update_chains zip_with fold_left fst snd].
  unfold update_header_chain, update_chain. do 2 f_equal.
  destruct (Nat.eqb_spec (length (best_header_chain bc)) 0) as [E0|_]; [lia|]. cbn [andb].
  destruct (Nat.eqb_spec (Z.to_nat (bi_height i)) (length (best_header_chain bc))); [lia|].
  destruct (Nat.ltb_spec (Z.to_nat (bi_height i)) (length (best_header_chain bc))); [|lia]. by rewrite bool_decide_false.
Qed.
End Tree.

(** ** The download window *)

Section Window.
Context {B E : Type} {SB : StorageBackend B}.
Implicit Types s : Store B.

Definition queue_ok s (limit : nat) (q : list BlockHash * gset BlockHash) : Prop :=
  (length q.1 <= limit)%nat /\ NoDup q.1 /\ (forall h, h ∈ q.2 <-> h ∈ q.1) /\ forall h, h ∈ q.1 -> needs_block_data s h = true.

Lemma enqueue_ok s limit q hash : queue_ok s limit q -> queue_ok s (S limit) (enqueue s q hash) /\
  (forall h, h ∈ q.1 -> h ∈ (enqueue s q hash).1) /\ (needs_block_data s hash = true -> hash ∈ (enqueue s q hash).1).
Proof.
  intros (Hl & Hnd & Hset & Hneed). unfold enqueue. destruct (needs_block_data s hash) eqn:En; cbn [andb].
  - case_bool_decide as Hin; cbn [negb].
    + split_and!; try done; [split_and!; try done; lia|]. intros _. by apply Hset.
    + split_and!; [split_and!; cbn [fst snd]|..]; cbn [fst snd].
      * rewrite length_app. simpl. lia.
      * apply NoDup_app. split_and!; [done| |by apply NoDup_singleton]. intros x Hx Hx'%list_elem_of_singleton. subst. by apply Hin, Hset.
      * intros h. rewrite elem_of_union, elem_of_singleton, elem_of_app, list_elem_of_singleton, Hset. tauto.
      * intros h [H|H%list_elem_of_singleton]%elem_of_app; [by apply Hneed|by subst].
      * intros h H. apply elem_of_app. by left.
      * intros _. apply elem_of_app. right. by apply list_elem_of_singleton.
  - split_and!; try done. split_and!; try done. lia.
Qed.

Lemma queue_cached_ok s l limit q : queue_ok s limit q ->
  queue_ok s (limit + length l) (fold_left (enqueue s) l q) /\
  (forall h, h ∈ q.1 -> h ∈ (fold_left (enqueue s) l q).1) /\
  (forall h, h ∈ l -> needs_block_data s h = true -> h ∈ (fold_left (enqueue s) l q).1).
Proof.
  revert limit q. induction l as [|x l IH]; intros limit q Hq; cbn [fold_left length].
  - rewrite Nat.add_0_r. split_and!; try done. by intros h []%elem_of_nil.
  - destruct (enqueue_ok s limit q x Hq) as (H1 & H2 & H3). destruct (IH _ _ H1) as (I1 & I2 & I3).
    replace (limit + S (length l))%nat with (S limit + length l)%nat by lia. split_and!; [done|auto|].
    intros h [->|H]%elem_of_cons Hn; [auto|by apply I3].
Qed.

Lemma queue_indexed_ok s n h limit q : queue_ok s limit q ->
  queue_ok s (limit + n) (queue_indexed s n h q) /\ (forall x, x ∈ q.1 -> x ∈ (queue_indexed s n h q).1) /\
  (forall k x, h <= k < h + Z.of_nat n -> (forall j, h <= j <= k -> exists y, get_block_hash_by_header_height s j = Ok (Some y)) ->
     get_block_hash_by_header_height s k = Ok (Some x) -> needs_block_data s x = true -> x ∈ (queue_indexed s n h q).1).
Proof.
  revert h limit q. induction n as [|n IH]; intros h limit q Hq; cbn [queue_indexed].
  { rewrite Nat.add_0_r. split_and!; try done. lia. }
  destruct (get_block_hash_by_header_height s h) as [[x0|]|e] eqn:Eh.
  2,3: split_and!; [destruct Hq as (? & ? & ? & ?); split_and!; try done; lia|done|];
    intros k x Hk Hall _ _; destruct (Hall h) as [y Hy]; [lia|congruence].
  destruct (enqueue_ok s limit q x0 Hq) as (H1 & H2 & H3). destruct (IH (h + 1) _ _ H1) as (I1 & I2 & I3).
  replace (limit + S n)%nat with (S limit + n)%nat by lia. split_and!; [done|auto|].
  intros k x Hk Hall Hx Hn. destruct (Z.eq_dec k h) as [->|Hne].
  - apply I2. replace x with x0 by congruence. apply H3. by replace x0 with x by congruence.
  - apply (I3 k); try done; [lia|]. intros j Hj. apply Hall. lia.
Qed.
(** The hashes chosen for download are distinct, at most [limit], and all of
    blocks whose data is missing.  None is forgotten: every missing block of the
    window that the header path names is chosen, and so is every missing block that
    the header-height entries name above the path, as far as they have no gap. *)
Lemma sync_window_spec (bc : Blockchain B E) (start : Z) (limit : nat) :
  0 <= start -> start + 1 + Z.of_nat limit < 2 ^ 32 ->
  NoDup (get_next_block_hashes_for_sync bc start limit) /\
  (length (get_next_block_hashes_for_sync bc start limit) <= limit)%nat /\
  (forall hash, hash ∈ get_next_block_hashes_for_sync bc start limit -> needs_block_data (bc_store bc) hash = true) /\
  (forall k hash, start < k <= start + Z.of_nat limit -> best_header_chain bc !! Z.to_nat k = Some hash ->
     needs_block_data (bc_store bc) hash = true -> hash ∈ get_next_block_hashes_for_sync bc start limit) /\
  (forall k hash, start < k <= start + Z.of_nat limit -> Z.of_nat (length (best_header_chain bc)) <= k ->
     (forall j, start < j <= k -> exists h, get_block_hash_by_header_height (bc_store bc) j = Ok (Some h)) ->
     get_block_hash_by_header_height (bc_store bc) k = Ok (Some hash) ->
     needs_block_data (bc_store bc) hash = true -> hash ∈ get_next_block_hashes_for_sync bc start limit).
Proof.
  intros Hs Hl. unfold get_next_block_hashes_for_sync. set (s := bc_store bc). rewrite (wrap_u_small 32 (start + 1)), (wrap_u_small 32 (Z.of_nat limit)) by lia.
  set (w := window (best_header_chain bc) (start + 1) limit).
  assert (length w <= limit)%nat as Hw by (unfold w, window; rewrite length_take; lia).
  assert (queue_ok s 0 ([], ∅)) as H0 by (split_and!; [done|constructor|set_solver|by intros h []%elem_of_nil]).
  destruct (queue_cached_ok s w 0 ([], ∅) H0) as ((Q1 & Q2 & Q3 & Q4) & _ & Qin). set (q := fold_left _ _ _) in *. cbn [Nat.add] in Q1.
  assert (forall k hash, start < k <= start + Z.of_nat limit -> best_header_chain bc !! Z.to_nat k = Some hash -> hash ∈ w) as Hwin.
  { intros k hash Hk Hc. unfold w, window. apply list_elem_of_lookup. exists (Z.to_nat (k - (start + 1))).
    rewrite lookup_take_lt, lookup_drop by lia. by replace (Z.to_nat (start + 1) + Z.to_nat (k - (start + 1)))%nat with (Z.to_nat k) by lia. }
  assert (start + 1 + Z.of_nat (length w) <= start + 1 \/ start + 1 + Z.of_nat (length w) <= Z.of_nat (length (best_header_chain bc))) as Hwl
    by (unfold w, window; rewrite length_take, length_drop; lia).
  destruct (length q.1 <? limit)%nat eqn:El.
  - apply Nat.ltb_lt in El. rewrite (wrap_u_small 32 (Z.of_nat (length q.1))), !wrap_u_small by lia.
    assert (queue_ok s (length q.1) q) as Hq by (split_and!; done). set (n := Z.to_nat _).
    destruct (queue_indexed_ok s n (start + 1 + Z.of_nat (length q.1)) _ q Hq) as ((R1 & R2 & _ & R4) & Rin & Rdb).
    split_and!; try done; [lia|..].
    + intros k hash Hk Hc Hn. apply Rin, Qin; [by eapply Hwin|done].
    + intros k hash Hk Hge Hall Hx Hn. apply (Rdb k); try done; [lia|]. intros j Hj. apply Hall. lia.
  - apply Nat.ltb_ge in El. split_and!; try done; [lia|..].
    + intros k hash Hk Hc Hn. apply Qin; [by eapply Hwin|done].
    + intros k hash Hk Hge Hall Hx Hn. lia.
Qed.
End Window.

(** ** A concrete node *)

Lemma is_zero_replicate (h : bytes) : is_zero h = true -> h = replicate (length h) 0.
Proof.
  induction h as [|x h IH]; [done|]. unfold is_zero. cbn [forallb length replicate]. intros [Hx%Z.eqb_eq Hh]%andb_prop. subst x. f_equal. by apply IH.
Qed.

(** Only one hash has to be looked at to know that no zero hash is indexed. *)
Lemma zero_not_indexed {B} {SB : StorageBackend B} {D : Digests} {DO : DigestsOk D} (s : Store B) : header_tree s ->
  get_block_index s ZERO_HASH = Ok None -> forall h i, is_zero h = true -> ~ indexed s h i.
Proof.
  intros Ht Hz h i Hh Hi. destruct (ht_node _ Ht _ _ Hi) as [_ [E _]].
  assert (length h = 32%nat) as Hl by (rewrite <- E; apply hash256_array).
  apply is_zero_replicate in Hh. rewrite Hl in Hh. unfold indexed in Hi. rewrite Hh in Hi. unfold ZERO_HASH in Hz. congruence.
Qed.

Lemma fresh_tree {D : Digests} dir magic : header_tree (fresh_store dir magic).
Proof. split; cbn; [done|done|]. intros hash i. by rewrite lookup_empty. Qed.

Abbreviation DemoNode := (Blockchain Database ConsensusEngine).
Definition demo_step : Env -> NodeOp -> DemoNode -> DemoNode :=
  @node_step Database ConsensusEngine in_memory toy_digests toy_secp demo_verify.
Definition demo_bc0 : DemoNode := Blockchain_new demo_new Mempool_new demo_params.
Definition demo_bc : DemoNode := demo_step demo_env OpGenesis demo_bc0.
(** Two headers that connect, and one whose parent is unknown. *)
Definition demo_h1 : BlockHeader := header (demo_block demo_parent).
Definition demo_h2 : BlockHeader := mkBlockHeader 1 (@block_hash toy_digests demo_h1) ZERO_HASH 3 0x207fffff 0.
Definition demo_h3 : BlockHeader := mkBlockHeader 1 (replicate 32 7) ZERO_HASH 4 0x207fffff 0.
Definition demo_headers : list BlockHeader := [demo_h1; demo_h2; demo_h3].
Definition demo_call : result (list Z) NodeError * DemoNode :=
  @process_headers _ _ in_memory toy_digests toy_secp demo_verify demo_env demo_headers demo_bc.

Lemma demo_headers_ok : Forall header_ok demo_headers.
Proof.
  repeat constructor; vm_compute; done.
Qed.
Lemma demo_headers_distinct : @distinct_headers toy_digests demo_headers.
Proof.
  intros h1 h2 H1 H2. repeat (apply elem_of_cons in H1 as [-> | H1]); try by apply elem_of_nil in H1.
  all: repeat (apply elem_of_cons in H2 as [-> | H2]); try by apply elem_of_nil in H2.
  all: try done; intros H; vm_compute in H; discriminate H.
Qed.
Lemma demo_tree : @header_tree _ in_memory toy_digests (bc_store demo_bc).
Proof.
  apply (@tree_step _ _ in_memory in_memory_ok toy_digests toy_secp demo_verify demo_env OpGenesis demo_bc0); [exact (fresh_tree [] REGTEST)|].
  split; [exact demo_header_ok|reflexivity].
Qed.

Lemma process_headers_spec_witness :
  demo_call.1 = Ok [1; 2] /\ @header_tree _ in_memory toy_digests (bc_store demo_call.2) /\
  forall q, ~ @indexed _ in_memory (bc_store demo_call.2) (prev_hash demo_h3) q.
Proof.
  assert (demo_call.1 = Ok [1; 2]) as E by (vm_compute; reflexivity). split; [exact E|].
  destruct (@process_headers_spec _ _ in_memory in_memory_ok toy_digests toy_secp demo_verify toy_digests_ok demo_env demo_headers demo_bc [1; 2] demo_call.2
    demo_tree demo_headers_ok demo_headers_distinct (pair_eq demo_call _ E)) as (H1 & _ & _ & _ & H2 & _).
  split; [exact H1|]. intros q. apply (H2 demo_h3 q). reflexivity.
Defined.

Definition demo_ops : list (Env * NodeOp) :=
  [(demo_env, OpGenesis); (demo_env, OpHeaders demo_headers); (demo_env, OpBlock (demo_block demo_parent)); (demo_env, OpActivate)].
Definition demo_final : DemoNode := @node_run _ _ in_memory toy_digests toy_secp demo_verify demo_bc0 demo_ops.
Lemma header_tree_invariant_witness :
  @header_tree _ in_memory toy_digests (bc_store demo_final) /\ active_tip (bc_manager demo_final) = Some (demo_hash demo_parent, 1).
Proof.
  split; [|vm_compute; reflexivity].
  apply (@header_tree_invariant _ _ in_memory in_memory_ok toy_digests toy_secp demo_verify demo_bc0 demo_ops).
  - exact (fresh_tree [] REGTEST).
  - split; [split; [exact demo_header_ok|reflexivity]|]. split; [split; [exact demo_headers_ok|exact demo_headers_distinct]|].
    split; [|split; exact I]. split; [exact (Forall_inv demo_headers_ok)|]. intros i H. vm_compute in H. injection H as <-. reflexivity.
Defined.

Definition demo_synced : DemoNode := demo_call.2.
Lemma reconstruct_spec_witness :
  exists l, best_header_chain (@reconstruct_header_chain _ _ in_memory demo_synced) = reverse l /\ length l = 3%nat.
Proof.
  destruct (@reconstruct_spec _ _ in_memory toy_digests demo_synced (@block_hash toy_digests demo_h2)
    (child_index demo_h2 (child_index demo_h1 demo_tip))) as (l & _ & H1 & H2 & _).
  - exact (@tree_headers_op _ _ in_memory in_memory_ok toy_digests toy_secp demo_verify demo_env demo_headers demo_bc demo_tree demo_headers_ok demo_headers_distinct).
  - apply (zero_not_indexed (D := toy_digests) (DO := toy_digests_ok)).
    + exact (@tree_headers_op _ _ in_memory in_memory_ok toy_digests toy_secp demo_verify demo_env demo_headers demo_bc demo_tree demo_headers_ok demo_headers_distinct).
    + vm_compute. reflexivity.
  - vm_compute. reflexivity.
  - vm_compute. reflexivity.
  - vm_compute. reflexivity.
  - exists l. split; [exact H1|]. apply Nat2Z.inj. rewrite H2. reflexivity.
Defined.

Lemma block_locator_spec_witness :
  last (@block_locator _ _ in_memory toy_digests demo_bc demo_parent) = Some (@genesis_hash toy_digests (bc_params demo_bc)).
Proof.
  assert (forall bc : DemoNode, @header_tree _ in_memory toy_digests (bc_store bc) ->
    last (@block_locator _ _ in_memory toy_digests bc demo_parent) = Some (@genesis_hash toy_digests (bc_params bc))) as H.
  { intros bc Ht. exact (proj1 (@block_locator_spec _ _ in_memory toy_digests bc demo_parent Ht)). }
  exact (H demo_bc demo_tree).
Defined.

Definition demo_restarted : DemoNode := @reconstruct_header_chain _ _ in_memory demo_synced.
Lemma sync_window_spec_witness :
  NoDup (@get_next_block_hashes_for_sync _ _ in_memory demo_restarted 0 10) /\
  @block_hash toy_digests demo_h2 ∈ @get_next_block_hashes_for_sync _ _ in_memory demo_restarted 0 10.
Proof.
  destruct (@sync_window_spec _ _ in_memory demo_restarted 0 10) as (H1 & _ & _ & H2 & _); [lia|reflexivity|].
  split; [exact H1|]. apply (H2 2); [lia| |]; vm_compute; reflexivity.
Defined.

(** A sibling of [demo_h1], indexed but not on the path. *)
Definition demo_side : BlockHeader := mkBlockHeader 1 demo_parent ZERO_HASH 9 0x207fffff 0.
Definition demo_forked : DemoNode :=
  set_header_chain (demo_step demo_env (OpHeaders [demo_side]) demo_restarted) (best_header_chain demo_restarted).
Lemma known_header_truncates_path_witness :
  @process_headers _ _ in_memory toy_digests toy_secp demo_verify demo_env [demo_side] demo_forked =
    (Ok [1], set_header_chain demo_forked [demo_parent; @block_hash toy_digests demo_side]).
Proof.
  exact (@known_header_truncates_path _ _ in_memory toy_digests toy_secp demo_verify demo_env demo_side demo_forked (child_index demo_side demo_tip)
    (Some (@block_hash toy_digests demo_h2)) ltac:(vm_compute; reflexivity) ltac:(vm_compute; reflexivity) ltac:(vm_compute; discriminate)
    ltac:(apply Nat.ltb_lt; vm_compute; reflexivity) ltac:(vm_compute; discriminate)).
Defined.
