(* ===== verification/P2P.v ===== *)
(** * The peer-to-peer messages, their framing and the read loop

    net/p2p/message.rs, codec.rs, messages/ and the framing loop of node.rs.
    A [String] is its UTF-8 bytes.  The read loop is the pure function from the
    bytes received so far to the messages delivered and the bytes kept. *)

From S2P Require Import Prelude Wire Hash Transaction Block Params.

(** ** Errors (errors.rs), as far as the modelled code raises them *)

Inductive P2pError : Type :=
  | WrongMagic (expected actual : Z)
  | MessageTooLarge (size limit : Z)
  | ChecksumMismatch (expected actual : Z)
  | MalformedCommand (command : bytes) (reason : string)
  | ConnectionClosed
  | HandshakeTimeout (secs : Z)
  | PeerVersionTooOld (version minimum : Z)
  | DuplicateHandshakeMessage (command : string)
  | DecodeFailed (msg : string)
  | SelfConnection
  | Banned
  | ConnectionFailed.

(** ** Commands (message.rs) *)

Inductive Command : Type :=
  | CmdVersion | CmdVerack | CmdPing | CmdPong | CmdGetHeaders | CmdHeaders | CmdGetData | CmdInv | CmdGetBlocks
  | CmdBlock | CmdTx | CmdAddr | CmdGetAddr | CmdSendHeaders | CmdFeeFilter | CmdSendCmpct | CmdNotFound
  | CmdUnknown (name : bytes).

#[export] Instance Command_eq_dec : EqDecision Command.
Proof. solve_decision. Defined.

Definition cmd_name (c : Command) : bytes :=
  match c with
  | CmdVersion => string_bytes "version"
  | CmdVerack => string_bytes "verack"
  | CmdPing => string_bytes "ping"
  | CmdPong => string_bytes "pong"
  | CmdGetHeaders => string_bytes "getheaders"
  | CmdHeaders => string_bytes "headers"
  | CmdGetData => string_bytes "getdata"
  | CmdInv => string_bytes "inv"
  | CmdGetBlocks => string_bytes "getblocks"
  | CmdBlock => string_bytes "block"
  | CmdTx => string_bytes "tx"
  | CmdAddr => string_bytes "addr"
  | CmdGetAddr => string_bytes "getaddr"
  | CmdSendHeaders => string_bytes "sendheaders"
  | CmdFeeFilter => string_bytes "feefilter"
  | CmdSendCmpct => string_bytes "sendcmpct"
  | CmdNotFound => string_bytes "notfound"
  | CmdUnknown s => s
  end.

(** The arms of the [match s] of [from_wire], in order. *)
Definition known_commands : list Command :=
  [CmdVersion; CmdVerack; CmdPing; CmdPong; CmdGetHeaders; CmdHeaders; CmdGetData; CmdInv; CmdGetBlocks; CmdBlock; CmdTx;
   CmdAddr; CmdGetAddr; CmdSendHeaders; CmdFeeFilter; CmdSendCmpct; CmdNotFound].
Definition command_of (s : bytes) : Command :=
  match list_find (fun c => cmd_name c = s) known_commands with Some (_, c) => c | None => CmdUnknown s end.

Definition to_wire (c : Command) : bytes :=
  let len := (length (cmd_name c) `min` 12)%nat in take len (cmd_name c) ++ replicate (12 - len) 0.

Definition printable (b : Z) : bool := (0x20 <=? b) && (b <=? 0x7e).

Definition from_wire (w : bytes) : result Command P2pError :=
  let end_ := match list_find (fun b => b = 0) w with Some (i, _) => i | None => 12%nat end in
  if (end_ =? 0)%nat then Err (MalformedCommand w "empty command")
  else if existsb (fun b => negb (b =? 0)) (drop end_ w) then Err (MalformedCommand w "non-null byte after command terminator")
  else if existsb (fun b => negb (printable b)) (take end_ w) then Err (MalformedCommand w "command contains non-printable ascii")
  else if negb (utf8_valid (take end_ w)) then Err (MalformedCommand w "command is not utf-8")
  else Ok (command_of (take end_ w)).

Record MessageHeader : Type := mkMessageHeader {
  mh_magic : Magic;
  mh_command : Command;
  mh_length : Z;
  mh_checksum : bytes;
}.

(** ** Framing (codec.rs) *)

Section Codec.
Context {D : Digests}.

Definition checksum (payload : bytes) : bytes := take 4 (hash256 payload).

Definition encode_header (magic : Magic) (c : Command) (payload : bytes) : bytes :=
  magic_bytes magic ++ to_wire c ++ le_bytes 4 (wrap_u 32 (Z.of_nat (length payload))) ++ checksum payload.

Definition decode_header (buf : bytes) (expected : Magic) : result MessageHeader P2pError :=
  let magic := mkMagic (slice buf 0 4) in
  if negb (bool_decide (magic = expected)) then Err (WrongMagic (of_le (magic_bytes expected)) (of_le (slice buf 0 4))) else
  let? command := from_wire (slice buf 4 16) in
  let length := of_le (slice buf 16 20) in
  if MAX_MESSAGE_SIZE <? length then Err (MessageTooLarge length MAX_MESSAGE_SIZE)
  else Ok (mkMessageHeader magic command length (slice buf 20 24)).

Definition verify_checksum (h : MessageHeader) (payload : bytes) : result unit P2pError :=
  let actual := checksum payload in
  if negb (bool_decide (actual = mh_checksum h)) then Err (ChecksumMismatch (of_be (mh_checksum h)) (of_be actual)) else Ok tt.
End Codec.

(** ** Messages (messages/) *)

(** A count, its limit, and the items: the decoders of [inv], [getdata], [addr] and [headers]. *)
Definition read_count (field : string) (limit : Z) : decoder_of Z := fun d =>
  let? '(count, d) := read_varint field d in
  if limit <? count then Err (AllocationTooLarge field count limit) else Ok (count, d).
Definition read_limited {T} (dec : decoder_of T) (field : string) (limit : Z) : decoder_of (list T) := fun d =>
  let? '(count, d) := read_count field limit d in read_items dec (Z.to_nat count) d.

(** *** inv, notfound, getdata *)

Inductive InvType : Type :=
  | InvError | InvTx | InvBlock | InvFilteredBlock | InvCmpctBlock | InvWtx | InvWitnessTx | InvWitnessBlock | InvFilteredWitnessBlock.
#[export] Instance InvType_eq_dec : EqDecision InvType.
Proof. solve_decision. Defined.

Definition InvType_as_u32 (t : InvType) : Z :=
  match t with
  | InvError => 0 | InvTx => 1 | InvBlock => 2 | InvFilteredBlock => 3 | InvCmpctBlock => 4 | InvWtx => 5
  | InvWitnessTx => Z.lor 1 0x40000000 | InvWitnessBlock => Z.lor 2 0x40000000 | InvFilteredWitnessBlock => Z.lor 3 0x40000000
  end.
Definition InvType_from_u32 (val : Z) : InvType :=
  if val =? 1 then InvTx else if val =? 2 then InvBlock else if val =? 3 then InvFilteredBlock else if val =? 4 then InvCmpctBlock
  else if val =? 5 then InvWtx else if val =? 1073741825 then InvWitnessTx else if val =? 1073741826 then InvWitnessBlock
  else if val =? 1073741827 then InvFilteredWitnessBlock else InvError.

Record InvVector : Type := mkInvVector { inv_type : InvType; inv_hash : bytes }.
Definition MAX_INV_ENTRIES : Z := 50000.
Definition MAX_GETDATA_ENTRIES : Z := 50000.

Definition encode_InvVector : encoder_of InvVector := fun v e => encode_array (inv_hash v) (encode_u32 (InvType_as_u32 (inv_type v)) e).
Definition decode_InvVector : decoder_of InvVector := fun d =>
  let? '(typ, d) := decode_u32 d in
  let? '(hash, d) := decode_array 32 d in
  Ok (mkInvVector (InvType_from_u32 typ) hash, d).

Record Inv : Type := mkInv { inventory : list InvVector }.
Definition encode_Inv : encoder_of Inv := fun m e => encode_VarList encode_InvVector (inventory m) e.
Definition decode_Inv : decoder_of Inv := fun d =>
  let? '(l, d) := read_limited decode_InvVector "inv_count" MAX_INV_ENTRIES d in Ok (mkInv l, d).

Record GetData : Type := mkGetData { gd_inventory : list InvVector }.
Definition encode_GetData : encoder_of GetData := fun m e => encode_VarList encode_InvVector (gd_inventory m) e.
Definition decode_GetData : decoder_of GetData := fun d =>
  let? '(l, d) := read_limited decode_InvVector "inv_count" MAX_GETDATA_ENTRIES d in Ok (mkGetData l, d).

(** *** addr, getaddr *)

Definition MAX_ADDR_ENTRIES : Z := 1000.
Record NetAddr : Type := mkNetAddr { na_time : Z; na_services : Z; na_ip : bytes; na_port : Z }.
Definition encode_NetAddr : encoder_of NetAddr := fun a e =>
  encode_U16BE (na_port a) (encode_array (na_ip a) (encode_u64 (na_services a) (encode_u32 (na_time a) e))).
Definition decode_NetAddr : decoder_of NetAddr := fun d =>
  let? '(time, d) := decode_u32 d in
  let? '(services, d) := decode_u64 d in
  let? '(ip, d) := read_array 16 "ip" d in
  let? '(port, d) := read_u16_be "port" d in
  Ok (mkNetAddr time services ip port, d).

Record Addr : Type := mkAddr { addresses : list NetAddr }.
Definition Addr_encode (m : Addr) : bytes := finish_enc (encode_VarList encode_NetAddr (addresses m) Encoder_new).
Definition Addr_decode (payload : bytes) : result Addr DecodeError :=
  let? '(l, d) := read_limited decode_NetAddr "count" MAX_ADDR_ENTRIES (Decoder_new payload) in
  let? _ := finish d "addr" in
  Ok (mkAddr l).

(** *** getheaders, headers *)

Record GetHeaders : Type := mkGetHeaders { gh_version : Z; locator : list BlockHash; stop_hash : BlockHash }.
Definition GetHeaders_from_tip (tip : BlockHash) : GetHeaders := mkGetHeaders 70015 [tip] ZERO_HASH.
Definition GetHeaders_encode (m : GetHeaders) : bytes :=
  finish_enc (encode_array (stop_hash m) (encode_VarList encode_array (locator m) (encode_u32 (gh_version m) Encoder_new))).
Definition GetHeaders_decode (payload : bytes) : result GetHeaders DecodeError :=
  let? '(version, d) := decode_u32 (Decoder_new payload) in
  let? '(count, d) := read_varint "locator_count" d in
  let? '(locator, d) := read_items (read_array 32 "locator_hash") (Z.to_nat count) d in
  let? '(stop, d) := read_array 32 "stop_hash" d in
  let? _ := finish d "getheaders" in
  Ok (mkGetHeaders version locator stop).

Definition MAX_HEADERS_PER_MSG : Z := 2000.
Record Headers : Type := mkHeaders { headers : list BlockHeader }.
Definition encode_header_entry : encoder_of BlockHeader := fun h e => encode_u8 0 (encode_array (header_serialize h) e).
Definition decode_header_entry : decoder_of BlockHeader := fun d =>
  let? '(raw, d) := read_array 80 "header" d in
  let? '(tx_count, d) := decode_u8 d in
  if negb (tx_count =? 0) then Err (InvalidValue "tx_count" tx_count) else Ok (header_deserialize raw, d).
Definition Headers_encode (m : Headers) : bytes := finish_enc (encode_VarList encode_header_entry (headers m) Encoder_new).
Definition Headers_decode (payload : bytes) : result Headers DecodeError :=
  if (length payload =? 0)%nat then Ok (mkHeaders []) else
  let? '(l, d) := read_limited decode_header_entry "header_count" MAX_HEADERS_PER_MSG (Decoder_new payload) in
  let? _ := finish d "headers" in
  Ok (mkHeaders l).

(** *** ping, pong, verack *)

Record Ping : Type := mkPing { ping_nonce : Z }.
Record Pong : Type := mkPong { pong_nonce : Z }.
Definition encode_Ping : encoder_of Ping := fun m e => encode_u64 (ping_nonce m) e.
Definition decode_Ping : decoder_of Ping := fun d => let? '(nonce, d) := decode_u64 d in Ok (mkPing nonce, d).
Definition encode_Pong : encoder_of Pong := fun m e => encode_u64 (pong_nonce m) e.
Definition decode_Pong : decoder_of Pong := fun d => let? '(nonce, d) := decode_u64 d in Ok (mkPong nonce, d).
Inductive Verack : Type := mkVerack.
Definition encode_Verack : encoder_of Verack := fun _ e => e.
Definition decode_Verack : decoder_of Verack := fun d => Ok (mkVerack, d).
Inductive GetAddr : Type := mkGetAddr.
Definition GetAddr_decode (payload : bytes) : result GetAddr DecodeError :=
  let? _ := finish (Decoder_new payload) "getaddr" in Ok mkGetAddr.

(** *** version *)

Definition PROTOCOL_VERSION : Z := 70015.
Definition SERVICES : Z := 0x09.
Definition USER_AGENT : bytes := string_bytes "/bitcrab:0.1.0/".
Definition MIN_PEER_PROTO_VERSION : Z := 31800.

Record Version : Type := mkVersion {
  v_version : Z;
  v_services : Z;
  v_timestamp : Z;
  recv_services : Z;
  recv_addr : bytes;
  recv_port : Z;
  from_services : Z;
  from_addr : bytes;
  from_port : Z;
  v_nonce : Z;
  user_agent : bytes;
  start_height : Z;
  relay : bool;
}.

(** [our_version_with_nonce]; [now] is the seconds of the system clock. *)
Definition our_version (now nonce start_height : Z) (relay : bool) : Version :=
  mkVersion PROTOCOL_VERSION SERVICES (wrap_s 64 now) 0 (replicate 16 0) 0 SERVICES (replicate 16 0) 0 nonce USER_AGENT start_height relay.

Definition encode_Version : encoder_of Version := fun v e =>
  encode_bool (relay v) (encode_i32 (start_height v) (encode_VarStr (user_agent v) (encode_u64 (v_nonce v)
    (encode_U16BE (from_port v) (encode_array (from_addr v) (encode_u64 (from_services v)
    (encode_U16BE (recv_port v) (encode_array (recv_addr v) (encode_u64 (recv_services v)
    (encode_i64 (v_timestamp v) (encode_u64 (v_services v) (encode_i32 (v_version v) e)))))))))))).
Definition decode_Version : decoder_of Version := fun d =>
  let? '(version, d) := decode_i32 d in
  let? '(services, d) := decode_u64 d in
  let? '(timestamp, d) := decode_i64 d in
  let? '(recv_services, d) := decode_u64 d in
  let? '(recv_addr, d) := read_array 16 "recv_addr" d in
  let? '(recv_port, d) := read_u16_be "recv_port" d in
  let? '(from_services, d) := decode_u64 d in
  let? '(from_addr, d) := read_array 16 "from_addr" d in
  let? '(from_port, d) := read_u16_be "from_port" d in
  let? '(nonce, d) := decode_u64 d in
  let? '(user_agent, d) := read_var_str "user_agent" d in
  let? '(start_height, d) := decode_i32 d in
  let? '(relay, d) := decode_optional_field decode_bool d in
  Ok (mkVersion version services timestamp recv_services recv_addr recv_port from_services from_addr from_port nonce
        user_agent start_height (default true relay), d).

(** *** All messages (messages/mod.rs) *)

Inductive Message : Type :=
  | MVersion (m : Version) | MVerack (m : Verack) | MPing (m : Ping) | MPong (m : Pong) | MGetHeaders (m : GetHeaders)
  | MHeaders (m : Headers) | MGetData (m : GetData) | MInv (m : Inv) | MBlock (m : Block) | MAddr (m : Addr) | MGetAddr (m : GetAddr)
  | MNotFound (m : Inv) | MIgnored (c : Command) | MUnknown (name : bytes).

Definition Message_decode (c : Command) (payload : bytes) : result Message DecodeError :=
  match c with
  | CmdVersion => let? m := decode_exact decode_Version payload "version" in Ok (MVersion m)
  | CmdVerack => let? m := decode_exact decode_Verack payload "verack" in Ok (MVerack m)
  | CmdPing => let? m := decode_exact decode_Ping payload "ping" in Ok (MPing m)
  | CmdPong => let? m := decode_exact decode_Pong payload "pong" in Ok (MPong m)
  | CmdGetHeaders => let? m := GetHeaders_decode payload in Ok (MGetHeaders m)
  | CmdHeaders => let? m := Headers_decode payload in Ok (MHeaders m)
  | CmdGetData => let? m := decode_exact decode_GetData payload "getdata" in Ok (MGetData m)
  | CmdInv => let? m := decode_exact decode_Inv payload "inv" in Ok (MInv m)
  | CmdBlock => let? m := decode_exact decode_Block payload "block" in Ok (MBlock m)
  | CmdAddr => let? m := Addr_decode payload in Ok (MAddr m)
  | CmdGetAddr => let? m := GetAddr_decode payload in Ok (MGetAddr m)
  | CmdNotFound => let? m := decode_exact decode_Inv payload "inv" in Ok (MNotFound m)
  | CmdUnknown name => Ok (MUnknown name)
  | other => Ok (MIgnored other)
  end.

Definition Message_encode (m : Message) : bytes :=
  match m with
  | MVersion v => serialize encode_Version v
  | MVerack v => serialize encode_Verack v
  | MPing v => serialize encode_Ping v
  | MPong v => serialize encode_Pong v
  | MGetHeaders v => GetHeaders_encode v
  | MHeaders v => Headers_encode v
  | MGetData v => serialize encode_GetData v
  | MInv v => serialize encode_Inv v
  | MBlock v => serialize encode_Block v
  | MAddr v => Addr_encode v
  | MGetAddr _ => []
  | MNotFound v => serialize encode_Inv v
  | MIgnored _ | MUnknown _ => []
  end.

Definition command (m : Message) : Command :=
  match m with
  | MVersion _ => CmdVersion | MVerack _ => CmdVerack | MPing _ => CmdPing | MPong _ => CmdPong | MGetHeaders _ => CmdGetHeaders
  | MHeaders _ => CmdHeaders | MGetData _ => CmdGetData | MInv _ => CmdInv | MBlock _ => CmdBlock | MAddr _ => CmdAddr
  | MGetAddr _ => CmdGetAddr | MNotFound _ => CmdNotFound | MIgnored c => c | MUnknown s => CmdUnknown s
  end.

(** How many entries a decoder reserves with [Vec::with_capacity] before it reads
    the first of them. *)
Definition reserved (c : Command) (payload : bytes) : option Z :=
  let d := Decoder_new payload in
  let count r := match r with Ok (n, _) => Some n | Err _ => None end in
  match c with
  | CmdGetHeaders => count (let? '(_, d) := decode_u32 d in read_varint "locator_count" d)
  | CmdHeaders => if (length payload =? 0)%nat then None else count (read_count "header_count" MAX_HEADERS_PER_MSG d)
  | CmdGetData => count (read_count "inv_count" MAX_GETDATA_ENTRIES d)
  | CmdInv | CmdNotFound => count (read_count "inv_count" MAX_INV_ENTRIES d)
  | CmdAddr => count (read_count "count" MAX_ADDR_ENTRIES d)
  | _ => None
  end.

(** ** The write loop and the read loop (node.rs) *)

Section Loops.
Context {D : Digests}.

(** What [write_all] puts on the stream for a message. *)
Definition frame (magic : Magic) (m : Message) : bytes :=
  let payload := Message_encode m in encode_header magic (command m) payload ++ payload.

(** One round of the [while]: [None] leaves it; otherwise the message delivered, if
    any, and by how much the buffer advances. *)
Definition frame_step (magic : Magic) (read_buf : bytes) : option (option Message * nat) :=
  if (length read_buf <? 24)%nat then None else
  match decode_header (take 24 read_buf) magic with
  | Err (WrongMagic _ _) => Some (None, 1%nat)
  | Err _ => None
  | Ok msg_hdr =>
    let total_len := (24 + Z.to_nat (mh_length msg_hdr))%nat in
    if (total_len <=? length read_buf)%nat then
      let payload := slice read_buf 24 total_len in
      Some (match verify_checksum msg_hdr payload with
            | Ok _ => res_ok (Message_decode (mh_command msg_hdr) payload)
            | Err _ => None
            end, total_len)
    else None
  end.

Fixpoint drain_loop (fuel : nat) (magic : Magic) (read_buf : bytes) : list Message * bytes :=
  match fuel with
  | O => ([], read_buf)
  | S fuel =>
    match frame_step magic read_buf with
    | None => ([], read_buf)
    | Some (m, n) =>
      let '(ms, rest) := drain_loop fuel magic (drop n read_buf) in
      (match m with Some m => m :: ms | None => ms end, rest)
    end
  end.
Definition drain (magic : Magic) (read_buf : bytes) : list Message * bytes := drain_loop (length read_buf) magic read_buf.

(** [read_loop] over the chunks the socket returns. *)
Definition read_loop (magic : Magic) (chunks : list bytes) : list Message * bytes :=
  fold_left (fun st chunk => let '(ms, rest) := drain magic (st.2 ++ chunk) in (st.1 ++ ms, rest)) chunks ([], []).
End Loops.
