(* ===== verification/P2PProofs.v ===== *)
(** * Properties of the peer-to-peer messages

    Commands and headers survive the wire both ways; every message decodes to
    itself; the read loop does not depend on how the stream is cut into chunks, and
    delivers what the peer's write loop sent; what the decoders reserve; what a
    malformed header does to a connection. *)

From S2P Require Import Prelude Wire Hash Transaction Block Codecs Params BlockFile P2P.

(** ** Decoding whole payloads *)

Lemma decodes_whole {T} (dec : decoder_of T) x bs : decodes dec x bs -> dec (Decoder_new bs) = Ok (x, mkDecoder bs (length bs)).
Proof. intros H. specialize (H [] []). by rewrite app_nil_l, app_nil_r in H. Qed.
Lemma finish_whole bs ctx : finish (mkDecoder bs (length bs)) ctx = Ok tt.
Proof. unfold finish, is_done. cbn. by rewrite Nat.eqb_refl. Qed.
Lemma decode_exact_whole {T} (dec : decoder_of T) x bs ctx : decodes dec x bs -> decode_exact dec bs ctx = Ok x.
Proof. intros H. unfold decode_exact. rewrite (decodes_whole dec x bs H). simpl. by rewrite finish_whole. Qed.

Lemma read_limited_decodes {T} (enc : encoder_of T) dec wf field limit l :
  (forall x, wf x -> decodes dec x (serialize enc x)) -> Forall wf l -> Z.of_nat (length l) <= limit -> limit <= U64_MAX ->
  decodes (read_limited dec field limit) l (varint_bytes (Z.of_nat (length l)) ++ items_bytes enc l).
Proof.
  intros Hdec Hl Hn Hlim. apply (decodes_bind (read_count field limit) (fun count => read_items dec (Z.to_nat count)) (Z.of_nat (length l))).
  - intros pre post. unfold read_count.
    rewrite (read_varint_decodes field (Z.of_nat (length l)) ltac:(unfold u64_ok, U64_MAX in *; lia) pre post). simpl.
    destruct (Z.ltb_spec limit (Z.of_nat (length l))); [lia|done].
  - rewrite Nat2Z.id. by apply (read_items_decodes enc dec wf).
Qed.

Lemma read_array_decodes n f bs : length bs = n -> decodes (read_array n f) bs (serialize encode_array bs).
Proof. intros H. change (serialize encode_array bs) with bs. by apply read_bytes_decodes. Qed.
Lemma read_u16_be_decodes f z : u16_ok z -> decodes (read_u16_be f) z (serialize encode_U16BE z).
Proof.
  intros H. change (serialize encode_U16BE z) with (be_bytes 2 z).
  assert (of_be (be_bytes 2 z) = z) as E by (unfold of_be, be_bytes; rewrite reverse_involutive; by apply le_bytes_small).
  rewrite <- E at 1. apply read_int_decodes. unfold be_bytes. by rewrite length_reverse, length_le_bytes.
Qed.

Lemma read_var_str_decodes f s : vec_ok s -> utf8_valid s = true -> decodes (read_var_str f) s (serialize encode_VarStr s).
Proof.
  intros Hs Hu. change (serialize encode_VarStr s) with (serialize encode_VarBytes s). rewrite serialize_VarBytes by done. intros pre post.
  assert (u64_ok (Z.of_nat (length s))) as Hn by (by apply vec_len_u64).
  unfold read_var_str. cbn [dec_data dec_pos]. rewrite drop_app_length, <- app_assoc.
  pose proof (read_varint_raw_app (Z.of_nat (length s)) f (s ++ post) Hn) as ->. simpl rbind.
  rewrite (proj2 (ensure_allocation_len_ok f (Z.of_nat (length s))) ltac:(unfold vec_ok in Hs; lia)). simpl rbind. unfold advance. cbn [dec_data dec_pos].
  replace (pre ++ varint_bytes (Z.of_nat (length s)) ++ s ++ post) with ((pre ++ varint_bytes (Z.of_nat (length s))) ++ s ++ post) by (by rewrite <- !app_assoc).
  rewrite <- length_app. rewrite (require_at (pre ++ varint_bytes (Z.of_nat (length s))) s post) by (by rewrite Nat2Z.id).
  simpl rbind. rewrite Nat2Z.id, slice_at, Hu. do 3 f_equal. rewrite !length_app. lia.
Qed.

(** Each field by its codec, then the value. *)
Ltac decodes_field := eapply decodes_bind'; [reflexivity
  | first [by apply wire_decodes | by apply read_array_decodes | by apply read_u16_be_decodes | by apply read_var_str_decodes] |].
Ltac decodes_fields := repeat decodes_field.

(** ** The messages *)

Definition inv_ok (v : InvVector) : Prop := array_ok 32 (inv_hash v).
Definition netaddr_ok (a : NetAddr) : Prop := u32_ok (na_time a) /\ u64_ok (na_services a) /\ array_ok 16 (na_ip a) /\ u16_ok (na_port a).
Definition version_ok (v : Version) : Prop :=
  i32_ok (v_version v) /\ u64_ok (v_services v) /\ i64_ok (v_timestamp v) /\ u64_ok (recv_services v) /\ array_ok 16 (recv_addr v) /\
  u16_ok (recv_port v) /\ u64_ok (from_services v) /\ array_ok 16 (from_addr v) /\ u16_ok (from_port v) /\ u64_ok (v_nonce v) /\
  vec_ok (user_agent v) /\ utf8_valid (user_agent v) = true /\ i32_ok (start_height v).

(** The commands that have no decoder. *)
Definition unhandled (c : Command) : bool :=
  match c with CmdGetBlocks | CmdTx | CmdSendHeaders | CmdFeeFilter | CmdSendCmpct => true | _ => false end.

Definition message_ok (m : Message) : Prop :=
  match m with
  | MVersion v => version_ok v
  | MVerack _ | MGetAddr _ | MUnknown _ => True
  | MPing p => u64_ok (ping_nonce p)
  | MPong p => u64_ok (pong_nonce p)
  | MGetHeaders g => u32_ok (gh_version g) /\ Forall (array_ok 32) (locator g) /\ vec_ok (locator g) /\ array_ok 32 (stop_hash g)
  | MHeaders h => Forall header_ok (headers h) /\ Z.of_nat (length (headers h)) <= MAX_HEADERS_PER_MSG
  | MGetData g => Forall inv_ok (gd_inventory g) /\ Z.of_nat (length (gd_inventory g)) <= MAX_GETDATA_ENTRIES
  | MInv i | MNotFound i => Forall inv_ok (inventory i) /\ Z.of_nat (length (inventory i)) <= MAX_INV_ENTRIES
  | MBlock b => block_ok b
  | MAddr a => Forall netaddr_ok (addresses a) /\ Z.of_nat (length (addresses a)) <= MAX_ADDR_ENTRIES
  | MIgnored c => unhandled c = true
  end.

Lemma InvType_roundtrip t : InvType_from_u32 (InvType_as_u32 t) = t.
Proof. by destruct t. Qed.
Lemma push_U16BE x e : encode_U16BE x e = push_bytes (serialize encode_U16BE x) e.
Proof. done. Qed.
Lemma push_i32 x e : encode_i32 x e = push_bytes (serialize encode_i32 x) e.
Proof. done. Qed.
Lemma push_i64 x e : encode_i64 x e = push_bytes (serialize encode_i64 x) e.
Proof. done. Qed.
Lemma push_VarStr x e : encode_VarStr x e = push_bytes (serialize encode_VarStr x) e.
Proof. exact (wire_append (WireCodec := varbytes_codec "") x e). Qed.
#[local] Hint Rewrite push_U16BE push_i32 push_i64 push_VarStr : wire_push.

Lemma InvVector_push v e : encode_InvVector v e =
  push_bytes (serialize encode_u32 (InvType_as_u32 (inv_type v)) ++ serialize encode_array (inv_hash v)) e.
Proof. unfold encode_InvVector. rewrite (push_array (inv_hash v)). by push_chain. Qed.
Lemma InvVector_decodes v : inv_ok v -> decodes decode_InvVector v (serialize encode_InvVector v).
Proof.
  intros Hv. rewrite (serialize_push _ _ _ (InvVector_push v)). unfold decode_InvVector.
  eapply decodes_bind'; [reflexivity|apply wire_decodes; destruct (inv_type v); done|].
  rewrite <- (app_nil_r (serialize encode_array _)). eapply decodes_bind'; [reflexivity|by apply read_array_decodes, Hv|].
  rewrite InvType_roundtrip. destruct v. apply decodes_ret.
Qed.

Lemma NetAddr_push a e : encode_NetAddr a e =
  push_bytes (serialize encode_u32 (na_time a) ++ serialize encode_u64 (na_services a) ++ serialize encode_array (na_ip a) ++ serialize encode_U16BE (na_port a) ++ []) e.
Proof. unfold encode_NetAddr. rewrite (push_array (na_ip a)). push_chain. rewrite ?app_nil_r. by rewrite <- ?app_assoc. Qed.
Lemma NetAddr_decodes a : netaddr_ok a -> decodes decode_NetAddr a (serialize encode_NetAddr a).
Proof.
  intros (H1 & H2 & [H3 _] & H4). rewrite (serialize_push _ _ _ (NetAddr_push a)). unfold decode_NetAddr. decodes_fields.
  destruct a. apply decodes_ret.
Qed.

Lemma header_entry_push h e : encode_header_entry h e = push_bytes (header_serialize h ++ [0] ++ []) e.
Proof. unfold encode_header_entry, encode_u8, encode_array, push_u8, push_bytes. cbn. by rewrite app_assoc. Qed.
Lemma header_entry_decodes h : header_ok h -> decodes decode_header_entry h (serialize encode_header_entry h).
Proof.
  intros Hh. rewrite (serialize_push _ _ _ (header_entry_push h)). unfold decode_header_entry.
  eapply decodes_bind'; [reflexivity|apply read_bytes_decodes; by apply length_header_serialize|].
  eapply decodes_bind'; [reflexivity|apply read_u8_decodes|]. cbn. rewrite header_deserialize_serialize by done. apply decodes_ret.
Qed.

Lemma Version_push v e : encode_Version v e = push_bytes (
  serialize encode_i32 (v_version v) ++ serialize encode_u64 (v_services v) ++ serialize encode_i64 (v_timestamp v) ++
  serialize encode_u64 (recv_services v) ++ serialize encode_array (recv_addr v) ++ serialize encode_U16BE (recv_port v) ++
  serialize encode_u64 (from_services v) ++ serialize encode_array (from_addr v) ++ serialize encode_U16BE (from_port v) ++
  serialize encode_u64 (v_nonce v) ++ serialize encode_VarStr (user_agent v) ++ serialize encode_i32 (start_height v) ++
  serialize encode_bool (relay v) ++ []) e.
Proof.
  unfold encode_Version. rewrite (push_array (recv_addr v)), (push_array (from_addr v)). push_chain. rewrite ?app_nil_r. by rewrite <- ?app_assoc.
Qed.
Lemma optional_decodes {T} (dec : decoder_of T) x bs : (0 < length bs)%nat -> decodes dec x bs -> decodes (decode_optional_field dec) (Some x) bs.
Proof.
  intros Hl H pre post. unfold decode_optional_field, is_done. cbn [dec_pos dec_data].
  destruct (Nat.eqb_spec (length pre) (length (pre ++ bs ++ post))) as [E|_]; [rewrite !length_app in E; lia|]. by rewrite (H pre post).
Qed.
Lemma Version_decodes v : version_ok v -> decodes decode_Version v (serialize encode_Version v).
Proof.
  intros (H1 & H2 & H3 & H4 & [H5 _] & H6 & H7 & [H8 _] & H9 & H10 & H11 & H12 & H13). rewrite (serialize_push _ _ _ (Version_push v)).
  unfold decode_Version. decodes_fields.
  eapply decodes_bind'; [reflexivity|apply optional_decodes; [by apply (wire_nonempty (WireCodec := bool_codec))|by apply wire_decodes]|].
  destruct v. apply decodes_ret.
Qed.

(** A list message: count and items, then the end of the payload. *)
Lemma limited_serialize {T} (enc : encoder_of T) l : (forall x e, enc x e = push_bytes (serialize enc x) e) ->
  Z.of_nat (length l) <= U64_MAX -> serialize (encode_VarList enc) l = varint_bytes (Z.of_nat (length l)) ++ items_bytes enc l.
Proof.
  intros He Hl. apply serialize_push. intros e. unfold encode_VarList. rewrite encode_items_push by done.
  by rewrite encode_VarInt_bytes, push_bytes_push_bytes by (unfold u64_ok, U64_MAX in *; lia).
Qed.
Lemma append_of_push {T} (enc : encoder_of T) f : (forall x e, enc x e = push_bytes (f x) e) -> forall x e, enc x e = push_bytes (serialize enc x) e.
Proof. intros H x e. by rewrite (serialize_push enc (f x) x (H x)). Qed.

Lemma limited_decodes {T} (enc : encoder_of T) dec wf f field limit l : (forall x e, enc x e = push_bytes (f x) e) ->
  (forall x, wf x -> decodes dec x (serialize enc x)) -> Forall wf l -> Z.of_nat (length l) <= limit -> limit <= U64_MAX ->
  decodes (read_limited dec field limit) l (serialize (encode_VarList enc) l).
Proof.
  intros He Hd Hl Hn Hm. rewrite limited_serialize by (try lia; by apply (append_of_push enc f)). by apply (read_limited_decodes enc dec wf).
Qed.

Lemma GetHeaders_roundtrip g : message_ok (MGetHeaders g) -> GetHeaders_decode (GetHeaders_encode g) = Ok g.
Proof.
  intros (H1 & H2 & H3 & [H4 _]). set (n := Z.of_nat (length (locator g))). assert (u64_ok n) as Hn by (by apply vec_len_u64).
  assert (GetHeaders_encode g = serialize encode_u32 (gh_version g) ++ varint_bytes n ++ items_bytes encode_array (locator g) ++ serialize encode_array (stop_hash g) ++ []) as E.
  { unfold GetHeaders_encode, encode_VarList. rewrite encode_items_push by (intros; apply push_array). rewrite encode_VarInt_bytes by done.
    rewrite push_array, push_u32, !push_bytes_push_bytes. cbn. by rewrite ?app_nil_r, <- ?app_assoc. }
  set (dec := fun d => let? '(version, d) := decode_u32 d in let? '(count, d) := read_varint "locator_count" d in
    let? '(locator, d) := read_items (read_array 32 "locator_hash") (Z.to_nat count) d in
    let? '(stop, d) := read_array 32 "stop_hash" d in Ok (mkGetHeaders version locator stop, d)).
  assert (decodes dec g (GetHeaders_encode g)) as Hd.
  { rewrite E. unfold dec. eapply decodes_bind'; [reflexivity|by apply wire_decodes|].
    eapply decodes_bind'; [reflexivity|by apply read_varint_decodes|]. unfold n. rewrite Nat2Z.id.
    eapply decodes_bind'; [reflexivity|apply (read_items_decodes encode_array _ (array_ok 32)); [|done]; intros x [Hx _]; by apply read_array_decodes|].
    decodes_fields. destruct g. apply decodes_ret. }
  pose proof (decodes_whole dec g _ Hd) as H. unfold dec in H. unfold GetHeaders_decode.
  destruct (decode_u32 _) as [[v d1]|]; simpl in *; [|done]. destruct (read_varint _ d1) as [[c d2]|]; simpl in *; [|done].
  destruct (read_items _ _ d2) as [[l d3]|]; simpl in *; [|done]. destruct (read_array _ _ d3) as [[s d4]|]; simpl in *; [|done].
  injection H as <- ->. by rewrite finish_whole.
Qed.

Lemma inv_list_decodes field limit l : Forall inv_ok l -> Z.of_nat (length l) <= limit -> limit <= U64_MAX ->
  decodes (read_limited decode_InvVector field limit) l (serialize (encode_VarList encode_InvVector) l).
Proof. apply (limited_decodes encode_InvVector decode_InvVector inv_ok _ _ _ _ InvVector_push InvVector_decodes). Qed.

(** Every well-formed message decodes to itself from its command and payload:
    the handshake, the inventories, headers, blocks and addresses within the limits
    the decoders set, and the messages the node does not handle. *)
Lemma message_decodes (m : Message) : message_ok m -> Message_decode (command m) (Message_encode m) = Ok m.
Proof.
  destruct m as [v|[]|p|p|g|h|g|i|b|a|[]|i|c|s]; cbn [message_ok command Message_encode Message_decode]; intros H.
  - rewrite (decode_exact_whole _ v); [done|]. by apply Version_decodes.
  - done.
  - rewrite (decode_exact_whole _ p); [done|]. destruct p as [n]. apply (decodes_last decode_u64 mkPing n). by apply (wire_decodes (WireCodec := u64_codec)).
  - rewrite (decode_exact_whole _ p); [done|]. destruct p as [n]. apply (decodes_last decode_u64 mkPong n). by apply (wire_decodes (WireCodec := u64_codec)).
  - by rewrite GetHeaders_roundtrip.
  - destruct H as [H1 H2]. destruct h as [l]. cbn [headers] in *.
    pose proof (limited_decodes encode_header_entry decode_header_entry header_ok _ "header_count" MAX_HEADERS_PER_MSG l header_entry_push header_entry_decodes H1 H2 ltac:(done)) as Hd.
    unfold Headers_decode, Headers_encode. cbn [headers]. change (finish_enc (encode_VarList encode_header_entry l Encoder_new)) with (serialize (encode_VarList encode_header_entry) l).
    assert (length (serialize (encode_VarList encode_header_entry) l) <> 0)%nat as Hne.
    { rewrite limited_serialize by (try (unfold MAX_HEADERS_PER_MSG, U64_MAX in *; lia); apply (append_of_push _ _ header_entry_push)).
      rewrite length_app. pose proof (varint_bytes_pos (Z.of_nat (length l))). lia. }
    rewrite (proj2 (Nat.eqb_neq _ _) Hne), (decodes_whole _ _ _ Hd). simpl. by rewrite finish_whole.
  - destruct H as [H1 H2]. destruct g as [l]. rewrite (decode_exact_whole _ (mkGetData l)); [done|].
    exact (decodes_last _ mkGetData l _ (inv_list_decodes _ _ l H1 H2 ltac:(done))).
  - destruct H as [H1 H2]. destruct i as [l]. rewrite (decode_exact_whole _ (mkInv l)); [done|].
    exact (decodes_last _ mkInv l _ (inv_list_decodes _ _ l H1 H2 ltac:(done))).
  - rewrite (decode_exact_serialize encode_Block decode_Block block_ok); done.
  - destruct H as [H1 H2]. destruct a as [l]. cbn [addresses] in *. unfold Addr_decode, Addr_encode. cbn [addresses]. change (finish_enc (encode_VarList encode_NetAddr l Encoder_new)) with (serialize (encode_VarList encode_NetAddr) l).
    rewrite (decodes_whole _ _ _ (limited_decodes encode_NetAddr decode_NetAddr netaddr_ok _ "count" MAX_ADDR_ENTRIES l NetAddr_push NetAddr_decodes H1 H2 ltac:(done))).
    simpl. by rewrite finish_whole.
  - done.
  - destruct H as [H1 H2]. destruct i as [l]. rewrite (decode_exact_whole _ (mkInv l)); [done|].
    exact (decodes_last _ mkInv l _ (inv_list_decodes _ _ l H1 H2 ltac:(done))).
  - by destruct c.
  - done.
Qed.

(** ** Commands *)

Definition name_ok (s : bytes) : Prop := (1 <= length s <= 12)%nat /\ Forall (fun b => printable b = true) s.
Definition command_ok (c : Command) : Prop :=
  match c with CmdUnknown s => name_ok s /\ command_of s = CmdUnknown s | _ => True end.

Lemma command_name_ok c : command_ok c -> name_ok (cmd_name c) /\ command_of (cmd_name c) = c.
Proof.
  destruct c; cbn [command_ok cmd_name]; try done; intros _; (split; [|reflexivity]); (split; [vm_compute; lia|]); repeat constructor.
Qed.

Lemma printable_utf8 s : Forall (fun b => printable b = true) s -> utf8_valid s = true.
Proof.
  induction 1 as [|b s Hb _ IH]; [done|]. cbn [utf8_valid]. unfold printable in Hb. apply andb_prop in Hb as [_ Hb%Z.leb_le].
  by rewrite (proj2 (Z.leb_le b 0x7F)) by lia.
Qed.
Lemma existsb_none {A} (f : A -> bool) l : Forall (fun x => f x = false) l -> existsb f l = false.
Proof. induction 1 as [|x l Hx _ IH]; [done|]. cbn. by rewrite Hx, IH. Qed.
Lemma existsb_false {A} (f : A -> bool) l : existsb f l = false -> Forall (fun x => f x = false) l.
Proof. induction l as [|x l IH]; cbn; [constructor|]. intros [Hx Hl]%orb_false_iff. constructor; auto. Qed.

Lemma name_no_null s : Forall (fun b => printable b = true) s -> Forall (fun b => b <> 0) s.
Proof. intros H. eapply Forall_impl; [exact H|]. intros b Hb ->. done. Qed.

Lemma name_end s n : name_ok s -> n = (12 - length s)%nat ->
  match list_find (fun b => b = 0) (s ++ replicate n 0) with Some (i, _) => i | None => 12%nat end = length s.
Proof.
  intros [Hl Hs] ->. apply name_no_null in Hs.
  destruct (Nat.eq_dec (length s) 12%nat) as [E|E].
  - rewrite E. cbn [Nat.sub replicate]. rewrite app_nil_r. rewrite (proj2 (list_find_None _ _)); [done|]. exact Hs.
  - destruct (12 - length s)%nat as [|k] eqn:Ek; [lia|]. cbn [replicate].
    assert (list_find (fun b : Z => b = 0) (s ++ 0 :: replicate k 0) = Some (length s, 0)) as ->; [|done].
    apply list_find_Some. split_and!; [by rewrite lookup_app_r, Nat.sub_diag by lia|done|].
    intros j y Hy Hj. rewrite lookup_app_l in Hy by lia. rewrite Forall_lookup in Hs. by apply (Hs j).
Qed.

Lemma from_wire_name s : name_ok s -> from_wire (s ++ replicate (12 - length s) 0) = Ok (command_of s).
Proof.
  intros Hs. unfold from_wire. rewrite (name_end s _ Hs eq_refl). destruct Hs as [Hl Hs].
  destruct (Nat.eqb_spec (length s) 0) as [E|_]; [lia|]. rewrite drop_app_length, take_app_length.
  rewrite existsb_none by (apply Forall_replicate; done).
  rewrite existsb_none by (eapply Forall_impl; [exact Hs|]; cbn; intros b Hb; by rewrite Hb). by rewrite printable_utf8.
Qed.

Lemma to_wire_name c : command_ok c -> to_wire c = cmd_name c ++ replicate (12 - length (cmd_name c)) 0.
Proof.
  intros [[Hl _] _]%command_name_ok. unfold to_wire. rewrite Nat.min_l by lia. by rewrite take_ge by lia.
Qed.
Lemma length_to_wire c : length (to_wire c) = 12%nat.
Proof. unfold to_wire. rewrite length_app, length_take, length_replicate. lia. Qed.

Lemma from_wire_to_wire c : command_ok c -> from_wire (to_wire c) = Ok c.
Proof.
  intros Hc. rewrite to_wire_name by done. apply command_name_ok in Hc as [Hn Hc]. by rewrite from_wire_name, Hc.
Qed.

Lemma command_of_name s : cmd_name (command_of s) = s.
Proof.
  unfold command_of. destruct (list_find _ _) as [[i c]|] eqn:E; [|done]. by apply list_find_Some in E as (_ & ? & _).
Qed.
Lemma command_of_ok s : name_ok s -> command_ok (command_of s).
Proof.
  intros Hs. pose proof (command_of_name s) as Hn. destruct (command_of s) eqn:E; cbn; try done. cbn in Hn. subst name. done.
Qed.

Lemma command_wire_accepted (w : bytes) (c : Command) : length w = 12%nat -> from_wire w = Ok c -> command_ok c /\ w = to_wire c.
Proof.
  intros Hl. unfold from_wire. set (n := match list_find _ w with Some _ => _ | None => _ end).
  assert (n <= 12)%nat as Hn.
  { unfold n. destruct (list_find _ w) as [[i y]|] eqn:E; [|done]. apply list_find_Some in E as (E & _). apply lookup_lt_Some in E. lia. }
  destruct (Nat.eqb_spec n 0) as [|Hn0]; [done|]. destruct (existsb _ (drop n w)) eqn:E1; [done|].
  destruct (existsb _ (take n w)) eqn:E2; [done|]. destruct (utf8_valid _); [|done]. intros [= <-].
  assert (name_ok (take n w)) as Hs.
  { split; [rewrite length_take; lia|]. apply existsb_false in E2. eapply Forall_impl; [exact E2|]. cbn. intros b. by destruct (printable b). }
  pose proof (command_of_ok _ Hs) as Hc. split; [done|]. rewrite to_wire_name, command_of_name, length_take, Nat.min_l by (done || lia).
  rewrite <- (take_drop n w) at 1. f_equal. apply existsb_false in E1.
  assert (length (drop n w) = (12 - n)%nat) as <- by (rewrite length_drop; lia). clear -E1.
  induction E1 as [|b l Hb _ IH]; [done|]. cbn. rewrite <- IH. f_equal. by destruct (Z.eqb_spec b 0).
Qed.

(** The twelve command bytes and the commands correspond exactly: a command
    that can be sent is read back as itself, and whatever bytes are accepted are the
    bytes of the command they are read as. *)
Lemma command_wire_exact (w : bytes) (c : Command) : length w = 12%nat ->
  from_wire w = Ok c <-> command_ok c /\ w = to_wire c.
Proof. intros Hl. split; [by apply command_wire_accepted|]. intros [Hc ->]. by apply from_wire_to_wire. Qed.

(** ** Headers and frames *)

Section Frames.
Context {D : Digests} {DO : DigestsOk D}.

Lemma length_checksum p : length (checksum p) = 4%nat.
Proof. unfold checksum. rewrite length_take. destruct (hash256_array (D := D) p) as [-> _]. done. Qed.
Lemma length_encode_header magic c p : magic_ok magic -> length (encode_header magic c p) = 24%nat.
Proof.
  intros [Hm _]. unfold encode_header. rewrite !length_app, length_to_wire, length_le_bytes, length_checksum, Hm. done.
Qed.

(** The four fields of a header. *)
Lemma header_slices (a b c d : bytes) : length a = 4%nat -> length b = 12%nat -> length c = 4%nat -> length d = 4%nat ->
  slice (a ++ b ++ c ++ d) 0 4 = a /\ slice (a ++ b ++ c ++ d) 4 16 = b /\ slice (a ++ b ++ c ++ d) 16 20 = c /\ slice (a ++ b ++ c ++ d) 20 24 = d.
Proof.
  intros Ha Hb Hc Hd. unfold slice. split_and!.
  - rewrite drop_0. by rewrite take_app_eq.
  - rewrite drop_app_length' by done. by rewrite take_app_eq.
  - replace (a ++ b ++ c ++ d) with ((a ++ b) ++ c ++ d) by (by rewrite <- app_assoc). rewrite drop_app_length' by (rewrite length_app; lia). by rewrite take_app_eq.
  - replace (a ++ b ++ c ++ d) with ((a ++ b ++ c) ++ d) by (by rewrite <- !app_assoc). rewrite drop_app_length' by (rewrite !length_app; lia). by rewrite take_ge by lia.
Qed.

Lemma decode_header_encoded magic c p : magic_ok magic -> command_ok c -> Z.of_nat (length p) <= MAX_MESSAGE_SIZE ->
  decode_header (encode_header magic c p) magic = Ok (mkMessageHeader magic c (Z.of_nat (length p)) (checksum p)).
Proof.
  intros [Hm _] Hc Hl. unfold MAX_MESSAGE_SIZE in Hl.
  destruct (header_slices (magic_bytes magic) (to_wire c) (le_bytes 4 (wrap_u 32 (Z.of_nat (length p)))) (checksum p)) as (E1 & E2 & E3 & E4);
    [done|apply length_to_wire|apply length_le_bytes|apply length_checksum|].
  unfold decode_header, encode_header. rewrite E1, E2, E3, E4. destruct magic as [g]. cbn [magic_bytes].
  rewrite bool_decide_true, from_wire_to_wire by done. simpl rbind. cbn [negb].
  rewrite wrap_u_small, le_bytes_small by lia. destruct (Z.ltb_spec MAX_MESSAGE_SIZE (Z.of_nat (length p))); [unfold MAX_MESSAGE_SIZE in *; lia|done].
Qed.

Definition sendable (m : Message) : Prop := message_ok m /\ command_ok (command m) /\ Z.of_nat (length (Message_encode m)) <= MAX_MESSAGE_SIZE.

Lemma length_frame magic m : magic_ok magic -> length (frame magic m) = (24 + length (Message_encode m))%nat.
Proof. intros Hm. unfold frame. rewrite length_app, length_encode_header by done. done. Qed.

(** A complete frame at the front of the buffer is delivered. *)
Lemma frame_step_frame magic m rest : magic_ok magic -> sendable m ->
  frame_step magic (frame magic m ++ rest) = Some (Some m, length (frame magic m)).
Proof.
  intros Hm (Hok & Hc & Hl). pose proof (length_frame magic m Hm) as Hlen. unfold frame_step.
  destruct (Nat.ltb_spec (length (frame magic m ++ rest)) 24) as [Hs|_]; [rewrite length_app in Hs; lia|].
  unfold frame at 1. cbv zeta. rewrite <- app_assoc, take_app_eq by (by rewrite length_encode_header).
  rewrite decode_header_encoded by done. cbn [mh_length mh_command]. rewrite Nat2Z.id.
  destruct (Nat.leb_spec (24 + length (Message_encode m)) (length (frame magic m ++ rest))) as [_|Hs]; [|rewrite length_app in Hs; lia].
  assert (slice (frame magic m ++ rest) 24 (24 + length (Message_encode m)) = Message_encode m) as ->.
  { unfold frame, slice. cbv zeta. rewrite <- app_assoc, drop_app_length' by (by rewrite length_encode_header). apply take_app_eq. lia. }
  unfold verify_checksum. cbn [mh_checksum]. rewrite bool_decide_true by done. cbn [negb].
  rewrite message_decodes by done. cbn. by rewrite Hlen.
Qed.

(** *** The loop *)

Lemma frame_step_pos magic buf m n : frame_step magic buf = Some (m, n) -> (0 < n <= length buf)%nat.
Proof.
  unfold frame_step. destruct (Nat.ltb_spec (length buf) 24); [done|]. destruct (decode_header _ _) as [h|[]]; try done; [|intros [= <- <-]; lia].
  destruct (Nat.leb_spec (24 + Z.to_nat (mh_length h)) (length buf)); [|done]. intros [= _ <-]. lia.
Qed.

(** With a unit of fuel per byte the loop leaves by its own condition. *)
Lemma drain_loop_fuel fuel fuel' magic buf : (length buf <= fuel)%nat -> (length buf <= fuel')%nat ->
  drain_loop fuel magic buf = drain_loop fuel' magic buf.
Proof.
  revert fuel' buf. induction fuel as [|fuel IH]; intros fuel' buf H1 H2.
  - destruct fuel'; [done|]. cbn [drain_loop]. destruct (frame_step magic buf) as [[m n]|] eqn:E; [|done]. apply frame_step_pos in E. lia.
  - destruct fuel' as [|fuel'].
    + cbn [drain_loop]. destruct (frame_step magic buf) as [[m n]|] eqn:E; [|done]. apply frame_step_pos in E. lia.
    + cbn [drain_loop]. destruct (frame_step magic buf) as [[m n]|] eqn:E; [|done]. apply frame_step_pos in E.
      rewrite (IH fuel') by (rewrite length_drop; lia). done.
Qed.

(** The loop unfolded once. *)
Lemma drain_step magic buf : drain magic buf =
  match frame_step magic buf with
  | None => ([], buf)
  | Some (m, n) => let '(ms, rest) := drain magic (drop n buf) in (match m with Some m => m :: ms | None => ms end, rest)
  end.
Proof.
  unfold drain. destruct (length buf) as [|k] eqn:El.
  - destruct (frame_step magic buf) as [[m n]|] eqn:E; [|done]. apply frame_step_pos in E. lia.
  - cbn [drain_loop]. destruct (frame_step magic buf) as [[m n]|] eqn:E; [|done]. apply frame_step_pos in E.
    by rewrite (drain_loop_fuel k (length (drop n buf))) by (rewrite ?length_drop; lia).
Qed.

(** More bytes do not change a round that could be taken. *)
Lemma frame_step_app magic buf more r : frame_step magic buf = Some r -> frame_step magic (buf ++ more) = Some r.
Proof.
  unfold frame_step. destruct (Nat.ltb_spec (length buf) 24) as [|Hb]; [done|].
  destruct (Nat.ltb_spec (length (buf ++ more)) 24) as [Hs|_]; [rewrite length_app in Hs; lia|]. rewrite take_app_le by lia.
  destruct (decode_header _ _) as [h|[]]; try done. set (n := (24 + Z.to_nat (mh_length h))%nat).
  destruct (Nat.leb_spec n (length buf)) as [Hn|]; [|done]. destruct (Nat.leb_spec n (length (buf ++ more))) as [_|Hs]; [|rewrite length_app in Hs; lia].
  assert (slice (buf ++ more) 24 n = slice buf 24 n) as ->; [|done].
  unfold slice. rewrite drop_app_le, take_app_le by (rewrite ?length_drop; lia). done.
Qed.

(** Draining a buffer, then what is left with more bytes, is draining it all. *)
Lemma drain_app magic buf more : forall ms rest, drain magic buf = (ms, rest) ->
  drain magic (buf ++ more) = let '(ms', rest') := drain magic (rest ++ more) in (ms ++ ms', rest').
Proof.
  remember (length buf) as n eqn:En. revert buf En. induction (lt_wf n) as [n _ IH]. intros buf -> ms rest H.
  rewrite drain_step in H. destruct (frame_step magic buf) as [[m k]|] eqn:E.
  - rewrite drain_step, (frame_step_app magic buf more _ E). apply frame_step_pos in E as Hk.
    destruct (drain magic (drop k buf)) as [ms1 rest1] eqn:E1. rewrite drop_app_le by lia.
    rewrite (IH (length (drop k buf)) ltac:(rewrite length_drop; lia) (drop k buf) eq_refl ms1 rest1 E1).
    injection H as <- <-. destruct (drain magic (rest1 ++ more)) as [ms2 rest2]. by destruct m.
  - injection H as <- <-. by destruct (drain magic (buf ++ more)).
Qed.
(** The frame loop of a connection terminates on every buffer: a unit of fuel per
    byte is enough (more changes nothing), the loop leaves where its own condition
    tells it to wait for more bytes, and what is left is a suffix of the buffer. *)
Lemma drain_terminates magic buf fuel :
  drain_loop (length buf + fuel) magic buf = drain magic buf /\
  frame_step magic (drain magic buf).2 = None /\
  (drain magic buf).2 `suffix_of` buf.
Proof.
  split; [apply drain_loop_fuel; lia|].
  remember (length buf) as n eqn:En. revert buf En. induction (lt_wf n) as [n _ IH]. intros buf ->.
  rewrite drain_step. destruct (frame_step magic buf) as [[m k]|] eqn:E; [|done]. apply frame_step_pos in E as Hk.
  destruct (IH (length (drop k buf)) ltac:(rewrite length_drop; lia) (drop k buf) eq_refl) as [H1 H2].
  destruct (drain magic (drop k buf)) as [ms rest]. split; [done|]. cbn [snd] in *. etrans; [exact H2|].
  exists (take k buf). by rewrite take_drop.
Qed.

Lemma drain_nil magic : drain magic [] = ([], []).
Proof. done. Qed.

Lemma read_loop_snoc magic chunks chunk : read_loop magic (chunks ++ [chunk]) =
  let '(ms, rest) := read_loop magic chunks in let '(ms', rest') := drain magic (rest ++ chunk) in (ms ++ ms', rest').
Proof. unfold read_loop. rewrite fold_left_app. cbn [fold_left]. by destruct (fold_left _ chunks _) as [ms rest]. Qed.

Lemma read_loop_drain magic chunks : read_loop magic chunks = drain magic (concat chunks).
Proof.
  induction chunks as [|chunk chunks IH] using rev_ind; [done|]. rewrite read_loop_snoc, IH, concat_app. cbn [concat]. rewrite app_nil_r.
  destruct (drain magic (concat chunks)) as [ms rest] eqn:E. symmetry. by apply drain_app.
Qed.

Lemma drain_frames magic ms rest : magic_ok magic -> Forall sendable ms ->
  drain magic (concat (map (frame magic) ms) ++ rest) = let '(ms', rest') := drain magic rest in (ms ++ ms', rest').
Proof.
  intros Hm. induction 1 as [|m ms Hs _ IH].
  { change (drain magic rest = let '(ms', rest') := drain magic rest in (ms', rest')). by destruct (drain magic rest). }
  cbn [map concat]. rewrite <- app_assoc, drain_step, frame_step_frame by done. rewrite drop_app_length. rewrite IH.
  by destruct (drain magic rest).
Qed.

(** How the stream is cut into chunks does not matter, whatever the peer sends:
    the read loop delivers the same messages and keeps the same bytes as one pass
    over everything received. *)
Lemma read_loop_chunking (magic : Magic) (chunks : list bytes) :
  read_loop magic chunks = drain magic (concat chunks).
Proof. apply read_loop_drain. Qed.

(** What one node's write loop sends, another's read loop delivers: the frames
    of any messages within the limits, cut into any chunks, come out as exactly those
    messages in order, with nothing left in the buffer. *)
Lemma stream_roundtrip (magic : Magic) (ms : list Message) (chunks : list bytes) :
  magic_ok magic -> Forall sendable ms -> concat chunks = concat (map (frame magic) ms) ->
  read_loop magic chunks = (ms, []).
Proof.
  intros Hm Hs Hc. rewrite read_loop_drain, Hc. pose proof (drain_frames magic ms [] Hm Hs) as H. rewrite app_nil_r, drain_nil in H.
  by rewrite H, app_nil_r.
Qed.

(** A header with the right magic but a command or a length the codec refuses
    stops a connection for good: the loop leaves it at the front of the buffer, so
    that every message sent after it is kept in memory and none is delivered. *)
Lemma malformed_header_stalls (magic : Magic) (ms : list Message) (bad : bytes) (e : P2pError) (chunks : list bytes) (later : bytes) :
  magic_ok magic -> Forall sendable ms -> length bad = 24%nat -> decode_header bad magic = Err e -> slice bad 0 4 = magic_bytes magic ->
  concat chunks = concat (map (frame magic) ms) ++ bad ++ later ->
  read_loop magic chunks = (ms, bad ++ later).
Proof.
  intros Hm Hs Hl He Hg Hc. rewrite read_loop_drain, Hc, drain_frames, drain_step by done.
  assert (frame_step magic (bad ++ later) = None) as ->; [|by rewrite app_nil_r].
  unfold frame_step. destruct (Nat.ltb_spec (length (bad ++ later)) 24); [done|]. rewrite take_app_eq by done. rewrite He.
  destruct e; try done. unfold decode_header in He. rewrite Hg, bool_decide_true in He by (by destruct magic). cbn [negb] in He.
  destruct (from_wire _) as [c|e'] eqn:Ef; simpl in He.
  - by destruct (_ <? _).
  - injection He as ->. unfold from_wire in Ef. by repeat case_match.
Qed.
End Frames.

(** ** Allocation *)

(** Every list message but [getheaders] reserves at most fifty thousand entries,
    whatever a peer claims; a [getheaders] payload of at most thirteen bytes makes the
    node reserve any number of 32-byte entries a 64-bit count can name. *)
Lemma reserved_entries (n : Z) : u64_ok n ->
  (forall c payload k, c <> CmdGetHeaders -> reserved c payload = Some k -> k <= 50000) /\
  reserved CmdGetHeaders (le_bytes 4 70015 ++ serialize encode_VarInt n) = Some n.
Proof.
  intros Hn. split.
  - assert (forall f limit d k d', read_count f limit d = Ok (k, d') -> k <= limit) as Hc.
    { intros f limit d k d'. unfold read_count. destruct (read_varint f d) as [[v d1]|]; simpl; [|done].
      destruct (Z.ltb_spec limit v); [done|]. by intros [= <- <-]. }
    intros c payload k Hne. unfold reserved. destruct c; try done; try (destruct (length payload =? 0)%nat; [done|]).
    all: match goal with |- context [read_count ?f ?l ?d] => destruct (read_count f l d) as [[v d']|] eqn:E end; [|done].
    all: apply Hc in E; intros [= <-]; unfold MAX_HEADERS_PER_MSG, MAX_GETDATA_ENTRIES, MAX_INV_ENTRIES, MAX_ADDR_ENTRIES in E; lia.
  - rewrite serialize_VarInt by done. unfold reserved, Decoder_new.
    pose proof (wire_decodes (WireCodec := u32_codec) 70015 ltac:(done) [] (varint_bytes n)) as H1. cbn [app length Nat.add] in H1.
    change (serialize encode_u32 70015) with (le_bytes 4 70015) in H1. rewrite H1. simpl rbind.
    pose proof (read_varint_decodes "locator_count" n Hn (le_bytes 4 70015) []) as H2. rewrite app_nil_r in H2. by rewrite H2.
Qed.

(** ** A concrete stream *)

Definition demo_messages : list Message :=
  [MVerack mkVerack; MPing (mkPing 5); MInv (mkInv [mkInvVector InvWitnessBlock (replicate 32 3)]); MUnknown (string_bytes "alert");
   MHeaders (mkHeaders [mkBlockHeader 1 (replicate 32 7) (replicate 32 8) 9 0x1d00ffff 11])].
Definition demo_stream : bytes := concat (map (@frame toy_digests REGTEST) demo_messages).
(** Cut inside a header and inside a payload. *)
Definition demo_chunks : list bytes := [slice demo_stream 0 10; []; slice demo_stream 10 90; drop 90 demo_stream].

Lemma demo_magic_ok : magic_ok REGTEST.
Proof. split; [done|]. repeat constructor; done. Qed.
Lemma demo_sendable : Forall sendable demo_messages.
Proof.
  unfold demo_messages. repeat (apply Forall_cons; split); [..|constructor]; (split; [|split; [|vm_compute; discriminate]]); try done.
  - split; [|vm_compute; discriminate]. constructor; [|constructor]. split; [done|]. apply Forall_replicate. done.
  - split; [|reflexivity]. split; [vm_compute; lia|]. repeat constructor.
  - split; [|vm_compute; discriminate]. constructor; [|constructor]. unfold header_ok, hash_ok, array_ok, i32_ok, u32_ok. apply (bool_decide_unpack _). vm_compute. exact I.
Qed.

Lemma stream_roundtrip_witness : @read_loop toy_digests REGTEST demo_chunks = (demo_messages, []).
Proof.
  apply (@stream_roundtrip toy_digests toy_digests_ok REGTEST demo_messages demo_chunks).
  - exact demo_magic_ok.
  - exact demo_sendable.
  - vm_compute. reflexivity.
Defined.

(** A header whose command is empty. *)
Definition demo_bad : bytes := magic_bytes REGTEST ++ replicate 20 0.
Lemma malformed_header_stalls_witness :
  @read_loop toy_digests REGTEST [demo_stream; demo_bad; demo_stream] = (demo_messages, demo_bad ++ demo_stream).
Proof.
  apply (@malformed_header_stalls toy_digests toy_digests_ok REGTEST demo_messages demo_bad (MalformedCommand (replicate 12 0) "empty command")
    [demo_stream; demo_bad; demo_stream] demo_stream).
  - exact demo_magic_ok.
  - exact demo_sendable.
  - reflexivity.
  - vm_compute. reflexivity.
  - reflexivity.
  - vm_compute. reflexivity.
Defined.

Lemma command_wire_exact_witness : from_wire (string_bytes "ping" ++ replicate 8 0) = Ok CmdPing.
Proof.
  apply (command_wire_exact (string_bytes "ping" ++ replicate 8 0) CmdPing); [reflexivity|]. split; [exact I|reflexivity].
Defined.

Lemma reserved_entries_witness :
  reserved CmdGetHeaders (le_bytes 4 70015 ++ serialize encode_VarInt (2 ^ 59)) = Some (2 ^ 59).
Proof. apply (reserved_entries (2 ^ 59)). split; [lia|reflexivity]. Defined.
