(* ===== verification/P2PTypes.v ===== *)
(** * What a peer can make the node receive

    Every decoder of the protocol yields values of the types the rest of the node
    computes with: integers in their ranges, hashes of 32 bytes, lists within their
    limits. The read loop delivers nothing else, whatever bytes arrive. *)

From S2P Require Import Prelude Wire Hash Transaction Block Codecs Params BlockFile P2P P2PProofs.

(** ** Typed decoders *)

(** [dec] stays inside the payload and what it reads satisfies [P]. *)
Definition typed {T} (dec : decoder_of T) (P : T -> Prop) : Prop :=
  forall d x d', dec_ok d -> dec d = Ok (x, d') -> P x /\ exists bs, consumed d bs d'.

Lemma typed_of_canonical {T} (enc : encoder_of T) dec wf `{!WireCanonical enc dec wf} : typed dec wf.
Proof. intros d x d' Hd H. apply (wire_accepts (WireCanonical := WireCanonical0)) in H as [? ?]; eauto. Qed.
Lemma typed_impl {T} (dec : decoder_of T) (P Q : T -> Prop) : (forall x, P x -> Q x) -> typed dec P -> typed dec Q.
Proof. intros HPQ H d x d' Hd Hx. destruct (H d x d' Hd Hx) as [? ?]. auto. Qed.
Lemma typed_ret {T} (x : T) (P : T -> Prop) : P x -> typed (fun d => Ok (x, d)) P.
Proof. intros Hx d y d' Hd [= <- <-]. eauto with wire. Qed.
Lemma typed_bind {A B} (d1 : decoder_of A) (k : A -> decoder_of B) P Q :
  typed d1 P -> (forall a, P a -> typed (k a) Q) -> typed (fun d => let? '(a, d) := d1 d in k a d) Q.
Proof.
  intros H1 H2 d y d' Hd H. destruct (d1 d) as [[a d2]|] eqn:Ea; simpl in H; [|done].
  destruct (H1 d a d2 Hd Ea) as [Ha [b1 C1]]. destruct (H2 a Ha d2 y d' (consumed_ok _ _ _ C1) H) as [Hy [b2 C2]].
  split; [done|]. exists (b1 ++ b2). by eapply consumed_trans.
Qed.
Lemma typed_map {A B} (d1 : decoder_of A) (f : A -> B) P Q :
  typed d1 P -> (forall a, P a -> Q (f a)) -> typed (fun d => let? '(a, d) := d1 d in Ok (f a, d)) Q.
Proof. intros H1 H2. apply (typed_bind d1 (fun a d => Ok (f a, d)) P); [done|]. intros a Ha. by apply typed_ret, H2. Qed.
Lemma typed_guard {T U} (chk : result U DecodeError) (dec : decoder_of T) P : typed dec P -> typed (fun d => let? _ := chk in dec d) P.
Proof. intros H d x d' Hd Hx. destruct chk; simpl in Hx; [|done]. by apply (H d). Qed.
Lemma typed_items {T} (dec : decoder_of T) P n : typed dec P -> typed (read_items dec n) (fun l => Forall P l /\ length l = n).
Proof.
  intros H. induction n as [|n IH]; [by apply typed_ret|]. cbn [read_items].
  apply (typed_bind dec (fun x d => let? '(l, d) := read_items dec n d in Ok (x :: l, d)) P); [done|]. intros x Hx.
  apply (typed_map _ _ _ _ IH). intros l [Hl <-]. split; [by constructor|done].
Qed.

Lemma typed_varint f : typed (read_varint f) u64_ok.
Proof. intros d x d' Hd H. apply read_varint_inv in H as [? ?]; eauto. Qed.
Lemma typed_array n f : typed (read_array n f) (array_ok n).
Proof. intros d x d' Hd H. apply read_bytes_inv in H as [? ?]; eauto. Qed.
Lemma typed_u16_be f : typed (read_u16_be f) u16_ok.
Proof.
  intros d x d' Hd H. apply read_int_inv in H as (bs & [Hl Hb] & -> & C); [|done]. split; [|eauto].
  unfold of_be. assert (bytes_ok (reverse bs)) as Hr by (by apply Forall_reverse). pose proof (of_le_bound _ Hr) as Hv.
  rewrite length_reverse, Hl in Hv. exact Hv.
Qed.
Lemma typed_bool f : typed (read_bool f) (fun _ => True).
Proof. intros d x d' Hd H. apply read_bool_inv in H as (b & _ & _ & C); eauto. Qed.
Lemma typed_optional {T} (dec : decoder_of T) P : typed dec P -> typed (decode_optional_field dec) (fun o => match o with Some x => P x | None => True end).
Proof.
  intros H d x d' Hd Hx. unfold decode_optional_field in Hx. destruct (is_done d); [injection Hx as <- <-; eauto with wire|].
  destruct (dec d) as [[y d2]|] eqn:Ey; simpl in Hx; [|done]. injection Hx as <- <-. by apply (H d).
Qed.

(** A length-prefixed string within the allocation limit, valid UTF-8. *)
Lemma typed_var_str f : typed (read_var_str f) (fun s => vec_ok s /\ utf8_valid s = true).
Proof.
  intros d x d' Hd H.
  assert (read_var_str f d = (let? '(len, d) := read_varint f d in let? _ := ensure_allocation_len f len in
    let? '(s, d) := read_bytes (Z.to_nat len) f d in if utf8_valid s then Ok (s, d) else Err (InvalidUtf8 f))) as E.
  { unfold read_var_str, read_varint, read_bytes. destruct (read_varint_raw _ f) as [[v c]|]; [|done]. simpl.
    destruct (ensure_allocation_len f v); [|done]. simpl. by destruct (require _ _ f). }
  rewrite E in H. clear E. destruct (read_varint f d) as [[len d1]|] eqn:E1; simpl in H; [|done].
  apply read_varint_inv in E1 as [Hv C1]; [|done]. destruct (ensure_allocation_len f len) as [[]|] eqn:Ea; simpl in H; [|done].
  apply ensure_allocation_len_ok in Ea. destruct (read_bytes _ f d1) as [[s d2]|] eqn:E2; simpl in H; [|done].
  apply read_bytes_inv in E2 as [[Hl Hb] C2]; [|eauto with wire]. destruct (utf8_valid s) eqn:Eu; [|done]. injection H as <- <-.
  split; [split; [unfold vec_ok; int_unfold; lia|done]|]. eexists. by eapply consumed_trans.
Qed.

Lemma typed_count field limit : typed (read_count field limit) (fun n => u64_ok n /\ n <= limit).
Proof.
  intros d x d' Hd H. unfold read_count in H. destruct (read_varint field d) as [[v d1]|] eqn:E1; simpl in H; [|done].
  apply read_varint_inv in E1 as [Hv C1]; [|done]. destruct (Z.ltb_spec limit v); [done|]. injection H as <- <-. eauto.
Qed.
Lemma typed_limited {T} (dec : decoder_of T) P field limit : typed dec P ->
  typed (read_limited dec field limit) (fun l => Forall P l /\ Z.of_nat (length l) <= limit).
Proof.
  intros H. apply (typed_bind (read_count field limit) (fun n => read_items dec (Z.to_nat n)) _ _ (typed_count field limit)).
  intros n [Hn Hl]. eapply typed_impl; [|apply typed_items, H]. cbv beta. intros l [? ?]. split; [done|]. int_unfold. lia.
Qed.

(** A whole payload. *)
Lemma decoder_new_ok p : bytes_ok p -> dec_ok (Decoder_new p).
Proof. intros H. split; [simpl; lia|done]. Qed.
Lemma typed_exact {T} (dec : decoder_of T) P p ctx x : typed dec P -> bytes_ok p -> decode_exact dec p ctx = Ok x -> P x.
Proof.
  intros Ht Hp H. unfold decode_exact in H. destruct (dec _) as [[y d]|] eqn:E; simpl in H; [|done].
  destruct (finish d ctx); simpl in H; [|done]. injection H as ->. by destruct (Ht _ _ _ (decoder_new_ok p Hp) E).
Qed.

(** ** The messages *)

Create HintDb typing.
Lemma typed_u8 : typed decode_u8 u8_ok.
Proof. exact (typed_of_canonical _ _ _). Qed.
Lemma typed_u32 : typed decode_u32 u32_ok.
Proof. exact (typed_of_canonical _ _ _). Qed.
Lemma typed_u64 : typed decode_u64 u64_ok.
Proof. exact (typed_of_canonical _ _ _). Qed.
Lemma typed_i32 : typed decode_i32 i32_ok.
Proof. exact (typed_of_canonical _ _ _). Qed.
Lemma typed_i64 : typed decode_i64 i64_ok.
Proof. exact (typed_of_canonical _ _ _). Qed.
Lemma typed_BlockHeader : typed decode_BlockHeader header_ok.
Proof. exact (typed_of_canonical _ _ _). Qed.
#[export] Hint Resolve typed_varint typed_array typed_u16_be typed_bool typed_var_str typed_u8 typed_u32 typed_u64 typed_i32 typed_i64 typed_BlockHeader : typing.
(** One field of a record decoder after the other. *)
Ltac typed_fields := repeat (eapply typed_bind; [solve [eauto with typing]|]; cbv beta; intros ? ?).

(** A decoded block; unlike one that can be encoded, its transactions may have no inputs. *)
Definition block_typed (b : Block) : Prop := header_ok (header b) /\ Forall tx_ok (transactions b).
Definition message_typed (m : Message) : Prop :=
  match m with
  | MGetHeaders g => u32_ok (gh_version g) /\ Forall hash_ok (locator g) /\ hash_ok (stop_hash g)
  | MBlock b => block_typed b
  | MUnknown s => name_ok s
  | m => message_ok m
  end.

Lemma typed_InvVector : typed decode_InvVector inv_ok.
Proof. unfold decode_InvVector. typed_fields. by apply typed_ret. Qed.
Lemma typed_NetAddr : typed decode_NetAddr netaddr_ok.
Proof. unfold decode_NetAddr. typed_fields. by apply typed_ret. Qed.
Lemma typed_header_entry : typed decode_header_entry header_ok.
Proof.
  unfold decode_header_entry. eapply typed_bind; [apply typed_array|]. intros raw Hraw. eapply typed_bind; [eauto with typing|].
  intros n Hn d x d' Hd. cbv beta. destruct (negb (n =? 0)); [done|]. intros [= <- <-]. split; [by apply header_deserialize_ok|eauto with wire].
Qed.
Lemma typed_Version : typed decode_Version version_ok.
Proof.
  unfold decode_Version. typed_fields. eapply typed_bind; [apply typed_optional, (typed_bool "bool")|]. cbv beta. intros r _.
  apply typed_ret. unfold version_ok. cbn. naive_solver.
Qed.
Lemma typed_Transaction : typed decode_Transaction tx_ok.
Proof. intros d tx d' Hd H. apply decode_Transaction_inv in H as [Hok [C|[C _]]]; eauto. Qed.
Lemma typed_var_list {T} (dec : decoder_of T) P label : typed dec P -> typed (read_var_list dec label) (Forall P).
Proof.
  intros H. eapply typed_bind; [apply typed_varint|]. intros n _ d x d' Hd. cbv beta.
  destruct (ensure_allocation_len label n); simpl; [|done]. destruct (_ <? n); [done|]. intros Hx.
  by destruct (typed_items dec P _ H _ _ _ Hd Hx) as [[? _] ?].
Qed.
Lemma typed_Block : typed decode_Block block_typed.
Proof.
  unfold decode_Block. eapply typed_bind; [eauto with typing|]. intros h Hh.
  eapply typed_map; [apply typed_var_list, typed_Transaction|]. by intros txs Htxs.
Qed.
Lemma typed_inv_list field limit : typed (read_limited decode_InvVector field limit) (fun l => Forall inv_ok l /\ Z.of_nat (length l) <= limit).
Proof. apply typed_limited, typed_InvVector. Qed.

(** A decoder applied to a whole payload, followed by its own check of the end. *)
Lemma typed_finish {T U} (dec : decoder_of T) (P : T -> Prop) (f : T -> U) p ctx x : typed dec P -> bytes_ok p ->
  (let? '(v, d) := dec (Decoder_new p) in let? _ := finish d ctx in Ok (f v)) = Ok x -> exists v, P v /\ x = f v.
Proof.
  intros Ht Hp H. destruct (dec _) as [[v d]|] eqn:E; simpl in H; [|done]. destruct (finish d ctx); simpl in H; [|done].
  injection H as <-. exists v. split; [|done]. by destruct (Ht _ _ _ (decoder_new_ok p Hp) E).
Qed.

Lemma typed_GetHeaders p g : bytes_ok p -> GetHeaders_decode p = Ok g -> message_typed (MGetHeaders g).
Proof.
  intros Hp H. set (dec := fun d => let? '(version, d) := decode_u32 d in let? '(count, d) := read_varint "locator_count" d in
    let? '(locator, d) := read_items (read_array 32 "locator_hash") (Z.to_nat count) d in
    let? '(stop, d) := read_array 32 "stop_hash" d in Ok (mkGetHeaders version locator stop, d)).
  assert (typed dec (fun g => message_typed (MGetHeaders g))) as Ht.
  { unfold dec. typed_fields. eapply typed_bind; [apply typed_items, typed_array|]. cbv beta. intros l [Hl _]. typed_fields. by apply typed_ret. }
  destruct (typed_finish dec _ id p "getheaders" g Ht Hp) as (v & Hv & ->); [|done].
  revert H. unfold GetHeaders_decode, dec. destruct (decode_u32 _) as [[v d1]|]; simpl; [|done].
  destruct (read_varint _ d1) as [[c d2]|]; simpl; [|done]. destruct (read_items _ _ d2) as [[l d3]|]; simpl; [|done].
  by destruct (read_array _ _ d3) as [[s d4]|].
Qed.

(** Whatever payload follows a command, a message that decodes is well typed. *)
Lemma decoded_message_typed c p m : command_ok c -> bytes_ok p -> Message_decode c p = Ok m -> message_typed m.
Proof.
  intros Hc Hp H. destruct c; cbn [Message_decode] in H; try (by injection H as <-);
    repeat match type of H with
    | (let? _ := ?e in Ok _) = Ok _ => let m' := fresh "v" in let E1 := fresh "Hv" in
        destruct e as [m'|] eqn:E1; simpl in H; [|done]; injection H as <-
    end.
  - by apply (typed_exact _ _ _ _ _ typed_Version Hp) in Hv.
  - done.
  - apply (typed_exact _ (fun p => u64_ok (ping_nonce p)) _ _ _ (typed_map _ mkPing _ _ typed_u64 (fun _ H => H)) Hp) in Hv. done.
  - apply (typed_exact _ (fun p => u64_ok (pong_nonce p)) _ _ _ (typed_map _ mkPong _ _ typed_u64 (fun _ H => H)) Hp) in Hv. done.
  - by apply typed_GetHeaders in Hv.
  - unfold Headers_decode in Hv. destruct (length p =? 0)%nat; [injection Hv as <-; split; [constructor|done]|].
    by destruct (typed_finish _ _ mkHeaders p _ _ (typed_limited _ _ _ _ typed_header_entry) Hp Hv) as (l & Hl & ->).
  - apply (typed_exact _ (fun g => message_typed (MGetData g)) _ _ _ (typed_map _ mkGetData _ _ (typed_inv_list _ _) (fun _ H => H)) Hp) in Hv. done.
  - apply (typed_exact _ (fun g => message_typed (MInv g)) _ _ _ (typed_map _ mkInv _ _ (typed_inv_list _ _) (fun _ H => H)) Hp) in Hv. done.
  - by apply (typed_exact _ _ _ _ _ typed_Block Hp) in Hv.
  - by destruct (typed_finish _ _ mkAddr p _ _ (typed_limited _ _ _ _ typed_NetAddr) Hp Hv) as (l & Hl & ->).
  - done.
  - apply (typed_exact _ (fun g => message_typed (MInv g)) _ _ _ (typed_map _ mkInv _ _ (typed_inv_list _ _) (fun _ H => H)) Hp) in Hv. done.
  - injection H as <-. apply Hc.
Qed.

(** ** The read loop *)

Section Delivered.
Context {D : Digests}.

Lemma decode_header_command buf magic h : (24 <= length buf)%nat -> decode_header buf magic = Ok h -> command_ok (mh_command h).
Proof.
  intros Hl H. unfold decode_header in H. destruct (negb _); [done|]. destruct (from_wire (slice buf 4 16)) as [c|] eqn:Ec; simpl in H; [|done].
  destruct (_ <? _); [done|]. injection H as <-. cbn. apply command_wire_accepted in Ec as [? _]; [done|]. rewrite length_slice; lia.
Qed.

Lemma frame_step_typed magic buf m n : bytes_ok buf -> frame_step magic buf = Some (Some m, n) -> message_typed m.
Proof.
  intros Hb H. unfold frame_step in H. destruct (Nat.ltb_spec (length buf) 24) as [|Hl]; [done|].
  destruct (decode_header (take 24 buf) magic) as [h|[]] eqn:Eh; try done. apply decode_header_command in Eh; [|rewrite length_take; lia].
  destruct (_ <=? _)%nat; [|done]. injection H as H _. destruct (verify_checksum _ _); [|done].
  destruct (Message_decode _ _) as [m'|] eqn:Em; simpl in H; [|done]. injection H as ->.
  apply (decoded_message_typed _ _ _ Eh) in Em; [done|]. by apply slice_ok.
Qed.

Lemma drain_typed magic buf : bytes_ok buf -> Forall message_typed (drain magic buf).1.
Proof.
  remember (length buf) as n eqn:En. revert buf En. induction (lt_wf n) as [n _ IH]. intros buf -> Hb.
  rewrite drain_step. destruct (frame_step magic buf) as [[m k]|] eqn:E; [|constructor]. apply frame_step_pos in E as Hk.
  pose proof (IH (length (drop k buf)) ltac:(rewrite length_drop; lia) (drop k buf) eq_refl (bytes_ok_drop _ _ Hb)) as H.
  destruct (drain magic (drop k buf)) as [ms rest]. destruct m as [m|]; [|done]. constructor; [|done]. by eapply frame_step_typed.
Qed.

(** C29: whatever bytes a peer sends, in whatever chunks, every message the read
    loop delivers is well typed: integers in the ranges of their widths, hashes and
    addresses of their lengths, headers and transactions well formed, inventories,
    headers and addresses within their limits, unknown commands printable. *)
Theorem delivered_messages_typed (magic : Magic) (chunks : list bytes) :
  Forall bytes_ok chunks -> Forall message_typed (read_loop magic chunks).1.
Proof. intros H. rewrite read_loop_drain. by apply drain_typed, Forall_concat. Qed.
End Delivered.

(** The bytes of a stream with a malformed header in it, and what is delivered. *)
Lemma delivered_messages_typed_witness : Forall message_typed demo_messages.
Proof.
  change demo_messages with (@read_loop toy_digests REGTEST [demo_stream; demo_bad; demo_stream]).1.
  apply (@delivered_messages_typed toy_digests REGTEST [demo_stream; demo_bad; demo_stream]).
  apply (bool_decide_unpack _). vm_compute. exact I.
Defined.
