(* ===== verification/AddrMan.v ===== *)
(** * Socket addresses and the address manager

    net/p2p/addr_man.rs: the table of known addresses with its new and tried
    buckets, and the conversions of net/p2p/messages/addr.rs between the addresses
    of the protocol and those of the operating system.

    [Instant]s and [Duration]s are nanoseconds.  What the code takes from outside is
    a parameter: the hash of [DefaultHasher] (its algorithm is unspecified), the order
    in which a [HashMap] is visited, the text of a socket address and the encoding of
    the snapshot (bincode), the clock and the random choices. *)

From S2P Require Import Prelude Wire Hash P2P.

(** ** Addresses *)

Inductive IpAddr : Type := V4 (octets : bytes) | V6 (octets : bytes).
Record SocketAddr : Type := mkSocketAddr { ip : IpAddr; port : Z }.

#[export] Instance IpAddr_eq_dec : EqDecision IpAddr.
Proof. solve_decision. Defined.
#[export] Instance SocketAddr_eq_dec : EqDecision SocketAddr.
Proof. solve_decision. Defined.
#[export] Instance IpAddr_countable : Countable IpAddr.
Proof.
  apply (inj_countable' (fun i => match i with V4 o => inl o | V6 o => inr o end) (fun s => match s with inl o => V4 o | inr o => V6 o end)).
  by intros [].
Defined.
#[export] Instance SocketAddr_countable : Countable SocketAddr.
Proof. apply (inj_countable' (fun a => (ip a, port a)) (fun p => mkSocketAddr p.1 p.2)). by intros []. Defined.

Definition is_ipv4 (a : SocketAddr) : bool := match ip a with V4 _ => true | V6 _ => false end.

(** [Ipv4Addr::to_ipv6_mapped] and [Ipv6Addr::to_ipv4_mapped]. *)
Definition mapped_prefix : bytes := replicate 10 0 ++ [0xFF; 0xFF].
Definition to_ipv6_mapped (octets : bytes) : bytes := mapped_prefix ++ octets.
Definition to_ipv4_mapped (octets : bytes) : option bytes :=
  if bool_decide (take 12 octets = mapped_prefix) then Some (drop 12 octets) else None.

(** [NetAddr::to_socket_addr], [NetAddr::from_socket_addr] *)
Definition to_socket_addr (a : NetAddr) : SocketAddr := mkSocketAddr (V6 (na_ip a)) (na_port a).
Definition ip_octets (i : IpAddr) : bytes := match i with V4 o => to_ipv6_mapped o | V6 o => o end.
Definition from_socket_addr (a : SocketAddr) : NetAddr := mkNetAddr 0 0 (ip_octets (ip a)) (port a).

Definition ip_ok (i : IpAddr) : Prop := match i with V4 o => array_ok 4 o | V6 o => array_ok 16 o end.
Definition addr_ok (a : SocketAddr) : Prop := ip_ok (ip a) /\ u16_ok (port a).

#[export] Instance ip_ok_dec i : Decision (ip_ok i).
Proof. destruct i; unfold ip_ok, array_ok, bytes_ok, u8_ok; apply _. Defined.
#[export] Instance addr_ok_dec a : Decision (addr_ok a).
Proof. unfold addr_ok, u16_ok. apply _. Defined.

(** ** Parameters *)

Definition NANOS : Z := 1000000000.
Definition from_secs (n : Z) : Z := n * NANOS.
(** [Instant::elapsed], which saturates at zero. *)
Definition elapsed (now t : Z) : Z := Z.max 0 (now - t).
Definition as_secs (d : Z) : Z := d / NANOS.

(** [finish] of a [DefaultHasher] that was fed these values. *)
Class DefaultHasher : Type := hasher_finish : list bytes -> Z.

(** The order in which the entries of a [HashMap] are visited. *)
Class HashOrder : Type := {
  visit : forall {K} `{Countable K} {A}, gmap K A -> list (K * A);
  visit_perm : forall {K} `{Countable K} {A} (m : gmap K A), visit m ≡ₚ map_to_list m;
}.
Definition canonical_order : HashOrder := {| visit K _ _ A m := map_to_list m; visit_perm K _ _ A m := Permutation_refl _ |}.

(** ** Entries *)

Definition ADDRMAN_NEW_BUCKET_COUNT : nat := 1024.
Definition ADDRMAN_TRIED_BUCKET_COUNT : nat := 256.
Definition ADDRMAN_BUCKET_SIZE : nat := 64.
Definition MAX_SCORE : Z := 100.
Definition MIN_SCORE : Z := -10.
Definition BAN_DURATION : Z := from_secs 600.
Definition RETRY_INTERVAL : Z := from_secs 120.

Record AddrInfo : Type := mkAddrInfo {
  ai_addr : SocketAddr;
  ai_source : SocketAddr;
  score : Z;
  is_tried : bool;
  last_connected : option Z;
  last_attempt : option Z;
  banned_at : option Z;
  success_count : Z;
  failure_count : Z;
}.
Definition AddrInfo_new (addr source : SocketAddr) : AddrInfo := mkAddrInfo addr source 0 false None None None 0 0.
Definition set_tried (i : AddrInfo) (tried : bool) : AddrInfo :=
  mkAddrInfo (ai_addr i) (ai_source i) (score i) tried (last_connected i) (last_attempt i) (banned_at i) (success_count i) (failure_count i).

Definition info_banned (now : Z) (i : AddrInfo) : bool :=
  match banned_at i with None => false | Some t => elapsed now t <? BAN_DURATION end.
Definition is_too_recent (now : Z) (i : AddrInfo) : bool :=
  match last_attempt i with None => false | Some t => elapsed now t <? RETRY_INTERVAL end.
Definition is_connectable (now : Z) (i : AddrInfo) : bool := negb (info_banned now i) && negb (is_too_recent now i).
Definition to_net_addr (now : Z) (i : AddrInfo) : NetAddr :=
  mkNetAddr (match last_connected i with Some t => wrap_u 32 (as_secs (elapsed now t)) | None => 0 end) 1
    (ip_octets (ip (ai_addr i))) (port (ai_addr i)).

(** ** The table *)

Record AddrMan : Type := mkAddrMan {
  map_info : gmap SocketAddr AddrInfo;
  new_buckets : list (list SocketAddr);
  tried_buckets : list (list SocketAddr);
  am_key : bytes;
}.
Definition AddrMan_new (key : bytes) : AddrMan :=
  mkAddrMan ∅ (replicate ADDRMAN_NEW_BUCKET_COUNT []) (replicate ADDRMAN_TRIED_BUCKET_COUNT []) key.
Definition bucket_at (l : list (list SocketAddr)) (i : nat) : list SocketAddr := default [] (l !! i).

Definition get_group (i : IpAddr) : bytes :=
  match i with
  | V4 octets => [idx octets 0; idx octets 1]
  | V6 octets => [idx octets 0; idx octets 1; idx octets 2; idx octets 3]
  end.
(** What [IpAddr] feeds to a hasher. *)
Definition ip_hashed (i : IpAddr) : bytes := match i with V4 o => 0 :: o | V6 o => 1 :: o end.

Section Table.
Context {H : DefaultHasher}.

Definition get_new_bucket (m : AddrMan) (target source : SocketAddr) : nat :=
  Z.to_nat (hasher_finish [am_key m; get_group (ip target); get_group (ip source)] mod Z.of_nat ADDRMAN_NEW_BUCKET_COUNT).
Definition get_tried_bucket (m : AddrMan) (target : SocketAddr) : nat :=
  Z.to_nat (hasher_finish [am_key m; ip_hashed (ip target); get_group (ip target)] mod Z.of_nat ADDRMAN_TRIED_BUCKET_COUNT).

(** [self.new_buckets[bucket].remove(0)] of a full bucket, and its entry. *)
Definition evict_new (m : AddrMan) (bucket : nat) : AddrMan :=
  match bucket_at (new_buckets m) bucket with
  | victim :: rest =>
    if (ADDRMAN_BUCKET_SIZE <=? length (victim :: rest))%nat
    then mkAddrMan (delete victim (map_info m)) (<[bucket := rest]> (new_buckets m)) (tried_buckets m) (am_key m)
    else m
  | [] => m
  end.
Definition push_new (m : AddrMan) (bucket : nat) (addr : SocketAddr) : AddrMan :=
  mkAddrMan (map_info m) (<[bucket := bucket_at (new_buckets m) bucket ++ [addr]]> (new_buckets m)) (tried_buckets m) (am_key m).
Definition push_tried (m : AddrMan) (bucket : nat) (addr : SocketAddr) : AddrMan :=
  mkAddrMan (map_info m) (new_buckets m) (<[bucket := bucket_at (tried_buckets m) bucket ++ [addr]]> (tried_buckets m)) (am_key m).
Definition set_info (m : AddrMan) (addr : SocketAddr) (i : AddrInfo) : AddrMan :=
  mkAddrMan (<[addr := i]> (map_info m)) (new_buckets m) (tried_buckets m) (am_key m).

Definition add (m : AddrMan) (addr source : SocketAddr) : AddrMan :=
  match map_info m !! addr with
  | Some _ => m
  | None =>
    let bucket := get_new_bucket m addr source in
    push_new (set_info (evict_new m bucket) addr (AddrInfo_new addr source)) bucket addr
  end.
Definition add_many (m : AddrMan) (addrs : list SocketAddr) (source : SocketAddr) : AddrMan :=
  fold_left (fun m addr => add m addr source) addrs m.

(** The victim of a full tried bucket goes back to a new bucket. *)
Definition demote_tried (m : AddrMan) (bucket : nat) : AddrMan :=
  match bucket_at (tried_buckets m) bucket with
  | victim :: rest =>
    if (ADDRMAN_BUCKET_SIZE <=? length (victim :: rest))%nat then
      let m := mkAddrMan (map_info m) (new_buckets m) (<[bucket := rest]> (tried_buckets m)) (am_key m) in
      match map_info m !! victim with
      | Some v_info => push_new (set_info m victim (set_tried v_info false)) (get_new_bucket m victim (ai_source v_info)) victim
      | None => m
      end
    else m
  | [] => m
  end.
Definition drop_new (m : AddrMan) (bucket : nat) (addr : SocketAddr) : AddrMan :=
  mkAddrMan (map_info m) (<[bucket := filter (fun x => x <> addr) (bucket_at (new_buckets m) bucket)]> (new_buckets m)) (tried_buckets m) (am_key m).
Definition good (m : AddrMan) (addr : SocketAddr) : AddrMan :=
  match map_info m !! addr with
  | None => m
  | Some info =>
    if is_tried info then m else
    let m := set_info (drop_new m (get_new_bucket m addr (ai_source info)) addr) addr (set_tried info true) in
    let tried_bucket_id := get_tried_bucket m addr in
    push_tried (demote_tried m tried_bucket_id) tried_bucket_id addr
  end.

(** [connected] and [attempt] are the two readings of the clock. *)
Definition record_success (connected attempt : Z) (m : AddrMan) (addr : SocketAddr) : AddrMan :=
  good match map_info m !! addr with
       | Some e => set_info m addr (mkAddrInfo (ai_addr e) (ai_source e) (Z.min (score e + 1) MAX_SCORE) (is_tried e)
                                      (Some connected) (Some attempt) None (wrap_u 32 (success_count e + 1)) (failure_count e))
       | None => m
       end addr.
Definition record_failure (attempt banned : Z) (m : AddrMan) (addr : SocketAddr) : AddrMan :=
  match map_info m !! addr with
  | Some e =>
    let s := Z.max (score e - 1) (MIN_SCORE - 1) in
    set_info m addr (mkAddrInfo (ai_addr e) (ai_source e) s (is_tried e) (last_connected e) (Some attempt)
                       (if s <? MIN_SCORE then Some banned else banned_at e) (success_count e) (wrap_u 32 (failure_count e + 1)))
  | None => m
  end.
End Table.

(** ** Choosing an address *)

(** The key of [max_by_key], compared lexicographically. *)
Definition key_le (a b : AddrInfo) : bool :=
  match is_tried a, is_tried b with
  | false, true => true
  | true, false => false
  | _, _ => (score a <? score b) || ((score a =? score b) && (success_count a <=? success_count b))
  end.
(** [Iterator::max_by_key] keeps the last of the greatest. *)
Definition max_by_key (l : list AddrInfo) : option AddrInfo :=
  fold_left (fun best e => match best with Some b => if key_le b e then Some e else Some b | None => Some e end) l None.

Section Select.
Context {HO : HashOrder}.

(** [now a] is the clock when the entry of [a] is looked at. *)
Definition select_where (p : AddrInfo -> bool) (now : SocketAddr -> Z) (m : AddrMan) (active : list SocketAddr) : option SocketAddr :=
  ai_addr <$> max_by_key (filter (fun e => is_connectable (now (ai_addr e)) e && p e && negb (bool_decide (ai_addr e ∈ active)))
                            (visit (map_info m)).*2).
Definition select_best_ipv4 := select_where (fun e => is_ipv4 (ai_addr e)).
Definition select_best := select_where (fun _ => true).

Definition connectable_count (now : SocketAddr -> Z) (m : AddrMan) : nat :=
  length (filter (fun e => is_connectable (now (ai_addr e)) e) (visit (map_info m)).*2).

(** [shuffle] is the permutation of the indices the random generator chooses. *)
Definition get_random_sample (shuffle : list nat -> list nat) (now : SocketAddr -> Z) (m : AddrMan) (count : nat) : list NetAddr :=
  let all_connectable := filter (fun e => is_connectable (now (ai_addr e)) e) (visit (map_info m)).*2 in
  let sample_size := Nat.min count (length all_connectable) in
  omap (fun i => (fun e => to_net_addr (now (ai_addr e)) e) <$> all_connectable !! i)
    (take sample_size (shuffle (seq 0 (length all_connectable)))).
End Select.

(** ** Persistence *)

Record PersistedAddrInfo : Type := mkPersisted {
  p_addr : bytes; p_source : bytes; p_score : Z; p_tried : bool; p_success : Z; p_failure : Z;
}.
Record AddrManSnapshot : Type := mkSnapshot { snap_key : bytes; snap_entries : list PersistedAddrInfo }.

(** [SocketAddr::to_string] and [parse], [bincode::serialize] and [deserialize]. *)
Class Persistence : Type := {
  addr_to_string : SocketAddr -> bytes;
  addr_parse : bytes -> option SocketAddr;
  bincode_serialize : AddrManSnapshot -> bytes;
  bincode_deserialize : bytes -> option AddrManSnapshot;
}.
Class PersistenceOk (P : Persistence) : Prop := {
  parse_to_string a : addr_ok a -> addr_parse (addr_to_string a) = Some a;
  deserialize_serialize s : bincode_deserialize (bincode_serialize s) = Some s;
}.

Section Persist.
Context {H : DefaultHasher} {HO : HashOrder} {P : Persistence}.

(** The bytes [save] writes. *)
Definition save (m : AddrMan) : bytes :=
  bincode_serialize (mkSnapshot (am_key m)
    (map (fun e => mkPersisted (addr_to_string (ai_addr e)) (addr_to_string (ai_source e)) (score e) (is_tried e) (success_count e) (failure_count e))
       (visit (map_info m)).*2)).

Definition restore_entry (m : AddrMan) (entry : PersistedAddrInfo) : AddrMan :=
  match addr_parse (p_addr entry), addr_parse (p_source entry) with
  | Some addr, Some source =>
    let m := set_info m addr (mkAddrInfo addr source (Z.max (p_score entry) 0) (p_tried entry) None None None (p_success entry) (p_failure entry)) in
    if p_tried entry then
      let bucket := get_tried_bucket m addr in
      if (length (bucket_at (tried_buckets m) bucket) <? ADDRMAN_BUCKET_SIZE)%nat then push_tried m bucket addr else m
    else
      let bucket := get_new_bucket m addr source in
      if (length (bucket_at (new_buckets m) bucket) <? ADDRMAN_BUCKET_SIZE)%nat then push_new m bucket addr else m
  | _, _ => m
  end.
(** [data] is the contents of the file, when it can be read; [key] the random key of
    a fresh table. *)
Definition load_or_default (key : bytes) (data : option bytes) : AddrMan :=
  match data with
  | Some data =>
    match bincode_deserialize data with
    | Some snapshot => fold_left restore_entry (snap_entries snapshot) (AddrMan_new (snap_key snapshot))
    | None => AddrMan_new key
    end
  | None => AddrMan_new key
  end.
End Persist.
