(* ===== verification/AddrManProofs.v ===== *)
(** * Properties of the address manager

    The buckets and the table of entries stay consistent under every operation and
    across a restart; what is chosen; what the conversion of IPv4 addresses to mapped
    IPv6 ones does to the buckets. *)

From S2P Require Import Prelude Wire Hash P2P P2PProofs AddrMan.

(** ** Addresses *)

Lemma ip_octets_ok i : ip_ok i -> array_ok 16 (ip_octets i).
Proof.
  destruct i as [o|o]; [|done]. intros [Hl Hb]. split; [unfold ip_octets, to_ipv6_mapped; rewrite length_app, Hl; done|].
  apply bytes_ok_app. split; [|done]. apply (bool_decide_unpack _). by vm_compute.
Qed.

Lemma mapped_roundtrip o : to_ipv4_mapped (to_ipv6_mapped o) = Some o.
Proof. unfold to_ipv4_mapped, to_ipv6_mapped. rewrite take_app_eq by done. rewrite bool_decide_true by done. by rewrite drop_app_length'. Qed.

(** A protocol address read as a socket address and written again is itself; an
    IPv4 address comes back as its mapped IPv6 form. *)
Lemma netaddr_socket_roundtrip (a : SocketAddr) : addr_ok a ->
  from_socket_addr (to_socket_addr (from_socket_addr a)) = from_socket_addr a /\
  match ip a with
  | V4 o => ip (to_socket_addr (from_socket_addr a)) = V6 (to_ipv6_mapped o) /\ to_ipv4_mapped (to_ipv6_mapped o) = Some o
  | V6 _ => to_socket_addr (from_socket_addr a) = a
  end.
Proof.
  intros _. split; [done|]. destruct a as [[o|o] p]; [|done]. split; [done|]. apply mapped_roundtrip.
Qed.

(** ** The invariant *)

Section Invariant.
Context {H : DefaultHasher}.

Lemma new_bucket_lt m a s : (get_new_bucket m a s < ADDRMAN_NEW_BUCKET_COUNT)%nat.
Proof.
  unfold get_new_bucket, ADDRMAN_NEW_BUCKET_COUNT. match goal with |- context [?x mod ?y] => pose proof (Z.mod_pos_bound x y ltac:(lia)) end. lia.
Qed.
Lemma tried_bucket_lt m a : (get_tried_bucket m a < ADDRMAN_TRIED_BUCKET_COUNT)%nat.
Proof.
  unfold get_tried_bucket, ADDRMAN_TRIED_BUCKET_COUNT. match goal with |- context [?x mod ?y] => pose proof (Z.mod_pos_bound x y ltac:(lia)) end. lia.
Qed.

Lemma bucket_at_insert l k b j : (k < length l)%nat -> bucket_at (<[k := b]> l) j = if decide (j = k) then b else bucket_at l j.
Proof.
  intros Hk. unfold bucket_at. destruct (decide (j = k)) as [->|Hne]; [by rewrite list_lookup_insert_eq|by rewrite list_lookup_insert_ne].
Qed.

(** Every address in a bucket is known, in the state the table says, and in the bucket
    its groups say; no bucket holds an address twice; tried buckets keep their size. *)
Record addrman_inv (m : AddrMan) : Prop := {
  inv_new_len : length (new_buckets m) = ADDRMAN_NEW_BUCKET_COUNT;
  inv_tried_len : length (tried_buckets m) = ADDRMAN_TRIED_BUCKET_COUNT;
  inv_keys : forall a i, map_info m !! a = Some i -> ai_addr i = a;
  inv_new : forall k a, a ∈ bucket_at (new_buckets m) k ->
    exists i, map_info m !! a = Some i /\ is_tried i = false /\ get_new_bucket m a (ai_source i) = k;
  inv_tried : forall k a, a ∈ bucket_at (tried_buckets m) k ->
    exists i, map_info m !! a = Some i /\ is_tried i = true /\ get_tried_bucket m a = k;
  inv_new_nodup : forall k, NoDup (bucket_at (new_buckets m) k);
  inv_tried_nodup : forall k, NoDup (bucket_at (tried_buckets m) k);
  inv_tried_size : forall k, (length (bucket_at (tried_buckets m) k) <= ADDRMAN_BUCKET_SIZE)%nat;
}.

(** An entry stands in the bucket it belongs to. *)
Definition placed (m : AddrMan) (a : SocketAddr) (i : AddrInfo) : Prop :=
  if is_tried i then a ∈ bucket_at (tried_buckets m) (get_tried_bucket m a)
  else a ∈ bucket_at (new_buckets m) (get_new_bucket m a (ai_source i)).
Definition complete_on (P : SocketAddr -> Prop) (m : AddrMan) : Prop := forall a i, P a -> map_info m !! a = Some i -> placed m a i.
Definition complete : AddrMan -> Prop := complete_on (fun _ => True).
Definition unplaced (m : AddrMan) (a : SocketAddr) : Prop :=
  (forall k, a ∉ bucket_at (new_buckets m) k) /\ (forall k, a ∉ bucket_at (tried_buckets m) k).

Lemma new_bucket_key m m' a s : am_key m = am_key m' -> get_new_bucket m a s = get_new_bucket m' a s.
Proof. intros E. unfold get_new_bucket. by rewrite E. Qed.

Lemma bucket_at_empty n k : bucket_at (replicate n []) k = [].
Proof. unfold bucket_at. destruct (replicate n [] !! k) as [b|] eqn:E; [|done]. by apply lookup_replicate in E as [-> _]. Qed.
Lemma fresh_inv key : addrman_inv (AddrMan_new key) /\ complete (AddrMan_new key).
Proof.
  split; [|intros a i _ Hi; cbn in Hi; by rewrite lookup_empty in Hi].
  split; unfold AddrMan_new; cbn [map_info new_buckets tried_buckets am_key]; intros *; rewrite ?bucket_at_empty; rewrite ?length_replicate; try done.
  - by intros ?%not_elem_of_nil.
  - by intros ?%not_elem_of_nil.
  - constructor.
  - constructor.
  - cbn. lia.
Qed.

Lemma unknown_unplaced m a : addrman_inv m -> map_info m !! a = None -> unplaced m a.
Proof.
  intros I Hn. split; intros k Hk; [apply (inv_new m I) in Hk|apply (inv_tried m I) in Hk]; destruct Hk as (i & Hi & _); congruence.
Qed.

(** An address nowhere in the buckets enters the table as a new one. *)
Lemma place_new m a i : addrman_inv m -> ai_addr i = a -> is_tried i = false -> unplaced m a ->
  let m' := push_new (set_info m a i) (get_new_bucket m a (ai_source i)) a in
  addrman_inv m' /\ (forall P, complete_on (fun x => P x /\ x <> a) m -> complete_on P m').
Proof.
  intros I Ha Ht [U1 U2] m'. set (b := get_new_bucket m a (ai_source i)) in *.
  assert (b < length (new_buckets m))%nat as Hb by (rewrite (inv_new_len m I); apply new_bucket_lt).
  assert (forall k, bucket_at (new_buckets m') k = if decide (k = b) then bucket_at (new_buckets m) b ++ [a] else bucket_at (new_buckets m) k) as En
    by (intros k; unfold m'; cbn -[bucket_at]; by rewrite bucket_at_insert).
  split.
  - split; unfold m'; cbn -[bucket_at]; try apply I.
    + rewrite length_insert. apply I.
    + intros x j. destruct (decide (x = a)) as [->|Hne]; [rewrite lookup_insert_eq; congruence|rewrite lookup_insert_ne by done; apply I].
    + intros k x. fold m'. rewrite En. destruct (decide (x = a)) as [->|Hne].
      * rewrite lookup_insert_eq. destruct (decide (k = b)) as [->|]; [eauto|]. intros Hx. by apply U1 in Hx.
      * rewrite lookup_insert_ne by done. intros Hx. apply (inv_new m I). destruct (decide (k = b)) as [->|]; [|done].
        apply elem_of_app in Hx as [?|Hx%list_elem_of_singleton]; done.
    + intros k x Hx. destruct (decide (x = a)) as [->|Hne]; [by apply U2 in Hx|]. rewrite lookup_insert_ne by done. by apply I.
    + intros k. fold m'. rewrite En. destruct (decide (k = b)); [|apply I]. apply NoDup_app. split_and!; [apply I| |apply NoDup_singleton].
      intros x Hx ->%list_elem_of_singleton. by apply U1 in Hx.
  - intros P Hc x j Px. unfold placed. unfold m' at 1. cbn -[bucket_at]. destruct (decide (x = a)) as [->|Hne].
    + rewrite lookup_insert_eq. intros [= <-]. rewrite Ht, En. unfold get_new_bucket at 1. fold (get_new_bucket m a (ai_source i)). fold b.
      rewrite decide_True by done. apply elem_of_app. right. by apply list_elem_of_singleton.
    + rewrite lookup_insert_ne by done. intros Hx. pose proof (Hc x j (conj Px Hne) Hx) as Hp. unfold placed in Hp. destruct (is_tried j); [done|].
      rewrite En. change (get_new_bucket m' x (ai_source j)) with (get_new_bucket m x (ai_source j)).
      destruct (decide (get_new_bucket m x (ai_source j) = b)) as [E|]; [rewrite <- E; apply elem_of_app; by left|done].
Qed.

(** The same for the tried table, when the bucket has room. *)
Lemma place_tried m a i : addrman_inv m -> ai_addr i = a -> is_tried i = true -> map_info m !! a = Some i -> unplaced m a ->
  (length (bucket_at (tried_buckets m) (get_tried_bucket m a)) < ADDRMAN_BUCKET_SIZE)%nat ->
  let m' := push_tried m (get_tried_bucket m a) a in addrman_inv m' /\ (forall P, complete_on (fun x => P x /\ x <> a) m -> complete_on P m').
Proof.
  intros I Ha Ht Hi [U1 U2] Hs m'. set (b := get_tried_bucket m a) in *.
  assert (b < length (tried_buckets m))%nat as Hb by (rewrite (inv_tried_len m I); apply tried_bucket_lt).
  assert (forall k, bucket_at (tried_buckets m') k = if decide (k = b) then bucket_at (tried_buckets m) b ++ [a] else bucket_at (tried_buckets m) k) as En
    by (intros k; unfold m'; cbn -[bucket_at]; by rewrite bucket_at_insert).
  split.
  - split; try (unfold m'; apply I).
    + unfold m'; cbn. rewrite length_insert. apply I.
    + intros k x. rewrite En. unfold m' at 1. cbn -[bucket_at]. intros Hx. destruct (decide (k = b)) as [->|]; [|by apply (inv_tried m I)].
      apply elem_of_app in Hx as [Hx| ->%list_elem_of_singleton]; [by apply (inv_tried m I)|eauto].
    + intros k. rewrite En. destruct (decide (k = b)); [|apply I]. apply NoDup_app. split_and!; [apply I| |apply NoDup_singleton].
      intros x Hx ->%list_elem_of_singleton. by apply U2 in Hx.
    + intros k. rewrite En. destruct (decide (k = b)); [|apply I]. rewrite length_app. cbn. lia.
  - intros P Hc x j Px Hx. unfold m' in Hx. cbn in Hx. unfold placed. destruct (decide (x = a)) as [->|Hne].
    + assert (j = i) as -> by congruence. rewrite Ht, En. change (get_tried_bucket m' a) with b. rewrite decide_True by done.
      apply elem_of_app. right. by apply list_elem_of_singleton.
    + pose proof (Hc x j (conj Px Hne) Hx) as Hp. unfold placed in Hp. destruct (is_tried j); [|done]. rewrite En.
      change (get_tried_bucket m' x) with (get_tried_bucket m x). destruct (decide (get_tried_bucket m x = b)) as [E|]; [|done].
      rewrite <- E. apply elem_of_app. by left.
Qed.

(** Changing an entry without changing where it belongs. *)
Lemma update_entry m a i j : addrman_inv m -> map_info m !! a = Some i -> ai_addr j = a -> is_tried j = is_tried i -> ai_source j = ai_source i ->
  addrman_inv (set_info m a j) /\ (forall P, complete_on P m -> complete_on P (set_info m a j)).
Proof.
  intros I Hi Ha Ht Hs. split.
  - split; cbn -[bucket_at]; try apply I.
    + intros x y. destruct (decide (x = a)) as [->|]; [rewrite lookup_insert_eq; congruence|rewrite lookup_insert_ne by done; apply I].
    + intros k x Hx. apply (inv_new m I) in Hx as (y & Hy & Hyt & Hyb). destruct (decide (x = a)) as [->|]; [|rewrite lookup_insert_ne by done; eauto].
      rewrite lookup_insert_eq. assert (y = i) as -> by congruence. exists j. rewrite Ht, Hs. done.
    + intros k x Hx. apply (inv_tried m I) in Hx as (y & Hy & Hyt & Hyb). destruct (decide (x = a)) as [->|]; [|rewrite lookup_insert_ne by done; eauto].
      rewrite lookup_insert_eq. assert (y = i) as -> by congruence. exists j. by rewrite Ht.
  - intros P Hc x y Px. cbn. destruct (decide (x = a)) as [->|]; [|rewrite lookup_insert_ne by done; by apply Hc].
    rewrite lookup_insert_eq. intros [= <-]. pose proof (Hc a i Px Hi) as Hp. unfold placed in *. cbn -[bucket_at]. by rewrite Ht, Hs.
Qed.

(** An address outside the buckets can change its entry at will. *)
Lemma update_unplaced m a j : addrman_inv m -> unplaced m a -> ai_addr j = a ->
  addrman_inv (set_info m a j) /\ unplaced (set_info m a j) a /\
  (forall P, complete_on (fun x => P x /\ x <> a) m -> complete_on (fun x => P x /\ x <> a) (set_info m a j)).
Proof.
  intros I [U1 U2] Ha. split_and!; [|done|].
  - split; cbn -[bucket_at]; try apply I.
    + intros x y. destruct (decide (x = a)) as [->|]; [rewrite lookup_insert_eq; congruence|rewrite lookup_insert_ne by done; apply I].
    + intros k x Hx. destruct (decide (x = a)) as [->|]; [by apply U1 in Hx|]. rewrite lookup_insert_ne by done. by apply I.
    + intros k x Hx. destruct (decide (x = a)) as [->|]; [by apply U2 in Hx|]. rewrite lookup_insert_ne by done. by apply I.
  - intros P Hc x y [Px Hx]. cbn. rewrite lookup_insert_ne by done. by apply Hc.
Qed.

(** Taking addresses out of a new bucket. *)
Lemma shrink_new m b l : addrman_inv m -> (b < ADDRMAN_NEW_BUCKET_COUNT)%nat -> l `sublist_of` bucket_at (new_buckets m) b ->
  addrman_inv (mkAddrMan (map_info m) (<[b := l]> (new_buckets m)) (tried_buckets m) (am_key m)).
Proof.
  intros I Hb Hl. rewrite <- (inv_new_len m I) in Hb. split; cbn -[bucket_at]; try apply I.
  - rewrite length_insert. apply I.
  - intros k x. rewrite bucket_at_insert by done. intros Hx. apply (inv_new m I). destruct (decide (k = b)) as [->|]; [|done].
    eapply elem_of_submseteq; [exact Hx|by apply sublist_submseteq].
  - intros k. rewrite bucket_at_insert by done. destruct (decide (k = b)) as [->|]; [|apply I]. exact (sublist_NoDup _ _ (inv_new_nodup m I b) Hl).
Qed.
Lemma shrink_tried m b l : addrman_inv m -> (b < ADDRMAN_TRIED_BUCKET_COUNT)%nat -> l `sublist_of` bucket_at (tried_buckets m) b ->
  addrman_inv (mkAddrMan (map_info m) (new_buckets m) (<[b := l]> (tried_buckets m)) (am_key m)).
Proof.
  intros I Hb Hl. rewrite <- (inv_tried_len m I) in Hb. split; cbn -[bucket_at]; try apply I.
  - rewrite length_insert. apply I.
  - intros k x. rewrite bucket_at_insert by done. intros Hx. apply (inv_tried m I). destruct (decide (k = b)) as [->|]; [|done].
    eapply elem_of_submseteq; [exact Hx|by apply sublist_submseteq].
  - intros k. rewrite bucket_at_insert by done. destruct (decide (k = b)) as [->|]; [|apply I]. exact (sublist_NoDup _ _ (inv_tried_nodup m I b) Hl).
  - intros k. rewrite bucket_at_insert by done. destruct (decide (k = b)) as [->|]; [|apply I].
    pose proof (sublist_length _ _ Hl). pose proof (inv_tried_size m I b). lia.
Qed.

(** Forgetting an address that is in no bucket. *)
Lemma forget_unplaced m a : addrman_inv m -> unplaced m a ->
  addrman_inv (mkAddrMan (delete a (map_info m)) (new_buckets m) (tried_buckets m) (am_key m)).
Proof.
  intros I [U1 U2]. split; cbn -[bucket_at]; try apply I.
  - intros x y [_ Hx]%lookup_delete_Some. by apply I.
  - intros k x Hx. destruct (decide (x = a)) as [->|]; [by apply U1 in Hx|]. rewrite lookup_delete_ne by done. by apply I.
  - intros k x Hx. destruct (decide (x = a)) as [->|]; [by apply U2 in Hx|]. rewrite lookup_delete_ne by done. by apply I.
Qed.

(** ** Operations *)

(** Evicting keeps the table consistent; only an address of the full bucket is lost. *)
Lemma evict_new_spec m b : addrman_inv m -> (b < ADDRMAN_NEW_BUCKET_COUNT)%nat ->
  let m' := evict_new m b in
  addrman_inv m' /\ (complete m -> complete m') /\ map_info m' ⊆ map_info m /\ am_key m' = am_key m /\
  (forall k, bucket_at (new_buckets m') k `sublist_of` bucket_at (new_buckets m) k) /\
  ((length (bucket_at (new_buckets m) b) <= ADDRMAN_BUCKET_SIZE)%nat -> (length (bucket_at (new_buckets m') b) < ADDRMAN_BUCKET_SIZE)%nat) /\
  (size (map_info m) <= S (size (map_info m')))%nat /\
  (forall a i, map_info m !! a = Some i -> map_info m' !! a = Some i \/ is_tried i = false /\ get_new_bucket m a (ai_source i) = b).
Proof.
  intros I Hb. unfold evict_new. destruct (bucket_at (new_buckets m) b) as [|v rest] eqn:Eb; [split_and!; try done; [intros _; rewrite Eb; cbn; unfold ADDRMAN_BUCKET_SIZE; lia|lia|by left]|].
  destruct (Nat.leb_spec ADDRMAN_BUCKET_SIZE (length (v :: rest))) as [Hfull|Hroom]; [|split_and!; try done; [by rewrite Eb|lia|by left]].
  assert (v ∈ bucket_at (new_buckets m) b) as Hv by (rewrite Eb; constructor).
  pose proof (inv_new m I _ _ Hv) as (iv & Hiv & Htv & Hbv).
  set (m1 := mkAddrMan (map_info m) (<[b := rest]> (new_buckets m)) (tried_buckets m) (am_key m)).
  assert (b < length (new_buckets m))%nat as Hb' by (by rewrite (inv_new_len m I)).
  assert (addrman_inv m1) as I1 by (apply shrink_new; [done..|]; rewrite Eb; by apply sublist_cons).
  assert (forall k, bucket_at (new_buckets m1) k = if decide (k = b) then rest else bucket_at (new_buckets m) k) as En
    by (intros k; unfold m1; cbn -[bucket_at]; by rewrite bucket_at_insert).
  pose proof (inv_new_nodup m I b) as Hnd. rewrite Eb in Hnd. apply NoDup_cons in Hnd as [Hvr _].
  assert (unplaced m1 v) as Hu.
  { split; intros k Hk; [|apply (inv_tried m1 I1) in Hk as (j & Hj & Htj & _); cbn in Hj; congruence].
    apply (inv_new m1 I1) in Hk as Hk'. destruct Hk' as (j & Hj & _ & Hkj). change (get_new_bucket m1) with (get_new_bucket m) in Hkj. cbn in Hj.
    assert (j = iv) as -> by congruence. rewrite En in Hk. rewrite decide_True in Hk by congruence. done. }
  split_and!.
  - exact (forget_unplaced m1 v I1 Hu).
  - intros Hc a i _ Ha. cbn in Ha. apply lookup_delete_Some in Ha as [Hne Ha]. pose proof (Hc a i Logic.I Ha) as Hp. unfold placed in *.
    change (get_tried_bucket _ a) with (get_tried_bucket m a). change (get_new_bucket _ a (ai_source i)) with (get_new_bucket m a (ai_source i)).
    destruct (is_tried i); [done|]. cbn [new_buckets]. rewrite bucket_at_insert by done. destruct (decide _) as [E|]; [|done].
    rewrite E, Eb in Hp. apply elem_of_cons in Hp as [->|Hp]; [done|done].
  - cbn. apply delete_subseteq.
  - done.
  - intros k. cbn [new_buckets]. rewrite bucket_at_insert by done. destruct (decide (k = b)) as [->|]; [rewrite Eb; by apply sublist_cons|done].
  - intros Hle. cbn [new_buckets]. rewrite bucket_at_insert, decide_True by done. cbn in Hle. lia.
  - cbn. rewrite map_size_delete_Some by (by exists iv). lia.
  - intros a i Ha. cbn. destruct (decide (a = v)) as [->|]; [right|left; by rewrite lookup_delete_ne].
    assert (i = iv) as -> by congruence. done.
Qed.

Lemma add_spec m a s : addrman_inv m -> addrman_inv (add m a s) /\ (complete m -> complete (add m a s)) /\ am_key (add m a s) = am_key m.
Proof.
  intros I. unfold add. destruct (map_info m !! a) as [i|] eqn:Ea; [done|]. set (b := get_new_bucket m a s).
  destruct (evict_new_spec m b I (new_bucket_lt m a s)) as (I1 & C1 & Hsub & Hk & _).
  assert (map_info (evict_new m b) !! a = None) as Ea1 by (eapply lookup_weaken_None; eauto).
  destruct (place_new (evict_new m b) a (AddrInfo_new a s) I1 eq_refl eq_refl (unknown_unplaced _ _ I1 Ea1)) as [I2 C2].
  rewrite (new_bucket_key (evict_new m b) m a _ Hk) in I2, C2. split_and!; [done| |by unfold push_new, set_info].
  intros Hc. apply C2. intros x j _ Hx. by apply C1.
Qed.

(** A full tried bucket sends its first address back to a new bucket. *)
Lemma demote_tried_spec m b x : addrman_inv m -> (b < ADDRMAN_TRIED_BUCKET_COUNT)%nat -> unplaced m x ->
  let m' := demote_tried m b in
  addrman_inv m' /\ unplaced m' x /\ map_info m' !! x = map_info m !! x /\ am_key m' = am_key m /\
  (length (bucket_at (tried_buckets m') b) < ADDRMAN_BUCKET_SIZE)%nat /\ (forall P, complete_on P m -> complete_on P m').
Proof.
  intros I Hb Hx. pose proof (inv_tried_size m I b) as Hsz. unfold demote_tried.
  destruct (bucket_at (tried_buckets m) b) as [|v rest] eqn:Eb; [split_and!; try done; by rewrite Eb; unfold ADDRMAN_BUCKET_SIZE; cbn; lia|].
  destruct (Nat.leb_spec ADDRMAN_BUCKET_SIZE (length (v :: rest))) as [Hfull|Hroom]; [|split_and!; try done; by rewrite Eb].
  assert (v ∈ bucket_at (tried_buckets m) b) as Hv by (rewrite Eb; constructor).
  pose proof (inv_tried m I _ _ Hv) as (iv & Hiv & Htv & Hbv).
  set (m1 := mkAddrMan (map_info m) (new_buckets m) (<[b := rest]> (tried_buckets m)) (am_key m)).
  assert (b < length (tried_buckets m))%nat as Hb' by (by rewrite (inv_tried_len m I)).
  assert (addrman_inv m1) as I1 by (apply shrink_tried; [done..|]; rewrite Eb; by apply sublist_cons).
  assert (forall k, bucket_at (tried_buckets m1) k = if decide (k = b) then rest else bucket_at (tried_buckets m) k) as En
    by (intros k; unfold m1; cbn -[bucket_at]; by rewrite bucket_at_insert).
  pose proof (inv_tried_nodup m I b) as Hnd. rewrite Eb in Hnd. apply NoDup_cons in Hnd as [Hvr _].
  assert (unplaced m1 v) as Hu.
  { split; intros k Hk; [apply (inv_new m1 I1) in Hk as (j & Hj & Htj & _); cbn in Hj; congruence|].
    apply (inv_tried m1 I1) in Hk as Hk'. destruct Hk' as (j & Hj & _ & Hkj). change (get_tried_bucket m1) with (get_tried_bucket m) in Hkj.
    rewrite En in Hk. by rewrite decide_True in Hk by congruence. }
  assert (x <> v) as Hxv by (intros ->; by apply (proj2 Hx) in Hv).
  fold m1. cbv zeta. change (map_info m1 !! v) with (map_info m !! v). rewrite Hiv.
  destruct (place_new m1 v (set_tried iv false) I1 (inv_keys m I v iv Hiv) eq_refl Hu) as [I2 C2]. split_and!.
  - exact I2.
  - destruct Hx as [X1 X2]. split; intros k; cbn -[bucket_at].
    + rewrite bucket_at_insert by (rewrite (inv_new_len m I); apply new_bucket_lt).
      destruct (decide _); [|apply X1]. intros [Hk|Hk%list_elem_of_singleton]%elem_of_app; [by apply X1 in Hk|done].
    + rewrite bucket_at_insert by done. destruct (decide _) as [->|]; [|apply X2]. intros Hk. apply (X2 b). rewrite Eb. by constructor.
  - cbn. by rewrite lookup_insert_ne.
  - done.
  - cbn -[bucket_at]. rewrite bucket_at_insert, decide_True by done. cbn in Hsz. unfold ADDRMAN_BUCKET_SIZE in *. lia.
  - intros P Hc. apply C2. intros a i [Pa Ha] Hi. pose proof (Hc a i Pa Hi) as Hp. unfold placed in *. destruct (is_tried i); [|done].
    change (get_tried_bucket m1 a) with (get_tried_bucket m a). rewrite En. destruct (decide _) as [E|]; [|done].
    rewrite E, Eb in Hp. by apply elem_of_cons in Hp as [?|?].
Qed.

Lemma good_spec m a : addrman_inv m -> addrman_inv (good m a) /\ (complete m -> complete (good m a)) /\ am_key (good m a) = am_key m.
Proof.
  intros I. unfold good. destruct (map_info m !! a) as [i|] eqn:Ea; [|done]. destruct (is_tried i) eqn:Et; [done|].
  set (b := get_new_bucket m a (ai_source i)). set (m1 := drop_new m b a).
  assert (b < length (new_buckets m))%nat as Hb by (rewrite (inv_new_len m I); apply new_bucket_lt).
  assert (addrman_inv m1) as I1 by (apply shrink_new; [done|apply new_bucket_lt|apply sublist_filter]).
  assert (forall k, bucket_at (new_buckets m1) k = if decide (k = b) then filter (fun x => x <> a) (bucket_at (new_buckets m) b) else bucket_at (new_buckets m) k) as En
    by (intros k; unfold m1; cbn -[bucket_at]; by rewrite bucket_at_insert).
  assert (unplaced m1 a) as U1.
  { split; intros k Hk; [|apply (inv_tried m1 I1) in Hk as (j & Hj & Htj & _); cbn in Hj; congruence].
    apply (inv_new m1 I1) in Hk as Hk'. destruct Hk' as (j & Hj & _ & Hkj). change (get_new_bucket m1) with (get_new_bucket m) in Hkj. cbn in Hj.
    assert (j = i) as -> by congruence. rewrite En in Hk. rewrite decide_True in Hk by (by subst k). by apply list_elem_of_filter in Hk as [? _]. }
  destruct (update_unplaced m1 a (set_tried i true) I1 U1 (inv_keys m I a i Ea)) as (I2 & U2 & C2).
  set (m2 := set_info m1 a (set_tried i true)) in *.
  destruct (demote_tried_spec m2 (get_tried_bucket m2 a) a I2 (tried_bucket_lt m2 a) U2) as (I3 & U3 & Hm3 & Hk3 & Hs3 & C3).
  set (m3 := demote_tried m2 _) in *. assert (map_info m3 !! a = Some (set_tried i true)) as Hi3 by (rewrite Hm3; apply lookup_insert_eq).
  assert (get_tried_bucket m3 a = get_tried_bucket m2 a) as Eb by (unfold get_tried_bucket; by rewrite Hk3).
  rewrite <- Eb in Hs3. destruct (place_tried m3 a (set_tried i true) I3 (inv_keys m I a i Ea) eq_refl Hi3 U3 Hs3) as [I4 C4]. rewrite Eb in I4, C4.
  split_and!; [exact I4| |exact Hk3]. intros Hc. apply C4, C3, C2. intros x j [_ Hne] Hj. cbn in Hj. pose proof (Hc x j Logic.I Hj) as Hp.
  unfold placed in *. destruct (is_tried j); [done|]. change (get_new_bucket m1 x (ai_source j)) with (get_new_bucket m x (ai_source j)). rewrite En.
  destruct (decide _) as [E|]; [|done]. rewrite E in Hp. by apply list_elem_of_filter.
Qed.

Lemma record_success_spec t1 t2 m a : addrman_inv m ->
  addrman_inv (record_success t1 t2 m a) /\ (complete m -> complete (record_success t1 t2 m a)).
Proof.
  intros I. unfold record_success. destruct (map_info m !! a) as [e|] eqn:Ea.
  - match goal with |- context [good (set_info m a ?j) a] => destruct (update_entry m a e j I Ea (inv_keys m I a e Ea) eq_refl eq_refl) as [I1 C1] end.
    destruct (good_spec _ a I1) as (I2 & C2 & _). split; [done|]. intros Hc. apply C2. by apply C1.
  - by destruct (good_spec m a I) as (I2 & C2 & _).
Qed.
Lemma record_failure_spec t1 t2 m a : addrman_inv m ->
  addrman_inv (record_failure t1 t2 m a) /\ (complete m -> complete (record_failure t1 t2 m a)).
Proof.
  intros I. unfold record_failure. destruct (map_info m !! a) as [e|] eqn:Ea; [|done].
  match goal with |- context [set_info m a ?j] => destruct (update_entry m a e j I Ea (inv_keys m I a e Ea) eq_refl eq_refl) as [I1 C1] end.
  split; [done|]. apply C1.
Qed.

(** ** Any history of the table *)

Inductive AddrOp : Type :=
  | OpAdd (addr source : SocketAddr)
  | OpSuccess (connected attempt : Z) (addr : SocketAddr)
  | OpFailure (attempt banned : Z) (addr : SocketAddr).
Definition run_addr_op (m : AddrMan) (op : AddrOp) : AddrMan :=
  match op with
  | OpAdd a s => add m a s
  | OpSuccess t1 t2 a => record_success t1 t2 m a
  | OpFailure t1 t2 a => record_failure t1 t2 m a
  end.
Definition run_addr_ops (m : AddrMan) (ops : list AddrOp) : AddrMan := fold_left run_addr_op ops m.

Lemma run_addr_op_spec m op : addrman_inv m -> addrman_inv (run_addr_op m op) /\ (complete m -> complete (run_addr_op m op)).
Proof.
  intros I. destruct op; cbn; [by destruct (add_spec m addr source I) as (? & ? & _)|by apply record_success_spec|by apply record_failure_spec].
Qed.

(** C28: Whatever addresses are announced, connected to or failed, in any order, the
    table stays consistent: every known address stands in exactly the one bucket that
    its state and its groups name, every bucket holds known addresses of its own
    table, none twice, and no tried bucket outgrows its 64 slots. *)
Theorem addrman_consistent (m : AddrMan) (ops : list AddrOp) : addrman_inv m -> complete m ->
  addrman_inv (run_addr_ops m ops) /\ complete (run_addr_ops m ops).
Proof.
  revert m. induction ops as [|op ops IH]; intros m I C; [done|]. destruct (run_addr_op_spec m op I) as [I1 C1]. apply IH; auto.
Qed.

(** Announcing addresses cannot push out the rest of the table: however many
    addresses of one network group are announced from one group of sources, what is
    forgotten are untried addresses of the one bucket those two groups share. *)
Lemma announcements_confined (m : AddrMan) (g s : bytes) (announced : list (SocketAddr * SocketAddr)) (a : SocketAddr) (i : AddrInfo) :
  addrman_inv m -> Forall (fun p => get_group (ip p.1) = g /\ get_group (ip p.2) = s) announced ->
  map_info m !! a = Some i ->
  is_tried i = true \/ hasher_finish [am_key m; get_group (ip a); get_group (ip (ai_source i))] mod 1024 <> hasher_finish [am_key m; g; s] mod 1024 ->
  map_info (fold_left (fun m p => add m p.1 p.2) announced m) !! a = Some i.
Proof.
  intros I Hall. revert m I. induction Hall as [|[x y] l [Hx Hy] _ IH]; intros m I Ha Hsafe; [done|]. cbn [fold_left fst snd] in *.
  destruct (add_spec m x y I) as (I1 & _ & Hk). apply IH; [done| |by rewrite Hk].
  unfold add. destruct (map_info m !! x) as [j|] eqn:Ex; [done|]. cbn. destruct (decide (a = x)) as [->|]; [congruence|].
  rewrite lookup_insert_ne by done.
  destruct (evict_new_spec m (get_new_bucket m x y) I (new_bucket_lt m x y)) as (_ & _ & _ & _ & _ & _ & _ & Hlost).
  destruct (Hlost a i Ha) as [?|[Ht Hb]]; [done|]. destruct Hsafe as [?|Hne]; [congruence|]. exfalso. apply Hne.
  unfold get_new_bucket in Hb. rewrite Hx, Hy in Hb. apply Z2Nat.inj in Hb; [done|apply Z.mod_pos_bound; done..].
Qed.
End Invariant.

(** ** Mapped IPv4 addresses *)

Section Mapped.
Context {H : DefaultHasher}.

(** Every mapped IPv4 address is in the group of the four zero bytes. *)
Lemma mapped_group (a : SocketAddr) : is_ipv4 a = true -> get_group (ip (to_socket_addr (from_socket_addr a))) = [0; 0; 0; 0].
Proof. destruct a as [[o|o] p]; [|done]. intros _. reflexivity. Qed.

(** What the table holds when all its addresses fall into the bucket [b]. *)
Definition one_bucket (b : nat) (m : AddrMan) : Prop :=
  addrman_inv m /\ complete m /\ (length (bucket_at (new_buckets m) b) <= ADDRMAN_BUCKET_SIZE)%nat /\
  forall a i, map_info m !! a = Some i -> is_tried i = false /\ get_new_bucket m a (ai_source i) = b.

Lemma one_bucket_size b m : one_bucket b m -> (size (map_info m) <= ADDRMAN_BUCKET_SIZE)%nat.
Proof.
  intros (I & C & Hl & Hall). etrans; [|exact Hl]. rewrite <- size_dom. unfold size, set_size. cbn.
  apply submseteq_length, NoDup_submseteq; [apply NoDup_elements|]. intros a Ha%elem_of_elements.
  apply elem_of_dom in Ha as [i Hi]. pose proof (C a i Logic.I Hi) as Hp. destruct (Hall a i Hi) as [Ht Hb]. unfold placed in Hp. by rewrite Ht, Hb in Hp.
Qed.
Lemma one_bucket_add b m a s : one_bucket b m -> get_new_bucket m a s = b -> one_bucket b (add m a s) /\ am_key (add m a s) = am_key m.
Proof.
  intros (I & C & Hl & Hall) Hb. destruct (add_spec m a s I) as (I1 & C1 & Hk). split; [|done]. split_and!; [done|by apply C1|..].
  - unfold add. destruct (map_info m !! a) as [j|] eqn:Ea; [done|]. rewrite Hb.
    destruct (evict_new_spec m b I ltac:(rewrite <- Hb; apply new_bucket_lt)) as (I2 & _ & _ & _ & _ & Hroom & _). specialize (Hroom Hl).
    cbn -[bucket_at]. rewrite bucket_at_insert, decide_True by (rewrite ?(inv_new_len _ I2), <- ?Hb; try apply new_bucket_lt; done).
    rewrite length_app. cbn. lia.
  - intros x i. rewrite (new_bucket_key (add m a s) m x _ Hk). unfold add. destruct (map_info m !! a) as [j|] eqn:Ea; [apply Hall|].
    destruct (evict_new_spec m (get_new_bucket m a s) I (new_bucket_lt m a s)) as (_ & _ & Hsub & _). cbn.
    destruct (decide (x = a)) as [->|]; [rewrite lookup_insert_eq; by intros [= <-]|rewrite lookup_insert_ne by done].
    intros Hx. apply Hall. by eapply lookup_weaken.
Qed.

(** Addresses that came through [NetAddr] and are IPv4 share one bucket of 64. *)
Lemma mapped_capacity (key : bytes) (source : SocketAddr) (addrs : list SocketAddr) : Forall (fun a => is_ipv4 a = true) addrs ->
  (size (map_info (add_many (AddrMan_new key) (map (fun a => to_socket_addr (from_socket_addr a)) addrs) source)) <= ADDRMAN_BUCKET_SIZE)%nat.
Proof.
  intros Hall. set (b := Z.to_nat (hasher_finish [key; [0; 0; 0; 0]; get_group (ip source)] mod 1024)). apply (one_bucket_size b).
  assert (forall m, one_bucket b m -> am_key m = key ->
    one_bucket b (add_many m (map (fun a => to_socket_addr (from_socket_addr a)) addrs) source)) as Hgen.
  { induction Hall as [|a l Ha _ IH]; intros m Hm Hk; [done|]. cbn [map add_many fold_left].
    destruct (one_bucket_add b m (to_socket_addr (from_socket_addr a)) source Hm) as [H1 H2].
    { unfold get_new_bucket. by rewrite mapped_group, Hk by done. }
    apply IH; [done|by rewrite H2]. }
  apply Hgen; [|done]. destruct (fresh_inv key) as [I C]. split_and!; [done..| |].
  - unfold AddrMan_new. cbn [new_buckets]. rewrite bucket_at_empty. cbn. lia.
  - intros a i Hi. cbn in Hi. by rewrite lookup_empty in Hi.
Qed.
End Mapped.

(** ** Choosing *)

Lemma key_le_refl a : key_le a a = true.
Proof. unfold key_le. destruct (is_tried a); rewrite Z.eqb_refl, Z.leb_refl, orb_true_r; done. Qed.
Lemma key_le_trans a b c : key_le a b = true -> key_le b c = true -> key_le a c = true.
Proof.
  unfold key_le. destruct (is_tried a), (is_tried b), (is_tried c); try done;
    rewrite !orb_true_iff, !andb_true_iff, ?Z.ltb_lt, ?Z.eqb_eq, ?Z.leb_le; lia.
Qed.
Lemma key_le_total a b : key_le a b = false -> key_le b a = true.
Proof.
  unfold key_le. destruct (is_tried a), (is_tried b); try done;
    rewrite ?orb_false_iff, ?orb_true_iff, ?andb_false_iff, ?andb_true_iff, ?Z.ltb_lt, ?Z.ltb_ge, ?Z.eqb_eq, ?Z.eqb_neq, ?Z.leb_le, ?Z.leb_gt; lia.
Qed.

Lemma max_by_key_spec l : match max_by_key l with
  | Some b => b ∈ l /\ Forall (fun e => key_le e b = true) l
  | None => l = []
  end.
Proof.
  unfold max_by_key. induction l as [|e l IH] using rev_ind; [done|]. rewrite fold_left_app. cbn [fold_left].
  destruct (fold_left _ l None) as [b|].
  - destruct IH as [Hb Hall]. destruct (key_le b e) eqn:E.
    + split; [apply elem_of_app; right; by apply list_elem_of_singleton|]. apply Forall_app. split; [|by constructor; [apply key_le_refl|]].
      eapply Forall_impl; [exact Hall|]. cbn. intros x Hx. by eapply key_le_trans.
    + split; [apply elem_of_app; by left|]. apply Forall_app. split; [done|]. constructor; [by apply key_le_total|done].
  - subst l. split; [by apply list_elem_of_singleton|]. constructor; [apply key_le_refl|done].
Qed.

Section Choice.
Context {HO : HashOrder}.

Lemma visit_elem {A} (m : gmap SocketAddr A) a x : (a, x) ∈ visit m <-> m !! a = Some x.
Proof. rewrite visit_perm. apply elem_of_map_to_list. Qed.

(** A candidate of [select_where]. *)
Definition candidate (p : AddrInfo -> bool) (now : SocketAddr -> Z) (active : list SocketAddr) (a : SocketAddr) (i : AddrInfo) : Prop :=
  is_connectable (now a) i = true /\ p i = true /\ a ∉ active.

Lemma select_elem p now m active e : (forall a i, map_info m !! a = Some i -> ai_addr i = a) ->
  e ∈ filter (fun e => is_connectable (now (ai_addr e)) e && p e && negb (bool_decide (ai_addr e ∈ active))) (visit (map_info m)).*2 <->
  map_info m !! ai_addr e = Some e /\ candidate p now active (ai_addr e) e.
Proof.
  intros Hk. rewrite list_elem_of_filter, list_elem_of_fmap. unfold candidate. split.
  - intros [Hp ([a i] & -> & Hv)]. cbn in *. apply visit_elem in Hv. pose proof (Hk a i Hv) as Ea. rewrite Ea in *.
    destruct (is_connectable (now a) i), (p i); cbn in Hp; try done. destruct (bool_decide_reflect (a ∈ active)); done.
  - intros [Hm (H1 & H2 & H3)]. split; [rewrite H1, H2, bool_decide_false by done; done|]. exists (ai_addr e, e). split; [done|]. by apply visit_elem.
Qed.

(** The chosen address is a best candidate; none is chosen only when there is none. *)
Lemma select_where_spec p now m active : (forall a i, map_info m !! a = Some i -> ai_addr i = a) ->
  match select_where p now m active with
  | Some a => exists i, map_info m !! a = Some i /\ candidate p now active a i /\
      forall a' i', map_info m !! a' = Some i' -> candidate p now active a' i' -> key_le i' i = true
  | None => forall a i, map_info m !! a = Some i -> ~ candidate p now active a i
  end.
Proof.
  intros Hk. unfold select_where. pose proof (select_elem p now m active) as Hel. set (l := filter _ _) in *.
  pose proof (max_by_key_spec l) as Hmax. destruct (max_by_key l) as [b|]; cbn.
  - destruct Hmax as [Hb Hall]. apply (Hel b Hk) in Hb as [Hm Hc]. exists b. split_and!; [done..|].
    intros a' i' Hm' Hc'. rewrite Forall_forall in Hall. apply Hall. apply (Hel i' Hk). by rewrite (Hk a' i' Hm').
  - intros a i Hm Hc. assert (i ∈ l) as Hi by (apply (Hel i Hk); by rewrite (Hk a i Hm)). rewrite Hmax in Hi. by apply not_elem_of_nil in Hi.
Qed.
End Choice.

(** ** Across a restart *)

Section Restart.
Context {H : DefaultHasher} {HO : HashOrder} {P : Persistence} {PO : PersistenceOk P}.

(** What of an entry survives. *)
Definition restored (e : AddrInfo) : AddrInfo :=
  mkAddrInfo (ai_addr e) (ai_source e) (Z.max (score e) 0) (is_tried e) None None None (success_count e) (failure_count e).
Definition persisted (e : AddrInfo) : PersistedAddrInfo :=
  mkPersisted (addr_to_string (ai_addr e)) (addr_to_string (ai_source e)) (score e) (is_tried e) (success_count e) (failure_count e).
Definition entry_addrs_ok (e : AddrInfo) : Prop := addr_ok (ai_addr e) /\ addr_ok (ai_source e).

#[export] Instance entry_addrs_ok_dec e : Decision (entry_addrs_ok e).
Proof. unfold entry_addrs_ok. apply _. Defined.

Lemma restore_entry_spec m e : addrman_inv m -> entry_addrs_ok e -> map_info m !! ai_addr e = None ->
  addrman_inv (restore_entry m (persisted e)) /\ am_key (restore_entry m (persisted e)) = am_key m /\
  map_info (restore_entry m (persisted e)) = <[ai_addr e := restored e]> (map_info m).
Proof.
  intros I [Ha Hs] Hn. unfold restore_entry, persisted. cbn [p_addr p_source p_score p_tried p_success p_failure].
  rewrite !parse_to_string by done. fold (restored e). set (a := ai_addr e) in *. set (m1 := set_info m a (restored e)).
  pose proof (unknown_unplaced m a I Hn) as U. destruct (update_unplaced m a (restored e) I U eq_refl) as (I1 & U1 & _). fold m1 in I1, U1.
  destruct (is_tried e) eqn:Et.
  - destruct (Nat.ltb_spec (length (bucket_at (tried_buckets m1) (get_tried_bucket m1 a))) ADDRMAN_BUCKET_SIZE) as [Hr|]; [|done].
    assert (map_info m1 !! a = Some (restored e)) as Hm1 by apply lookup_insert_eq.
    by destruct (place_tried m1 a (restored e) I1 eq_refl Et Hm1 U1 Hr) as [I2 _].
  - destruct (Nat.ltb_spec (length (bucket_at (new_buckets m1) (get_new_bucket m1 a (ai_source e)))) ADDRMAN_BUCKET_SIZE) as [Hr|]; [|done].
    by destruct (place_new m a (restored e) I eq_refl Et U) as [I2 _].
Qed.

Lemma restore_all l : forall m, addrman_inv m -> Forall entry_addrs_ok l -> NoDup (map ai_addr l) -> Forall (fun e => map_info m !! ai_addr e = None) l ->
  let m' := fold_left restore_entry (map persisted l) m in
  addrman_inv m' /\ am_key m' = am_key m /\
  forall a, map_info m' !! a = match list_find (fun e => ai_addr e = a) l with Some (_, e) => Some (restored e) | None => map_info m !! a end.
Proof.
  induction l as [|e l IH]; intros m I Hok Hnd Hfresh; [done|]. cbn [map fold_left].
  inversion_clear Hok as [|? ? Hok1 Hok2]. cbn in Hnd. apply NoDup_cons in Hnd as [Hnin Hnd]. inversion_clear Hfresh as [|? ? Hf1 Hf2].
  destruct (restore_entry_spec m e I Hok1 Hf1) as (I1 & Hk1 & Hm1).
  destruct (IH (restore_entry m (persisted e)) I1 Hok2 Hnd) as (I2 & Hk2 & Hm2).
  { rewrite Hm1. apply Forall_forall. intros x Hx. rewrite Forall_forall in Hf2. rewrite lookup_insert_ne; [by apply Hf2|].
    intros Eq. apply Hnin. rewrite Eq. by apply list_elem_of_fmap_2. }
  split_and!; [done|by rewrite Hk2|]. intros a. rewrite Hm2, Hm1. cbn [list_find]. destruct (decide (ai_addr e = a)) as [<-|Hne].
  - destruct (list_find _ l) as [[k x]|] eqn:Ef; [|by rewrite lookup_insert_eq]. apply list_find_Some in Ef as (Hk & Hx & _).
    destruct Hnin. rewrite <- Hx. apply list_elem_of_fmap_2. by eapply list_elem_of_lookup_2.
  - rewrite lookup_insert_ne by done. by destruct (list_find _ l) as [[k x]|].
Qed.

(** The address table survives a restart: what [save] wrote and [load_or_default]
    reads has the same addresses with their sources, states and counts, negative
    scores raised to zero and bans and times forgotten, under the same bucket key, in
    consistent buckets. *)
Lemma peers_file_roundtrip (m : AddrMan) (key : bytes) : addrman_inv m -> map_Forall (fun _ e => entry_addrs_ok e) (map_info m) ->
  let m' := load_or_default key (Some (save m)) in
  addrman_inv m' /\ am_key m' = am_key m /\ (forall a, map_info m' !! a = restored <$> map_info m !! a).
Proof.
  intros I Hok m'. unfold m', load_or_default, save. rewrite deserialize_serialize. cbn [snap_key snap_entries].
  set (l := (visit (map_info m)).*2). change (map _ l) with (map persisted l).
  assert (forall a e, (a, e) ∈ visit (map_info m) -> ai_addr e = a) as Hkeys by (intros a e Hv%visit_elem; by apply I).
  assert (map ai_addr l = (visit (map_info m)).*1) as El.
  { unfold l. revert Hkeys. generalize (visit (map_info m)). intros v Hv. induction v as [|[a e] v IH]; [done|]. cbn. f_equal; [apply Hv; constructor|].
    apply IH. intros x y Hxy. apply Hv. by constructor. }
  destruct (fresh_inv (am_key m)) as [I0 _].
  destruct (restore_all l (AddrMan_new (am_key m)) I0) as (I1 & Hk & Hm).
  - apply Forall_forall. intros e [[a i] [-> Hv%visit_elem]]%list_elem_of_fmap. exact (Hok a i Hv).
  - rewrite El, visit_perm. apply NoDup_fst_map_to_list.
  - apply Forall_forall. intros e _. apply lookup_empty.
  - split_and!; [done..|]. intros a. rewrite Hm. destruct (list_find _ l) as [[k e]|] eqn:Ef.
    + apply list_find_Some in Ef as (He%list_elem_of_lookup_2 & Ea & _). apply list_elem_of_fmap in He as ([x y] & -> & Hv). cbn in *.
      pose proof (Hkeys x y Hv) as Ex. apply visit_elem in Hv. rewrite <- Ea, Ex, Hv. done.
    + cbn. rewrite lookup_empty. destruct (map_info m !! a) as [e|] eqn:Ea; [|done]. apply list_find_None in Ef.
      rewrite Forall_forall in Ef. destruct (Ef e); [|by apply (inv_keys m I)]. apply list_elem_of_fmap. exists (a, e). split; [done|]. by apply visit_elem.
Qed.
End Restart.

(** ** A concrete table *)

(** A hasher that adds up the bytes. *)
Definition demo_hasher : DefaultHasher := fun l => fold_left Z.add (concat l) 0.
Definition demo_addr (n : Z) : SocketAddr := mkSocketAddr (V4 [10; 0; 0; n]) 8333.
Definition demo_source : SocketAddr := mkSocketAddr (V4 [0; 0; 0; 0]) 0.
Definition demo_key : bytes := replicate 32 7.
Definition demo_table : AddrMan := @add demo_hasher (@add demo_hasher (AddrMan_new demo_key) (demo_addr 1) demo_source) (demo_addr 2) demo_source.

Lemma demo_table_inv : @addrman_inv demo_hasher demo_table /\ @complete demo_hasher demo_table.
Proof.
  destruct (@fresh_inv demo_hasher demo_key) as [I C]. destruct (@add_spec demo_hasher _ (demo_addr 1) demo_source I) as (I1 & C1 & _).
  destruct (@add_spec demo_hasher _ (demo_addr 2) demo_source I1) as (I2 & C2 & _). split; [exact I2|]. apply C2, C1, C.
Qed.

Lemma addrman_consistent_witness :
  @addrman_inv demo_hasher (@run_addr_ops demo_hasher demo_table [OpSuccess 5 6 (demo_addr 1); OpFailure 7 7 (demo_addr 2); OpAdd (demo_addr 3) demo_source]).
Proof.
  apply (@addrman_consistent demo_hasher demo_table [OpSuccess 5 6 (demo_addr 1); OpFailure 7 7 (demo_addr 2); OpAdd (demo_addr 3) demo_source]).
  - exact (proj1 demo_table_inv).
  - exact (proj2 demo_table_inv).
Defined.

(** Announcing another group's addresses from another group of sources. *)
Definition demo_announced : list (SocketAddr * SocketAddr) :=
  map (fun n => (mkSocketAddr (V4 [77; 1; 0; Z.of_nat n]) 8333, mkSocketAddr (V4 [77; 2; 0; 0]) 8333)) (seq 0 100).
Lemma announcements_confined_witness :
  map_info (fold_left (fun m p => @add demo_hasher m p.1 p.2) demo_announced demo_table) !! demo_addr 1 = Some (AddrInfo_new (demo_addr 1) demo_source).
Proof.
  apply (@announcements_confined demo_hasher demo_table [77; 1] [77; 2] demo_announced (demo_addr 1) (AddrInfo_new (demo_addr 1) demo_source)).
  - exact (proj1 demo_table_inv).
  - apply (bool_decide_unpack _). vm_compute. exact I.
  - vm_compute. reflexivity.
  - right. vm_compute. discriminate.
Defined.

(** A text form of addresses and of snapshots, for the addresses of the example. *)
Definition demo_text (a : SocketAddr) : bytes := match ip a with V4 o => 4 :: o | V6 o => 6 :: o end ++ le_bytes 2 (port a).
Definition demo_parse (s : bytes) : option SocketAddr :=
  match s with
  | tag :: s =>
    let n := if tag =? 4 then 4%nat else 16%nat in
    Some (mkSocketAddr (if tag =? 4 then V4 (take n s) else V6 (take n s)) (of_le (drop n s)))
  | [] => None
  end.
Definition snapshot_fields (s : AddrManSnapshot) : bytes * list (bytes * bytes * Z * bool * Z * Z) :=
  (snap_key s, map (fun e => (p_addr e, p_source e, p_score e, p_tried e, p_success e, p_failure e)) (snap_entries s)).
Definition snapshot_of (f : bytes * list (bytes * bytes * Z * bool * Z * Z)) : AddrManSnapshot :=
  mkSnapshot f.1 (map (fun '(a, s, c, t, x, y) => mkPersisted a s c t x y) f.2).
Definition demo_persistence : Persistence := {|
  addr_to_string := demo_text;
  addr_parse := demo_parse;
  bincode_serialize s := [Zpos (encode (snapshot_fields s))];
  bincode_deserialize b := match b with [Zpos p] => snapshot_of <$> decode p | _ => None end;
|}.
#[local] Instance demo_persistence_ok : PersistenceOk demo_persistence.
Proof.
  split.
  - intros [[o|o] p] [[Hl Hb] Hp]; cbn; (rewrite take_app_eq, drop_app_length' by done); by rewrite (le_bytes_small 2).
  - intros [k l]. cbn. rewrite decode_encode. cbn. unfold snapshot_of. cbn. do 2 f_equal.
    induction l as [|[] l IH]; [done|]. cbn. by rewrite IH.
Qed.

Lemma peers_file_roundtrip_witness :
  map_info (@load_or_default demo_hasher demo_persistence [] (Some (@save canonical_order demo_persistence demo_table))) !! demo_addr 1
  = Some (AddrInfo_new (demo_addr 1) demo_source).
Proof.
  pose proof (@peers_file_roundtrip demo_hasher canonical_order demo_persistence demo_persistence_ok demo_table [] (proj1 demo_table_inv)) as Hrt.
  rewrite (proj2 (proj2 (Hrt ltac:(apply (bool_decide_unpack _); vm_compute; exact I)))). vm_compute. reflexivity.
Defined.
