(* ===== verification/Sync.v ===== *)
(** * The state of block synchronisation

    net/p2p/sync/sync_manager.rs: which blocks are being downloaded from whom, the
    outstanding header request, the tips, and the interface of the chain the
    downloader works for (net/p2p/sync/mod.rs).

    [Instant]s and [Duration]s are nanoseconds; a call that reads the clock several
    times takes a function from the readings.  The wake-ups of [Notify] are not
    modelled: they only decide when the downloader runs next. *)

From S2P Require Import Prelude Hash Block P2P AddrMan.

(** ** State *)

(** The peer, the time of the request and the height of each block in flight. *)
Abbreviation InFlight := (SocketAddr * Z * Z)%type.
Definition flight_peer (f : InFlight) : SocketAddr := f.1.1.
Definition flight_start (f : InFlight) : Z := f.1.2.
Definition flight_height (f : InFlight) : Z := f.2.

Record SyncDownloadState : Type := mkDownload {
  in_flight_blocks : gmap BlockHash InFlight;
  peer_workload : gmap SocketAddr nat;
  failed_block_peers : gmap BlockHash (list SocketAddr);
}.
Definition SyncDownloadState_default : SyncDownloadState := mkDownload ∅ ∅ ∅.

Record HeaderRequestState : Type := mkHeaderRequest {
  hr_peer : SocketAddr;
  hr_tip : BlockHash;
  hr_height : Z;
  requested_at : Z;
}.

Record SyncManager : Type := mkSync {
  sm_syncing : bool;
  sm_headers_tip : BlockHash;
  sm_headers_height : Z;
  sm_blocks_tip : BlockHash;
  sm_blocks_height : Z;
  last_header_time : Z;
  download_state : SyncDownloadState;
  peer_heights : gmap SocketAddr Z;
  header_request : option HeaderRequestState;
  header_sync_cooldowns : gmap SocketAddr Z;
  stalling_timeout_secs : Z;
}.

Definition with_tips (headers_tip : BlockHash) (headers_height : Z) (blocks_tip : BlockHash) (blocks_height last_header_time : Z) : SyncManager :=
  mkSync false headers_tip headers_height blocks_tip blocks_height last_header_time SyncDownloadState_default ∅ None ∅ 2.
Definition SyncManager_new : SyncManager := with_tips ZERO_HASH 0 ZERO_HASH 0 0.

Definition on_download (f : SyncDownloadState -> SyncDownloadState) (s : SyncManager) : SyncManager :=
  mkSync (sm_syncing s) (sm_headers_tip s) (sm_headers_height s) (sm_blocks_tip s) (sm_blocks_height s) (last_header_time s)
    (f (download_state s)) (peer_heights s) (header_request s) (header_sync_cooldowns s) (stalling_timeout_secs s).
Definition with_header_request (r : option HeaderRequestState) (s : SyncManager) : SyncManager :=
  mkSync (sm_syncing s) (sm_headers_tip s) (sm_headers_height s) (sm_blocks_tip s) (sm_blocks_height s) (last_header_time s)
    (download_state s) (peer_heights s) r (header_sync_cooldowns s) (stalling_timeout_secs s).
Definition with_cooldowns (c : gmap SocketAddr Z) (s : SyncManager) : SyncManager :=
  mkSync (sm_syncing s) (sm_headers_tip s) (sm_headers_height s) (sm_blocks_tip s) (sm_blocks_height s) (last_header_time s)
    (download_state s) (peer_heights s) (header_request s) c (stalling_timeout_secs s).

(** ** Tips *)

Definition set_syncing (syncing : bool) (s : SyncManager) : SyncManager :=
  mkSync syncing (sm_headers_tip s) (sm_headers_height s) (sm_blocks_tip s) (sm_blocks_height s) (last_header_time s)
    (download_state s) (peer_heights s) (header_request s) (header_sync_cooldowns s) (stalling_timeout_secs s).
Definition update_headers_tip (hash : BlockHash) (height timestamp : Z) (s : SyncManager) : SyncManager :=
  if sm_headers_height s <=? height
  then mkSync (sm_syncing s) hash height (sm_blocks_tip s) (sm_blocks_height s) timestamp
         (download_state s) (peer_heights s) (header_request s) (header_sync_cooldowns s) (stalling_timeout_secs s)
  else s.
Definition update_blocks_tip (hash : BlockHash) (height : Z) (s : SyncManager) : SyncManager :=
  if sm_blocks_height s <=? height
  then mkSync (sm_syncing s) (sm_headers_tip s) (sm_headers_height s) hash height (last_header_time s)
         (download_state s) (peer_heights s) (header_request s) (header_sync_cooldowns s) (stalling_timeout_secs s)
  else s.
Definition sm_get_headers_tip (s : SyncManager) : BlockHash * Z := (sm_headers_tip s, sm_headers_height s).
Definition sm_get_blocks_tip (s : SyncManager) : BlockHash * Z := (sm_blocks_tip s, sm_blocks_height s).

(** [now] is the seconds of the system clock. *)
Definition is_ibd (now : Z) (s : SyncManager) : bool :=
  sm_syncing s || (last_header_time s =? 0) || (wrap_u 64 (last_header_time s + 86400) <? now) ||
  (wrap_u 32 (sm_blocks_height s + 144) <? sm_headers_height s).

Definition update_peer_height (addr : SocketAddr) (height : Z) (s : SyncManager) : SyncManager :=
  mkSync (sm_syncing s) (sm_headers_tip s) (sm_headers_height s) (sm_blocks_tip s) (sm_blocks_height s) (last_header_time s)
    (download_state s) (<[addr := height]> (peer_heights s)) (header_request s) (header_sync_cooldowns s) (stalling_timeout_secs s).
Definition get_peer_height (s : SyncManager) (addr : SocketAddr) : Z := default 0 (peer_heights s !! addr).

Definition get_stalling_timeout (s : SyncManager) : Z := stalling_timeout_secs s.
Definition halve_stalling_timeout (s : SyncManager) : SyncManager :=
  if 2 <? stalling_timeout_secs s
  then mkSync (sm_syncing s) (sm_headers_tip s) (sm_headers_height s) (sm_blocks_tip s) (sm_blocks_height s) (last_header_time s)
         (download_state s) (peer_heights s) (header_request s) (header_sync_cooldowns s) (Z.max (stalling_timeout_secs s / 2) 2)
  else s.

(** ** Blocks in flight *)

Definition mark_in_flight (now : Z) (hash : BlockHash) (peer_addr : SocketAddr) (height : Z) (d : SyncDownloadState) : SyncDownloadState :=
  mkDownload (<[hash := (peer_addr, now, height)]> (in_flight_blocks d))
    (<[peer_addr := S (default 0%nat (peer_workload d !! peer_addr))]> (peer_workload d)) (failed_block_peers d).
Definition mark_block_in_flight now hash peer_addr height : SyncManager -> SyncManager := on_download (mark_in_flight now hash peer_addr height).

Definition mark_received (hash : BlockHash) (d : SyncDownloadState) : SyncDownloadState :=
  match in_flight_blocks d !! hash with
  | Some f => mkDownload (delete hash (in_flight_blocks d)) (alter Nat.pred (flight_peer f) (peer_workload d)) (failed_block_peers d)
  | None => d
  end.
Definition mark_block_received hash : SyncManager -> SyncManager := on_download (mark_received hash).

Definition is_block_in_flight (s : SyncManager) (hash : BlockHash) : bool := bool_decide (is_Some (in_flight_blocks (download_state s) !! hash)).
Definition workload_of (d : SyncDownloadState) (peer_addr : SocketAddr) : nat := default 0%nat (peer_workload d !! peer_addr).
Definition get_peer_workload (s : SyncManager) (peer_addr : SocketAddr) : nat := workload_of (download_state s) peer_addr.
Definition get_in_flight_count (s : SyncManager) : nat := size (in_flight_blocks (download_state s)).

Definition record_stumble (hash : BlockHash) (peer_addr : SocketAddr) (d : SyncDownloadState) : SyncDownloadState :=
  mkDownload (in_flight_blocks d) (peer_workload d) (<[hash := default [] (failed_block_peers d !! hash) ++ [peer_addr]]> (failed_block_peers d)).
Definition record_block_stumble hash peer_addr : SyncManager -> SyncManager := on_download (record_stumble hash peer_addr).
Definition can_peer_download_block (s : SyncManager) (hash : BlockHash) (peer_addr : SocketAddr) : bool :=
  match failed_block_peers (download_state s) !! hash with
  | Some blacklisted_peers => negb (bool_decide (peer_addr ∈ blacklisted_peers))
  | None => true
  end.

Definition clear_flight (d : SyncDownloadState) : SyncDownloadState := mkDownload ∅ ∅ (failed_block_peers d).
Definition clear_in_flight : SyncManager -> SyncManager := on_download clear_flight.
Definition clear_failed (d : SyncDownloadState) : SyncDownloadState := mkDownload (in_flight_blocks d) (peer_workload d) ∅.
Definition clear_blacklist : SyncManager -> SyncManager := on_download clear_failed.

Section Visiting.
Context {HO : HashOrder}.

(** The block of the smallest height, the first visited of them. *)
Definition get_bottleneck_info (now : Z) (s : SyncManager) : option (BlockHash * SocketAddr * Z) :=
  let bottleneck := fold_left (fun best e =>
    match best with
    | Some b => if flight_height e.2 <? flight_height b.2 then Some e else Some b
    | None => Some e
    end) (visit (in_flight_blocks (download_state s))) None in
  (fun e => (e.1, flight_peer e.2, as_secs (elapsed now (flight_start e.2)))) <$> bottleneck.

(** [now h] is the clock when the entry of [h] is visited. *)
Definition expired (now : BlockHash -> Z) (timeout : Z) (e : BlockHash * InFlight) : bool := timeout <=? elapsed (now e.1) (flight_start e.2).
Definition note_failure (failed : gmap BlockHash (list SocketAddr)) (e : BlockHash * InFlight) : gmap BlockHash (list SocketAddr) :=
  let peers := default [] (failed !! e.1) in
  <[e.1 := if bool_decide (flight_peer e.2 ∈ peers) then peers else peers ++ [flight_peer e.2]]> failed.
Definition prune (now : BlockHash -> Z) (timeout : Z) (d : SyncDownloadState) : list SocketAddr * SyncDownloadState :=
  let timed_out := filter (fun e => expired now timeout e) (visit (in_flight_blocks d)) in
  let count addr := length (filter (fun e => flight_peer e.2 = addr) timed_out) in
  (map (fun e => flight_peer e.2) timed_out,
   mkDownload (filter (fun e => expired now timeout e = false) (in_flight_blocks d))
     (map_imap (fun addr n => Some (n - count addr)%nat) (peer_workload d))
     (fold_left note_failure timed_out (failed_block_peers d))).
Definition prune_timeouts now timeout (s : SyncManager) : list SocketAddr * SyncManager :=
  ((prune now timeout (download_state s)).1, on_download (fun d => (prune now timeout d).2) s).

Definition recalculate (d : SyncDownloadState) : SyncDownloadState :=
  mkDownload (in_flight_blocks d)
    (fold_left (fun w e => <[flight_peer e.2 := S (default 0%nat (w !! flight_peer e.2))]> w) (visit (in_flight_blocks d)) ∅) (failed_block_peers d).
Definition recalculate_workloads : SyncManager -> SyncManager := on_download recalculate.
End Visiting.

(** ** The header request *)

Definition can_peer_sync_headers (now : Z) (peer_addr : SocketAddr) (s : SyncManager) : bool * SyncManager :=
  let cooldowns := filter (fun e => now < e.2) (header_sync_cooldowns s) in
  (negb (bool_decide (is_Some (cooldowns !! peer_addr))), with_cooldowns cooldowns s).

(** The readings of the clock: for the cooldowns, for the age of the request, for the
    end of its peer's cooldown, for the new request. *)
Record Readings : Type := mkReadings { at_cooldowns : Z; at_age : Z; at_penalty : Z; at_request : Z }.
Definition try_begin_header_request (now : Readings) (peer_addr : SocketAddr) (locator_tip : BlockHash) (locator_height timeout : Z)
    (s : SyncManager) : bool * SyncManager :=
  let '(can, s) := can_peer_sync_headers (at_cooldowns now) peer_addr s in
  if negb can then (false, s) else
  let request := Some (mkHeaderRequest peer_addr locator_tip locator_height (at_request now)) in
  match header_request s with
  | Some existing =>
    if elapsed (at_age now) (requested_at existing) <? timeout then (false, s) else
    let s := with_header_request None
      (with_cooldowns (<[hr_peer existing := at_penalty now + timeout]> (header_sync_cooldowns s)) s) in
    if bool_decide (hr_peer existing = peer_addr) then (false, s) else (true, with_header_request request s)
  | None => (true, with_header_request request s)
  end.

Definition finish_header_request (peer_addr : SocketAddr) (s : SyncManager) : SyncManager :=
  let s := match header_request s with
           | Some r => if bool_decide (hr_peer r = peer_addr) then with_header_request None s else s
           | None => s
           end in
  with_cooldowns (delete peer_addr (header_sync_cooldowns s)) s.
Definition has_header_request_in_flight (s : SyncManager) : bool := bool_decide (is_Some (header_request s)).

Definition release_peer (addr : SocketAddr) (d : SyncDownloadState) : SyncDownloadState :=
  mkDownload (filter (fun e => flight_peer e.2 <> addr) (in_flight_blocks d)) (delete addr (peer_workload d)) (failed_block_peers d).
Definition on_peer_disconnect (addr : SocketAddr) (s : SyncManager) : SyncManager :=
  finish_header_request addr (on_download (release_peer addr) s).
