(* ===== verification/PeerTable.v ===== *)
(** * The registry of connected peers

    net/p2p/peer_table.rs and net/p2p/net_types.rs: the connected peers, their
    scores and bans, and the choice of addresses to connect to.

    A handle's channel and cancellation token are the transport; what the table asks
    of them is the [Effect] an operation returns.  The locks are held for one operation
    at a time, so the operations are the atomic steps. *)

From S2P Require Import Prelude Wire Hash P2P AddrMan.

(** ** Connections *)

Inductive ConnectionType : Type := Inbound | OutboundFullRelay | BlockRelayOnly | Feeler.
#[export] Instance ConnectionType_eq_dec : EqDecision ConnectionType.
Proof. solve_decision. Defined.

Definition DEFAULT_MAX_PEER_CONNECTIONS : nat := 125.
Definition MAX_OUTBOUND_FULL_RELAY_CONNECTIONS : nat := 8.
Definition MAX_BLOCK_RELAY_ONLY_CONNECTIONS : nat := 2.
Definition MAX_FEELER_CONNECTIONS : nat := 1.
Definition MAX_INBOUND_CONNECTIONS : nat :=
  (DEFAULT_MAX_PEER_CONNECTIONS - MAX_OUTBOUND_FULL_RELAY_CONNECTIONS - MAX_BLOCK_RELAY_ONLY_CONNECTIONS)%nat.

Definition is_tx_relay_connection (c : ConnectionType) : bool :=
  match c with Inbound | OutboundFullRelay => true | BlockRelayOnly | Feeler => false end.
Definition is_ephemeral (c : ConnectionType) : bool := match c with Feeler => true | _ => false end.
Definition is_outbound (c : ConnectionType) : bool := match c with Inbound => false | _ => true end.

(** [NodeId] is the socket address. *)
Abbreviation NodeId := SocketAddr.
Record NodeHandle : Type := mkHandle { nh_addr : NodeId; nh_services : Z; nh_conn : ConnectionType }.

(** What reaches a peer's transport. *)
Inductive Effect : Type := Send (to : NodeId) (m : Message) | Disconnect (peer : NodeId).

(** ** The table *)

Record PeerTable : Type := mkTable {
  pt_peers : gmap SocketAddr NodeHandle;
  ban_list : gmap IpAddr Z;
  scores : gmap SocketAddr Z;
  pt_addr_man : AddrMan;
}.
Definition PeerTable_new (m : AddrMan) : PeerTable := mkTable ∅ ∅ ∅ m.
Definition with_peers (t : PeerTable) (p : gmap SocketAddr NodeHandle) : PeerTable := mkTable p (ban_list t) (scores t) (pt_addr_man t).
Definition with_addr_man (t : PeerTable) (m : AddrMan) : PeerTable := mkTable (pt_peers t) (ban_list t) (scores t) m.

Definition add_peer (h : NodeHandle) (t : PeerTable) : PeerTable := with_peers t (<[nh_addr h := h]> (pt_peers t)).
Definition remove_peer (addr : SocketAddr) (t : PeerTable) : PeerTable := with_peers t (delete addr (pt_peers t)).

Definition BAN_SECONDS : Z := 86400.
Definition MISBEHAVIOR_LIMIT : Z := 100.
(** [now] is the clock when the ban begins. *)
Definition ban_peer_internal (now : Z) (addr : SocketAddr) (t : PeerTable) : option NodeHandle * PeerTable :=
  (pt_peers t !! addr, mkTable (delete addr (pt_peers t)) (<[ip addr := now + from_secs BAN_SECONDS]> (ban_list t)) (scores t) (pt_addr_man t)).

(** The readings of the clock of one ban. *)
Record BanClock : Type := mkBanClock { at_ban : Z; at_attempt : Z; at_addr_ban : Z }.
Definition finish_ban (now : BanClock) (addr : SocketAddr) (peer_to_disconnect : option NodeHandle) (t : PeerTable) : PeerTable * list Effect :=
  (with_addr_man t (record_failure (at_attempt now) (at_addr_ban now) (pt_addr_man t) addr),
   match peer_to_disconnect with Some peer => [Disconnect (nh_addr peer)] | None => [] end).

Definition record_misbehavior (now : BanClock) (addr : SocketAddr) (how_much : Z) (t : PeerTable) : PeerTable * list Effect :=
  let current := wrap_s 32 (default 0 (scores t !! addr) + how_much) in
  let t := mkTable (pt_peers t) (ban_list t) (<[addr := current]> (scores t)) (pt_addr_man t) in
  if MISBEHAVIOR_LIMIT <=? current
  then let '(peer, t) := ban_peer_internal (at_ban now) addr t in finish_ban now addr peer t
  else (t, []).
Definition record_critical_failure (now : BanClock) (addr : SocketAddr) (t : PeerTable) : PeerTable * list Effect :=
  let '(peer, t) := ban_peer_internal (at_ban now) addr t in finish_ban now addr peer t.
Definition pt_is_banned (now : Z) (t : PeerTable) (i : IpAddr) : bool :=
  match ban_list t !! i with Some expiry => now <? expiry | None => false end.
Definition get_score (t : PeerTable) (addr : SocketAddr) : Z := default 0 (scores t !! addr).

(** ** Counting and choosing *)

Definition get_peer_count (t : PeerTable) : nat := size (pt_peers t).
Definition count_peers (p : NodeHandle -> bool) (t : PeerTable) : nat := length (filter (fun h => p h) (map_to_list (pt_peers t)).*2).
Definition get_peer_count_by_type (t : PeerTable) (c : ConnectionType) : nat := count_peers (fun h => bool_decide (nh_conn h = c)) t.
Definition get_outbound_peer_count (t : PeerTable) : nat := count_peers (fun h => is_outbound (nh_conn h) && negb (is_ephemeral (nh_conn h))) t.
Record ConnectionCounts : Type := mkCounts { inbound : nat; outbound_full_relay : nat; block_relay_only : nat; feeler : nat }.
Definition total (c : ConnectionCounts) : nat := (inbound c + outbound_full_relay c + block_relay_only c + feeler c)%nat.
Definition count_one (c : ConnectionCounts) (h : NodeHandle) : ConnectionCounts :=
  match nh_conn h with
  | Inbound => mkCounts (S (inbound c)) (outbound_full_relay c) (block_relay_only c) (feeler c)
  | OutboundFullRelay => mkCounts (inbound c) (S (outbound_full_relay c)) (block_relay_only c) (feeler c)
  | BlockRelayOnly => mkCounts (inbound c) (outbound_full_relay c) (S (block_relay_only c)) (feeler c)
  | Feeler => mkCounts (inbound c) (outbound_full_relay c) (block_relay_only c) (S (feeler c))
  end.
Definition get_connection_counts (t : PeerTable) : ConnectionCounts :=
  fold_left count_one (map_to_list (pt_peers t)).*2 (mkCounts 0 0 0 0).

Definition push_address_variants (addresses : list SocketAddr) (addr : SocketAddr) : list SocketAddr :=
  addresses ++ addr ::
  match ip addr with
  | V4 o => [mkSocketAddr (V6 (to_ipv6_mapped o)) (port addr)]
  | V6 o => match to_ipv4_mapped o with Some v4 => [mkSocketAddr (V4 v4) (port addr)] | None => [] end
  end.

Section Choosing.
Context {HO : HashOrder}.

Definition serves (service_filter : option Z) (h : NodeHandle) : bool :=
  match service_filter with Some mask => Z.land (nh_services h) mask =? mask | None => true end.
Definition get_peers (t : PeerTable) (service_filter : option Z) : list NodeHandle :=
  filter (fun h => serves service_filter h) (visit (pt_peers t)).*2.
Definition get_best_peer (t : PeerTable) : option NodeHandle :=
  snd <$> list_find (fun h => ban_list t !! ip (nh_addr h) = None) (visit (pt_peers t)).*2.
Definition clear (t : PeerTable) : PeerTable * list Effect :=
  (with_peers t ∅, map (fun h => Disconnect (nh_addr h)) (visit (pt_peers t)).*2).

Definition excluded (t : PeerTable) (pending : list SocketAddr) : list SocketAddr :=
  fold_left push_address_variants ((visit (pt_peers t)).*1 ++ pending) [].
(** The choice under the lock of the address manager; [now a] is the clock when the
    entry of [a] is looked at. *)
Definition select_address (now : SocketAddr -> Z) (t : PeerTable) (exclude : list SocketAddr) : option SocketAddr :=
  match select_best_ipv4 now (pt_addr_man t) exclude with
  | Some addr => Some addr
  | None => select_best now (pt_addr_man t) exclude
  end.
Definition get_best_address (now : SocketAddr -> Z) (t : PeerTable) (pending : list SocketAddr) : option SocketAddr :=
  select_address now t (excluded t pending).
Definition get_addresses (shuffle : list nat -> list nat) (now : SocketAddr -> Z) (t : PeerTable) : list NetAddr :=
  get_random_sample shuffle now (pt_addr_man t) 1000.
End Choosing.

Definition pt_record_success {H : DefaultHasher} (connected attempt : Z) (addr : SocketAddr) (t : PeerTable) : PeerTable :=
  with_addr_man t (record_success connected attempt (pt_addr_man t) addr).
Definition add_addresses {H : DefaultHasher} (addresses : list NetAddr) (source : SocketAddr) (t : PeerTable) : PeerTable :=
  with_addr_man t (fold_left (fun m a => add m (to_socket_addr a) source) addresses (pt_addr_man t)).

(** [PeerDiscovery::seed_from_dns]: each seed that resolved, with its addresses. *)
Definition unspecified : SocketAddr := mkSocketAddr (V4 [0; 0; 0; 0]) 0.
Definition seed_from_dns {H : DefaultHasher} (resolved : list (option (list SocketAddr))) (t : PeerTable) : PeerTable :=
  fold_left (fun t r => match r with Some addrs => add_addresses (map from_socket_addr addrs) unspecified t | None => t end) resolved t.
