(* ===== verification/Peers.v ===== *)
(** * The peer manager and the state of the network layer

    net/p2p/peer_manager.rs, with the trait of sync/mod.rs.  The peer manager, the
    downloader, the initiator and the connection manager share, through [Arc]s, one
    peer table, one sync manager and one chain: the fields of [Net].  The connection
    manager has an address manager and a ban list of its own.

    A handler of the peer manager runs to its end before the next one starts (the
    interleaving of its tasks is in PeerTasks); the loops of the initiator and the
    tasks of single connections are cut at their awaits and keep where they stand in
    [n_tasks].  The readings of the clock, the outcome of sends and the order of hash
    maps come from [NetEnv] and [HashOrder].  The chain is used through the two traits
    of the source. *)

From S2P Require Import Prelude Wire Hash Transaction Block Params Coins Taproot Engine Validation BlockFile Store Chainstate Node P2P AddrMan Sync PeerTable.

(** ** The interfaces of the chain *)

(** [ValidationInterface] (peer_manager.rs) and [SyncProvider] (sync/mod.rs). *)
Class ValidationInterface (C : Type) : Type := {
  vi_process_headers : Env -> list BlockHeader -> C -> result (list Z) NodeError * C;
  vi_process_block : Env -> Block -> C -> result Z NodeError * C;
  vi_get_block_locator : C -> BlockHash -> list BlockHash;
}.
Class SyncProvider (C : Type) : Type := {
  sp_get_next_block_hashes : C -> Z -> nat -> list BlockHash;
  sp_get_block_locator : C -> BlockHash -> list BlockHash;
  sp_has_next_block_on_disk : C -> Z -> bool;
  sp_get_blocks_tip : C -> BlockHash * Z;
  sp_activate_best_chain : Env -> C -> C;
}.
#[export] Instance blockchain_validation {B E} `{StorageBackend B, Digests, Taproot.Secp, ScriptEngine E} : ValidationInterface (Blockchain B E) := {|
  vi_process_headers := process_headers;
  vi_process_block := process_block;
  vi_get_block_locator := block_locator;
|}.
#[export] Instance blockchain_sync {B E} `{StorageBackend B, Digests, Taproot.Secp, ScriptEngine E} : SyncProvider (Blockchain B E) := {|
  sp_get_next_block_hashes := get_next_block_hashes_for_sync;
  sp_get_block_locator := block_locator;
  sp_has_next_block_on_disk := has_next_block_on_disk;
  sp_get_blocks_tip := get_blocks_tip;
  sp_activate_best_chain env bc := (bc_activate_best_chain env bc).2;
|}.

(** ** State *)

Record Peer : Type := mkPeer { misbehavior_score : Z; last_height : Z; is_discouraged : bool; p_conn : ConnectionType }.
Definition Peer_new (height : Z) (c : ConnectionType) : Peer := mkPeer 0 height false c.

(** The downloader's own fields. *)
Record DownloadProgress : Type := mkDownloadProgress { last_activation_progress : Z; last_tip_height : Z; last_blacklist_clear_height : Z }.
(** The connection manager's own fields. *)
Record Connman : Type := mkConnman { cm_addr_man : AddrMan; cm_ban_list : gmap IpAddr Z; our_nonces : gset Z }.

(** *** Where the connection tasks stand *)

(** What the handshake has learnt of the peer, and which messages have come. *)
Record PeerInfo : Type := mkPeerInfo { pi_version : Z; pi_agent : bytes; pi_height : Z; pi_services : Z }.
Record Handshake : Type := mkHandshake { hs_peer : PeerInfo; got_version : bool; got_verack : bool }.

(** Between two steps of a loop of the initiator: at the timer; before and after the
    count of the connected peers of a type; with [needed] attempts to start, at the
    head of the loop, before the connected peers are excluded, before an address is
    selected, and with the answer.  [rest] are the types that are left in this turn. *)
Inductive InitiatorPc : Type :=
  | Resting
  | Counting (c : ConnectionType) (target : nat) (rest : list (ConnectionType * nat))
  | Counted (c : ConnectionType) (target active : nat) (rest : list (ConnectionType * nat))
  | Attempting (c : ConnectionType) (needed : nat) (rest : list (ConnectionType * nat))
  | Excluding (c : ConnectionType) (needed : nat) (pending : list SocketAddr) (rest : list (ConnectionType * nat))
  | Selecting (c : ConnectionType) (needed : nat) (exclude : list SocketAddr) (rest : list (ConnectionType * nat))
  | Selected (c : ConnectionType) (needed : nat) (addr : option SocketAddr) (rest : list (ConnectionType * nat)).

(** Between two steps of the task of a connection: spawned by the initiator, dialling,
    accepted by the listener; in the handshake; and the calls after it, in order.  An
    attempt ends by recording its outcome and leaving the pending ones; [None] is a
    failed handshake. *)
Inductive ConnPc : Type :=
  | CStart
  | CDial
  | CAccepted (stream : bytes)
  | CShake (nonce : Z) (ours : Version) (h : Handshake) (stream : bytes)
  | CAdd (handle : NodeHandle) (height : Z)
  | CInit (handle : NodeHandle) (height : Z)
  | CGetAddr (handle : NodeHandle) (height : Z)
  | CSync (handle : NodeHandle) (height : Z)
  | CTip (handle : NodeHandle) (height : Z)
  | CRequest (handle : NodeHandle) (height : Z) (tip : BlockHash) (tip_height : Z)
  | CLocator (handle : NodeHandle) (height : Z) (tip : BlockHash)
  | CHeaders (handle : NodeHandle) (height : Z) (locator : list BlockHash)
  | CHeight (handle : NodeHandle) (height : Z)
  | CRecord (outcome : option NodeHandle)
  | CDone (outcome : option NodeHandle).
Record ConnTask : Type := mkConnTask { ct_addr : SocketAddr; ct_conn : ConnectionType; ct_pc : ConnPc }.
Record NetTasks : Type := mkNetTasks { fill_pc : InitiatorPc; feeler_pc : InitiatorPc; conn_tasks : list ConnTask }.
Definition no_tasks : NetTasks := mkNetTasks Resting Resting [].

Record Net (C : Type) : Type := mkNet {
  n_table : PeerTable;
  n_sync : SyncManager;
  n_chain : C;
  n_peers : gmap NodeId Peer;
  n_progress : DownloadProgress;
  n_connman : Connman;
  pending_attempts : gmap SocketAddr ConnectionType;
  n_tasks : NetTasks;
}.
Arguments mkNet {C}.
Arguments n_table {C}.
Arguments n_sync {C}.
Arguments n_chain {C}.
Arguments n_peers {C}.
Arguments n_progress {C}.
Arguments n_connman {C}.
Arguments pending_attempts {C}.
Arguments n_tasks {C}.

(** What one run of a handler gets from outside. *)
Record NetEnv : Type := mkNetEnv {
  ne_chain : Env;
  wall : Z;
  instant : Z;
  readings : Readings;
  ban_clock : BanClock;
  prune_clock : BlockHash -> Z;
  flight_clock : BlockHash -> Z;
  peer_clock : SocketAddr -> Z;
  send_ok : NodeId -> bool;
}.

(** ** A state and output monad *)

Definition NetM (C A : Type) : Type := Net C -> A * Net C * list Effect.
Section Monad.
Context {C : Type}.
#[global] Instance NetM_ret : MRet (NetM C) := fun A x n => (x, n, []).
#[global] Instance NetM_bind : MBind (NetM C) := fun A B k m n => let '(x, n1, o1) := m n in let '(y, n2, o2) := k x n1 in (y, n2, o1 ++ o2).
Definition gets {A} (f : Net C -> A) : NetM C A := fun n => (f n, n, []).
Definition change (f : Net C -> Net C) : NetM C unit := fun n => (tt, f n, []).
Definition emit (o : list Effect) : NetM C unit := fun n => (tt, n, o).

Definition set_table (t : PeerTable) (n : Net C) : Net C := mkNet t (n_sync n) (n_chain n) (n_peers n) (n_progress n) (n_connman n) (pending_attempts n) (n_tasks n).
Definition set_sync (s : SyncManager) (n : Net C) : Net C := mkNet (n_table n) s (n_chain n) (n_peers n) (n_progress n) (n_connman n) (pending_attempts n) (n_tasks n).
Definition set_chain (c : C) (n : Net C) : Net C := mkNet (n_table n) (n_sync n) c (n_peers n) (n_progress n) (n_connman n) (pending_attempts n) (n_tasks n).
Definition set_peers (p : gmap NodeId Peer) (n : Net C) : Net C := mkNet (n_table n) (n_sync n) (n_chain n) p (n_progress n) (n_connman n) (pending_attempts n) (n_tasks n).
Definition set_progress (p : DownloadProgress) (n : Net C) : Net C := mkNet (n_table n) (n_sync n) (n_chain n) (n_peers n) p (n_connman n) (pending_attempts n) (n_tasks n).
Definition set_connman (c : Connman) (n : Net C) : Net C := mkNet (n_table n) (n_sync n) (n_chain n) (n_peers n) (n_progress n) c (pending_attempts n) (n_tasks n).
Definition set_pending (p : gmap SocketAddr ConnectionType) (n : Net C) : Net C := mkNet (n_table n) (n_sync n) (n_chain n) (n_peers n) (n_progress n) (n_connman n) p (n_tasks n).
Definition set_tasks (t : NetTasks) (n : Net C) : Net C := mkNet (n_table n) (n_sync n) (n_chain n) (n_peers n) (n_progress n) (n_connman n) (pending_attempts n) t.

(** An operation of the shared sync manager, of the peer table, of the chain. *)
Definition on_sync (f : SyncManager -> SyncManager) : NetM C unit := fun n => (tt, set_sync (f (n_sync n)) n, []).
Definition ask_sync {A} (f : SyncManager -> A * SyncManager) : NetM C A := fun n => let '(x, s) := f (n_sync n) in (x, set_sync s n, []).
Definition on_table (f : PeerTable -> PeerTable) : NetM C unit := fun n => (tt, set_table (f (n_table n)) n, []).
Definition tell_table (f : PeerTable -> PeerTable * list Effect) : NetM C unit := fun n => let '(t, o) := f (n_table n) in (tt, set_table t n, o).
Definition ask_chain {A} (f : C -> A * C) : NetM C A := fun n => let '(x, c) := f (n_chain n) in (x, set_chain c n, []).
Definition when (b : bool) (m : NetM C unit) : NetM C unit := if b then m else mret tt.
Definition each {A} (f : A -> NetM C unit) (l : list A) : NetM C unit := fold_right (fun x k => f x ≫= fun _ => k) (mret tt) l.

(** [NodeHandle::send] on the channel of a peer, which fails when it is closed. *)
Definition send (env : NetEnv) (to : NodeId) (m : Message) : NetM C bool :=
  if send_ok env to then emit [Send to m] ≫= fun _ => mret true else mret false.
End Monad.

(** ** The peer manager (peer_manager.rs) *)

Definition HEADER_REQUEST_TIMEOUT : Z := from_secs 15.
Definition HEADERS_BATCH : nat := 2000.
Definition get_headers (locator : list BlockHash) : Message := MGetHeaders (mkGetHeaders 70015 locator ZERO_HASH).

Section PeerManager.
Context {C : Type} {VI : ValidationInterface C} {D : Digests}.

Definition initialize_node (id : NodeId) (height : Z) (c : ConnectionType) : NetM C unit :=
  change (fun n => set_peers (<[id := Peer_new height c]> (n_peers n)) n).
Definition finalize_node (id : NodeId) : NetM C unit :=
  _ ← change (fun n => set_peers (delete id (n_peers n)) n);
  _ ← on_table (remove_peer id);
  on_sync (on_peer_disconnect id).

Definition misbehaving (env : NetEnv) (id : NodeId) (how_much : Z) : NetM C unit := fun n =>
  match n_peers n !! id with
  | None => (tt, n, [])
  | Some peer =>
    let s := wrap_s 32 (misbehavior_score peer + how_much) in
    let discourage := (100 <=? s) && negb (is_discouraged peer) in
    let peer := mkPeer s (last_height peer) (if discourage then true else is_discouraged peer) (p_conn peer) in
    let n := set_peers (<[id := peer]> (n_peers n)) n in
    tell_table (if discourage then record_critical_failure (ban_clock env) id else record_misbehavior (ban_clock env) id how_much) n
  end.
Definition is_peer_discouraged (n : Net C) (id : NodeId) : bool := match n_peers n !! id with Some p => is_discouraged p | None => false end.

(** The request for the headers after [tip], in the one header slot. *)
Definition request_headers (env : NetEnv) (id : NodeId) (tip : BlockHash) (height : Z) : NetM C unit :=
  began ← ask_sync (try_begin_header_request (readings env) id tip height HEADER_REQUEST_TIMEOUT);
  if began : bool then
    locator ← gets (fun n => vi_get_block_locator (n_chain n) tip);
    sent ← send env id (get_headers locator);
    when (negb sent) (on_sync (finish_header_request id))
  else mret tt.

Definition on_headers (env : NetEnv) (id : NodeId) (hs : list BlockHeader) : NetM C unit :=
  _ ← on_sync (finish_header_request id);
  match hs with
  | [] => mret tt
  | _ =>
    r ← ask_chain (vi_process_headers (ne_chain env) hs);
    match r with
    | Err _ => misbehaving env id 20
    | Ok heights =>
      match last (zip hs heights) with
      | None => mret tt
      | Some (last_header, last_height) =>
        let last_hash := block_hash last_header in
        _ ← when (negb (bool_decide (last_hash = ZERO_HASH))) (on_sync (update_headers_tip last_hash last_height (time last_header)));
        when (length hs =? HEADERS_BATCH)%nat (request_headers env id last_hash last_height)
      end
    end
  end.

Definition on_block (env : NetEnv) (id : NodeId) (b : Block) : NetM C unit :=
  let hash := block_hash (header b) in
  r ← ask_chain (vi_process_block (ne_chain env) b);
  match r with
  | Ok _ => _ ← on_sync halve_stalling_timeout; on_sync (mark_block_received hash)
  | Err _ => _ ← on_sync (mark_block_received hash); misbehaving env id 100
  end.

Definition on_not_found (inventory : list InvVector) : NetM C unit :=
  each (fun item => match inv_type item with
                    | InvBlock | InvWitnessBlock => on_sync (mark_block_received (inv_hash item))
                    | _ => mret tt
                    end) inventory.
Definition on_ping (env : NetEnv) (id : NodeId) (nonce : Z) : NetM C unit :=
  _ ← send env id (MPong (mkPong nonce)); mret tt.

(** [process_message]; announcements are only logged. *)
Definition process_message (env : NetEnv) (id : NodeId) (m : Message) : NetM C unit :=
  match m with
  | MHeaders h => on_headers env id (headers h)
  | MBlock b => on_block env id b
  | MPing p => on_ping env id (ping_nonce p)
  | MNotFound i => on_not_found (inventory i)
  | _ => mret tt
  end.

Definition sync_with_peer (env : NetEnv) (id : NodeId) : NetM C unit :=
  s ← gets n_sync;
  when (is_ibd (wall env) s) (request_headers env id (sm_headers_tip s) (sm_headers_height s)).
End PeerManager.
