(* ===== verification/Downloader.v ===== *)
(** * The block downloader

    net/p2p/sync/block_downloader.rs: the periodic rounds that ask for headers, hand
    out the missing blocks to the peers and connect what has arrived. *)

From S2P Require Import Prelude Wire Hash Transaction Block Chainstate Node P2P AddrMan Sync PeerTable Peers.

Definition BLOCK_DOWNLOAD_WINDOW : Z := 8192.
Definition MAX_BLOCKS_IN_TRANSIT_PER_PEER : nat := 64.
Definition BLOCK_REQUEST_TIMEOUT : Z := from_secs 30.
Definition STALL_SECONDS : Z := 60.
Definition BLACKLIST_CLEAR_BLOCKS : Z := 500.
Definition NO_PROGRESS_SECONDS : Z := 120.
Definition NODE_NETWORK : Z := 1.
Definition NODE_NETWORK_WITNESS : Z := 9.

(** ** Choosing the blocks for a peer *)

(** The loop over the window: blocks nobody is asked for and this peer may deliver. *)
Fixpoint choose (s : SyncManager) (peer : SocketAddr) (capacity : nat) (assigned : gset BlockHash) (missing : list BlockHash)
    : list BlockHash * gset BlockHash :=
  match missing, capacity with
  | [], _ => ([], assigned)
  | _, O => ([], assigned)
  | hash :: missing, S rest =>
    if negb (is_block_in_flight s hash) && negb (bool_decide (hash ∈ assigned)) && can_peer_download_block s hash peer
    then let '(to_request, assigned) := choose s peer rest ({[hash]} ∪ assigned) missing in (hash :: to_request, assigned)
    else choose s peer capacity assigned missing
  end.

(** [b_height + 1 + offset as u32], the offset being the block's place in the window. *)
Definition block_height_in (b_height : Z) (missing : list BlockHash) (hash : BlockHash) : Z :=
  let offset := match list_find (fun r => r = hash) missing with Some (i, _) => i | None => 0%nat end in
  wrap_u 32 (b_height + 1 + wrap_u 32 (Z.of_nat offset)).
Definition get_data (hashes : list BlockHash) : Message := MGetData (mkGetData (map (mkInvVector InvWitnessBlock) hashes)).

Section Downloader.
Context {C : Type} {SP : SyncProvider C} {HO : HashOrder}.

(** ** Headers *)

(** The peers that are not cooling down; each question prunes the cooldowns. *)
Fixpoint sync_peers (now : SocketAddr -> Z) (l : list NodeHandle) (s : SyncManager) : list NodeHandle * SyncManager :=
  match l with
  | [] => ([], s)
  | h :: l =>
    let '(can, s) := can_peer_sync_headers (now (nh_addr h)) (nh_addr h) s in
    let '(hs, s) := sync_peers now l s in
    (if can then h :: hs else hs, s)
  end.
Definition highest_peer (s : SyncManager) (l : list NodeHandle) : option NodeHandle :=
  fold_left (fun best h =>
    match best with
    | Some b => if get_peer_height s (nh_addr b) <=? get_peer_height s (nh_addr h) then Some h else Some b
    | None => Some h
    end) l None.

Definition drop_peer (addr : SocketAddr) : NetM C unit :=
  _ ← on_table (remove_peer addr); on_sync (on_peer_disconnect addr).

Definition coordinate_headers (env : NetEnv) : NetM C unit :=
  s ← gets n_sync;
  if negb (is_ibd (wall env) s) then mret tt else
  t ← gets n_table;
  peers ← ask_sync (sync_peers (peer_clock env) (get_peers t (Some NODE_NETWORK)));
  match highest_peer s peers with
  | None => mret tt
  | Some peer =>
    let peer_height := get_peer_height s (nh_addr peer) in
    if (0 <? peer_height) && (peer_height <=? sm_headers_height s) then mret tt else
    began ← ask_sync (try_begin_header_request (readings env) (nh_addr peer) (sm_headers_tip s) (sm_headers_height s) HEADER_REQUEST_TIMEOUT);
    if negb began then mret tt else
    locator ← gets (fun n => sp_get_block_locator (n_chain n) (sm_headers_tip s));
    sent ← send env (nh_addr peer) (get_headers locator);
    when (negb sent)
      (_ ← on_sync (finish_header_request (nh_addr peer)); drop_peer (nh_addr peer))
  end.

(** ** Blocks *)

(** A block that is stalled although requests are pruned first. *)
Definition check_bottleneck (env : NetEnv) : NetM C unit :=
  b ← gets (fun n => get_bottleneck_info (instant env) (n_sync n));
  match b with
  | Some (hash, peer_addr, duration) =>
    when (STALL_SECONDS <=? duration)
      (_ ← on_sync (record_block_stumble hash peer_addr);
       _ ← tell_table (record_misbehavior (ban_clock env) peer_addr 5);
       on_sync (mark_block_received hash))
  | None => mret tt
  end.

Definition clear_blacklist_on_progress (b_height : Z) : NetM C unit :=
  p ← gets n_progress;
  when (BLACKLIST_CLEAR_BLOCKS <=? Z.max 0 (b_height - last_blacklist_clear_height p))
    (_ ← on_sync clear_blacklist;
     change (set_progress (mkDownloadProgress (last_activation_progress p) (last_tip_height p) b_height))).

(** The stall breaker. *)
Definition break_stall (env : NetEnv) (h_height b_height : Z) : NetM C unit :=
  p ← gets n_progress;
  if last_tip_height p <? b_height
  then change (set_progress (mkDownloadProgress (wall env) b_height (last_blacklist_clear_height p)))
  else
    when ((b_height <? h_height) && (NO_PROGRESS_SECONDS <? Z.max 0 (wall env - last_activation_progress p)))
      (_ ← on_sync clear_in_flight;
       _ ← on_sync clear_blacklist;
       change (set_progress (mkDownloadProgress (wall env) (last_tip_height p) (last_blacklist_clear_height p)))).

(** The request to one peer. *)
Definition request_blocks (env : NetEnv) (b_height : Z) (missing : list BlockHash) (addr : SocketAddr) (to_request : list BlockHash) : NetM C unit :=
  _ ← each (fun hash => on_sync (mark_block_in_flight (flight_clock env hash) hash addr (block_height_in b_height missing hash))) to_request;
  sent ← send env addr (get_data to_request);
  when (negb sent)
    (_ ← each (fun hash => on_sync (mark_block_received hash)) to_request; drop_peer addr).

(** One peer's turn; the blocks assigned so far. *)
Definition serve_peer (env : NetEnv) (b_height : Z) (missing : list BlockHash) (assigned : gset BlockHash) (addr : SocketAddr) : NetM C (gset BlockHash) :=
  s ← gets n_sync;
  let load := get_peer_workload s addr in
  if (MAX_BLOCKS_IN_TRANSIT_PER_PEER <=? load)%nat then mret assigned else
  let '(to_request, assigned) := choose s addr (MAX_BLOCKS_IN_TRANSIT_PER_PEER - load) assigned missing in
  _ ← when (negb (length to_request =? 0)%nat) (request_blocks env b_height missing addr to_request);
  mret assigned.
Fixpoint assign (env : NetEnv) (b_height : Z) (missing : list BlockHash) (assigned : gset BlockHash) (peers : list NodeHandle) : NetM C unit :=
  match peers with
  | [] => mret tt
  | peer :: peers =>
    assigned ← serve_peer env b_height missing assigned (nh_addr peer);
    assign env b_height missing assigned peers
  end.

Definition download_peers (t : PeerTable) : list NodeHandle :=
  match get_peers t (Some NODE_NETWORK_WITNESS) with [] => get_peers t (Some NODE_NETWORK) | l => l end.

(** Everything up to the assignment: the height of the chain, the missing blocks of the
    window and the peers to ask, unless there is nothing to do. *)
Definition prepare_round (env : NetEnv) : NetM C (option (Z * list BlockHash * list NodeHandle)) :=
  _ ← on_sync recalculate_workloads;
  _ ← ask_sync (prune_timeouts (prune_clock env) BLOCK_REQUEST_TIMEOUT);
  _ ← check_bottleneck env;
  s ← gets n_sync;
  '(blocks_tip_hash, b_height) ← gets (fun n => sp_get_blocks_tip (n_chain n));
  _ ← clear_blacklist_on_progress b_height;
  if bool_decide (sm_headers_tip s = blocks_tip_hash) then mret None else
  if bool_decide (sm_headers_tip s = ZERO_HASH) then mret None else
  _ ← break_stall env (sm_headers_height s) b_height;
  missing ← gets (fun n => sp_get_next_block_hashes (n_chain n) b_height (Z.to_nat BLOCK_DOWNLOAD_WINDOW));
  match missing with
  | [] => mret None
  | _ => t ← gets n_table; mret (Some (b_height, missing, download_peers t))
  end.

Definition coordinate_downloads (env : NetEnv) : NetM C unit :=
  r ← prepare_round env;
  match r with
  | None => mret tt
  | Some (b_height, missing, peers) => assign env b_height missing ∅ peers
  end.

(** The connector task. *)
Definition connector_tick (env : NetEnv) : NetM C unit :=
  '(tip_hash, tip_height) ← gets (fun n => sp_get_blocks_tip (n_chain n));
  _ ← on_sync (update_blocks_tip tip_hash tip_height);
  n ← gets id;
  when (is_ibd (wall env) (n_sync n) || sp_has_next_block_on_disk (n_chain n) tip_height)
    (ask_chain (fun c => (tt, sp_activate_best_chain (ne_chain env) c))).
End Downloader.
