(* ===== verification/Connect.v ===== *)
(** * Connections

    net/p2p/connman.rs, net/p2p/initiator.rs and net/p2p/network.rs: the
    version/verack handshake, dialling, the outbound quotas and the inbound slots.

    A stream is the bytes that arrive before the peer closes the connection, and the
    texts of errors are left out.  Nonces are random: they are arguments.

    [handshake] and [connect_addr] are the calls run by themselves, without the timer
    of the handshake.  The loops of the initiator and the tasks of connections, cut
    where they await or take a lock so that anything can happen in between, are
    [initiator_step] and [conn_step]. *)

From S2P Require Import Prelude Wire Hash Transaction Block Params Chainstate Node P2P AddrMan Sync PeerTable Peers.

(** ** The handshake *)

Definition handshake_start : Handshake := mkHandshake (mkPeerInfo 0 [] 0 0) false false.

Section Handshaking.
Context {D : Digests}.

(** Two [read_exact] calls: a header, then the payload it announces. *)
Definition read_message (magic : Magic) (stream : bytes) : result (Message * bytes) P2pError :=
  if (length stream <? 24)%nat then Err ConnectionClosed else
  let? msg_hdr := decode_header (take 24 stream) magic in
  let total_len := (24 + Z.to_nat (mh_length msg_hdr))%nat in
  if (length stream <? total_len)%nat then Err ConnectionClosed else
  let payload := slice stream 24 total_len in
  let? _ := verify_checksum msg_hdr payload in
  let? m := map_err (fun _ => DecodeFailed "payload") (Message_decode (mh_command msg_hdr) payload) in
  Ok (m, drop total_len stream).

(** What is written on the stream in answer to a message, and the new state. *)
Definition handshake_step (magic : Magic) (nonces : gset Z) (is_inbound : bool) (our_version : Version) (h : Handshake) (m : Message)
    : result (Handshake * bytes) P2pError :=
  match m with
  | MVersion v =>
    if got_version h then Err (DuplicateHandshakeMessage "version") else
    if bool_decide (v_nonce v ∈ nonces) then Err SelfConnection else
    if v_version v <? MIN_PEER_PROTO_VERSION then Err (PeerVersionTooOld (v_version v) MIN_PEER_PROTO_VERSION) else
    Ok (mkHandshake (mkPeerInfo (v_version v) (user_agent v) (start_height v) (v_services v)) true (got_verack h),
        (if is_inbound then frame magic (MVersion our_version) else []) ++ frame magic (MVerack mkVerack))
  | MVerack _ =>
    if negb (got_version h) then Err (DecodeFailed "received verack before version during handshake") else
    if got_verack h then Err (DuplicateHandshakeMessage "verack") else
    Ok (mkHandshake (hs_peer h) (got_version h) true, [])
  | _ => Ok (h, [])
  end.

(** Each round reads at least a header, so that the length of the stream is enough
    fuel. *)
Fixpoint handshake_loop (fuel : nat) (magic : Magic) (nonces : gset Z) (is_inbound : bool) (our_version : Version)
    (h : Handshake) (stream sent : bytes) : result (PeerInfo * bytes) P2pError * bytes :=
  match fuel with
  | O => (Err ConnectionClosed, sent)
  | S fuel =>
    match read_message magic stream with
    | Err e => (Err e, sent)
    | Ok (m, stream) =>
      match handshake_step magic nonces is_inbound our_version h m with
      | Err e => (Err e, sent)
      | Ok (h, out) =>
        if got_version h && got_verack h then (Ok (hs_peer h, stream), sent ++ out)
        else handshake_loop fuel magic nonces is_inbound our_version h stream (sent ++ out)
      end
    end
  end.

(** The exchange on an established stream: the result with the rest of the stream, and
    the bytes written. *)
Definition handshake_wire (magic : Magic) (nonces : gset Z) (is_inbound : bool) (our_version : Version) (stream : bytes)
    : result (PeerInfo * bytes) P2pError * bytes :=
  handshake_loop (S (length stream)) magic nonces is_inbound our_version handshake_start stream
    (if is_inbound then [] else frame magic (MVersion our_version)).

Context {C : Type} {VI : ValidationInterface C}.

Definition with_nonces (f : gset Z -> gset Z) : NetM C unit :=
  change (fun n => set_connman (mkConnman (cm_addr_man (n_connman n)) (cm_ban_list (n_connman n)) (f (our_nonces (n_connman n)))) n).

(** [Connman::handshake]: the handle, with what is left of the stream for the read
    loop, and the bytes written. *)
Definition handshake (env : NetEnv) (magic : Magic) (nonce : Z) (stream : bytes) (addr : SocketAddr) (is_inbound : bool) (c : ConnectionType)
    : NetM C (result (NodeHandle * bytes) P2pError * bytes) :=
  _ ← with_nonces (fun s => {[nonce]} ∪ s);
  n ← gets id;
  let v := our_version (wall env) nonce (wrap_s 32 (sm_blocks_height (n_sync n))) (is_tx_relay_connection c) in
  let '(r, sent) := handshake_wire magic (our_nonces (n_connman n)) is_inbound v stream in
  _ ← with_nonces (fun s => s ∖ {[nonce]});
  match r with
  | Err e => mret (Err e, sent)
  | Ok (peer, rest) =>
    let handle := mkHandle addr (pi_services peer) c in
    _ ← on_table (add_peer handle);
    _ ← initialize_node addr (wrap_u 32 (pi_height peer)) c;
    _ ← when (negb is_inbound) (_ ← send env addr (MGetAddr mkGetAddr); mret tt);
    _ ← sync_with_peer env addr;
    _ ← on_sync (update_peer_height addr (wrap_u 32 (pi_height peer)));
    mret (Ok (handle, rest), sent)
  end.

(** ** Dialling *)

Inductive Dial : Type := DialTimeout | DialRefused | DialStream (stream : bytes).
Definition CONNECT_TIMEOUT_SECS : Z := 10.

Definition normalize (a : SocketAddr) : SocketAddr :=
  match ip a with
  | V6 o => match to_ipv4_mapped o with Some v4 => mkSocketAddr (V4 v4) (port a) | None => a end
  | V4 _ => a
  end.
(** [Connman::is_banned], which forgets bans that are over. *)
Definition cm_is_banned (now : Z) (i : IpAddr) : NetM C bool := fun n =>
  let c := n_connman n in
  match cm_ban_list c !! i with
  | Some until =>
    if now <? until then (true, n, [])
    else (false, set_connman (mkConnman (cm_addr_man c) (delete i (cm_ban_list c)) (our_nonces c)) n, [])
  | None => (false, n, [])
  end.
Definition cm_ban (now duration : Z) (i : IpAddr) : NetM C unit :=
  change (fun n => let c := n_connman n in set_connman (mkConnman (cm_addr_man c) (<[i := now + duration]> (cm_ban_list c)) (our_nonces c)) n).
Definition on_cm_addr_man (f : AddrMan -> AddrMan) : NetM C unit :=
  change (fun n => let c := n_connman n in set_connman (mkConnman (f (cm_addr_man c)) (cm_ban_list c) (our_nonces c)) n).

(** [Connman::seed_from_dns] and [with_data_dir], which fill the connection manager's
    own table; [data] is what peers.dat holds. *)
Definition cm_seed_from_dns {H : DefaultHasher} (resolved : list (option (list SocketAddr))) : NetM C unit :=
  on_cm_addr_man (fun m => fold_left (fun m r => match r with Some addrs => add_many m addrs unspecified | None => m end) resolved m).
Definition with_data_dir {H : DefaultHasher} {P : Persistence} (key : bytes) (data : option bytes) : NetM C unit :=
  on_cm_addr_man (fun _ => load_or_default key data).
Definition Connman_new (key : bytes) : Connman := mkConnman (AddrMan_new key) ∅ ∅.

(** [Connman::connect_addr]; [dial] is what the operating system makes of the attempt. *)
Definition connect_addr {H : DefaultHasher} (env : NetEnv) (magic : Magic) (nonce : Z) (dial : Dial) (addr : SocketAddr) (c : ConnectionType)
    : NetM C (result (NodeHandle * bytes) P2pError) :=
  let addr := normalize addr in
  banned ← cm_is_banned (instant env) (ip addr);
  if banned : bool then mret (Err Banned) else
  match dial with
  | DialTimeout => mret (Err (HandshakeTimeout CONNECT_TIMEOUT_SECS))
  | DialRefused => mret (Err ConnectionFailed)
  | DialStream stream =>
    '(r, _) ← handshake env magic nonce stream addr false c;
    match r with
    | Ok (handle, rest) => _ ← on_cm_addr_man (fun m => record_success (instant env) (instant env) m addr); mret (Ok (handle, rest))
    | Err e => _ ← on_cm_addr_man (fun m => record_failure (instant env) (instant env) m addr); mret (Err e)
    end
  end.
End Handshaking.

(** ** Outbound quotas (initiator.rs) *)

Definition connection_deficit (active pending target : nat) : nat := (target - (active + pending))%nat.

Section Initiator.
Context {C : Type} {HO : HashOrder}.

Definition pending_count (n : Net C) (c : ConnectionType) : nat :=
  length (filter (fun p => p = c) (map_to_list (pending_attempts n)).*2).
Definition pending_addresses (n : Net C) : list SocketAddr := (visit (pending_attempts n)).*1.

Definition set_fill (pc : InitiatorPc) (n : Net C) : Net C := set_tasks (mkNetTasks pc (feeler_pc (n_tasks n)) (conn_tasks (n_tasks n))) n.
Definition set_feeler (pc : InitiatorPc) (n : Net C) : Net C := set_tasks (mkNetTasks (fill_pc (n_tasks n)) pc (conn_tasks (n_tasks n))) n.
Definition set_conns (l : list ConnTask) (n : Net C) : Net C := set_tasks (mkNetTasks (fill_pc (n_tasks n)) (feeler_pc (n_tasks n)) l) n.
(** [tokio::spawn] *)
Definition spawn_conn (t : ConnTask) (n : Net C) : Net C := set_conns (conn_tasks (n_tasks n) ++ [t]) n.

(** The types of one turn of [fill_connections], and of [run_feeler]. *)
Definition fill_connections : list (ConnectionType * nat) :=
  [(BlockRelayOnly, MAX_BLOCK_RELAY_ONLY_CONNECTIONS); (OutboundFullRelay, MAX_OUTBOUND_FULL_RELAY_CONNECTIONS)].
Definition run_feeler : list (ConnectionType * nat) := [(Feeler, MAX_FEELER_CONNECTIONS)].
(** [run_feeler] starts one attempt at most. *)
Definition feeler_needed (active pending target : nat) : nat := if (target <=? active + pending)%nat then 0 else 1.
Definition next_type (rest : list (ConnectionType * nat)) : InitiatorPc :=
  match rest with [] => Resting | (c, target) :: rest => Counting c target rest end.

(** One step of a loop: of [fill_type] with [connection_deficit], of [run_feeler] with
    [feeler_needed].  The count of the connected peers, that of the pending attempts
    and the choice of an address are steps of their own. *)
Definition initiator_step (turn : list (ConnectionType * nat)) (needed_of : nat -> nat -> nat -> nat) (env : NetEnv) (pc : InitiatorPc) : NetM C InitiatorPc :=
  match pc with
  | Resting => mret (next_type turn)
  | Counting c target rest => n ← gets id; mret (Counted c target (get_peer_count_by_type (n_table n) c) rest)
  | Counted c target active rest => n ← gets id; mret (Attempting c (needed_of active (pending_count n c) target) rest)
  | Attempting c O rest => mret (next_type rest)
  | Attempting c (S k) rest => n ← gets id; mret (Excluding c (S k) (pending_addresses n) rest)
  | Excluding c needed pending rest => n ← gets id; mret (Selecting c needed (excluded (n_table n) pending) rest)
  | Selecting c needed exclude rest => n ← gets id; mret (Selected c needed (select_address (peer_clock env) (n_table n) exclude) rest)
  | Selected c needed None rest => mret (next_type rest)
  | Selected c needed (Some addr) rest =>
    _ ← change (fun n => set_pending (<[addr := c]> (pending_attempts n)) n);
    _ ← change (spawn_conn (mkConnTask addr c CStart));
    mret (Attempting c (pred needed) rest)
  end.
(** The two loops that [spawn] starts. *)
Definition fill_step (env : NetEnv) : NetM C unit :=
  n ← gets id; pc ← initiator_step fill_connections connection_deficit env (fill_pc (n_tasks n)); change (set_fill pc).
Definition feeler_step (env : NetEnv) : NetM C unit :=
  n ← gets id; pc ← initiator_step run_feeler feeler_needed env (feeler_pc (n_tasks n)); change (set_feeler pc).
End Initiator.

(** ** The tasks of connections *)

Section Tasks.
Context {C : Type} {VI : ValidationInterface C} {D : Digests} {H : DefaultHasher}.

(** The first lines of [handshake]. *)
Definition begin_handshake (env : NetEnv) (nonce : Z) (stream : bytes) (c : ConnectionType) : NetM C ConnPc :=
  _ ← with_nonces (fun s => {[nonce]} ∪ s);
  n ← gets id;
  mret (CShake nonce (our_version (wall env) nonce (wrap_s 32 (sm_blocks_height (n_sync n))) (is_tx_relay_connection c)) handshake_start stream).

(** One step of the task: [connect_addr] and what the initiator does after it, or, for
    an accepted connection, [handshake].  [nonce] and [dial] are used where the task
    draws a nonce and dials; [timer] says that the timer of the handshake has run out.
    [None] is the end of the task. *)
Definition conn_step (env : NetEnv) (magic : Magic) (nonce : Z) (dial : Dial) (timer : bool) (t : ConnTask) : NetM C (option ConnPc) :=
  let inbound := bool_decide (ct_conn t = Inbound) in
  let addr := if inbound then ct_addr t else normalize (ct_addr t) in
  match ct_pc t with
  | CStart => banned ← cm_is_banned (instant env) (ip addr); mret (Some (if banned : bool then CDone None else CDial))
  | CDial =>
    match dial with
    | DialTimeout | DialRefused => mret (Some (CDone None))
    | DialStream stream => pc ← begin_handshake env nonce stream (ct_conn t); mret (Some pc)
    end
  | CAccepted stream => pc ← begin_handshake env nonce stream (ct_conn t); mret (Some pc)
  | CShake nonce ours h stream =>
    let failed := _ ← with_nonces (fun s => s ∖ {[nonce]}); mret (if inbound then None else Some (CRecord None)) in
    if timer then failed else
    match read_message magic stream with
    | Err _ => failed
    | Ok (m, stream) =>
      n ← gets id;
      match handshake_step magic (our_nonces (n_connman n)) inbound ours h m with
      | Err _ => failed
      | Ok (h, _) =>
        if got_version h && got_verack h then
          _ ← with_nonces (fun s => s ∖ {[nonce]});
          mret (Some (CAdd (mkHandle addr (pi_services (hs_peer h)) (ct_conn t)) (wrap_u 32 (pi_height (hs_peer h)))))
        else mret (Some (CShake nonce ours h stream))
      end
    end
  | CAdd handle height => _ ← on_table (add_peer handle); mret (Some (CInit handle height))
  | CInit handle height =>
    _ ← initialize_node addr height (ct_conn t); mret (Some (if inbound then CSync handle height else CGetAddr handle height))
  | CGetAddr handle height => _ ← send env addr (MGetAddr mkGetAddr); mret (Some (CSync handle height))
  | CSync handle height => s ← gets n_sync; mret (Some (if is_ibd (wall env) s then CTip handle height else CHeight handle height))
  | CTip handle height => s ← gets n_sync; mret (Some (CRequest handle height (sm_headers_tip s) (sm_headers_height s)))
  | CRequest handle height tip tip_height =>
    began ← ask_sync (try_begin_header_request (readings env) addr tip tip_height HEADER_REQUEST_TIMEOUT);
    mret (Some (if began : bool then CLocator handle height tip else CHeight handle height))
  | CLocator handle height tip => locator ← gets (fun n => vi_get_block_locator (n_chain n) tip); mret (Some (CHeaders handle height locator))
  | CHeaders handle height locator =>
    sent ← send env addr (get_headers locator);
    _ ← when (negb sent) (on_sync (finish_header_request addr));
    mret (Some (CHeight handle height))
  | CHeight handle height =>
    _ ← on_sync (update_peer_height addr height); mret (if inbound then None else Some (CRecord (Some handle)))
  | CRecord outcome =>
    _ ← on_cm_addr_man (fun m => match outcome with
      | Some _ => record_success (instant env) (instant env) m addr | None => record_failure (instant env) (instant env) m addr end);
    mret (Some (CDone outcome))
  | CDone outcome =>
    _ ← change (fun n => set_pending (delete (ct_addr t) (pending_attempts n)) n);
    _ ← match outcome, ct_conn t with
        | Some handle, Feeler => emit [Disconnect (nh_addr handle)]
        | _, _ => mret tt
        end;
    mret None
  end.

(** A step of the [i]-th task. *)
Definition run_conn (env : NetEnv) (magic : Magic) (nonce : Z) (dial : Dial) (timer : bool) (i : nat) : NetM C unit :=
  n ← gets id;
  match conn_tasks (n_tasks n) !! i with
  | None => mret tt
  | Some t =>
    next ← conn_step env magic nonce dial timer t;
    change (fun n => set_conns (match next with
      | Some pc => <[i := mkConnTask (ct_addr t) (ct_conn t) pc]> (conn_tasks (n_tasks n))
      | None => delete i (conn_tasks (n_tasks n))
      end) n)
  end.
(** What the accept loop does once a connection has a slot. *)
Definition accept_connection (env : NetEnv) (stream : bytes) (addr : SocketAddr) : NetM C unit :=
  banned ← cm_is_banned (instant env) (ip addr);
  if banned : bool then mret tt else change (spawn_conn (mkConnTask addr Inbound (CAccepted stream))).
End Tasks.

(** ** Inbound slots (network.rs) *)

(** [fetch_update]: the new count of pending handshakes, when a slot is free. *)
Definition try_reserve_inbound_slot (pending_inbound active_inbound max_inbound : nat) : option nat :=
  if (active_inbound + pending_inbound <? max_inbound)%nat then Some (S pending_inbound) else None.

(** *** The accept loop and the tasks it starts *)

(** Of the connections that hold a slot, [joined] are already in the peer table;
    [seen] is the count of inbound peers the loop has read for the connection it is
    deciding on. *)
Record AcceptState : Type := mkAccept { active_inbound : nat; pending_inbound : nat; joined : nat; seen : option nat }.
Definition accept_start : AcceptState := mkAccept 0 0 0 None.

(** The loop runs next to the tasks: anything can happen between the reading of the
    count and the reservation. *)
Inductive accept_step (max_inbound : nat) : AcceptState -> AcceptState -> Prop :=
  | count_read a p j : accept_step max_inbound (mkAccept a p j None) (mkAccept a p j (Some a))
  | slot_reserved a p p' j v : try_reserve_inbound_slot p v max_inbound = Some p' -> accept_step max_inbound (mkAccept a p j (Some v)) (mkAccept a p' j None)
  | slot_refused a p j v : try_reserve_inbound_slot p v max_inbound = None -> accept_step max_inbound (mkAccept a p j (Some v)) (mkAccept a p j None)
  | peer_joined a p j v : (j < p)%nat -> accept_step max_inbound (mkAccept a p j v) (mkAccept (S a) p (S j) v)
  | slot_released a p j v : accept_step max_inbound (mkAccept a (S p) (S j) v) (mkAccept a p j v)
  | not_admitted a p j v : (j < S p)%nat -> accept_step max_inbound (mkAccept a (S p) j v) (mkAccept a p j v)
  | peer_left a p j v : accept_step max_inbound (mkAccept (S a) p j v) (mkAccept a p j v).
