(* ===== verification/HandshakeProofs.v ===== *)
(** * Properties of the handshake

    Which streams the version/verack exchange accepts, and that two nodes running it
    against each other agree. *)

From S2P Require Import Prelude Wire Hash Transaction Block Params BlockFile Chainstate Node P2P P2PProofs AddrMan Sync PeerTable Peers Connect.

Section Wire.
Context {D : Digests} {DO : DigestsOk D}.

(** ** Reading messages off a stream *)

(** [ms] are the first messages of the stream, [rest] what follows them. *)
Inductive reads (magic : Magic) : bytes -> list Message -> bytes -> Prop :=
  | reads_nil s : reads magic s [] s
  | reads_cons s m s1 ms rest : read_message magic s = Ok (m, s1) -> reads magic s1 ms rest -> reads magic s (m :: ms) rest.

Lemma read_message_shorter magic s m s1 : read_message magic s = Ok (m, s1) -> (length s1 + 24 <= length s)%nat.
Proof.
  unfold read_message. destruct (Nat.ltb_spec (length s) 24); [done|]. destruct (decode_header _ _) as [hd|]; cbn [rbind]; [|done].
  set (tot := (24 + Z.to_nat (mh_length hd))%nat). destruct (Nat.ltb_spec (length s) tot); [done|].
  destruct (verify_checksum _ _); cbn [rbind]; [|done]. destruct (map_err _ _) as [x|]; cbn [rbind]; [|done]. intros [= <- <-]. rewrite length_drop. unfold tot in *. lia.
Qed.

Lemma read_message_frame magic m rest : magic_ok magic -> sendable m -> read_message magic (frame magic m ++ rest) = Ok (m, rest).
Proof.
  intros Hm (Hok & Hc & Hl). pose proof (length_frame magic m Hm) as Hlen. unfold read_message.
  destruct (Nat.ltb_spec (length (frame magic m ++ rest)) 24) as [Hs|_]; [rewrite length_app in Hs; lia|].
  unfold frame at 1. cbv zeta. rewrite <- app_assoc, take_app_eq by (by rewrite length_encode_header).
  rewrite decode_header_encoded by done. cbn [rbind mh_length mh_command]. rewrite Nat2Z.id.
  destruct (Nat.ltb_spec (length (frame magic m ++ rest)) (24 + length (Message_encode m))) as [Hs|_]; [rewrite length_app in Hs; lia|].
  assert (slice (frame magic m ++ rest) 24 (24 + length (Message_encode m)) = Message_encode m) as ->.
  { unfold frame, slice. cbv zeta. rewrite <- app_assoc, drop_app_length' by (by rewrite length_encode_header). apply take_app_eq. lia. }
  unfold verify_checksum. cbn [mh_checksum]. rewrite bool_decide_true by done. cbn [negb rbind].
  rewrite message_decodes by done. cbn [map_err rbind]. by rewrite <- Hlen, drop_app_length.
Qed.
Lemma reads_frames magic ms rest : magic_ok magic -> Forall sendable ms -> reads magic (concat (map (frame magic) ms) ++ rest) ms rest.
Proof.
  intros Hm. induction 1 as [|m ms H1 _ IH]; [constructor|]. cbn [map concat]. rewrite <- app_assoc. econstructor; [by apply read_message_frame|done].
Qed.
Lemma reads_app magic s ms s1 ms' rest : reads magic s ms s1 -> reads magic s1 ms' rest -> reads magic s (ms ++ ms') rest.
Proof. induction 1; [done|]. intros Hr. econstructor; [done|auto]. Qed.

(** ** The loop *)

Definition noise (m : Message) : Prop := match m with MVersion _ | MVerack _ => False | _ => True end.
Definition peer_info (v : Version) : PeerInfo := mkPeerInfo (v_version v) (user_agent v) (start_height v) (v_services v).
(** What is written in answer to the version message. *)
Definition answer (magic : Magic) (is_inbound : bool) (ours : Version) : bytes :=
  (if is_inbound then frame magic (MVersion ours) else []) ++ frame magic (MVerack mkVerack).
Definition acceptable (nonces : gset Z) (v : Version) : Prop := v_nonce v ∉ nonces /\ MIN_PEER_PROTO_VERSION <= v_version v.

Section Loop.
Context (magic : Magic) (nonces : gset Z) (inb : bool) (ours : Version).
Abbreviation loop := (handshake_loop).

Lemma step_noise h m : noise m -> handshake_step magic nonces inb ours h m = Ok (h, []).
Proof. by destruct m. Qed.
Lemma step_version h v : got_version h = false -> acceptable nonces v ->
  handshake_step magic nonces inb ours h (MVersion v) = Ok (mkHandshake (peer_info v) true (got_verack h), answer magic inb ours).
Proof.
  intros E [Hn Hv]. unfold handshake_step. rewrite E, bool_decide_false by done. by rewrite (proj2 (Z.ltb_ge _ _) Hv).
Qed.

(** Waiting for verack: anything but the handshake's own messages is skipped. *)
Lemma loop_verack fuel p : forall s sent r, (length s < fuel)%nat ->
  handshake_loop fuel magic nonces inb ours (mkHandshake p true false) s sent = r ->
  match r with
  | (Ok (q, rest), sent') => q = p /\ sent' = sent /\ exists mid, Forall noise mid /\ reads magic s (mid ++ [MVerack mkVerack]) rest
  | (Err _, _) => True
  end.
Proof.
  induction fuel as [|fuel IH]; intros s sent r Hf <-; [lia|]. cbn [handshake_loop].
  destruct (read_message magic s) as [[m s1]|] eqn:Er; [|done]. pose proof (read_message_shorter _ _ _ _ Er) as Hlt.
  assert (noise m \/ (exists v, m = MVersion v) \/ m = MVerack mkVerack) as [Hm|[[v ->]| ->]] by (destruct m as [| []| | | | | | | | | | | |]; cbn; eauto).
  - rewrite step_noise by done. cbn [got_version got_verack andb]. specialize (IH s1 (sent ++ []) _ ltac:(lia) eq_refl).
    destruct (handshake_loop _ _ _ _ _ _ s1 _) as [[[q rest]|e] sent']; [|done]. rewrite app_nil_r in IH. destruct IH as (-> & -> & mid & Hmid & Hr).
    split_and!; [done..|]. exists (m :: mid). split; [by constructor|]. by econstructor.
  - done.
  - cbn. rewrite app_nil_r. split_and!; [done..|]. exists []. split; [done|]. econstructor; [done|constructor].
Qed.
Lemma loop_verack_reads mid : forall fuel p s sent rest, (length s < fuel)%nat -> Forall noise mid -> reads magic s (mid ++ [MVerack mkVerack]) rest ->
  handshake_loop fuel magic nonces inb ours (mkHandshake p true false) s sent = (Ok (p, rest), sent).
Proof.
  induction mid as [|m mid IH]; intros fuel p s sent rest Hf Hn Hr; inversion Hr as [|? ? s1 ? ? Er Hr1]; subst; (destruct fuel as [|fuel]; [lia|]); cbn [handshake_loop]; rewrite Er.
  - inversion Hr1; subst. cbn. by rewrite app_nil_r.
  - inversion Hn; subst. rewrite step_noise by done. cbn [got_version got_verack andb]. rewrite app_nil_r. apply IH; [|done..].
    pose proof (read_message_shorter _ _ _ _ Er). lia.
Qed.

Lemma loop_version fuel : forall s sent r, (length s < fuel)%nat ->
  handshake_loop fuel magic nonces inb ours handshake_start s sent = r ->
  match r with
  | (Ok (q, rest), sent') => exists pre v mid, Forall noise pre /\ Forall noise mid /\ acceptable nonces v /\
      reads magic s (pre ++ MVersion v :: mid ++ [MVerack mkVerack]) rest /\ q = peer_info v /\ sent' = sent ++ answer magic inb ours
  | (Err _, _) => True
  end.
Proof.
  induction fuel as [|fuel IH]; intros s sent r Hf <-; [lia|]. cbn [handshake_loop].
  destruct (read_message magic s) as [[m s1]|] eqn:Er; [|done]. pose proof (read_message_shorter _ _ _ _ Er) as Hlt.
  assert (noise m \/ (exists v, m = MVersion v) \/ m = MVerack mkVerack) as [Hm|[[v ->]| ->]] by (destruct m as [| []| | | | | | | | | | | |]; cbn; eauto).
  - rewrite step_noise by done. cbn [got_version got_verack handshake_start andb]. specialize (IH s1 (sent ++ []) _ ltac:(lia) eq_refl). fold handshake_start.
    destruct (handshake_loop _ _ _ _ _ _ s1 _) as [[[q rest]|e] sent']; [|done]. rewrite app_nil_r in IH. destruct IH as (pre & v & mid & H1 & H2 & H3 & H4 & H5).
    exists (m :: pre), v, mid. split_and!; [by constructor|done..| | |]; [by econstructor|by destruct H5..].
  - cbn [handshake_step got_version handshake_start]. case_bool_decide as Hn; [done|]. destruct (Z.ltb_spec (v_version v) MIN_PEER_PROTO_VERSION) as [|Hv]; [done|].
    cbn [got_version got_verack andb]. match goal with |- context [handshake_loop fuel _ _ _ _ ?h s1 ?o] => pose proof (loop_verack fuel (peer_info v) s1 o _ ltac:(lia) eq_refl) as Hl end.
    change (mkPeerInfo _ _ _ _) with (peer_info v). destruct (handshake_loop _ _ _ _ _ _ s1 _) as [[[q rest]|e] sent']; [|done]. destruct Hl as (-> & -> & mid & Hmid & Hr).
    exists [], v, mid. split_and!; [constructor|done|done|by econstructor|done|done].
  - done.
Qed.
Lemma loop_version_reads pre v mid : Forall noise pre -> Forall noise mid -> acceptable nonces v ->
  forall fuel s sent rest, (length s < fuel)%nat -> reads magic s (pre ++ MVersion v :: mid ++ [MVerack mkVerack]) rest ->
  handshake_loop fuel magic nonces inb ours handshake_start s sent = (Ok (peer_info v, rest), sent ++ answer magic inb ours).
Proof.
  intros Hpre Hmid Hv. induction Hpre as [|m pre Hm _ IH]; intros fuel s sent rest Hf Hr; inversion Hr as [|? ? s1 ? ? Er Hr1]; subst;
    (destruct fuel as [|fuel]; [lia|]); cbn [handshake_loop]; rewrite Er; pose proof (read_message_shorter _ _ _ _ Er).
  - rewrite step_version by done. cbn [got_version got_verack handshake_start andb]. apply (loop_verack_reads mid); [lia|done..].
  - rewrite step_noise by done. cbn [got_version got_verack handshake_start andb]. rewrite app_nil_r. apply IH; [lia|done].
Qed.
End Loop.

(** C17: The handshake admits a peer exactly when the stream carries a version message
    with a nonce that is not one of this node's own and a protocol version of at least
    31800, then a verack, with only other messages before, between and none of a
    handshake: it then reports what that version message said, has written its own
    version and a verack (an outbound connection the version first), and leaves the
    rest of the stream for the read loop. *)
Theorem handshake_admission (magic : Magic) (nonces : gset Z) (is_inbound : bool) (ours : Version) (stream rest sent : bytes) (info : PeerInfo) :
  handshake_wire magic nonces is_inbound ours stream = (Ok (info, rest), sent) <->
  exists pre v mid, Forall noise pre /\ Forall noise mid /\ v_nonce v ∉ nonces /\ MIN_PEER_PROTO_VERSION <= v_version v /\
    reads magic stream (pre ++ MVersion v :: mid ++ [MVerack mkVerack]) rest /\
    info = peer_info v /\ sent = frame magic (MVersion ours) ++ frame magic (MVerack mkVerack).
Proof.
  unfold handshake_wire. set (o := if is_inbound then [] else frame magic (MVersion ours)).
  assert (o ++ answer magic is_inbound ours = frame magic (MVersion ours) ++ frame magic (MVerack mkVerack)) as Eo by (unfold o, answer; by destruct is_inbound).
  split.
  - intros Hw. pose proof (loop_version magic nonces is_inbound ours (S (length stream)) stream o _ ltac:(lia) Hw) as (pre & v & mid & H1 & H2 & [H3 H4] & H5 & -> & ->).
    exists pre, v, mid. by rewrite Eo.
  - intros (pre & v & mid & H1 & H2 & H3 & H4 & H5 & -> & ->). rewrite <- Eo. by apply (loop_version_reads magic nonces is_inbound ours pre v mid); [..|lia|].
Qed.

(** Two nodes that connect agree: what each writes during the exchange is exactly
    what the other accepts, each learns the other's version, services, agent and
    height, and the bytes behind the handshake stay for the read loops. *)
Lemma handshake_agrees (magic : Magic) (dialler listener : Version) (nonces_d nonces_l : gset Z) (sent_d sent_l after_d after_l : bytes) :
  magic_ok magic -> sendable (MVersion dialler) -> sendable (MVersion listener) ->
  acceptable nonces_d listener -> acceptable nonces_l dialler ->
  sent_d = frame magic (MVersion dialler) ++ frame magic (MVerack mkVerack) ->
  sent_l = frame magic (MVersion listener) ++ frame magic (MVerack mkVerack) ->
  handshake_wire magic nonces_l true listener (sent_d ++ after_d) = (Ok (peer_info dialler, after_d), sent_l) /\
  handshake_wire magic nonces_d false dialler (sent_l ++ after_l) = (Ok (peer_info listener, after_l), sent_d).
Proof.
  intros Hm Hd Hl Ad Al -> ->. assert (sendable (MVerack mkVerack)) as Hv by done.
  assert (forall nonces inb v w rest, sendable (MVersion w) -> acceptable nonces w ->
    handshake_wire magic nonces inb v ((frame magic (MVersion w) ++ frame magic (MVerack mkVerack)) ++ rest) =
    (Ok (peer_info w, rest), frame magic (MVersion v) ++ frame magic (MVerack mkVerack))) as Hgen.
  { intros nonces inb v w rest Hw Ha. unfold handshake_wire. rewrite (loop_version_reads magic nonces inb v [] w [] ltac:(constructor) ltac:(constructor) Ha _ _ _ rest).
    - f_equal. by destruct inb.
    - lia.
    - pose proof (reads_frames magic [MVersion w; MVerack mkVerack] rest Hm) as Hr. cbn [map concat] in Hr. rewrite app_nil_r in Hr. apply Hr. apply Forall_cons; split; [done|]. apply Forall_cons; split; [done|constructor]. }
  split; by apply Hgen.
Qed.
End Wire.

(** ** A concrete handshake *)

Definition demo_version (nonce : Z) : Version := our_version 1700000000 nonce 7 true.
Lemma our_version_ok now nonce height relay : u64_ok nonce -> i32_ok height -> version_ok (our_version now nonce height relay).
Proof.
  intros Hn Hh. unfold version_ok, our_version. cbn [v_version v_services v_timestamp recv_services recv_addr recv_port from_services from_addr from_port v_nonce user_agent start_height].
  assert (array_ok 16 (replicate 16 0)) as Ha by (split; [done|]; by apply Forall_replicate).
  split_and!; try done. apply (wrap_s_range 64); lia.
Qed.
Lemma demo_version_sendable : sendable (MVersion (demo_version 1)) /\ sendable (MVersion (demo_version 2)).
Proof. split; (split; [by apply our_version_ok|split; [done|vm_compute; discriminate]]). Qed.
Lemma handshake_agrees_witness :
  @handshake_wire toy_digests REGTEST {[2]} true (demo_version 2)
    ((@frame toy_digests REGTEST (MVersion (demo_version 1)) ++ @frame toy_digests REGTEST (MVerack mkVerack)) ++ [1; 2; 3])
  = (Ok (peer_info (demo_version 1), [1; 2; 3]), @frame toy_digests REGTEST (MVersion (demo_version 2)) ++ @frame toy_digests REGTEST (MVerack mkVerack)).
Proof.
  apply (@handshake_agrees toy_digests toy_digests_ok REGTEST (demo_version 1) (demo_version 2) {[1]} {[2]} _ _ [1; 2; 3] []);
    [exact demo_magic_ok|apply demo_version_sendable|apply demo_version_sendable|split|split|reflexivity|reflexivity];
    (apply (bool_decide_unpack _); vm_compute; exact Logic.I).
Defined.
