(* ===== verification/SyncProofs.v ===== *)
(** * Properties of the synchronisation state

    The workload counters are exactly the blocks in flight whatever order the
    operations come in, so that recalculating them changes nothing one can observe;
    what the header slot allows; the bottleneck is a block of the smallest height. *)

From S2P Require Import Prelude Hash Block P2P AddrMan AddrManProofs Sync.

(** ** Counting *)

Lemma map_to_list_filter_perm {K A} `{Countable K} (P : K * A -> Prop) `{!forall x, Decision (P x)} (m : gmap K A) :
  map_to_list (filter P m) ≡ₚ filter P (map_to_list m).
Proof.
  apply NoDup_Permutation; [apply NoDup_map_to_list|apply NoDup_filter, NoDup_map_to_list|]. intros [k x].
  rewrite list_elem_of_filter, !elem_of_map_to_list, map_lookup_filter_Some. tauto.
Qed.
Lemma length_filter_split {A} (P Q : A -> Prop) `{!forall x, Decision (P x), !forall x, Decision (Q x)} (l : list A) :
  length (filter P l) = (length (filter P (filter Q l)) + length (filter P (filter (fun x => ~ Q x) l)))%nat.
Proof.
  induction l as [|x l IH]; [done|]. rewrite !filter_cons. destruct (decide (Q x)) as [Hq|Hq].
  - rewrite (decide_False (P := ~ Q x)) by tauto. rewrite !filter_cons. destruct (decide (P x)); cbn; lia.
  - rewrite (decide_True (P := ~ Q x)) by done. rewrite !filter_cons. destruct (decide (P x)); cbn; lia.
Qed.

(** The blocks in flight from a peer. *)
Definition flights (d : SyncDownloadState) (a : SocketAddr) : nat :=
  length (filter (fun e => flight_peer e.2 = a) (map_to_list (in_flight_blocks d))).
(** The counters are right. *)
Definition exact (d : SyncDownloadState) : Prop := forall a, workload_of d a = flights d a.

Lemma flights_insert d now hash peer h : in_flight_blocks d !! hash = None ->
  forall a, flights (mark_in_flight now hash peer h d) a = ((if decide (peer = a) then 1 else 0) + flights d a)%nat.
Proof.
  intros Hn a. unfold flights, mark_in_flight. cbn [in_flight_blocks]. rewrite map_to_list_insert by done. rewrite filter_cons.
  cbn [flight_peer fst snd]. by destruct (decide (peer = a)).
Qed.
Lemma workload_insert d now hash peer h a : workload_of (mark_in_flight now hash peer h d) a = ((if decide (peer = a) then 1 else 0) + workload_of d a)%nat.
Proof.
  unfold workload_of, mark_in_flight. cbn [peer_workload]. destruct (decide (peer = a)) as [->|]; [by rewrite lookup_insert_eq|by rewrite lookup_insert_ne].
Qed.
Lemma exact_mark d now hash peer h : exact d -> in_flight_blocks d !! hash = None -> exact (mark_in_flight now hash peer h d).
Proof. intros He Hn a. by rewrite workload_insert, flights_insert, He. Qed.

Lemma flights_delete d hash f : in_flight_blocks d !! hash = Some f ->
  forall a, flights d a = ((if decide (flight_peer f = a) then 1 else 0) + flights (mark_received hash d) a)%nat.
Proof.
  intros Hf a. unfold mark_received. rewrite Hf. unfold flights. cbn [in_flight_blocks]. rewrite <- (map_to_list_delete _ hash f Hf) at 1.
  rewrite filter_cons. cbn [snd]. by destruct (decide (flight_peer f = a)).
Qed.
Lemma exact_received d hash : exact d -> exact (mark_received hash d).
Proof.
  intros He a. destruct (in_flight_blocks d !! hash) as [f|] eqn:Ef; [|unfold mark_received; rewrite Ef; apply He].
  pose proof (flights_delete d hash f Ef a) as Hf. pose proof (He a) as Ha. rewrite Hf in Ha. unfold mark_received in *. rewrite Ef in *.
  unfold workload_of in *. cbn [peer_workload]. destruct (decide (flight_peer f = a)) as [->|].
  - rewrite lookup_alter_eq. destruct (peer_workload d !! a); cbn in *; lia.
  - by rewrite lookup_alter_ne.
Qed.

Lemma exact_clear d : exact (clear_flight d).
Proof. intros a. unfold workload_of, flights, clear_flight. cbn. by rewrite lookup_empty, map_to_list_empty. Qed.
Lemma exact_failed d failed : exact d -> exact (mkDownload (in_flight_blocks d) (peer_workload d) failed).
Proof. done. Qed.

Lemma exact_release d addr : exact d -> exact (release_peer addr d).
Proof.
  intros He a. unfold flights, workload_of, release_peer. cbn [in_flight_blocks peer_workload]. rewrite map_to_list_filter_perm.
  destruct (decide (a = addr)) as [->|Hne].
  - rewrite lookup_delete_eq. cbn. symmetry. apply length_zero_iff_nil.
    induction (map_to_list (in_flight_blocks d)) as [|e l IH]; [done|]. rewrite filter_cons. destruct (decide (flight_peer e.2 <> addr)); [|done].
    rewrite filter_cons, decide_False by done. done.
  - rewrite lookup_delete_ne by done. rewrite (He a : default 0%nat (peer_workload d !! a) = _). unfold flights.
    rewrite (length_filter_split (fun e => flight_peer e.2 = a) (fun e => flight_peer e.2 <> addr)).
    assert (filter (fun e => flight_peer e.2 = a) (filter (fun e => ~ flight_peer e.2 <> addr) (map_to_list (in_flight_blocks d))) = []) as ->; [|cbn; lia].
    induction (map_to_list (in_flight_blocks d)) as [|e l IH]; [done|]. rewrite filter_cons. destruct (decide (~ flight_peer e.2 <> addr)) as [Hd|]; [|done].
    rewrite filter_cons, decide_False; [done|]. intros Ha. apply Hd. congruence.
Qed.

Section Visiting.
Context {HO : HashOrder}.

Lemma exact_prune now timeout d : exact d -> exact (prune now timeout d).2.
Proof.
  intros He a. unfold prune, flights, workload_of. cbn [snd in_flight_blocks peer_workload]. rewrite map_lookup_imap, map_to_list_filter_perm.
  set (l := map_to_list (in_flight_blocks d)). set (gone := filter (fun e => expired now timeout e) (visit (in_flight_blocks d))).
  assert (length (filter (fun e => flight_peer e.2 = a) gone) = length (filter (fun e => flight_peer e.2 = a) (filter (fun e => expired now timeout e) l))) as Eg
    by (unfold gone; by rewrite visit_perm).
  assert (filter (fun e => expired now timeout e = false) l = filter (fun e => ~ expired now timeout e) l) as Ek.
  { apply list_filter_iff. intros e. destruct (expired now timeout e); cbn; intuition congruence. }
  rewrite Ek. pose proof (length_filter_split (fun e => flight_peer e.2 = a) (fun e => expired now timeout e) l) as Hs.
  pose proof (He a : default 0%nat (peer_workload d !! a) = length (filter (fun e => flight_peer e.2 = a) l)) as Ha.
  destruct (peer_workload d !! a) as [n|]; cbn in *; lia.
Qed.

(** Recalculation counts, whatever the counters were. *)
Lemma recount (l : list (BlockHash * InFlight)) : forall (w : gmap SocketAddr nat) a,
  default 0%nat (fold_left (fun w e => <[flight_peer e.2 := S (default 0%nat (w !! flight_peer e.2))]> w) l w !! a) =
  (default 0%nat (w !! a) + length (filter (fun e => flight_peer e.2 = a) l))%nat.
Proof.
  induction l as [|e l IH]; intros w a; [cbn; lia|]. cbn [fold_left]. rewrite IH, filter_cons.
  destruct (decide (flight_peer e.2 = a)) as [->|]; [rewrite lookup_insert_eq; cbn; lia|by rewrite lookup_insert_ne].
Qed.
Lemma exact_recalculate d : exact (recalculate d).
Proof.
  intros a. unfold workload_of, flights, recalculate. cbn [in_flight_blocks peer_workload]. rewrite recount, lookup_empty. cbn. by rewrite visit_perm.
Qed.
End Visiting.

(** ** States that cannot be told apart *)

(** A peer without an entry counts as one with zero. *)
Definition same_load (d d' : SyncDownloadState) : Prop :=
  in_flight_blocks d = in_flight_blocks d' /\ failed_block_peers d = failed_block_peers d' /\ forall a, workload_of d a = workload_of d' a.
#[export] Instance same_load_equivalence : Equivalence same_load.
Proof.
  split; [done| |].
  - intros d d' (H1 & H2 & H3). by split_and!.
  - intros d1 d2 d3 (H1 & H2 & H3) (H4 & H5 & H6). split_and!; [congruence..|]. intros a. by rewrite H3.
Qed.
#[export] Instance workload_of_proper : Proper (same_load ==> eq ==> eq) workload_of.
Proof. intros d d' (_ & _ & H) a a' <-. apply H. Qed.
#[export] Instance exact_proper : Proper (same_load ==> iff) exact.
Proof. intros d d' (H1 & _ & H3). unfold exact, flights. rewrite H1. split; intros He a; [rewrite <- H3|rewrite H3]; apply He. Qed.
#[export] Instance mark_in_flight_proper now hash peer h : Proper (same_load ==> same_load) (mark_in_flight now hash peer h).
Proof.
  intros d d' (H1 & H2 & H3). split_and!; cbn; [by rewrite H1|done|]. intros a. rewrite !workload_insert. by rewrite H3.
Qed.
#[export] Instance mark_received_proper hash : Proper (same_load ==> same_load) (mark_received hash).
Proof.
  intros d d' (H1 & H2 & H3). unfold mark_received. rewrite <- H1. destruct (in_flight_blocks d !! hash) as [f|]; [|done].
  split_and!; cbn; [done..|]. intros a. pose proof (H3 a) as Ha. unfold workload_of in *. cbn. destruct (decide (flight_peer f = a)) as [->|].
  - rewrite !lookup_alter_eq. destruct (peer_workload d !! a), (peer_workload d' !! a); cbn in *; lia.
  - by rewrite !lookup_alter_ne.
Qed.

Lemma recalculate_same {HO : HashOrder} d : exact d -> same_load (recalculate d) d.
Proof. intros He. split_and!; [done..|]. intros a. rewrite (exact_recalculate d a), He. done. Qed.

(** ** The header slot *)

(** What [try_begin_header_request] answers, and what it leaves behind: it refuses a
    peer that is cooling down and while a younger request is out; a request that is
    too old is dropped and its peer cools down, and only another peer takes over. *)
Lemma try_begin_header_request_spec now peer tip h timeout s :
  let cooling := filter (fun e => at_cooldowns now < e.2) (header_sync_cooldowns s) in
  let request := Some (mkHeaderRequest peer tip h (at_request now)) in
  try_begin_header_request now peer tip h timeout s =
  match cooling !! peer with
  | Some _ => (false, with_cooldowns cooling s)
  | None =>
    match header_request s with
    | None => (true, with_header_request request (with_cooldowns cooling s))
    | Some r =>
      if elapsed (at_age now) (requested_at r) <? timeout then (false, with_cooldowns cooling s)
      else (negb (bool_decide (hr_peer r = peer)),
            with_header_request (if bool_decide (hr_peer r = peer) then None else request)
              (with_cooldowns (<[hr_peer r := at_penalty now + timeout]> cooling) s))
    end
  end.
Proof.
  cbv zeta. unfold try_begin_header_request, can_peer_sync_headers. set (cooling := filter _ _).
  destruct (cooling !! peer) as [t|] eqn:Ec.
  - by rewrite bool_decide_true by (by exists t).
  - rewrite bool_decide_false by (by intros [? ?]). cbn. destruct (header_request s) as [r|] eqn:Er; [|done].
    destruct (_ <? timeout); [done|]. by destruct (bool_decide (hr_peer r = peer)).
Qed.

(** One header request at a time, and no peer can hold the slot: while a request
    is younger than the timeout every other one is refused; once it is older, another
    peer that is not cooling down gets the slot and the silent one cools down for the
    timeout, during which it is refused. *)
Lemma header_slot_taken_over (now : Readings) (silent peer : SocketAddr) (r : HeaderRequestState) (tip : BlockHash) (h timeout : Z) (s : SyncManager) :
  header_request s = Some r -> hr_peer r = silent -> peer <> silent ->
  (forall until, header_sync_cooldowns s !! peer = Some until -> until <= at_cooldowns now) ->
  (elapsed (at_age now) (requested_at r) < timeout ->
     exists s', try_begin_header_request now peer tip h timeout s = (false, s') /\ header_request s' = Some r) /\
  (timeout <= elapsed (at_age now) (requested_at r) ->
     exists s', try_begin_header_request now peer tip h timeout s = (true, s') /\
       header_request s' = Some (mkHeaderRequest peer tip h (at_request now)) /\
       forall later, at_cooldowns later < at_penalty now + timeout -> (try_begin_header_request later silent tip h timeout s').1 = false).
Proof.
  intros Hr Hp Hne Hcool. rewrite try_begin_header_request_spec. cbv zeta. set (cooling := filter _ _).
  assert (cooling !! peer = None) as ->.
  { apply map_lookup_filter_None. right. intros t0 Hu Hlt. apply Hcool in Hu. cbn in Hlt. lia. }
  rewrite Hr. split; intros Ht.
  - destruct (Z.ltb_spec (elapsed (at_age now) (requested_at r)) timeout); [|lia]. eauto.
  - destruct (Z.ltb_spec (elapsed (at_age now) (requested_at r)) timeout); [lia|]. rewrite bool_decide_false by congruence.
    eexists. split_and!; [done..|]. intros later Hl. rewrite try_begin_header_request_spec. cbv zeta.
    cbn [header_sync_cooldowns with_header_request with_cooldowns]. rewrite Hp, map_filter_insert_True by done. by rewrite lookup_insert_eq.
Qed.

(** ** The bottleneck *)

Section Bottleneck.
Context {HO : HashOrder}.

Lemma min_fold (l : list (BlockHash * InFlight)) : forall best,
  match fold_left (fun best e => match best with Some b => if flight_height e.2 <? flight_height b.2 then Some e else Some b | None => Some e end) l best with
  | Some b => (b ∈ l \/ best = Some b) /\ Forall (fun e => flight_height b.2 <= flight_height e.2) l /\
      match best with Some b0 => flight_height b.2 <= flight_height b0.2 | None => True end
  | None => l = [] /\ best = None
  end.
Proof.
  induction l as [|e l IH]; intros best; cbn [fold_left]; [destruct best; [split_and!; [by right|constructor|lia]|done]|].
  set (next := match best with Some b => _ | None => _ end). assert (exists b1, next = Some b1) as [b1 Hn] by (unfold next; destruct best; [case_match|]; eauto).
  specialize (IH next). destruct (fold_left _ l next) as [b|]; [|by rewrite Hn in IH; destruct IH].
  destruct IH as (H1 & H2 & H3). rewrite Hn in H1, H3. unfold next in Hn. destruct best as [b0|].
  - destruct (Z.ltb_spec (flight_height e.2) (flight_height b0.2)); injection Hn as ->; (split_and!; [|constructor; [lia|done]|lia]);
      destruct H1 as [H1|[= <-]]; [left; by constructor|left; constructor|left; by constructor|by right].
  - injection Hn as ->. split_and!; [|by constructor|done]. destruct H1 as [H1|[= <-]]; left; by constructor.
Qed.

(** The reported block is in flight and none in flight is lower. *)
Lemma get_bottleneck_spec now s : match get_bottleneck_info now s with
  | Some (hash, peer, age) => exists f, in_flight_blocks (download_state s) !! hash = Some f /\ peer = flight_peer f /\
      age = as_secs (elapsed now (flight_start f)) /\
      forall hash' f', in_flight_blocks (download_state s) !! hash' = Some f' -> flight_height f <= flight_height f'
  | None => in_flight_blocks (download_state s) = ∅
  end.
Proof.
  unfold get_bottleneck_info. set (m := in_flight_blocks (download_state s)). pose proof (min_fold (visit m) None) as H.
  assert (forall h f, (h, f) ∈ visit m <-> m !! h = Some f) as Hv by (intros h f; rewrite visit_perm; apply elem_of_map_to_list).
  destruct (fold_left _ (visit m) None) as [[h f]|]; cbn.
  - destruct H as ([H|?] & H2 & _); [|done]. exists f. split_and!; [by apply Hv|done..|]. intros h' f' Hf'. rewrite Forall_forall in H2.
    apply (H2 (h', f')). by apply Hv.
  - destruct H as [H _]. apply map_empty. intros h. apply eq_None_not_Some. intros [f Hf]. apply Hv in Hf. rewrite H in Hf. by apply not_elem_of_nil in Hf.
Qed.
End Bottleneck.

(** A silent peer asked at second 10, another peer at second 30 with a timeout of 15. *)
Definition demo_silent : SocketAddr := mkSocketAddr (V4 [127; 0; 0; 1]) 8333.
Definition demo_other : SocketAddr := mkSocketAddr (V4 [127; 0; 0; 2]) 8333.
Definition demo_request : HeaderRequestState := mkHeaderRequest demo_silent ZERO_HASH 42 (from_secs 10).
Definition demo_readings : Readings := mkReadings (from_secs 30) (from_secs 30) (from_secs 30) (from_secs 30).
Lemma header_slot_taken_over_witness :
  exists s', try_begin_header_request demo_readings demo_other ZERO_HASH 42 (from_secs 15) (with_header_request (Some demo_request) SyncManager_new) = (true, s').
Proof.
  destruct (header_slot_taken_over demo_readings demo_silent demo_other demo_request ZERO_HASH 42 (from_secs 15)
    (with_header_request (Some demo_request) SyncManager_new)) as [_ Hlate].
  - reflexivity.
  - reflexivity.
  - discriminate.
  - intros t0 Ht. discriminate.
  - destruct Hlate as (s' & Hs & _); [vm_compute; discriminate|]. exists s'. exact Hs.
Defined.
