(* ===== verification/DownloaderProofs.v ===== *)
(** * Properties of block download

    No block is asked of two peers, no peer is asked for more than its share or for a
    block it failed to deliver, and no free peer is left idle while a block it may
    deliver is missing; the counters behind these decisions stay right whatever the
    network does in between; the stall check that never fires. *)

From S2P Require Import Prelude Wire Hash Transaction Block Params Chainstate Node P2P AddrMan Sync SyncProofs PeerTable Peers Downloader Connect.

(** ** The state of downloads *)

(** The counters are right and no peer has more than its share. *)
Definition dl_inv (d : SyncDownloadState) : Prop := exact d /\ forall a, (workload_of d a <= MAX_BLOCKS_IN_TRANSIT_PER_PEER)%nat.

Lemma flights_mono d d' : in_flight_blocks d' ⊆ in_flight_blocks d -> forall a, (flights d' a <= flights d a)%nat.
Proof.
  intros Hsub a. unfold flights. rewrite <- !(map_to_list_filter_perm (fun e => flight_peer e.2 = a)), !length_map_to_list.
  by apply map_subseteq_size, map_filter_subseteq_mono.
Qed.
Lemma dl_inv_shrink d d' : exact d' -> in_flight_blocks d' ⊆ in_flight_blocks d -> dl_inv d -> dl_inv d'.
Proof. intros He Hsub [Hd Hl]. split; [done|]. intros a. rewrite (He a). etrans; [by apply (flights_mono d d')|]. rewrite <- (Hd a). apply Hl. Qed.

Lemma received_subset hash d : in_flight_blocks (mark_received hash d) ⊆ in_flight_blocks d.
Proof. unfold mark_received. destruct (_ !! hash); [apply delete_subseteq|done]. Qed.
Lemma received_failed hash d : failed_block_peers (mark_received hash d) = failed_block_peers d.
Proof. unfold mark_received. by destruct (_ !! hash). Qed.

Lemma dl_inv_received hash d : dl_inv d -> dl_inv (mark_received hash d).
Proof. intros Hd. apply (dl_inv_shrink d); [apply exact_received, Hd|apply received_subset|done]. Qed.
Lemma dl_inv_release addr d : dl_inv d -> dl_inv (release_peer addr d).
Proof. intros Hd. apply (dl_inv_shrink d); [apply exact_release, Hd|apply map_filter_subseteq|done]. Qed.
Lemma dl_inv_prune {HO : HashOrder} now timeout d : dl_inv d -> dl_inv (prune now timeout d).2.
Proof. intros Hd. apply (dl_inv_shrink d); [apply exact_prune, Hd|apply map_filter_subseteq|done]. Qed.
Lemma dl_inv_recalculate {HO : HashOrder} d : dl_inv d -> dl_inv (recalculate d).
Proof. intros Hd. by apply (dl_inv_shrink d); [apply exact_recalculate| |]. Qed.
Lemma dl_inv_clear d : dl_inv (clear_flight d).
Proof. split; [apply exact_clear|]. intros a. unfold workload_of, clear_flight. cbn. rewrite lookup_empty. cbn. unfold MAX_BLOCKS_IN_TRANSIT_PER_PEER. lia. Qed.

(** ** Choosing *)

Lemma choose_spec s peer missing : forall capacity assigned,
  let '(req, assigned') := choose s peer capacity assigned missing in
  (length req <= capacity)%nat /\ NoDup req /\ assigned' = list_to_set req ∪ assigned /\
  Forall (fun h => h ∈ missing /\ h ∉ assigned /\ in_flight_blocks (download_state s) !! h = None /\ can_peer_download_block s h peer = true) req /\
  ((length req < capacity)%nat -> forall h, h ∈ missing ->
     is_Some (in_flight_blocks (download_state s) !! h) \/ h ∈ assigned' \/ can_peer_download_block s h peer = false).
Proof.
  induction missing as [|hash missing IH]; intros capacity assigned.
  { cbn. split_and!; [lia|constructor|set_solver|constructor|]. intros _ h Hh. by apply not_elem_of_nil in Hh. }
  destruct capacity as [|rest]; cbn [choose].
  { split_and!; [cbn; lia|constructor|set_solver|constructor|cbn; lia]. }
  unfold is_block_in_flight. destruct (in_flight_blocks (download_state s) !! hash) as [f|] eqn:Ef.
  { rewrite bool_decide_true by eauto. cbn [negb andb]. specialize (IH (S rest) assigned). destruct (choose s peer (S rest) assigned missing) as [req a'].
    destruct IH as (H1 & H2 & H3 & H4 & H5). split_and!; [done..| |].
    - eapply Forall_impl; [exact H4|]. cbn. intros h (? & ? & ? & ?). split_and!; [by constructor|done..].
    - intros Hl h [->|Hh]%elem_of_cons; [left; eauto|auto]. }
  rewrite bool_decide_false by (by intros [? ?]). cbn [negb andb].
  destruct (bool_decide_reflect (hash ∈ assigned)) as [Ha|Ha]; cbn [negb andb].
  { specialize (IH (S rest) assigned). destruct (choose s peer (S rest) assigned missing) as [req a'].
    destruct IH as (H1 & H2 & H3 & H4 & H5). split_and!; [done..| |].
    - eapply Forall_impl; [exact H4|]. cbn. intros h (? & ? & ? & ?). split_and!; [by constructor|done..].
    - intros Hl h [->|Hh]%elem_of_cons; [right; left; set_solver|auto]. }
  destruct (can_peer_download_block s hash peer) eqn:Ec.
  - specialize (IH rest ({[hash]} ∪ assigned)). destruct (choose s peer rest ({[hash]} ∪ assigned) missing) as [req a'].
    destruct IH as (H1 & H2 & H3 & H4 & H5). split_and!.
    + cbn. lia.
    + constructor; [|done]. intros Hh. rewrite Forall_forall in H4. destruct (H4 hash Hh) as (_ & Hn & _). set_solver.
    + rewrite H3. cbn. set_solver.
    + constructor; [split_and!; [constructor|done..]|]. eapply Forall_impl; [exact H4|]. cbn. intros h (? & ? & ? & ?). split_and!; [by constructor|set_solver|done..].
    + cbn. intros Hl h [->|Hh]%elem_of_cons; [right; left; rewrite H3; set_solver|]. apply H5; [lia|done].
  - specialize (IH (S rest) assigned). destruct (choose s peer (S rest) assigned missing) as [req a'].
    destruct IH as (H1 & H2 & H3 & H4 & H5). split_and!; [done..| |].
    + eapply Forall_impl; [exact H4|]. cbn. intros h (? & ? & ? & ?). split_and!; [by constructor|done..].
    + intros Hl h [->|Hh]%elem_of_cons; [by right; right|auto].
Qed.

(** ** One peer's turn *)

Section Turn.
Context {C : Type} (env : NetEnv) (b_height : Z) (missing : list BlockHash).

Definition flight (addr : SocketAddr) (h : BlockHash) : InFlight := (addr, flight_clock env h, block_height_in b_height missing h).
Definition marks (addr : SocketAddr) (req : list BlockHash) (d : SyncDownloadState) : SyncDownloadState :=
  fold_left (fun d h => mark_in_flight (flight_clock env h) h addr (block_height_in b_height missing h) d) req d.
Definition receives (req : list BlockHash) (d : SyncDownloadState) : SyncDownloadState := fold_left (fun d h => mark_received h d) req d.

Lemma marks_spec addr req : forall d, NoDup req -> Forall (fun h => in_flight_blocks d !! h = None) req ->
  (forall h, in_flight_blocks (marks addr req d) !! h = if decide (h ∈ req) then Some (flight addr h) else in_flight_blocks d !! h) /\
  (forall a, workload_of (marks addr req d) a = ((if decide (addr = a) then length req else 0) + workload_of d a)%nat) /\
  failed_block_peers (marks addr req d) = failed_block_peers d /\ (exact d -> exact (marks addr req d)).
Proof.
  induction req as [|h req IH]; intros d Hnd Hf; [cbn; split_and!; try done; intros; by case_decide|]. apply NoDup_cons in Hnd as [Hh Hnd].
  inversion_clear Hf as [|? ? Hf1 Hf2]. set (d1 := mark_in_flight (flight_clock env h) h addr (block_height_in b_height missing h) d).
  destruct (IH d1 Hnd) as (H1 & H2 & H3 & H4).
  { apply Forall_forall. intros x Hx. rewrite Forall_forall in Hf2. unfold d1. cbn. rewrite lookup_insert_ne by (intros ->; done). by apply Hf2. }
  change (marks addr (h :: req) d) with (marks addr req d1). split_and!.
  - intros x. rewrite H1. unfold d1. cbn. destruct (decide (x ∈ req)) as [Hx|Hx]; [by rewrite decide_True by (by constructor)|].
    destruct (decide (x = h)) as [->|]; [by rewrite lookup_insert_eq, decide_True by constructor|].
    rewrite lookup_insert_ne by done. rewrite decide_False; [done|]. by intros [?|?]%elem_of_cons.
  - intros a. rewrite H2. unfold d1. rewrite workload_insert. destruct (decide (addr = a)); cbn; lia.
  - done.
  - intros He. apply H4. by apply exact_mark.
Qed.

Lemma receives_spec req : forall d, (exact d -> exact (receives req d)) /\ failed_block_peers (receives req d) = failed_block_peers d /\
  (forall h, in_flight_blocks (receives req d) !! h = if decide (h ∈ req) then None else in_flight_blocks d !! h).
Proof.
  induction req as [|x req IH]; intros d; [split_and!; try done; intros h; by rewrite decide_False by apply not_elem_of_nil|].
  destruct (IH (mark_received x d)) as (H1 & H2 & H3). change (receives (x :: req) d) with (receives req (mark_received x d)). split_and!.
  - intros He. by apply H1, exact_received.
  - rewrite H2. apply received_failed.
  - intros h. rewrite H3. assert (in_flight_blocks (mark_received x d) !! h = if decide (h = x) then None else in_flight_blocks d !! h) as ->.
    { unfold mark_received. destruct (in_flight_blocks d !! x) as [f|] eqn:Ex; cbn; destruct (decide (h = x)) as [->|]; try done; [by rewrite lookup_delete_eq|by rewrite lookup_delete_ne]. }
    destruct (decide (h ∈ req)) as [Hh|Hh]; [by rewrite decide_True by (by constructor)|]. destruct (decide (h = x)) as [->|]; [by rewrite decide_True by constructor|].
    rewrite decide_False; [done|]. by intros [?|?]%elem_of_cons.
Qed.

(** Undoing a request that could not be sent leaves the other peers' blocks. *)
Lemma failed_send addr req d : dl_inv d -> NoDup req -> Forall (fun h => in_flight_blocks d !! h = None) req ->
  let d' := release_peer addr (receives req (marks addr req d)) in
  dl_inv d' /\ failed_block_peers d' = failed_block_peers d /\ in_flight_blocks d' = filter (fun e => flight_peer e.2 <> addr) (in_flight_blocks d).
Proof.
  intros Hd Hnd Hf. destruct (marks_spec addr req d Hnd Hf) as (M1 & M2 & M3 & M4). destruct (receives_spec req (marks addr req d)) as (R1 & R2 & R3).
  assert (in_flight_blocks (receives req (marks addr req d)) = in_flight_blocks d) as E.
  { apply map_eq. intros h. rewrite R3, M1. destruct (decide (h ∈ req)) as [Hh|]; [|done]. rewrite Forall_forall in Hf. symmetry. by apply Hf. }
  cbv zeta. split_and!; [|cbn; by rewrite R2, M3|cbn; by rewrite E].
  apply dl_inv_release. apply (dl_inv_shrink d); [apply R1, M4, Hd|by rewrite E|done].
Qed.
End Turn.

(** ** A round *)

Section Round.
Context {C : Type}.
Abbreviation dl n := (download_state (n_sync (C := C) n)).

Lemma each_on_sync {A} (f : A -> SyncManager -> SyncManager) l (n : Net C) :
  each (fun x => on_sync (f x)) l n = (tt, set_sync (fold_left (fun s x => f x s) l (n_sync n)) n, []).
Proof.
  revert n. induction l as [|x l IH]; intros n; [by destruct n|]. cbn [each fold_right fold_left]. unfold mbind, NetM_bind, on_sync at 1.
  change (fold_right _ _ l) with (each (fun x => on_sync (C := C) (f x)) l). rewrite IH. by destruct n.
Qed.
Lemma fold_on_download {A} (g : A -> SyncDownloadState -> SyncDownloadState) l s :
  fold_left (fun s x => on_download (g x) s) l s = on_download (fun d => fold_left (fun d x => g x d) l d) s.
Proof. revert s. induction l as [|x l IH]; intros s; [by destruct s|]. cbn [fold_left]. by rewrite IH. Qed.

Lemma get_data_hashes req : map inv_hash (gd_inventory (mkGetData (map (mkInvVector InvWitnessBlock) req))) = req.
Proof. cbn. rewrite map_map. by rewrite map_id. Qed.

(** The block requests among the effects. *)
Definition requests (o : list Effect) : list (SocketAddr * list BlockHash) :=
  omap (fun e => match e with Send p (MGetData g) => Some (p, map inv_hash (gd_inventory g)) | _ => None end) o.

Context (env : NetEnv) (b_height : Z) (missing : list BlockHash).
Abbreviation flight := (flight env b_height missing).
Definition barred (d : SyncDownloadState) (p : SocketAddr) (h : BlockHash) : Prop :=
  exists l, failed_block_peers d !! h = Some l /\ p ∈ l.
Lemma can_download_barred s h p : can_peer_download_block s h p = false <-> barred (download_state s) p h.
Proof.
  unfold can_peer_download_block, barred. destruct (failed_block_peers _ !! h) as [l|]; [|naive_solver].
  rewrite negb_false_iff, bool_decide_eq_true. naive_solver.
Qed.

(** What one turn does. *)
Record turn (assigned : gset BlockHash) (addr : SocketAddr) (n : Net C) (req : list BlockHash) (n' : Net C) (o : list Effect) : Prop := {
  turn_nodup : NoDup req;
  turn_share : (length req + workload_of (dl n) addr <= MAX_BLOCKS_IN_TRANSIT_PER_PEER)%nat;
  turn_req : Forall (fun h => h ∈ missing /\ h ∉ assigned /\ in_flight_blocks (dl n) !! h = None /\ ~ barred (dl n) addr h) req;
  turn_failed : failed_block_peers (dl n') = failed_block_peers (dl n);
  turn_inv : dl_inv (dl n');
  turn_out : requests o = match req with [] => [] | _ => if send_ok env addr then [(addr, req)] else [] end;
  turn_flights : forall h, in_flight_blocks (dl n') !! h =
    match req with
    | [] => in_flight_blocks (dl n) !! h
    | _ => if send_ok env addr then if decide (h ∈ req) then Some (flight addr h) else in_flight_blocks (dl n) !! h
           else filter (fun e => flight_peer e.2 <> addr) (in_flight_blocks (dl n)) !! h
    end;
  turn_maximal : send_ok env addr = true -> (MAX_BLOCKS_IN_TRANSIT_PER_PEER <= workload_of (dl n') addr)%nat \/
    forall h, h ∈ missing -> is_Some (in_flight_blocks (dl n) !! h) \/ h ∈ list_to_set req ∪ assigned \/ barred (dl n) addr h;
}.

(** The three ways a turn ends. *)
Lemma request_blocks_spec addr req (n : Net C) : request_blocks env b_height missing addr req n =
  (tt, if send_ok env addr then set_sync (on_download (marks env b_height missing addr req) (n_sync n)) n
       else set_sync (on_peer_disconnect addr (on_download (fun d => receives req (marks env b_height missing addr req d)) (n_sync n)))
              (set_table (remove_peer addr (n_table n)) n),
   if send_ok env addr then [Send addr (get_data req)] else []).
Proof.
  unfold request_blocks, mbind, NetM_bind. rewrite each_on_sync. unfold mark_block_in_flight. rewrite (fold_on_download (fun h => mark_in_flight (flight_clock env h) h addr _)).
  unfold send. destruct (send_ok env addr); [done|]. cbn [negb when mret NetM_ret]. rewrite each_on_sync.
  unfold mark_block_received. rewrite (fold_on_download (fun h => mark_received h)). by destruct n.
Qed.
Lemma finish_download id s : download_state (finish_header_request id s) = download_state s.
Proof. unfold finish_header_request. destruct (header_request s) as [r|]; [|done]. by destruct (bool_decide _). Qed.

Lemma serve_peer_turn assigned addr (n : Net C) : dl_inv (dl n) ->
  exists req n' o, serve_peer env b_height missing assigned addr n = (list_to_set req ∪ assigned, n', o) /\ turn assigned addr n req n' o.
Proof.
  intros Hd. unfold serve_peer. cbn [mbind NetM_bind gets].
  unfold mbind, NetM_bind, gets, get_peer_workload. destruct (Nat.leb_spec MAX_BLOCKS_IN_TRANSIT_PER_PEER (workload_of (dl n) addr)) as [Hfull|Hroom].
  { exists [], n, []. cbn. split; [by rewrite union_empty_l_L|]. split; try done; [constructor|cbn; apply Hd|by left]. }
  pose proof (choose_spec (n_sync n) addr missing (MAX_BLOCKS_IN_TRANSIT_PER_PEER - workload_of (dl n) addr) assigned) as Hc.
  destruct (choose _ _ _ _ _) as [req assigned']. destruct Hc as (H1 & H2 & -> & H4 & H5).
  assert (Forall (fun h => h ∈ missing /\ h ∉ assigned /\ in_flight_blocks (dl n) !! h = None /\ ~ barred (dl n) addr h) req) as Hreq.
  { eapply Forall_impl; [exact H4|]. cbn. intros h (? & ? & ? & Hcan). split_and!; [done..|]. rewrite <- can_download_barred. congruence. }
  assert (Forall (fun h => in_flight_blocks (dl n) !! h = None) req) as Hnone by (eapply Forall_impl; [exact H4|]; cbn; tauto).
  assert (length req < MAX_BLOCKS_IN_TRANSIT_PER_PEER - workload_of (dl n) addr -> forall h, h ∈ missing ->
    is_Some (in_flight_blocks (dl n) !! h) \/ h ∈ list_to_set req ∪ assigned \/ barred (dl n) addr h)%nat as Hmax.
  { intros Hl h Hh. destruct (H5 Hl h Hh) as [?|[?|Hb]]; [by left|by right; left|right; right; by apply can_download_barred in Hb]. }
  destruct (decide (req = [])) as [->|Hne].
  { exists [], n, []. cbn. split; [done|]. split; try done; [cbn; lia|]. intros _. right. apply Hmax. change (length (@nil BlockHash)) with 0%nat. lia. }
  assert (negb (length req =? 0)%nat = true) as -> by (destruct req; done). cbn [when]. rewrite request_blocks_spec.
  destruct (marks_spec env b_height missing addr req (dl n) H2 Hnone) as (M1 & M2 & M3 & M4).
  destruct (send_ok env addr) eqn:Es.
  - eexists req, _, _. split; [reflexivity|]. destruct req as [|r0 req0] eqn:Er; [done|]. rewrite <- Er in *. split; try done; cbn [n_sync set_sync on_download download_state].
    + lia.
    + split; [apply M4, Hd|]. intros a. rewrite M2. destruct (decide (addr = a)) as [->|]; [lia|apply Hd].
    + cbn. rewrite Er, Es. cbn. by rewrite map_map, map_id.
    + intros h. rewrite M1, Er, Es. done.
    + intros _. rewrite M2, decide_True by done. destruct (decide (length req < MAX_BLOCKS_IN_TRANSIT_PER_PEER - workload_of (dl n) addr)%nat); [right; auto|left; lia].
  - destruct (failed_send env b_height missing addr req (dl n) Hd H2 Hnone) as (F1 & F2 & F3).
    eexists req, _, _. split; [reflexivity|]. assert (dl (set_sync (on_peer_disconnect addr (on_download (fun d => receives req (marks env b_height missing addr req d)) (n_sync n)))
      (set_table (remove_peer addr (n_table n)) n)) = release_peer addr (receives req (marks env b_height missing addr req (dl n)))) as E.
    { cbn [n_sync set_sync]. unfold on_peer_disconnect. by rewrite finish_download. }
    destruct req as [|r0 req0] eqn:Er; [done|]. rewrite <- Er in *. split; rewrite ?E; try done.
    + lia.
    + rewrite Er, Es. done.
    + intros h. rewrite F3, Er, Es. done.
    + congruence.
Qed.
End Round.

Section Assignment.
Context {C : Type} (env : NetEnv) (b_height : Z) (missing : list BlockHash).
Abbreviation dl n := (download_state (n_sync (C := C) n)).
Abbreviation flight := (flight env b_height missing).

Lemma requests_app o1 o2 : requests (o1 ++ o2) = requests o1 ++ requests o2.
Proof. unfold requests. apply omap_app. Qed.

(** A turn keeps the blocks of every peer that can be reached. *)
Lemma turn_frame assigned addr (n n' : Net C) req o h f : turn env b_height missing assigned addr n req n' o ->
  in_flight_blocks (dl n) !! h = Some f -> send_ok env (flight_peer f) = true -> in_flight_blocks (dl n') !! h = Some f.
Proof.
  intros T Hf Hs. rewrite (turn_flights _ _ _ _ _ _ _ _ _ T). destruct req as [|r req]; [done|]. destruct (send_ok env addr) eqn:Ea.
  - rewrite decide_False; [done|]. intros Hh. pose proof (turn_req _ _ _ _ _ _ _ _ _ T) as Hr. rewrite Forall_forall in Hr. destruct (Hr h Hh) as (_ & _ & Hn & _). congruence.
  - apply map_lookup_filter_Some. split; [done|]. cbn. congruence.
Qed.

(** One request of a round. *)
Definition sound_request (d d' : SyncDownloadState) (peers : list SocketAddr) (r : SocketAddr * list BlockHash) : Prop :=
  let '(p, hs) := r in
  p ∈ peers /\ send_ok env p = true /\ hs <> [] /\ (length hs <= MAX_BLOCKS_IN_TRANSIT_PER_PEER)%nat /\
  Forall (fun h => h ∈ missing /\ ~ barred d p h /\
    match in_flight_blocks d !! h with Some f => send_ok env (flight_peer f) = false | None => True end /\
    in_flight_blocks d' !! h = Some (flight p h)) hs.

(** What a whole round does. *)
Record round_spec (assigned : gset BlockHash) (peers : list SocketAddr) (n n' : Net C) (reqs : list (SocketAddr * list BlockHash)) : Prop := {
  round_inv : dl_inv (dl n');
  round_failed : failed_block_peers (dl n') = failed_block_peers (dl n);
  round_once : NoDup (concat (map snd reqs));
  round_new : forall h, h ∈ concat (map snd reqs) -> h ∉ assigned;
  round_sound : Forall (sound_request (dl n) (dl n') peers) reqs;
  round_frame : forall h f, in_flight_blocks (dl n) !! h = Some f -> send_ok env (flight_peer f) = true -> in_flight_blocks (dl n') !! h = Some f;
  round_maximal : (forall p, send_ok env p = true) -> (forall h, h ∈ assigned -> is_Some (in_flight_blocks (dl n) !! h)) ->
    forall p h, p ∈ peers -> h ∈ missing ->
    is_Some (in_flight_blocks (dl n') !! h) \/ (MAX_BLOCKS_IN_TRANSIT_PER_PEER <= workload_of (dl n') p)%nat \/ barred (dl n) p h;
}.

Lemma reachable_mono (n n' : Net C) a : dl_inv (dl n) -> dl_inv (dl n') -> (forall p, send_ok env p = true) ->
  (forall h f, in_flight_blocks (dl n) !! h = Some f -> send_ok env (flight_peer f) = true -> in_flight_blocks (dl n') !! h = Some f) ->
  (workload_of (dl n) a <= workload_of (dl n') a)%nat.
Proof.
  intros [H1 _] [H2 _] Hs Hf. rewrite H1, H2. apply flights_mono. apply map_subseteq_spec. intros h f Hh. by apply Hf.
Qed.

Lemma assign_round (peers : list NodeHandle) : forall assigned (n : Net C), dl_inv (dl n) -> NoDup (map nh_addr peers) ->
  exists n' o, assign env b_height missing assigned peers n = (tt, n', o) /\ round_spec assigned (map nh_addr peers) n n' (requests o).
Proof.
  induction peers as [|[addr sv cn] peers IH]; intros assigned n Hd Hnd.
  { exists n, []. split; [done|]. split; try done; [constructor|by intros ? ?%not_elem_of_nil|by intros _ _ p h ?%not_elem_of_nil]. }
  cbn in Hnd. apply NoDup_cons in Hnd as [Hna Hnd]. cbn [assign nh_addr]. unfold mbind, NetM_bind.
  destruct (serve_peer_turn env b_height missing assigned addr n Hd) as (req & n1 & o1 & -> & T).
  destruct (IH (list_to_set req ∪ assigned) n1 (turn_inv _ _ _ _ _ _ _ _ _ T) Hnd) as (n2 & o2 & -> & R).
  exists n2, (o1 ++ o2). split; [done|]. rewrite requests_app, (turn_out _ _ _ _ _ _ _ _ _ T).
  pose proof (turn_req _ _ _ _ _ _ _ _ _ T) as Hreq. rewrite Forall_forall in Hreq.
  pose proof (turn_failed _ _ _ _ _ _ _ _ _ T) as Hfail.
  assert (forall p h, barred (dl n1) p h <-> barred (dl n) p h) as Hbar by (intros p h; unfold barred; by rewrite Hfail).
  set (mine := match req with [] => [] | _ => if send_ok env addr then [(addr, req)] else [] end).
  assert (forall h, h ∈ concat (map snd mine) -> h ∈ req) as Hmine.
  { intros h. unfold mine. destruct req as [|r0 req0]; [done|]. destruct (send_ok env addr); [|by intros ?%not_elem_of_nil]. cbn. by rewrite app_nil_r. }
  split.
  - apply R.
  - rewrite (round_failed _ _ _ _ _ R). done.
  - rewrite map_app, concat_app. apply NoDup_app. split_and!; [|intros h Hh Hh2; apply (round_new _ _ _ _ _ R) in Hh2; apply Hmine in Hh; set_solver|apply R].
    unfold mine. destruct req as [|r0 req0]; [constructor|]. destruct (send_ok env addr); [|constructor]. cbn. rewrite app_nil_r. apply (turn_nodup _ _ _ _ _ _ _ _ _ T).
  - intros h. rewrite map_app, concat_app, elem_of_app. intros [Hh%Hmine|Hh]; [by apply Hreq in Hh as (_ & ? & _)|apply (round_new _ _ _ _ _ R) in Hh; set_solver].
  - apply Forall_app. split.
    + unfold mine. destruct req as [|r0 req0] eqn:Er; [constructor|]. rewrite <- Er in *. destruct (send_ok env addr) eqn:Es; [|constructor]. constructor; [|constructor].
      unfold sound_request. split_and!; [constructor|done|by rewrite Er|pose proof (turn_share _ _ _ _ _ _ _ _ _ T); lia|].
      apply Forall_forall. intros h Hh. destruct (Hreq h Hh) as (Q1 & _ & Q3 & Q4). split_and!; [done..|by rewrite Q3|].
      apply (round_frame _ _ _ _ _ R); [|done]. rewrite (turn_flights _ _ _ _ _ _ _ _ _ T), Er, Es, <- Er. by rewrite decide_True.
    + eapply Forall_impl; [apply R|]. intros [p hs] (S1 & S2 & S3 & S4 & S5). unfold sound_request. split_and!; [by constructor|done..|].
      eapply Forall_impl; [exact S5|]. cbn. intros h (Q1 & Q2 & Q3 & Q4). split_and!; [done|by rewrite <- Hbar| |done].
      destruct (in_flight_blocks (dl n) !! h) as [f|] eqn:Ef; [|done]. destruct (send_ok env (flight_peer f)) eqn:Es; [|done].
      rewrite (turn_frame _ _ _ _ _ _ _ _ T Ef Es) in Q3. congruence.
  - intros h f Hf Hs. apply (round_frame _ _ _ _ _ R); [|done]. by eapply turn_frame.
  - intros Hok Has p h Hp Hh.
    assert (forall x, x ∈ list_to_set req ∪ assigned -> is_Some (in_flight_blocks (dl n1) !! x)) as Has1.
    { intros x [Hx%elem_of_list_to_set|Hx]%elem_of_union.
      - rewrite (turn_flights _ _ _ _ _ _ _ _ _ T), Hok. destruct req as [|r0 req0]; [by apply not_elem_of_nil in Hx|]. rewrite decide_True by done. eauto.
      - destruct (Has x Hx) as [f Hf]. exists f. eapply turn_frame; eauto. }
    apply elem_of_cons in Hp as [->|Hp].
    + destruct (turn_maximal _ _ _ _ _ _ _ _ _ T (Hok addr)) as [Hfull|Hall].
      * right; left. etrans; [exact Hfull|]. apply reachable_mono; [apply T|apply R|done|apply R].
      * destruct (Hall h Hh) as [[f Hf]|[Hx|Hb]]; [left; exists f|left|by right; right].
        -- apply (round_frame _ _ _ _ _ R); [|done]. by eapply turn_frame.
        -- destruct (Has1 h Hx) as [f Hf]. exists f. by apply (round_frame _ _ _ _ _ R).
    + rewrite <- Hbar. by apply (round_maximal _ _ _ _ _ R).
Qed.
End Assignment.

(** ** What keeps the state right *)

Section Keeping.
Context {C : Type}.
Abbreviation dl n := (download_state (n_sync (C := C) n)).

(** Whatever it returns, the operation preserves [P]. *)
Definition net_keeps {A} (P : Net C -> Prop) (m : NetM C A) : Prop := forall n, P n -> P (m n).1.2.

Lemma net_keeps_ret {A} P (x : A) : net_keeps P (mret x).
Proof. by intros n Hn. Qed.
Lemma net_keeps_gets {A} P (f : Net C -> A) : net_keeps P (gets f).
Proof. by intros n Hn. Qed.
Lemma net_keeps_emit P o : net_keeps P (emit o).
Proof. by intros n Hn. Qed.
Lemma net_keeps_bind {A B} P (m : NetM C A) (k : A -> NetM C B) : net_keeps P m -> (forall x, net_keeps P (k x)) -> net_keeps P (m ≫= k).
Proof.
  intros Hm Hk n Hn. unfold mbind, NetM_bind. specialize (Hm n Hn). destruct (m n) as [[x n1] o1]. specialize (Hk x n1 Hm).
  by destruct (k x n1) as [[y n2] o2].
Qed.
Lemma net_keeps_when P b m : net_keeps P m -> net_keeps P (when b m).
Proof. intros Hm. destruct b; [done|apply net_keeps_ret]. Qed.
Lemma net_keeps_each {A} P (f : A -> NetM C unit) l : (forall x, net_keeps P (f x)) -> net_keeps P (each f l).
Proof. intros Hf. induction l as [|x l IH]; [apply net_keeps_ret|]. apply net_keeps_bind; [apply Hf|]. by intros _. Qed.
Lemma net_keeps_send P env to m : net_keeps P (send env to m).
Proof. unfold send. destruct (send_ok env to); [|apply net_keeps_ret]. apply net_keeps_bind; [apply net_keeps_emit|intros; apply net_keeps_ret]. Qed.
Lemma net_keeps_change P f : (forall n, P n -> P (f n)) -> net_keeps P (change f).
Proof. intros Hf n Hn. by apply Hf. Qed.
Lemma net_keeps_on_sync P f : (forall n, P n -> P (set_sync (f (n_sync n)) n)) -> net_keeps P (on_sync f).
Proof. intros Hf n Hn. by apply Hf. Qed.
Lemma net_keeps_ask_sync {A} P (f : SyncManager -> A * SyncManager) : (forall n, P n -> P (set_sync (f (n_sync n)).2 n)) -> net_keeps P (ask_sync f).
Proof. intros Hf n Hn. specialize (Hf n Hn). unfold ask_sync. by destruct (f (n_sync n)). Qed.
Lemma net_keeps_on_table P f : (forall n, P n -> P (set_table (f (n_table n)) n)) -> net_keeps P (on_table f).
Proof. intros Hf n Hn. by apply Hf. Qed.
Lemma net_keeps_tell_table P f : (forall n, P n -> P (set_table (f (n_table n)).1 n)) -> net_keeps P (tell_table f).
Proof. intros Hf n Hn. specialize (Hf n Hn). unfold tell_table. by destruct (f (n_table n)). Qed.
Lemma net_keeps_ask_chain {A} P (f : C -> A * C) : (forall n, P n -> P (set_chain (f (n_chain n)).2 n)) -> net_keeps P (ask_chain f).
Proof. intros Hf n Hn. specialize (Hf n Hn). unfold ask_chain. by destruct (f (n_chain n)). Qed.
End Keeping.

Create HintDb keeping.
Create HintDb keep_leaf.
#[export] Hint Resolve net_keeps_ret net_keeps_gets net_keeps_emit net_keeps_bind net_keeps_when net_keeps_each net_keeps_send : keeping.
(** Splits an operation into the steps that change something. *)
Ltac keep_steps := repeat first
  [ match goal with |- forall _, _ => intro end
  | solve [auto 2 with keep_leaf nocore]
  | apply net_keeps_ret | apply net_keeps_gets | apply net_keeps_emit | apply net_keeps_send
  | apply net_keeps_bind | apply net_keeps_when | apply net_keeps_each
  | match goal with |- net_keeps _ (match ?x with _ => _ end) => destruct x eqn:? end
  | match goal with |- net_keeps _ (if ?x then _ else _) => destruct x eqn:? end ].

(** ** The sync manager, the table *)

(** Peers are registered under their own address. *)
Definition table_ok (t : PeerTable) : Prop := forall a h, pt_peers t !! a = Some h -> nh_addr h = a.

Lemma table_peers_nodup {HO : HashOrder} t mask : table_ok t -> NoDup (map nh_addr (get_peers t mask)).
Proof.
  intros Hk. unfold get_peers. set (v := visit (pt_peers t)).
  assert (map nh_addr v.*2 = v.*1) as E.
  { assert (forall a h, (a, h) ∈ v -> nh_addr h = a) as Hv by (intros a h Hh; apply Hk; unfold v in Hh; rewrite visit_perm in Hh; by apply elem_of_map_to_list in Hh).
    clearbody v. induction v as [|[a h] v IH]; [done|]. cbn. f_equal; [apply Hv; constructor|]. apply IH. intros x y Hxy. apply Hv. by constructor. }
  assert (NoDup (map nh_addr v.*2)) as Hnd by (rewrite E; unfold v; rewrite visit_perm; apply NoDup_fst_map_to_list).
  clear E. induction v.*2 as [|h l IH]; [constructor|]. cbn in Hnd. apply NoDup_cons in Hnd as [Hh Hnd]. rewrite filter_cons.
  destruct (decide _); [|by apply IH]. cbn. constructor; [|by apply IH]. intros Hin. apply Hh.
  apply list_elem_of_fmap in Hin as (x & Ex & Hx%list_elem_of_filter). destruct Hx as [_ Hx]. rewrite Ex. by apply list_elem_of_fmap_2.
Qed.
Lemma download_peers_nodup {HO : HashOrder} t : table_ok t -> NoDup (map nh_addr (download_peers t)).
Proof. intros Ht. unfold download_peers. destruct (get_peers t (Some NODE_NETWORK_WITNESS)) eqn:E; [|rewrite <- E]; by apply table_peers_nodup. Qed.
Lemma get_peers_elem {HO : HashOrder} t mask h : h ∈ get_peers t mask <-> serves mask h = true /\ exists a, pt_peers t !! a = Some h.
Proof.
  unfold get_peers. rewrite list_elem_of_filter, list_elem_of_fmap. setoid_rewrite visit_perm.
  split.
  - intros [Hs ([a x] & -> & Hx)]. apply elem_of_map_to_list in Hx. split; [by apply Is_true_true|eauto].
  - intros [Hs [a Ha]]. split; [by apply Is_true_true|]. exists (a, h). split; [done|]. by apply elem_of_map_to_list.
Qed.
Lemma download_peers_connected {HO : HashOrder} t h : h ∈ download_peers t -> exists a, pt_peers t !! a = Some h.
Proof. unfold download_peers. destruct (get_peers t (Some NODE_NETWORK_WITNESS)) eqn:E; [|rewrite <- E]; by intros [_ ?]%get_peers_elem. Qed.

Lemma table_ok_remove t a : table_ok t -> table_ok (remove_peer a t).
Proof. intros Ht x h. cbn. intros [_ Hx]%lookup_delete_Some. by apply Ht. Qed.
Lemma table_ok_add t h : table_ok t -> table_ok (add_peer h t).
Proof.
  intros Ht x y. cbn. destruct (decide (x = nh_addr h)) as [->|]; [rewrite lookup_insert_eq; by intros [= <-]|rewrite lookup_insert_ne by done; apply Ht].
Qed.
Lemma table_ok_critical now a t : table_ok t -> table_ok (record_critical_failure now a t).1.
Proof. intros Ht. unfold record_critical_failure, ban_peer_internal. intros x h Hx. cbn in Hx. apply lookup_delete_Some in Hx as [_ Hx]. by apply Ht. Qed.
Lemma table_ok_misbehavior now a k t : table_ok t -> table_ok (record_misbehavior now a k t).1.
Proof.
  intros Ht. unfold record_misbehavior. destruct (_ <=? _); [|done]. intros x h Hx. cbn in Hx. apply lookup_delete_Some in Hx as [_ Hx]. by apply Ht.
Qed.

(** ** The round as a whole *)

Section Downloads.
Context {C : Type} {SP : SyncProvider C} {HO : HashOrder}.
Abbreviation dl n := (download_state (n_sync (C := C) n)).

Definition net_ok (n : Net C) : Prop := dl_inv (dl n) /\ table_ok (n_table n).

Lemma prepare_keeps env : net_keeps (C := C) net_ok (prepare_round env).
Proof.
  unfold prepare_round, check_bottleneck, clear_blacklist_on_progress, break_stall. keep_steps;
    try (apply net_keeps_on_sync || apply net_keeps_ask_sync || apply net_keeps_tell_table || apply net_keeps_change); intros ? [Hd Ht].
  - split; [by apply dl_inv_recalculate|done].
  - split; [by apply (dl_inv_prune (HO := HO))|done].
  - done.
  - split; [done|by apply table_ok_misbehavior].
  - split; [by apply dl_inv_received|done].
  - done.
  - done.
  - done.
  - split; [apply dl_inv_clear|done].
  - done.
  - done.
Qed.

Lemma bind_inv {A B} (m : NetM C A) (k : A -> NetM C B) n y n2 o : (m ≫= k) n = (y, n2, o) ->
  exists x n1 o1 o2, m n = (x, n1, o1) /\ k x n1 = (y, n2, o2) /\ o = o1 ++ o2.
Proof.
  unfold mbind, NetM_bind. destruct (m n) as [[x n1] o1] eqn:E1. destruct (k x n1) as [[y' n'] o2] eqn:E2. intros [= <- <- <-].
  by exists x, n1, o1, o2.
Qed.

(** The steps of the preparation leave the chain alone and send nothing to anyone. *)
Definition quiet {A} (m : NetM C A) : Prop := forall n x n' o, m n = (x, n', o) -> n_chain n' = n_chain n /\ requests o = [].
Lemma quiet_bind {A B} (m : NetM C A) (k : A -> NetM C B) : quiet m -> (forall x, quiet (k x)) -> quiet (m ≫= k).
Proof.
  intros Hm Hk n y n' o (x & n1 & o1 & o2 & E1 & E2 & ->)%bind_inv. apply Hm in E1 as [H1 H2]. apply Hk in E2 as [H3 H4].
  split; [congruence|]. by rewrite requests_app, H2, H4.
Qed.
Lemma quiet_ret {A} (x : A) : quiet (mret x).
Proof. by intros n y n' o [= <- <- <-]. Qed.
Lemma quiet_gets {A} (f : Net C -> A) : quiet (gets f).
Proof. by intros n y n' o [= <- <- <-]. Qed.
Lemma quiet_on_sync f : quiet (on_sync f).
Proof. by intros n y n' o [= <- <- <-]. Qed.
Lemma quiet_ask_sync {A} (f : SyncManager -> A * SyncManager) : quiet (ask_sync f).
Proof. intros n y n' o. unfold ask_sync. destruct (f (n_sync n)). by intros [= <- <- <-]. Qed.
Lemma quiet_when b m : quiet m -> quiet (when b m).
Proof. intros Hm. destruct b; [done|apply quiet_ret]. Qed.
Lemma quiet_progress p : quiet (change (set_progress p)).
Proof. by intros n y n' o [= <- <- <-]. Qed.
Lemma quiet_misbehavior now a k : quiet (tell_table (record_misbehavior now a k)).
Proof.
  intros n y n' o. unfold tell_table, record_misbehavior, finish_ban, ban_peer_internal. destruct (_ <=? _); [|by intros [= <- <- <-]].
  cbn. destruct (pt_peers (n_table n) !! a); by intros [= <- <- <-].
Qed.
Hint Resolve quiet_bind quiet_ret quiet_gets quiet_on_sync quiet_ask_sync quiet_when quiet_progress quiet_misbehavior : keeping.

Lemma quiet_bottleneck env : quiet (check_bottleneck env).
Proof. apply quiet_bind; [auto with keeping|]. intros [[[h p] d]|]; auto 10 with keeping. Qed.
Lemma quiet_blacklist b : quiet (clear_blacklist_on_progress b).
Proof. unfold clear_blacklist_on_progress. auto 10 with keeping. Qed.
Lemma quiet_stall env h b : quiet (break_stall env h b).
Proof. apply quiet_bind; [auto with keeping|]. intros p. destruct (_ <? _); auto 10 with keeping. Qed.

(** The window is asked for where the blocks end; the peers are connected. *)
Lemma prepare_result env (n n1 : Net C) o b missing peers : prepare_round env n = (Some (b, missing, peers), n1, o) ->
  b = (sp_get_blocks_tip (n_chain n)).2 /\ missing = sp_get_next_block_hashes (n_chain n) b (Z.to_nat BLOCK_DOWNLOAD_WINDOW) /\
  peers = download_peers (n_table n1) /\ requests o = [].
Proof.
  intros (? & n2 & o2 & ? & [= <- <- <-] & H & ->)%bind_inv. apply bind_inv in H as (? & n3 & o3 & ? & E3%quiet_ask_sync & H & ->). destruct E3 as [E3 O3].
  apply bind_inv in H as (? & n4 & o4 & ? & E4%quiet_bottleneck & H & ->). destruct E4 as [E4 O4].
  apply bind_inv in H as (s & n5 & o5 & ? & [= <- <- <-] & H & ->). apply bind_inv in H as ([tip b'] & n6 & o6 & ? & [= Htip <- <-] & H & ->).
  apply bind_inv in H as (? & n7 & o7 & ? & E7%quiet_blacklist & H & ->). destruct E7 as [E7 O7].
  destruct (bool_decide _); [done|]. destruct (bool_decide _); [done|].
  apply bind_inv in H as (? & n8 & o8 & ? & E8%quiet_stall & H & ->). destruct E8 as [E8 O8].
  apply bind_inv in H as (ms & n9 & o9 & ? & [= <- <- <-] & H & ->).
  assert (n_chain n8 = n_chain n) as Ec by (rewrite E8, E7, E4, E3; done). assert (n_chain n4 = n_chain n) as Ec4 by (rewrite E4, E3; done).
  destruct (sp_get_next_block_hashes _ _ _) as [|m0 ms] eqn:Em; [done|]. apply bind_inv in H as (t & n10 & o10 & ? & [= <- <- <-] & [= <- <- <- <- <-] & ->).
  rewrite Ec4 in Htip. rewrite Htip. cbn [snd]. rewrite <- Em, Ec. split_and!; try done.
  rewrite !requests_app, O3, O4, O7, O8. done.
Qed.

(** C27: A round of block download: whatever state it starts from, every block is
    requested from at most one connected peer, at most 64 at once from each, only
    blocks of the window that peer has not failed before and that are not already on
    their way from a reachable peer, and each is then recorded as in flight from the
    peer that was asked; when every request can be sent, no block of the window stays
    unrequested while a peer that may deliver it has room. *)
Theorem download_round_spec (env : NetEnv) (n n1 n' : Net C) (o o1 : list Effect) (b : Z) (missing : list BlockHash) (peers : list NodeHandle) :
  net_ok n -> prepare_round env n = (Some (b, missing, peers), n1, o1) -> coordinate_downloads env n = (tt, n', o) ->
  missing = sp_get_next_block_hashes (n_chain n) b (Z.to_nat BLOCK_DOWNLOAD_WINDOW) /\
  net_ok n' /\ NoDup (concat (map snd (requests o))) /\
  Forall (sound_request env b missing (dl n1) (dl n') (map nh_addr peers)) (requests o) /\
  ((forall p, send_ok env p = true) -> forall p h, p ∈ map nh_addr peers -> h ∈ missing ->
     is_Some (in_flight_blocks (dl n') !! h) \/ (MAX_BLOCKS_IN_TRANSIT_PER_PEER <= workload_of (dl n') p)%nat \/ barred (dl n1) p h).
Proof.
  intros Hok Hp (r & n1' & o1' & o2 & E1 & E2 & ->)%bind_inv. rewrite Hp in E1. injection E1 as <- <- <-.
  destruct (prepare_result _ _ _ _ _ _ _ Hp) as (_ & Hm & Hpeers & Ho). pose proof (prepare_keeps env n Hok) as Hok1. rewrite Hp in Hok1. destruct Hok1 as [Hd1 Ht1].
  destruct (assign_round env b missing peers ∅ n1 Hd1) as (n2 & o3 & E3 & R); [rewrite Hpeers; by apply download_peers_nodup|].
  rewrite E3 in E2. injection E2 as <- <-. rewrite requests_app, Ho. cbn [app]. split_and!; [done| |apply R|apply R|].
  - split; [apply R|]. assert (net_keeps (fun x : Net C => table_ok (n_table x)) (assign env b missing ∅ peers)) as Hk.
    { clear. generalize (∅ : gset BlockHash). induction peers as [|p l IH]; intros a; [apply net_keeps_ret|]. cbn [assign]. apply net_keeps_bind; [|intros; apply IH].
      unfold serve_peer, request_blocks, drop_peer. keep_steps; try (apply net_keeps_on_sync || apply net_keeps_on_table); intros ? ?; try done. by apply table_ok_remove. }
    specialize (Hk n1 Ht1). by rewrite E3 in Hk.
  - intros Hs. apply R; [done|set_solver].
Qed.

(** The stall check of a round can never fire: requests of 30 seconds have just
    been pruned, so that unless the clock jumps by another half minute in between, no
    block in flight is as old as the 60 seconds the check waits for; it neither
    blacklists the peer nor lowers its score. *)
Lemma stall_check_never_fires (env : NetEnv) (n : Net C) :
  (forall h, instant env < prune_clock env h + from_secs 30) ->
  let n1 := (ask_sync (prune_timeouts (prune_clock env) BLOCK_REQUEST_TIMEOUT) n).1.2 in
  check_bottleneck env n1 = (tt, n1, []).
Proof.
  intros Hclock n1. unfold check_bottleneck, mbind, NetM_bind, gets.
  pose proof (get_bottleneck_spec (instant env) (n_sync n1)) as Hb. destruct (get_bottleneck_info _ _) as [[[h p] age]|]; [|done].
  destruct Hb as (f & Hf & _ & -> & _). unfold n1 in Hf. cbn in Hf. apply map_lookup_filter_Some in Hf as [_ Hf]. unfold expired in Hf. cbn in Hf.
  apply Z.leb_gt in Hf. assert (as_secs (elapsed (instant env) (flight_start f)) < STALL_SECONDS) as Hlt.
  { specialize (Hclock h). unfold as_secs, elapsed, STALL_SECONDS, BLOCK_REQUEST_TIMEOUT, from_secs, NANOS in *. apply Z.div_lt_upper_bound; lia. }
  destruct (Z.leb_spec STALL_SECONDS (as_secs (elapsed (instant env) (flight_start f)))); [lia|done].
Qed.
End Downloads.

(** ** A concrete round *)

(** A chain that misses three blocks, two peers, a block that one of them failed to
    deliver and a block in flight from the other. *)
Definition demo_hash (n : Z) : BlockHash := replicate 32 n.
Definition demo_chain : Type := list BlockHash.
Definition demo_provider : SyncProvider demo_chain := {|
  sp_get_next_block_hashes c _ limit := take limit c;
  sp_get_block_locator _ tip := [tip];
  sp_has_next_block_on_disk _ _ := false;
  sp_get_blocks_tip _ := (demo_hash 1, 100);
  sp_activate_best_chain _ c := c;
|}.
Definition demo_peer (n : Z) : SocketAddr := mkSocketAddr (V4 [127; 0; 0; n]) 8333.
Definition demo_env : NetEnv :=
  mkNetEnv (mkEnv (fun _ => 0) (fun _ l => l) (fun _ => [])) 1000 (from_secs 50) (mkReadings 0 0 0 0) (mkBanClock 0 0 0)
    (fun _ => from_secs 50) (fun _ => from_secs 50) (fun _ => 0) (fun _ => true).
Definition demo_sync : SyncManager :=
  record_block_stumble (demo_hash 10) (demo_peer 1)
    (mark_block_in_flight (from_secs 40) (demo_hash 11) (demo_peer 2) 102
       (with_tips (demo_hash 9) 103 (demo_hash 1) 100 0)).
Definition demo_net : Net demo_chain :=
  mkNet (add_peer (mkHandle (demo_peer 1) 9 OutboundFullRelay) (add_peer (mkHandle (demo_peer 2) 9 Inbound) (PeerTable_new (AddrMan_new []))))
    demo_sync [demo_hash 10; demo_hash 11; demo_hash 12] ∅ (mkDownloadProgress 1000 100 0) (mkConnman (AddrMan_new []) ∅ ∅) ∅ no_tasks.

Lemma demo_net_ok : net_ok demo_net.
Proof.
  split.
  - unfold demo_net, demo_sync. cbn [n_sync]. unfold record_block_stumble, mark_block_in_flight. cbn [on_download download_state with_tips]. split.
    + apply exact_failed. apply exact_mark; [|done]. intros a. reflexivity.
    + intros a. change (workload_of _ a) with (workload_of (mark_in_flight (from_secs 40) (demo_hash 11) (demo_peer 2) 102 SyncDownloadState_default) a).
      rewrite workload_insert. change (workload_of SyncDownloadState_default a) with 0%nat. unfold MAX_BLOCKS_IN_TRANSIT_PER_PEER. destruct (decide _); lia.
  - apply table_ok_add, table_ok_add. intros a h Ha. cbn in Ha. by rewrite lookup_empty in Ha.
Qed.

Definition demo_round := @coordinate_downloads demo_chain demo_provider canonical_order demo_env demo_net.
Definition demo_prepared := @prepare_round demo_chain demo_provider canonical_order demo_env demo_net.
(** The first peer gets the third block, the second the first one. *)
Lemma download_round_spec_witness : NoDup (concat (map snd (requests demo_round.2))) /\
  requests demo_round.2 = [(demo_peer 1, [demo_hash 12]); (demo_peer 2, [demo_hash 10])].
Proof.
  assert (forall r p, r = demo_round -> p = demo_prepared -> match p.1.1 with Some (b, ms, ps) => NoDup (concat (map snd (requests r.2))) | None => False end) as Hgen.
  { intros [[[] n'] o] [[[[[b ms] ps]|] n1] o1] Hr Hp; [|by vm_compute in Hp]. cbn [fst snd].
    exact (proj1 (proj2 (proj2 (@download_round_spec demo_chain demo_provider canonical_order demo_env demo_net n1 n' o o1 b ms ps demo_net_ok (eq_sym Hp) (eq_sym Hr))))). }
  split; [|vm_compute; reflexivity]. specialize (Hgen demo_round demo_prepared eq_refl eq_refl).
  destruct (demo_prepared.1.1) as [[[b ms] ps]|]; [exact Hgen|destruct Hgen].
Defined.

Lemma stall_check_never_fires_witness :
  let n1 := (ask_sync (@prune_timeouts canonical_order (prune_clock demo_env) BLOCK_REQUEST_TIMEOUT) demo_net).1.2 in
  @check_bottleneck demo_chain canonical_order demo_env n1 = (tt, n1, []).
Proof.
  apply (@stall_check_never_fires demo_chain canonical_order demo_env demo_net). intros h. reflexivity.
Defined.
