(* ===== verification/NetProofs.v ===== *)
(** * Properties of the network layer

    How addresses are chosen, and what every sequence of network events preserves. *)

From S2P Require Import Prelude Wire Hash Transaction Block Params BlockFile Chainstate Node P2P P2PProofs AddrMan AddrManProofs Sync SyncProofs PeerTable Peers Downloader DownloaderProofs Connect.

(** ** Counting connections *)

Lemma count_insert {A} (f : A -> Prop) `{!forall x, Decision (f x)} (m : gmap SocketAddr A) a x :
  (length (filter f (map_to_list (<[a := x]> m)).*2) <= (if decide (f x) then 1 else 0) + length (filter f (map_to_list m).*2))%nat.
Proof.
  rewrite <- insert_delete_eq, map_to_list_insert by apply lookup_delete_eq. cbn [fmap list_fmap snd]. rewrite filter_cons.
  assert (length (filter f (map_to_list (delete a m)).*2) <= length (filter f (map_to_list m).*2))%nat as Hd.
  { destruct (m !! a) as [y|] eqn:Ey; [|by rewrite delete_id]. rewrite <- (map_to_list_delete m a y Ey). cbn [fmap list_fmap snd]. rewrite filter_cons.
    destruct (decide (f y)); cbn; lia. }
  destruct (decide (f x)); cbn; lia.
Qed.
Lemma count_delete {A} (f : A -> Prop) `{!forall x, Decision (f x)} (m : gmap SocketAddr A) a :
  length (filter f (map_to_list m).*2) =
  (match m !! a with Some x => if decide (f x) then 1 else 0 | None => 0 end + length (filter f (map_to_list (delete a m)).*2))%nat.
Proof.
  destruct (m !! a) as [y|] eqn:Ey; [|by rewrite delete_id]. rewrite <- (map_to_list_delete m a y Ey) at 1. cbn [fmap list_fmap snd]. rewrite filter_cons.
  by destruct (decide (f y)).
Qed.

(** ** Choosing addresses *)

Lemma push_variants_elem l a x : x ∈ push_address_variants l a -> x ∈ l \/ x ∈ push_address_variants [] a.
Proof. unfold push_address_variants. rewrite elem_of_app. cbn. tauto. Qed.
Lemma push_variants_self l a : a ∈ push_address_variants l a.
Proof. unfold push_address_variants. rewrite elem_of_app, elem_of_cons. tauto. Qed.
Lemma push_variants_keep l a x : x ∈ l -> x ∈ push_address_variants l a.
Proof. unfold push_address_variants. rewrite elem_of_app. tauto. Qed.
Lemma excluded_elem (l : list SocketAddr) : forall acc x, x ∈ acc \/ (exists a, a ∈ l /\ x ∈ push_address_variants [] a) ->
  x ∈ fold_left push_address_variants l acc.
Proof.
  induction l as [|a l IH]; intros acc x; [intros [?|(? & ?%not_elem_of_nil & _)]; done|]. cbn [fold_left]. intros Hx. apply IH.
  destruct Hx as [Hx|(b & [->|Hb]%elem_of_cons & Hx)]; [left; by apply push_variants_keep| |right; eauto].
  left. unfold push_address_variants in *. rewrite elem_of_app. by right.
Qed.

Lemma variants_sym a x : x ∈ push_address_variants [] a -> a ∈ push_address_variants [] x.
Proof.
  unfold push_address_variants. rewrite !app_nil_l. intros [->|Hv]%elem_of_cons; [constructor|]. destruct a as [[o|o] p]; cbn [ip port] in Hv.
  - apply list_elem_of_singleton in Hv as ->. cbn [ip port]. rewrite mapped_roundtrip. apply elem_of_cons. right. by apply list_elem_of_singleton.
  - destruct (to_ipv4_mapped o) as [v4|] eqn:E4; [|by apply not_elem_of_nil in Hv]. apply list_elem_of_singleton in Hv as ->. cbn [ip port].
    apply elem_of_cons. right. apply list_elem_of_singleton. do 2 f_equal. unfold to_ipv4_mapped in E4. case_bool_decide as Ep; [|done]. injection E4 as <-.
    unfold to_ipv6_mapped. by rewrite <- Ep, take_drop.
Qed.

Section Addresses.
Context {HO : HashOrder}.

(** An address that is dialled is neither connected nor pending, in either of its
    two forms, and is due. *)
Lemma get_best_address_spec now t pending a : (forall x i, map_info (pt_addr_man t) !! x = Some i -> ai_addr i = x) ->
  get_best_address now t pending = Some a ->
  (exists i, map_info (pt_addr_man t) !! a = Some i /\ is_connectable (now a) i = true) /\
  (forall x, x ∈ push_address_variants [] a -> pt_peers t !! x = None /\ x ∉ pending).
Proof.
  intros Hk Hb. assert (exists i, map_info (pt_addr_man t) !! a = Some i /\ is_connectable (now a) i = true /\ a ∉ excluded t pending) as (i & Hi & Hc & Hx).
  { unfold get_best_address, select_address in Hb. pose proof (select_where_spec (fun e => is_ipv4 (ai_addr e)) now (pt_addr_man t) (excluded t pending) Hk) as H4.
    pose proof (select_where_spec (fun _ => true) now (pt_addr_man t) (excluded t pending) Hk) as H6. fold select_best_ipv4 in H4. fold select_best in H6.
    destruct (select_best_ipv4 now (pt_addr_man t) (excluded t pending)) as [x|].
    - injection Hb as ->. destruct H4 as (i & ? & (? & ? & ?) & _). eauto.
    - rewrite Hb in H6. destruct H6 as (i & ? & (? & ? & ?) & _). eauto. }
  split; [eauto|]. intros x Hv.
  assert (forall y, y ∈ (visit (pt_peers t)).*1 ++ pending -> x = y -> False) as Hno.
  { intros y Hy ->. apply Hx. unfold excluded. apply excluded_elem. right. exists y. split; [done|].
    by apply variants_sym. }
  split.
  - apply eq_None_not_Some. intros [h Hh]. apply (Hno x); [|done]. apply elem_of_app. left. apply list_elem_of_fmap. exists (x, h). split; [done|].
    rewrite visit_perm. by apply elem_of_map_to_list.
  - intros Hp. apply (Hno x); [|done]. apply elem_of_app. by right.
Qed.
End Addresses.

(** ** Events *)

(** What happens to the network layer: a message, the end of a connection, the timers
    of the downloader, an accepted connection, a step of a loop of the initiator or of
    the task of a connection, and a DNS lookup. *)
Inductive NetEvent : Type :=
  | EvMessage (id : NodeId) (m : Message)
  | EvClosed (id : NodeId)
  | EvHeaderRound
  | EvDownloadRound
  | EvConnectorTick
  | EvAccept (stream : bytes) (addr : SocketAddr)
  | EvFill
  | EvFeeler
  | EvConn (i : nat) (magic : Magic) (nonce : Z) (dial : Dial) (timer : bool)
  | EvSeed (resolved : list (option (list SocketAddr))).

Section Events.
Context {C : Type} {VI : ValidationInterface C} {SP : SyncProvider C} {D : Digests} {H : DefaultHasher}.

Definition run_event (HO : HashOrder) (env : NetEnv) (e : NetEvent) : NetM C unit :=
  match e with
  | EvMessage id m => process_message env id m
  | EvClosed id => finalize_node id
  | EvHeaderRound => coordinate_headers env
  | EvDownloadRound => coordinate_downloads env
  | EvConnectorTick => connector_tick env
  | EvAccept stream addr => accept_connection env stream addr
  | EvFill => fill_step env
  | EvFeeler => feeler_step env
  | EvConn i magic nonce dial timer => run_conn env magic nonce dial timer i
  | EvSeed resolved => on_table (seed_from_dns resolved)
  end.
Definition run_events (l : list (HashOrder * NetEnv * NetEvent)) (n : Net C) : Net C :=
  fold_left (fun n '(HO, env, e) => (run_event HO env e n).1.2) l n.

(** ** The invariant *)

Definition quota (c : ConnectionType) : nat :=
  match c with
  | OutboundFullRelay => MAX_OUTBOUND_FULL_RELAY_CONNECTIONS
  | BlockRelayOnly => MAX_BLOCK_RELAY_ONLY_CONNECTIONS
  | _ => MAX_FEELER_CONNECTIONS
  end.
Definition tips_ge (h0 b0 : Z) (s : SyncManager) : Prop := h0 <= sm_headers_height s /\ b0 <= sm_blocks_height s.

(** The attempts of a type that a turn of the initiator has still to start, and a turn
    that is about the types of [turn] with their targets. *)
Definition still_to_start (pc : InitiatorPc) (c : ConnectionType) : nat :=
  match pc with
  | Attempting c' k _ | Excluding c' k _ _ | Selecting c' k _ _ | Selected c' k _ _ => if decide (c' = c) then k else 0
  | _ => 0
  end.
Definition pc_within (turn : list (ConnectionType * nat)) (pc : InitiatorPc) : Prop :=
  match pc with
  | Resting => True
  | Counting c target rest | Counted c target _ rest => (c, target) ∈ turn /\ rest ⊆ turn
  | Attempting c _ rest => c ∈ turn.*1 /\ rest ⊆ turn
  | Excluding c k _ rest | Selecting c k _ rest | Selected c k _ rest => c ∈ turn.*1 /\ (0 < k)%nat /\ rest ⊆ turn
  end.

(** Everything but the blocks in flight: the tips have not fallen below [h0] and [b0],
    both address tables are consistent, and the pending attempts of an outbound type,
    with those the initiator has still to start, are within its quota. *)
Record net_rest (h0 b0 : Z) (n : Net C) : Prop := {
  nr_tips : tips_ge h0 b0 (n_sync n);
  nr_table : addrman_inv (pt_addr_man (n_table n));
  nr_connman : addrman_inv (cm_addr_man (n_connman n));
  nr_fill : pc_within fill_connections (fill_pc (n_tasks n));
  nr_feeler : pc_within run_feeler (feeler_pc (n_tasks n));
  nr_pending : forall c, is_outbound c = true ->
    (pending_count n c + still_to_start (fill_pc (n_tasks n)) c + still_to_start (feeler_pc (n_tasks n)) c <= quota c)%nat;
}.
Definition net_inv (h0 b0 : Z) (n : Net C) : Prop := net_ok n /\ net_rest h0 b0 n.

Lemma finish_tips h0 b0 id s : tips_ge h0 b0 s -> tips_ge h0 b0 (finish_header_request id s).
Proof. unfold finish_header_request. destruct (header_request s) as [r|]; [destruct (bool_decide _)|]; done. Qed.
Lemma update_headers_tips h0 b0 x h t s : tips_ge h0 b0 s -> tips_ge h0 b0 (update_headers_tip x h t s).
Proof. unfold update_headers_tip, tips_ge. destruct (Z.leb_spec (sm_headers_height s) h); [cbn; lia|done]. Qed.
Lemma update_blocks_tips h0 b0 x h s : tips_ge h0 b0 s -> tips_ge h0 b0 (update_blocks_tip x h s).
Proof. unfold update_blocks_tip, tips_ge. destruct (Z.leb_spec (sm_blocks_height s) h); [cbn; lia|done]. Qed.
Lemma halve_tips h0 b0 s : tips_ge h0 b0 s -> tips_ge h0 b0 (halve_stalling_timeout s).
Proof. unfold halve_stalling_timeout. by destruct (2 <? _). Qed.
Lemma begin_tips h0 b0 now id x h t s : tips_ge h0 b0 s -> tips_ge h0 b0 (try_begin_header_request now id x h t s).2.
Proof. rewrite try_begin_header_request_spec. cbv zeta. intros Hs. repeat case_match; done. Qed.
Lemma sync_peers_spec now l : forall s, let s' := (sync_peers now l s).2 in
  download_state s' = download_state s /\ sm_headers_height s' = sm_headers_height s /\ sm_blocks_height s' = sm_blocks_height s.
Proof.
  induction l as [|h l IH]; intros s; [done|]. cbn [sync_peers]. unfold can_peer_sync_headers.
  set (s1 := with_cooldowns _ s). specialize (IH s1). destruct (sync_peers now l s1) as [hs s2]. done.
Qed.

Lemma begin_download now id x h t s : download_state (try_begin_header_request now id x h t s).2 = download_state s.
Proof. rewrite try_begin_header_request_spec. cbv zeta. repeat case_match; done. Qed.
Lemma headers_tip_download x h t s : download_state (update_headers_tip x h t s) = download_state s.
Proof. unfold update_headers_tip. by destruct (_ <=? _). Qed.
Lemma blocks_tip_download x h s : download_state (update_blocks_tip x h s) = download_state s.
Proof. unfold update_blocks_tip. by destruct (_ <=? _). Qed.
Lemma halve_download s : download_state (halve_stalling_timeout s) = download_state s.
Proof. unfold halve_stalling_timeout. by destruct (2 <? _). Qed.

(** *** Steps on the sync manager and the table *)

Lemma ok_on_sync f : (forall s, dl_inv (download_state s) -> dl_inv (download_state (f s))) -> net_keeps (C := C) net_ok (on_sync f).
Proof. intros Hf. apply net_keeps_on_sync. intros n [Hd Ht]. split; [by apply Hf|done]. Qed.
Lemma ok_on_table f : (forall t, table_ok t -> table_ok (f t)) -> net_keeps (C := C) net_ok (on_table f).
Proof. intros Hf. apply net_keeps_on_table. intros n [Hd Ht]. split; [done|by apply Hf]. Qed.
Lemma rest_on_sync h0 b0 f : (forall s, tips_ge h0 b0 s -> tips_ge h0 b0 (f s)) -> net_keeps (C := C) (net_rest h0 b0) (on_sync f).
Proof. intros Hf. apply net_keeps_on_sync. intros n []. split; [by apply Hf|done..]. Qed.
Lemma rest_on_table h0 b0 f : (forall t, addrman_inv (pt_addr_man t) -> addrman_inv (pt_addr_man (f t))) -> net_keeps (C := C) (net_rest h0 b0) (on_table f).
Proof. intros Hf. apply net_keeps_on_table. intros n []. split; [done|by apply Hf|done..]. Qed.
Lemma rest_remove h0 b0 a : net_keeps (C := C) (net_rest h0 b0) (on_table (remove_peer a)).
Proof. by apply rest_on_table. Qed.
Lemma rest_tell h0 b0 f : (forall t, addrman_inv (pt_addr_man t) -> addrman_inv (pt_addr_man (f t).1)) -> net_keeps (C := C) (net_rest h0 b0) (tell_table f).
Proof. intros Hf. apply net_keeps_tell_table. intros n []. split; [done|by apply Hf|done..]. Qed.
Lemma rest_misbehavior h0 b0 now a k : net_keeps (C := C) (net_rest h0 b0) (tell_table (record_misbehavior now a k)).
Proof. apply rest_tell; intros t; unfold record_misbehavior; destruct (_ <=? _); [|done]. intros Hi. cbn. by apply record_failure_spec. Qed.
Lemma rest_critical h0 b0 now a : net_keeps (C := C) (net_rest h0 b0) (tell_table (record_critical_failure now a)).
Proof. apply rest_tell; intros t Hi. cbn. by apply record_failure_spec. Qed.

(** *** Handlers, for the blocks in flight *)

Lemma ok_chain {A} (f : C -> A * C) : net_keeps net_ok (ask_chain f).
Proof. by apply net_keeps_ask_chain. Qed.
#[local] Hint Resolve ok_chain : keep_leaf.
Lemma ok_ask_sync {A} (f : SyncManager -> A * SyncManager) : (forall s, download_state (f s).2 = download_state s) -> net_keeps (C := C) net_ok (ask_sync f).
Proof. intros Hf. apply net_keeps_ask_sync. intros n [Hd Ht]. split; [cbn; by rewrite Hf|done]. Qed.
Lemma ok_misbehaving env id k : net_keeps (C := C) net_ok (misbehaving env id k).
Proof.
  intros n Hn. unfold misbehaving. destruct (n_peers n !! id) as [p|]; [|done]. apply net_keeps_tell_table; [|done].
  intros m [Hd Ht]. split; [done|]. cbn. destruct (_ && _); [by apply table_ok_critical|by apply table_ok_misbehavior].
Qed.
#[local] Hint Resolve ok_misbehaving : keep_leaf.
Lemma ok_finish id : net_keeps (C := C) net_ok (on_sync (finish_header_request id)).
Proof. apply ok_on_sync. intros s Hs. by rewrite finish_download. Qed.
#[local] Hint Resolve ok_finish : keep_leaf.
Lemma ok_received hash : net_keeps (C := C) net_ok (on_sync (mark_block_received hash)).
Proof. apply ok_on_sync. intros s Hs. by apply dl_inv_received. Qed.
#[local] Hint Resolve ok_received : keep_leaf.
Lemma ok_disconnect id : net_keeps (C := C) net_ok (on_sync (on_peer_disconnect id)).
Proof. apply ok_on_sync. intros s Hs. unfold on_peer_disconnect. rewrite finish_download. by apply dl_inv_release. Qed.
#[local] Hint Resolve ok_disconnect : keep_leaf.
Lemma ok_remove id : net_keeps (C := C) net_ok (on_table (remove_peer id)).
Proof. apply ok_on_table. intros t. apply table_ok_remove. Qed.
#[local] Hint Resolve ok_remove : keep_leaf.
Lemma ok_request env id tip h : net_keeps (C := C) net_ok (request_headers env id tip h).
Proof. unfold request_headers. keep_steps. apply ok_ask_sync. intros s. apply begin_download. Qed.
#[local] Hint Resolve ok_request : keep_leaf.
Lemma ok_message env id m : net_keeps (C := C) net_ok (process_message env id m).
Proof.
  destruct m; cbn [process_message]; unfold on_headers, on_block, on_not_found, on_ping; keep_steps.
  - apply ok_on_sync. intros s Hs. by rewrite headers_tip_download.
  - apply ok_on_sync. intros s Hs. by rewrite halve_download.
Qed.
#[local] Hint Resolve ok_message : keep_leaf.
Lemma ok_headers HO env : net_keeps (C := C) net_ok (@coordinate_headers C SP HO env).
Proof.
  unfold coordinate_headers, drop_peer. keep_steps.
  - apply ok_ask_sync. intros s. by apply sync_peers_spec.
  - apply ok_ask_sync. intros s. apply begin_download.
Qed.
#[local] Hint Resolve ok_headers : keep_leaf.
Lemma ok_downloads HO env : net_keeps (C := C) net_ok (@coordinate_downloads C SP HO env).
Proof.
  intros n Hn. unfold coordinate_downloads. pose proof (prepare_keeps (HO := HO) env n Hn) as H1. unfold mbind, NetM_bind.
  destruct (prepare_round env n) as [[[[[b ms] ps]|] n1] o1] eqn:Ep; [|done]. cbn in H1. destruct H1 as [Hd Ht].
  destruct (prepare_result _ _ _ _ _ _ _ Ep) as (_ & _ & Hps & _).
  destruct (assign_round env b ms ps ∅ n1 Hd ltac:(rewrite Hps; by apply download_peers_nodup)) as (n2 & o2 & E2 & R). rewrite E2. cbn.
  split; [apply R|]. assert (net_keeps (fun x : Net C => table_ok (n_table x)) (assign env b ms ∅ ps)) as Hk.
  { clear. generalize (∅ : gset BlockHash). induction ps as [|p l IH]; intros a; [apply net_keeps_ret|]. cbn [assign]. apply net_keeps_bind; [|intros; apply IH].
    unfold serve_peer, request_blocks, drop_peer. keep_steps; try (apply net_keeps_on_sync || apply net_keeps_on_table); intros ? ?; try done. by apply table_ok_remove. }
  specialize (Hk n1 Ht). by rewrite E2 in Hk.
Qed.
#[local] Hint Resolve ok_downloads : keep_leaf.
Lemma ok_banned now i : net_keeps (C := C) net_ok (cm_is_banned now i).
Proof. intros n Hn. unfold cm_is_banned. destruct (cm_ban_list _ !! i); [destruct (now <? _)|]; done. Qed.
Lemma ok_change (f : Net C -> Net C) : (forall n, n_sync (f n) = n_sync n /\ n_table (f n) = n_table n) -> net_keeps net_ok (change f).
Proof. intros Hf. apply net_keeps_change. intros n [Hd Ht]. destruct (Hf n) as [E1 E2]. unfold net_ok. by rewrite E1, E2. Qed.
Lemma ok_add h : net_keeps (C := C) net_ok (on_table (add_peer h)).
Proof. apply ok_on_table. intros t. apply table_ok_add. Qed.
#[local] Hint Resolve ok_banned ok_add : keep_leaf.
Lemma ok_height id h : net_keeps (C := C) net_ok (on_sync (update_peer_height id h)).
Proof. by apply ok_on_sync. Qed.
#[local] Hint Resolve ok_height : keep_leaf.
Lemma ok_conn env magic nonce dial timer t : net_keeps (C := C) net_ok (conn_step env magic nonce dial timer t).
Proof.
  unfold conn_step, begin_handshake, with_nonces, initialize_node, on_cm_addr_man. cbv zeta. keep_steps; try by apply ok_change.
  apply ok_ask_sync. intros s. apply begin_download.
Qed.
Lemma ok_initiator HO turn needed_of env pc : net_keeps (C := C) net_ok (@initiator_step C HO turn needed_of env pc).
Proof. unfold initiator_step. keep_steps; by apply ok_change. Qed.
#[local] Hint Resolve ok_conn ok_initiator : keep_leaf.

Lemma ok_event HO env e : net_keeps (C := C) net_ok (run_event HO env e).
Proof.
  destruct e; cbn [run_event]; unfold finalize_node, connector_tick, accept_connection, fill_step, feeler_step, run_conn; keep_steps;
    try by apply ok_change.
  - apply ok_on_sync. intros s Hs. by rewrite blocks_tip_download.
  - apply ok_on_table. intros t Ht. unfold seed_from_dns.
    assert (forall l t, table_ok t -> table_ok (fold_left (fun t r => match r with Some addrs => add_addresses (map from_socket_addr addrs) unspecified t | None => t end) l t)) as Hgen.
    { intros l. induction l as [|[x|] l IH]; intros t1 Ht1; cbn [fold_left]; [done| |by apply IH]. apply IH. done. }
    by apply Hgen.
Qed.

(** *** Handlers, for the rest *)

Section Rest.
Context (h0 b0 : Z).
Abbreviation rest := (net_rest h0 b0).

Lemma rest_chain {A} (f : C -> A * C) : net_keeps rest (ask_chain f).
Proof. apply net_keeps_ask_chain. by intros n []. Qed.
Lemma rest_ask_sync {A} (f : SyncManager -> A * SyncManager) : (forall s, tips_ge h0 b0 s -> tips_ge h0 b0 (f s).2) -> net_keeps rest (ask_sync f).
Proof. intros Hf. apply net_keeps_ask_sync. intros n []. split; [by apply Hf|done..]. Qed.
Lemma rest_misbehaving env id k : net_keeps rest (misbehaving env id k).
Proof.
  intros n Hn. unfold misbehaving. destruct (n_peers n !! id) as [p|]; [|done].
  destruct (_ && _); [apply rest_critical|apply rest_misbehavior]; by destruct Hn.
Qed.
Lemma rest_finish id : net_keeps rest (on_sync (finish_header_request id)).
Proof. apply rest_on_sync. intros s. apply finish_tips. Qed.
Lemma rest_download f : net_keeps rest (on_sync (on_download f)).
Proof. by apply rest_on_sync. Qed.
Lemma rest_disconnect id : net_keeps rest (on_sync (on_peer_disconnect id)).
Proof. apply rest_on_sync. intros s Hs. unfold on_peer_disconnect. by apply finish_tips. Qed.
Lemma rest_remove_peer id : net_keeps rest (on_table (remove_peer id)).
Proof. apply rest_remove. Qed.
#[local] Hint Resolve rest_chain rest_misbehaving rest_finish rest_disconnect rest_remove_peer : keep_leaf.
Lemma rest_begin now id x h t : net_keeps rest (ask_sync (try_begin_header_request now id x h t)).
Proof. apply rest_ask_sync. intros s. apply begin_tips. Qed.
#[local] Hint Resolve rest_begin : keep_leaf.
Lemma rest_request env id tip h : net_keeps rest (request_headers env id tip h).
Proof. unfold request_headers. keep_steps. Qed.
#[local] Hint Resolve rest_request : keep_leaf.

Lemma rest_message env id m : net_keeps rest (process_message env id m).
Proof.
  destruct m; cbn [process_message]; unfold on_headers, on_block, on_not_found, on_ping; keep_steps; try apply rest_download.
  - apply rest_on_sync. intros s. apply update_headers_tips.
  - apply rest_on_sync. intros s. apply halve_tips.
Qed.
Lemma rest_headers HO env : net_keeps rest (@coordinate_headers C SP HO env).
Proof.
  unfold coordinate_headers, drop_peer. keep_steps. apply rest_ask_sync. intros s Hs. unfold tips_ge.
  by destruct (sync_peers_spec (peer_clock env) (get_peers x0 (Some NODE_NETWORK)) s) as (_ & -> & ->).
Qed.
Lemma rest_downloads HO env : net_keeps rest (@coordinate_downloads C SP HO env).
Proof.
  unfold coordinate_downloads, prepare_round, check_bottleneck, clear_blacklist_on_progress, break_stall.
  keep_steps; try apply rest_download; try apply rest_misbehavior; try (apply net_keeps_change; by intros ? []).
  clear. generalize (∅ : gset BlockHash). induction l as [|pr ps IH]; intros a; [apply net_keeps_ret|]. cbn [assign]. apply net_keeps_bind; [|intros; apply IH].
  unfold serve_peer, request_blocks, drop_peer. keep_steps; apply rest_download.
Qed.

Lemma rest_banned now i : net_keeps rest (cm_is_banned now i).
Proof. intros n []. unfold cm_is_banned. destruct (cm_ban_list _ !! i); [destruct (now <? _)|]; done. Qed.
Lemma rest_add h : net_keeps rest (on_table (add_peer h)).
Proof. by apply rest_on_table. Qed.
Lemma rest_height id h : net_keeps rest (on_sync (update_peer_height id h)).
Proof. by apply rest_on_sync. Qed.
#[local] Hint Resolve rest_banned rest_add rest_height : keep_leaf.
Lemma rest_cm_addr_man f : (forall m, addrman_inv m -> addrman_inv (f m)) -> net_keeps rest (on_cm_addr_man f).
Proof. intros Hf. apply net_keeps_change. intros n []. split; [done|done|by apply Hf|done..]. Qed.
Lemma rest_unpend a : net_keeps rest (change (fun n => set_pending (delete a (pending_attempts n)) n)).
Proof.
  apply net_keeps_change. intros n []. split; [done..|]. intros c Hc. specialize (nr_pending0 c Hc). unfold pending_count in *. cbn in *.
  rewrite (count_delete (fun p => p = c) _ a) in nr_pending0. lia.
Qed.
#[local] Hint Resolve rest_unpend : keep_leaf.
Lemma rest_conn env magic nonce dial timer t : net_keeps rest (conn_step env magic nonce dial timer t).
Proof.
  unfold conn_step, begin_handshake, with_nonces, initialize_node. cbv zeta. keep_steps; try (apply net_keeps_change; by intros ? []).
  apply rest_cm_addr_man. intros m Hm. destruct outcome; [by apply record_success_spec|by apply record_failure_spec].
Qed.

(** A step of a loop keeps within the quotas of its types and leaves the others. *)
Lemma to_start_outside turn pc c : pc_within turn pc -> c ∉ turn.*1 -> still_to_start pc c = 0%nat.
Proof. destruct pc; cbn; try done; intros [Hc _] Hn; (rewrite decide_False; [done|by intros ->]). Qed.
Lemma next_type_within turn rest : rest ⊆ turn -> pc_within turn (next_type rest) /\ forall c, still_to_start (next_type rest) c = 0%nat.
Proof. destruct rest as [|[c t] l]; [done|]. intros Hs. cbn. split; [|done]. split; [apply Hs; left|]. intros x Hx. apply Hs. by right. Qed.
Lemma initiator_room HO turn needed_of env pc (n : Net C) :
  (forall c t, (c, t) ∈ turn -> t = quota c) -> (forall a p t, (p <= t -> p + needed_of a p t <= t)%nat) -> pc_within turn pc ->
  let '(pc', n', _) := @initiator_step C HO turn needed_of env pc n in
  pc_within turn pc' /\ n_sync n' = n_sync n /\ n_table n' = n_table n /\ n_connman n' = n_connman n /\
  fill_pc (n_tasks n') = fill_pc (n_tasks n) /\ feeler_pc (n_tasks n') = feeler_pc (n_tasks n) /\
  (forall c, c ∈ turn.*1 -> (pending_count n c + still_to_start pc c <= quota c -> pending_count n' c + still_to_start pc' c <= quota c)%nat) /\
  (forall c, c ∉ turn.*1 -> (pending_count n' c <= pending_count n c)%nat).
Proof.
  intros Hq Hneed Hpc. destruct pc as [|c t l|c t a l|c [|k] l|c k p l|c k e l|c k [a|] l]; cbn [initiator_step]; unfold mbind, NetM_bind, gets, change, mret, NetM_ret; cbn [id]; cbv beta iota zeta.
  1: destruct (next_type_within turn turn) as [H1 H2]; [done|]; do 6 (split; [done|]); split; intros c0 _; rewrite ?H2; cbn; lia.
  3, 8: cbn in Hpc; assert (l ⊆ turn) as Hl by tauto; destruct (next_type_within turn l Hl) as [H1 H2]; do 6 (split; [done|]); split; intros c0 _; rewrite ?H2; cbn; lia.
  - split_and!; try done; cbn; intros; lia.
  - cbn in Hpc. destruct Hpc as [Hc Hl]. split_and!; try done; [cbn; split; [|done]; by apply (list_elem_of_fmap_2 fst _ (c, t))|].
    intros c0 _. cbn. intros H0. destruct (decide (c = c0)) as [<-|]; [|lia]. rewrite (Hq c t Hc). apply Hneed. lia.
  - cbn in Hpc. split; [cbn; split_and!; [apply Hpc|lia|apply Hpc]|]. split_and!; try done; cbn; intros; lia.
  - split_and!; try done; cbn; intros; lia.
  - split_and!; try done; cbn; intros; lia.
  - cbn in Hpc. destruct Hpc as (Hc & Hk & Hl).
    assert (forall c0, (pending_count (spawn_conn (mkConnTask a c CStart) (set_pending (<[a := c]> (pending_attempts n)) n)) c0 <= (if decide (c = c0) then 1 else 0) + pending_count n c0)%nat) as Hi
      by (intros c0; pose proof (count_insert (fun p => p = c0) (pending_attempts n) a c) as Hi; unfold pending_count; cbn in *; destruct (decide (c = c0)); lia).
    do 6 (split; [done|]). split; intros c0 Hc0; specialize (Hi c0); cbn [still_to_start]; destruct (decide (c = c0)) as [<-|Hne]; [lia..|by destruct Hc0|lia].
Qed.

Lemma fill_quotas : forall c t, (c, t) ∈ fill_connections -> t = quota c.
Proof. intros c t [[= -> ->]|[[= -> ->]|[]%elem_of_nil]%elem_of_cons]%elem_of_cons; done. Qed.
Lemma feeler_quotas : forall c t, (c, t) ∈ run_feeler -> t = quota c.
Proof. intros c t [[= -> ->]|[]%elem_of_nil]%elem_of_cons; done. Qed.
Lemma rest_fill HO env : net_keeps rest (@fill_step C HO env).
Proof.
  intros n [H1 H2 H3 H4 H5 H6]. unfold fill_step, mbind, NetM_bind, gets. cbn [id].
  pose proof (initiator_room HO fill_connections connection_deficit env (fill_pc (n_tasks n)) n fill_quotas ltac:(unfold connection_deficit; lia) H4) as Hr.
  destruct (initiator_step _ _ _ _ _) as [[pc n1] o1]. destruct Hr as (R1 & E1 & E2 & E3 & E4 & E5 & R2 & R3).
  unfold change. cbn. split; cbn; rewrite ?E1, ?E2, ?E3, ?E4, ?E5; try done. intros c Hc. specialize (H6 c Hc). change (pending_count (set_fill pc n1) c) with (pending_count n1 c).
  destruct (decide (c ∈ fill_connections.*1)) as [Hin|Hout].
  - assert (still_to_start (feeler_pc (n_tasks n)) c = 0%nat) as Hz by (apply (to_start_outside run_feeler); [done|]; clear -Hin; cbn in *; set_solver).
    rewrite Hz in *. specialize (R2 c Hin). lia.
  - rewrite (to_start_outside fill_connections pc c R1 Hout). specialize (R3 c Hout). lia.
Qed.
Lemma rest_feeler HO env : net_keeps rest (@feeler_step C HO env).
Proof.
  intros n [H1 H2 H3 H4 H5 H6]. unfold feeler_step, mbind, NetM_bind, gets. cbn [id].
  assert (forall a p t, (p <= t -> p + feeler_needed a p t <= t)%nat) as Hn by (intros a p t Hp; unfold feeler_needed; destruct (Nat.leb_spec t (a + p)); lia).
  pose proof (initiator_room HO run_feeler feeler_needed env (feeler_pc (n_tasks n)) n feeler_quotas Hn H5) as Hr.
  destruct (initiator_step _ _ _ _ _) as [[pc n1] o1]. destruct Hr as (R1 & E1 & E2 & E3 & E4 & E5 & R2 & R3).
  unfold change. cbn. split; cbn; rewrite ?E1, ?E2, ?E3, ?E4, ?E5; try done. intros c Hc. specialize (H6 c Hc). change (pending_count (set_feeler pc n1) c) with (pending_count n1 c).
  destruct (decide (c ∈ run_feeler.*1)) as [Hin|Hout].
  - assert (still_to_start (fill_pc (n_tasks n)) c = 0%nat) as Hz by (apply (to_start_outside fill_connections); [done|]; clear -Hin; cbn in *; set_solver).
    rewrite Hz in *. specialize (R2 c Hin). lia.
  - rewrite (to_start_outside run_feeler pc c R1 Hout). specialize (R3 c Hout). lia.
Qed.
Lemma rest_seed resolved : net_keeps rest (on_table (seed_from_dns resolved)).
Proof.
  apply rest_on_table. unfold seed_from_dns. induction resolved as [|[x|] l IH]; intros t Ht; cbn [fold_left]; [done| |by apply IH]. apply IH.
  cbn. generalize dependent (pt_addr_man t). induction (map from_socket_addr x) as [|y l' IH']; intros m Hm; [done|]. cbn. apply IH'. by apply add_spec.
Qed.

Lemma rest_event HO env e : net_keeps rest (run_event HO env e).
Proof.
  destruct e; cbn [run_event].
  - apply rest_message.
  - unfold finalize_node. keep_steps. apply net_keeps_change. by intros ? [].
  - apply rest_headers.
  - apply rest_downloads.
  - unfold connector_tick. keep_steps. apply rest_on_sync. intros s. apply update_blocks_tips.
  - unfold accept_connection. apply net_keeps_bind; [apply rest_banned|]. intros [|]; [keep_steps|]. apply net_keeps_change. by intros ? [].
  - apply rest_fill.
  - apply rest_feeler.
  - unfold run_conn. keep_steps; [apply rest_conn|]. apply net_keeps_change. by intros ? [].
  - apply rest_seed.
Qed.
End Rest.

(** C12: Whatever the peers, the timers and the resolver do, and however the steps of the
    initiator's two loops and of the connection tasks fall between the other events:
    no block is counted twice or lost in the peers' workloads, which stay within 64
    each; every peer is filed under its own address; the header and block tips never
    fall; both address tables stay consistent; and for each outbound type the pending
    attempts, with those a turn of the initiator has still to start, are never more
    than the quota of the type.  (The connected peers are not held to it: the code
    counts them at another moment than the pending attempts.) *)
Theorem network_invariant (l : list (HashOrder * NetEnv * NetEvent)) (h0 b0 : Z) (n : Net C) :
  net_inv h0 b0 n -> net_inv h0 b0 (run_events l n).
Proof.
  unfold run_events. revert n. induction l as [|[[HO env] e] l IH]; intros n Hn; [done|]. cbn [fold_left]. apply IH.
  destruct Hn as [Ho Hr]. split; [by apply ok_event|by apply rest_event].
Qed.
End Events.

(** ** A concrete run *)

(** Seeding, filling the quotas, a ping, a round of downloads. *)
Definition demo_events : list (HashOrder * NetEnv * NetEvent) :=
  map (fun e => (canonical_order, demo_env, e))
    [EvSeed [Some [demo_addr 1; demo_addr 2]]; EvFill; EvFill; EvFill; EvFill; EvFill; EvFill; EvFill; EvConn 0 REGTEST 7 DialRefused false; EvMessage (demo_peer 1) (MPing (mkPing 3)); EvDownloadRound; EvConnectorTick; EvClosed (demo_peer 2)].
Definition demo_validation : ValidationInterface demo_chain := {|
  vi_process_headers _ _ c := (Ok [], c);
  vi_process_block _ _ c := (Ok 0, c);
  vi_get_block_locator c _ := c;
|}.
Lemma demo_net_inv : @net_inv demo_chain demo_hasher 103 100 demo_net.
Proof.
  split; [exact demo_net_ok|]. split.
  - split; reflexivity || (vm_compute; discriminate).
  - apply (@fresh_inv demo_hasher).
  - apply (@fresh_inv demo_hasher).
  - exact Logic.I.
  - exact Logic.I.
  - intros c _. apply (bool_decide_unpack _). destruct c; vm_compute; exact Logic.I.
Qed.
Lemma network_invariant_witness :
  @net_inv demo_chain demo_hasher 103 100 (@run_events demo_chain demo_validation demo_provider toy_digests demo_hasher demo_events demo_net).
Proof.
  apply (@network_invariant demo_chain demo_validation demo_provider toy_digests demo_hasher demo_events 103 100 demo_net). exact demo_net_inv.
Defined.
