(* ===== verification/NetLimits.v ===== *)
(** * Limits of the network layer

    The inbound limit and the outbound quotas under interleaving; what bans, failed attempts and DNS seeds do
    and do not change. *)

From S2P Require Import Prelude Wire Hash Transaction Block Params BlockFile Chainstate Node P2P P2PProofs AddrMan AddrManProofs Sync SyncProofs PeerTable Peers Downloader DownloaderProofs Connect HandshakeProofs NetProofs.

(** ** Inbound slots *)

Section Inbound.
Context (max_inbound : nat).
Abbreviation slot_step := (accept_step max_inbound).
Abbreviation reachable := (rtc slot_step accept_start).

(** Connections that are registered or may still be. *)
Definition open_inbound (s : AcceptState) : nat := (active_inbound s + (pending_inbound s - joined s))%nat.
Definition accept_inv (s : AcceptState) : Prop :=
  (joined s <= pending_inbound s <= max_inbound)%nat /\ (open_inbound s <= 2 * max_inbound)%nat /\
  match seen s with Some v => (open_inbound s <= v + max_inbound)%nat | None => True end.

Lemma try_reserve_spec p v : try_reserve_inbound_slot p v max_inbound = if decide (v + p < max_inbound)%nat then Some (S p) else None.
Proof. unfold try_reserve_inbound_slot. destruct (Nat.ltb_spec (v + p) max_inbound); [by rewrite decide_True|rewrite decide_False by lia; done]. Qed.
Lemma accept_inv_step s s' : slot_step s s' -> accept_inv s -> accept_inv s'.
Proof.
  intros Hs. unfold accept_inv, open_inbound. destruct Hs as [a p j|a p p' j v Hr|a p j v Hr|a p j v Hj|a p j v|a p j v Hj|a p j v];
    cbn [active_inbound pending_inbound joined seen]; rewrite ?try_reserve_spec in *; try (destruct (decide _); [|done]; injection Hr as <-); try destruct v; lia.
Qed.

(** However the accept loop and the handshake tasks interleave, at most the limit
    of handshakes is pending, and peers and pending handshakes together stay within
    twice the limit. *)
Lemma inbound_bounded (s : AcceptState) : reachable s -> (pending_inbound s <= max_inbound)%nat /\ (open_inbound s <= 2 * max_inbound)%nat.
Proof.
  intros Hr. cut (accept_inv s); [intros ([_ ?] & ? & _); done|]. assert (accept_inv accept_start) as H0 by (unfold accept_inv, open_inbound; cbn; lia).
  revert H0. generalize dependent accept_start. intros s0. induction 1 as [|s1 s2 s3 H12 _ IH]; [done|]. intros H1. apply IH. by apply (accept_inv_step s1).
Qed.

Lemma fill_slots k : (k <= max_inbound)%nat -> reachable (mkAccept 0 k 0 None).
Proof.
  induction k as [|k IH]; intros Hk; [constructor|]. eapply rtc_r; [eapply rtc_r; [apply IH; lia|apply count_read]|].
  apply slot_reserved. rewrite try_reserve_spec, decide_True; [done|lia].
Qed.
Lemma all_join v k : forall a, rtc slot_step (mkAccept a k 0 v) (mkAccept (a + k) 0 0 v).
Proof.
  induction k as [|k IH]; intros a; [by rewrite Nat.add_0_r|]. eapply rtc_l; [apply peer_joined; lia|]. eapply rtc_l; [apply slot_released|].
  replace (a + S k)%nat with (S a + k)%nat by lia. apply IH.
Qed.

(** The inbound limit is not one: the count of peers is read before the slot is
    reserved, and handshakes that complete in between have left the pending count but
    are not in the count read, so that more peers than the limit can be connected.
    What holds however the accept loop and the handshakes interleave is that at most
    the limit of handshakes is pending, and that peers and pending handshakes together
    stay within twice the limit. *)
Lemma inbound_limit_exceeded : (0 < max_inbound)%nat ->
  (exists s, rtc (accept_step max_inbound) accept_start s /\ (max_inbound < active_inbound s)%nat) /\
  (forall s, rtc (accept_step max_inbound) accept_start s -> (pending_inbound s <= max_inbound)%nat /\ (open_inbound s <= 2 * max_inbound)%nat).
Proof.
  intros Hm. split; [|intros s; apply inbound_bounded]. exists (mkAccept (S max_inbound) 1 1 None). split; [|cbn; lia].
  etrans; [apply (fill_slots max_inbound); lia|]. eapply rtc_l; [apply count_read|].
  etrans; [apply all_join|]. eapply rtc_l; [apply slot_reserved; by rewrite try_reserve_spec, decide_True by lia|].
  eapply rtc_l; [apply peer_joined; lia|]. constructor.
Qed.

(** Taken in one step, reading and reserving keep the limit. *)
Lemma atomic_reservation a p : (a + p <= max_inbound)%nat ->
  forall p', try_reserve_inbound_slot p a max_inbound = Some p' -> (a + p' <= max_inbound)%nat.
Proof. intros Hle p'. rewrite try_reserve_spec. destruct (decide _); [|done]. intros [= <-]. lia. Qed.
End Inbound.

Lemma inbound_limit_exceeded_witness : exists s, rtc (accept_step MAX_INBOUND_CONNECTIONS) accept_start s /\ (MAX_INBOUND_CONNECTIONS < active_inbound s)%nat.
Proof. refine (proj1 (inbound_limit_exceeded MAX_INBOUND_CONNECTIONS _)). apply (bool_decide_unpack _). vm_compute. exact Logic.I. Defined.

(** ** Bans, failed attempts, seeds *)

Section Limits.
Context {C : Type} {VI : ValidationInterface C} {D : Digests} {H : DefaultHasher}.

Lemma bind_run {A B} (m : NetM C A) (k : A -> NetM C B) n : ((m ≫= k) n).1.2 = (k (m n).1.1 (m n).1.2).1.2.
Proof. unfold mbind, NetM_bind. destruct (m n) as [[x n1] o1]. cbn. by destruct (k x n1) as [[y n2] o2]. Qed.

Lemma bind_fst {A B} (m : NetM C A) (k : A -> NetM C B) n : ((m ≫= k) n).1 = (k (m n).1.1 (m n).1.2).1.
Proof. unfold mbind, NetM_bind. destruct (m n) as [[x n1] o1]. cbn. by destruct (k x n1) as [[y n2] o2]. Qed.

(** A handshake that succeeds on the wire registers the peer. *)
Lemma handshake_registers env magic nonce stream addr inb c (n : Net C) info rest sent :
  handshake_wire magic ({[nonce]} ∪ our_nonces (n_connman n)) inb (our_version (wall env) nonce (wrap_s 32 (sm_blocks_height (n_sync n))) (is_tx_relay_connection c)) stream
    = (Ok (info, rest), sent) ->
  n_table (handshake env magic nonce stream addr inb c n).1.2 = add_peer (mkHandle addr (pi_services info) c) (n_table n).
Proof.
  intros Hw. unfold handshake. rewrite (bind_run (with_nonces _)), (bind_run (gets _)). cbn [with_nonces change gets fst snd id n_sync n_connman set_connman our_nonces]. rewrite Hw.
  rewrite (bind_run (with_nonces _)), (bind_run (on_table _)). cbn [with_nonces change fst snd]. set (t := add_peer _ _).
  match goal with |- n_table (?m ?n0).1.2 = _ => assert (net_keeps (fun x : Net C => n_table x = t) m) as Hk; [|by apply Hk] end.
  unfold initialize_node, sync_with_peer, request_headers. keep_steps; try (apply net_keeps_ask_sync || apply net_keeps_on_sync || apply net_keeps_change); by intros ? ?.
Qed.

(** *** A task by itself *)

(** The steps of a task of a connection, with nothing in between and the timer not
    running out: where it leaves the network. *)
Inductive conn_runs (env : NetEnv) (magic : Magic) (nonce : Z) (dial : Dial) : ConnTask -> Net C -> Net C -> Prop :=
  | runs_end t n n' : (conn_step env magic nonce dial false t n).1 = (None, n') -> conn_runs env magic nonce dial t n n'
  | runs_step t n pc n1 n' : (conn_step env magic nonce dial false t n).1 = (Some pc, n1) ->
      conn_runs env magic nonce dial (mkConnTask (ct_addr t) (ct_conn t) pc) n1 n' -> conn_runs env magic nonce dial t n n'.

Section Alone.
Context (env : NetEnv) (magic : Magic) (nonce0 : Z) (dial : Dial) (a : SocketAddr) (c : ConnectionType).
Abbreviation runs := (conn_runs env magic nonce0 dial).
Abbreviation inb := (bool_decide (c = Inbound)).
Abbreviation at_pc pc := (mkConnTask a c pc).
Definition peer_addr : SocketAddr := if inb then a else normalize a.

(** The rounds of the handshake. *)
Lemma shake_runs nonce ours n n' fuel : forall h s sent r, (handshake_loop fuel magic (our_nonces (n_connman n)) inb ours h s sent).1 = r -> (length s < fuel)%nat ->
  let n1 := (with_nonces (fun x => x ∖ {[nonce]}) n).1.2 in
  match r with
  | Ok (peer, _) => runs (at_pc (CAdd (mkHandle peer_addr (pi_services peer) c) (wrap_u 32 (pi_height peer)))) n1 n'
  | Err _ => if inb then n' = n1 else runs (at_pc (CRecord None)) n1 n'
  end -> runs (at_pc (CShake nonce ours h s)) n n'.
Proof.
  induction fuel as [|fuel IH]; intros h s sent r Hr Hl n1 H0; [lia|]. cbn [handshake_loop] in Hr.
  assert (runs (at_pc (CShake nonce ours h s)) n n' \/ exists m s1, read_message magic s = Ok (m, s1)) as [Hd|(m & s1 & Em)]; [|done|].
  { destruct (read_message magic s) as [[m s1]|e] eqn:Em; [by eauto|]. left. cbn [fst] in Hr. subst r. unfold n1 in H0. destruct inb eqn:Ei.
    - subst n'. eapply runs_end. unfold conn_step. cbn [ct_pc ct_conn ct_addr]. rewrite Em. by rewrite Ei.
    - eapply runs_step; [|exact H0]. unfold conn_step. cbn [ct_pc ct_conn ct_addr]. rewrite Em. by rewrite Ei. }
  rewrite Em in Hr. pose proof (read_message_shorter _ _ _ _ Em) as Hsh.
  destruct (handshake_step magic (our_nonces (n_connman n)) inb ours h m) as [[h1 out]|e] eqn:Es.
  - destruct (got_version h1 && got_verack h1) eqn:Eg.
    + cbn [fst] in Hr. subst r. eapply runs_step; [|exact H0]. unfold conn_step. cbn [ct_pc ct_conn ct_addr]. rewrite Em. unfold mbind, NetM_bind, gets. cbn [id]. rewrite Es, Eg. done.
    + eapply runs_step; [unfold conn_step; cbn [ct_pc ct_conn ct_addr]; rewrite Em; unfold mbind, NetM_bind, gets; cbn [id]; rewrite Es, Eg; reflexivity|].
      cbn [ct_addr ct_conn]. eapply IH; [exact Hr|lia|exact H0].
  - cbn [fst] in Hr. subst r. unfold n1 in H0. destruct inb eqn:Ei.
    + subst n'. eapply runs_end. unfold conn_step. cbn [ct_pc ct_conn ct_addr]. rewrite Em, Ei. unfold mbind, NetM_bind, gets. cbn [id]. by rewrite Es.
    + eapply runs_step; [|exact H0]. unfold conn_step. cbn [ct_pc ct_conn ct_addr]. rewrite Em, Ei. unfold mbind, NetM_bind, gets. cbn [id]. by rewrite Es.
Qed.

Ltac conn_moves := eapply runs_step; [unfold conn_step; cbn [ct_pc ct_conn ct_addr]; fold peer_addr; reflexivity|cbn [ct_addr ct_conn]].

(** What follows a handshake that succeeded, in the words of [handshake]. *)
Definition after_handshake (handle : NodeHandle) (height : Z) : NetM C unit :=
  _ ← on_table (add_peer handle);
  _ ← initialize_node peer_addr height c;
  _ ← when (negb inb) (_ ← send env peer_addr (MGetAddr mkGetAddr); mret tt);
  _ ← sync_with_peer env peer_addr;
  on_sync (update_peer_height peer_addr height).
Lemma after_runs handle height n n' :
  let n1 := (after_handshake handle height n).1.2 in
  (if inb then n' = n1 else runs (at_pc (CRecord (Some handle))) n1 n') -> runs (at_pc (CAdd handle height)) n n'.
Proof.
  intros n1 H0. conn_moves. conn_moves.
  set (n2 := (initialize_node peer_addr height c (set_table (add_peer handle (n_table n)) n)).1.2).
  assert (n1 = ((_ ← sync_with_peer env peer_addr; on_sync (update_peer_height peer_addr height)) n2).1.2) as E1.
  { unfold n1, after_handshake. rewrite !bind_run. f_equal. f_equal. f_equal. unfold when, send. destruct (negb inb); [|done]. by destruct (send_ok env peer_addr). }
  assert (runs (at_pc (CSync handle height)) n2 n') as Hs.
  2: { cbn [id] in *. destruct inb eqn:Ei; [exact Hs|]. eapply runs_step; [|exact Hs]. unfold conn_step. cbn [ct_pc ct_conn ct_addr]. rewrite Ei.
       unfold send, mbind, NetM_bind. by destruct (send_ok env _). }
  assert (let n3 := (sync_with_peer env peer_addr n2).1.2 in runs (at_pc (CHeight handle height)) n3 n') as Hh.
  { cbv zeta. rewrite bind_run in E1. destruct inb eqn:Ei.
    - subst n'. rewrite E1. eapply runs_end. unfold conn_step. cbn [ct_pc ct_conn ct_addr]. unfold peer_addr. by rewrite Ei.
    - eapply runs_step; [|exact H0]. rewrite E1. unfold conn_step. cbn [ct_pc ct_conn ct_addr]. unfold peer_addr. by rewrite Ei. }
  cbv zeta in Hh. clearbody n2. clear E1 H0 n1. unfold sync_with_peer, when in Hh. rewrite bind_run in Hh. cbn [gets fst snd] in Hh.
  destruct (is_ibd (wall env) (n_sync n2)) eqn:Eb.
  2: { eapply runs_step; [unfold conn_step; cbn [ct_pc ct_conn ct_addr]; unfold gets, mbind, NetM_bind; rewrite Eb; reflexivity|exact Hh]. }
  eapply runs_step; [unfold conn_step; cbn [ct_pc ct_conn ct_addr]; unfold gets, mbind, NetM_bind; rewrite Eb; reflexivity|]. cbn [ct_addr ct_conn]. conn_moves.
  unfold request_headers in Hh. rewrite bind_run in Hh. set (asked := ask_sync (try_begin_header_request (readings env) peer_addr (sm_headers_tip (n_sync n2)) (sm_headers_height (n_sync n2)) HEADER_REQUEST_TIMEOUT)) in Hh.
  destruct (asked n2) as [[[|] n3] o3] eqn:Ea; cbn [fst snd] in Hh.
  2: { eapply runs_step; [unfold conn_step; cbn [ct_pc ct_conn ct_addr]; fold peer_addr; fold asked; unfold mbind, NetM_bind; rewrite Ea; reflexivity|exact Hh]. }
  eapply runs_step; [unfold conn_step; cbn [ct_pc ct_conn ct_addr]; fold peer_addr; fold asked; unfold mbind, NetM_bind; rewrite Ea; reflexivity|]. cbn [ct_addr ct_conn]. conn_moves.
  rewrite !bind_run in Hh. cbn [gets fst snd] in Hh. eapply runs_step; [|exact Hh]. unfold conn_step. cbn [ct_pc ct_conn ct_addr]. fold peer_addr.
  unfold send, mbind, NetM_bind, when. by destruct (send_ok env peer_addr).
Qed.

(** From the first message on, in the words of [handshake]. *)
Lemma handshake_runs stream n n' :
  let n0 := (with_nonces (fun s => {[nonce0]} ∪ s) n).1.2 in
  let ours := our_version (wall env) nonce0 (wrap_s 32 (sm_blocks_height (n_sync n))) (is_tx_relay_connection c) in
  let r := handshake env magic nonce0 stream peer_addr inb c n in
  (if inb then n' = r.1.2 else runs (at_pc (CRecord (match r.1.1.1 with Ok (handle, _) => Some handle | Err _ => None end))) r.1.2 n') ->
  runs (at_pc (CShake nonce0 ours handshake_start stream)) n0 n'.
Proof.
  cbv zeta. set (n0 := (with_nonces (fun s => {[nonce0]} ∪ s) n).1.2). set (ours := our_version _ _ _ _). intros H0.
  set (wire := handshake_wire magic (our_nonces (n_connman n0)) inb ours stream) in *. destruct wire as [r sent] eqn:Ew. unfold wire, handshake_wire in Ew.
  eapply (shake_runs nonce0 ours n0 n' (S (length stream)) handshake_start stream (if inb then [] else frame magic (MVersion ours)) r); [by rewrite Ew|lia|].
  assert ((handshake env magic nonce0 stream peer_addr inb c n).1 = match r with
    | Err e => ((Err e, sent), (with_nonces (fun s => s ∖ {[nonce0]}) n0).1.2)
    | Ok (peer, rest) => let handle := mkHandle peer_addr (pi_services peer) c in
        ((Ok (handle, rest), sent), (after_handshake handle (wrap_u 32 (pi_height peer)) (with_nonces (fun s => s ∖ {[nonce0]}) n0).1.2).1.2) end) as Eh.
  { unfold handshake. rewrite !bind_fst. fold n0. cbn [gets id fst snd]. change (n_sync n0) with (n_sync n). fold ours.
    unfold handshake_wire. rewrite Ew. rewrite bind_fst. destruct r as [[peer rest]|e]; [|done]. unfold after_handshake. rewrite !bind_fst. done. }
  rewrite Eh in H0. destruct r as [[peer rest]|e]; cbn [fst snd] in H0; [|exact H0]. by apply after_runs.
Qed.

(** The task of an accepted connection does what [handshake] does. *)
Lemma inbound_alone stream n : c = Inbound -> runs (at_pc (CAccepted stream)) n (handshake env magic nonce0 stream a true c n).1.2.
Proof.
  intros Hc. assert (inb = true) as Ei by (by apply bool_decide_true). eapply runs_step; [unfold conn_step; cbn [ct_pc ct_conn ct_addr]; rewrite bind_fst; reflexivity|].
  cbn [ct_addr ct_conn]. apply (handshake_runs stream n). unfold peer_addr. by rewrite Ei.
Qed.
(** The task of an attempt does what [connect_addr] does, and then stops being pending. *)
Lemma attempt_alone n : c <> Inbound ->
  let n' := (connect_addr env magic nonce0 dial a c n).1.2 in runs (at_pc CStart) n (set_pending (delete a (pending_attempts n')) n').
Proof.
  intros Hc n'. assert (inb = false) as Ei by (by apply bool_decide_false). assert (peer_addr = normalize a) as Ea by (unfold peer_addr; by rewrite Ei).
  assert (forall o n1, runs (at_pc (CDone o)) n1 (set_pending (delete a (pending_attempts n1)) n1)) as Hdone.
  { intros o n1. eapply runs_end. unfold conn_step. cbn [ct_pc ct_conn ct_addr]. rewrite !bind_fst. cbn [change fst snd]. by destruct o, c. }
  unfold n', connect_addr. rewrite bind_run, <- Ea.
  assert (forall pc, ((cm_is_banned (instant env) (ip peer_addr) n).1.1 = false -> pc = CDial) -> ((cm_is_banned (instant env) (ip peer_addr) n).1.1 = true -> pc = CDone None) ->
    forall n', runs (at_pc pc) (cm_is_banned (instant env) (ip peer_addr) n).1.2 n' -> runs (at_pc CStart) n n') as Hstart.
  { intros pc H1 H2 n2 Hr. eapply runs_step; [|exact Hr]. unfold conn_step. cbn [ct_pc ct_conn ct_addr]. fold peer_addr. rewrite bind_fst.
    destruct (cm_is_banned _ _ n) as [[[|] n1] o1]; cbn in *; [by rewrite H2|by rewrite H1]. }
  destruct (cm_is_banned (instant env) (ip peer_addr) n) as [[[|] n1] o1]; cbn [fst snd] in *; [by apply (Hstart (CDone None))|].
  apply (Hstart CDial); [done..|]. clear Hstart.
  destruct dial as [| |stream] eqn:Ed; [eapply runs_step; [unfold conn_step; cbn [ct_pc ct_conn ct_addr]; reflexivity|apply Hdone]..|].
  eapply runs_step; [unfold conn_step; cbn [ct_pc ct_conn ct_addr]; rewrite bind_fst; reflexivity|]. cbn [ct_addr ct_conn]. rewrite <- Ed.
  apply (handshake_runs stream n1). rewrite Ei, bind_run. destruct (handshake env magic nonce0 stream peer_addr false c n1) as [[[r sent] n2] o2]. cbn [fst snd].
  eapply runs_step; [unfold conn_step; cbn [ct_pc ct_conn ct_addr]; fold peer_addr; rewrite bind_fst; reflexivity|]. cbn [ct_addr ct_conn]. rewrite Ed in *.
  destruct r as [[handle rest]|e]; rewrite bind_run; apply Hdone.
Qed.
End Alone.

(** A ban is not enforced: it is kept in the peer table, which neither the accept
    loop nor a dial looks at, so that a peer that was just banned and comes back is
    taken in, and when its task runs it is registered again as soon as its handshake
    succeeds, the ban still in force. *)
Lemma banned_peer_readmitted (env : NetEnv) (magic : Magic) (nonce : Z) (stream : bytes) (addr : SocketAddr) (n : Net C) (now : Z) (info : PeerInfo) (rest sent : bytes) :
  at_ban (ban_clock env) <= now < at_ban (ban_clock env) + from_secs BAN_SECONDS -> cm_ban_list (n_connman n) !! ip addr = None ->
  handshake_wire magic ({[nonce]} ∪ our_nonces (n_connman n)) true (our_version (wall env) nonce (wrap_s 32 (sm_blocks_height (n_sync n))) true) stream = (Ok (info, rest), sent) ->
  let banned := (tell_table (record_critical_failure (ban_clock env) addr) n).1.2 in
  let task := mkConnTask addr Inbound (CAccepted stream) in
  let n1 := (accept_connection env stream addr banned).1.2 in
  pt_peers (n_table banned) !! addr = None /\ conn_tasks (n_tasks n1) = conn_tasks (n_tasks n) ++ [task] /\
  exists n', conn_runs env magic nonce DialRefused task n1 n' /\ pt_is_banned now (n_table n') (ip addr) = true /\
    pt_peers (n_table n') !! addr = Some (mkHandle addr (pi_services info) Inbound).
Proof.
  intros Hnow Hfree Hw banned task n1. assert (n1 = spawn_conn task banned) as E1.
  { unfold n1, accept_connection. rewrite bind_run.
    assert (cm_is_banned (instant env) (ip addr) banned = (false, banned, [])) as -> by (unfold cm_is_banned; cbn; by rewrite Hfree). done. }
  split; [unfold banned, tell_table, record_critical_failure, ban_peer_internal, finish_ban; cbn; by rewrite lookup_delete_eq|].
  split; [by rewrite E1|]. eexists. split; [by apply inbound_alone|].
  rewrite (handshake_registers env magic nonce stream addr true Inbound n1 info rest sent) by (by rewrite E1).
  rewrite E1. unfold banned, tell_table, record_critical_failure, ban_peer_internal, finish_ban, pt_is_banned, add_peer. cbn.
  rewrite !lookup_insert_eq. split; [|done]. apply Z.ltb_lt. lia.
Qed.

(** A dial that times out or is refused leaves no trace: the address keeps its
    score and is not marked as attempted, so that the next choice is the one that was
    made before, whatever the clock. *)
Lemma failed_dial_forgotten (HO : HashOrder) (env : NetEnv) (magic : Magic) (nonce : Z) (dial : Dial) (addr : SocketAddr) (c : ConnectionType) (n : Net C) :
  pending_attempts n !! addr = None -> dial = DialTimeout \/ dial = DialRefused -> c <> Inbound ->
  exists n', conn_runs env magic nonce dial (mkConnTask addr c CStart) (set_pending (<[addr := c]> (pending_attempts n)) n) n' /\
    n_table n' = n_table n /\ cm_addr_man (n_connman n') = cm_addr_man (n_connman n) /\
    forall now, get_best_address now (n_table n') (pending_addresses n') = get_best_address now (n_table n) (pending_addresses n).
Proof.
  intros Hp Hd Hc. set (n0 := set_pending _ n). eexists. split; [by apply attempt_alone|].
  assert (exists e n1, connect_addr env magic nonce dial addr c n0 = (Err e, n1, []) /\ n_table n1 = n_table n /\
    cm_addr_man (n_connman n1) = cm_addr_man (n_connman n) /\ pending_attempts n1 = <[addr := c]> (pending_attempts n)) as (e & n1 & -> & E1 & E2 & E3).
  { unfold connect_addr, cm_is_banned, mbind, NetM_bind. destruct (cm_ban_list _ !! _) as [u|]; [destruct (_ <? u)|]; destruct Hd as [-> | ->]; cbn; eauto 10. }
  cbn. rewrite E1, E2, E3, delete_insert_id by done. split_and!; [done..|]. intros now. unfold pending_addresses. cbn. by rewrite ?E3, ?delete_insert_id.
Qed.
End Limits.

(** Seeding adds the addresses of all the seeds, one after the other. *)
Lemma seed_from_dns_addrs {H : DefaultHasher} resolved : forall t,
  pt_addr_man (seed_from_dns resolved t) =
  add_many (pt_addr_man t) (map (fun a => to_socket_addr (from_socket_addr a)) (concat (omap id resolved))) unspecified.
Proof.
  induction resolved as [|[x|] l IH]; intros t; [done| |apply IH]. unfold seed_from_dns in *. cbn [fold_left omap list_omap id concat]. rewrite IH.
  unfold add_many, add_addresses. cbn [pt_addr_man with_addr_man]. rewrite map_app, fold_left_app. f_equal.
  generalize (pt_addr_man t). induction x as [|y x IHx]; intros m; [done|]. cbn. apply IHx.
Qed.

(** However many IPv4 addresses the DNS seeds return, a fresh table keeps at most
    64 of them: an address from a seed passes through its IPv6-mapped form, whose
    leading bytes, which choose the bucket, are the same for all of IPv4. *)
Lemma seeds_share_bucket {H : DefaultHasher} (key : bytes) (resolved : list (option (list SocketAddr))) :
  Forall (fun a => is_ipv4 a = true) (concat (omap id resolved)) ->
  (size (map_info (pt_addr_man (seed_from_dns resolved (PeerTable_new (AddrMan_new key))))) <= ADDRMAN_BUCKET_SIZE)%nat.
Proof. intros Hall. rewrite seed_from_dns_addrs. by apply mapped_capacity. Qed.

(** ** Concrete networks *)

Definition demo_seeds : list (option (list SocketAddr)) := [Some [demo_addr 1; demo_addr 2]; None; Some [demo_addr 3]].
Lemma seeds_share_bucket_witness :
  (size (map_info (pt_addr_man (@seed_from_dns demo_hasher demo_seeds (PeerTable_new (AddrMan_new demo_key))))) <= ADDRMAN_BUCKET_SIZE)%nat.
Proof. apply (@seeds_share_bucket demo_hasher demo_key demo_seeds). repeat constructor. Defined.

Definition demo_greeting : bytes :=
  @frame toy_digests REGTEST (MVersion (demo_version 1)) ++ @frame toy_digests REGTEST (MVerack mkVerack).
Lemma banned_peer_readmitted_witness :
  let n1 := (@accept_connection demo_chain demo_env demo_greeting (demo_peer 1)
    (tell_table (record_critical_failure (ban_clock demo_env) (demo_peer 1)) demo_net).1.2).1.2 in
  exists n', @conn_runs demo_chain demo_validation toy_digests demo_hasher demo_env REGTEST 77 DialRefused (mkConnTask (demo_peer 1) Inbound (CAccepted demo_greeting)) n1 n' /\
    pt_is_banned (at_ban (ban_clock demo_env)) (n_table n') (ip (demo_peer 1)) = true /\
    pt_peers (n_table n') !! demo_peer 1 = Some (mkHandle (demo_peer 1) 9 Inbound).
Proof.
  refine (proj2 (proj2 (@banned_peer_readmitted demo_chain demo_validation toy_digests demo_hasher demo_env REGTEST 77 demo_greeting (demo_peer 1) demo_net
    (at_ban (ban_clock demo_env)) (peer_info (demo_version 1)) [] _ _ _ _))).
  - vm_compute. split; [discriminate|reflexivity].
  - reflexivity.
  - vm_compute. reflexivity.
Defined.

(** The quota of a type does not bound its connected peers: an attempt that joins and
    stops being pending between the count of the connected peers and that of the
    pending attempts is in neither, and one more is started.  Here two feelers, where
    one is allowed. *)
Definition quota_race : list (HashOrder * NetEnv * NetEvent) :=
  map (fun e => (canonical_order, demo_env, e))
    ([EvSeed [Some [demo_addr 5; demo_addr 6]]] ++ replicate 10 EvFeeler ++ replicate 16 (EvConn 0 REGTEST 77 (DialStream demo_greeting) false) ++ replicate 6 EvFeeler).
Lemma outbound_quota_exceeded :
  let n := @run_events demo_chain demo_validation demo_provider toy_digests demo_hasher quota_race demo_net in
  get_peer_count_by_type (n_table n) Feeler = 1%nat /\ pending_count n Feeler = 1%nat /\ MAX_FEELER_CONNECTIONS = 1%nat.
Proof. vm_compute. split_and!; reflexivity. Qed.
