(* ===== verification/Rpc.v ===== *)
(** * The JSON-RPC interface

    net/rpc: the seven methods of rpc.rs, blockchain/mod.rs and net/mod.rs, their
    parameters, their answers as JSON values, and the envelope of types.rs and
    utils.rs.

    A JSON string is a string of bytes, an object the list of its members in the order
    of the source.  An [f64] is a [spec_float] of precision 53, with the operations of
    the IEEE standard.  [hex::encode] and the texts of errors and addresses are
    parameters; the HTTP server and the reading of requests are third-party code. *)

From Stdlib Require Import SpecFloat Ascii.
From S2P Require Import Prelude Wire Hash Transaction Block Params Coins Taproot Engine Validation BlockFile Store Chainstate Node P2P AddrMan PeerTable.

#[local] Open Scope string_scope.
#[local] Open Scope Z_scope.

(** ** JSON values *)

Abbreviation f64 := spec_float.
Definition f64_of (z : Z) : f64 := binary_normalize 53 1024 z 0 false.
Definition f64_div : f64 -> f64 -> f64 := SFdiv 53 1024.
(** [f64::min]: the other operand when one is not a number *)
Definition f64_min (a b : f64) : f64 := match SFcompare a b with Some Gt => b | Some _ => a | None => match a with S754_nan => b | _ => a end end.

Inductive Value : Type :=
  | JNull
  | JBool (b : bool)
  | JInt (n : Z)
  | JFloat (x : f64)
  | JString (s : string)
  | JArray (l : list Value)
  | JObject (members : list (string * Value)).

(** [Value::as_u64], [Value::as_str], and the member of an object. *)
Definition as_u64 (v : Value) : option Z := match v with JInt n => if (0 <=? n) && (n <=? U64_MAX) then Some n else None | _ => None end.
Definition as_str (v : Value) : option string := match v with JString s => Some s | _ => None end.
Definition member (key : string) (v : Value) : option Value :=
  match v with JObject l => (fun e : nat * (string * Value) => e.2.2) <$> list_find (fun m => m.1 = key) l | _ => None end.

(** ** Text *)

Definition bytes_string (l : bytes) : string := string_of_list_ascii (map (fun b => ascii_of_N (Z.to_N b)) l).
(** [{}] of an unsigned integer, [{:0kx}] of one of at most [k] digits *)
Definition decimal (n : Z) : string := bytes_string (dec_digits (digit_count 20 n) n).
Definition hex_char (d : Z) : ascii := ascii_of_N (Z.to_N (if d <? 10 then 48 + d else 87 + d)).
Fixpoint lower_hex (k : nat) (n : Z) : string :=
  match k with O => "" | S k => lower_hex k (n / 16) +:+ String (hex_char (n mod 16)) "" end.

(** What is displayed by code outside the repository or by derived code. *)
Class RpcText : Type := {
  hex_encode : bytes -> string;
  store_error_text : StoreError -> string;
  decode_error_text : DecodeError -> string;
  magic_bytes_text : bytes -> string;
  socket_addr_text : SocketAddr -> string;
}.
(** [hex::encode] writes pairs of digits that [hex::decode] reads. *)
Class RpcTextOk (T : RpcText) : Prop := {
  hex_encode_length l : String.length (hex_encode l) = (2 * length l)%nat;
  hex_encode_pairs l : bytes_ok l -> hex_pairs (hex_encode l) = Some l;
}.

(** ** Requests, errors, responses (utils.rs, types.rs) *)

Inductive RpcErr : Type :=
  | MethodNotFound (method : string)
  | WrongParam (field : string)
  | BadParams (context : string)
  | MissingParam (parameter_name : string)
  | Internal (context : string).
Record RpcErrorMetadata : Type := mkMetadata { code : Z; message : string }.
(** [From<RpcErr>]; [data] is always [None] and then not written. *)
Definition error_metadata (e : RpcErr) : RpcErrorMetadata :=
  match e with
  | MethodNotFound m => mkMetadata (-32601) ("Method not found: " +:+ m)
  | WrongParam f => mkMetadata (-32602) ("Field '" +:+ f +:+ "' is incorrect or has an unknown format")
  | BadParams c => mkMetadata (-32602) ("Invalid params: " +:+ c)
  | MissingParam p => mkMetadata (-32602) ("Expected parameter: " +:+ p +:+ " is missing")
  | Internal c => mkMetadata (-32603) ("Internal Error: " +:+ c)
  end.

Inductive RpcRequestId : Type := IdNumber (n : Z) | IdString (s : string) | IdNull.
Definition id_value (i : RpcRequestId) : Value := match i with IdNumber n => JInt n | IdString s => JString s | IdNull => JNull end.
Record RpcRequest : Type := mkRequest { req_id : RpcRequestId; jsonrpc : string; method : string; params : option (list Value) }.

Inductive RpcNamespace : Type := NsBlockchain | NsNet | NsMining | NsAdmin.
Definition str_contains (needle s : string) : bool := match String.index 0 needle s with Some _ => true | None => false end.
Definition namespace (r : RpcRequest) : RpcNamespace :=
  if str_contains "blockchain" (method r) || str_contains "block" (method r) then NsBlockchain else NsNet.

Definition success (i : RpcRequestId) (result : Value) : Value := JObject [("id", id_value i); ("jsonrpc", JString "2.0"); ("result", result)].
Definition error (i : RpcRequestId) (e : RpcErrorMetadata) : Value :=
  JObject [("id", id_value i); ("jsonrpc", JString "2.0"); ("error", JObject [("code", JInt (code e)); ("message", JString (message e))])].
Definition rpc_response (req : RpcRequest) (res : result Value RpcErr) : Value :=
  match res with Ok v => success (req_id req) v | Err e => error (req_id req) (error_metadata e) end.

(** ** The node, as the methods see it *)

(** [RpcNodeProvider] *)
Class RpcNodeProvider (C : Type) : Type := {
  rn_get_headers_tip : C -> result (option BlockHash) StoreError;
  rn_get_best_block : C -> result (option BlockHash) StoreError;
  rn_get_block_tip : C -> result (option BlockHash) StoreError;
  rn_get_block_index_height : C -> BlockHash -> result (option Z) StoreError;
  rn_get_block_hash : C -> Z -> result (option BlockHash) StoreError;
  rn_get_block_raw : C -> BlockHash -> result (option bytes) StoreError;
}.
#[export] Instance blockchain_rpc {B E} `{StorageBackend B, Digests, Taproot.Secp, ScriptEngine E} : RpcNodeProvider (Blockchain B E) := {|
  rn_get_headers_tip bc := get_headers_tip (bc_store bc);
  rn_get_best_block := rpc_get_best_block;
  rn_get_block_tip bc := get_block_tip (bc_store bc);
  rn_get_block_index_height := get_block_index_height;
  rn_get_block_hash bc h := get_block_hash (bc_store bc) h;
  rn_get_block_raw bc h := get_block (bc_store bc) h;
|}.

(** [RpcApiContext]: the node, and of the connection manager the magic and the peers. *)
Record RpcApiContext (C : Type) : Type := mkContext { ctx_node : C; ctx_magic : Magic; ctx_peers : PeerTable }.
Arguments mkContext {C}.
Arguments ctx_node {C}.
Arguments ctx_magic {C}.
Arguments ctx_peers {C}.

Section Methods.
Context {C : Type} {NP : RpcNodeProvider C} {D : Digests} {T : RpcText} {H : Hex} {HO : HashOrder}.
Abbreviation Context := (RpcApiContext C).

(** [Display] of hashes: the bytes reversed; [FromStr] of [BlockHash]. *)
Definition hash_text (h : Hash256) : string := hex_encode (reverse h).
Definition BlockHash_parse (s : string) : option BlockHash := reverse <$> hex_decode_to_slice s 32.
Definition magic_text (m : Magic) : string :=
  if bool_decide (m = MAINNET) then "mainnet" else if bool_decide (m = TESTNET3) then "testnet3" else
  if bool_decide (m = SIGNET) then "signet" else if bool_decide (m = REGTEST) then "regtest" else "custom(" +:+ magic_bytes_text (magic_bytes m) +:+ ")".
Definition connection_type_text (c : ConnectionType) : string :=
  match c with Inbound => "inbound" | OutboundFullRelay => "outbound-full-relay" | BlockRelayOnly => "block-relay-only" | Feeler => "feeler" end.

Definition internal {A} (r : result A StoreError) : result A RpcErr := map_err (fun e => Internal (store_error_text e)) r.
(** A tip, zero when there is none, and its height, 0 when it is not indexed. *)
Definition tip_of (ctx : Context) (tip : C -> result (option BlockHash) StoreError) : result (BlockHash * Z) RpcErr :=
  let? o := internal (tip (ctx_node ctx)) in
  let hash := default ZERO_HASH o in
  let? h := internal (rn_get_block_index_height (ctx_node ctx) hash) in
  Ok (hash, default 0 h).

(** *** blockchain/mod.rs *)

Definition get_blockchain_info (ctx : Context) : result Value RpcErr :=
  let? '(header_hash, header_height) := tip_of ctx rn_get_headers_tip in
  let? '(best_hash, best_height) := tip_of ctx rn_get_best_block in
  let? '(disk_hash, disk_height) := tip_of ctx rn_get_block_tip in
  Ok (JObject [
    ("chain", JString (magic_text (ctx_magic ctx)));
    ("blocks", JInt best_height);
    ("headers", JInt header_height);
    ("bestheaderhash", JString (hash_text header_hash));
    ("bestblockhash", JString (hash_text best_hash));
    ("disk_blocks", JInt disk_height);
    ("difficulty", JFloat (f64_of 1));
    ("mediantime", JInt 0);
    ("verificationprogress", JFloat (f64_min (f64_div (f64_of best_height) (f64_of (Z.max header_height 1))) (f64_of 1)));
    ("initialblockdownload", JBool (best_height <? header_height));
    ("chainwork", JString "0");
    ("size_on_disk", JInt 0);
    ("pruned", JBool false)]).

Definition get_block_count (ctx : Context) : result Value RpcErr :=
  let? '(_, height) := tip_of ctx rn_get_block_tip in Ok (JInt height).

(** The n-th parameter. *)
Definition param (n : nat) (ps : option (list Value)) : option Value := ps ≫= fun l => l !! n.
(** [height as u32] *)
Definition parse_get_block_hash (ps : option (list Value)) : result Z RpcErr :=
  let? height := ok_or (param 0 ps ≫= as_u64) (MissingParam "height") in Ok (wrap_u 32 height).
Definition get_block_hash_at (height : Z) (ctx : Context) : result Value RpcErr :=
  let? o := internal (rn_get_block_hash (ctx_node ctx) height) in
  let? hash := ok_or o (BadParams ("Height " +:+ decimal height +:+ " out of range")) in
  Ok (JString (hash_text hash)).

Record GetBlockRequest : Type := mkGetBlock { gb_hash : BlockHash; gb_verbosity : Z }.
Definition parse_get_block (ps : option (list Value)) : result GetBlockRequest RpcErr :=
  let? hash_str := ok_or (param 0 ps ≫= as_str) (MissingParam "hash") in
  let? hash := ok_or (BlockHash_parse hash_str) (BadParams "invalid hash format") in
  let verbosity := default 1 (param 1 ps ≫= as_u64) in
  if 2 <? verbosity then Err (BadParams "verbosity must be 0, 1, or 2") else
  Ok (mkGetBlock hash verbosity).

Definition input_to_json (i : TxIn) : Value :=
  let txinwitness := JArray (map (fun w => JString (hex_encode w)) (witness i)) in
  if OutPoint_is_coinbase (previous_output i)
  then JObject [("coinbase", JString (hex_encode (script_sig i))); ("sequence", JInt (sequence i)); ("txinwitness", txinwitness)]
  else JObject [
    ("txid", JString (hash_text (op_txid (previous_output i))));
    ("vout", JInt (op_vout (previous_output i)));
    ("scriptSig", JObject [("hex", JString (hex_encode (script_sig i)))]);
    ("sequence", JInt (sequence i));
    ("txinwitness", txinwitness)].
Definition output_to_json (n : nat) (o : TxOut) : Value :=
  JObject [
    ("value", JFloat (f64_div (f64_of (value o)) (f64_of 100000000)));
    ("n", JInt (Z.of_nat n));
    ("scriptPubKey", JObject [("hex", JString (hex_encode (script_pubkey o)))])].
Definition transaction_to_json (tx : Transaction) : Value :=
  let raw := serialize encode_Transaction tx in
  JObject [
    ("txid", JString (hash_text (txid tx)));
    ("hash", JString (hash_text (wtxid tx)));
    ("version", JInt (version tx));
    ("size", JInt (Z.of_nat (length raw)));
    ("locktime", JInt (lock_time tx));
    ("vin", JArray (map input_to_json (inputs tx)));
    ("vout", JArray (imap output_to_json (outputs tx)));
    ("hex", JString (hex_encode raw))].

Definition block_to_json (req : GetBlockRequest) (b : Block) : Value :=
  JObject [
    ("hash", JString (hash_text (gb_hash req)));
    ("confirmations", JInt 1);
    ("version", JInt (hdr_version (header b)));
    ("merkleroot", JString (hash_text (merkle_root_field (header b))));
    ("nTx", JInt (Z.of_nat (length (transactions b))));
    ("tx", JArray (map (fun tx => if gb_verbosity req =? 2 then transaction_to_json tx else JString (hash_text (txid tx))) (transactions b)));
    ("time", JInt (time (header b)));
    ("nonce", JInt (nonce (header b)));
    ("bits", JString (lower_hex 8 (bits (header b))));
    ("previousblockhash", JString (hash_text (prev_hash (header b))))].
Definition decode_failure {A} (r : result A DecodeError) : result A RpcErr :=
  map_err (fun e => Internal ("decode error: " +:+ decode_error_text e)) r.
Definition get_block_rpc (req : GetBlockRequest) (ctx : Context) : result Value RpcErr :=
  let? o := internal (rn_get_block_raw (ctx_node ctx) (gb_hash req)) in
  let? raw := ok_or o (BadParams "block not found") in
  if gb_verbosity req =? 0 then Ok (JString (hex_encode raw)) else
  let? '(b, d) := decode_failure (decode_Block (Decoder_new raw)) in
  let? _ := decode_failure (finish d "Block") in
  Ok (block_to_json req b).

(** *** net/mod.rs *)

Definition get_network_info (ctx : Context) : result Value RpcErr :=
  let counts := get_connection_counts (ctx_peers ctx) in
  Ok (JObject [
    ("version", JInt 260000);
    ("subversion", JString "/bitcrab:0.1.0/");
    ("protocolversion", JInt 70016);
    ("localservices", JString "0000000000000409");
    ("localrelay", JBool true);
    ("timeoffset", JInt 0);
    ("networkactive", JBool true);
    ("connections", JInt (Z.of_nat (total counts)));
    ("connections_in", JInt (Z.of_nat (inbound counts)));
    ("connections_out", JInt (Z.of_nat (outbound_full_relay counts + block_relay_only counts + feeler counts)));
    ("networks", JArray []);
    ("relayfee", JFloat (f64_div (f64_of 1) (f64_of 100000)));
    ("incrementalfee", JFloat (f64_div (f64_of 1) (f64_of 100000)));
    ("warnings", JString "")]).

Definition peer_to_json (i : nat) (h : NodeHandle) : Value :=
  JObject [
    ("id", JInt (wrap_u 32 (Z.of_nat i)));
    ("addr", JString (socket_addr_text (nh_addr h)));
    ("services", JString (lower_hex 16 (nh_services h)));
    ("lastsend", JInt 0);
    ("lastrecv", JInt 0);
    ("conntime", JInt 0);
    ("subver", JString "/bitcrab:0.1.0/");
    ("startingheight", JInt 0);
    ("version", JInt 70015);
    ("relaytxes", JBool (is_tx_relay_connection (nh_conn h)));
    ("inbound", JBool (bool_decide (nh_conn h = Inbound)));
    ("connection_type", JString (connection_type_text (nh_conn h)))].
Definition get_peer_info (ctx : Context) : result Value RpcErr := Ok (JArray (imap peer_to_json (get_peers (ctx_peers ctx) None))).
Definition get_connection_count (ctx : Context) : result Value RpcErr := Ok (JInt (Z.of_nat (get_peer_count (ctx_peers ctx)))).

(** *** Dispatch (rpc.rs) *)

Definition map_blockchain_requests (req : RpcRequest) (ctx : Context) : result Value RpcErr :=
  if (method req =? "getblockchaininfo")%string then get_blockchain_info ctx else
  if (method req =? "getblockcount")%string then get_block_count ctx else
  if (method req =? "getblockhash")%string then (let? height := parse_get_block_hash (params req) in get_block_hash_at height ctx) else
  if (method req =? "getblock")%string then (let? r := parse_get_block (params req) in get_block_rpc r ctx) else
  Err (MethodNotFound (method req)).
Definition map_net_requests (req : RpcRequest) (ctx : Context) : result Value RpcErr :=
  if (method req =? "getnetworkinfo")%string then get_network_info ctx else
  if (method req =? "getpeerinfo")%string then get_peer_info ctx else
  if (method req =? "getconnectioncount")%string then get_connection_count ctx else
  Err (MethodNotFound (method req)).
Definition map_http_requests (req : RpcRequest) (ctx : Context) : result Value RpcErr :=
  match namespace req with
  | NsBlockchain => map_blockchain_requests req ctx
  | NsNet => map_net_requests req ctx
  | _ => Err (MethodNotFound (method req))
  end.

Inductive RpcRequestWrapper : Type := Single (r : RpcRequest) | Multiple (l : list RpcRequest).
Definition answer_request (ctx : Context) (req : RpcRequest) : Value := rpc_response req (map_http_requests req ctx).
Definition handle_http_request (ctx : Context) (w : RpcRequestWrapper) : Value :=
  match w with
  | Single req => answer_request ctx req
  | Multiple reqs => JArray (map (answer_request ctx) reqs)
  end.
End Methods.
