(* ===== verification/RpcProofs.v ===== *)
(** * Properties of the JSON-RPC interface

    Every request is answered, with its own id and a result or one of three error
    codes; a client gets back the block that is stored; the counts of connections
    agree; what becomes of a height that does not fit. *)

From S2P Require Import Prelude Wire Hash Transaction Block Params BlockFile Store Chainstate Node P2P P2PProofs AddrMan PeerTable Rpc.

#[local] Open Scope string_scope.
#[local] Open Scope Z_scope.

Section Rpc.
Context {C : Type} {NP : RpcNodeProvider C} {D : Digests} {DO : DigestsOk D} {T : RpcText} {TO : RpcTextOk T} {H : Hex} {HX : HexOk H} {HO : HashOrder}.

(** ** Text *)

Lemma hash_text_parses (h : BlockHash) : hash_ok h -> BlockHash_parse (hash_text h) = Some h.
Proof.
  intros [Hl Hb]. unfold BlockHash_parse, hash_text. rewrite hex_slice_ok by (rewrite hex_encode_length, length_reverse, Hl; done).
  rewrite hex_encode_pairs by (by apply Forall_reverse). cbn. by rewrite reverse_involutive.
Qed.
Lemma hex_decodes l : bytes_ok l -> hex_decode (hex_encode l) = Some l.
Proof. intros Hl. by rewrite hex_decode_ok, hex_encode_pairs. Qed.

(** ** Dispatch *)

Definition methods : list string :=
  ["getblockchaininfo"; "getblockcount"; "getblockhash"; "getblock"; "getnetworkinfo"; "getpeerinfo"; "getconnectioncount"].

(** The errors of the methods themselves. *)
Definition not_unknown {A} (r : result A RpcErr) : Prop := match r with Err (MethodNotFound _) => False | _ => True end.
Lemma not_unknown_bind {A B} (r : result A RpcErr) (k : A -> result B RpcErr) : not_unknown r -> (forall x, not_unknown (k x)) -> not_unknown (rbind r k).
Proof. intros Hr Hk. destruct r; [apply Hk|done]. Qed.
Lemma not_unknown_internal {A} (r : result A StoreError) : not_unknown (internal r).
Proof. by destruct r. Qed.
Lemma not_unknown_decode {A} (r : result A DecodeError) : not_unknown (decode_failure r).
Proof. by destruct r. Qed.
Lemma not_unknown_ok_or {A} (o : option A) e : not_unknown (Err (A := A) e) -> not_unknown (ok_or o e).
Proof. by destruct o. Qed.
Lemma not_unknown_tip (ctx : RpcApiContext C) f : not_unknown (tip_of ctx f).
Proof. unfold tip_of. repeat (apply not_unknown_bind; [apply not_unknown_internal|intros ?]). done. Qed.

Ltac known_method :=
  repeat first
    [ apply not_unknown_bind; [|intros ?] | apply not_unknown_internal | apply not_unknown_decode | apply not_unknown_tip
    | apply not_unknown_ok_or; done
    | match goal with |- not_unknown (match ?x with _ => _ end) => destruct x end | done ].

Lemma known_methods (ctx : RpcApiContext C) req : method req ∈ methods -> not_unknown (map_http_requests req ctx).
Proof.
  destruct req as [i v m ps]. unfold methods. cbn [method]. intros Hm. unfold map_http_requests.
  repeat (apply elem_of_cons in Hm as [-> | Hm]); [..|by apply not_elem_of_nil in Hm];
    match goal with |- context [namespace ?r] => let n := eval vm_compute in (namespace r) in change (namespace r) with n end;
    cbv iota; unfold map_blockchain_requests, map_net_requests; cbn [method String.eqb Ascii.eqb Bool.eqb params].
  - unfold get_blockchain_info. known_method.
  - unfold get_block_count. known_method.
  - unfold parse_get_block_hash, get_block_hash_at. known_method.
  - unfold parse_get_block, get_block_rpc. known_method.
  - done.
  - done.
  - done.
Qed.
Lemma unknown_methods (ctx : RpcApiContext C) req : method req ∉ methods -> map_http_requests req ctx = Err (MethodNotFound (method req)).
Proof.
  unfold methods. rewrite !not_elem_of_cons. intros (H1 & H2 & H3 & H4 & H5 & H6 & H7 & _).
  unfold map_http_requests, map_blockchain_requests, map_net_requests.
  repeat match goal with Hne : method req <> ?m |- _ => rewrite (proj2 (String.eqb_neq (method req) m) Hne); clear Hne end.
  by destruct (namespace req).
Qed.

(** Every request of a batch is answered, in order and under its own id, with a
    result or with an error, never both; the error is -32601 exactly when the method is
    not one of the seven, and otherwise -32602 or -32603. *)
Lemma rpc_answers_batch (ctx : RpcApiContext C) (reqs : list RpcRequest) :
  exists l, handle_http_request ctx (Multiple reqs) = JArray l /\ length l = length reqs /\
  forall i req, reqs !! i = Some req -> exists r, l !! i = Some r /\ member "id" r = Some (id_value (req_id req)) /\
    ((exists v, member "result" r = Some v /\ member "error" r = None /\ method req ∈ methods) \/
     (exists e c, member "error" r = Some e /\ member "code" e = Some (JInt c) /\ member "result" r = None /\
        (c = -32601 \/ c = -32602 \/ c = -32603) /\ (c = -32601 <-> method req ∉ methods))).
Proof.
  exists (map (answer_request ctx) reqs). split_and!; [done|by rewrite length_map|]. intros i req Hi. exists (answer_request ctx req).
  split; [rewrite list_lookup_fmap, Hi; done|]. unfold answer_request, rpc_response.
  destruct (decide (method req ∈ methods)) as [Hm|Hm].
  - pose proof (known_methods ctx req Hm) as Hk. destruct (map_http_requests req ctx) as [v|e]; (split; [done|]).
    + left. by exists v.
    + right. exists (JObject [("code", JInt (code (error_metadata e))); ("message", JString (message (error_metadata e)))]), (code (error_metadata e)).
      do 3 (split; [done|]). destruct e; cbn in *; [done|..]; (split; [auto|]); by split.
  - rewrite unknown_methods by done. split; [done|]. right. eexists _, (-32601). do 3 (split; [done|]). split; [auto|done].
Qed.

(** ** Blocks *)

Lemma get_block_answer ctx req raw b : decode_exact decode_Block raw "Block" = Ok b -> rn_get_block_raw (ctx_node ctx) (gb_hash req) = Ok (Some raw) ->
  get_block_rpc req ctx = Ok (if gb_verbosity req =? 0 then JString (hex_encode raw) else block_to_json req b).
Proof.
  intros Hb Hr. unfold get_block_rpc. rewrite Hr. cbn [internal map_err rbind ok_or]. destruct (gb_verbosity req =? 0); [done|].
  unfold decode_exact in Hb. inv_ok. unfold decode_failure. destruct (decode_Block _) as [[b1 d1]|]; [|done]. cbn in *. simplify_eq.
  destruct (finish _ _); [|done]. cbn in *. by simplify_eq.
Qed.
Lemma getblock_dispatch ctx req : method req = "getblock" -> map_http_requests req ctx = (let? r := parse_get_block (params req) in get_block_rpc r ctx).
Proof.
  destruct req as [i v m ps]. cbn [method]. intros ->. unfold map_http_requests.
  match goal with |- context [namespace ?r] => let n := eval vm_compute in (namespace r) in change (namespace r) with n end. reflexivity.
Qed.
Definition tx_texts (verbosity : Z) (v : Value) : option string :=
  if verbosity =? 2 then member "txid" v ≫= as_str else as_str v.

(** C32: getblock gives the client the stored block: with verbosity 0 the hexadecimal
    text decodes to the stored bytes, with 1 and 2 the answer lists the transactions
    of the block in order, each under the text of its txid, which parses back. *)
Theorem getblock_answers (ctx : RpcApiContext C) (req : RpcRequest) (hash : BlockHash) (raw : bytes) (b : Block) (verbosity : Z) :
  method req = "getblock" -> params req = Some [JString (hash_text hash); JInt verbosity] -> hash_ok hash -> 0 <= verbosity <= 2 ->
  rn_get_block_raw (ctx_node ctx) hash = Ok (Some raw) -> bytes_ok raw -> decode_exact decode_Block raw "Block" = Ok b ->
  exists v, member "result" (answer_request ctx req) = Some v /\
  (verbosity = 0 -> (as_str v ≫= hex_decode) = Some raw) /\
  (verbosity <> 0 -> exists l, member "tx" v = Some (JArray l) /\ member "nTx" v = Some (JInt (Z.of_nat (length (transactions b)))) /\
     map (fun x => tx_texts verbosity x ≫= BlockHash_parse) l = map (fun tx => Some (txid tx)) (transactions b)).
Proof.
  intros Hm Hp Hh Hv Hr Hraw Hb. unfold answer_request. rewrite getblock_dispatch, Hp by done.
  assert (parse_get_block (Some [JString (hash_text hash); JInt verbosity]) = Ok (mkGetBlock hash verbosity)) as ->.
  { unfold parse_get_block. cbn [param mbind option_bind lookup list_lookup as_str ok_or rbind]. rewrite hash_text_parses by done. cbn [ok_or rbind as_u64].
    rewrite (proj2 (Z.leb_le 0 verbosity)), (proj2 (Z.leb_le verbosity U64_MAX)) by (unfold U64_MAX; lia). cbn [andb from_option id].
    by rewrite (proj2 (Z.ltb_ge 2 verbosity)) by lia. }
  cbn [rbind]. rewrite (get_block_answer ctx (mkGetBlock hash verbosity) raw b Hb Hr). cbn [gb_verbosity]. eexists. split; [reflexivity|]. split.
  - intros ->. cbn. by apply hex_decodes.
  - intros Hne. rewrite (proj2 (Z.eqb_neq _ _) Hne). eexists. split; [reflexivity|]. split; [reflexivity|]. cbn [gb_verbosity]. rewrite map_map. apply map_ext. intros tx.
    assert (BlockHash_parse (hash_text (txid tx)) = Some (txid tx)) as Ht by (apply hash_text_parses, hash256_array).
    unfold tx_texts. by destruct (verbosity =? 2).
Qed.

(** A height is cut to 32 bits: 2^32 asks for the genesis block. *)
Lemma height_truncated h k : 0 <= h < 2 ^ 32 -> 0 <= k -> h + k * 2 ^ 32 <= U64_MAX ->
  parse_get_block_hash (Some [JInt (h + k * 2 ^ 32)]) = Ok h.
Proof.
  intros Hh Hk Hle. unfold parse_get_block_hash. cbn [param mbind option_bind lookup list_lookup as_u64 ok_or].
  rewrite (proj2 (Z.leb_le 0 _)), (proj2 (Z.leb_le _ U64_MAX)) by lia. cbn [andb ok_or rbind]. unfold wrap_u. by rewrite Z_mod_plus_full, Z.mod_small.
Qed.

(** ** Connections *)

Lemma counts_fold l : forall c, let c' := fold_left count_one l c in
  inbound c' = (inbound c + length (filter (fun h => nh_conn h = Inbound) l))%nat /\
  (outbound_full_relay c' + block_relay_only c' + feeler c' = outbound_full_relay c + block_relay_only c + feeler c + length (filter (fun h => nh_conn h <> Inbound) l))%nat.
Proof.
  induction l as [|h l IH]; intros c; cbn [fold_left]; [cbn; lia|]. destruct (IH (count_one c h)) as [-> ->]. rewrite !filter_cons. unfold count_one.
  destruct (nh_conn h); repeat case_decide; try done; cbn; lia.
Qed.
(** getnetworkinfo and getconnectioncount agree. *)
Lemma connection_counts_agree (t : PeerTable) : total (get_connection_counts t) = get_peer_count t.
Proof.
  unfold get_connection_counts, get_peer_count. destruct (counts_fold (map_to_list (pt_peers t)).*2 (mkCounts 0 0 0 0)) as [E1 E2].
  set (c := fold_left _ _ _) in *. unfold total. cbn in E1, E2. rewrite <- Nat.add_assoc, <- (Nat.add_assoc (inbound c)).
  assert (length (map_to_list (pt_peers t)).*2 = size (pt_peers t)) as <- by (by rewrite length_fmap, length_map_to_list).
  clearbody c. set (l := (map_to_list (pt_peers t)).*2) in *. clearbody l.
  assert (length (filter (fun h => nh_conn h = Inbound) l) + length (filter (fun h => nh_conn h <> Inbound) l) = length l)%nat as E; [|lia].
  clear. induction l as [|h l IH]; [done|]. rewrite !filter_cons. destruct (decide (nh_conn h = Inbound)), (decide (nh_conn h <> Inbound)); cbn; try lia; done.
Qed.
End Rpc.

(** ** A concrete node *)

Fixpoint hex_text (l : bytes) : string := match l with [] => "" | b :: l => String (hex_char (b / 16)) (String (hex_char (b mod 16)) (hex_text l)) end.
Definition demo_text : RpcText := {|
  hex_encode := hex_text; store_error_text _ := ""; decode_error_text _ := ""; magic_bytes_text _ := ""; socket_addr_text _ := "";
|}.
Lemma hex_char_digit d : 0 <= d < 16 -> hex_digit (hex_char d) = Some d.
Proof.
  intros Hd. assert (forallb (fun n => bool_decide (hex_digit (hex_char (Z.of_nat n)) = Some (Z.of_nat n))) (seq 0 16) = true) as Hall by (vm_compute; reflexivity).
  rewrite forallb_forall in Hall. specialize (Hall (Z.to_nat d)). rewrite Z2Nat.id in Hall by lia. apply bool_decide_eq_true in Hall; [done|]. apply in_seq. lia.
Qed.
Lemma demo_text_ok : RpcTextOk demo_text.
Proof.
  split; cbn.
  - intros l. induction l as [|b l IH]; [done|]. cbn [hex_text String.length length]. rewrite IH. lia.
  - intros l. induction 1 as [|b l [Hb1 Hb2] _ IH]; [done|]. cbn [hex_text hex_pairs].
    rewrite (hex_char_digit (b / 16)) by (split; [apply Z.div_pos|apply Z.div_lt_upper_bound]; lia).
    rewrite (hex_char_digit (b mod 16)) by (apply Z.mod_pos_bound; lia). rewrite IH.
    assert (b / 16 * 16 + b mod 16 = b) as -> by (pose proof (Z.div_mod b 16); lia). done.
Qed.

Definition demo_tx : Transaction := mkTransaction 1 [mkTxIn (mkOutPoint (replicate 32 0) 0xFFFFFFFF) [1; 2] 0xFFFFFFFF []] [mkTxOut 5000000000 [0x51]] 0.
Definition demo_block : Block := mkBlock (mkBlockHeader 1 (replicate 32 7) (replicate 32 8) 9 0x1d00ffff 11) [demo_tx].
Definition demo_raw : bytes := serialize encode_Block demo_block.
Definition demo_node : RpcNodeProvider bytes := {|
  rn_get_headers_tip _ := Ok None; rn_get_best_block _ := Ok None; rn_get_block_tip _ := Ok None;
  rn_get_block_index_height _ _ := Ok None; rn_get_block_hash _ _ := Ok None; rn_get_block_raw c _ := Ok (Some c);
|}.
Definition demo_ctx : RpcApiContext bytes := mkContext demo_raw REGTEST (PeerTable_new (AddrMan_new [])).
Definition demo_request : RpcRequest := mkRequest (IdNumber 4) "2.0" "getblock" (Some [JString (@hash_text demo_text (replicate 32 3)); JInt 2]).
Lemma getblock_answers_witness :
  exists v, member "result" (@answer_request bytes demo_node toy_digests demo_text hex_reference canonical_order demo_ctx demo_request) = Some v.
Proof.
  destruct (@getblock_answers bytes demo_node toy_digests toy_digests_ok demo_text demo_text_ok hex_reference hex_reference_ok canonical_order
    demo_ctx demo_request (replicate 32 3) demo_raw demo_block 2) as (v & Hv & _).
  - reflexivity.
  - reflexivity.
  - split; [reflexivity|]. apply Forall_replicate. split; [discriminate|reflexivity].
  - split; discriminate.
  - reflexivity.
  - unfold bytes_ok, u8_ok. apply (bool_decide_unpack _). vm_compute. exact Logic.I.
  - vm_compute. reflexivity.
  - exists v. exact Hv.
Defined.
