(* ===== verification/Backends.v ===== *)
(** * Storage backends (crates/storage/backend/rocksdb.rs, in_memory.rs, api)

    The two implementations of the storage traits of api/mod.rs: write batches,
    read views with prefix iteration, locked views, checkpoints.  The RocksDB
    crate is third-party code and a parameter, the class [Rocks], with the
    documented behaviour the backend relies on in [RocksOk].

    Theorems: the RocksDB backend implements the key-value interface of Store.v;
    whatever the write worker does over RocksDB it does over memory, with the
    same replies and the same reads afterwards; opening keeps every column
    family; iteration agrees on the prefix; and how the two differ: batches that
    are not committed, iteration past the prefix, and the release of a locked
    view. *)

From stdpp Require Import sorting.
From S2P Require Import Prelude Wire Hash Transaction Block Params Coins BlockFile Store.

#[local] Open Scope string_scope.
#[local] Open Scope Z_scope.

(** [tables::TABLES]: the column families opened at start-up. *)
Definition TABLES : list string := [BLOCK_INDEX; UTXOS; CHAIN_META; BLOCK_UNDO].

(** ** Keys in lexicographic order *)

(** [Ord for Vec<u8>] *)
Fixpoint bytes_leb (a b : bytes) : bool :=
  match a, b with
  | [], _ => true
  | _ :: _, [] => false
  | x :: a, y :: b => (x <? y) || ((x =? y) && bytes_leb a b)
  end.
Definition bytes_le (a b : bytes) : Prop := Is_true (bytes_leb a b).
Definition entry_le (p q : bytes * bytes) : Prop := bytes_le p.1 q.1.
#[export] Instance entry_le_dec : RelDecision entry_le.
Proof. intros p q. unfold entry_le, bytes_le. apply _. Defined.

(** [starts_with] *)
Fixpoint starts_with (k prefix : bytes) : bool :=
  match prefix, k with
  | [], _ => true
  | _ :: _, [] => false
  | x :: prefix, y :: k => (x =? y) && starts_with k prefix
  end.

(** ** Write batches ([StorageWriteBatch])

    A call sees the backend it was opened on and its own state, and may change
    both. *)

Class WriteBatch (B W : Type) : Type := {
  begin_write : B -> result W StoreError;
  w_put_batch : B -> W -> string -> list (bytes * bytes) -> result unit StoreError * B * W;
  w_put : B -> W -> string -> bytes -> bytes -> result unit StoreError * B * W;
  w_delete : B -> W -> string -> bytes -> result unit StoreError * B * W;
  w_commit : B -> W -> result unit StoreError * B * W;
}.

Section Filling.
Context {B W : Type} {WB : WriteBatch B W}.

Definition w_op (b : B) (w : W) (op : WriteOp) : result unit StoreError * B * W :=
  match op with Put t k v => w_put b w t k v | Delete t k => w_delete b w t k end.

(** The calls of a handler, each with its [?]. *)
Fixpoint fill (b : B) (w : W) (ops : list WriteOp) : result unit StoreError * B * W :=
  match ops with
  | [] => (Ok tt, b, w)
  | op :: ops =>
    match w_op b w op with
    | (Ok _, b, w) => fill b w ops
    | (Err e, b, w) => (Err e, b, w)
    end
  end.

(** How many of the calls return before the first that fails. *)
Fixpoint filled (b : B) (w : W) (ops : list WriteOp) : nat :=
  match ops with
  | [] => O
  | op :: ops =>
    match w_op b w op with
    | (Ok _, b, w) => S (filled b w ops)
    | (Err _, _, _) => O
    end
  end.
Definition staged_ops (b : B) (ops : list WriteOp) : nat :=
  match begin_write b with Err _ => O | Ok w => filled b w ops end.

(** [begin_write], the calls, [commit] *)
Definition write_ops (b : B) (ops : list WriteOp) : result unit StoreError * B :=
  match begin_write b with
  | Err e => (Err e, b)
  | Ok w =>
    match fill b w ops with
    | (Err e, b, _) => (Err e, b)
    | (Ok _, b, w) => let '(r, b, _) := w_commit b w in (r, b)
    end
  end.
End Filling.

(** ** In memory (backend/in_memory.rs)

    The lock is poisoned only by a writer that panics, and none does. *)

#[export] Instance memory_batch : WriteBatch Database unit := {|
  begin_write _ := Ok tt;
  w_put_batch db w t batch := (Ok tt, put_batch db t batch, w);
  w_put db w t k v := (Ok tt, put_batch db t [(k, v)], w);
  w_delete db w t k := (Ok tt, mem_delete db t k, w);
  w_commit db w := (Ok tt, db, w) |}.

(** [InMemoryBackend::open] *)
Definition memory_open : result Database StoreError := Ok ∅.

(** [InMemoryReadTx::prefix_iterator] *)
Definition memory_prefix_iterator (db : Database) (table : string) (prefix : bytes) : list (bytes * bytes) :=
  merge_sort entry_le (filter (fun p => starts_with p.1 prefix = true)
    match db !! table with Some t => map_to_list t | None => [] end).

(** A locked view holds the snapshot it was opened on. *)
Record InMemoryLocked : Type := mkInMemoryLocked { ml_snapshot : Database; ml_table_name : string }.
Definition memory_begin_locked (db : Database) (table : string) : result InMemoryLocked StoreError :=
  Ok (mkInMemoryLocked db table).
Definition memory_locked_get (l : InMemoryLocked) (key : bytes) : result (option bytes) StoreError :=
  Ok (mem_get (ml_snapshot l) (ml_table_name l) key).

(** [create_checkpoint] does nothing. *)
Definition memory_create_checkpoint (db : Database) (path : string) : result unit StoreError := Ok tt.

(** ** Options (the constants and the settings of [RocksDBBackend::open]) *)

Definition BLOCK_CACHE_BYTES : Z := 64 * 1024 * 1024.
Definition DB_WRITE_BUFFER_BYTES : Z := 32 * 1024 * 1024.
Definition BLOCK_INDEX_WRITE_BUFFER_BYTES : Z := 8 * 1024 * 1024.
Definition UTXO_WRITE_BUFFER_BYTES : Z := 32 * 1024 * 1024.
Definition META_WRITE_BUFFER_BYTES : Z := 2 * 1024 * 1024.

Inductive BlockOption : Type := BlockSize (n : Z) | BloomFilter (bits_per_key : Z) (block_based : bool) | BlockCache (bytes : Z).

(** One constructor per setter; a ratio is a pair numerator, denominator. *)
Inductive DbOption : Type :=
  | CreateIfMissing (b : bool) | CreateMissingColumnFamilies (b : bool)
  | MaxOpenFiles (n : Z) | MaxFileOpeningThreads (n : Z) | MaxBackgroundJobs (n : Z)
  | LevelZeroFileNumCompactionTrigger (n : Z) | LevelZeroSlowdownWritesTrigger (n : Z) | LevelZeroStopWritesTrigger (n : Z)
  | TargetFileSizeBase (n : Z) | MaxBytesForLevelBase (n : Z) | MaxBytesForLevelMultiplier (n : Z)
  | LevelCompactionDynamicLevelBytes (b : bool)
  | DbWriteBufferSize (n : Z) | WriteBufferSize (n : Z) | MaxWriteBufferNumber (n : Z) | MinWriteBufferNumberToMerge (n : Z)
  | WalRecoveryPointInTime | MaxTotalWalSize (n : Z) | WalBytesPerSync (n : Z) | BytesPerSync (n : Z) | UseFsync (b : bool)
  | EnablePipelinedWrite (b : bool) | AllowConcurrentMemtableWrite (b : bool) | EnableWriteThreadAdaptiveYield (b : bool)
  | CompactionReadaheadSize (n : Z) | AdviseRandomOnOpen (b : bool) | CompressionNone
  | MemtablePrefixBloomRatio (num den : Z) | BlockBasedTableFactory (opts : list BlockOption).

Definition db_options : list DbOption :=
  [CreateIfMissing true; CreateMissingColumnFamilies true;
   MaxOpenFiles 512; MaxFileOpeningThreads 4; MaxBackgroundJobs 4;
   LevelZeroFileNumCompactionTrigger 2; LevelZeroSlowdownWritesTrigger 10; LevelZeroStopWritesTrigger 16;
   TargetFileSizeBase (64 * 1024 * 1024); MaxBytesForLevelBase (256 * 1024 * 1024); MaxBytesForLevelMultiplier 10;
   LevelCompactionDynamicLevelBytes true;
   DbWriteBufferSize DB_WRITE_BUFFER_BYTES; WriteBufferSize DB_WRITE_BUFFER_BYTES; MaxWriteBufferNumber 3;
   MinWriteBufferNumberToMerge 1;
   WalRecoveryPointInTime; MaxTotalWalSize (256 * 1024 * 1024); WalBytesPerSync (4 * 1024 * 1024);
   BytesPerSync (4 * 1024 * 1024); UseFsync false;
   EnablePipelinedWrite true; AllowConcurrentMemtableWrite true; EnableWriteThreadAdaptiveYield true;
   CompactionReadaheadSize (4 * 1024 * 1024); AdviseRandomOnOpen false; CompressionNone].

(** The settings of one column family, by its name. *)
Definition cf_options (cf_name : string) : list DbOption :=
  [LevelZeroFileNumCompactionTrigger 4; LevelZeroSlowdownWritesTrigger 20; LevelZeroStopWritesTrigger 36] ++
  (if decide (cf_name = BLOCK_INDEX) then
    [CompressionNone; WriteBufferSize BLOCK_INDEX_WRITE_BUFFER_BYTES; MaxWriteBufferNumber 2; TargetFileSizeBase (32 * 1024 * 1024);
     BlockBasedTableFactory [BlockSize (16 * 1024); BloomFilter 10 false; BlockCache BLOCK_CACHE_BYTES]]
  else if decide (cf_name = UTXOS) then
    [CompressionNone; WriteBufferSize UTXO_WRITE_BUFFER_BYTES; MaxWriteBufferNumber 3; MinWriteBufferNumberToMerge 1;
     TargetFileSizeBase (64 * 1024 * 1024); MemtablePrefixBloomRatio 1 10;
     BlockBasedTableFactory [BlockSize (16 * 1024); BloomFilter 10 false; BlockCache BLOCK_CACHE_BYTES]]
  else if decide (cf_name = CHAIN_META) then
    [CompressionNone; WriteBufferSize META_WRITE_BUFFER_BYTES; MaxWriteBufferNumber 2; TargetFileSizeBase (8 * 1024 * 1024);
     BlockBasedTableFactory [BlockSize (4 * 1024); BlockCache BLOCK_CACHE_BYTES]]
  else
    [CompressionNone; WriteBufferSize BLOCK_INDEX_WRITE_BUFFER_BYTES; MaxWriteBufferNumber 2; TargetFileSizeBase (32 * 1024 * 1024);
     BlockBasedTableFactory [BlockSize (16 * 1024); BlockCache BLOCK_CACHE_BYTES]]).

(** ** The RocksDB crate

    [R] is an open database, [F] the directory it lives in, [Cf] a column-family
    handle and [Snap] a snapshot; an error is its text.  No prefix extractor is
    among the options above. *)

Inductive BatchOp (Cf : Type) : Type :=
  | BPut (cf : Cf) (key value : bytes)
  | BDelete (cf : Cf) (key : bytes).
Arguments BPut {Cf}.
Arguments BDelete {Cf}.

Class Rocks (R F Cf Snap : Type) : Type := {
  list_cf : list DbOption -> F -> result (list string) string;
  open_cf_descriptors : list DbOption -> F -> list (string * list DbOption) -> result R string;
  dir_of : R -> F;
  cf_handle : R -> string -> option Cf;
  get_cf : R -> Cf -> bytes -> result (option bytes) string;
  iterator_cf : R -> Cf -> list (result (bytes * bytes) string);
  prefix_iterator_cf : R -> Cf -> bytes -> list (result (bytes * bytes) string);
  db_write : R -> list (BatchOp Cf) -> result R string;
  snapshot : R -> Snap;
  snapshot_get_cf : Snap -> Cf -> bytes -> result (option bytes) string;
  checkpoint_new : R -> result unit string;
  checkpoint_create : R -> string -> result unit string;
}.

Definition batch_op_effect {Cf} `{EqDecision Cf} (cf : Cf) (key : bytes) (op : BatchOp Cf) : option (option bytes) :=
  match op with
  | BPut c k v => if bool_decide (c = cf /\ k = key) then Some (Some v) else None
  | BDelete c k => if bool_decide (c = cf /\ k = key) then Some None else None
  end.
Definition batch_effect {Cf} `{EqDecision Cf} (cf : Cf) (key : bytes) (batch : list (BatchOp Cf)) : option (option bytes) :=
  fold_left (fun acc op => match batch_op_effect cf key op with Some e => Some e | None => acc end) batch None.

(** A complete iteration: the entries from [start], each key once, in order. *)
Definition scan_of {R F Cf Snap} `{Rocks R F Cf Snap} (r : R) (cf : Cf) (start : bytes) (l : list (bytes * bytes)) : Prop :=
  NoDup l.*1 /\ StronglySorted entry_le l /\
  forall k v, (k, v) ∈ l <-> get_cf r cf k = Ok (Some v) /\ bytes_le start k.

(** What the documentation of RocksDB says of it: column families are
    independent; a batch is applied as a whole, its later operations over its
    earlier ones; a snapshot reads what the database held when it was taken; an
    iterator without a prefix extractor runs from its start to the end of the
    family in key order; a database opened again holds the families listed and
    what was committed. *)
Class RocksOk (R F Cf Snap : Type) `{Rocks R F Cf Snap} `{EqDecision Cf} : Prop := {
  cf_handle_inj : forall r t t' cf, cf_handle r t = Some cf -> cf_handle r t' = Some cf -> t = t';
  write_handles : forall r b r' t, db_write r b = Ok r' -> cf_handle r' t = cf_handle r t;
  write_get : forall r b r' cf k, db_write r b = Ok r' ->
    get_cf r' cf k = match batch_effect cf k b with Some v => Ok v | None => get_cf r cf k end;
  snapshot_get : forall r cf k, snapshot_get_cf (snapshot r) cf k = get_cf r cf k;
  iterator_ok : forall r cf l, iterator_cf r cf = map Ok l -> scan_of r cf [] l;
  prefix_iterator_ok : forall r cf p l, prefix_iterator_cf r cf p = map Ok l -> scan_of r cf p l;
  open_handles : forall opts f ds r name, open_cf_descriptors opts f ds = Ok r -> is_Some (cf_handle r name) <-> name ∈ ds.*1;
  list_cf_dir : forall opts r names, list_cf opts (dir_of r) = Ok names -> forall t, is_Some (cf_handle r t) -> t ∈ names;
  reopen_get : forall opts ds r r' t cf cf' k, open_cf_descriptors opts (dir_of r) ds = Ok r' ->
    cf_handle r t = Some cf -> cf_handle r' t = Some cf' -> get_cf r' cf' k = get_cf r cf k;
}.

(** ** The RocksDB backend (backend/rocksdb.rs) *)

Definition cf_missing (table : string) : StoreError := Custom ("column family not found: " +:+ table).

Section RocksDBBackend.
Context {R F Cf Snap : Type} {RK : Rocks R F Cf Snap}.

(** The names opened: those on disk and [TABLES], as a set. *)
Definition all_cfs_to_open (existing_cfs : list string) : gset string := list_to_set existing_cfs ∪ list_to_set TABLES.
Definition cf_descriptors (existing_cfs : list string) : list (string * list DbOption) :=
  map (fun cf_name => (cf_name, cf_options cf_name)) (elements (all_cfs_to_open existing_cfs)).
Definition existing_cfs (f : F) : list string :=
  match list_cf db_options f with Ok l => l | Err _ => ["default"] end.
(** [RocksDBBackend::open] *)
Definition RocksDBBackend_open (f : F) : result R StoreError :=
  map_err (fun e => Custom ("failed to open RocksDB: " +:+ e)) (open_cf_descriptors db_options f (cf_descriptors (existing_cfs f))).
(** The families the warning after opening names. *)
Definition unknown_cfs (existing_cfs : list string) : list string :=
  filter (fun cf_name => cf_name <> "default" /\ cf_name ∉ TABLES) existing_cfs.

(** [RocksDBReadTx] *)
Definition rocks_get (r : R) (table : string) (key : bytes) : result (option bytes) StoreError :=
  match cf_handle r table with
  | None => Err (cf_missing table)
  | Some cf => map_err (fun e => Custom ("get failed on " +:+ table +:+ ": " +:+ e)) (get_cf r cf key)
  end.
Definition rocks_prefix_iterator (r : R) (table : string) (prefix : bytes)
    : result (list (result (bytes * bytes) StoreError)) StoreError :=
  match cf_handle r table with
  | None => Err (cf_missing table)
  | Some cf => Ok (map (map_err (fun e => Custom ("iteration failed: " +:+ e))) (prefix_iterator_cf r cf prefix))
  end.

(** [RocksDBWriteTx]: the batch fills in memory and [commit] takes it. *)
Definition rocks_put_batch (r : R) (w : list (BatchOp Cf)) (table : string) (batch : list (bytes * bytes)) :=
  match cf_handle r table with
  | None => (Err (cf_missing table), r, w)
  | Some cf => (Ok tt, r, fold_left (fun w p => w ++ [BPut cf p.1 p.2])%list batch w)
  end.
Definition rocks_put (r : R) (w : list (BatchOp Cf)) (table : string) (key value : bytes) :=
  match cf_handle r table with
  | None => (Err (cf_missing table), r, w)
  | Some cf => (Ok tt, r, w ++ [BPut cf key value])%list
  end.
Definition rocks_delete (r : R) (w : list (BatchOp Cf)) (table : string) (key : bytes) :=
  match cf_handle r table with
  | None => (Err (cf_missing table), r, w)
  | Some cf => (Ok tt, r, w ++ [BDelete cf key])%list
  end.
Definition rocks_commit (r : R) (w : list (BatchOp Cf)) : result unit StoreError * R * list (BatchOp Cf) :=
  match db_write r w with
  | Ok r' => (Ok tt, r', [])
  | Err e => (Err (Custom ("commit failed: " +:+ e)), r, [])
  end.

Definition rocks_batch : WriteBatch R (list (BatchOp Cf)) := {|
  begin_write _ := Ok [];
  w_put_batch := rocks_put_batch;
  w_put := rocks_put;
  w_delete := rocks_delete;
  w_commit := rocks_commit |}.

(** The items read before the first error, or the error. *)
Fixpoint collect_keys (items : list (result (bytes * bytes) string)) : result (list bytes) StoreError :=
  match items with
  | [] => Ok []
  | item :: items =>
    let? '(key, _) := map_err Custom item in
    let? keys := collect_keys items in
    Ok (key :: keys)
  end.
Definition rocks_clear_table (r : R) (table : string) : result R StoreError :=
  let? cf := ok_or (cf_handle r table) (cf_missing table) in
  let? keys := collect_keys (iterator_cf r cf) in
  map_err (fun e => Custom ("clear_table write failed: " +:+ e)) (db_write r (map (BDelete cf) keys)).

(** [begin_locked] takes the snapshot before it looks for the family. *)
Record RocksDBLocked : Type := mkRocksDBLocked { lock : Snap; locked_cf : Cf }.
Definition rocks_begin_locked (r : R) (table : string) : result RocksDBLocked StoreError :=
  let lock := snapshot r in
  let? cf := ok_or (cf_handle r table) (cf_missing table) in
  Ok (mkRocksDBLocked lock cf).
Definition rocks_locked_get (l : RocksDBLocked) (key : bytes) : result (option bytes) StoreError :=
  map_err (fun e => Custom ("locked get failed: " +:+ e)) (snapshot_get_cf (lock l) (locked_cf l) key).

Definition rocks_create_checkpoint (r : R) (path : string) : result unit StoreError :=
  let? _ := map_err (fun e => Custom ("checkpoint init failed: " +:+ e)) (checkpoint_new r) in
  map_err (fun e => Custom ("checkpoint write failed at " +:+ path +:+ ": " +:+ e)) (checkpoint_create r path).

(** The backend behind the interface of Store.v. *)
Definition rocks_backend : StorageBackend R := {|
  kv_get := rocks_get;
  kv_write r ops := match write_ops (WB := rocks_batch) r ops with (Ok _, r') => Ok r' | (Err e, _) => Err e end;
  kv_staged r ops := staged_ops (WB := rocks_batch) r ops |}.
End RocksDBBackend.

(** ** The handle's owners

    Each [Arc] of the database counts; [RocksDBLocked] keeps one of its own in a
    leaked box, and its snapshot and family handle point into the database. *)

Record DbHandle : Type := mkDbHandle { strong_count : Z; background_cancelled : bool; closed : bool }.

(** Dropping one [Arc]: the last one closes the database. *)
Definition drop_arc (h : DbHandle) : DbHandle :=
  mkDbHandle (strong_count h - 1) (background_cancelled h) (closed h || (strong_count h <=? 1)).
Definition clone_arc (h : DbHandle) : DbHandle := mkDbHandle (strong_count h + 1) (background_cancelled h) (closed h).

(** [RocksDBBackend::drop], and the drop of its field that follows. *)
Definition drop_backend (h : DbHandle) : DbHandle :=
  drop_arc (if strong_count h =? 1 then mkDbHandle (strong_count h) true (closed h) else h).

(** The handle after [begin_locked]: the box is leaked before the family is
    looked up. *)
Definition begin_locked_handle (found : bool) (h : DbHandle) : option unit * DbHandle :=
  let h := clone_arc h in (if found then Some tt else None, h).

(** Using the database through the snapshot or the family handle. *)
Definition use_db (h : DbHandle) : option DbHandle := if closed h then None else Some h.

(** [RocksDBLocked::drop]: the body of [drop] frees the box; the fields [lock]
    and [cf] are dropped after it, in this order.  [None] is a use after free. *)
Definition drop_locked (h : DbHandle) : option DbHandle :=
  let h := drop_arc h in
  match use_db h with
  | None => None
  | Some h => use_db h
  end.
