(* ===== verification/BackendProofs.v ===== *)
(** * The backends compared

    The RocksDB backend implements the interface of Store.v ([rocks_backend_ok]);
    a store over it is simulated by a store over the in-memory backend
    ([rocks_store_simulated]).  Iteration, locked views, opening, uncommitted
    batches and the release of handles follow. *)

From stdpp Require Import sorting.
From S2P Require Import Prelude Wire Hash Transaction Block Params Coins BlockFile Store StoreInv Backends.

#[local] Open Scope string_scope.
#[local] Open Scope Z_scope.

(** ** The order of keys *)

#[export] Instance bytes_le_total : Total bytes_le.
Proof.
  intros a. unfold bytes_le. induction a as [|x a IH]; intros [|y b]; simpl; auto.
  destruct (Z.lt_total x y) as [H|[->|H]]; [left| |right]; rewrite ?(proj2 (Z.ltb_lt _ _) H); try done.
  rewrite Z.ltb_irrefl, Z.eqb_refl. apply IH.
Qed.
#[export] Instance bytes_le_preorder : PreOrder bytes_le.
Proof.
  split.
  - intros a. by destruct (total bytes_le a a).
  - unfold bytes_le. intros a. induction a as [|x a IH]; intros [|y b] [|z c]; simpl; try done.
    rewrite !orb_True, !andb_True, !Is_true_true, !Z.ltb_lt, !Z.eqb_eq. intros H1 H2.
    destruct H1 as [H1|[-> H1]], H2 as [H2|[-> H2]]; [left; lia|by left|by left|right; split; [done|]]. 
    apply Is_true_true. eapply IH; by apply Is_true_true.
Qed.
#[export] Instance bytes_le_antisym : AntiSymm (=) bytes_le.
Proof.
  unfold bytes_le. intros a. induction a as [|x a IH]; intros [|y b]; simpl; try done.
  rewrite !orb_True, !andb_True, !Is_true_true, !Z.ltb_lt, !Z.eqb_eq. intros H1 H2.
  destruct H1 as [H1|[-> H1]], H2 as [H2|[E H2]]; try lia. f_equal. apply IH; by apply Is_true_true.
Qed.
#[export] Instance entry_le_total : Total entry_le.
Proof. intros p q. apply (total bytes_le). Qed.
#[export] Instance entry_le_trans : Transitive entry_le.
Proof. intros p q r H1 H2. unfold entry_le in *. by transitivity q.1. Qed.

(** The keys with a prefix are those from the prefix on, up to the first without it. *)
Lemma starts_with_ge k p : starts_with k p = true -> bytes_le p k.
Proof.
  unfold bytes_le. revert k. induction p as [|x p IH]; intros [|y k]; simpl; try done.
  rewrite andb_true_iff, Z.eqb_eq. intros [-> H]. rewrite Z.ltb_irrefl, Z.eqb_refl. by apply IH.
Qed.
Lemma starts_with_between p k k' : bytes_le p k -> bytes_le k k' -> starts_with k' p = true -> starts_with k p = true.
Proof.
  unfold bytes_le. revert k k'. induction p as [|x p IH]; intros [|y k] [|z k']; simpl; try done.
  rewrite !orb_True, !andb_True, !Is_true_true, !andb_true_iff, !Z.ltb_lt, !Z.eqb_eq. intros H1 H2 [-> H3].
  destruct H1 as [H1|[-> H1]], H2 as [H2|[E H2]]; try lia. split; [done|]. by eapply IH; [apply Is_true_true..|].
Qed.

(** Two scans with the same entries are the same list. *)
Lemma scan_unique (l l' : list (bytes * bytes)) : NoDup l.*1 -> NoDup l'.*1 ->
  StronglySorted entry_le l -> StronglySorted entry_le l' -> (forall k v, (k, v) ∈ l <-> (k, v) ∈ l') -> l = l'.
Proof.
  intros N N' S S' E. assert (l ≡ₚ l') as P.
  { apply NoDup_Permutation; [by eapply NoDup_fmap_1|by eapply NoDup_fmap_1|]. intros [k v]. apply E. }
  revert l' N' S' P E. induction S as [|[k v] l S IH H]; intros l' N' S' P E; [by apply Permutation_nil_l in P|].
  destruct S' as [|[k' v'] l' S' H']; [by apply Permutation_nil_r in P|].
  assert ((k, v) = (k', v')) as [= -> ->].
  { assert ((k, v) ∈ (k', v') :: l') as [?|K1]%elem_of_cons by (rewrite <- P; left); [done|].
    assert ((k', v') ∈ (k, v) :: l) as [?|K2]%elem_of_cons by (rewrite P; left); [done|].
    rewrite Forall_forall in H, H'. pose proof (H _ K2) as L1. pose proof (H' _ K1) as L2. unfold entry_le in *. simpl in *.
    assert (k = k') as -> by exact (anti_symm bytes_le k k' L1 L2).
    apply NoDup_cons in N as [N _]. exfalso. apply N. rewrite list_elem_of_fmap. by eexists (_, _). }
  rewrite fmap_cons in N, N'. f_equal. apply NoDup_cons in N as [_ N], N' as [_ N'].
  apply IH; [done..|by apply Permutation_cons_inv in P|].
  intros k v. apply Permutation_cons_inv in P. by rewrite P.
Qed.

(** In a scan from [prefix] the keys that have it come first. *)
Lemma prefix_first (prefix : bytes) (l : list (bytes * bytes)) :
  StronglySorted entry_le l -> Forall (fun p => bytes_le prefix p.1) l ->
  l = (filter (fun p => starts_with p.1 prefix = true) l ++ filter (fun p => starts_with p.1 prefix = false) l)%list.
Proof.
  intros S. induction S as [|p l S IH H]; intros Hge; [done|]. apply Forall_cons in Hge as [Hp Hge].
  rewrite !filter_cons. destruct (starts_with p.1 prefix) eqn:G.
  - rewrite decide_True, decide_False by done. simpl. f_equal. by apply IH.
  - rewrite decide_False, decide_True by done.
    assert (filter (fun q => starts_with q.1 prefix = true) l = []) as Hn.
    { apply elem_of_nil_inv. rewrite Forall_forall in H. intros q [Hq' Hq]%list_elem_of_filter.
      apply (starts_with_between prefix p.1 q.1) in Hq'; [congruence|done|by apply H]. }
    rewrite Hn. simpl. f_equal. rewrite IH at 1 by done. by rewrite Hn.
Qed.

(** ** Memory *)

Lemma memory_fill db ops : fill db tt ops = (Ok tt, fold_left mem_apply ops db, tt).
Proof. revert db. induction ops as [|[t k v|t k] ops IH]; intros db; cbn [fill w_op w_put w_delete memory_batch]; rewrite ?IH; done. Qed.

(** A batch that is filled and committed is the write of the interface. *)
Lemma memory_write_ops db ops : write_ops db ops = (Ok tt, fold_left mem_apply ops db).
Proof. unfold write_ops. cbn [begin_write memory_batch]. by rewrite memory_fill. Qed.

Lemma put_batch_get db t batch t' k : mem_get (put_batch db t batch) t' k =
  mem_get (fold_left mem_apply (map (fun p => Put t p.1 p.2) batch) db) t' k.
Proof.
  induction batch as [|p l IH] using rev_ind; simpl.
  - unfold mem_get, put_batch. simpl. destruct (decide (t = t')) as [->|?]; [|by rewrite lookup_insert_ne].
    rewrite lookup_insert_eq. by destruct (db !! t'); simpl; rewrite ?lookup_empty.
  - rewrite map_app, fold_left_app. cbn [map fold_left]. rewrite mem_apply_get, <- IH. clear IH.
    unfold mem_get, put_batch. rewrite fold_left_app. cbn [fold_left op_effect]. destruct (decide (t = t')) as [->|?].
    + rewrite !lookup_insert_eq. destruct (decide (p.1 = k)) as [->|?].
      * by rewrite lookup_insert_eq, bool_decide_true.
      * by rewrite lookup_insert_ne, bool_decide_false by naive_solver.
    + by rewrite !lookup_insert_ne, bool_decide_false by naive_solver.
Qed.

Lemma table_entries (db : Database) table (es := match db !! table with Some t => map_to_list t | None => [] end) :
  NoDup es.*1 /\ forall k v, (k, v) ∈ es <-> mem_get db table k = Some v.
Proof.
  unfold es, mem_get. destruct (db !! table) as [t|]; [|by split; [constructor|intros; rewrite elem_of_nil]].
  split; [apply NoDup_fst_map_to_list|intros; apply elem_of_map_to_list].
Qed.

(** What iteration in memory returns: the entries under the prefix, in order. *)
Lemma memory_scan db table prefix (l := memory_prefix_iterator db table prefix) :
  NoDup l.*1 /\ StronglySorted entry_le l /\
  forall k v, (k, v) ∈ l <-> mem_get db table k = Some v /\ starts_with k prefix = true.
Proof.
  unfold l, memory_prefix_iterator, mem_get. set (es := match db !! table with Some t => map_to_list t | None => [] end).
  destruct (table_entries db table) as [N E]. fold es in N, E. unfold mem_get in E.
  split_and!.
  - rewrite (merge_sort_Permutation entry_le). eapply (sublist_NoDup _ (es.*1)); [done|]. apply fmap_sublist, sublist_filter.
  - apply StronglySorted_merge_sort; apply _.
  - intros k v. rewrite (merge_sort_Permutation entry_le), list_elem_of_filter, E. simpl. tauto.
Qed.

(** ** RocksDB *)

Section Rocks.
Context {R F Cf Snap : Type} {RK : Rocks R F Cf Snap} `{!EqDecision Cf} {RO : RocksOk R F Cf Snap}.
Implicit Types r : R.

#[local] Existing Instance rocks_batch.
#[local] Existing Instance rocks_backend.

(** The batch operation an operation becomes. *)
Definition op_in (r : R) (op : WriteOp) : option (BatchOp Cf) :=
  match op with
  | Put t k v => (fun cf => BPut cf k v) <$> cf_handle r t
  | Delete t k => (fun cf => BDelete cf k) <$> cf_handle r t
  end.

Lemma rocks_fill r w ops : match mapM (op_in r) ops with
  | Some b => fill r w ops = (Ok tt, r, w ++ b)%list
  | None => exists t w', fill r w ops = (Err (cf_missing t), r, w') end.
Proof.
  revert w. induction ops as [|op ops IH]; intros w; [cbn; by rewrite app_nil_r|cbn [mapM fill]].
  destruct op as [t k v|t k]; cbn [op_in w_op w_put w_delete rocks_batch]; unfold rocks_put, rocks_delete;
    (destruct (cf_handle r t) as [cf|]; cbn; [|eauto]);
    match goal with |- context [fill r ?w' ops] => specialize (IH w') end;
    (destruct (mapM (op_in r) ops); cbn; [by rewrite IH, <- app_assoc|done]).
Qed.

Lemma op_in_effect r t cf k op bop : cf_handle r t = Some cf -> op_in r op = Some bop ->
  batch_op_effect cf k bop = op_effect t k op.
Proof.
  intros Ht. destruct op as [t' k' v|t' k']; simpl; (destruct (cf_handle r t') as [cf'|] eqn:E; [|done]); intros [= <-]; simpl;
    (destruct (decide (t' = t)) as [->|Hne];
     [rewrite Ht in E; injection E as ->; by do 2 case_bool_decide; naive_solver
     |rewrite !bool_decide_false; [done|naive_solver|intros [-> _]; by apply Hne, (cf_handle_inj r _ _ cf)]]).
Qed.

Lemma ops_in_effect r t cf k ops b : cf_handle r t = Some cf -> mapM (op_in r) ops = Some b ->
  batch_effect cf k b = ops_effect t k ops.
Proof.
  intros Ht. rewrite mapM_Some. intros Hb. unfold batch_effect, ops_effect. generalize (None : option (option bytes)) as acc.
  induction Hb as [|op bop ops b Hop _ IH]; intros acc; [done|]. cbn [fold_left].
  by rewrite (op_in_effect r t cf k op bop Ht Hop), IH.
Qed.

(** An operation on a table that has no family does not fit in a batch. *)
Lemma ops_in_missing r t k ops b : cf_handle r t = None -> mapM (op_in r) ops = Some b -> ops_effect t k ops = None.
Proof.
  intros Ht. rewrite mapM_Some. intros Hb. unfold ops_effect.
  induction Hb as [|op bop ops b Hop _ IH]; [done|]. cbn [fold_left].
  assert (op_effect t k op = None) as ->; [|done].
  destruct op as [t' k' v|t' k']; simpl in *; rewrite bool_decide_false; try done; intros [-> _]; by rewrite Ht in Hop.
Qed.

Lemma rocks_write_ok r ops r' : kv_write r ops = Ok r' -> exists b, mapM (op_in r) ops = Some b /\ db_write r b = Ok r'.
Proof.
  cbn [kv_write rocks_backend]. unfold write_ops. cbn [begin_write rocks_batch]. pose proof (rocks_fill r [] ops) as H.
  destruct (mapM (op_in r) ops) as [b|]; [|by destruct H as (t & w' & ->)]. rewrite H. simpl. unfold rocks_commit.
  destruct (db_write r b) as [r1|] eqn:E; [|done]. intros [= ->]. eauto.
Qed.

#[export] Instance rocks_backend_ok : StorageBackendOk R.
Proof using RO.
  intros r ops r' table key (b & Hb & Hw)%rocks_write_ok. cbn [kv_get rocks_backend]. unfold rocks_get.
  rewrite (write_handles r b r' table Hw). destruct (cf_handle r table) as [cf|] eqn:E.
  - rewrite (write_get r b r' cf key Hw), (ops_in_effect r table cf key ops b E Hb). by destruct (ops_effect table key ops).
  - by rewrite (ops_in_missing r table key ops b E Hb).
Qed.

(** ** Batches are all or nothing *)

(** Whatever was put into a batch, the database changes only by a commit. *)
Lemma rocks_fill_unchanged r w ops : (fill r w ops).1.2 = r.
Proof. pose proof (rocks_fill r w ops) as H. destruct (mapM _ _); [by rewrite H|by destruct H as (? & ? & ->)]. Qed.
Lemma rocks_write_all_or_nothing r ops res r' : write_ops r ops = (res, r') ->
  match res with
  | Ok _ => exists b, mapM (op_in r) ops = Some b /\ db_write r b = Ok r'
  | Err _ => r' = r
  end.
Proof.
  unfold write_ops. cbn [begin_write rocks_batch]. pose proof (rocks_fill r [] ops) as H.
  destruct (mapM (op_in r) ops) as [b|]; [|destruct H as (t & w' & ->); by intros [= <- <-]]. rewrite H. simpl. unfold rocks_commit.
  destruct (db_write r b) as [r1|] eqn:E; intros [= <- <-]; eauto.
Qed.

(** ** Opening *)

(** Opening lists every table and every family found on disk. *)
Lemma cf_descriptors_names l name : name ∈ (cf_descriptors l).*1 <-> name ∈ l \/ name ∈ TABLES.
Proof.
  unfold cf_descriptors. rewrite <- list_fmap_compose. unfold compose. cbn [fst]. rewrite list_fmap_id, elem_of_elements.
  unfold all_cfs_to_open. by rewrite elem_of_union, !elem_of_list_to_set.
Qed.
Lemma open_tables f r t : RocksDBBackend_open f = Ok r -> t ∈ TABLES -> is_Some (cf_handle r t).
Proof.
  unfold RocksDBBackend_open. intros H Ht. inv_ok. eapply open_handles; [done|]. apply cf_descriptors_names. by right.
Qed.
(** A family of another schema is opened and kept, not dropped. *)
Lemma open_keeps_unknown f l r t : list_cf db_options f = Ok l -> RocksDBBackend_open f = Ok r ->
  t ∈ unknown_cfs l -> is_Some (cf_handle r t).
Proof.
  unfold RocksDBBackend_open, existing_cfs. intros -> H (_ & Ht)%list_elem_of_filter. inv_ok.
  eapply open_handles; [done|]. apply cf_descriptors_names. by left.
Qed.

(** A database opened again reads as before, in every family. *)
Lemma reopen_reads r l r' t k : list_cf db_options (dir_of r) = Ok l -> RocksDBBackend_open (dir_of r) = Ok r' ->
  is_Some (cf_handle r t) -> rocks_get r' t k = rocks_get r t k.
Proof.
  intros Hl H Ht. pose proof (list_cf_dir _ _ _ Hl t Ht) as Hin. unfold RocksDBBackend_open, existing_cfs in H. rewrite Hl in H.
  inv_ok. destruct Ht as [cf Hcf]. unfold rocks_get. rewrite Hcf.
  destruct (proj2 (open_handles db_options (dir_of r) (cf_descriptors l) r' t ltac:(done))) as [cf' Hcf'];
    [by apply cf_descriptors_names; left|].
  rewrite Hcf'. by erewrite reopen_get.
Qed.

(** ** Locked views, clearing and iteration *)

(** A locked view reads the state it was opened on, whatever is written later. *)
Lemma locked_get r t l : rocks_begin_locked r t = Ok l -> forall k,
  res_ok (rocks_locked_get l k) = res_ok (rocks_get r t k).
Proof.
  unfold rocks_begin_locked. intros H k. inv_ok. unfold rocks_locked_get, rocks_get. simpl. rewrite snapshot_get.
  match goal with E : cf_handle r t = _ |- _ => rewrite E end. by destruct (get_cf _ _ _).
Qed.

Lemma collect_keys_ok items keys : collect_keys items = Ok keys -> exists l, items = map Ok l /\ keys = l.*1.
Proof.
  revert keys. induction items as [|[[k v]|] items IH]; intros keys H; simpl in H; inv_ok; [by exists []|].
  match goal with E : collect_keys items = _ |- _ => apply IH in E as (l & -> & ->) end. by exists ((k, v) :: l).
Qed.
Lemma batch_effect_deletes (cf cf' : Cf) (k : bytes) (keys : list bytes) : batch_effect cf k (map (BDelete cf') keys) =
  if bool_decide (cf' = cf /\ k ∈ keys) then Some None else None.
Proof.
  unfold batch_effect. induction keys as [|k' keys IH] using rev_ind; [by rewrite bool_decide_false by set_solver|].
  rewrite map_app, fold_left_app, IH. simpl. repeat case_bool_decide; try done; exfalso;
    rewrite elem_of_app, list_elem_of_singleton in *; naive_solver.
Qed.

(** Clearing empties the table and nothing else. *)
Lemma clear_table_spec r t r' : rocks_clear_table r t = Ok r' -> forall t' k,
  rocks_get r' t' k = if decide (t' = t) then match rocks_get r t k with Ok _ => Ok None | e => e end else rocks_get r t' k.
Proof.
  unfold rocks_clear_table. intros H t' k. inv_ok.
  match goal with E : cf_handle r t = Some ?c |- _ => rename c into cf; rename E into Hcf end.
  match goal with E : collect_keys _ = _ |- _ => apply collect_keys_ok in E as (l & E & ->); apply iterator_ok in E as (_ & _ & Hl) end.
  unfold rocks_get. erewrite write_handles by done. case_decide as Et.
  - subst. rewrite Hcf. erewrite write_get by done. rewrite batch_effect_deletes. case_bool_decide as E.
    + destruct E as [_ [[k' v] [Ek Hv]]%list_elem_of_fmap]. simpl in Ek. subst k'. by apply Hl in Hv as [-> _].
    + destruct (get_cf r cf k) as [[v|]|] eqn:G; simpl; try done. exfalso. apply E. split; [done|].
      apply list_elem_of_fmap. exists (k, v). split; [done|]. by apply Hl.
  - destruct (cf_handle r t') as [cf'|] eqn:E'; [|done]. erewrite write_get by done.
    rewrite batch_effect_deletes, bool_decide_false; [done|]. intros [-> _]. by apply Et, (cf_handle_inj r _ _ cf').
Qed.
End Rocks.

(** ** A store over any backend is simulated by one in memory *)

Section Simulation.
Context {B : Type} {SB : StorageBackend B} {SO : StorageBackendOk B} {D : Digests}.

(** The backend reads as the in-memory database does, in the tables of the node. *)
Definition agree (b : B) (db : Database) : Prop := forall t k, t ∈ TABLES -> kv_get b t k = Ok (mem_get db t k).

(** The stores differ in their backends only. *)
Record store_sim (s : Store B) (m : Store Database) : Prop := {
  sim_backend : agree (backend s) (backend m);
  sim_disk : disk s = disk m;
  sim_reader : reader s = reader m;
  sim_worker : worker s = worker m;
}.

Lemma agree_read s m t k : store_sim s m -> t ∈ TABLES -> kv_get (backend s) t k = kv_get (backend m) t k.
Proof. intros H Ht. by rewrite (sim_backend _ _ H). Qed.

#[local] Ltac read_table H := rewrite (agree_read _ _ _ _ H) by (unfold TABLES; set_solver).

(** Every read of the store gives the same answer. *)
Lemma reads_sim s m : store_sim s m ->
  (forall h, get_block_index s h = get_block_index m h) /\ (forall h, get_block s h = get_block m h) /\
  (forall o, store_get_coin s o = store_get_coin m o) /\
  (forall n, get_block_hash s n = get_block_hash m n) /\
  (forall n, get_block_hash_by_header_height s n = get_block_hash_by_header_height m n) /\
  get_headers_tip s = get_headers_tip m /\ store_get_best_block s = store_get_best_block m /\ get_block_tip s = get_block_tip m.
Proof.
  intros H. assert (forall h, get_block_index s h = get_block_index m h) as Hi.
  { intros h. unfold get_block_index. by read_table H. }
  split_and!; intros; [done| | |unfold get_block_hash, get_block_hash_by_header_height, get_headers_tip, store_get_best_block,
    get_block_tip, get_hash; by read_table H..].
  - unfold get_block. by rewrite Hi, (sim_reader _ _ H), (sim_disk _ _ H).
  - unfold store_get_coin. by read_table H.
Qed.

Lemma commit_sim s m ops r s' : store_sim s m -> commit_batch s ops = (Ok r, s') ->
  exists m', commit_batch m ops = (Ok r, m') /\ store_sim s' m'.
Proof.
  intros H E. destruct r. apply commit_batch_ok in E as (Hk & Hd & Hr & Hw).
  destruct (commit_batch m ops) as [[[]|] m'] eqn:E'; [|by unfold commit_batch in E'; simpl in E'].
  apply commit_batch_ok in E' as (Hk' & Hd' & Hr' & Hw'). exists m'. split; [done|]. destruct H as [H1 H2 H3 H4].
  split; [|congruence..]. intros t k Ht. rewrite Hk, (H1 t k Ht). specialize (Hk' t k). cbn in Hk'.
  destruct (ops_effect t k ops); congruence.
Qed.

Lemma with_worker_sim s m w : store_sim s m -> store_sim (with_worker s w) (with_worker m w).
Proof. intros []. by split. Qed.
Lemma with_files_sim s m d w : store_sim s m -> store_sim (with_files s d w) (with_files m d w).
Proof. intros []. by split. Qed.

Lemma store_header_sim s m hdr height work best r s' : store_sim s m ->
  handle_store_header s hdr height work best = (Ok r, s') ->
  exists m', handle_store_header m hdr height work best = (Ok r, m') /\ store_sim s' m'.
Proof.
  intros H. unfold handle_store_header, handle_store_block_index.
  destruct (commit_batch s _) as [[u|] s1] eqn:E; [|done]. destruct (commit_sim _ _ _ _ _ H E) as (m1 & -> & H1).
  destruct best; [by apply commit_sim|]. intros [= <- <-]. eauto.
Qed.

Lemma update_utxo_sim s m coins best conn r s' : store_sim s m ->
  handle_update_utxo_set s coins best conn = (Ok r, s') ->
  exists m', handle_update_utxo_set m coins best conn = (Ok r, m') /\ store_sim s' m'.
Proof.
  intros H. unfold handle_update_utxo_set. rewrite (sim_worker _ _ H).
  destruct (commit_batch (with_worker s _) _) as [[u|] s1] eqn:E; [|done]. intros [= <- <-].
  destruct (commit_sim _ _ _ _ _ (with_worker_sim _ _ _ H) E) as (m1 & -> & H1). eexists. split; [done|].
  rewrite (sim_worker _ _ H1). by apply with_worker_sim.
Qed.

Lemma store_undo_sim s m hash undo r s' : store_sim s m -> handle_store_undo s hash undo = (Ok r, s') ->
  exists m', handle_store_undo m hash undo = (Ok r, m') /\ store_sim s' m'.
Proof.
  intros H. unfold handle_store_undo, undo_index. rewrite (sim_worker _ _ H), (sim_disk _ _ H). read_table H.
  destruct (rbind _ _) as [[index pos]|]; [|done]. destruct (write_undo _ _ _ _ _) as [[p n] d]. intros [= <- <-].
  eexists. split; [done|]. by apply with_files_sim.
Qed.

Lemma store_blocks_sim s m blocks ps s' : store_sim s m -> handle_store_blocks s blocks = (Ok ps, s') ->
  exists m', handle_store_blocks m blocks = (Ok ps, m') /\ store_sim s' m'.
Proof.
  intros H. unfold handle_store_blocks. rewrite (sim_worker _ _ H), (sim_disk _ _ H).
  destruct (append_blocks _ _ _) as [[[[entries positions]|] f] d]; [|done].
  assert (store_sim (with_files s d (with_file_manager (worker m) f)) (with_files m d (with_file_manager (worker m) f))) as H1
    by (by apply with_files_sim).
  revert H1. generalize (with_files s d (with_file_manager (worker m) f)) as s1, (with_files m d (with_file_manager (worker m) f)) as m1.
  intros s1 m1 H1. rewrite (sim_worker _ _ H1). destruct (highest_tip _ _) as [[h t]|].
  - destruct (commit_batch (with_worker s1 _) _) as [[u|] s2] eqn:E; [|done]. intros [= <- <-].
    destruct (commit_sim _ _ _ _ _ (with_worker_sim _ _ _ H1) E) as (m2 & -> & H2). eauto.
  - destruct (commit_batch s1 _) as [[u|] s2] eqn:E; [|done]. intros [= <- <-].
    destruct (commit_sim _ _ _ _ _ H1 E) as (m2 & -> & H2). eauto.
Qed.

Lemma message_sim s m msg r s' : store_sim s m -> handle_message s msg = Some (Ok r, s') ->
  exists m', handle_message m msg = Some (Ok r, m') /\ store_sim s' m'.
Proof.
  intros H. destruct msg; cbn [handle_message]; try done; intros [= E];
    try (edestruct commit_sim as (m' & Em & Hm); [exact H|exact E|]; eexists; split; [|exact Hm]; f_equal; exact Em).
  - apply (store_header_sim s m) in E as (m' & -> & ?); eauto.
  - apply (store_undo_sim s m) in E as (m' & -> & ?); eauto.
  - apply (update_utxo_sim s m) in E as (m' & -> & ?); eauto.
  - subst s'. rewrite <- (sim_worker _ _ H), <- (sim_disk _ _ H), E. eauto.
Qed.

Definition reply_ok (r : Reply) : bool := match r with RUnit r => is_ok r | RPos r => is_ok r end.

Lemma batch_replies_ok n r : (0 < n)%nat -> Forall (fun x => reply_ok x = true) (batch_replies n r) -> is_ok r = true.
Proof. destruct r; [done|]. destruct n; [lia|]. by intros _ [? _]%Forall_cons. Qed.

Lemma worker_step_sim s m mailbox rs c' : store_sim s m -> worker_step (s, mailbox) rs c' ->
  Forall (fun r => reply_ok r = true) rs ->
  exists m', worker_step (m, mailbox) rs (m', c'.2) /\ store_sim c'.1 m'.
Proof.
  intros H Hs Hr. inversion Hs as [s0 msg mb r s1 E|s0 blocks mb r s1 Hlen E]; subst; simpl.
  - apply Forall_cons in Hr as [Hr _]. destruct r as [[]|]; [|done].
    destruct (message_sim s m msg _ _ H E) as (m' & Em & Hm). exists m'. split; [by constructor|done].
  - apply batch_replies_ok in Hr; [|lia]. destruct r as [ps|]; [|done].
    destruct (store_blocks_sim s m blocks ps s1 H E) as (m' & Em & Hm). exists m'. split; [by constructor|done].
Qed.

Lemma worker_run_sim c rs s' m : worker_run c rs s' -> store_sim c.1 m -> Forall (fun r => reply_ok r = true) rs ->
  exists m', worker_run (m, c.2) rs m' /\ store_sim s' m'.
Proof.
  intros Hrun. revert m. induction Hrun as [s|[s mb] [s1 mb1] rs rs' s' Hs _ IH]; intros m H Hr; simpl in *.
  - exists m. split; [constructor|done].
  - apply Forall_app in Hr as [Hr1 Hr2]. destruct (worker_step_sim s m mb rs _ H Hs Hr1) as (m1 & Hm1 & H1).
    destruct (IH m1 H1 Hr2) as (m' & Hm' & H'). exists m'. split; [|done]. by eapply run_step.
Qed.
End Simulation.

(** ** RocksDB against memory *)

Section Compared.
Context {R F Cf Snap : Type} {RK : Rocks R F Cf Snap} `{!EqDecision Cf} {RO : RocksOk R F Cf Snap} {D : Digests}.
#[local] Existing Instance rocks_backend.
#[local] Existing Instance rocks_backend_ok.

(** C19: Whatever the write worker does over RocksDB, it does in memory: for any
    sequence of messages that RocksDB answers without an error, the in-memory
    backend gives the same replies, block positions included, and afterwards
    every read of the two stores gives the same answer. *)
Theorem rocks_store_simulated (s : Store R) (m : Store Database) (mailbox : list WriteMessage) (rs : list Reply) (s' : Store R) :
  store_sim s m -> worker_run (s, mailbox) rs s' -> Forall (fun r => reply_ok r = true) rs ->
  exists m', worker_run (m, mailbox) rs m' /\
    (forall h, get_block_index s' h = get_block_index m' h) /\ (forall h, get_block s' h = get_block m' h) /\
    (forall o, store_get_coin s' o = store_get_coin m' o) /\
    (forall n, get_block_hash s' n = get_block_hash m' n) /\
    (forall n, get_block_hash_by_header_height s' n = get_block_hash_by_header_height m' n) /\
    get_headers_tip s' = get_headers_tip m' /\ store_get_best_block s' = store_get_best_block m' /\
    get_block_tip s' = get_block_tip m'.
Proof using RO.
  intros H Hrun Hr. destruct (worker_run_sim _ _ _ m Hrun H Hr) as (m' & Hm & Hs). exists m'.
  split; [done|]. by apply reads_sim.
Qed.

(** Iteration over RocksDB starts with what iteration in memory returns, and
    goes on with keys that do not have the prefix. *)
Lemma prefix_iteration (r : R) (db : Database) (table : string) (prefix : bytes) (l : list (bytes * bytes)) :
  agree r db -> table ∈ TABLES -> rocks_prefix_iterator r table prefix = Ok (map Ok l) ->
  exists rest, l = (memory_prefix_iterator db table prefix ++ rest)%list /\
    Forall (fun p => starts_with p.1 prefix = false) rest.
Proof using RO.
  intros Ha Ht. unfold rocks_prefix_iterator. destruct (cf_handle r table) as [cf|] eqn:Hcf; [|done]. intros [= Hl].
  assert (prefix_iterator_cf r cf prefix = map Ok l) as Hs.
  { revert l Hl. induction (prefix_iterator_cf r cf prefix) as [|[x|] xs IH]; intros [|y l]; try done. intros [= -> ?]. simpl. f_equal; auto. }
  apply prefix_iterator_ok in Hs as (N & S & E).
  assert (forall k v, (k, v) ∈ l <-> mem_get db table k = Some v /\ bytes_le prefix k) as E'.
  { intros k v. rewrite E. specialize (Ha table k Ht). cbn in Ha. unfold rocks_get in Ha. rewrite Hcf in Ha.
    destruct (get_cf r cf k); simpl in Ha; [|done]. injection Ha as ->. split; intros [H1 H2]; (split; [congruence|done]). }
  clear E Hl. exists (filter (fun p => starts_with p.1 prefix = false) l). split; [|by apply Forall_forall; intros p [? _]%list_elem_of_filter].
  assert (l = filter (fun p => starts_with p.1 prefix = true) l ++ filter (fun p => starts_with p.1 prefix = false) l)%list as El
    by (apply prefix_first; [done|]; apply Forall_forall; intros [k v] Hp; by apply E' in Hp as [_ ?]).
  rewrite El at 1. f_equal. destruct (memory_scan db table prefix) as (N' & S' & Em). apply scan_unique.
  - eapply sublist_NoDup; [exact N|]. apply fmap_sublist, sublist_filter.
  - done.
  - eapply StronglySorted_app_1_l. by rewrite <- El.
  - done.
  - intros k v. rewrite Em, list_elem_of_filter, E'. simpl. split; [tauto|].
    intros [Hm Hp]. split_and!; try done. by apply starts_with_ge.
Qed.
End Compared.

(** ** A database that behaves as documented *)

Definition apply_batch_op (db : Database) (op : BatchOp string) : Database :=
  match op with
  | BPut cf k v => alter (insert k v) cf db
  | BDelete cf k => alter (delete k) cf db
  end.
Definition batch_op_cf (op : BatchOp string) : string := match op with BPut cf _ _ => cf | BDelete cf _ => cf end.
Definition scan_from (db : Database) (cf : string) (start : bytes) : list (bytes * bytes) :=
  merge_sort entry_le (filter (fun p => bytes_leb start p.1 = true) match db !! cf with Some t => map_to_list t | None => [] end).

Definition mem_rocks : Rocks Database Database string Database := {|
  list_cf _ f := if decide (f = ∅) then Err "no database" else Ok (elements (dom f));
  open_cf_descriptors _ f ds :=
    if decide (dom f ⊆ list_to_set ds.*1) then Ok (f ∪ list_to_map (map (fun d => (d.1, ∅)) ds)) else Err "families not opened";
  dir_of r := r;
  cf_handle r t := if decide (is_Some (r !! t)) then Some t else None;
  get_cf r cf k := Ok (mem_get r cf k);
  iterator_cf r cf := map Ok (scan_from r cf []);
  prefix_iterator_cf r cf p := map Ok (scan_from r cf p);
  db_write r b :=
    if decide (Forall (fun op => is_Some (r !! batch_op_cf op)) b) then Ok (fold_left apply_batch_op b r) else Err "no such family";
  snapshot r := r;
  snapshot_get_cf r cf k := Ok (mem_get r cf k);
  checkpoint_new _ := Ok tt;
  checkpoint_create _ _ := Ok tt |}.

Lemma apply_batch_op_dom db op t : is_Some (apply_batch_op db op !! t) <-> is_Some (db !! t).
Proof.
  destruct op as [cf k v|cf k]; simpl; (destruct (decide (cf = t)) as [<-|?];
    [rewrite lookup_alter_eq; destruct (db !! cf); simpl; split; intros []; done || by eexists|by rewrite lookup_alter_ne]).
Qed.
Lemma apply_batch_op_get db op cf k : is_Some (db !! batch_op_cf op) ->
  mem_get (apply_batch_op db op) cf k = match batch_op_effect cf k op with Some v => v | None => mem_get db cf k end.
Proof.
  unfold mem_get. intros Hop. destruct op as [c k' v|c k']; simpl in *; destruct Hop as [tb E]; (destruct (decide (c = cf)) as [<-|?];
    [rewrite lookup_alter_eq, E; simpl; destruct (decide (k' = k)) as [<-|?];
     [rewrite bool_decide_true by done; by rewrite ?lookup_insert_eq, ?lookup_delete_eq
     |rewrite bool_decide_false by naive_solver; by rewrite ?lookup_insert_ne, ?lookup_delete_ne]
    |rewrite lookup_alter_ne, bool_decide_false by naive_solver; done]).
Qed.

Lemma scan_from_ok db cf start : @scan_of _ _ _ _ mem_rocks db cf start (scan_from db cf start).
Proof.
  unfold scan_of, scan_from. cbn [get_cf mem_rocks]. unfold mem_get.
  set (es := match db !! cf with Some t => map_to_list t | None => [] end).
  destruct (table_entries db cf) as [N E]. fold es in N, E. unfold mem_get in E.
  split_and!.
  - rewrite (merge_sort_Permutation entry_le). eapply (sublist_NoDup _ (es.*1)); [done|]. apply fmap_sublist, sublist_filter.
  - apply StronglySorted_merge_sort; apply _.
  - intros k v. rewrite (merge_sort_Permutation entry_le), list_elem_of_filter, E. simpl. unfold bytes_le. rewrite Is_true_true.
    split; intros [H1 H2]; split; congruence.
Qed.

Lemma mem_rocks_ok : @RocksOk Database Database string Database mem_rocks _.
Proof.
  assert (forall b r, Forall (fun op => is_Some (r !! batch_op_cf op)) b ->
    (forall t, is_Some (fold_left apply_batch_op b r !! t) <-> is_Some (r !! t)) /\
    forall cf k, mem_get (fold_left apply_batch_op b r) cf k = match batch_effect cf k b with Some v => v | None => mem_get r cf k end) as Hb.
  { intros b r. induction b as [|op b IH] using rev_ind; [done|]. intros [H1 H2]%Forall_app. destruct (IH H1) as [I1 I2].
    apply Forall_cons in H2 as [H2 _]. unfold batch_effect. split; [intros t|intros cf k]; rewrite !fold_left_app; cbn [fold_left].
    - by rewrite apply_batch_op_dom.
    - rewrite apply_batch_op_get, I2 by (by apply I1). by destruct (batch_op_effect cf k op). }
  assert (forall (l l' : list (bytes * bytes)), map (@Ok _ string) l = map Ok l' -> l = l') as Hinj.
  { intros l. induction l; intros [|? ?]; intros [=]; subst; f_equal; auto. }
  split; cbn [cf_handle db_write get_cf snapshot_get_cf snapshot iterator_cf prefix_iterator_cf open_cf_descriptors list_cf dir_of mem_rocks].
  - intros r t t' cf. repeat case_decide; intros [=] [=]; congruence.
  - intros r b r' t. case_decide as E; [|done]. intros [= <-]. destruct (Hb b r E) as [H1 _]. by repeat case_decide; naive_solver.
  - intros r b r' cf k. case_decide as E; [|done]. intros [= <-]. destruct (Hb b r E) as [_ ->]. by destruct (batch_effect cf k b).
  - done.
  - intros r cf l <-%Hinj. apply scan_from_ok.
  - intros r cf p l <-%Hinj. apply scan_from_ok.
  - intros opts f ds r name. case_decide as E; [|done]. intros [= <-].
    assert (is_Some ((f ∪ list_to_map (map (fun d => (d.1, ∅)) ds) : Database) !! name) <-> name ∈ ds.*1) as Hd.
    { rewrite <- elem_of_dom, dom_union_L, dom_list_to_map_L, <- list_fmap_compose, elem_of_union, elem_of_list_to_set. set_solver. }
    rewrite <- Hd. case_decide; split; [done|eauto|by intros []|done].
  - intros opts r names. case_decide; [done|]. intros [= <-] t Ht. apply elem_of_elements, elem_of_dom.
    by case_decide; [|destruct Ht].
  - intros opts ds r r' t cf cf' k. case_decide; [|done]. intros [= <-]. case_decide as Ht; [|done]. intros [= <-].
    case_decide; [|done]. intros [= <-]. destruct Ht as [tb Ht]. unfold mem_get. by rewrite (lookup_union_Some_l _ _ _ _ Ht), Ht.
Qed.

(** ** Uncommitted batches *)

(** In memory a batch is seen before it is committed, whether or not it ever is;
    over RocksDB it is not ([rocks_fill_unchanged]). *)
Lemma memory_uncommitted_visible db ops t k v : ops_effect t k ops = Some v ->
  mem_get (fill db tt ops).1.2 t k = v.
Proof.
  intros H. rewrite memory_fill. cbn [fst snd].
  pose proof (@kv_write_get Database in_memory in_memory_ok db ops _ t k eq_refl) as E. rewrite H in E. by injection E.
Qed.

(** ** The release of handles *)

(** A locked view that is the last owner frees the database before its snapshot. *)
Lemma drop_locked_last h : strong_count h = 1 -> drop_locked h = None.
Proof. intros H. unfold drop_locked, use_db, drop_arc. rewrite H. simpl. by rewrite orb_true_r. Qed.
Lemma drop_locked_shared h : 1 < strong_count h -> closed h = false -> drop_locked h = Some (drop_arc h).
Proof.
  intros H Hc. unfold drop_locked, use_db, drop_arc. simpl. rewrite Hc. destruct (Z.leb_spec (strong_count h) 1); [lia|]. done.
Qed.

(** A [begin_locked] on an unknown table leaves an owner behind: the database is
    not closed when the backend is dropped. *)
Lemma begin_locked_leaks h h' : strong_count h = 1 -> closed h = false -> begin_locked_handle false h = (None, h') ->
  closed (drop_backend h') = false /\ background_cancelled (drop_backend h') = background_cancelled h /\
  closed (drop_backend h) = true.
Proof.
  intros H Hc [= <-]. unfold drop_backend, drop_arc, clone_arc. simpl. rewrite H. simpl. rewrite Hc. done.
Qed.

(** ** Witnesses *)

Definition test_rocks : Database := list_to_map (map (fun t => (t, ∅)) TABLES).
Definition test_rocks_store : Store Database := with_backend test_magic_store test_rocks.
Definition test_rocks_stored : Store Database :=
  (@handle_store_blocks _ (@rocks_backend _ _ _ _ mem_rocks) toy_digests test_rocks_store test_writes).2.
Definition test_rocks_done : Store Database :=
  (@handle_update_headers_tip _ (@rocks_backend _ _ _ _ mem_rocks) test_rocks_stored ZERO_HASH).2.

Lemma test_rocks_sim : @store_sim _ (@rocks_backend _ _ _ _ mem_rocks) test_rocks_store test_magic_store.
Proof.
  split; try done. intros t k Ht. unfold TABLES in Ht.
  repeat (apply elem_of_cons in Ht as [->|Ht]; [vm_compute; by destruct k|]). by apply elem_of_nil in Ht.
Qed.

Lemma rocks_store_simulated_witness : exists m',
  @worker_run _ in_memory toy_digests (test_magic_store, map StoreBlock test_writes ++ [UpdateHeadersTip ZERO_HASH])%list
    ([RPos (Ok (mkFlatFilePos 0 8)); RPos (Ok (mkFlatFilePos 0 18))] ++ [RUnit (Ok tt)] ++ [])%list m' /\
  @get_headers_tip _ (@rocks_backend _ _ _ _ mem_rocks) test_rocks_done = @get_headers_tip _ in_memory m'.
Proof.
  destruct (@rocks_store_simulated Database Database string Database mem_rocks _ mem_rocks_ok toy_digests test_rocks_store
    test_magic_store (map StoreBlock test_writes ++ [UpdateHeadersTip ZERO_HASH])%list
    ([RPos (Ok (mkFlatFilePos 0 8)); RPos (Ok (mkFlatFilePos 0 18))] ++ [RUnit (Ok tt)] ++ [])%list test_rocks_done test_rocks_sim)
    as (m' & H1 & _ & _ & _ & _ & _ & H2 & _).
  - eapply (run_step _ _ [_; _]); [apply (@step_blocks Database (@rocks_backend _ _ _ _ mem_rocks) toy_digests test_rocks_store test_writes
      [UpdateHeadersTip ZERO_HASH] (Ok [mkFlatFilePos 0 8; mkFlatFilePos 0 18]) test_rocks_stored); [vm_compute; lia|]|].
    + apply (pair_eq (@handle_store_blocks _ (@rocks_backend _ _ _ _ mem_rocks) toy_digests test_rocks_store test_writes)). vm_compute. reflexivity.
    + eapply run_step; [apply step_message; cbn [handle_message]; f_equal;
        apply (pair_eq (@handle_update_headers_tip _ (@rocks_backend _ _ _ _ mem_rocks) test_rocks_stored ZERO_HASH) (Ok tt)); vm_compute; reflexivity|].
      apply run_done.
  - repeat constructor.
  - exists m'. split; [exact H1|exact H2].
Defined.
