(* ===== verification/Actors.v ===== *)
(** * The actors and their clients

    Two tasks own the node's state and serve messages from bounded channels: the
    write worker of the store (crates/storage/block_manager.rs, [run]) and the
    chainstate actor (crates/consensus/chainstate.rs, [run_chainstate_loop]).
    Their clients are the methods of [Store] (crates/storage/store.rs) and of
    [ChainstateHandle]: each sends a message with a one-shot channel and awaits
    the reply.

    [Mailbox] is what such an actor promises: messages are served in the order
    they were sent, each in a round that answers it.  [StoreActor] is the loop of
    the write worker as written, with its backlog and its collection of up to 64
    block writes; the chainstate actor serves one message per round.  A step is a
    send by some client, a poll of the actor, or the end of the actor's task. *)

From S2P Require Import Prelude Wire Hash Transaction Block Params Pow Coins ScriptOps Taproot Engine Validation BlockFile Store Chainstate.

#[local] Open Scope string_scope.
#[local] Open Scope Z_scope.

(** ** What an actor promises *)

Section Mailbox.
Context {S M A : Type} (round : S -> list M -> list A -> S -> Prop) (capacity : nat).

(** Rounds one after the other, over the messages in order. *)
Inductive rounds : S -> list M -> list A -> S -> Prop :=
  | rounds_nil s : rounds s [] [] s
  | rounds_snoc s ms rs s1 ms' rs' s2 : rounds s ms rs s1 -> round s1 ms' rs' s2 ->
      rounds s (ms ++ ms')%list (rs ++ rs')%list s2.

(** A ticket is the place of a message among those sent; [mb_held] are messages
    taken from the channel and not served yet, [mb_answers] the replies sent. *)
Record Mailbox : Type := mkMailbox {
  mb_state : S;
  mb_channel : list M;
  mb_held : list M;
  mb_answers : list A;
  mb_sent : list M;
  mb_running : bool;
}.

Inductive mailbox_step : Mailbox -> Mailbox -> Prop :=
  | mb_send s ch held ans sent m : (length ch < capacity)%nat ->
      mailbox_step (mkMailbox s ch held ans sent true) (mkMailbox s (ch ++ [m])%list held ans (sent ++ [m])%list true)
  | mb_take s m ch held ans sent :
      mailbox_step (mkMailbox s (m :: ch) held ans sent true) (mkMailbox s ch (held ++ [m])%list ans sent true)
  | mb_serve s ms held ch ans sent rs s' : round s ms rs s' ->
      mailbox_step (mkMailbox s ch (ms ++ held)%list ans sent true) (mkMailbox s' ch held (ans ++ rs)%list sent true)
  | mb_stop s ch held ans sent :
      mailbox_step (mkMailbox s ch held ans sent true) (mkMailbox s [] [] ans sent false).

Definition mailbox_new (s : S) : Mailbox := mkMailbox s [] [] [] [] true.

(** What a client that sent the message with ticket [i] awaits: its reply, or the
    loss of the reply channel. *)
Inductive Awaited : Type := Pending | Replied (r : A) | Dropped.
Definition await (c : Mailbox) (i : nat) : Awaited :=
  match mb_answers c !! i with
  | Some r => Replied r
  | None => if mb_running c then Pending else Dropped
  end.
End Mailbox.
Arguments rounds {S M A}.
Arguments mkMailbox {S M A}.
Arguments mailbox_step {S M A}.
Arguments mailbox_new {S M A}.
Arguments mb_state {S M A}.
Arguments mb_channel {S M A}.
Arguments mb_held {S M A}.
Arguments mb_answers {S M A}.
Arguments mb_sent {S M A}.
Arguments mb_running {S M A}.
Arguments await {S M A}.
Arguments Replied {A}.
Arguments Pending {A}.
Arguments Dropped {A}.

(** ** The write worker's loop (block_manager.rs, [run]) *)

Definition STORE_CHANNEL : nat := 100.

(** Between messages, or collecting block writes after a first one. *)
Inductive Phase : Type := Idle | Collecting (batch : list BlockWrite).

Record StoreActor (B : Type) : Type := mkStoreActor {
  sa_store : Store B;
  sa_rx : list WriteMessage;
  sa_backlog : list WriteMessage;
  sa_phase : Phase;
  sa_answers : list Reply;
  sa_sent : list WriteMessage;
  sa_running : bool;
}.
Arguments mkStoreActor {B}.
Arguments sa_store {B}.
Arguments sa_rx {B}.
Arguments sa_backlog {B}.
Arguments sa_phase {B}.
Arguments sa_answers {B}.
Arguments sa_sent {B}.
Arguments sa_running {B}.

Section StoreActor.
Context {B : Type} {SB : StorageBackend B} {D : Digests}.

(** The arms of the [match] on a message. *)
Definition dispatch (s : Store B) (msg : WriteMessage) : Store B * Phase * list Reply :=
  match msg with
  | StoreBlock w => (s, Collecting [w], [])
  | _ => match handle_message s msg with Some (r, s') => (s', Idle, [RUnit r]) | None => (s, Idle, []) end
  end.

(** The end of the collection: the batch is stored and every sender answered. *)
Definition store_batch (s : Store B) (batch : list BlockWrite) : Store B * list Reply :=
  let '(r, s') := handle_store_blocks s batch in (s', batch_replies (length batch) r).

(** One turn of the loop; [None] when there is nothing to receive. *)
Definition store_poll (c : StoreActor B) : option (StoreActor B) :=
  match c with
  | mkStoreActor s rx backlog Idle ans sent true =>
    match backlog, rx with
    | msg :: backlog, _ => let '(s, ph, rs) := dispatch s msg in Some (mkStoreActor s rx backlog ph (ans ++ rs)%list sent true)
    | [], msg :: rx => let '(s, ph, rs) := dispatch s msg in Some (mkStoreActor s rx [] ph (ans ++ rs)%list sent true)
    | [], [] => None
    end
  | mkStoreActor s rx backlog (Collecting batch) ans sent true =>
    let finish rx backlog := let '(s, rs) := store_batch s batch in mkStoreActor s rx backlog Idle (ans ++ rs)%list sent true in
    if (length batch <? MAX_WRITE_BATCH)%nat then
      match rx with
      | StoreBlock w :: rx => Some (mkStoreActor s rx backlog (Collecting (batch ++ [w])%list) ans sent true)
      | other :: rx => Some (finish rx (backlog ++ [other])%list)
      | [] => Some (finish [] backlog)
      end
    else Some (finish rx backlog)
  | _ => None
  end.

Inductive store_actor_step : StoreActor B -> StoreActor B -> Prop :=
  | sa_send s rx backlog ph ans sent m : (length rx < STORE_CHANNEL)%nat ->
      store_actor_step (mkStoreActor s rx backlog ph ans sent true)
        (mkStoreActor s (rx ++ [m])%list backlog ph ans (sent ++ [m])%list true)
  | sa_poll c c' : store_poll c = Some c' -> store_actor_step c c'
  | sa_stop s rx backlog ph ans sent :
      store_actor_step (mkStoreActor s rx backlog ph ans sent true) (mkStoreActor s [] [] Idle ans sent false).

(** [BlockManager::new], spawned by [Store::new] *)
Definition store_actor_new (s : Store B) : StoreActor B := mkStoreActor s [] [] Idle [] [] true.

(** A round of the worker as the rule of Store.v. *)
Definition store_round (s : Store B) (ms : list WriteMessage) (rs : list Reply) (s' : Store B) : Prop :=
  worker_step (s, ms) rs (s', []).
End StoreActor.

(** ** The methods of [Store] that write (store.rs)

    A method is the message it sends and what it makes of a dead worker and of a
    lost reply; [closed] is the text of the channel errors, which three of the
    methods pass on. *)

Record StoreCall : Type := mkStoreCall { sc_message : WriteMessage; sc_dead : string; sc_dropped : string }.

Section StoreCalls.
Variable closed : string.
Definition awaited_call (m : WriteMessage) : StoreCall := mkStoreCall m "storage worker dead" "storage worker dropped response".

Definition store_header (hdr : BlockHeader) (height : BlockHeight) (work : Hash256) (is_best : bool) : StoreCall :=
  mkStoreCall (StoreHeader hdr height work is_best) closed closed.
Definition store_block_index (hash : BlockHash) (index : BlockIndex) : StoreCall :=
  mkStoreCall (StoreBlockIndex hash index) closed closed.
Definition update_headers_tip (hash : BlockHash) : StoreCall := mkStoreCall (UpdateHeadersTip hash) closed closed.
Definition store_block_indexes (indexes : list (BlockHash * BlockIndex)) (best_tip : option BlockHash) : StoreCall :=
  awaited_call (StoreBlockIndexes indexes best_tip).
Definition store_header_index_only (hash : BlockHash) (height : Z) : StoreCall := awaited_call (UpdateHeaderIndex hash height).
Definition update_active_tip (hash : BlockHash) : StoreCall := awaited_call (UpdateActiveTip hash).
Definition delete_block (hash : BlockHash) : StoreCall := awaited_call (DeleteBlock hash).
Definition delete_height_mapping (height : Z) : StoreCall := awaited_call (DeleteHeightMapping height).
Definition store_update_utxos (coins : gmap OutPoint CoinUpdate) (best : option BlockHash) (connected : list (Z * BlockHash)) : StoreCall :=
  awaited_call (UpdateUtxoSet coins best connected).
Definition store_block (hdr : BlockHeader) (height : BlockHeight) (work : Hash256) (raw_block : bytes) : StoreCall :=
  awaited_call (StoreBlock (hdr, height, work, raw_block)).
Definition store_undo (hash : BlockHash) (undo_data : BlockUndo) : StoreCall := awaited_call (StoreUndo hash undo_data).
Definition store_flush : StoreCall := awaited_call Flush.
End StoreCalls.

(** The error of a reply, for the methods of both reply types. *)
Definition reply_error (m : WriteMessage) (e : StoreError) : Reply :=
  match m with StoreBlock _ => RPos (Err e) | _ => RUnit (Err e) end.

(** What the method returns, when it has: [None] while it waits. *)
Definition call_result (call : StoreCall) (sent : bool) (a : Awaited) : option Reply :=
  if sent then match a with
    | Pending => None
    | Replied r => Some r
    | Dropped => Some (reply_error (sc_message call) (Custom (sc_dropped call)))
    end
  else Some (reply_error (sc_message call) (Custom (sc_dead call))).

(** ** The chainstate actor and its handle (chainstate.rs) *)

Definition CHAINSTATE_CHANNEL : nat := 1024.
Definition ACTOR_DEAD : string := "Chainstate Actor dead".
Definition ACTOR_DROPPED : string := "Chainstate Actor dropped response".

Section ChainstateActor.
Context {B E : Type} {SB : StorageBackend B} {D : Digests} {K : Taproot.Secp} {SE : ScriptEngine E}.

(** One message, with the clock and the schedule it meets. *)
Definition chainstate_round (m : ChainstateManager B E) (ms : list ChainstateMsg) (rs : list (result unit ChainError))
    (m' : ChainstateManager B E) : Prop :=
  exists env msg r, ms = [msg] /\ rs = [r] /\ handle_chainstate_msg env msg m = (r, m').

(** The state [run_chainstate_loop] starts its loop in. *)
Definition chainstate_actor_new (m : ChainstateManager B E) : Mailbox :=
  mailbox_new (M := ChainstateMsg) (A := result unit ChainError) (verify_and_repair_tips m).2.

(** [ChainstateHandle::active_tip] reads the cell the manager writes. *)
Definition handle_active_tip (c : @Mailbox (ChainstateManager B E) ChainstateMsg (result unit ChainError)) : option (BlockHash * Z) :=
  active_tip (mb_state c).

(** The five methods of the handle differ in their message. *)
Definition handle_process_header (hdr : BlockHeader) (height : BlockHeight) : ChainstateMsg := ProcessHeader hdr height.
Definition handle_process_block_downloaded (hash : BlockHash) (height : BlockHeight) : ChainstateMsg := ProcessBlockDownloaded hash height.
Definition handle_process_headers (indexes : list (BlockHash * BlockIndex)) (best_tip : option BlockHash) : ChainstateMsg :=
  ProcessHeaders indexes best_tip.
Definition handle_activate_best_chain : ChainstateMsg := ActivateBestChain.
Definition handle_load_genesis (params : ChainParams) : ChainstateMsg := LoadGenesis params.

(** What a method of the handle returns: the error is a text. *)
Definition handle_result (sent : bool) (a : Awaited (A := result unit ChainError)) : option (result unit (ChainError + string)) :=
  if sent then match a with
    | Pending => None
    | Replied r => Some (map_err inl r)
    | Dropped => Some (Err (inr ACTOR_DROPPED))
    end
  else Some (Err (inr ACTOR_DEAD)).
End ChainstateActor.
