(* ===== verification/ActorProofs.v ===== *)
(** * What the actors' clients can rely on

    Messages take effect in the order in which they were sent and each is
    answered by the round that served it ([mailbox_linearizable],
    [store_linearizable]); a running worker answers everything sent to it
    ([store_drains]); and collecting block writes into batches is not observable
    as long as no height occurs twice ([batching_transparent]). *)

From S2P Require Import Prelude Wire Hash Transaction Block Params Pow Coins ScriptOps Taproot Engine Validation BlockFile Store StoreInv Chainstate Actors.

#[local] Open Scope string_scope.
#[local] Open Scope Z_scope.

(** ** Any mailbox *)

Section Mailbox.
Context {S M A : Type} (round : S -> list M -> list A -> S -> Prop) (capacity : nat).
Hypothesis round_answers : forall s ms rs s', round s ms rs s' -> length rs = length ms.

Lemma rounds_answers s ms rs s' : rounds round s ms rs s' -> length rs = length ms.
Proof using round_answers. induction 1 as [|s ms rs s1 ms' rs' s2 _ IH H]; [done|]. rewrite !length_app, IH. f_equal. by eapply round_answers. Qed.

(** The messages served are a prefix of those sent, and those taken or waiting
    follow in order. *)
Definition mailbox_inv (s0 : S) (c : Mailbox) : Prop :=
  exists handled rest, mb_sent c = (handled ++ rest)%list /\ rounds round s0 handled (mb_answers c) (mb_state c) /\
    length (mb_answers c) = length handled /\ (length (mb_channel c) <= capacity)%nat /\
    (mb_running c = true -> rest = mb_held c ++ mb_channel c)%list.

Lemma mailbox_inv_step s0 c c' : mailbox_step round capacity c c' -> mailbox_inv s0 c -> mailbox_inv s0 c'.
Proof using round_answers.
  intros Hs (handled & rest & Hsent & Hr & Hl & Hc & Hrest). destruct Hs; cbn in *.
  - exists handled, (rest ++ [m])%list. cbn. rewrite Hsent, Hrest, length_app, <- !app_assoc by done. simpl. split_and!; try done. lia.
  - exists handled, rest. cbn. rewrite Hsent. split_and!; try done; [lia|]. intros _. by rewrite Hrest, <- app_assoc.
  - exists (handled ++ ms)%list, (held ++ ch)%list. cbn. rewrite Hsent, Hrest, !length_app, <- !app_assoc by done.
    split_and!; try done; [by eapply rounds_snoc|]. rewrite Hl. f_equal. by eapply round_answers.
  - exists handled, rest. cbn. split_and!; try done. lia.
Qed.
Lemma mailbox_linearizable s0 c : rtc (mailbox_step round capacity) (mailbox_new s0) c -> mailbox_inv s0 c.
Proof using round_answers.
  assert (mailbox_inv s0 (mailbox_new s0)) as H0 by (exists [], []; cbn; split_and!; try done; [constructor|lia]).
  revert H0. generalize (mailbox_new (M := M) (A := A) s0) as c0. intros c0 H0 H. induction H as [|c1 c2 c3 Hs _ IH]; [done|].
  apply IH. by eapply mailbox_inv_step.
Qed.

(** A reply is never taken back or changed. *)
Lemma answer_stable c c' i r : rtc (mailbox_step round capacity) c c' -> await c i = Replied r -> await c' i = Replied r.
Proof using.
  intros H. induction H as [|c1 c2 c3 Hs _ IH]; [done|]. intros Hi. apply IH. revert Hi. unfold await.
  destruct (mb_answers c1 !! i) as [r'|] eqn:E; [|by destruct (mb_running c1)]. intros [= ->].
  assert (mb_answers c2 !! i = Some r) as ->; [|done]. destruct Hs; cbn in *; try done. by apply lookup_app_l_Some.
Qed.
End Mailbox.

(** ** The write worker *)

Section Worker.
Context {B : Type} {SB : StorageBackend B} {D : Digests}.
Implicit Types c : StoreActor B.

Lemma append_blocks_positions m d blocks es ps m' d' : append_blocks m d blocks = (Ok (es, ps), m', d') -> length ps = length blocks.
Proof.
  revert m d es ps m' d'. induction blocks as [|[[[hdr h] w] raw] blocks IH]; intros m d es ps m' d'; cbn [append_blocks]; [by intros [= _ <-]|].
  destruct (write_block m d raw) as [[[pos|] m1] d1]; [|done].
  destruct (append_blocks m1 d1 blocks) as [[[[es' ps']|] m2] d2] eqn:E; [|done]. intros [= <- <- <- <-]. simpl. f_equal. by eapply IH.
Qed.
Lemma store_blocks_positions (s : Store B) blocks ps s' : handle_store_blocks s blocks = (Ok ps, s') -> length ps = length blocks.
Proof.
  unfold handle_store_blocks. destruct (append_blocks _ _ _) as [[[[es qs]|] m] d] eqn:E; [|done].
  destruct (commit_batch _ _) as [[u|] s1]; [|done]. intros [= <- _]. by eapply append_blocks_positions.
Qed.

Lemma store_round_answers (s : Store B) ms rs s' : store_round s ms rs s' -> length rs = length ms.
Proof.
  unfold store_round. intros H. inversion H as [s0 msg mb r s1 E|s0 blocks mb r s1 Hlen E]; subst; [done|]. 
  rewrite app_nil_r, length_map. destruct r as [ps|]; simpl; rewrite ?length_map, ?length_replicate; [|done]. by eapply store_blocks_positions.
Qed.

(** The loop keeps at most one message back, and none while it collects. *)
Definition is_store_block (m : WriteMessage) : bool := match m with StoreBlock _ => true | _ => false end.
Definition actor_ok c : Prop :=
  (length (sa_rx c) <= STORE_CHANNEL)%nat /\ (length (sa_backlog c) <= 1)%nat /\
  Forall (fun m => is_store_block m = false) (sa_backlog c) /\
  match sa_phase c with Idle => True | Collecting batch => sa_backlog c = [] /\ (0 < length batch <= MAX_WRITE_BATCH)%nat end.

(** The messages taken from the channel and not answered yet. *)
Definition held c : list WriteMessage :=
  (match sa_phase c with Idle => [] | Collecting batch => map StoreBlock batch end ++ sa_backlog c)%list.
Definition as_mailbox c : Mailbox :=
  mkMailbox (sa_store c) (sa_rx c) (held c) (sa_answers c) (sa_sent c) (sa_running c).

Abbreviation mstep := (mailbox_step (@store_round B SB D) STORE_CHANNEL).

Lemma dispatch_other (s : Store B) msg s' ph rs : is_store_block msg = false -> dispatch s msg = (s', ph, rs) ->
  ph = Idle /\ store_round s [msg] rs s'.
Proof.
  intros Hm. unfold dispatch, store_round. destruct msg; try done;
    (match goal with |- context [handle_message s ?m] => destruct (handle_message s m) as [[r s1]|] eqn:E; [|done] end;
     intros [= <- <- <-]; split; [done|by constructor]).
Qed.
Lemma store_batch_round (s : Store B) batch s' rs : (0 < length batch <= MAX_WRITE_BATCH)%nat -> store_batch s batch = (s', rs) ->
  store_round s (map StoreBlock batch) rs s'.
Proof.
  intros Hl. unfold store_batch, store_round. destruct (handle_store_blocks s batch) as [r s1] eqn:E. intros [= <- <-].
  rewrite <- (app_nil_r (map _ _)). by constructor.
Qed.

#[local] Ltac solve_ok :=
  unfold actor_ok, MAX_WRITE_BATCH, STORE_CHANNEL in *; cbn in *; rewrite ?length_app; cbn; split_and!; try done; try lia; try by constructor.

(** A turn of the loop is a step, or two, of the mailbox. *)
Lemma poll_simulated c c' : actor_ok c -> store_poll c = Some c' -> rtc mstep (as_mailbox c) (as_mailbox c') /\ actor_ok c'.
Proof.
  intros (Hrx & Hbl & Hno & Hph). destruct c as [s rx backlog [|batch] ans sent []]; cbn -[MAX_WRITE_BATCH Nat.ltb] in *; try done.
  - destruct backlog as [|msg backlog].
    + destruct rx as [|msg rx]; [done|]. destruct (dispatch s msg) as [[s' ph] rs] eqn:E. intros [= <-]. unfold as_mailbox, held; cbn.
      destruct (is_store_block msg) eqn:Em.
      * destruct msg; try done. injection E as <- <- <-. rewrite !app_nil_r. simpl. split; [|by solve_ok].
        apply rtc_once. apply (mb_take _ _ s (StoreBlock w) rx []).
      * destruct (dispatch_other s msg s' ph rs Em E) as [-> Hr]. split; [|by solve_ok].
        eapply rtc_l; [apply (mb_take _ _ s msg rx [])|]. apply rtc_once. by apply (mb_serve _ _ s [msg] []).
    + apply Forall_cons in Hno as [Hm Hno]. destruct backlog; [|simpl in Hbl; lia].
      destruct (dispatch s msg) as [[s' ph] rs] eqn:E. intros [= <-]. unfold as_mailbox, held; cbn.
      destruct (dispatch_other s msg s' ph rs Hm E) as [-> Hr]. split; [|by solve_ok].
      apply rtc_once. by apply (mb_serve _ _ s [msg] []).
  - destruct Hph as [-> Hb]. unfold as_mailbox, held; cbn -[MAX_WRITE_BATCH Nat.ltb]. rewrite app_nil_r.
    destruct (store_batch s batch) as [s' rs] eqn:E. pose proof (store_batch_round s batch s' rs Hb E) as Hr.
    assert (forall ch h, mstep (mkMailbox s ch (map StoreBlock batch ++ h)%list ans sent true) (mkMailbox s' ch h (ans ++ rs)%list sent true)) as Hserve
      by (intros; by constructor).
    destruct (Nat.ltb_spec (length batch) MAX_WRITE_BATCH) as [Hlt|Hge].
    + destruct rx as [|msg rx].
      { cbn. intros [= <-]. split; [|by solve_ok]. apply rtc_once. specialize (Hserve [] []). by rewrite app_nil_r in Hserve. }
      destruct (is_store_block msg) eqn:Em.
      * destruct msg; try done. intros [= <-]. cbn. rewrite app_nil_r, map_app.
        split; [|by solve_ok]. apply rtc_once. apply mb_take.
      * intros Hc. assert (c' = mkStoreActor s' rx [msg] Idle (ans ++ rs)%list sent true) as -> by (destruct msg; try done; by injection Hc).
        cbn. split; [|by solve_ok].
        eapply rtc_l; [apply (mb_take _ _ s msg rx (map StoreBlock batch))|]. apply rtc_once. apply (Hserve rx [msg]).
    + cbn. intros [= <-]. split; [|by solve_ok]. apply rtc_once. specialize (Hserve rx []). by rewrite app_nil_r in Hserve.
Qed.

Lemma step_simulated c c' : actor_ok c -> store_actor_step c c' -> rtc mstep (as_mailbox c) (as_mailbox c') /\ actor_ok c'.
Proof.
  intros Hok Hs. destruct Hs as [s rx backlog ph ans sent m Hlt|c c' Hp|s rx backlog ph ans sent].
  - destruct Hok as (Hrx & Hbl & Hno & Hph). split; [|by solve_ok].
    apply rtc_once. by constructor.
  - by apply poll_simulated.
  - split; [|by solve_ok]. apply rtc_once. apply mb_stop.
Qed.
Lemma run_simulated c c' : actor_ok c -> rtc store_actor_step c c' -> rtc mstep (as_mailbox c) (as_mailbox c') /\ actor_ok c'.
Proof.
  intros Hok H. induction H as [|c1 c2 c3 Hs _ IH]; [done|]. destruct (step_simulated _ _ Hok Hs) as [H1 H2].
  destruct (IH H2) as [H3 H4]. split; [by etrans|done].
Qed.

(** C7: The store is linearizable in the order of sending: whatever the
    interleaving of clients and worker, the messages that have taken effect are a
    prefix of the messages sent, in the order in which they were sent; the store
    is the one the rounds of the worker give on that prefix, run one after the
    other; the replies are those rounds' replies, one for each message of the
    prefix; and what is not served waits in order, in the batch, the backlog of
    at most one message and the channel of at most 100. *)
Theorem store_linearizable (s0 : Store B) (c : StoreActor B) :
  rtc store_actor_step (store_actor_new s0) c ->
  exists handled rest, sa_sent c = (handled ++ rest)%list /\
    rounds store_round s0 handled (sa_answers c) (sa_store c) /\ length (sa_answers c) = length handled /\
    (length (sa_rx c) <= STORE_CHANNEL)%nat /\ (length (sa_backlog c) <= 1)%nat /\
    (sa_running c = true -> rest = held c ++ sa_rx c)%list.
Proof.
  intros H. assert (actor_ok (store_actor_new s0)) as Hok by solve_ok.
  destruct (run_simulated _ _ Hok H) as [Hm (_ & Hbl & _)].
  destruct (mailbox_linearizable store_round STORE_CHANNEL store_round_answers s0 _ Hm) as (handled & rest & H1 & H2 & H3 & H4 & H5).
  by exists handled, rest.
Qed.

(** ** The worker answers everything *)

Definition poll_measure c : nat :=
  2 * (length (sa_rx c) + length (sa_backlog c)) + match sa_phase c with Idle => 0 | Collecting _ => 1 end.
Lemma poll_decreases c c' : store_poll c = Some c' ->
  (poll_measure c' < poll_measure c)%nat /\ sa_sent c' = sa_sent c /\ sa_running c' = true.
Proof.
  unfold poll_measure. destruct c as [s rx backlog [|batch] ans sent []]; cbn -[MAX_WRITE_BATCH Nat.ltb Nat.mul]; try done.
  - assert (forall msg s' ph rs, dispatch s msg = (s', ph, rs) -> (match ph with Idle => 0 | Collecting _ => 1 end <= 1)%nat) as Hph
      by (intros ? ? []; simpl; lia).
    destruct backlog as [|msg backlog]; [destruct rx as [|msg rx]; [done|]|];
      (destruct (dispatch s msg) as [[s' ph] rs] eqn:E; apply Hph in E; intros [= <-]; cbn -[Nat.mul]; split_and!; try done; lia).
  - destruct (store_batch s batch) as [s' rs]. destruct (_ <? _)%nat; [destruct rx as [|msg rx]; [|destruct (is_store_block msg) eqn:Em]|].
    + intros [= <-]. cbn -[Nat.mul]. split_and!; try done; lia.
    + destruct msg; try done. intros [= <-]. cbn -[Nat.mul]. split_and!; try done; lia.
    + intros Hc. assert (c' = mkStoreActor s' rx (backlog ++ [msg])%list Idle (ans ++ rs)%list sent true) as -> by (destruct msg; try done; by injection Hc).
      cbn -[Nat.mul]. rewrite length_app. cbn -[Nat.mul]. split_and!; try done; lia.
    + intros [= <-]. cbn -[Nat.mul]. split_and!; try done; lia.
Qed.

(** Turns of the loop until nothing is left to receive. *)
Fixpoint poll_all (fuel : nat) c : StoreActor B :=
  match fuel with
  | O => c
  | S fuel => match store_poll c with Some c' => poll_all fuel c' | None => c end
  end.

Lemma poll_all_idle fuel c : (poll_measure c <= fuel)%nat -> sa_running c = true ->
  store_poll (poll_all fuel c) = None /\ sa_sent (poll_all fuel c) = sa_sent c /\ sa_running (poll_all fuel c) = true /\
  rtc store_actor_step c (poll_all fuel c).
Proof.
  revert c. induction fuel as [|fuel IH]; intros c Hf Hr; cbn [poll_all].
  - destruct (store_poll c) as [c'|] eqn:E; [apply poll_decreases in E as [? _]; lia|done].
  - destruct (store_poll c) as [c'|] eqn:E; [|done]. destruct (poll_decreases c c' E) as (Hm & Hs & Hr').
    destruct (IH c') as (H1 & H2 & H3 & H4); [lia|done|]. split_and!; try done; [congruence|]. eapply rtc_l; [by apply sa_poll|done].
Qed.
Lemma idle_empty c : sa_running c = true -> store_poll c = None -> (held c ++ sa_rx c = [])%list.
Proof.
  destruct c as [s rx backlog [|batch] ans sent []]; cbn -[MAX_WRITE_BATCH Nat.ltb]; try done; intros _.
  - destruct backlog as [|msg backlog]; [destruct rx as [|msg rx]; [done|]|]; by destruct (dispatch s msg) as [[s' ph] rs].
  - destruct (store_batch s batch) as [s' rs]. destruct (_ <? _)%nat; [|done]. destruct rx as [|[] rx]; done.
Qed.

(** C26: A worker that keeps running answers every message: from any reachable
    state, after at most twice as many turns as messages wait (and one for an
    open batch), nothing is left and there is one reply for every message sent. *)
Theorem store_drains (s0 : Store B) (c : StoreActor B) :
  rtc store_actor_step (store_actor_new s0) c -> sa_running c = true ->
  let c' := poll_all (2 * (length (sa_rx c) + length (sa_backlog c)) + 1) c in
  rtc store_actor_step c c' /\ sa_sent c' = sa_sent c /\ length (sa_answers c') = length (sa_sent c) /\
  rounds store_round s0 (sa_sent c) (sa_answers c') (sa_store c').
Proof.
  intros H Hr c'. destruct (poll_all_idle (2 * (length (sa_rx c) + length (sa_backlog c)) + 1) c) as (H1 & H2 & H3 & H4);
    [unfold poll_measure; destruct (sa_phase c); lia|done|]. fold c' in H1, H2, H3, H4.
  assert (actor_ok (store_actor_new s0)) as Hok by solve_ok.
  assert (rtc store_actor_step (store_actor_new s0) c') as Hrun by (by etrans). destruct (run_simulated _ _ Hok Hrun) as [Hm _].
  destruct (mailbox_linearizable store_round STORE_CHANNEL store_round_answers s0 _ Hm) as (handled & rest & E1 & E2 & E3 & _ & E5).
  specialize (E5 H3). change (rest = held c' ++ sa_rx c')%list in E5. rewrite (idle_empty c' H3 H1) in E5. subst rest.
  rewrite app_nil_r in E1. change (sa_sent c' = handled) in E1. rewrite <- H2, E1. by split_and!.
Qed.
End Worker.

(** ** The chainstate actor *)

Section Chainstate.
Context {B E : Type} {SB : StorageBackend B} {D : Digests} {K : Taproot.Secp} {SE : ScriptEngine E}.

(** Clients of the chainstate actor are served in order, one message a round. *)
Lemma chainstate_linearizable (m : ChainstateManager B E) c :
  rtc (mailbox_step chainstate_round CHAINSTATE_CHANNEL) (chainstate_actor_new m) c ->
  mailbox_inv chainstate_round CHAINSTATE_CHANNEL (verify_and_repair_tips m).2 c.
Proof. apply mailbox_linearizable. by intros s ms rs s' (env & msg & r & -> & -> & _). Qed.

(** The rounds are the run of the loop on the messages served. *)
Lemma chainstate_rounds_loop (m0 m' : ChainstateManager B E) msgs rs : rounds chainstate_round m0 msgs rs m' ->
  exists envs, length envs = length msgs /\
    fold_left (fun st p => let '(r, m) := handle_chainstate_msg p.1 p.2 st.2 in ((st.1 ++ [r])%list, m)) (zip envs msgs) ([], m0) = (rs, m').
Proof.
  induction 1 as [s|s ms rs s1 ms' rs' s2 _ (envs & Hl & IH) (env & msg & r & -> & -> & Hr)]; [by exists []|].
  exists (envs ++ [env])%list. rewrite !length_app, Hl. split; [done|]. rewrite zip_with_app by done. rewrite fold_left_app, IH. simpl. by rewrite Hr.
Qed.
End Chainstate.

(** ** Batches *)

Section Batches.
Context {B : Type} {SB : StorageBackend B} {SO : StorageBackendOk B} {D : Digests}.
Implicit Types s : Store B.

Lemma append_blocks_app m d b1 b2 : append_blocks m d (b1 ++ b2) =
  match append_blocks m d b1 with
  | (Err e, m, d) => (Err e, m, d)
  | (Ok (e1, p1), m, d) =>
    match append_blocks m d b2 with
    | (Err e, m, d) => (Err e, m, d)
    | (Ok (e2, p2), m, d) => (Ok (e1 ++ e2, p1 ++ p2), m, d)%list
    end
  end.
Proof.
  revert m d. induction b1 as [|[[[hdr h] w] raw] b1 IH]; intros m d; cbn [append_blocks app].
  - by destruct (append_blocks m d b2) as [[[[]|] ?] ?].
  - destruct (write_block m d raw) as [[[pos|] m1] d1]; [|done]. rewrite IH.
    destruct (append_blocks m1 d1 b1) as [[[[e1 p1]|] m2] d2]; [|done].
    by destruct (append_blocks m2 d2 b2) as [[[[]|] ?] ?].
Qed.
Lemma append_blocks_heights m d blocks es ps m' d' : append_blocks m d blocks = (Ok (es, ps), m', d') ->
  map (fun p => bi_height p.2) es = map (fun w : BlockWrite => w.1.1.2) blocks.
Proof.
  revert m d es ps m' d'. induction blocks as [|[[[hdr h] w] raw] blocks IH]; intros m d es ps m' d'; cbn [append_blocks]; [by intros [= <-]|].
  destruct (write_block m d raw) as [[[pos|] m1] d1]; [|done].
  destruct (append_blocks m1 d1 blocks) as [[[[es' ps']|] m2] d2] eqn:E; [|done]. intros [= <- <- <- <-]. simpl. f_equal. by eapply IH.
Qed.

(** The tip after two batches is the tip after one, if no height is in both. *)
Definition new_tip_height (known : Z) (tip : option (Z * BlockHash)) : Z := match tip with Some (h, _) => h | None => known end.
Lemma highest_tip_in known es h x : highest_tip known es = Some (h, x) -> h ∈ map (fun p => bi_height p.2) es.
Proof.
  unfold highest_tip. induction es as [|p es IH] using rev_ind; [done|]. rewrite fold_left_app, map_app, elem_of_app. cbn [fold_left map].
  destruct (_ && _); [intros [= <- _]; right; left|]. intros H. left. by apply IH.
Qed.
Lemma highest_tip_app known e1 e2 :
  (forall h, h ∈ map (fun p => bi_height p.2) e1 -> h ∉ map (fun p => bi_height p.2) e2) ->
  highest_tip known (e1 ++ e2) =
  match highest_tip (new_tip_height known (highest_tip known e1)) e2 with Some t => Some t | None => highest_tip known e1 end.
Proof.
  intros Hd. destruct (highest_tip known e1) as [[h x]|] eqn:E; cbn [new_tip_height].
  - apply highest_tip_in in E as Hin. specialize (Hd h Hin). unfold highest_tip in E |- *. rewrite fold_left_app, E.
    assert (known <= h) as Hk.
    { clear Hd Hin e2. revert h x E. induction e1 as [|p e1 IH] using rev_ind; intros h x; [done|]. rewrite fold_left_app. cbn [fold_left].
      destruct (Z.leb_spec known (bi_height p.2)); cbn [andb]; [|apply IH]. destruct (match _ with None => true | _ => _ end); [by intros [= <- _]|apply IH]. }
    induction e2 as [|p e2 IH] using rev_ind; [done|]. rewrite map_app, not_elem_of_app in Hd. destruct Hd as [Hd1 Hd2].
    rewrite !fold_left_app. cbn [fold_left]. rewrite IH by done. clear IH.
    assert (bi_height p.2 <> h) by (intros <-; apply Hd2; left).
    set (acc := fold_left _ e2 (None : option (Z * BlockHash))).
    assert (forall h' x', acc = Some (h', x') -> h < h') as Hacc.
    { unfold acc. clear acc Hd2. induction e2 as [|q e2 IHe] using rev_ind; intros h' x'; [done|]. rewrite map_app, not_elem_of_app in Hd1. destruct Hd1 as [Ha Hb].
      rewrite fold_left_app. cbn [fold_left]. destruct (Z.leb_spec h (bi_height q.2)); cbn [andb]; [|by apply IHe].
      destruct (match _ with None => true | _ => _ end); [|by apply IHe]. intros [= <- _]. assert (bi_height q.2 <> h) by (intros <-; apply Hb; left). lia. }
    destruct acc as [[h' x']|].
    + specialize (Hacc h' x' eq_refl). destruct (Z.leb_spec known (bi_height p.2)), (Z.leb_spec h (bi_height p.2)); cbn [andb]; try done;
        destruct (Z.ltb_spec h' (bi_height p.2)); try done; lia.
    + destruct (Z.leb_spec known (bi_height p.2)), (Z.leb_spec h (bi_height p.2)); cbn [andb]; destruct (Z.ltb_spec h (bi_height p.2)); try done; lia.
  - unfold highest_tip in E |- *. rewrite fold_left_app, E. by destruct (fold_left _ e2 _).
Qed.

(** The batch of [handle_store_blocks]. *)
Definition blocks_ops (entries : list (BlockHash * BlockIndex)) (file : Z) (tip : option (Z * BlockHash)) : list WriteOp :=
  (entries_ops entries ++ [Put CHAIN_META [KEY_LAST_FILE] (le_bytes 4 file)] ++
   match tip with Some (_, hash) => [Put UTXOS [KEY_BLOCK_TIP] hash] | None => [] end)%list.

Lemma store_blocks_ok s blocks ps s' : handle_store_blocks s blocks = (Ok ps, s') -> exists es m d,
  append_blocks (block_file_manager (worker s)) (disk s) blocks = (Ok (es, ps), m, d) /\
  disk s' = d /\ reader s' = reader s /\
  worker s' = with_tip_height (with_file_manager (worker s) m)
    (new_tip_height (last_known_tip_height (worker s)) (highest_tip (last_known_tip_height (worker s)) es)) /\
  forall t k, kv_get (backend s') t k =
    match ops_effect t k (blocks_ops es (current_file m) (highest_tip (last_known_tip_height (worker s)) es)) with
    | Some v => Ok v | None => kv_get (backend s) t k end.
Proof using SO.
  unfold handle_store_blocks. destruct (append_blocks _ _ _) as [[[[es qs]|] m] d] eqn:E; [|done]. cbn [worker with_files with_file_manager last_known_tip_height].
  destruct (commit_batch _ _) as [[[]|] s1] eqn:Ec; [|done]. intros [= <- <-]. exists es, m, d.
  apply commit_batch_ok in Ec as (Hk & Hd & Hr & Hw).
  destruct (highest_tip _ _) as [[h x]|]; cbn in Hd, Hr, Hw; (split_and!; [done..|exact Hk]).
Qed.

Lemma entries_ops_last_file es : ops_effect CHAIN_META [KEY_LAST_FILE] (entries_ops es) = None.
Proof.
  unfold entries_ops. induction es as [|p l IH]; [done|]. cbn [map concat]. rewrite ops_effect_app, IH. unfold index_ops. by no_effect.
Qed.

(** What the batch leaves under a key: the last file, the tip, or the entries' records. *)
Lemma blocks_ops_effect t k es f tip : ops_effect t k (blocks_ops es f tip) =
  if decide ((t, k) = (UTXOS, [KEY_BLOCK_TIP])) then (fun p => Some p.2) <$> tip
  else if decide ((t, k) = (CHAIN_META, [KEY_LAST_FILE])) then Some (Some (le_bytes 4 f))
  else ops_effect t k (entries_ops es).
Proof.
  unfold blocks_ops. rewrite !ops_effect_app. case_decide as E1; [injection E1 as -> ->|case_decide as E2; [injection E2 as -> ->|]].
  - rewrite entries_ops_utxos. destruct tip as [[h x]|]; by no_effect; rewrite ?op_effect_hit.
  - destruct tip as [[h x]|]; by no_effect; rewrite ?op_effect_hit.
  - rewrite !ops_effect_cons, ops_effect_nil, op_effect_miss by congruence.
    destruct tip as [[h x]|]; [|done]. by rewrite ops_effect_cons, ops_effect_nil, op_effect_miss by congruence.
Qed.

(** Collecting block writes is not observable: when the blocks of a batch are
    stored in two rounds instead of one, and no height occurs in both, the blocks
    get the same positions, the files, the worker's state and every key of the
    database are the same. *)
Lemma batching_transparent (s s1 s2 s12 : Store B) (b1 b2 : list BlockWrite) (ps1 ps2 ps : list FlatFilePos) :
  handle_store_blocks s b1 = (Ok ps1, s1) -> handle_store_blocks s1 b2 = (Ok ps2, s2) ->
  handle_store_blocks s (b1 ++ b2) = (Ok ps, s12) ->
  (forall w1 w2 : BlockWrite, w1 ∈ b1 -> w2 ∈ b2 -> w1.1.1.2 <> w2.1.1.2) ->
  ps = (ps1 ++ ps2)%list /\ disk s12 = disk s2 /\ worker s12 = worker s2 /\
  forall t k, kv_get (backend s12) t k = kv_get (backend s2) t k.
Proof using SO.
  intros (e1 & m1 & d1 & A1 & <- & _ & W1 & K1)%store_blocks_ok (e2 & m2 & d2 & A2 & D2 & _ & W2 & K2)%store_blocks_ok
    (e & m & d & A & D12 & _ & W & KW)%store_blocks_ok Hd.
  rewrite W1 in A2. cbn in A2. rewrite append_blocks_app, A1, A2 in A. injection A as <- <- <- <-.
  rewrite W1 in W2, K2. cbn in W2, K2.
  assert (forall h, h ∈ map (fun p => bi_height p.2) e1 -> h ∉ map (fun p => bi_height p.2) e2) as Hdis.
  { rewrite (append_blocks_heights _ _ _ _ _ _ _ A1), (append_blocks_heights _ _ _ _ _ _ _ A2).
    intros h (w1 & -> & H1)%list_elem_of_fmap (w2 & E & H2)%list_elem_of_fmap. by apply (Hd w1 w2). }
  rewrite highest_tip_app in W, KW by done.
  set (known := last_known_tip_height (worker s)) in *. set (t1 := highest_tip known e1) in *.
  set (t2 := highest_tip (new_tip_height known t1) e2) in *. split_and!; [done|congruence|..].
  - rewrite W, W2. unfold with_tip_height, with_file_manager, new_tip_height. cbn. by destruct t2, t1.
  - intros t k. rewrite KW, K2, K1, !blocks_ops_effect. unfold entries_ops. rewrite map_app, concat_app, ops_effect_app. fold (entries_ops e1) (entries_ops e2).
    repeat case_decide; [by destruct t2, t1|done|]. by destruct (ops_effect t k (entries_ops e2)).
Qed.
End Batches.

(** ** Witnesses *)

Definition demo_messages : list WriteMessage := (map StoreBlock test_writes ++ [UpdateHeadersTip ZERO_HASH])%list.
Definition demo_sent : StoreActor Database := mkStoreActor test_magic_store demo_messages [] Idle [] demo_messages true.
Lemma demo_sends : rtc (@store_actor_step _ in_memory toy_digests) (store_actor_new test_magic_store) demo_sent.
Proof.
  eapply rtc_l; [apply (@sa_send _ in_memory toy_digests test_magic_store [] [] Idle [] [] (StoreBlock (test_write 1))); simpl; unfold STORE_CHANNEL; lia|].
  eapply rtc_l; [apply (@sa_send _ in_memory toy_digests test_magic_store [_] [] Idle [] [_] (StoreBlock (test_write 2))); simpl; unfold STORE_CHANNEL; lia|].
  apply rtc_once.
  apply (@sa_send _ in_memory toy_digests test_magic_store [_; _] [] Idle [] [_; _] (UpdateHeadersTip ZERO_HASH)); simpl; unfold STORE_CHANNEL; lia.
Qed.

(** The two blocks make a batch, and the message behind them waits in the backlog. *)
Example demo_backlog : let c := @poll_all _ in_memory toy_digests 3 demo_sent in
  sa_backlog c = [UpdateHeadersTip ZERO_HASH] /\ sa_answers c = [RPos (Ok (mkFlatFilePos 0 8)); RPos (Ok (mkFlatFilePos 0 18))].
Proof. vm_compute. done. Qed.

Lemma store_linearizable_witness : exists handled rest, sa_sent demo_sent = (handled ++ rest)%list /\
  rounds (@store_round _ in_memory toy_digests) test_magic_store handled (sa_answers demo_sent) (sa_store demo_sent) /\
  length (sa_answers demo_sent) = length handled /\ (length (sa_rx demo_sent) <= STORE_CHANNEL)%nat /\
  (length (sa_backlog demo_sent) <= 1)%nat /\ (sa_running demo_sent = true -> rest = held demo_sent ++ sa_rx demo_sent)%list.
Proof. apply (@store_linearizable _ in_memory toy_digests test_magic_store demo_sent). exact demo_sends. Defined.

Lemma store_drains_witness :
  let c' := @poll_all _ in_memory toy_digests 7 demo_sent in
  rtc (@store_actor_step _ in_memory toy_digests) demo_sent c' /\ sa_sent c' = sa_sent demo_sent /\
  length (sa_answers c') = length (sa_sent demo_sent) /\
  rounds (@store_round _ in_memory toy_digests) test_magic_store (sa_sent demo_sent) (sa_answers c') (sa_store c').
Proof. apply (@store_drains _ in_memory toy_digests test_magic_store demo_sent); [exact demo_sends|reflexivity]. Defined.

Definition demo_first : Store Database := (@handle_store_blocks _ in_memory toy_digests test_magic_store [test_write 1]).2.
Definition demo_second : Store Database := (@handle_store_blocks _ in_memory toy_digests demo_first [test_write 2]).2.

Lemma batching_transparent_witness :
  [mkFlatFilePos 0 8; mkFlatFilePos 0 18] = ([mkFlatFilePos 0 8] ++ [mkFlatFilePos 0 18])%list /\
  disk test_stored = disk demo_second /\ worker test_stored = worker demo_second /\
  forall t k, @kv_get _ in_memory (backend test_stored) t k = @kv_get _ in_memory (backend demo_second) t k.
Proof.
  apply (@batching_transparent _ in_memory in_memory_ok toy_digests test_magic_store demo_first demo_second test_stored [test_write 1] [test_write 2]
    [mkFlatFilePos 0 8] [mkFlatFilePos 0 18] [mkFlatFilePos 0 8; mkFlatFilePos 0 18]).
  - apply (pair_eq (@handle_store_blocks _ in_memory toy_digests test_magic_store [test_write 1])). vm_compute. reflexivity.
  - apply (pair_eq (@handle_store_blocks _ in_memory toy_digests demo_first [test_write 2])). vm_compute. reflexivity.
  - apply (pair_eq (@handle_store_blocks _ in_memory toy_digests test_magic_store test_writes)). vm_compute. reflexivity.
  - intros w1 w2 ->%list_elem_of_singleton ->%list_elem_of_singleton. vm_compute. discriminate.
Defined.

(** Two blocks of one height: stored together the first becomes the block tip,
    stored one after the other the second does. *)
Definition tie_header (n : Z) : BlockHeader := mkBlockHeader n ZERO_HASH ZERO_HASH n 0x207fffff 0.
Definition tie_write (n : Z) : BlockWrite := (tie_header n, 5, ZERO_HASH, [n]).
Definition tie_batched : Store Database :=
  (@handle_store_blocks _ in_memory toy_digests test_magic_store [tie_write 1; tie_write 2]).2.
Definition tie_separate : Store Database :=
  (@handle_store_blocks _ in_memory toy_digests
    (@handle_store_blocks _ in_memory toy_digests test_magic_store [tie_write 1]).2 [tie_write 2]).2.
Lemma equal_heights_timing :
  @get_block_tip _ in_memory tie_batched = Ok (Some (@block_hash toy_digests (tie_header 1))) /\
  @get_block_tip _ in_memory tie_separate = Ok (Some (@block_hash toy_digests (tie_header 2))) /\
  @block_hash toy_digests (tie_header 1) <> @block_hash toy_digests (tie_header 2).
Proof. vm_compute. split_and!; [reflexivity..|discriminate]. Qed.
