(* ===== verification/Research.v ===== *)
(** * Authorization research models

    crates/script/research.rs: sizes and weights of classic and post-quantum
    signatures as functions of a workload, in checked 64-bit arithmetic;
    crates/script/signature_experiment.rs: replaying a workload against a
    verifier; and the command [research compare] of cmd/bitcrab/main.rs, which
    prints both as JSON or as a table.

    The curve library is a parameter of the classic verifier, and so is the text
    of [serde_json].  A float is printed to two decimals as the standard library
    prints it, rounding halves to even.

    Theorems: a projection succeeds exactly when the workload is consistent and
    its weight fits in 64 bits, and then has the stated sizes; descriptions of
    different workloads differ, so that equal manifest ids mean equal workloads
    or a collision of the hash; a benchmark counts every item once. *)

From Stdlib Require Import SpecFloat Ascii.
From S2P Require Import Prelude Wire Hash Params BlockFile Rpc.

#[local] Open Scope string_scope.
#[local] Open Scope Z_scope.

(** ** research.rs *)

Definition RESEARCH_MODEL_VERSION : string := "bitcrab-authorization-model-v1".

Inductive SignatureScheme : Type := EcdsaSecp256k1 | SchnorrSecp256k1 | MlDsa44 | MlDsa65 | MlDsa87 | SlhDsa128s | SlhDsa128f.
Definition SignatureScheme_ALL : list SignatureScheme :=
  [EcdsaSecp256k1; SchnorrSecp256k1; MlDsa44; MlDsa65; MlDsa87; SlhDsa128s; SlhDsa128f].
#[export] Instance signature_scheme_eq_dec : EqDecision SignatureScheme.
Proof. solve_decision. Defined.

Definition scheme_name (s : SignatureScheme) : string :=
  match s with
  | EcdsaSecp256k1 => "ecdsa-secp256k1"
  | SchnorrSecp256k1 => "schnorr-secp256k1"
  | MlDsa44 => "ml-dsa-44"
  | MlDsa65 => "ml-dsa-65"
  | MlDsa87 => "ml-dsa-87"
  | SlhDsa128s => "slh-dsa-128s"
  | SlhDsa128f => "slh-dsa-128f"
  end.
Definition scheme_public_key_bytes (s : SignatureScheme) : Z :=
  match s with
  | EcdsaSecp256k1 => 33
  | SchnorrSecp256k1 => 32
  | MlDsa44 => 1312
  | MlDsa65 => 1952
  | MlDsa87 => 2592
  | SlhDsa128s | SlhDsa128f => 32
  end.
Definition scheme_signature_bytes (s : SignatureScheme) : Z :=
  match s with
  | EcdsaSecp256k1 => 72
  | SchnorrSecp256k1 => 64
  | MlDsa44 => 2420
  | MlDsa65 => 3309
  | MlDsa87 => 4627
  | SlhDsa128s => 7856
  | SlhDsa128f => 17088
  end.
Definition standard_reference (s : SignatureScheme) : string :=
  match s with
  | EcdsaSecp256k1 => "Bitcoin legacy ECDSA model"
  | SchnorrSecp256k1 => "BIP340 Schnorr model"
  | MlDsa44 | MlDsa65 | MlDsa87 => "NIST FIPS 204"
  | SlhDsa128s | SlhDsa128f => "NIST FIPS 205"
  end.
Definition size_assumption (s : SignatureScheme) : string :=
  match s with
  | EcdsaSecp256k1 => "common 71-byte DER signature plus one sighash byte"
  | SchnorrSecp256k1 => "64-byte BIP340 signature with SIGHASH_DEFAULT"
  | MlDsa44 | MlDsa65 | MlDsa87 => "exact FIPS signature and public-key sizes; no extra Bitcoin sighash byte"
  | SlhDsa128s | SlhDsa128f => "exact FIPS signature and public-key sizes; no extra Bitcoin sighash byte"
  end.

Inductive KeyDisclosure : Type := CommitUntilSpend (commitment_bytes : Z) | PublicKeyInOutput.
Inductive AuthorizationPlacement : Type := Witness | Stripped.

Record ExperimentManifest : Type := mkManifest {
  signature_checks : Z;
  revealed_public_keys : Z;
  key_disclosure : KeyDisclosure;
  authorization_placement : AuthorizationPlacement;
}.

Inductive ResearchModelError : Type := MoreKeysThanSignatureChecks | ByteCountOverflow.

Definition manifest_validate (m : ExperimentManifest) : result ExperimentManifest ResearchModelError :=
  if signature_checks m <? revealed_public_keys m then Err MoreKeysThanSignatureChecks else Ok m.

Definition disclosure_text (d : KeyDisclosure) : string :=
  match d with CommitUntilSpend n => "commit:" +:+ decimal n | PublicKeyInOutput => "output" end.
Definition placement_text (p : AuthorizationPlacement) : string := match p with Witness => "witness" | Stripped => "stripped" end.
Definition canonical_description (m : ExperimentManifest) : string :=
  RESEARCH_MODEL_VERSION +:+ ";checks=" +:+ decimal (signature_checks m) +:+ ";keys=" +:+ decimal (revealed_public_keys m) +:+
  ";disclosure=" +:+ disclosure_text (key_disclosure m) +:+ ";placement=" +:+ placement_text (authorization_placement m).

Definition manifest_id {D : Digests} (m : ExperimentManifest) : bytes := hash256 (string_bytes (canonical_description m)).

Record AuthorizationProjection : Type := mkProjection {
  ap_scheme : SignatureScheme;
  ap_signature_bytes : Z;
  ap_public_key_bytes : Z;
  ap_output_commitment_bytes : Z;
  ap_total_authorization_bytes : Z;
  ap_authorization_weight : Z;
  ap_virtual_bytes : Z;
}.

Definition ratio_to (p baseline : AuthorizationProjection) : f64 :=
  if ap_authorization_weight baseline =? 0 then f64_of 0
  else f64_div (f64_of (ap_authorization_weight p)) (f64_of (ap_authorization_weight baseline)).

Definition research_add (a b : Z) : result Z ResearchModelError := ok_or (checked_add_u U64_MAX a b) ByteCountOverflow.
Definition research_mul (a b : Z) : result Z ResearchModelError := ok_or (checked_mul_u U64_MAX a b) ByteCountOverflow.
(** [u64::div_ceil] *)
Definition div_ceil (a b : Z) : Z := if a mod b =? 0 then a / b else a / b + 1.

Definition project_authorization (manifest : ExperimentManifest) (scheme : SignatureScheme)
    : result AuthorizationProjection ResearchModelError :=
  let? m := manifest_validate manifest in
  let? signature_bytes := research_mul (signature_checks m) (scheme_signature_bytes scheme) in
  let? public_key_bytes := research_mul (revealed_public_keys m) (scheme_public_key_bytes scheme) in
  let? '(spend_public_key_bytes, output_commitment_bytes) :=
    match key_disclosure m with
    | CommitUntilSpend commitment_bytes =>
      let? c := research_mul (revealed_public_keys m) commitment_bytes in Ok (public_key_bytes, c)
    | PublicKeyInOutput => Ok (0, public_key_bytes)
    end in
  let? spend_bytes := research_add signature_bytes spend_public_key_bytes in
  let? total := research_add spend_bytes output_commitment_bytes in
  let? spend_weight :=
    match authorization_placement m with Witness => Ok spend_bytes | Stripped => research_mul spend_bytes 4 end in
  let? output_weight := research_mul output_commitment_bytes 4 in
  let? weight := research_add spend_weight output_weight in
  Ok (mkProjection scheme signature_bytes public_key_bytes output_commitment_bytes total weight (div_ceil weight 4)).

(** ** signature_experiment.rs *)

Inductive SignatureFamily : Type := ClassicSecp256k1 | PostQuantumExperimental.
Record SignatureWorkItem : Type := mkWorkItem { wi_message : bytes; wi_signature : bytes; wi_public_key : bytes }.
Inductive SignatureExperimentError : Type := InvalidEncoding | PostQuantumVerifierUnavailable.
Record SignatureBenchmarkResult : Type := mkBenchmark { sb_family : SignatureFamily; sb_verified : Z; sb_rejected : Z; sb_elapsed : Z }.

(** [SignatureExperimentVerifier] *)
Class ExperimentVerifier (V : Type) : Type := {
  ev_family : V -> SignatureFamily;
  ev_verify : V -> SignatureWorkItem -> result bool SignatureExperimentError;
}.

(** The curve library as the classic verifier uses it. *)
Class EcdsaCurve (Sg Pk : Type) : Type := {
  signature_from_der : bytes -> option Sg;
  public_key_from_slice : bytes -> option Pk;
  verify_ecdsa : bytes -> Sg -> Pk -> bool;
}.
Inductive ClassicSecp256k1Verifier : Type := TheClassicVerifier.
#[export] Instance classic_verifier {Sg Pk} `{EcdsaCurve Sg Pk} : ExperimentVerifier ClassicSecp256k1Verifier := {|
  ev_family _ := ClassicSecp256k1;
  ev_verify _ item :=
    let? signature := ok_or (signature_from_der (wi_signature item)) InvalidEncoding in
    let? public_key := ok_or (public_key_from_slice (wi_public_key item)) InvalidEncoding in
    Ok (verify_ecdsa (wi_message item) signature public_key) |}.

Section Benchmark.
Context {V : Type} {EV : ExperimentVerifier V}.

(** The loop, and the clock read before and after it. *)
Fixpoint benchmark_loop (v : V) (workload : list SignatureWorkItem) (verified rejected : Z) : result (Z * Z) SignatureExperimentError :=
  match workload with
  | [] => Ok (verified, rejected)
  | item :: workload =>
    let? ok := ev_verify v item in
    if ok then benchmark_loop v workload (verified + 1) rejected else benchmark_loop v workload verified (rejected + 1)
  end.
Definition benchmark_signature_workload (v : V) (workload : list SignatureWorkItem) (started ended : Z)
    : result SignatureBenchmarkResult SignatureExperimentError :=
  let? '(verified, rejected) := benchmark_loop v workload 0 0 in
  Ok (mkBenchmark (ev_family v) verified rejected (ended - started)).
End Benchmark.

(** ** The command [research compare] (cmd/bitcrab/main.rs, [run_research]) *)

(** [Display for ChainType] *)
Definition chain_text (c : ChainType) : string :=
  match c with Mainnet => "mainnet" | Testnet3 => "testnet3" | Signet => "signet" | Regtest => "regtest" end.

Inductive ResearchCommands : Type :=
  | Compare (signature_checks public_keys : Z) (key_disclosure placement : string) (commitment_bytes : Z) (json : bool).

Definition encode_hex (l : bytes) : string :=
  fold_left (fun s b => s +:+ String (hex_char (Z.shiftr b 4)) (String (hex_char (Z.land b 0x0f)) "")) l "".

Definition key_disclosure_name (d : KeyDisclosure) : string :=
  match d with CommitUntilSpend _ => "commit-until-spend" | PublicKeyInOutput => "public-key-in-output" end.
Definition placement_name (p : AuthorizationPlacement) : string := match p with Witness => "witness" | Stripped => "stripped" end.

(** [{:<n}], [{:>n}] of ASCII text and [{:.2}] of a float *)
Fixpoint spaces (n : nat) : string := match n with O => "" | S n => String " " (spaces n) end.
Definition pad_right (n : nat) (s : string) : string := s +:+ spaces (n - String.length s).
Definition pad_left (n : nat) (s : string) : string := spaces (n - String.length s) +:+ s.
(** [num / den] to the nearest integer, halves to even. *)
Definition round_even (num den : Z) : Z :=
  let q := num / den in
  match 2 * (num mod den) ?= den with Lt => q | Gt => q + 1 | Eq => if Z.even q then q else q + 1 end.
Definition fixed2 (x : f64) : string :=
  match x with
  | S754_finite sign m e =>
    let n := if 0 <=? e then Zpos m * 2 ^ e * 100 else round_even (Zpos m * 100) (2 ^ (- e)) in
    (if sign then "-" else "") +:+ bytes_string (dec_digits (digit_count 400 (n / 100)) (n / 100)) +:+ "." +:+ bytes_string (dec_digits 2 n)
  | S754_zero sign => if sign then "-0.00" else "0.00"
  | S754_infinity sign => if sign then "-inf" else "inf"
  | S754_nan => "NaN"
  end.

Inductive ResearchOutput : Type := OutJson (v : Value) | OutText (lines : list string).
Inductive CommandError : Type := UsageError (text : string) | ModelError (e : ResearchModelError).

Definition parse_disclosure (s : string) (commitment_bytes : Z) : result KeyDisclosure CommandError :=
  if decide (s = "commit") then Ok (CommitUntilSpend commitment_bytes)
  else if decide (s = "output") then Ok PublicKeyInOutput
  else Err (UsageError ("unknown key disclosure '" +:+ s +:+ "'; expected commit or output")).
Definition parse_placement (s : string) : result AuthorizationPlacement CommandError :=
  if decide (s = "witness") then Ok Witness
  else if decide (s = "stripped") then Ok Stripped
  else Err (UsageError ("unknown authorization placement '" +:+ s +:+ "'; expected witness or stripped")).

(** [collect] of results: the first error, or all values *)
Fixpoint collect_results {A E} (l : list (result A E)) : result (list A) E :=
  match l with
  | [] => Ok []
  | x :: l => let? a := x in let? as_ := collect_results l in Ok (a :: as_)
  end.

Definition projection_json (baseline p : AuthorizationProjection) : Value :=
  JObject [("scheme", JString (scheme_name (ap_scheme p)));
    ("standard_reference", JString (standard_reference (ap_scheme p)));
    ("size_assumption", JString (size_assumption (ap_scheme p)));
    ("signature_bytes", JInt (ap_signature_bytes p));
    ("public_key_bytes", JInt (ap_public_key_bytes p));
    ("output_commitment_bytes", JInt (ap_output_commitment_bytes p));
    ("total_authorization_bytes", JInt (ap_total_authorization_bytes p));
    ("authorization_weight", JInt (ap_authorization_weight p));
    ("virtual_bytes", JInt (ap_virtual_bytes p));
    ("weight_ratio_to_ecdsa", JFloat (ratio_to p baseline));
    ("evidence", JString "modeled")].
Definition projection_row (baseline p : AuthorizationProjection) : string :=
  pad_right 18 (scheme_name (ap_scheme p)) +:+ " " +:+ pad_left 12 (decimal (ap_total_authorization_bytes p)) +:+ " " +:+
  pad_left 12 (decimal (ap_authorization_weight p)) +:+ " " +:+ pad_left 12 (decimal (ap_virtual_bytes p)) +:+ " " +:+
  pad_left 9 (fixed2 (ratio_to p baseline)) +:+ "x".

Definition run_research {D : Digests} (command : ResearchCommands) (chain : ChainType) : result ResearchOutput CommandError :=
  let '(Compare checks keys disclosure placement commitment_bytes json) := command in
  let? key_disclosure := parse_disclosure disclosure commitment_bytes in
  let? authorization_placement := parse_placement placement in
  let? manifest := map_err ModelError (manifest_validate (mkManifest checks keys key_disclosure authorization_placement)) in
  let? baseline := map_err ModelError (project_authorization manifest EcdsaSecp256k1) in
  let id := encode_hex (manifest_id manifest) in
  let? projections := map_err ModelError (collect_results (map (project_authorization manifest) SignatureScheme_ALL)) in
  Ok (if json then
    OutJson (JObject
      [("manifest", JObject
         [("authorization_manifest_id", JString id); ("model_version", JString RESEARCH_MODEL_VERSION);
          ("source_chain", JString (chain_text chain)); ("signature_checks", JInt checks); ("public_keys", JInt keys);
          ("key_disclosure", JString (key_disclosure_name key_disclosure));
          ("authorization_placement", JString (placement_name authorization_placement));
          ("commitment_bytes", JInt commitment_bytes)]);
       ("projections", JArray (map (projection_json baseline) projections))])
  else
    OutText (
      ["Bitcrab PQ authorization comparison (modeled)";
       "authorization_manifest_id=" +:+ id +:+ ", model=" +:+ RESEARCH_MODEL_VERSION +:+ ", source_chain=" +:+ chain_text chain;
       "checks=" +:+ decimal checks +:+ ", public_keys=" +:+ decimal keys +:+ ", disclosure=" +:+ key_disclosure_name key_disclosure +:+
         ", placement=" +:+ placement_name authorization_placement;
       pad_right 18 "scheme" +:+ " " +:+ pad_left 12 "auth bytes" +:+ " " +:+ pad_left 12 "weight" +:+ " " +:+
         pad_left 12 "vbytes" +:+ " " +:+ pad_left 10 "vs ecdsa"] ++ map (projection_row baseline) projections)%list).

(** ** Projections *)

Definition manifest_ok (m : ExperimentManifest) : Prop :=
  u64_ok (signature_checks m) /\ u64_ok (revealed_public_keys m) /\
  match key_disclosure m with CommitUntilSpend n => u64_ok n | PublicKeyInOutput => True end.

(** The sizes in exact arithmetic. *)
Definition exact_keys (m : ExperimentManifest) (s : SignatureScheme) : Z := revealed_public_keys m * scheme_public_key_bytes s.
Definition exact_spend (m : ExperimentManifest) (s : SignatureScheme) : Z :=
  signature_checks m * scheme_signature_bytes s + match key_disclosure m with CommitUntilSpend _ => exact_keys m s | PublicKeyInOutput => 0 end.
Definition exact_output (m : ExperimentManifest) (s : SignatureScheme) : Z :=
  match key_disclosure m with CommitUntilSpend n => revealed_public_keys m * n | PublicKeyInOutput => exact_keys m s end.
(** Bytes in the witness weigh one unit, others four. *)
Definition exact_weight (m : ExperimentManifest) (s : SignatureScheme) : Z :=
  match authorization_placement m with Witness => 1 | Stripped => 4 end * exact_spend m s + 4 * exact_output m s.

Lemma research_add_ok a b : a + b <= U64_MAX -> research_add a b = Ok (a + b).
Proof. intros H. unfold research_add, checked_add_u. by rewrite (proj2 (Z.leb_le _ _) H). Qed.
Lemma research_mul_ok a b : a * b <= U64_MAX -> research_mul a b = Ok (a * b).
Proof. intros H. unfold research_mul, checked_mul_u. by rewrite (proj2 (Z.leb_le _ _) H). Qed.
Lemma research_add_inv a b r : research_add a b = r -> r = Ok (a + b) /\ a + b <= U64_MAX \/ r = Err ByteCountOverflow /\ U64_MAX < a + b.
Proof. unfold research_add, checked_add_u. intros <-. destruct (Z.leb_spec (a + b) U64_MAX); auto. Qed.
Lemma research_mul_inv a b r : research_mul a b = r -> r = Ok (a * b) /\ a * b <= U64_MAX \/ r = Err ByteCountOverflow /\ U64_MAX < a * b.
Proof. unfold research_mul, checked_mul_u. intros <-. destruct (Z.leb_spec (a * b) U64_MAX); auto. Qed.

Lemma div_ceil_spec a b : 0 < b -> 0 <= a -> b * (div_ceil a b - 1) < a <= b * div_ceil a b.
Proof.
  intros Hb Ha. unfold div_ceil. pose proof (Z.div_mod a b ltac:(lia)). pose proof (Z.mod_pos_bound a b Hb).
  destruct (Z.eqb_spec (a mod b) 0); nia.
Qed.

#[local] Ltac research_step :=
  match goal with
  | |- context [research_add ?a ?b] =>
    let r := fresh "r" in destruct (research_add_inv a b _ eq_refl) as [[-> ?]|[-> ?]]; cbn [rbind]
  | |- context [research_mul ?a ?b] =>
    let r := fresh "r" in destruct (research_mul_inv a b _ eq_refl) as [[-> ?]|[-> ?]]; cbn [rbind]
  end.

(** A projection fails exactly when more keys are revealed than signatures
    checked, or when the exact weight of the authorization does not fit in 64
    bits; no intermediate product overflows on its own.  Otherwise it reports
    the exact sizes: the bytes spent and committed, their weight with witness
    bytes counted once and all others four times, and the weight divided by four
    and rounded up. *)
Lemma project_authorization_spec (m : ExperimentManifest) (s : SignatureScheme) :
  manifest_ok m ->
  project_authorization m s =
    if signature_checks m <? revealed_public_keys m then Err MoreKeysThanSignatureChecks
    else if U64_MAX <? exact_weight m s then Err ByteCountOverflow
    else Ok (mkProjection s (signature_checks m * scheme_signature_bytes s) (exact_keys m s) (exact_output m s)
      (exact_spend m s + exact_output m s) (exact_weight m s) (div_ceil (exact_weight m s) 4)).
Proof.
  destruct m as [c k d p]. intros (Hc & Hk & Hd). unfold project_authorization, manifest_validate. cbn in *.
  destruct (c <? k); [done|]. cbn [rbind].
  assert (0 < scheme_signature_bytes s /\ 0 < scheme_public_key_bytes s) as [Hs Hp] by (by destruct s).
  unfold exact_weight, exact_spend, exact_output, exact_keys. cbn. int_unfold.
  assert (0 <= c * scheme_signature_bytes s /\ 0 <= k * scheme_public_key_bytes s) as [? ?] by nia.
  destruct d as [n|]; [assert (0 <= k * n) by nia|]; destruct p; cbn [key_disclosure authorization_placement signature_checks revealed_public_keys];
    match goal with |- _ = if ?b then _ else _ => destruct b eqn:Hw; [apply Z.ltb_lt in Hw|apply Z.ltb_ge in Hw] end;
    repeat research_step; try done; try lia; f_equal; f_equal; first [lia | f_equal; lia].
Qed.

(** ** Descriptions *)

Lemma string_bytes_app s t : string_bytes (s +:+ t) = (string_bytes s ++ string_bytes t)%list.
Proof. induction s as [|a s IH]; [done|]. change (String a s +:+ t) with (String a (s +:+ t)). cbn [string_bytes]. by rewrite IH. Qed.
Lemma string_bytes_bytes_string l : bytes_ok l -> string_bytes (bytes_string l) = l.
Proof.
  induction 1 as [|b l Hb _ IH]; [done|]. cbn. f_equal; [|exact IH]. unfold u8_ok in Hb. rewrite N_ascii_embedding by lia. lia.
Qed.

Definition digit (b : Z) : Prop := 48 <= b <= 57.
Lemma dec_digits_digit k n : Forall digit (dec_digits k n).
Proof.
  revert n. induction k as [|k IH]; intros n; cbn [dec_digits]; [constructor|]. apply Forall_app. split; [apply IH|].
  constructor; [|constructor]. unfold digit. pose proof (Z.mod_pos_bound n 10). lia.
Qed.
Lemma decimal_bytes n : string_bytes (decimal n) = dec_digits (digit_count 20 n) n.
Proof.
  apply string_bytes_bytes_string. eapply Forall_impl; [apply dec_digits_digit|]. unfold digit, u8_ok. lia.
Qed.
Lemma dec_digits_inj n n' : u64_ok n -> u64_ok n' -> dec_digits (digit_count 20 n) n = dec_digits (digit_count 20 n') n' -> n = n'.
Proof.
  assert (forall x, u64_ok x -> dec_val (dec_digits (digit_count 20 x) x) = x) as H.
  { intros x Hx. unfold u64_ok in Hx. rewrite dec_val_digits by lia. apply Z.mod_small. split; [lia|]. apply (digit_count_bound 20).
    split; [lia|]. eapply Z.lt_trans; [apply Hx|]. vm_compute. reflexivity. }
  intros Hn Hn' E. rewrite <- (H n), <- (H n') by done. by rewrite E.
Qed.
(** A run of digits before a semicolon is found again. *)
Lemma digits_split d d' r r' : Forall digit d -> Forall digit d' -> (d ++ 59 :: r = d' ++ 59 :: r')%list -> d = d' /\ r = r'.
Proof.
  intros Hd. revert d'. induction Hd as [|x d Hx _ IH]; intros [|y d'] Hd' E; simpl in E.
  - by injection E.
  - injection E as <- _. apply Forall_cons in Hd' as [H _]. unfold digit in H. lia.
  - injection E as -> _. unfold digit in Hx. lia.
  - apply Forall_cons in Hd' as [_ Hd']. injection E as -> E. by destruct (IH d' Hd' E) as [-> ->].
Qed.

Lemma decimal_split n n' r r' : u64_ok n -> u64_ok n' ->
  (string_bytes (decimal n) ++ 59 :: r = string_bytes (decimal n') ++ 59 :: r')%list -> n = n' /\ r = r'.
Proof.
  intros Hn Hn'. rewrite !decimal_bytes. intros E. apply digits_split in E as [E ->]; [|apply dec_digits_digit..].
  split; [|done]. by apply dec_digits_inj.
Qed.

(** Different workloads have different descriptions. *)
Lemma canonical_description_inj m m' : manifest_ok m -> manifest_ok m' ->
  string_bytes (canonical_description m) = string_bytes (canonical_description m') -> m = m'.
Proof.
  destruct m as [c k d p], m' as [c' k' d' p']. intros (Hc & Hk & Hd) (Hc' & Hk' & Hd'). unfold canonical_description. cbn in Hc, Hk, Hd, Hc', Hk', Hd'.
  rewrite !string_bytes_app. cbn [signature_checks revealed_public_keys key_disclosure authorization_placement].
  change (string_bytes ";keys=") with (59 :: string_bytes "keys="). change (string_bytes ";disclosure=") with (59 :: string_bytes "disclosure=").
  intros E. do 2 apply app_inv_head in E. rewrite <- !app_comm_cons in E. apply decimal_split in E as [-> E]; [|done..].
  apply app_inv_head in E. apply decimal_split in E as [-> E]; [|done..]. apply app_inv_head in E.
  change (string_bytes ";placement=") with (59 :: string_bytes "placement=") in E. rewrite <- !app_comm_cons in E.
  assert (d = d' /\ p = p') as [-> ->]; [|done].
  assert (forall x y, (string_bytes "placement=" ++ string_bytes (placement_text x) = string_bytes "placement=" ++ string_bytes (placement_text y))%list -> x = y) as Hp
    by (intros [] []; done).
  destruct d as [n|], d' as [n'|]; cbn [disclosure_text] in E; rewrite ?string_bytes_app, <- ?app_assoc in E; try done.
  - apply app_inv_head, decimal_split in E as [-> E]; [|done..]. apply Hp in E. by subst.
  - apply app_inv_head in E. injection E as E. split; [done|]. destruct p, p'; done.
Qed.

(** A manifest id identifies its workload: two workloads with the same id are
    the same, or their descriptions are two different texts with one double
    SHA-256. *)
Lemma manifest_id_identifies {D : Digests} (m m' : ExperimentManifest) :
  manifest_ok m -> manifest_ok m' -> manifest_id m = manifest_id m' ->
  m = m' \/ (string_bytes (canonical_description m) <> string_bytes (canonical_description m') /\
             hash256 (string_bytes (canonical_description m)) = hash256 (string_bytes (canonical_description m'))).
Proof.
  intros H H' E. destruct (decide (string_bytes (canonical_description m) = string_bytes (canonical_description m'))) as [Ed|Ed]; [left|by right].
  by apply canonical_description_inj.
Qed.

(** ** Benchmarks *)

Section BenchmarkProofs.
Context {V : Type} {EV : ExperimentVerifier V}.
Definition decodes (v : V) (i : SignatureWorkItem) : bool := is_ok (ev_verify v i).
Definition verifies (v : V) (i : SignatureWorkItem) : bool := match ev_verify v i with Ok b => b | Err _ => false end.

Lemma benchmark_loop_spec v workload a b : benchmark_loop v workload a b =
  match list_find (fun i => decodes v i = false) workload with
  | Some (_, i) => match ev_verify v i with Err e => Err e | Ok _ => Ok (a, b) end
  | None => Ok (a + Z.of_nat (length (filter (fun i => verifies v i = true) workload)),
                b + Z.of_nat (length (filter (fun i => verifies v i = false) workload)))
  end.
Proof.
  revert a b. induction workload as [|i w IH]; intros a b; cbn [benchmark_loop list_find]; [by rewrite !filter_nil, !Z.add_0_r|].
  rewrite !filter_cons. unfold decodes, verifies in *. destruct (ev_verify v i) as [ok|e] eqn:E; cbn [rbind is_ok].
  - rewrite decide_False by done.
    destruct ok; [rewrite decide_True, decide_False by done|rewrite decide_False, decide_True by done]; rewrite IH; cbn [length]; (destruct (list_find _ w) as [[n j]|] eqn:F; simpl;
      [destruct (ev_verify v j) eqn:Ej; [|done]; apply list_find_Some in F as (_ & F & _); by rewrite Ej in F|f_equal; f_equal; lia]).
  - rewrite decide_True by done. simpl. by rewrite E.
Qed.

(** Replaying a workload ends with the error of its first item that cannot be
    decoded; without one, every item is counted once, the valid ones as verified
    and the others as rejected. *)
Lemma benchmark_spec (v : V) (workload : list SignatureWorkItem) (started ended : Z) :
  match benchmark_signature_workload v workload started ended with
  | Ok r => Forall (fun i => decodes v i = true) workload /\
      sb_verified r = Z.of_nat (length (filter (fun i => verifies v i = true) workload)) /\
      sb_rejected r = Z.of_nat (length (filter (fun i => verifies v i = false) workload)) /\
      sb_verified r + sb_rejected r = Z.of_nat (length workload)
  | Err e => exists before i after, workload = (before ++ i :: after)%list /\ ev_verify v i = Err e /\
      Forall (fun i => decodes v i = true) before
  end.
Proof.
  unfold benchmark_signature_workload. rewrite benchmark_loop_spec. destruct (list_find _ workload) as [[n i]|] eqn:F.
  - apply list_find_Some in F as (Hn & Hi & Hb). pose proof Hi as Hi'. unfold decodes in Hi'. destruct (ev_verify v i) as [|e] eqn:E; [done|]. cbn.
    exists (take n workload), i, (drop (S n) workload). split_and!; [by rewrite take_drop_middle|done|].
    apply Forall_forall. intros j (k & Hk)%list_elem_of_lookup. apply lookup_take_Some in Hk as [Hk Hlt].
    specialize (Hb k j Hk Hlt). by apply not_false_iff_true.
  - cbn. apply list_find_None in F. split_and!; [|done..|].
    + eapply Forall_impl; [exact F|]. intros j Hj. by apply not_false_iff_true.
    + clear F. induction workload as [|i w IH]; [done|]. rewrite !filter_cons.
      destruct (verifies v i); [rewrite decide_True, decide_False by done|rewrite decide_False, decide_True by done]; cbn [length]; lia.
Qed.
End BenchmarkProofs.

(** ** Hexadecimal *)

Lemma hex_digit_char d : 0 <= d < 16 -> hex_digit (hex_char d) = Some d.
Proof.
  intros H. assert (d ∈ [0;1;2;3;4;5;6;7;8;9;10;11;12;13;14;15]) as Hd by (assert (d = 0 \/ d = 1 \/ d = 2 \/ d = 3 \/ d = 4 \/ d = 5 \/ d = 6 \/ d = 7 \/
    d = 8 \/ d = 9 \/ d = 10 \/ d = 11 \/ d = 12 \/ d = 13 \/ d = 14 \/ d = 15) by lia; set_solver).
  clear H. repeat (apply elem_of_cons in Hd as [->|Hd]; [reflexivity|]). by apply elem_of_nil in Hd.
Qed.
Lemma hex_pairs_snoc s b l : hex_pairs s = Some l -> u8_ok b ->
  hex_pairs (s +:+ String (hex_char (Z.shiftr b 4)) (String (hex_char (Z.land b 0x0f)) "")) = Some (l ++ [b])%list.
Proof.
  intros H Hb. unfold u8_ok in Hb. revert l H. 
  assert (forall n s, (String.length s <= n)%nat -> forall l, hex_pairs s = Some l ->
    hex_pairs (s +:+ String (hex_char (Z.shiftr b 4)) (String (hex_char (Z.land b 0x0f)) "")) = Some (l ++ [b])%list) as Hn; [|eauto].
  clear s. induction n as [|n IH]; intros s Hl l H; (destruct s as [|c [|c' s]]; [|done|]); try (cbn in Hl; lia).
  1, 2: injection H as <-; change ("" +:+ ?t) with t; cbn [hex_pairs]; rewrite Z.shiftr_div_pow2 by lia; change (2 ^ 4) with 16;
    change 0x0f with (2 ^ 4 - 1); rewrite land_low by lia; change (2 ^ 4) with 16;
    rewrite !hex_digit_char by (pose proof (Z.mod_pos_bound b 16); pose proof (Z.div_mod b 16); lia); cbn; do 2 f_equal; pose proof (Z.div_mod b 16); lia.
  change (String c (String c' s) +:+ ?t) with (String c (String c' (s +:+ t))). cbn [hex_pairs] in *. cbn in Hl.
  destruct (hex_digit c), (hex_digit c'), (hex_pairs s) as [l'|] eqn:E; try done. injection H as <-. by rewrite (IH s ltac:(lia) l' E).
Qed.
(** [encode_hex] writes what [hex::decode] reads. *)
Lemma encode_hex_pairs l : bytes_ok l -> hex_pairs (encode_hex l) = Some l.
Proof.
  unfold encode_hex. induction l as [|b l IH] using rev_ind; intros H; [done|]. apply Forall_app in H as [H1 H2].
  rewrite fold_left_app. cbn [fold_left]. apply hex_pairs_snoc; [by apply IH|]. by apply Forall_cons in H2 as [H2 _].
Qed.

(** ** Examples *)

Definition demo_manifest (p : AuthorizationPlacement) : ExperimentManifest := mkManifest 2 2 (CommitUntilSpend 32) p.

Example demo_ml_dsa : project_authorization (demo_manifest Witness) MlDsa44 =
  Ok (mkProjection MlDsa44 4840 2624 64 7528 7720 1930).
Proof. reflexivity. Qed.
Example demo_overflow : project_authorization (mkManifest (2 ^ 62) 0 PublicKeyInOutput Witness) EcdsaSecp256k1 = Err ByteCountOverflow.
Proof. reflexivity. Qed.
Example demo_description : canonical_description (demo_manifest Stripped) =
  "bitcrab-authorization-model-v1;checks=2;keys=2;disclosure=commit:32;placement=stripped".
Proof. reflexivity. Qed.
Example demo_table : exists id, @run_research toy_digests (Compare 2 2 "commit" "witness" 32 false) Signet =
  Ok (OutText ["Bitcrab PQ authorization comparison (modeled)"; id;
    "checks=2, public_keys=2, disclosure=commit-until-spend, placement=witness";
    "scheme               auth bytes       weight       vbytes   vs ecdsa";
    "ecdsa-secp256k1             274          466          117      1.00x";
    "schnorr-secp256k1           256          448          112      0.96x";
    "ml-dsa-44                  7528         7720         1930     16.57x";
    "ml-dsa-65                 10586        10778         2695     23.13x";
    "ml-dsa-87                 14502        14694         3674     31.53x";
    "slh-dsa-128s              15840        16032         4008     34.40x";
    "slh-dsa-128f              34304        34496         8624     74.03x"]).
Proof. eexists. vm_compute. reflexivity. Qed.

Lemma demo_manifest_ok p : manifest_ok (demo_manifest p).
Proof. repeat split; simpl; lia. Qed.

Lemma project_authorization_spec_witness :
  project_authorization (demo_manifest Stripped) MlDsa44 = Ok (mkProjection MlDsa44 4840 2624 64 7528 30112 7528).
Proof. rewrite (project_authorization_spec (demo_manifest Stripped) MlDsa44 (demo_manifest_ok Stripped)). reflexivity. Defined.

Lemma manifest_id_identifies_witness :
  demo_manifest Witness = demo_manifest Witness \/
  (string_bytes (canonical_description (demo_manifest Witness)) <> string_bytes (canonical_description (demo_manifest Witness)) /\
   @hash256 toy_digests (string_bytes (canonical_description (demo_manifest Witness))) =
   @hash256 toy_digests (string_bytes (canonical_description (demo_manifest Witness)))).
Proof.
  apply (@manifest_id_identifies toy_digests (demo_manifest Witness) (demo_manifest Witness)); [apply demo_manifest_ok..|reflexivity].
Defined.
