(* ===== verification/Startup.v ===== *)
(** * Start-up of the node (cmd/bitcrab)

    The command line (cli.rs, main.rs) and the initializers (initializers/mod.rs,
    storage.rs, p2p.rs, rpc.rs): which data directory, engine and store a command
    means, and how the parts modelled elsewhere are put together.  Argument
    parsing (clap), the platform's data directory (dirs), logging and the task
    runtime are third-party code; the directory is a parameter, and so are the
    random keys of the address tables.

    [AnyBackend] is the store's backend as [Store::new] chooses it, behind one
    interface.  [init_node] and [init_p2p] build the state the other files speak
    of; StartupProofs.v shows that they establish its invariants. *)

From Stdlib Require Import Ascii.
From S2P Require Import Prelude Wire Hash Transaction Block Params Pow Coins ScriptOps Taproot Engine Validation BlockFile Store StoreInv Backends Chainstate Node P2P AddrMan Sync PeerTable Peers Downloader Connect Rpc Research.

#[local] Open Scope string_scope.
#[local] Open Scope Z_scope.

(** ** The command line (cli.rs) *)

Inductive Commands : Type :=
  | Run (rpc_addr : SocketAddr) (dbcache : Z) (consensus_engine : string) (skip_script_checks : bool)
  | ConnectTo (addr : string)
  | Research (command : ResearchCommands).
Inductive NetworkChoice : Type :=
  | UseMainnet (command : Commands) | UseSignet (command : Commands)
  | UseTestnet3 (command : Commands) | UseRegtest (command : Commands).
Record CLI : Type := mkCLI { network : NetworkChoice; datadir : option string }.

(** [run] with no options, and [research compare] with the required ones only. *)
Definition default_run : Commands := Run (mkSocketAddr (V4 [127; 0; 0; 1]) 8332) 450 "core-reference" false.
Definition default_compare (signature_checks public_keys : Z) : ResearchCommands :=
  Compare signature_checks public_keys "commit" "witness" 32 false.

(** ** What a command means (main.rs, [main]) *)

Definition chain_and_command (n : NetworkChoice) : ChainType * Commands :=
  match n with
  | UseMainnet command => (Mainnet, command)
  | UseSignet command => (Signet, command)
  | UseTestnet3 command => (Testnet3, command)
  | UseRegtest command => (Regtest, command)
  end.
Definition parse_engine (s : string) : result ConsensusEngineKind CommandError :=
  if decide (s = "native") then Ok Native
  else if decide (s = "core-reference") then Ok CoreReference
  else Err (UsageError ("unknown consensus engine '" +:+ s +:+ "'; expected native or core-reference")).

Inductive Task : Type :=
  | RunNode (datadir : option string) (chain : ChainType) (rpc_addr : option SocketAddr) (dbcache : Z)
      (engine : ConsensusEngineKind) (script_checks : bool)
  | ConnectPeer (addr : string) (chain : ChainType) (datadir : option string)
  | PrintResearch (out : ResearchOutput).

Definition main_task {D : Digests} (cli : CLI) : result Task CommandError :=
  let '(chain, command) := chain_and_command (network cli) in
  match command with
  | Run rpc_addr dbcache consensus_engine skip_script_checks =>
    let? engine := parse_engine consensus_engine in
    Ok (RunNode (datadir cli) chain (Some rpc_addr) dbcache engine (negb skip_script_checks))
  | ConnectTo addr => Ok (ConnectPeer addr chain (datadir cli))
  | Research command => let? out := run_research command chain in Ok (PrintResearch out)
  end.

(** ** The store (initializers/storage.rs, store.rs) *)

(** [Path::join] on Unix *)
Fixpoint ends_with_slash (s : string) : bool :=
  match s with
  | EmptyString => false
  | String a EmptyString => bool_decide (a = "/"%char)
  | String _ s => ends_with_slash s
  end.
Definition path_join (a b : string) : string :=
  match b with
  | String "/"%char _ => b
  | _ => if decide (a = "") then b else if ends_with_slash a then a +:+ b else a +:+ "/" +:+ b
  end.

(** [data_dir] is [dirs::data_dir()]. *)
Definition compute_effective_datadir (data_dir : option string) (base : option string) (chain : ChainType) : string :=
  let base_path := match base with
    | Some p => p
    | None => path_join (default "." data_dir) "bitcrab"
    end in
  match datadir_suffix chain with Some suffix => path_join base_path suffix | None => base_path end.

Inductive EngineType : Type := EngineInMemory | EngineRocksDB.

(** [Arc<dyn StorageBackend>] *)
Inductive AnyBackend (R : Type) : Type := MemoryBackend (db : Database) | RocksBackend (r : R).
Arguments MemoryBackend {R}.
Arguments RocksBackend {R}.

Section AnyStore.
Context {R F Cf Snap : Type} {RK : Rocks R F Cf Snap}.

#[export] Instance any_backend : StorageBackend (AnyBackend R) := {|
  kv_get b t k := match b with MemoryBackend db => kv_get db t k | RocksBackend r => @kv_get _ rocks_backend r t k end;
  kv_write b ops :=
    match b with
    | MemoryBackend db => let? db := kv_write db ops in Ok (MemoryBackend db)
    | RocksBackend r => let? r := @kv_write _ rocks_backend r ops in Ok (RocksBackend r)
    end;
  kv_staged b ops :=
    match b with
    | MemoryBackend db => kv_staged db ops
    | RocksBackend r => @kv_staged _ rocks_backend r ops
    end |}.

(** [Store::new]: the backend of the engine, then the last file and the worker;
    [f] is the directory as RocksDB finds it and [d] its block files. *)
Definition Store_open (dir : string) (engine : EngineType) (magic : Magic) (f : F) (d : Disk) : result (Store (AnyBackend R)) StoreError :=
  let? backend := match engine with
    | EngineInMemory => let? db := memory_open in Ok (MemoryBackend db)
    | EngineRocksDB => let? r := RocksDBBackend_open f in Ok (RocksBackend r)
    end in
  Store_new (string_bytes dir) magic backend d.
(** [Store::in_memory] *)
Definition Store_in_memory (magic : Magic) (f : F) (d : Disk) : result (Store (AnyBackend R)) StoreError :=
  Store_open "" EngineInMemory magic f d.
Definition init_store (dir : string) (magic : Magic) (f : F) (d : Disk) : result (Store (AnyBackend R)) StoreError :=
  Store_open dir EngineRocksDB magic f d.
Definition init_memory_store (magic : Magic) (f : F) (d : Disk) : result (Store (AnyBackend R)) StoreError := Store_in_memory magic f d.
End AnyStore.

(** ** The node (initializers/mod.rs) *)

Inductive InitError : Type := StoreOpen (e : StoreError) | GenesisFailed (e : NodeError) | ActivationFailed (e : NodeError) | Panicked.

Section Node.
Context {B E : Type} {SB : StorageBackend B} {D : Digests} {K : Taproot.Secp} {SE : ScriptEngine E}.

(** The manager and the facade over a store.  The actor repairs the tips at the
    same time as [Blockchain::new] reads them: [seen] is the store it reads. *)
Definition start_chain (params : ChainParams) (store seen : Store B) (dbcache_mib : Z) (engine : E) (script_checks : bool) : Blockchain B E :=
  let m := ChainstateManager_new params store (Z.to_nat (saturating_mul_u U64_MAX dbcache_mib (1024 * 1024))) engine script_checks in
  let path := best_header_chain (Blockchain_new (set_store m seen) Mempool_new params) in
  mkBlockchain (verify_and_repair_tips m).2 Mempool_new params path.

(** [init_node] after the store is open: genesis, then the best chain; [env1] and
    [env2] are what the two messages meet. *)
Definition boot (env1 env2 : Env) (bc : Blockchain B E) : result (Blockchain B E) InitError :=
  match load_genesis env1 bc with
  | (Err e, _) => Err (GenesisFailed e)
  | (Ok _, bc) =>
    match bc_activate_best_chain env2 bc with
    | (Err e, _) => Err (ActivationFailed e)
    | (Ok _, bc) => Ok bc
    end
  end.

(** ** The network (initializers/p2p.rs) *)

Definition index_time (o : option BlockIndex) : Z := match o with Some i => time (bi_header i) | None => 0 end.
Definition init_sync (bc : Blockchain B E) : SyncManager :=
  let '(headers_tip, headers_height) := sync_get_headers_tip bc in
  let '(blocks_tip, blocks_height) := get_blocks_tip bc in
  let last_header_time := if is_zero headers_tip then 0 else index_time (sync_get_block_index bc headers_tip) in
  Sync.with_tips headers_tip headers_height blocks_tip blocks_height last_header_time.

(** [table_key] and [connman_key] are the random keys of the two address tables;
    [now] is the clock [BlockDownloader::new] reads. *)
Definition init_p2p (table_key connman_key : bytes) (now : Z) (bc : Blockchain B E) : Net (Blockchain B E) :=
  mkNet (PeerTable_new (AddrMan_new table_key)) (init_sync bc) bc ∅ (mkDownloadProgress now 0 0) (Connman_new connman_key) ∅ no_tasks.

(** [init_rpc]: what the server's methods see. *)
Definition init_rpc (magic : Magic) (n : Net (Blockchain B E)) : RpcApiContext (Blockchain B E) :=
  mkContext (n_chain n) magic (n_table n).
End Node.

Section Service.
Context {R F Cf Snap : Type} {RK : Rocks R F Cf Snap} {D : Digests} {K : Taproot.Secp} {H : Hex}.
Abbreviation TheNode := (Blockchain (AnyBackend R) ConsensusEngine).

(** [init_node]; the parameters of mainnet cannot be built, so that [chain_params] panics. *)
Definition init_node (env1 env2 : Env) (seen : Store (AnyBackend R) -> Store (AnyBackend R)) (dir : string) (chain : ChainType)
    (dbcache_mib : Z) (engine : ConsensusEngineKind) (script_checks : bool) (f : F) (d : Disk) : result TheNode InitError :=
  let? params := ok_or (chain_params chain) Panicked in
  let? store := map_err StoreOpen (init_store dir (Params.magic params) f d) in
  boot env1 env2 (start_chain params store (seen store) dbcache_mib (ConsensusEngine_new engine) script_checks).

(** [init_node_service]: the directory, the node, its network, and the RPC
    context when an address is given. *)
Definition init_node_service (data_dir : option string) (env1 env2 : Env) (seen : Store (AnyBackend R) -> Store (AnyBackend R))
    (table_key connman_key : bytes) (now : Z) (base : option string) (chain : ChainType) (rpc_addr : option SocketAddr)
    (dbcache_mib : Z) (engine : ConsensusEngineKind) (script_checks : bool) (files : string -> F * Disk)
    : result (string * Net TheNode * option (SocketAddr * RpcApiContext TheNode)) InitError :=
  let dir := compute_effective_datadir data_dir base chain in
  let '(f, d) := files dir in
  let? bc := init_node env1 env2 seen dir chain dbcache_mib engine script_checks f d in
  let? params := ok_or (chain_params chain) Panicked in
  let net := init_p2p table_key connman_key now bc in
  Ok (dir, net, (fun addr => (addr, init_rpc (Params.magic params) net)) <$> rpc_addr).

(** [run_legacy_connect] up to the handshake: the same stack with the reference
    engine, scripts checked, 450 MiB, no activation and no tips in the sync manager. *)
Definition legacy_node (env : Env) (seen : Store (AnyBackend R) -> Store (AnyBackend R)) (data_dir base : option string) (chain : ChainType)
    (table_key connman_key : bytes) (now : Z) (files : string -> F * Disk) : result (Net TheNode) InitError :=
  let? params := ok_or (chain_params chain) Panicked in
  let '(f, d) := files (compute_effective_datadir data_dir base chain) in
  let? store := map_err StoreOpen (init_store (compute_effective_datadir data_dir base chain) (Params.magic params) f d) in
  match load_genesis env (start_chain params store (seen store) 450 (ConsensusEngine_new CoreReference) true) with
  | (Err e, _) => Err (GenesisFailed e)
  | (Ok _, bc) => Ok (mkNet (PeerTable_new (AddrMan_new table_key)) SyncManager_new bc ∅ (mkDownloadProgress now 0 0) (Connman_new connman_key) ∅ no_tasks)
  end.
End Service.

(** ** Shutting down (main.rs, after the signal)

    The tasks of the tracker end when they see the cancellation; the process ends
    when all have, or after ten seconds. *)

Inductive RunPhase : Type := Serving | Stopping (since : Z) | Exited (clean : bool).
Record Process : Type := mkProcess { phase : RunPhase; cancelled : bool; tracked : nat }.
Definition SHUTDOWN_SECONDS : Z := 10.

Inductive process_step : Z -> Process -> Process -> Prop :=
  | ps_signal t n : process_step t (mkProcess Serving false n) (mkProcess (Stopping t) true n)
  | ps_task t since n : process_step t (mkProcess (Stopping since) true (S n)) (mkProcess (Stopping since) true n)
  | ps_finished t since : process_step t (mkProcess (Stopping since) true 0) (mkProcess (Exited true) true 0)
  | ps_timeout t since n : since + SHUTDOWN_SECONDS <= t ->
      process_step t (mkProcess (Stopping since) true n) (mkProcess (Exited false) true n).
