(* ===== verification/StartupProofs.v ===== *)
(** * What start-up establishes

    [node_startup]: a node that has started, on an empty directory or on one that
    holds a tree of headers, meets the invariants that the other files preserve:
    the header tree, the manager's invariant and the invariant of the network
    layer.  [default_engine_rejects]: with the options of the command line left
    out, in the default build, no block that spends a coin connects. *)

From Stdlib Require Import Ascii.
From S2P Require Import Prelude Wire Hash Transaction Block Params Pow Coins ScriptOps Taproot Engine Validation ConnectSpec Supply BlockFile Store StoreInv Backends BackendProofs Chainstate ChainstateProofs Node NodeProofs P2P AddrMan AddrManProofs Sync SyncProofs PeerTable Peers Downloader DownloaderProofs Connect NetProofs Rpc Research Startup.

#[local] Open Scope string_scope.
#[local] Open Scope Z_scope.

(** ** The store's backend *)

Section AnyBackend.
Context {R F Cf Snap : Type} {RK : Rocks R F Cf Snap} `{!EqDecision Cf} {RO : RocksOk R F Cf Snap}.
#[export] Instance any_backend_ok : StorageBackendOk (AnyBackend R).
Proof using RO.
  intros [db|r] ops b' t k; cbn [kv_write kv_get any_backend].
  - intros H. inv_ok. by apply (@kv_write_get Database in_memory in_memory_ok db ops).
  - intros H. inv_ok. by apply (@kv_write_get R rocks_backend rocks_backend_ok r ops).
Qed.
End AnyBackend.

(** ** The chain *)

Section Chain.
Context {B E : Type} {SB : StorageBackend B} {SO : StorageBackendOk B} {D : Digests} {DO : DigestsOk D} {K : Taproot.Secp} {SE : ScriptEngine E}.
Implicit Types m : ChainstateManager B E.

Lemma undo_backend (s : Store B) hash undo : backend (handle_store_undo s hash undo).2 = backend s.
Proof.
  unfold handle_store_undo. destruct (rbind _ _) as [[i pos]|]; [|done]. by destruct (write_undo _ _ _ _ _) as [[? ?] ?].
Qed.

(** A block that is indexed stays indexed through activation. *)
Definition knows (g : BlockHash) (s : Store B) : Prop := header_tree s /\ exists i, indexed s g i.
Lemma knows_undo g s hash undo : knows g s -> knows g (handle_store_undo s hash undo).2.
Proof using SO.
  intros [Ht (i & Hi)]. split; [by apply tree_undo|]. exists i. unfold indexed in *.
  rewrite <- Hi. apply get_block_index_ext. by rewrite undo_backend.
Qed.
Lemma knows_utxos g s ups best conn : knows g s -> knows g (update_utxos s ups best conn).2.
Proof using SO.
  intros [Ht (i & Hi)]. split; [by apply tree_utxos|]. unfold update_utxos, StoreCoinsStore. destruct (bool_decide _); [|by exists i].
  destruct (handle_update_utxo_set s ups best conn) as [[[]|e] s'] eqn:Eu; cbn [snd].
  - unfold indexed. rewrite (utxos_index_get s ups best conn s' g Ht Eu). destruct (pending_undo_indexes _ !! g); [eauto|by exists i].
  - apply update_utxo_set_err in Eu as [h ->]. by exists i.
Qed.

Lemma new_manager_inv params (s : Store B) n engine checks : mgr_inv (E := E) (ChainstateManager_new params s n engine checks).
Proof.
  split; cbn; [done| |unfold FLUSH_INTERVAL_BLOCKS; lia]. intros hash h.
  destruct (store_get_best_block s) as [[x|]|]; cbn; try done. destruct (get_block_index s x) as [[i|]|]; cbn; try done. by intros [= -> _].
Qed.

(** The repair writes the header tip only. *)
Lemma keeps_update_tip o : keeps (E := E) header_tree (update_tip o).
Proof using SO. destruct o; [apply keeps_headers_tip|apply keeps_ret]. Qed.
Lemma keeps_repair : keeps (E := E) header_tree verify_and_repair_tips.
Proof using SO.
  unfold verify_and_repair_tips. repeat (apply keeps_bind; [first [apply keeps_reads|apply keeps_gets|apply keeps_update_tip|
    (match goal with |- context [index_of_tip ?o] => destruct o; [apply keeps_reads|apply keeps_ret] end)|
    (destruct (_ <? _); [apply keeps_update_tip|apply keeps_ret])]|intros ?]).
  destruct (_ <? _); [apply keeps_update_tip|apply keeps_ret].
Qed.

(** A change of the manager's store only. *)
Definition store_only m m' : Prop := exists s, m' = set_store m s.
Lemma store_only_refl m : store_only m m.
Proof. exists (cs_store m). unfold set_store, set_cache, with_base, cs_store. by destruct m as [? ? ? [] ? ? ? ? ?]. Qed.
Lemma store_only_trans m1 m2 m3 : store_only m1 m2 -> store_only m2 m3 -> store_only m1 m3.
Proof. intros (s & ->) (s' & ->). exists s'. done. Qed.
Lemma store_only_bind {A A'} (a : action (B := B) (E := E) A) (k : A -> action A') : (forall m, store_only m (a m).2) ->
  (forall x m, store_only m (k x m).2) -> forall m, store_only m (abind a k m).2.
Proof.
  intros Ha Hk m. unfold abind. specialize (Ha m). destruct (a m) as [[x|e] m1]; cbn [snd] in *; [|done].
  by eapply store_only_trans; [exact Ha|].
Qed.
Lemma store_only_update_tip o m : store_only m (update_tip o m).2.
Proof. destruct o; [|apply store_only_refl]. cbn. unfold writes. destruct (handle_update_headers_tip _ _) as [r s]. by exists s. Qed.
Lemma repair_store_only m : store_only m (verify_and_repair_tips m).2.
Proof.
  unfold verify_and_repair_tips. revert m.
  repeat (apply store_only_bind; [first [intros; apply store_only_refl|apply store_only_update_tip|
    (match goal with |- context [index_of_tip ?o] => destruct o; intros; apply store_only_refl end)|
    (destruct (_ <? _); [apply store_only_update_tip|intros; apply store_only_refl])]|intros ?]).
  destruct (_ <? _); [apply store_only_update_tip|intros; apply store_only_refl].
Qed.
Lemma store_only_inv m m' : store_only m m' -> mgr_inv m -> mgr_inv m'.
Proof. intros (s & ->) []. by split. Qed.

Lemma genesis_known params m m' : header_ok (genesis_header params) -> load_genesis_block params m = (Ok tt, m') ->
  exists i, indexed (cs_store m') (genesis_hash params) i.
Proof using SO DO.
  intros Hh H. destruct (get_block_index (cs_store m) (genesis_hash params)) as [[i|]|e] eqn:Eg.
  - unfold load_genesis_block, abind at 1, reads in H. rewrite Eg in H. injection H as <-. by exists i.
  - destruct (load_genesis_spec params m m' Hh H Eg) as [G _]. by eexists.
  - unfold load_genesis_block, abind at 1, reads in H. by rewrite Eg in H.
Qed.

(** ** The node *)

(** The header tip's and the block tip's height, as the sync manager starts with them. *)
Definition start_heights (bc : Blockchain B E) : Z * Z := ((sync_get_headers_tip bc).2, (get_blocks_tip bc).2).

Lemma init_p2p_inv {H : DefaultHasher} table_key connman_key now (bc : Blockchain B E) :
  net_inv (start_heights bc).1 (start_heights bc).2 (init_p2p table_key connman_key now bc).
Proof.
  split; [split|split].
  - unfold init_p2p, init_sync. cbn. destruct (sync_get_headers_tip bc), (get_blocks_tip bc). cbn. exact (dl_inv_clear SyncDownloadState_default).
  - intros a h Ha. cbn in Ha. by rewrite lookup_empty in Ha.
  - unfold init_p2p, init_sync, tips_ge, start_heights. cbn. destruct (sync_get_headers_tip bc), (get_blocks_tip bc). cbn. lia.
  - apply fresh_inv.
  - apply fresh_inv.
  - done.
  - done.
  - intros c _. unfold pending_count. cbn [pending_attempts init_p2p]. rewrite map_to_list_empty. cbn. lia.
Qed.

(** C11: A node that starts meets the invariants the rest of the development
    preserves.  On any store whose index is a tree of headers, an empty one
    included, and whatever the tips it finds: when [init_node] succeeds, the index
    is still a tree and holds the genesis block, the chainstate manager is idle
    with its active tip the best block of its cache, and the network layer starts
    in its invariant at the heights of the two tips, with no peer connected, no
    attempt pending and no connection task running. *)
Theorem node_startup {H : DefaultHasher} (params : ChainParams) (store seen : Store B) (dbcache_mib : Z) (engine : E) (script_checks : bool)
    (env1 env2 : Env) (table_key connman_key : bytes) (now : Z) (bc : Blockchain B E) :
  header_tree store -> header_ok (genesis_header params) -> is_zero (prev_hash (genesis_header params)) = true ->
  boot env1 env2 (start_chain params store seen dbcache_mib engine script_checks) = Ok bc ->
  header_tree (bc_store bc) /\ (exists i, indexed (bc_store bc) (genesis_hash params) i) /\
  mgr_inv (bc_manager bc) /\ bc_params bc = params /\
  let n := init_p2p table_key connman_key now bc in
  net_inv (start_heights bc).1 (start_heights bc).2 n /\ pt_peers (n_table n) = ∅ /\ pending_attempts n = ∅ /\ n_tasks n = no_tasks.
Proof using SO DO.
  intros Ht Hh Hz. unfold boot, load_genesis, bc_activate_best_chain, call_chainstate, start_chain. cbn [handle_chainstate_msg bc_manager bc_params].
  set (m0 := ChainstateManager_new params store _ engine script_checks). set (m1 := (verify_and_repair_tips m0).2).
  assert (header_tree (cs_store m1)) as T1 by (by apply keeps_repair).
  assert (mgr_inv m1) as I1 by (eapply store_only_inv; [apply repair_store_only|apply new_manager_inv]).
  destruct (load_genesis_block params m1) as [[[]|e] m2] eqn:E1; cbn [map_err]; [|done].
  pose proof (tree_genesis params Hh Hz m1 T1) as T2. rewrite E1 in T2. cbn [snd] in T2.
  pose proof (genesis_known params m1 m2 Hh E1) as K2.
  assert (mgr_inv m2) as I2 by exact (manager_step env1 (LoadGenesis params) m1 m2 I1 E1).
  cbn [bc_manager set_manager]. destruct (activate_best_chain env2 m2) as [[[]|e] m3] eqn:E2; cbn [map_err]; [|done]. intros [= <-].
  pose proof (keeps_activate (knows (genesis_hash params)) (knows_undo _) (knows_utxos _) env2 m2 (conj T2 K2)) as K3. rewrite E2 in K3.
  destruct K3 as [T3 K3]. split_and!; [exact T3|exact K3|exact (manager_step env2 ActivateBestChain m2 m3 I2 E2)|done| |done..].
  apply init_p2p_inv.
Qed.
End Chain.

(** ** Opening again *)

Section Restart.
Context {R F Cf Snap : Type} {RK : Rocks R F Cf Snap} `{!EqDecision Cf} {RO : RocksOk R F Cf Snap} {D : Digests}.

(** A store over RocksDB that is opened again from its directory has the index it
    had, and so the tree of headers. *)
Lemma reopened_tree (s s' : Store (AnyBackend R)) (r : R) (dir : string) (magic : Magic) (d : Disk) (names : list string) :
  backend s = RocksBackend r -> header_tree s -> is_Some (cf_handle r BLOCK_INDEX) -> list_cf db_options (dir_of r) = Ok names ->
  Store_open dir EngineRocksDB magic (dir_of r) d = Ok s' ->
  (forall n, last_file_of (backend s') = Ok n -> u32_ok n) -> header_tree s'.
Proof using RO.
  intros Hb Ht Hcf Hnames Hopen Hfile. unfold Store_open, Store_new in Hopen. inv_ok.
  match goal with E : RocksDBBackend_open _ = Ok ?x |- _ => rename x into r'; rename E into Ho end.
  match goal with E : last_file_of _ = Ok ?x |- _ => rename x into n; rename E into Hn end.
  assert (forall h, @get_block_index _ any_backend (mkStore (RocksBackend r') d (BlockFileManager_new (string_bytes dir) magic n d)
    (mkBlockManager (BlockFileManager_new (string_bytes dir) magic n d) (init_tip_height (RocksBackend r')) ∅ ∅)) h = get_block_index s h) as Hg.
  { intros h. apply get_block_index_ext. cbn [backend]. rewrite Hb. cbn [kv_get any_backend].
    exact (reopen_reads r names r' BLOCK_INDEX (block_key h) Hnames Ho Hcf). }
  apply (tree_extend s); [done|by apply Hfile|..]; unfold indexed.
  - intros h i Hi. exists i. by rewrite Hg.
  - intros h i. rewrite Hg. intros Hi. split; [by apply (ht_node _ Ht h)|]. left. by exists i.
  - intros h i. cbn. by rewrite lookup_empty.
Qed.
End Restart.

(** ** The default engine *)

(** With the options of [run] left out the node checks scripts with the
    reference engine, which the default build does not have: every transaction is
    refused, so that no block with a transaction besides its coinbase connects. *)
Lemma default_engine_rejects {D : Digests} {K : Secp} {V : Type} {CV : CoinsView V} {P : BlockIndexProvider}
    (chain : NetworkChoice) (dir : option string) (params : ChainParams) (h : BlockHeight)
    (join : list (result unit ValidationError) -> list (result unit ValidationError))
    (b : Block) (prev : BlockIndex) (view : CoinsViewCache V) (m : UtxoMap) :
  (chain_and_command chain).2 = default_run ->
  (forall l, Permutation (join l) l) -> refines view m -> (1 < length (transactions b))%nat ->
  exists rpc kind, main_task (mkCLI chain dir) = Ok (RunNode dir (chain_and_command chain).1 rpc 450 kind true) /\
    (forall tx coins, verify_transaction (ConsensusEngine_new kind) tx coins = Err ReferenceEngineUnavailable) /\
    exists e, (connect_block params h true (ConsensusEngine_new kind) join b prev view).1 = Err e.
Proof.
  intros Hc Hj Hr Hb. exists (Some (mkSocketAddr (V4 [127; 0; 0; 1]) 8332)), CoreReference. split_and!.
  - unfold main_task. cbn [network]. destruct (chain_and_command chain) as [c cmd]. cbn in Hc. by subst cmd.
  - done.
  - destruct (connect_block params h true (ConsensusEngine_new CoreReference) join b prev view) as [[[fees undo]|e] view'] eqn:Ec; [|by exists e].
    destruct (transactions b) as [|cb [|tx rest]] eqn:Et; [simpl in Hb; lia..|].
    destruct (spends_valid params h (ConsensusEngine_new CoreReference) join b prev view view' m fees undo [] tx rest Hj Hr) as (coins & _ & _ & Hv);
      [done|by rewrite Et|]. done.
Qed.

(** ** Shutting down *)

(** The process exits after a signal, with every task told to stop; cleanly only
    when none is left, and otherwise not before ten seconds have passed. *)
Lemma exit_spec t p p' : process_step t p p' -> forall clean, phase p' = Exited clean ->
  cancelled p = true /\ exists since, phase p = Stopping since /\ (if clean then tracked p = O else since + SHUTDOWN_SECONDS <= t).
Proof. intros H clean. destruct H; cbn; try done; intros [= <-]; eauto. Qed.
Lemma stopping_exits t since n : since + SHUTDOWN_SECONDS <= t -> exists p', process_step t (mkProcess (Stopping since) true n) p' /\ exists c, phase p' = Exited c.
Proof. intros H. eexists. split; [by apply ps_timeout|]. by eexists. Qed.

(** ** Paths *)

(** Two networks never share a data directory. *)
Lemma datadirs_distinct data_dir base c c' : datadir_suffix c <> None -> datadir_suffix c' <> None ->
  compute_effective_datadir data_dir base c = compute_effective_datadir data_dir base c' -> c = c'.
Proof.
  assert (forall a x y, match x with String "/"%char _ => False | _ => True end -> match y with String "/"%char _ => False | _ => True end ->
    path_join a x = path_join a y -> x = y) as Hj.
  { intros a x y Hx Hy. assert (forall z, match z with String "/"%char _ => False | _ => True end ->
      path_join a z = if decide (a = "") then z else if ends_with_slash a then a +:+ z else a +:+ "/" +:+ z) as Hz.
    { intros [|[[] [] [] [] [] [] [] []] z] Hz; done. }
    rewrite !Hz by done. case_decide; [done|]. destruct (ends_with_slash a); intros E.
    - by apply (inj (String.app a)) in E.
    - apply (inj (String.app a)) in E. by injection E. }
  unfold compute_effective_datadir. set (p := match base with Some q => q | None => _ end). clearbody p.
  destruct c, c'; cbn [datadir_suffix]; try done; intros _ _ E; apply Hj in E; done.
Qed.

(** ** Concrete inputs *)

Definition first_boot : result (Blockchain Database ConsensusEngine) InitError :=
  @boot _ _ in_memory toy_digests toy_secp demo_verify ChainstateProofs.demo_env ChainstateProofs.demo_env
    (@start_chain _ _ in_memory demo_params (fresh_store [] REGTEST) (fresh_store [] REGTEST) 0 (ConsensusEngine_new Native) false).
Lemma node_startup_witness : exists bc, first_boot = Ok bc /\ @header_tree _ in_memory toy_digests (bc_store bc) /\
  @net_inv _ demo_hasher (@start_heights _ _ in_memory toy_digests bc).1 (@start_heights _ _ in_memory toy_digests bc).2 (@init_p2p _ _ in_memory toy_digests demo_key demo_key 0 bc).
Proof.
  assert (exists bc, first_boot = Ok bc) as (bc & Hb) by (vm_compute; eexists; reflexivity).
  exists bc. split; [exact Hb|].
  destruct (@node_startup _ _ in_memory in_memory_ok toy_digests toy_digests_ok toy_secp demo_verify demo_hasher demo_params (fresh_store [] REGTEST)
    (fresh_store [] REGTEST) 0 (ConsensusEngine_new Native) false ChainstateProofs.demo_env ChainstateProofs.demo_env demo_key demo_key 0 bc
    (fresh_tree [] REGTEST) demo_header_ok eq_refl Hb) as (T & _ & _ & _ & N & _).
  split; [exact T|exact N].
Defined.

Lemma default_engine_rejects_witness : exists rpc kind,
  @main_task toy_digests (mkCLI (UseRegtest default_run) None) = Ok (RunNode None Regtest rpc 450 kind true) /\
  exists e, (@connect_block toy_digests toy_secp MapStore ConsensusEngine map_view test_provider (@ConsensusEngine_verify toy_digests toy_secp) test_params 200 true
    (ConsensusEngine_new kind) (fun l => l) (test_block [test_coinbase 2500000010; test_spend 40]) test_prev test_view).1 = Err e.
Proof.
  destruct (@default_engine_rejects toy_digests toy_secp MapStore map_view test_provider (UseRegtest default_run) None test_params 200 (fun l => l)
    (test_block [test_coinbase 2500000010; test_spend 40]) test_prev test_view (ms_coins test_store)) as (rpc & kind & H1 & _ & H2).
  - reflexivity.
  - intros l. reflexivity.
  - exact test_view_refines.
  - vm_compute. lia.
  - exists rpc, kind. split; [exact H1|exact H2].
Defined.
