(* ===== verification/Transport.v ===== *)
(** * A connection after its handshake, and the periodic tasks of the network

    net/p2p/node.rs: the two tasks of [Node::start], a writer that takes messages
    from the channel of the handle and a reader that frames what the socket returns
    and hands each message to the peer manager.  A [Link] is a connection with its
    two ends; what an end has written and the other has not read is [e_out], which
    the socket bounds by [capacity].  Headers and blocks are processed in tasks of
    their own; a ping is answered in the reader itself, which waits for room in the
    channel.  [e_accepted] and [e_got] record the messages the channel has accepted
    and those handed to the peer manager.

    The loops of discovery.rs, initiator.rs and block_downloader.rs are tasks with an
    interval; connman.rs and peer_manager.rs: what is left of them. *)

From S2P Require Import Prelude Wire Hash Params P2P AddrMan PeerTable Sync Peers Downloader Connect NetProofs.

(** ** One end of a connection *)

Definition NODE_CHANNEL : nat := 1024.
Definition READ_CHUNK : nat := 8192.
Definition INACTIVITY_TIMEOUT : Z := from_secs 1200.

Inductive Writer : Type := WIdle | WWriting (rest : bytes) | WExited.
(** Waiting for the socket since an instant, handing over framed messages, or done. *)
Inductive Reader : Type := RReading (since : Z) | RHandling (ms : list Message) | RExited.

Record End : Type := mkEnd {
  e_queue : list Message;
  e_handles : nat;
  e_cancelled : bool;
  e_writer : Writer;
  e_out : bytes;
  e_buf : bytes;
  e_reader : Reader;
  e_accepted : list Message;
  e_got : list Message;
}.

(** [Node::start] at an instant: one handle is returned, another is the reader's. *)
Definition end_start (t : Z) : End := mkEnd [] 1 false WIdle [] [] (RReading t) [] [].

Definition push_message (m : Message) (e : End) : End :=
  mkEnd (e_queue e ++ [m]) (e_handles e) (e_cancelled e) (e_writer e) (e_out e) (e_buf e) (e_reader e) (e_accepted e ++ [m]) (e_got e).
Definition set_handles (n : nat) (e : End) : End :=
  mkEnd (e_queue e) n (e_cancelled e) (e_writer e) (e_out e) (e_buf e) (e_reader e) (e_accepted e) (e_got e).
(** [NodeHandle::disconnect] *)
Definition disconnect (e : End) : End :=
  mkEnd (e_queue e) (e_handles e) true (e_writer e) (e_out e) (e_buf e) (e_reader e) (e_accepted e) (e_got e).
Definition set_writer (q : list Message) (w : Writer) (out : bytes) (e : End) : End :=
  mkEnd q (e_handles e) (e_cancelled e) w out (e_buf e) (e_reader e) (e_accepted e) (e_got e).
Definition set_reader (buf : bytes) (r : Reader) (got : list Message) (e : End) : End :=
  mkEnd (e_queue e) (e_handles e) (e_cancelled e) (e_writer e) (e_out e) buf r (e_accepted e) got.

(** The channel: [Err] when its receiver is gone, [None] when it is full and the
    sender waits. *)
Definition node_send (m : Message) (e : End) : option (result End P2pError) :=
  match e_writer e with
  | WExited => Some (Err ConnectionClosed)
  | _ => if (length (e_queue e) <? NODE_CHANNEL)%nat then Some (Ok (push_message m e)) else None
  end.

(** What the reader does itself with a message: [None] while it waits to answer. *)
Definition reader_handles (m : Message) (e : End) : option End :=
  match m with
  | MPing p => match node_send (MPong (mkPong (ping_nonce p))) e with
               | Some (Ok e) => Some e
               | Some (Err _) => Some e
               | None => None
               end
  | _ => Some e
  end.
Definition writer_next (rest : bytes) : Writer := match rest with [] => WIdle | _ => WWriting rest end.
Definition reader_next (t : Z) (ms : list Message) : Reader := match ms with [] => RReading t | _ => RHandling ms end.

Section Steps.
Context {D : Digests} (magic : Magic) (capacity : nat).

(** What the two tasks of [a] do by themselves, [b] being the other end. *)
Inductive task_step (t : Z) : End -> End -> End -> End -> Prop :=
  | ts_take a b m q : e_writer a = WIdle -> e_queue a = m :: q ->
      task_step t a b (set_writer q (writer_next (frame magic m)) (e_out a) a) b
  | ts_write a b rest n : e_writer a = WWriting rest -> (0 < n <= length rest)%nat -> (length (e_out a) + n <= capacity)%nat ->
      task_step t a b (set_writer (e_queue a) (writer_next (drop n rest)) (e_out a ++ take n rest) a) b
  | ts_read a b since n : e_reader a = RReading since -> (0 < n <= length (e_out b))%nat -> (n <= READ_CHUNK)%nat ->
      task_step t a b
        (set_reader (drain magic (e_buf a ++ take n (e_out b))).2 (reader_next t (drain magic (e_buf a ++ take n (e_out b))).1) (e_got a) a)
        (set_writer (e_queue b) (e_writer b) (drop n (e_out b)) b)
  | ts_handle a b m ms a' : e_reader a = RHandling (m :: ms) -> reader_handles m a = Some a' ->
      task_step t a b (set_reader (e_buf a) (reader_next t ms) (e_got a ++ [m]) a') b.

(** What happens to [a] from outside, and the ends of its tasks. *)
Inductive outer_step (t : Z) : End -> End -> End -> End -> Prop :=
  | os_send a b m a' : (0 < e_handles a)%nat \/ e_reader a <> RExited -> node_send m a = Some (Ok a') -> outer_step t a b a' b
  | os_handles a b n : (0 < e_handles a)%nat \/ e_reader a <> RExited -> outer_step t a b (set_handles n a) b
  | os_disconnect a b : outer_step t a b (disconnect a) b
  | os_write_error a b rest : e_writer a = WWriting rest -> outer_step t a b (set_writer (e_queue a) WExited (e_out a) a) b
  | os_writer_cancelled a b : e_writer a = WIdle -> e_cancelled a = true -> outer_step t a b (set_writer (e_queue a) WExited (e_out a) a) b
  | os_writer_closed a b : e_writer a = WIdle -> e_queue a = [] -> e_handles a = O -> e_reader a = RExited ->
      outer_step t a b (set_writer [] WExited (e_out a) a) b
  | os_eof a b since : e_reader a = RReading since -> e_out b = [] -> e_writer b = WExited -> outer_step t a b (set_reader (e_buf a) RExited (e_got a) a) b
  | os_read_error a b since : e_reader a = RReading since -> outer_step t a b (set_reader (e_buf a) RExited (e_got a) a) b
  | os_inactive a b since : e_reader a = RReading since -> e_out b = [] -> since + INACTIVITY_TIMEOUT <= t ->
      outer_step t a b (set_reader (e_buf a) RExited (e_got a) a) b
  | os_aborted a b : e_reader a <> RExited -> e_cancelled a = true -> outer_step t a b (set_reader (e_buf a) RExited (e_got a) a) b.

(** Either end moves. *)
Definition both (step : End -> End -> End -> End -> Prop) (l l' : End * End) : Prop :=
  step l.1 l.2 l'.1 l'.2 \/ step l.2 l.1 l'.2 l'.1.
Definition link_task (l l' : End * End) : Prop := exists t, both (task_step t) l l'.
Definition link_step (l l' : End * End) : Prop := exists t, both (task_step t) l l' \/ both (outer_step t) l l'.
Definition reachable (l : End * End) : Prop := exists t1 t2, rtc link_step (end_start t1, end_start t2) l.
End Steps.

(** What an end's reader does to the peer manager: each message, and after the last
    one [finalize_node]. *)
Definition end_events (id : NodeId) (e : End) : list NetEvent :=
  map (EvMessage id) (e_got e) ++ match e_reader e with RExited => [EvClosed id] | _ => [] end.

(** ** Periodic tasks

    A [tokio] interval is due at once and then once every period; a late tick is made
    up for. *)

Definition HEALTH_CHECK_INTERVAL : Z := from_secs 30.
Definition DISCOVERY_TARGET : nat := 100.

Inductive NetTask : Type := TaskSeed | TaskFill | TaskFeeler | TaskDownload | TaskConnector.
#[export] Instance NetTask_eq_dec : EqDecision NetTask.
Proof. solve_decision. Defined.
Definition all_tasks : list NetTask := [TaskSeed; TaskFill; TaskFeeler; TaskDownload; TaskConnector].
Definition from_millis (n : Z) : Z := n * 1000000.
Definition task_period (k : NetTask) : Z :=
  match k with
  | TaskSeed => from_secs 120
  | TaskFill => from_secs 10
  | TaskFeeler => from_secs 120
  | TaskDownload => from_millis 250
  | TaskConnector => from_millis 500
  end.

(** The events a turn of a task's loop starts with; [count] is what it reads of the peer
    table, [resolved] what the seeds resolve to.  Filling and feeling go on by further
    [EvFill] and [EvFeeler] steps, and the attempts they spawn by [EvConn] steps. *)
Definition task_events (k : NetTask) (count : nat) (resolved : list (option (list SocketAddr))) : list NetEvent :=
  match k with
  | TaskSeed => if (count <? DISCOVERY_TARGET)%nat then [EvSeed resolved] else []
  | TaskFill => [EvFill]
  | TaskFeeler => [EvFeeler]
  | TaskDownload => [EvHeaderRound; EvDownloadRound]
  | TaskConnector => [EvConnectorTick]
  end.

(** When each task is due next, whether the downloader has been woken, and the ticks
    so far.  The clock only goes forward. *)
Record Schedule : Type := mkSchedule { now : Z; due : NetTask -> Z; woken : bool; turns : list (Z * NetTask) }.
Definition schedule_start (t : Z) : Schedule := mkSchedule t (fun _ => t) false [].
Definition next_due (k : NetTask) (d : NetTask -> Z) : NetTask -> Z := fun j => if decide (j = k) then d j + task_period k else d j.

Inductive schedule_step : Schedule -> Schedule -> Prop :=
  | sc_time s t : now s <= t -> schedule_step s (mkSchedule t (due s) (woken s) (turns s))
  | sc_tick s k : due s k <= now s -> schedule_step s (mkSchedule (now s) (next_due k (due s)) (woken s) (turns s ++ [(now s, k)]))
  | sc_notify s : schedule_step s (mkSchedule (now s) (due s) true (turns s))
  | sc_woken s : woken s = true -> schedule_step s (mkSchedule (now s) (due s) false (turns s)).

(** [run_p2p_maintenance] spawns discovery (which seeds once at once), the initiator
    and the accept loop; [BlockDownloader::start] the other two. *)
Definition maintenance_events (resolved : list (option (list SocketAddr))) : list NetEvent := [EvSeed resolved].

(** ** Announcements, names and the peers file *)

(** [on_inv]: the announced blocks it counts in its log; nothing is requested. *)
Definition on_inv (inv : Inv) : list bytes :=
  omap (fun item => if decide (inv_type item = InvBlock) then Some (inv_hash item) else None) (inventory inv).

(** [resolve]: an address, or the first one a name resolves to; the reasons of a
    failure are texts. *)
Definition resolve (parse : bytes -> option SocketAddr) (to_socket_addrs : bytes -> result (list SocketAddr) bytes) (addr : bytes)
    : result SocketAddr P2pError :=
  match parse addr with
  | Some a => Ok a
  | None =>
    match to_socket_addrs addr with
    | Err _ => Err ConnectionFailed
    | Ok [] => Err ConnectionFailed
    | Ok (a :: _) => Ok a
    end
  end.

Section Connman.
Context {C : Type} {VI : ValidationInterface C} {SP : SyncProvider C} {D : Digests} {H : DefaultHasher}.

(** [Connman::connect] *)
Definition connect (env : NetEnv) (magic : Magic) (nonce : Z) (parse : bytes -> option SocketAddr)
    (to_socket_addrs : bytes -> result (list SocketAddr) bytes) (dial : SocketAddr -> Dial) (addr : bytes) (c : ConnectionType)
    : NetM C (result (NodeHandle * bytes) P2pError) :=
  match resolve parse to_socket_addrs addr with
  | Err e => mret (Err e)
  | Ok a => connect_addr env magic nonce (dial a) a c
  end.
End Connman.

(** [save_peers] writes the table of the connection manager when it has a directory. *)
Definition save_peers {HO : HashOrder} {P : Persistence} (data_dir : option bytes) (c : Connman) : option bytes :=
  match data_dir with Some _ => Some (save (cm_addr_man c)) | None => None end.
