(* ===== verification/TransportProofs.v ===== *)
(** * What a connection delivers

    [transport_fifo]: in every state a connection can reach, with writes and reads cut
    anywhere, errors, timeouts and disconnections at any point, an end has handed over
    a prefix of what the other end's channel accepted.  [transport_drains]: while the
    connection is up its tasks terminate, with everything delivered or with both ends
    waiting to answer a ping.  [unread_peer_blocks_senders]: nothing but the other end
    or the socket releases a sender that waits for the channel of an end that is not
    read.  [schedule_spec]: how often the periodic tasks run. *)

From S2P Require Import Prelude Wire Hash Params BlockFile P2P P2PProofs AddrMan PeerTable Sync SyncProofs Peers Downloader Connect NetProofs Transport.

Section Link.
Context {D : Digests} {DO : DigestsOk D} (magic : Magic) (capacity : nat).

(** ** One direction *)

Definition stream (ms : list Message) : bytes := concat (map (frame magic) ms).
Lemma stream_snoc ms m : stream (ms ++ [m]) = stream ms ++ frame magic m.
Proof. unfold stream. rewrite map_app, concat_app. cbn. by rewrite app_nil_r. Qed.

(** [taken] are the messages the writer has taken, [w] the bytes it has written and
    [r] those the other end has read. *)
Definition flow (acc q : list Message) (wr : Writer) (out buf : bytes) (rd : Reader) (got : list Message) : Prop :=
  exists taken w r, acc = taken ++ q /\ w = r ++ out /\
    match wr with
    | WIdle => w = stream taken
    | WWriting rest => rest <> [] /\ w ++ rest = stream taken
    | WExited => w `prefix_of` stream taken
    end /\
    match rd with
    | RReading _ => drain magic r = (got, buf)
    | RHandling ms => ms <> [] /\ drain magic r = (got ++ ms, buf)
    | RExited => got `prefix_of` (drain magic r).1
    end.
Definition flows (a b : End) : Prop := flow (e_accepted a) (e_queue a) (e_writer a) (e_out a) (e_buf b) (e_reader b) (e_got b).

Section Flow.
Context (acc q : list Message) (out buf : bytes) (rd : Reader) (got : list Message).
Lemma flow_enqueue wr m : flow acc q wr out buf rd got -> flow (acc ++ [m]) (q ++ [m]) wr out buf rd got.
Proof. intros (taken & w & r & -> & H). exists taken, w, r. by rewrite app_assoc. Qed.
Lemma flow_take m : flow acc (m :: q) WIdle out buf rd got -> flow acc q (writer_next (frame magic m)) out buf rd got.
Proof.
  intros (taken & w & r & -> & Hw & -> & Hr). exists (taken ++ [m]), (stream taken), r. split_and!; [by rewrite <- app_assoc|done| |done].
  rewrite stream_snoc. destruct (frame magic m); cbn [writer_next]; [by rewrite app_nil_r|by split].
Qed.
Lemma flow_write rest n : flow acc q (WWriting rest) out buf rd got -> flow acc q (writer_next (drop n rest)) (out ++ take n rest) buf rd got.
Proof.
  intros (taken & w & r & -> & -> & (_ & Hw) & Hr). exists taken, (r ++ out ++ take n rest), r. split_and!; [done|done| |done].
  assert ((r ++ out ++ take n rest) ++ drop n rest = stream taken) as H by (rewrite <- Hw, <- !app_assoc, take_drop; done).
  destruct (drop n rest); cbn [writer_next]; [by rewrite <- H, app_nil_r|by split].
Qed.
Lemma flow_writer_exit wr : flow acc q wr out buf rd got -> flow acc q WExited out buf rd got.
Proof.
  intros (taken & w & r & -> & Hw & Hwr & Hr). exists taken, w, r. split_and!; [done|done| |done].
  destruct wr; [by rewrite Hwr|destruct Hwr as [_ <-]; by eexists|done].
Qed.
End Flow.
Lemma flow_read acc q wr out buf since got n t : flow acc q wr out buf (RReading since) got ->
  flow acc q wr (drop n out) (drain magic (buf ++ take n out)).2 (reader_next t (drain magic (buf ++ take n out)).1) got.
Proof.
  intros (taken & w & r & -> & -> & Hw & Hr). exists taken, (r ++ out), (r ++ take n out).
  split_and!; [done|by rewrite <- app_assoc, take_drop|done|]. pose proof (drain_app magic r (take n out) got buf Hr) as Hd.
  destruct (drain magic (buf ++ take n out)) as [[|m ms] rest]; cbn [reader_next fst snd]; rewrite Hd; [by rewrite app_nil_r|done].
Qed.
Lemma flow_handle acc q wr out buf m ms got t : flow acc q wr out buf (RHandling (m :: ms)) got ->
  flow acc q wr out buf (reader_next t ms) (got ++ [m]).
Proof.
  intros (taken & w & r & -> & -> & Hw & (_ & Hr)). exists taken, (r ++ out), r. split_and!; [done..|].
  assert (got ++ m :: ms = (got ++ [m]) ++ ms) as E by (by rewrite <- app_assoc). rewrite E in Hr.
  destruct ms; cbn [reader_next]; [by rewrite app_nil_r in Hr|done].
Qed.
Lemma flow_reader_exit acc q wr out buf rd got : flow acc q wr out buf rd got -> flow acc q wr out buf RExited got.
Proof.
  intros (taken & w & r & -> & Hw & Hwr & Hr). exists taken, w, r. split_and!; [done..|].
  destruct rd; [by rewrite Hr|destruct Hr as [_ ->]; by eexists|done].
Qed.

(** A complete stream is delivered complete, any part of it a prefix. *)
Lemma drain_stream ms : magic_ok magic -> Forall sendable ms -> drain magic (stream ms) = (ms, []).
Proof using DO. intros Hm Hs. pose proof (drain_frames magic ms [] Hm Hs) as H. rewrite app_nil_r, drain_nil, app_nil_r in H. exact H. Qed.
Lemma drain_prefix ms r more : magic_ok magic -> Forall sendable ms -> stream ms = r ++ more -> (drain magic r).1 `prefix_of` ms.
Proof using DO.
  intros Hm Hs E. pose proof (drain_stream ms Hm Hs) as Hd. destruct (drain magic r) as [got buf] eqn:Er.
  rewrite E, (drain_app magic r more got buf Er) in Hd. destruct (drain magic (buf ++ more)) as [ms' ?]. injection Hd as <- _. by eexists.
Qed.
Lemma flow_prefix acc q wr out buf rd got : magic_ok magic -> flow acc q wr out buf rd got -> Forall sendable acc ->
  match rd with RHandling ms => got ++ ms | _ => got end `prefix_of` acc.
Proof using DO.
  intros Hm (taken & w & r & -> & -> & Hw & Hr) [Hs _]%Forall_app.
  assert ((drain magic r).1 `prefix_of` taken) as Hp.
  { destruct wr as [|rest|].
    - by apply (drain_prefix taken r out).
    - destruct Hw as [_ Hw]. apply (drain_prefix taken r (out ++ rest)); [done..|by rewrite app_assoc].
    - destruct Hw as [x Hw]. apply (drain_prefix taken r (out ++ x)); [done..|by rewrite app_assoc]. }
  apply prefix_app_r. destruct rd; [by rewrite Hr in Hp|destruct Hr as [_ Hr]; by rewrite Hr in Hp|by etrans].
Qed.

(** ** Every step keeps both directions *)

Lemma send_flows m a b a' : node_send m a = Some (Ok a') -> flows a b -> flows b a -> flows a' b /\ flows b a'.
Proof.
  unfold node_send. intros H F1 F2. assert (a' = push_message m a) as ->.
  { destruct (e_writer a); [..|done]; (destruct (_ <? _)%nat; [by injection H|done]). }
  split; [by apply flow_enqueue|exact F2].
Qed.
Lemma handle_flows m ms a b a' t : e_reader a = RHandling (m :: ms) -> reader_handles m a = Some a' -> flows a b -> flows b a ->
  let a2 := set_reader (e_buf a) (reader_next t ms) (e_got a ++ [m]) a' in flows a2 b /\ flows b a2.
Proof.
  intros Hr H F1 F2. assert (flow (e_accepted b) (e_queue b) (e_writer b) (e_out b) (e_buf a) (reader_next t ms) (e_got a ++ [m])) as F3.
  { unfold flows in F2. rewrite Hr in F2. by apply flow_handle. }
  assert (flows a' b) as F4; [|by split]. destruct m; try (injection H as <-; exact F1). cbn in H.
  destruct (node_send _ a) as [[a1|e]|] eqn:E; [|by injection H as <-|done]. injection H as <-. by destruct (send_flows _ _ _ _ E F1 F2).
Qed.
Lemma task_flows t a b a' b' : task_step magic capacity t a b a' b' -> flows a b -> flows b a -> flows a' b' /\ flows b' a'.
Proof.
  intros H F1 F2. destruct H as [a b m q Hw Hq|a b rest n Hw Hn Hc|a b since n Hr Hn Hc|a b m ms a' Hr Hh].
  - split; [|exact F2]. unfold flows in *. rewrite Hw, Hq in F1. by apply flow_take.
  - split; [|exact F2]. unfold flows in *. rewrite Hw in F1. by apply flow_write.
  - split; [exact F1|]. unfold flows in *. rewrite Hr in F2. by eapply flow_read.
  - by apply handle_flows.
Qed.
Lemma outer_flows t a b a' b' : outer_step t a b a' b' -> flows a b -> flows b a -> flows a' b' /\ flows b' a'.
Proof.
  intros H F1 F2. destruct H; try (split; [exact F1|exact F2]); try (split; [exact F1|by eapply flow_reader_exit]);
    try (split; [by eapply flow_writer_exit|exact F2]).
  - by eapply send_flows.
  - split; [|exact F2]. unfold flows in *. cbn. match goal with E : e_queue _ = [] |- _ => rewrite E in F1 end. by eapply flow_writer_exit.
Qed.
Lemma both_flows (step : Z -> End -> End -> End -> End -> Prop) t l l' :
  (forall a b a' b', step t a b a' b' -> flows a b -> flows b a -> flows a' b' /\ flows b' a') ->
  both (step t) l l' -> flows l.1 l.2 /\ flows l.2 l.1 -> flows l'.1 l'.2 /\ flows l'.2 l'.1.
Proof. intros Hs [H|H] [F1 F2]; destruct (Hs _ _ _ _ H); auto. Qed.
Lemma start_flows t1 t2 : flows (end_start t1) (end_start t2).
Proof. exists [], [], []. done. Qed.
Lemma connected_flows l : reachable magic capacity l -> flows l.1 l.2 /\ flows l.2 l.1.
Proof.
  intros (t1 & t2 & H). assert (flows (end_start t1, end_start t2).1 (end_start t1, end_start t2).2 /\
    flows (end_start t1, end_start t2).2 (end_start t1, end_start t2).1) as F by (split; apply start_flows).
  revert F. induction H as [l|l l' l'' Hs _ IH]; intros F; [done|]. apply IH. destruct Hs as (t & [Hs|Hs]).
  - by apply (both_flows (task_step magic capacity) t l l' (task_flows t)).
  - by apply (both_flows outer_step t l l' (outer_flows t)).
Qed.

(** C15: A connection delivers in order, once, and nothing else.  In every state two
    connected nodes can reach, whatever the messages queued, however the writes and
    reads are cut, and with write errors, read errors, end of stream, the inactivity
    timeout and disconnections at any point: the messages an end has handed to its
    peer manager are a prefix of those the other end's channel accepted. *)
Theorem transport_fifo (a b : End) : magic_ok magic -> reachable magic capacity (a, b) ->
  (Forall sendable (e_accepted a) -> e_got b `prefix_of` e_accepted a) /\
  (Forall sendable (e_accepted b) -> e_got a `prefix_of` e_accepted b).
Proof using DO.
  intros Hm H. destruct (connected_flows _ H) as [F1 F2].
  assert (forall acc q wr out buf rd got, flow acc q wr out buf rd got -> Forall sendable acc -> got `prefix_of` acc) as Hp.
  { intros acc q wr out buf rd got F Hs. pose proof (flow_prefix _ _ _ _ _ _ _ Hm F Hs) as P. destruct rd; [done| |done]. by eapply prefix_app_l. }
  split; intros Hs; eapply Hp; done.
Qed.

(** ** The tasks terminate *)

(** A ping is worth more than the pong it causes; a byte moves from the writer to the
    socket and from there to the reader. *)
Definition burden (m : Message) : nat := match m with MPing _ => 3 | _ => 1 end.
Definition burdens (ms : list Message) : nat := sum_list_with burden ms.
Definition cost (m : Message) : nat := 1 + 2 * length (frame magic m).
Definition unwritten (w : Writer) : nat := match w with WWriting rest => length rest | _ => 0 end.
Definition pipe (e : End) : nat := sum_list_with cost (e_queue e) + 2 * unwritten (e_writer e) + length (e_out e).
Definition pending (a b : End) : nat := 100 * (burdens (e_accepted a) - burdens (e_got b)) + pipe a.
Definition work (l : End * End) : nat := pending l.1 l.2 + pending l.2 l.1.

Lemma weights_app l k : burdens (l ++ k) = (burdens l + burdens k)%nat.
Proof. apply sum_list_with_app. Qed.
Lemma unwritten_next rest : unwritten (writer_next rest) = length rest.
Proof. by destruct rest. Qed.
Lemma cost_pong n : magic_ok magic -> cost (MPong (mkPong n)) = 65%nat.
Proof using DO. intros Hm. unfold cost. rewrite length_frame by done. reflexivity. Qed.

(** What a message handed over takes away, and what its answer adds. *)
Lemma handle_work m ms a b a' t : magic_ok magic -> e_reader a = RHandling (m :: ms) -> reader_handles m a = Some a' ->
  flows b a -> Forall sendable (e_accepted b) ->
  (work (set_reader (e_buf a) (reader_next t ms) (e_got a ++ [m]) a', b) < work (a, b))%nat.
Proof using DO.
  intros Hm Hr H F Hs. assert (burdens (e_got a) + burden m <= burdens (e_accepted b))%nat as Hle.
  { pose proof (flow_prefix _ _ _ _ _ _ _ Hm F Hs) as [k P]. rewrite Hr in P. rewrite P, !weights_app. cbn. lia. }
  assert (e_got a' = e_got a /\ (pending a' b <= pending a b + if bool_decide (burden m = 3%nat) then 165 else 0)%nat) as [Hg Hp].
  { destruct m; try (injection H as <-; split; [done|unfold pending; lia]). cbn in H. destruct (node_send _ a) as [[a1|e]|] eqn:E; [| |done].
    2: { injection H as <-. split; [done|lia]. }
    injection H as <-. unfold node_send in E.
    assert (a1 = push_message (MPong (mkPong (ping_nonce m))) a) as -> by (destruct (e_writer a); [..|done]; (destruct (_ <? _)%nat; [by injection E|done])).
    split; [done|]. unfold pending, pipe. cbn [e_accepted e_queue e_writer e_out push_message]. rewrite sum_list_with_app, weights_app. cbn [sum_list_with burdens].
    rewrite (cost_pong _ Hm), bool_decide_true by done. change (burden (MPong _)) with 1%nat. lia. }
  unfold work. cbn [fst snd]. assert (pending (set_reader (e_buf a) (reader_next t ms) (e_got a ++ [m]) a') b = pending a' b) as -> by done.
  unfold pending at 2 4. cbn [e_got set_reader]. rewrite weights_app. cbn [burdens sum_list_with] in *.
  destruct (bool_decide_reflect (burden m = 3%nat)); [|destruct m; cbn in *]; lia.
Qed.
Ltac ends := unfold work, pending, pipe; cbn [fst snd e_accepted e_got e_queue e_writer e_out set_writer set_reader sum_list_with unwritten].
Lemma task_work t a b a' b' : magic_ok magic -> task_step magic capacity t a b a' b' -> flows b a -> Forall sendable (e_accepted b) ->
  (work (a', b') < work (a, b))%nat.
Proof using DO.
  intros Hm H F Hs. destruct H as [a b m q Hw Hq|a b rest n Hw Hn Hc|a b since n Hr Hn Hc|a b m ms a' Hr Hh].
  - ends. rewrite Hw, Hq, unwritten_next. cbn [sum_list_with unwritten]. assert (cost m = 1 + 2 * length (frame magic m))%nat as -> by done. lia.
  - ends. rewrite Hw, unwritten_next, length_drop, length_app, length_take. cbn [unwritten]. lia.
  - ends. rewrite length_drop. lia.
  - by apply handle_work.
Qed.
Lemma work_swap a b : work (a, b) = work (b, a).
Proof. unfold work. cbn. lia. Qed.

(** ** Where they stop *)

(** An end waits to answer a ping, with its channel and its socket full. *)
Definition blocked (e : End) : Prop :=
  (exists p ms, e_reader e = RHandling (MPing p :: ms)) /\ (NODE_CHANNEL <= length (e_queue e))%nat /\
  (exists rest, e_writer e = WWriting rest) /\ (capacity <= length (e_out e))%nat.
Definition up (e : End) : Prop := e_writer e <> WExited /\ e_reader e <> RExited.

Lemma reader_stops a b : flows b a -> up a -> (forall t a' b', ~ task_step magic capacity t a b a' b') ->
  (exists since, e_reader a = RReading since /\ e_out b = []) \/
  (exists p ms, e_reader a = RHandling (MPing p :: ms)) /\ (NODE_CHANNEL <= length (e_queue a))%nat.
Proof.
  intros F [Hw Hr] Hq. destruct (e_reader a) as [since|ms|] eqn:Er; [| |done].
  - left. exists since. split; [done|]. destruct (e_out b) as [|x out] eqn:Eo; [done|]. exfalso.
    eapply (Hq 0), (ts_read magic capacity 0 a b since 1 Er); [rewrite Eo; cbn; lia|apply Nat.leb_le; reflexivity].
  - right. destruct F as (? & ? & ? & _ & _ & _ & F). rewrite Er in F. destruct ms as [|m ms]; [by destruct F|].
    destruct (reader_handles m a) as [a'|] eqn:Eh; [exfalso; by eapply (Hq 0), ts_handle|].
    destruct m; try done. cbn in Eh. unfold node_send in Eh. split; [by eexists _, _|].
    destruct (e_writer a); [..|done]; (destruct (Nat.ltb_spec (length (e_queue a)) NODE_CHANNEL); [done|lia]).
Qed.
Lemma writer_stops a b : flows a b -> up a -> (forall t a' b', ~ task_step magic capacity t a b a' b') ->
  (e_writer a = WIdle /\ e_queue a = []) \/ ((exists rest, e_writer a = WWriting rest) /\ (capacity <= length (e_out a))%nat).
Proof.
  intros F [Hw Hr] Hq. destruct (e_writer a) as [|rest|] eqn:Ew; [| |done].
  - left. split; [done|]. destruct (e_queue a) eqn:Eq; [done|]. exfalso. by eapply (Hq 0), ts_take.
  - right. split; [by eexists|]. destruct F as (? & ? & ? & _ & _ & F & _). rewrite Ew in F. destruct F as [Hne _].
    destruct (decide (capacity <= length (e_out a))%nat) as [|Hc]; [done|]. exfalso.
    eapply (Hq 0), (ts_write magic capacity 0 a b rest 1 Ew); [destruct rest; [done|cbn; lia]|lia].
Qed.
(** Both readers wait and both writers are idle: everything has been delivered. *)
Lemma idle_delivered a b since : magic_ok magic -> flows a b -> Forall sendable (e_accepted a) -> e_reader b = RReading since -> e_out a = [] ->
  e_writer a = WIdle -> e_queue a = [] -> e_got b = e_accepted a.
Proof using DO.
  intros Hm (taken & w & r & Ha & Hw & Hwr & Hr) Hs Er Eo Ew Eq. rewrite Er in Hr. rewrite Ew in Hwr. rewrite Eq, app_nil_r in Ha. rewrite Eo, app_nil_r in Hw.
  subst w r. rewrite Ha in Hs |- *. rewrite (drain_stream taken Hm Hs) in Hr. by injection Hr.
Qed.

(** C16: While a connection is up its tasks make progress and only stop when all is
    delivered, with one exception.  Every step of the two writers and the two readers
    lowers [work], so that they come to rest when nothing new is sent; at rest either
    each end has handed over everything the other's channel accepted, or both ends
    wait to answer a ping with their channels and sockets full, which no step of
    theirs resolves. *)
Theorem transport_drains (a b : End) : magic_ok magic -> (0 < capacity)%nat -> reachable magic capacity (a, b) -> up a -> up b ->
  Forall sendable (e_accepted a) -> Forall sendable (e_accepted b) ->
  (forall l', link_task magic capacity (a, b) l' -> work l' < work (a, b))%nat /\
  ((forall l', ~ link_task magic capacity (a, b) l') ->
   (e_got b = e_accepted a /\ e_got a = e_accepted b) \/ (blocked a /\ blocked b)).
Proof using DO.
  intros Hm Hc H Ua Ub Sa Sb. destruct (connected_flows _ H) as [F1 F2]. cbn [fst snd] in F1, F2. split.
  - intros [a' b'] (t & [Ht|Ht]); cbn [fst snd] in Ht; [by eapply task_work|]. rewrite (work_swap a'), (work_swap a). by eapply task_work.
  - intros Hq. assert (forall t a' b', ~ task_step magic capacity t a b a' b') as Qa by (intros t a' b' Ht; apply (Hq (a', b')); exists t; by left).
    assert (forall t b' a', ~ task_step magic capacity t b a b' a') as Qb by (intros t b' a' Ht; apply (Hq (a', b')); exists t; by right).
    assert (0 < NODE_CHANNEL)%nat as Hch by (apply Nat.ltb_lt; reflexivity).
    assert (forall x : bytes, x = [] -> (capacity <= length x)%nat -> False) as Hz by (intros x -> Hx; cbn in Hx; lia).
    destruct (reader_stops a b F2 Ua Qa) as [(sa & Ra & Ob)|(Pa & Na)], (reader_stops b a F1 Ub Qb) as [(sb & Rb & Oa)|(Pb & Nb)],
      (writer_stops a b F1 Ua Qa) as [[Wa Ea]|[Wa Ca]], (writer_stops b a F2 Ub Qb) as [[Wb Eb]|[Wb Cb]];
      try (exfalso; eapply (Hz (e_out a)); eassumption); try (exfalso; eapply (Hz (e_out b)); eassumption); try (exfalso; rewrite Ea in Na; cbn in Na; lia); try (exfalso; rewrite Eb in Nb; cbn in Nb; lia).
    + left. split; [by eapply (idle_delivered a b)|by eapply (idle_delivered b a)].
    + right. split; split_and!; done.
Qed.
(** ** An end that is not read *)

(** The channel of [a] is full and its writer waits for the socket. *)
Definition stuck (a : End) : Prop :=
  (NODE_CHANNEL <= length (e_queue a))%nat /\ (exists rest, e_writer a = WWriting rest) /\ (capacity <= length (e_out a))%nat.

Lemma stuck_send a m : stuck a -> node_send m a = None.
Proof. intros (Hq & (rest & Hw) & _). unfold node_send. rewrite Hw. destruct (Nat.ltb_spec (length (e_queue a)) NODE_CHANNEL); [lia|done]. Qed.

Lemma blocked_stuck a b : blocked a -> blocked b -> forall l', ~ link_task magic capacity (a, b) l'.
Proof.
  assert (forall a b t a' b', blocked a -> blocked b -> ~ task_step magic capacity t a b a' b') as Hs.
  { intros x y t x' y' ((p & ms & Hr) & Hq & (rest & Hw) & Ho) _ H. destruct H; [congruence|lia|congruence|].
    match goal with E : e_reader _ = RHandling (_ :: _), Hm : reader_handles _ _ = _ |- _ => rewrite Hr in E; injection E as <- <-; cbn in Hm end.
    rewrite stuck_send in *; [done|]. split_and!; eauto. }
  intros Ha Hb l' (t & [H|H]); by eapply Hs in H.
Qed.

(** Only the other end's reads, or an error of the socket, release an end whose
    channel and socket are full: until then every send to it waits.  The inactivity
    timeout and a disconnection end its reader, but not the writer, and a sender that
    waits keeps waiting. *)
Lemma unread_peer_blocks_senders (a b : End) (m : Message) : stuck a ->
  node_send m a = None /\ node_send m (disconnect a) = None /\
  forall l', link_step magic capacity (a, b) l' ->
    stuck l'.1 \/ (length (e_out l'.1) < length (e_out a))%nat \/ e_writer l'.1 = WExited.
Proof.
  intros Ha. split_and!; [by apply stuck_send..|]. pose proof Ha as (Hq & (rest & Hw) & Ho).
  intros [a' b'] (t & [[H|H]|[H|H]]); cbn [fst snd] in *.
  - left. inversion H; subst; [congruence|lia|exact Ha|].
    match goal with E : reader_handles ?x a = Some ?y |- _ => assert (y = a) as ->; [|exact Ha]; destruct x; try (by injection E); cbn in E;
      by rewrite stuck_send in E end.
  - inversion H; subst; try (by left). right. left. cbn. rewrite length_drop. lia.
  - inversion H; subst; try (left; exact Ha); try congruence; [|by right; right].
    match goal with E : node_send _ a = _ |- _ => by rewrite stuck_send in E end.
  - left. inversion H; subst; exact Ha.
Qed.
End Link.

(** ** What a closed connection leaves *)

Section Closed.
Context {C : Type} {VI : ValidationInterface C} {SP : SyncProvider C} {D : Digests} {H : DefaultHasher}.

(** Whatever the messages of a connection did, when its reader has ended the peer is
    in neither map and no block waits for it. *)
Lemma closed_forgotten (HO : HashOrder) (env : NetEnv) (id : NodeId) (e : End) (n : Net C) : e_reader e = RExited ->
  let n' := run_events (map (fun ev => (HO, env, ev)) (end_events id e)) n in
  n_peers n' !! id = None /\ pt_peers (n_table n') !! id = None /\
  forall hash f, in_flight_blocks (download_state (n_sync n')) !! hash = Some f -> flight_peer f <> id.
Proof.
  intros Hr n'. subst n'. unfold end_events. rewrite Hr, map_app. unfold run_events. rewrite fold_left_app. cbn [map fold_left run_event].
  set (n1 := fold_left _ _ n). clearbody n1. destruct n1 as [t s c p g cm pa]. cbn. split_and!.
  - apply lookup_delete_eq.
  - apply lookup_delete_eq.
  - intros hash f Hf. assert (in_flight_blocks (download_state (on_peer_disconnect id s)) !! hash = Some f) as Hf' by exact Hf.
    unfold on_peer_disconnect, finish_header_request in Hf'. cbn [header_request on_download] in Hf'.
    assert (in_flight_blocks (release_peer id (download_state s)) !! hash = Some f) as Hg.
    { destruct (header_request s) as [r|]; [destruct (bool_decide _)|]; exact Hf'. }
    by apply map_lookup_filter_Some in Hg as [_ Hg].
Qed.
End Closed.

(** ** The schedule *)

Definition ticks (k : NetTask) (s : Schedule) : nat := length (filter (fun p => p.2 = k) (turns s)).
Lemma ticks_snoc k j d w t ts : ticks k (mkSchedule t d w (ts ++ [(t, j)])) = (ticks k (mkSchedule t d w ts) + if decide (j = k) then 1 else 0)%nat.
Proof. unfold ticks. cbn [turns]. rewrite filter_app, length_app. f_equal. rewrite filter_cons, filter_nil. cbn [snd]. by case_decide. Qed.
Lemma task_period_pos k : 0 < task_period k.
Proof. by destruct k. Qed.

(** A task has run once at the start and at most once more for every full period
    since; while it has run less often it is due. *)
Lemma schedule_spec (t0 : Z) (s : Schedule) (k : NetTask) : rtc schedule_step (schedule_start t0) s ->
  t0 <= now s /\ due s k = t0 + task_period k * Z.of_nat (ticks k s) /\
  Z.of_nat (ticks k s) <= (now s - t0) / task_period k + 1 /\
  (Z.of_nat (ticks k s) <= (now s - t0) / task_period k -> due s k <= now s).
Proof.
  intros H. assert (t0 <= now s /\ due s k = t0 + task_period k * Z.of_nat (ticks k s) /\ task_period k * Z.of_nat (ticks k s) <= now s - t0 + task_period k) as (H1 & H2 & H3).
  { pose proof (task_period_pos k) as Hp. remember (schedule_start t0) as s0 eqn:E0.
    assert (t0 <= now s0 /\ due s0 k = t0 + task_period k * Z.of_nat (ticks k s0) /\ task_period k * Z.of_nat (ticks k s0) <= now s0 - t0 + task_period k) as Hs
      by (subst s0; unfold ticks; cbn; lia). clear E0.
    induction H as [s|s s' s'' Hs1 _ IH]; [done|]. apply IH. clear IH. destruct Hs as (I1 & I2 & I3).
    destruct Hs1 as [s t Ht|s j Hj|s|s Hw]; cbn [now due]; [by split_and!; [lia|done|change (ticks k _) with (ticks k s); lia]| |done..].
    rewrite ticks_snoc. assert (ticks k (mkSchedule (now s) (next_due j (due s)) (woken s) (turns s)) = ticks k s) as -> by done.
    unfold next_due. destruct (decide (k = j)) as [->|Hne]; [rewrite decide_True by done|rewrite decide_False by congruence]; lia. }
  pose proof (task_period_pos k) as Hp. split_and!; [done|done| |].
  - assert (Z.of_nat (ticks k s) - 1 <= (now s - t0) / task_period k) by (apply Z.div_le_lower_bound; lia). lia.
  - intros Hd. rewrite H2. pose proof (Z.mul_div_le (now s - t0) (task_period k) Hp). nia.
Qed.

(** ** A concrete connection: a ping is sent, written in two parts, read and answered *)

Definition sample_ping : Message := MPing (mkPing 5).
Definition sample_frame : bytes := @frame toy_digests REGTEST sample_ping.
Definition sample_a1 : End := push_message sample_ping (end_start 0).
Definition sample_a2 : End := set_writer [] (writer_next sample_frame) [] sample_a1.
Definition sample_a3 : End := set_writer [] (writer_next (drop 10 sample_frame)) (take 10 sample_frame) sample_a2.
Definition sample_a4 : End := set_writer [] WIdle sample_frame sample_a3.
Definition sample_a5 : End := set_writer [] WIdle [] sample_a4.
Definition sample_b1 : End := set_reader [] (RHandling [sample_ping]) [] (end_start 0).
Definition sample_b2 : End := set_reader [] (RReading 1) [sample_ping] (push_message (MPong (mkPong 5)) sample_b1).

Lemma sample_connected : @reachable toy_digests REGTEST 64 (sample_a1, end_start 0) /\ @reachable toy_digests REGTEST 64 (sample_a5, sample_b2).
Proof.
  assert (@link_step toy_digests REGTEST 64 (end_start 0, end_start 0) (sample_a1, end_start 0)) as H1.
  { exists 0. right. left. apply (os_send 0 (end_start 0) (end_start 0) sample_ping); [left; cbn; lia|reflexivity]. }
  split; [exists 0, 0; by apply rtc_once|]. exists 0, 0. eapply rtc_l; [exact H1|].
  eapply (rtc_l _ _ (sample_a2, end_start 0)).
  { exists 0. left. left. apply (@ts_take toy_digests REGTEST 64 0 sample_a1 (end_start 0) sample_ping []); reflexivity. }
  eapply (rtc_l _ _ (sample_a3, end_start 0)).
  { exists 0. left. left. apply (@ts_write toy_digests REGTEST 64 0 sample_a2 (end_start 0) sample_frame 10); [reflexivity|vm_compute; lia..]. }
  eapply (rtc_l _ _ (sample_a4, end_start 0)).
  { exists 0. left. left. refine (@ts_write toy_digests REGTEST 64 0 sample_a3 (end_start 0) (drop 10 sample_frame) 22 _ _ _); [reflexivity|vm_compute; lia..]. }
  eapply (rtc_l _ _ (sample_a5, sample_b1)).
  { exists 0. left. right. refine (@ts_read toy_digests REGTEST 64 0 (end_start 0) sample_a4 0 32 _ _ _); [reflexivity|vm_compute; lia|].
    apply Nat.leb_le. reflexivity. }
  eapply rtc_l; [|apply rtc_refl]. exists 1. left. right.
  apply (@ts_handle toy_digests REGTEST 64 1 sample_b1 sample_a5 sample_ping [] (push_message (MPong (mkPong 5)) sample_b1)); reflexivity.
Qed.
Lemma sample_sendable : Forall sendable [sample_ping] /\ Forall sendable [MPong (mkPong 5)].
Proof. split; (apply Forall_cons; split; [|constructor]); (split; [|split; [|vm_compute; discriminate]]); done. Qed.

Lemma transport_fifo_witness : e_got sample_b2 `prefix_of` e_accepted sample_a5.
Proof.
  refine (proj1 (@transport_fifo toy_digests toy_digests_ok REGTEST 64 sample_a5 sample_b2 _ _) _).
  - exact demo_magic_ok.
  - exact (proj2 sample_connected).
  - exact (proj1 sample_sendable).
Defined.
Lemma transport_drains_witness : (@work toy_digests REGTEST (sample_a2, end_start 0) < @work toy_digests REGTEST (sample_a1, end_start 0))%nat.
Proof.
  refine (proj1 (@transport_drains toy_digests toy_digests_ok REGTEST 64 sample_a1 (end_start 0) _ _ _ _ _ _ _) (sample_a2, end_start 0) _).
  - exact demo_magic_ok.
  - lia.
  - exact (proj1 sample_connected).
  - split; discriminate.
  - split; discriminate.
  - exact (proj1 sample_sendable).
  - constructor.
  - exists 0. left. apply (@ts_take toy_digests REGTEST 64 0 sample_a1 (end_start 0) sample_ping []); reflexivity.
Defined.

(** The other end has sent pings and reads none of the answers. *)
Definition sample_stuck : End :=
  mkEnd (replicate NODE_CHANNEL (MPong (mkPong 5))) 1 false (WWriting [7]) (replicate 64 0) [] (RHandling [sample_ping]) [] [].
Lemma unread_peer_blocks_senders_witness : node_send sample_ping (disconnect sample_stuck) = None.
Proof.
  refine (proj1 (proj2 (@unread_peer_blocks_senders toy_digests REGTEST 64 sample_stuck (end_start 0) sample_ping _))).
  split; [apply Nat.leb_le; reflexivity|split; [by eexists|apply Nat.leb_le; reflexivity]].
Defined.
