(* ===== verification/Monitor.v ===== *)
(** * The terminal monitor

    cmd/monitor/main.rs: the application's state, its three requests, the texts it
    shows and its loop over keys and ticks, against the node's own JSON-RPC interface
    (Rpc.v).  Drawing on the terminal and the HTTP client are third-party code: what a
    request returns is an argument, and a frame is the texts of its widgets.

    [monitor_shows_node]: after an update from a node the frame shows that node's tips
    and peers; [update_failure] and [quit_asks_nothing]: the other outcomes. *)

From Stdlib Require Import Ascii.
From S2P Require Import Prelude Wire Hash Transaction Block Params Coins Taproot Engine Validation BlockFile Store Chainstate Node P2P AddrMan PeerTable Rpc RpcProofs Transport.

#[local] Open Scope string_scope.
#[local] Open Scope Z_scope.

(** ** The state *)

Record App : Type := mkApp {
  rpc_url : string;
  blockchain_info : option Value;
  network_info : option Value;
  app_peers : list Value;
  last_update : string;
}.
Definition App_new (url : string) : App := mkApp url None None [] "Never".
Definition MONITOR_URL : string := "http://127.0.0.1:8332".

Definition as_array (v : Value) : option (list Value) := match v with JArray l => Some l | _ => None end.
Definition monitor_request (name : string) : RpcRequest := mkRequest (IdString "monitor") "1.0" name (Some []).

(** [update]: [post] is what each request meets, an error of the client or the JSON it
    reads; an error leaves what the requests before it have changed. *)
Definition set_blockchain_info (a : App) (res : Value) : App :=
  match member "result" res with Some r => mkApp (rpc_url a) (Some r) (network_info a) (app_peers a) (last_update a) | None => a end.
Definition set_network_info (a : App) (res : Value) : App :=
  match member "result" res with Some r => mkApp (rpc_url a) (blockchain_info a) (Some r) (app_peers a) (last_update a) | None => a end.
Definition set_app_peers (a : App) (res : Value) : App :=
  match member "result" res ≫= as_array with Some l => mkApp (rpc_url a) (blockchain_info a) (network_info a) l (last_update a) | None => a end.
Definition set_last_update (a : App) (t : string) : App := mkApp (rpc_url a) (blockchain_info a) (network_info a) (app_peers a) t.

Definition update {X} (post : RpcRequest -> result Value X) (time_text : string) (a : App) : result unit X * App :=
  match post (monitor_request "getblockchaininfo") with
  | Err e => (Err e, a)
  | Ok res =>
    let a := set_blockchain_info a res in
    match post (monitor_request "getnetworkinfo") with
    | Err e => (Err e, a)
    | Ok res =>
      let a := set_network_info a res in
      match post (monitor_request "getpeerinfo") with
      | Err e => (Err e, a)
      | Ok res => (Ok tt, set_last_update (set_app_peers a res) time_text)
      end
    end
  end.

(** ** The frame *)

(** [Value::to_string] of serde_json: an integer is its digits. *)
Class JsonText : Type := { json_text : Value -> string }.
Class JsonTextOk (J : JsonText) : Prop := json_text_int n : 0 <= n <= U64_MAX -> json_text (JInt n) = decimal n.

Section Frame.
Context {J : JsonText}.

Definition shown_text (key : string) (info : option Value) (otherwise : string) : string := default otherwise ((info ≫= member key) ≫= as_str).
Definition shown_value (key : string) (info : option Value) (otherwise : string) : string := default otherwise (json_text <$> (info ≫= member key)).

Definition header_text (a : App) : string :=
  " Bitcrab Node Monitor | Version: " +:+ shown_text "subversion" (network_info a) "bitcrab" +:+ " | Last Update: " +:+ last_update a +:+ " | Press 'q' to quit".

(** [&best_hash[..20]]: a panic when the cut is inside a character. *)
Definition continues (s : string) (n : nat) : bool :=
  match String.get n s with Some c => (128 <=? Z.of_N (N_of_ascii c)) && (Z.of_N (N_of_ascii c) <? 192) | None => false end.
Definition tip_text (best_hash : string) : option string :=
  if (20 <? String.length best_hash)%nat then
    if continues best_hash 20 then None else Some (String.substring 0 20 best_hash +:+ "...")
  else Some best_hash.
Definition stats_text (a : App) : option (list string) :=
  tip ← tip_text (shown_text "bestblockhash" (blockchain_info a) "unknown");
  Some [" Network    : " +:+ shown_text "chain" (blockchain_info a) "unknown";
        " Headers    : " +:+ shown_value "headers" (blockchain_info a) "0";
        " Blocks     : " +:+ shown_value "blocks" (blockchain_info a) "0";
        " Connections: " +:+ decimal (Z.of_nat (length (app_peers a)));
        " Block Tip : " +:+ tip].

Definition conntime_fmt (conntime : Z) : string :=
  if 3600 <? conntime then decimal (conntime / 3600) +:+ "h " +:+ decimal (conntime mod 3600 / 60) +:+ "m"
  else if 60 <? conntime then decimal (conntime / 60) +:+ "m " +:+ decimal (conntime mod 60) +:+ "s"
  else decimal conntime +:+ "s".
Definition peer_row (p : Value) : list string :=
  [shown_text "addr" (Some p) "?"; shown_text "subver" (Some p) "?"; shown_value "startingheight" (Some p) "?";
   conntime_fmt (default 0 (member "conntime" p ≫= as_u64))].
Definition table_header : list string := ["Address"; "User Agent"; "Height"; "Uptime"].

(** [ui]: the texts of the three widgets. *)
Definition ui (a : App) : option (string * list string * list (list string)) :=
  stats ← stats_text a; Some (header_text a, stats, table_header :: map peer_row (app_peers a)).
End Frame.

(** ** The loop (run_app) *)

Definition TICK_RATE : Z := from_millis 1000.
Inductive InputEvent : Type := KeyChar (c : ascii) | OtherEvent.

(** What one turn meets: the outcome of drawing and of polling for at most
    [poll_timeout], the instants at the check of the tick and after its update, and
    what the requests of a refresh and of a tick return. *)
Record Turn (X : Type) : Type := mkTurn {
  drawn : bool;
  polled : result (option InputEvent) string;
  refresh : RpcRequest -> result Value X;
  at_check : Z;
  tick_posts : RpcRequest -> result Value X;
  at_tick : Z;
  clock_text : string;
}.
Arguments drawn {X}.
Arguments polled {X}.
Arguments refresh {X}.
Arguments at_check {X}.
Arguments tick_posts {X}.
Arguments at_tick {X}.
Arguments clock_text {X}.

Definition poll_timeout (last_tick t : Z) : Z := Z.max 0 (TICK_RATE - (t - last_tick)).
Inductive AppOutcome : Type := Running (a : App) (last_tick : Z) | Finished (r : result unit string).

Definition tick {X} (turn : Turn X) (a : App) (last_tick : Z) : AppOutcome :=
  if TICK_RATE <=? at_check turn - last_tick then Running (update (tick_posts turn) (clock_text turn) a).2 (at_tick turn) else Running a last_tick.
Definition run_turn {X} (turn : Turn X) (a : App) (last_tick : Z) : AppOutcome :=
  if negb (drawn turn) then Finished (Err "draw") else
  match polled turn with
  | Err e => Finished (Err e)
  | Ok (Some (KeyChar "q")) => Finished (Ok tt)
  | Ok (Some (KeyChar "r")) => tick turn (update (refresh turn) (clock_text turn) a).2 last_tick
  | Ok _ => tick turn a last_tick
  end.
Fixpoint run_turns {X} (turns : list (Turn X)) (a : App) (last_tick : Z) : AppOutcome :=
  match turns with
  | [] => Running a last_tick
  | turn :: turns => match run_turn turn a last_tick with Running a last_tick => run_turns turns a last_tick | Finished r => Finished r end
  end.
(** [main] and [run_app] from their first update. *)
Definition run_app {X} (first : RpcRequest -> result Value X) (first_text : string) (start : Z) (turns : list (Turn X)) : AppOutcome :=
  run_turns turns (update first first_text (App_new MONITOR_URL)).2 start.

Lemma member_head key v l : member key (JObject ((key, v) :: l)) = Some v.
Proof. unfold member. cbn [list_find fst]. by rewrite decide_True. Qed.
Lemma member_tail key k v l : k <> key -> member key (JObject ((k, v) :: l)) = member key (JObject l).
Proof. intros Hk. unfold member. cbn [list_find fst]. rewrite decide_False by done. by destruct (list_find _ l) as [[? ?]|]. Qed.
(** A hexadecimal text is ASCII, so that it can be cut anywhere. *)
Lemma hex_digit_ascii c z : hex_digit c = Some z -> Z.of_N (N_of_ascii c) < 128.
Proof. unfold hex_digit. intros H. repeat case_match; [lia..|done]. Qed.
Lemma hex_pairs_ascii n s l : hex_pairs s = Some l -> continues s n = false.
Proof.
  assert (forall m, (String.length s <= m)%nat -> forall n l, hex_pairs s = Some l -> continues s n = false) as H; [|by apply (H (String.length s))].
  intros m. revert s. clear. induction m as [|m IH]; intros s Hm n l H.
  { destruct s; [by destruct n|cbn in Hm; lia]. }
  destruct s as [|x [|y s]]; [by destruct n|done|]. cbn [hex_pairs] in H. destruct (hex_digit x) eqn:Hx, (hex_digit y) eqn:Hy, (hex_pairs s) eqn:Hs; try done.
  apply hex_digit_ascii in Hx, Hy. unfold continues. destruct n as [|[|n]]; cbn [String.get].
  - apply andb_false_intro1, Z.leb_gt. lia.
  - apply andb_false_intro1, Z.leb_gt. lia.
  - cbn in Hm. by eapply (IH s ltac:(lia) n).
Qed.
Ltac find_members := repeat first [rewrite member_head|rewrite member_tail by done].

(** ** The node's own interface behind the requests *)

Section Node.
Context {C : Type} {RP : RpcNodeProvider C} {T : RpcText} {TO : RpcTextOk T} {D : Digests} {X : Hex} {HO : HashOrder} {J : JsonText} {JO : JsonTextOk J}.

(** The node answers each request as it stands at that moment. *)
Definition node_post (info net peers : RpcApiContext C) (req : RpcRequest) : result Value unit :=
  Ok (handle_http_request (if (method req =? "getblockchaininfo")%string then info else if (method req =? "getnetworkinfo")%string then net else peers) (Single req)).

Definition shown_peer (h : NodeHandle) : list string := [socket_addr_text (nh_addr h); "/bitcrab:0.1.0/"; decimal 0; "0s"].

Lemma post_info info net peers : node_post info net peers (monitor_request "getblockchaininfo") =
  Ok (rpc_response (monitor_request "getblockchaininfo") (get_blockchain_info info)).
Proof. done. Qed.
Lemma post_net info net peers : node_post info net peers (monitor_request "getnetworkinfo") =
  Ok (rpc_response (monitor_request "getnetworkinfo") (get_network_info net)).
Proof. done. Qed.
Lemma post_peers info net peers : node_post info net peers (monitor_request "getpeerinfo") =
  Ok (rpc_response (monitor_request "getpeerinfo") (get_peer_info peers)).
Proof. done. Qed.
Lemma response_result name r : member "result" (rpc_response (monitor_request name) r) = match r with Ok v => Some v | Err _ => None end.
Proof. by destruct r. Qed.

(** What an update from a node leaves: the answers, or what was there before when the
    node could not read its tips. *)
Lemma update_from_node info net peers t a : update (node_post info net peers) t a =
  (Ok tt, mkApp (rpc_url a) (match get_blockchain_info info with Ok v => Some v | Err _ => blockchain_info a end)
    (match get_network_info net with Ok v => Some v | Err _ => network_info a end)
    (imap peer_to_json (get_peers (ctx_peers peers) None)) t).
Proof.
  unfold update. rewrite post_info, post_net, post_peers. unfold set_blockchain_info, set_network_info, set_app_peers. rewrite !response_result.
  by destruct (get_blockchain_info info).
Qed.

Lemma row_of_peer i h : peer_row (peer_to_json i h) = shown_peer h.
Proof using JO. unfold peer_row, shown_peer, shown_text, shown_value, peer_to_json. cbn [mbind option_bind]. find_members. cbn -[decimal lower_hex]. by rewrite json_text_int. Qed.
Lemma rows_of_peers l : map peer_row (imap peer_to_json l) = map shown_peer l.
Proof using JO.
  assert (forall n, map peer_row (imap (fun i => peer_to_json (n + i)) l) = map shown_peer l) as H; [|exact (H O)].
  induction l as [|h l IH]; intros n; [done|]. cbn [imap map]. f_equal; [apply row_of_peer|]. rewrite <- (IH (S n)). f_equal. apply imap_ext. intros i x _. cbn. f_equal. lia.
Qed.

(** The monitor shows the node.  After an update against a node whose tips can be
    read, whatever was shown before, the frame has the node's chain, the heights of
    its header tip and of its validated tip, the number of its peers, the first twenty
    digits of the validated tip's hash, and a row per peer with its address; the other
    columns of a row are constants of the interface. *)
Lemma monitor_shows_node (info net peers : RpcApiContext C) (t : string) (a : App) (header_hash best_hash disk_hash : BlockHash)
    (header_height best_height disk_height : Z) :
  tip_of info rn_get_headers_tip = Ok (header_hash, header_height) -> tip_of info rn_get_best_block = Ok (best_hash, best_height) ->
  tip_of info rn_get_block_tip = Ok (disk_hash, disk_height) ->
  0 <= header_height <= U64_MAX -> 0 <= best_height <= U64_MAX ->
  hash_ok best_hash ->
  ui (update (node_post info net peers) t a).2 = Some (
    " Bitcrab Node Monitor | Version: /bitcrab:0.1.0/ | Last Update: " +:+ t +:+ " | Press 'q' to quit",
    [" Network    : " +:+ magic_text (ctx_magic info); " Headers    : " +:+ decimal header_height; " Blocks     : " +:+ decimal best_height;
     " Connections: " +:+ decimal (Z.of_nat (length (get_peers (ctx_peers peers) None))); " Block Tip : " +:+ String.substring 0 20 (hash_text best_hash) +:+ "..."],
    table_header :: map shown_peer (get_peers (ctx_peers peers) None)).
Proof using JO TO.
  intros H1 H2 H3 Hh Hb [Hl Hx]. rewrite update_from_node. cbn [snd]. unfold get_blockchain_info. rewrite H1, H2, H3. cbn [rbind].
  unfold ui, stats_text. cbn [blockchain_info network_info app_peers]. rewrite rows_of_peers.
  unfold get_network_info, header_text, shown_text, shown_value. cbn [mbind option_bind network_info last_update]. find_members.
  cbn [mbind option_bind as_str default option_map fmap option_fmap from_option id]. unfold tip_text. assert (20 <? String.length (hash_text best_hash) = true)%nat as ->.
  { unfold hash_text. rewrite hex_encode_length, length_reverse, Hl. done. }
  assert (continues (hash_text best_hash) 20 = false) as -> by (eapply hex_pairs_ascii, hex_encode_pairs, Forall_reverse, Hx).
  cbn [mbind option_bind]. rewrite !json_text_int, length_imap by done. done.
Qed.
End Node.

(** ** The other outcomes *)

(** A request that fails ends the update: what is shown of it and of the later ones
    stays, and so does the time of the last update. *)
Lemma update_failure {X} (post : RpcRequest -> result Value X) t a e a' : update post t a = (Err e, a') ->
  last_update a' = last_update a /\ app_peers a' = app_peers a /\
  (network_info a' = network_info a \/ exists v, post (monitor_request "getnetworkinfo") = Ok v /\ network_info a' = member "result" v).
Proof.
  unfold update. destruct (post (monitor_request "getblockchaininfo")) as [v1|]; [|intros [= _ <-]; auto].
  assert (last_update (set_blockchain_info a v1) = last_update a /\ app_peers (set_blockchain_info a v1) = app_peers a /\
    network_info (set_blockchain_info a v1) = network_info a) as (Hl & Hp & Hn) by (unfold set_blockchain_info; by destruct (member _ _)).
  destruct (post (monitor_request "getnetworkinfo")) as [v2|]; [|intros [= _ <-]; rewrite Hl, Hp, Hn; auto].
  destruct (post (monitor_request "getpeerinfo")); [done|]. intros [= _ <-]. unfold set_network_info.
  destruct (member "result" v2) eqn:E; cbn; rewrite ?Hl, ?Hp, ?Hn; [|auto]. split_and!; [done..|]. right. by exists v2.
Qed.

(** [q] ends the loop at once, and nothing is asked of the node in that turn. *)
Lemma quit_asks_nothing {X} (turn : Turn X) turns a last : drawn turn = true -> polled turn = Ok (Some (KeyChar "q")) ->
  run_turns (turn :: turns) a last = Finished (Ok tt).
Proof. intros Hd Hp. cbn [run_turns]. unfold run_turn. by rewrite Hd, Hp. Qed.
(** The check of the tick comes no later than a second after the last one when the
    poll keeps to its timeout. *)
Lemma check_in_time {X} (turn : Turn X) last t : last <= t -> at_check turn <= t + poll_timeout last t -> at_check turn <= Z.max t (last + TICK_RATE).
Proof. unfold poll_timeout. lia. Qed.

(** ** A concrete node *)

Definition sample_json : JsonText := {| json_text v := match v with JInt n => decimal n | _ => "" end |}.
Lemma sample_json_ok : JsonTextOk sample_json.
Proof. by intros n Hn. Qed.
Lemma monitor_shows_node_witness :
  @ui sample_json (update (@node_post bytes demo_node demo_text toy_digests hex_reference canonical_order demo_ctx demo_ctx demo_ctx) "12:00:00" (App_new MONITOR_URL)).2 =
  Some (" Bitcrab Node Monitor | Version: /bitcrab:0.1.0/ | Last Update: 12:00:00 | Press 'q' to quit",
    [" Network    : regtest"; " Headers    : 0"; " Blocks     : 0"; " Connections: 0"; " Block Tip : 00000000000000000000..."],
    [["Address"; "User Agent"; "Height"; "Uptime"]]).
Proof.
  rewrite (@monitor_shows_node bytes demo_node demo_text demo_text_ok toy_digests hex_reference canonical_order sample_json sample_json_ok demo_ctx demo_ctx demo_ctx
    "12:00:00" (App_new MONITOR_URL) ZERO_HASH ZERO_HASH ZERO_HASH 0 0 0).
  - reflexivity.
  - reflexivity.
  - reflexivity.
  - reflexivity.
  - split; discriminate.
  - split; discriminate.
  - split; [reflexivity|]. apply Forall_replicate. split; [discriminate|reflexivity].
Defined.
