(* ===== verification/Text.v ===== *)
(** * How the program writes and reads its values

    The texts of common/types/hash.rs, common/types/networks/mod.rs,
    common/types/script.rs, common/types/block.rs and script/opcode.rs: a block hash
    and a transaction identifier are shown reversed, as Bitcoin shows them, a Hash160
    as it is; a chain is read without regard to case; an opcode has a name of its own.

    [hash_roundtrip], [chain_roundtrip]: what is shown of a hash or a chain is read back.
    [opcode_names_distinct]: two opcodes never share a name. *)

From Stdlib Require Import Ascii.
From S2P Require Import Prelude Wire Hash Transaction Block Params ScriptOps Interpreter Rpc RpcProofs Research.

#[local] Open Scope string_scope.
#[local] Open Scope Z_scope.

(** ** Hashes *)

Inductive HashError : Type :=
  | WrongLength (context : string) (expected actual : Z)
  | InvalidHex (context reason : string).

Section Hashes.
Context {T : RpcText} {H : Hex}.

(** [Display] and [FromStr], the same code for the three types of 32 bytes. *)
Definition Hash256_text (h : Hash256) : string := hex_encode (reverse h).
Definition Txid_text (h : Hash256) : string := hex_encode (reverse h).
Definition Hash160_text (h : bytes) : string := hex_encode h.
Definition hash_from_str (context : string) (s : string) : result Hash256 HashError :=
  match hex_decode_to_slice s 32 with Some l => Ok (reverse l) | None => Err (InvalidHex context "invalid hex string") end.
Definition Txid_from_str (s : string) : result Hash256 HashError := hash_from_str "Txid" s.
Definition BlockHash_from_str (s : string) : result BlockHash HashError := hash_from_str "BlockHash" s.

(** [Debug] *)
Definition BlockHash_debug (h : BlockHash) : string := "BlockHash(" +:+ hex_encode h +:+ ")".
Definition Txid_debug (h : Hash256) : string := "Txid(" +:+ hex_encode h +:+ ")".
Definition Hash160_debug (h : bytes) : string := "Hash160(" +:+ hex_encode h +:+ ")".
End Hashes.

Definition Hash160_hash {D : Digests} (data : bytes) : bytes := hash160 data.
Definition Txid_hash {D : Digests} (data : bytes) : Hash256 := hash256 data.
Definition HASH160_ZERO : bytes := replicate 20 0.

(** ** Chains *)

Definition ChainType_all : list ChainType := [Mainnet; Testnet3; Signet; Regtest].
(** [str::to_lowercase]; no other character has one of these letters as its lower case *)
Definition lower_char (c : ascii) : ascii :=
  let n := N_of_ascii c in if ((65 <=? n) && (n <=? 90))%N then ascii_of_N (n + 32) else c.
Fixpoint to_lowercase (s : string) : string := match s with "" => "" | String c s => String (lower_char c) (to_lowercase s) end.
Definition ChainType_from (s : string) : ChainType :=
  let s := to_lowercase s in
  if decide (s = "mainnet") then Mainnet
  else if decide (s = "testnet" \/ s = "testnet3") then Testnet3
  else if decide (s = "signet") then Signet
  else if decide (s = "regtest") then Regtest
  else Mainnet.

(** ** Heights and scripts *)

Definition BlockHeight_text (h : BlockHeight) : string := decimal h.
Definition encode_BlockHeight : encoder_of BlockHeight := fun h e => encode_u32 h e.
Definition decode_BlockHeight : decoder_of BlockHeight := fun d => let? '(v, d) := decode_u32 d in Ok (v, d).
Definition is_within_size_limit (script : bytes) : bool := (length script <=? MAX_SCRIPT_SIZE)%nat.

(** ** Opcodes *)

Definition named_opcodes : list (Z * string) :=
  [(OP_0, "OP_0"); (OP_PUSHDATA1, "OP_PUSHDATA1"); (OP_PUSHDATA2, "OP_PUSHDATA2"); (OP_PUSHDATA4, "OP_PUSHDATA4");
   (OP_1NEGATE, "OP_1NEGATE"); (0x50, "OP_RESERVED"); (OP_NOP, "OP_NOP"); (OP_IF, "OP_IF"); (OP_NOTIF, "OP_NOTIF"); (OP_ELSE, "OP_ELSE");
   (OP_ENDIF, "OP_ENDIF"); (OP_VERIFY, "OP_VERIFY"); (OP_RETURN, "OP_RETURN"); (OP_TOALTSTACK, "OP_TOALTSTACK"); (OP_FROMALTSTACK, "OP_FROMALTSTACK");
   (OP_DROP, "OP_DROP"); (OP_DUP, "OP_DUP"); (OP_SIZE, "OP_SIZE"); (OP_EQUAL, "OP_EQUAL"); (OP_EQUALVERIFY, "OP_EQUALVERIFY"); (OP_ADD, "OP_ADD");
   (OP_SUB, "OP_SUB"); (OP_RIPEMD160, "OP_RIPEMD160"); (OP_SHA1, "OP_SHA1"); (OP_SHA256, "OP_SHA256"); (OP_HASH160, "OP_HASH160");
   (OP_HASH256, "OP_HASH256"); (OP_CODESEPARATOR, "OP_CODESEPARATOR"); (OP_CHECKSIG, "OP_CHECKSIG"); (OP_CHECKSIGVERIFY, "OP_CHECKSIGVERIFY");
   (OP_CHECKMULTISIG, "OP_CHECKMULTISIG"); (OP_CHECKMULTISIGVERIFY, "OP_CHECKMULTISIGVERIFY");
   (OP_CHECKLOCKTIMEVERIFY, "OP_CHECKLOCKTIMEVERIFY"); (OP_CHECKSEQUENCEVERIFY, "OP_CHECKSEQUENCEVERIFY")].
Definition opcode_name (byte : Z) : string :=
  match list_find (fun p => p.1 = byte) named_opcodes with
  | Some (_, (_, s)) => s
  | None =>
    if (0x01 <=? byte) && (byte <=? 0x4b) then "OP_PUSHBYTES_" +:+ decimal byte
    else if (0x51 <=? byte) && (byte <=? 0x60) then "OP_" +:+ decimal (byte - 0x50)
    else "OP_UNKNOWN_0x" +:+ lower_hex 2 byte
  end.

(** ** Properties *)

Section Read.
Context {T : RpcText} {TO : RpcTextOk T} {H : Hex} {HX : HexOk H}.

(** What is shown of a hash is read back, whatever the type, and nothing else has that
    text; a text of another length, or with a character that is no digit, is an error
    that names the type. *)
Lemma hash_roundtrip context h : hash_ok h -> hash_from_str context (hex_encode (reverse h)) = Ok h.
Proof using TO HX.
  intros [Hl Hb]. unfold hash_from_str. rewrite hex_slice_ok, hex_encode_pairs; [by rewrite reverse_involutive|by apply Forall_reverse|].
  by rewrite hex_encode_length, length_reverse, Hl.
Qed.
Lemma hash_text_inj h h' : hash_ok h -> hash_ok h' -> Txid_text h = Txid_text h' -> h = h'.
Proof using TO HX.
  intros Hh Hh' E. pose proof (hash_roundtrip "Txid" h Hh) as H1. pose proof (hash_roundtrip "Txid" h' Hh') as H2.
  unfold Txid_text in E. rewrite E, H2 in H1. by injection H1.
Qed.
Lemma hash_from_str_error context s : String.length s <> 64%nat \/ hex_pairs s = None ->
  hash_from_str context s = Err (InvalidHex context "invalid hex string").
Proof using HX.
  intros Hs. unfold hash_from_str. destruct (decide (String.length s = 2 * 32)%nat) as [Hl|Hl].
  - rewrite hex_slice_ok by done. destruct Hs as [Hs|Hs]; [lia|]. by rewrite Hs.
  - by rewrite hex_slice_length.
Qed.
End Read.

Lemma chain_roundtrip c : ChainType_from (chain_text c) = c.
Proof. by destruct c. Qed.
Lemma chains_complete c : c ∈ ChainType_all.
Proof. unfold ChainType_all. destruct c; set_solver. Qed.
(** Any other name is taken for mainnet. *)
Example unknown_chain_is_mainnet : ChainType_from "testnet4" = Mainnet /\ ChainType_from "" = Mainnet /\ ChainType_from "REGTEST" = Regtest.
Proof. done. Qed.

Lemma opcode_names_distinct a b : 0 <= a <= 255 -> 0 <= b <= 255 -> opcode_name a = opcode_name b -> a = b.
Proof.
  intros Ha Hb E. assert (NoDup (map (fun n => opcode_name (Z.of_nat n)) (seq 0 256))) as Hn.
  { apply (bool_decide_unpack _). vm_compute. exact I. }
  assert (forall z, 0 <= z <= 255 -> map (fun n => opcode_name (Z.of_nat n)) (seq 0 256) !! Z.to_nat z = Some (opcode_name z)) as Hl.
  { intros z Hz. rewrite list_lookup_fmap, lookup_seq_lt by lia. cbn. f_equal. f_equal. lia. }
  pose proof (NoDup_lookup _ _ _ _ Hn (Hl a Ha) (eq_trans (Hl b Hb) (f_equal Some (eq_sym E)))). lia.
Qed.
