(* ===== verification/Reference.v ===== *)
(** * The reference engine (consensus/engine.rs, built with [core-reference])

    With the feature the engine of kind [CoreReference] asks libbitcoinconsensus about
    every coin a transaction spends.  The library is a parameter, [Consensus]: its one
    function, of which nothing is assumed.

    [reference_verdict]: what the loop around the library decides.
    [reference_skips_inputs]: with fewer coins than inputs, which the native engine
    refuses, the inputs without a coin are never checked. *)

From S2P Require Import Prelude Wire Hash Transaction Block ScriptNum ScriptOps Sig Taproot Sighash Checker Interpreter Engine.

(** What is passed of a spent output: the pointer is to its script. *)
Record Utxo : Type := mkUtxo { u_script_pubkey : bytes; u_script_pubkey_len : Z; u_value : Z }.
Definition utxo_of (c : Coin) : Utxo :=
  mkUtxo (script_pubkey (output c)) (wrap_u 32 (Z.of_nat (length (script_pubkey (output c))))) (wrap_s 64 (value (output c))).

(** [bitcoinconsensus::verify_with_flags] *)
Class Consensus : Type := {
  consensus_error : Type;
  verify_with_flags : bytes -> Z -> bytes -> option (list Utxo) -> nat -> VerifyFlags -> result unit consensus_error;
}.

Section Reference.
Context {L : Consensus} {D : Digests} {K : Secp}.

(** The loop over the coins. *)
Fixpoint reference_loop (raw_tx : bytes) (spent : list Utxo) (flags : VerifyFlags) (index : nat) (coins : list Coin) : result unit ValidationError :=
  match coins with
  | [] => Ok tt
  | coin :: coins =>
    let? _ := map_err (fun _ => ScriptErrorAt index UnknownError)
      (verify_with_flags (script_pubkey (output coin)) (value (output coin)) raw_tx (Some spent) index flags) in
    reference_loop raw_tx spent flags (S index) coins
  end.
Definition verify_reference (tx : Transaction) (coins : list Coin) (flags : VerifyFlags) : result unit ValidationError :=
  reference_loop (serialize encode_Transaction tx) (map utxo_of coins) flags 0 coins.

(** The engine of a build with the feature. *)
Definition reference_build : ScriptEngine ConsensusEngine := fun e tx coins =>
  match kind e with
  | Native => verify_native tx coins (engine_flags e)
  | CoreReference => verify_reference tx coins (engine_flags e)
  end.

(** ** Properties *)

(** The library's verdict on the coin at an index. *)
Definition library_accepts (tx : Transaction) (coins : list Coin) (flags : VerifyFlags) (i : nat) (c : Coin) : Prop :=
  verify_with_flags (script_pubkey (output c)) (value (output c)) (serialize encode_Transaction tx) (Some (map utxo_of coins)) i flags = Ok tt.

Lemma reference_loop_spec raw spent flags index coins :
  match reference_loop raw spent flags index coins with
  | Ok _ => forall i c, coins !! i = Some c -> verify_with_flags (script_pubkey (output c)) (value (output c)) raw (Some spent) (index + i) flags = Ok tt
  | Err e => exists i c, coins !! i = Some c /\ e = ScriptErrorAt (index + i) UnknownError /\
      is_ok (verify_with_flags (script_pubkey (output c)) (value (output c)) raw (Some spent) (index + i) flags) = false /\
      forall j c', (j < i)%nat -> coins !! j = Some c' ->
        verify_with_flags (script_pubkey (output c')) (value (output c')) raw (Some spent) (index + j) flags = Ok tt
  end.
Proof.
  revert index. induction coins as [|c coins IH]; intros index; [done|]. cbn [reference_loop].
  destruct (verify_with_flags (script_pubkey (output c)) _ _ _ index _) as [[]|e] eqn:E; cbn [map_err rbind].
  - specialize (IH (S index)). destruct (reference_loop _ _ _ _ _) as [[]|e].
    + intros [|i] x Hx; [injection Hx as <-; by rewrite Nat.add_0_r|]. rewrite Nat.add_succ_r. by apply IH.
    + destruct IH as (i & x & Hx & -> & Hv & Hj). exists (S i), x. rewrite Nat.add_succ_r. split_and!; [done..|].
      intros [|j] y Hlt Hy; [injection Hy as <-; by rewrite Nat.add_0_r|]. rewrite Nat.add_succ_r. apply Hj; [lia|done].
  - exists 0%nat, c. rewrite Nat.add_0_r, E. split_and!; [done..|]. lia.
Qed.

(** The reference engine accepts exactly when the library accepts every coin, and
    otherwise names the first one it refuses, with [UnknownError] as the reason. *)
Lemma reference_verdict tx coins flags :
  match verify_reference tx coins flags with
  | Ok _ => forall i c, coins !! i = Some c -> library_accepts tx coins flags i c
  | Err e => exists i c, coins !! i = Some c /\ e = ScriptErrorAt i UnknownError /\ ~ library_accepts tx coins flags i c /\
      forall j c', (j < i)%nat -> coins !! j = Some c' -> library_accepts tx coins flags j c'
  end.
Proof.
  unfold verify_reference. pose proof (reference_loop_spec (serialize encode_Transaction tx) (map utxo_of coins) flags 0 coins) as H.
  destruct (reference_loop _ _ _ _ _) as [[]|e]; [exact H|]. destruct H as (i & c & Hc & -> & Hv & Hj). exists i, c. split_and!; [done..| |exact Hj].
  unfold library_accepts. intros E. cbn [Nat.add] in Hv. by rewrite E in Hv.
Qed.

(** With no coin at all every transaction is accepted. *)
Lemma reference_skips_inputs tx flags : verify_reference tx [] flags = Ok tt /\
  (inputs tx <> [] -> verify_native tx [] flags = Err ScriptFailure).
Proof. split; [done|]. intros Hi. unfold verify_native. by destruct (inputs tx). Qed.
End Reference.
