(* ===== verification/EndToEnd.v ===== *)
(** * From the wire to the coins

    The components together: bytes on a connection (P2P), the peer manager (Peers), the
    node (Node), the store and its files (Store, BlockFile), the connector task
    (Downloader), activation (Chainstate) and block connection (Validation).

    [relayed_block_connects]: a block a peer sends, however its bytes are cut, is on
    the next turn of the connector task connected to the chain.  [mutated_block_sticks]:
    a copy of it whose witness was altered, when it arrives first, keeps the block out. *)

From S2P Require Import Prelude Wire Hash Transaction Block Codecs Params Pow Coins ScriptNum ScriptOps Taproot Signet Engine Validation ConnectSpec BlockFile Store StoreInv Chainstate ChainstateProofs Node P2P P2PProofs AddrMan AddrManProofs PeerTable Sync Peers Downloader Connect NetProofs.

Section EndToEnd.
Context {B E : Type} {SB : StorageBackend B} {SO : StorageBackendOk B} {D : Digests} {DO : DigestsOk D} {K : Taproot.Secp} {SE : ScriptEngine E} {H : DefaultHasher}.
Abbreviation TheNode := (Blockchain B E).

(** ** One block in the store *)

(** The write of a block, as [accept_block] asks for it. *)
Definition block_write (b : Block) (idx : BlockIndex) : BlockWrite := (header b, bi_height idx, chain_work idx, serialize encode_Block b).
Definition stored_index (b : Block) (idx : BlockIndex) (pos : FlatFilePos) : BlockIndex :=
  mkBlockIndex (header b) (bi_height idx) (chain_work idx) (Some pos) None.

(** What a store knows after it has written a block: the block and its index, its hash
    at its height, and everything else as before. *)
Record stored (s s' : Store B) (b : Block) (idx : BlockIndex) : Prop := {
  st_block : get_block s' (block_hash (header b)) = Ok (Some (serialize encode_Block b));
  st_index : exists pos, get_block_index s' (block_hash (header b)) = Ok (Some (stored_index b idx pos));
  st_others : forall hash, hash <> block_hash (header b) -> get_block_index s' hash = get_block_index s hash;
  st_height : get_block_hash_by_header_height s' (bi_height idx) = Ok (Some (block_hash (header b)));
  st_chain : forall height, get_block_hash s' height = get_block_hash s height;
  st_coins : forall o, get_coin s' o = get_coin s o;
  st_best : get_best_block s' = get_best_block s;
}.

Lemma store_one (s s' : Store B) log b idx ps : store_inv s log -> write_ok (block_write b idx) ->
  current_file (block_file_manager (worker s)) + 1 < 2 ^ 32 -> handle_store_blocks s [block_write b idx] = (Ok ps, s') -> stored s s' b idx.
Proof using SO DO.
  intros Hi Hw Hf Hs. assert (Forall write_ok [block_write b idx]) as Hws by (by constructor).
  destruct (stored_blocks_read s log [block_write b idx] ps s' Hi Hws Hf Hs) as (R1 & _ & R3).
  destruct (handle_store_blocks_spec s log [block_write b idx] Hi Hws Hf) as (ps' & m & d & kt & kt' & Hlen & Hps & _ & E1).
  rewrite Hs in E1. set (s1 := with_files s d (with_tip_height _ kt)) in *. destruct (commit_batch s1 _) as [[[]|e] s2] eqn:Ec; [|done]. injection E1 as <- <-.
  destruct ps as [|pos [|? ?]]; try done. clear Hlen.
  assert (forall hash, get_block_index s' hash = match list_find (fun p => p.1 = hash) (reverse (write_entries [block_write b idx] [pos])) with
    | Some (_, p) => Ok (Some p.2) | None => get_block_index s1 hash end) as Hget.
  { intros hash. apply (entries_get s1 s' _ _ hash Ec); [apply blocks_ops_index|]. by apply write_entries_ok. }
  split.
  - apply (R1 (block_write b idx)). exists [], []. split; [done|]. by intros ?%elem_of_nil.
  - destruct (find_entry [block_write b idx] [pos] (block_write b idx)) as (j & p & Hfd & _); [apply NoDup_singleton|done|by apply list_elem_of_singleton|].
    exists p. rewrite Hget. change (block_hash (header b)) with (write_hash (block_write b idx)). by rewrite Hfd.
  - intros hash Hne. rewrite Hget, find_no_entry; [done|]. by intros ->%list_elem_of_singleton.
  - apply commit_batch_ok in Ec as (Hk & _). unfold get_block_hash_by_header_height, get_hash. rewrite Hk.
    cbn [write_entries zip_with write_hash write_index block_write fst snd]. unfold blocks_ops, entries_ops. cbn [map concat index_ops fst snd bi_height app].
    assert (forall x, ops_effect CHAIN_META (header_height_key (bi_height idx)) (Put CHAIN_META [KEY_LAST_FILE] x ::
      match highest_tip (last_known_tip_height (worker s)) [(write_hash (block_write b idx), stored_index b idx pos)] with Some (_, hash) => [Put UTXOS [KEY_BLOCK_TIP] hash] | None => [] end) = None) as Hn
      by (intros x; destruct (highest_tip _ _) as [[? ?]|]; by no_effect).
    rewrite ops_effect_cons, ops_effect_cons, Hn, op_effect_hit. cbn [rbind]. f_equal. f_equal. apply take_ge. unfold write_hash, block_write. cbn [fst].
    assert (length (block_hash (header b)) = 32%nat) as Hl by apply hash256_array. lia.
  - intros height. apply commit_batch_ok in Ec as (Hk & _). unfold get_block_hash. apply get_hash_ext. rewrite Hk. unfold blocks_ops, entries_ops.
    cbn [write_entries zip_with map concat]. unfold index_ops. destruct (highest_tip _ _) as [[? ?]|]; by no_effect.
  - exact R3.
  - apply (best_frame s1 s' _ Ec). apply blocks_ops_best.
Qed.

(** ** The node after the block *)

Definition after_block (m : ChainstateManager B E) (s' : Store B) (b : Block) (idx : BlockIndex) : ChainstateManager B E :=
  set_waiting (set_store m s') (<[bi_height idx := block_hash (header b)]> (waiting_blocks m)).

Definition relayed (m : ChainstateManager B E) (b : Block) (idx : BlockIndex) : ChainstateManager B E :=
  after_block m (handle_store_blocks (cs_store m) [block_write b idx]).2 b idx.

Lemma process_block_stores env b (bc : TheNode) idx log h : store_inv (bc_store bc) log -> write_ok (block_write b idx) ->
  current_file (block_file_manager (worker (bc_store bc))) + 1 < 2 ^ 32 ->
  get_block_index (bc_store bc) (block_hash (header b)) = Ok (Some idx) -> file_pos idx = None -> (process_block env b bc).1 = Ok h ->
  (process_block env b bc).2 = set_manager bc (relayed (bc_manager bc) b idx) /\
  stored (bc_store bc) (handle_store_blocks (bc_store bc) [block_write b idx]).2 b idx.
Proof using SO DO.
  intros Hi Hw Hf Hg Hp. unfold process_block. destruct (check_block _ _); [|done]. rewrite Hg. unfold accept_block. rewrite Hp.
  fold (block_write b idx). unfold relayed. change (cs_store (bc_manager bc)) with (bc_store bc).
  destruct (handle_store_blocks (bc_store bc) [block_write b idx]) as [[ps|e] s'] eqn:Es; [|done]. intros _. split; [done|]. by eapply store_one.
Qed.

Section After.
Context (m : ChainstateManager B E) (s' : Store B) (b : Block) (idx tip : BlockIndex) (av : option Z).
Hypothesis Hst : stored (cs_store m) s' b idx.
Hypothesis Hidx : get_block_index (cs_store m) (block_hash (header b)) = Ok (Some idx).
Hypothesis Hnext : bi_height idx = wrap_u 32 (bi_height tip + 1).
Hypothesis Hu32 : u32_ok (bi_height idx).

Lemma not_tip hash : get_block_index (cs_store m) hash = Ok (Some tip) -> hash <> block_hash (header b).
Proof using Hidx Hnext Hu32.
  intros Ht ->. rewrite Hidx in Ht. injection Ht as Ht. rewrite <- Ht in Hnext. unfold wrap_u, u32_ok in *.
  destruct (decide (bi_height idx + 1 < 2 ^ 32)); [rewrite Z.mod_small in Hnext by lia; lia|].
  assert (bi_height idx + 1 = 2 ^ 32) as E1 by lia. rewrite E1 in Hnext. rewrite Z.mod_same in Hnext by lia. lia.
Qed.
Lemma tip_after_block : (current_tip_of m).1 = Ok tip -> (current_tip_of (after_block m s' b idx)).1 = Ok tip.
Proof using Hst Hidx Hnext Hu32.
  intros Ht. unfold current_tip_of in *.
  assert (get_best_block (cs_cache (after_block m s' b idx)) = get_best_block (cs_cache m)) as Hb.
  { cbn. destruct (best_block (cs_cache m)); [done|]. exact (st_best _ _ _ _ Hst). }
  rewrite Hb. assert (default None (res_ok (store_get_best_block (cs_store (after_block m s' b idx)))) = default None (res_ok (store_get_best_block (cs_store m)))) as ->
    by exact (st_best _ _ _ _ Hst).
  set (o := match get_best_block (cs_cache m) with Some h => Some h | None => _ end) in *. clearbody o.
  assert (forall hash, get_block_index (cs_store m) hash = Ok (Some tip) -> get_block_index (cs_store (after_block m s' b idx)) hash = Ok (Some tip)) as Hk.
  { intros hash Hh. change (cs_store (after_block m s' b idx)) with s'. rewrite (st_others _ _ _ _ Hst); [done|]. by apply not_tip. }
  change (cs_params (after_block m s' b idx)) with (cs_params m).
  destruct o as [hash|]; cbv beta iota zeta delta [abind reads map_err] in *.
  all: match type of Ht with context [match match ?g with _ => _ end with _ => _ end] => destruct g as [[i|]|e] eqn:Eg end; [|done..].
  all: injection Ht as ->; by rewrite (Hk _ Eg).
Qed.
Lemma assume_after_block : (assume_valid_of m).1 = Ok av -> (assume_valid_of (after_block m s' b idx)).1 = Ok av.
Proof using Hst Hidx.
  unfold assume_valid_of. change (cs_params (after_block m s' b idx)) with (cs_params m). destruct (is_zero _); [done|]. unfold abind, reads.
  change (cs_store (after_block m s' b idx)) with s'. set (h := default_assume_valid _). destruct (decide (h = block_hash (header b))) as [Heq|Hne].
  - rewrite Heq, Hidx. destruct (st_index _ _ _ _ Hst) as [pos ->]. done.
  - rewrite (st_others _ _ _ _ Hst _ Hne). by destruct (map_err _ _).
Qed.
End After.

(** ** The theorem *)

(** The node waits for the block: its header is known, its data is not, and it comes
    next after the tip, which is the active one; it was not connected before. *)
Record awaits (m : ChainstateManager B E) (log : list (FlatFilePos * bytes)) (u : UtxoMap) (av : option Z) (tip : BlockIndex) (b : Block) (idx : BlockIndex) : Prop := {
  aw_store : store_inv (cs_store m) log;
  aw_files : current_file (block_file_manager (worker (cs_store m))) + 1 < 2 ^ 32;
  aw_index : get_block_index (cs_store m) (block_hash (header b)) = Ok (Some idx);
  aw_data : file_pos idx = None;
  aw_coins : refines (cs_cache m) u;
  aw_idle : is_activating m = false;
  aw_assume : (assume_valid_of m).1 = Ok av;
  aw_tip : (current_tip_of m).1 = Ok tip;
  aw_active : exists hash, active_tip m = Some (hash, bi_height tip);
  aw_next : bi_height idx = wrap_u 32 (bi_height tip + 1);
  aw_undo : pending_undo_indexes (worker (cs_store m)) !! block_hash (header b) = None;
}.

Lemma awaits_write m log u av tip b idx : awaits m log u av tip b idx -> sendable (MBlock b) -> write_ok (block_write b idx).
Proof.
  intros Ha (Hb & _ & Hl). destruct (si_index _ _ (aw_store _ _ _ _ _ _ _ Ha) _ _ (aw_index _ _ _ _ _ _ _ Ha)) as [(H1 & H2 & H3 & _) _].
  unfold write_ok, block_write. split_and!; [apply Hb|done|done|]. cbn [Message_encode] in Hl. unfold MAX_MESSAGE_SIZE in Hl. lia.
Qed.

Lemma block_decodes b : block_ok b -> exists d, decode_Block (Decoder_new (serialize encode_Block b)) = Ok (b, d).
Proof.
  intros Hb. pose proof (block_roundtrip b "block" Hb) as H1. unfold decode_exact in H1.
  destruct (decode_Block _) as [[b' d]|e]; [|done]. cbn in H1. destruct (finish _ _); [|done]. injection H1 as ->. by exists d.
Qed.

Lemma store_blocks_pending (s : Store B) log blocks : store_inv s log -> Forall write_ok blocks ->
  current_file (block_file_manager (worker s)) + Z.of_nat (length blocks) < 2 ^ 32 ->
  pending_undo_indexes (worker (handle_store_blocks s blocks).2) = pending_undo_indexes (worker s).
Proof using SO DO.
  intros Hi Hw Hf. destruct (handle_store_blocks_spec s log blocks Hi Hw Hf) as (ps & m & d & kt & kt' & _ & _ & _ & ->).
  destruct (commit_batch _ _) as [[[]|e] s'] eqn:Ec; [|done]. apply commit_batch_ok in Ec as (_ & _ & _ & Hw'). cbn [snd]. by rewrite Hw'.
Qed.

(** The block is connected when the manager that has taken it in activates. *)
Lemma relayed_activates env m log u av tip b idx r u' (ev := attempt_event env av ACTIVATE_BATCH_SIZE tip b (relayed m b idx)) :
  awaits m log u av tip b idx -> stored (cs_store m) (handle_store_blocks (cs_store m) [block_write b idx]).2 b idx -> write_ok (block_write b idx) -> block_ok b ->
  recently_failed m (bi_height idx) (block_hash (header b)) (clock env (2 * ACTIVATE_BATCH_SIZE)%nat) = false ->
  ev_fresh ev u -> ev_spec (cs_params m) (cs_engine m) ev u = (Ok r, u') ->
  first_connected env av tip (block_hash (header b)) b u' (activate_best_chain env (relayed m b idx)).1 (activate_best_chain env (relayed m b idx)).2.
Proof using SO DO.
  intros Ha Hst Hw Hb Hf Hfr Hs. destruct Ha. destruct (block_decodes b Hb) as [d Hd]. pose proof Hw as (_ & Hu & _).
  apply (activation_progress env (relayed m b idx) u av tip (block_hash (header b)) b r u').
  - apply refines_base; [done|]. apply (st_coins _ _ _ _ Hst).
  - exact aw_idle0.
  - by apply assume_after_block.
  - by apply tip_after_block.
  - unfold due_block, due_hash, next_of. rewrite <- aw_next0. unfold relayed at 1, after_block at 1. cbn [set_waiting waiting_blocks]. rewrite lookup_insert_eq.
    change (recently_failed (relayed m b idx)) with (recently_failed m). rewrite Hf.
    change (cs_store (relayed m b idx)) with (handle_store_blocks (cs_store m) [block_write b idx]).2. by rewrite (st_block _ _ _ _ Hst), Hd.
  - intros i. change (cs_store (relayed m b idx)) with (handle_store_blocks (cs_store m) [block_write b idx]).2.
    rewrite (store_blocks_pending _ log) by (done || by constructor). by rewrite aw_undo0.
  - exact Hfr.
  - exact Hs.
Qed.

(** After the block the connector task finds it on disk. *)
Lemma relayed_on_disk (bc : TheNode) log u av tip b idx : awaits (bc_manager bc) log u av tip b idx ->
  stored (bc_store bc) (handle_store_blocks (bc_store bc) [block_write b idx]).2 b idx ->
  let bc1 := set_manager bc (relayed (bc_manager bc) b idx) in has_next_block_on_disk bc1 (get_blocks_tip bc1).2 = true.
Proof.
  intros Ha Hst bc1. destruct Ha. unfold get_blocks_tip. destruct aw_active0 as [th Ht].
  change (active_tip (bc_manager bc1)) with (active_tip (bc_manager bc)). rewrite Ht. cbn [snd]. unfold has_next_block_on_disk. rewrite <- aw_next0.
  change (bc_store bc1) with (handle_store_blocks (bc_store bc) [block_write b idx]).2. by rewrite (st_height _ _ _ _ Hst), (st_block _ _ _ _ Hst).
Qed.

(** The read loop on the frame of one message. *)
Lemma read_one magic chunks msg : magic_ok magic -> sendable msg -> concat chunks = frame magic msg -> (read_loop magic chunks).1 = [msg].
Proof using DO.
  intros Hm Hs Hc. rewrite (stream_roundtrip magic [msg] chunks); [done|done|by constructor|]. cbn [map concat]. by rewrite app_nil_r.
Qed.

(** The chain after the two handlers. *)
Lemma message_chain env id (n : Net TheNode) b : n_chain (process_message env id (MBlock b) n).1.2 = (process_block (ne_chain env) b (n_chain n)).2.
Proof.
  unfold process_message, on_block, ask_chain, mbind, NetM_bind, on_sync. cbn [vi_process_block blockchain_validation].
  destruct (process_block _ _ _) as [[h|e] bc]; [done|]. unfold misbehaving. cbn. destruct (n_peers n !! id); [|done].
  unfold tell_table. cbv zeta. match goal with |- context [let '(t, o) := ?p in _] => by destruct p end.
Qed.
Lemma tick_chain env (n : Net TheNode) : has_next_block_on_disk (n_chain n) (get_blocks_tip (n_chain n)).2 = true ->
  bc_manager (n_chain (connector_tick env n).1.2) = (activate_best_chain (ne_chain env) (bc_manager (n_chain n))).2.
Proof.
  intros Hd. unfold connector_tick, gets, on_sync, mbind, NetM_bind. cbn [sp_get_blocks_tip sp_has_next_block_on_disk sp_activate_best_chain blockchain_sync].
  destruct (get_blocks_tip (n_chain n)) as [th h]. cbn [id set_sync n_chain snd] in *. rewrite Hd, orb_true_r.
  unfold when, ask_chain. cbn [n_chain set_sync]. unfold bc_activate_best_chain, call_chainstate. cbn [handle_chainstate_msg].
  by destruct (activate_best_chain _ _).
Qed.

(** C5: A block a peer sends reaches the coins.  Let the node wait for it: its header
    is known, its data is not, it comes next after the active tip and did not fail
    there in the last thirty seconds.  However the bytes of its frame are cut on the
    way, the read loop delivers it, the peer manager hands it to the node, and, when
    the node takes it in, the next turn of the connector task connects it if the
    specification accepts it on the coins [u] (and it creates no output that is
    unspent already): the run passes through a manager with the block as best block
    and active tip and with the coins the specification computes, and goes on from
    there as [activation] describes, or ends there when a flush fails. *)
Theorem relayed_block_connects (magic : Magic) (chunks : list bytes) (HO1 HO2 : HashOrder) (env1 env2 : NetEnv) (id : NodeId) (n : Net TheNode)
    (log : list (FlatFilePos * bytes)) (u u' : UtxoMap) (av : option Z) (tip idx : BlockIndex) (b : Block) (h : Z) (r : Amount * list Coin) :
  let m := bc_manager (n_chain n) in
  let ev := attempt_event (ne_chain env2) av ACTIVATE_BATCH_SIZE tip b (relayed m b idx) in
  magic_ok magic -> sendable (MBlock b) -> concat chunks = frame magic (MBlock b) ->
  awaits m log u av tip b idx -> (process_block (ne_chain env1) b (n_chain n)).1 = Ok h ->
  recently_failed m (bi_height idx) (block_hash (header b)) (clock (ne_chain env2) (2 * ACTIVATE_BATCH_SIZE)%nat) = false ->
  ev_fresh ev u -> ev_spec (cs_params m) (cs_engine m) ev u = (Ok r, u') ->
  let n2 := run_events (map (fun msg => (HO1, env1, EvMessage id msg)) (read_loop magic chunks).1 ++ [(HO2, env2, EvConnectorTick)]) n in
  exists answer, first_connected (ne_chain env2) av tip (block_hash (header b)) b u' answer (bc_manager (n_chain n2)).
Proof using SO DO.
  intros m ev Hm Hs Hc Ha Hp Hf Hfr Hsp n2.
  pose proof (awaits_write _ _ _ _ _ _ _ Ha Hs) as Hw. destruct (process_block_stores (ne_chain env1) b (n_chain n) idx log h) as [E1 Hst]; try apply Ha; try done.
  assert (bc_manager (n_chain n2) = (activate_best_chain (ne_chain env2) (relayed m b idx)).2) as ->.
  { subst n2. rewrite (read_one magic chunks (MBlock b) Hm Hs Hc). unfold run_events. cbn [map app fold_left run_event].
    rewrite tick_chain; rewrite message_chain, E1; [done|]. by apply (relayed_on_disk _ log u av tip). }
  eexists. apply (relayed_activates (ne_chain env2) m log u av tip b idx r u'); try done. apply Hs.
Qed.
(** ** A block that hides another *)

(** What may follow a block at a node: another block that arrives, and activation. *)
Inductive NodeTurn : Type :=
  | Arrives (env : Env) (b : Block)
  | Activates (env : Env).
Definition take_turn (bc : TheNode) (t : NodeTurn) : TheNode :=
  match t with
  | Arrives env b => (process_block env b bc).2
  | Activates env => (bc_activate_best_chain env bc).2
  end.
(** The block that arrives is a copy: it has the same header. *)
Definition copy_of (b : Block) (t : NodeTurn) : Prop := match t with Arrives _ b' => header b' = header b | Activates _ => True end.

(** A block that does not meet its witness commitment is not connected where witness
    rules hold, whatever the coins and the other records are. *)
Lemma uncommitted_rejected (m : ChainstateManager B E) join av h b prev e : segwit_height (consensus (cs_params m)) <= h -> check_witness_commitment b = Err e ->
  exists e', connect_next m join av h b prev = (Err e', cs_cache m).
Proof.
  intros Hh Hc. unfold connect_next, connect_block, block_prechecks. destruct (check_block _ _) as [[]|e1]; cbn [rbind]; [|by exists e1].
  destruct (check_block_header _ _ _) as [[]|e1]; cbn [rbind]; [|by exists e1]. rewrite Hc. apply Z.leb_le in Hh. rewrite Hh.
  destruct (if _ <=? h then _ else _) as [[]|e1]; cbn [rbind]; [by exists e|by exists e1].
Qed.

(** The manager but for the blocks that wait and the attempt that failed, in a state in
    which only [hash] may wait at the height. *)
Definition same_but_waiting (m0 : ChainstateManager B E) (height : BlockHeight) (hash : BlockHash) (m : ChainstateManager B E) : Prop :=
  exists w f, m = set_failed (set_waiting m0 w) f /\ forall hash', w !! height = Some hash' -> hash' = hash.

(** A manager whose next block is stored, indexed and uncommitted. *)
Record blocked (m : ChainstateManager B E) (tip : BlockIndex) (hash : BlockHash) (b : Block) : Prop := {
  bl_idle : is_activating m = false;
  bl_tip : (current_tip_of m).1 = Ok tip;
  bl_index : exists i, get_block_index (cs_store m) hash = Ok (Some i) /\ is_Some (file_pos i) /\ bi_height i = next_of tip;
  bl_chain : get_block_hash (cs_store m) (next_of tip) = Ok None;
  bl_height : get_block_hash_by_header_height (cs_store m) (next_of tip) = Ok (Some hash);
  bl_block : exists raw d, get_block (cs_store m) hash = Ok (Some raw) /\ decode_Block (Decoder_new raw) = Ok (b, d);
  bl_segwit : segwit_height (consensus (cs_params m)) <= next_of tip;
  bl_uncommitted : exists e, check_witness_commitment b = Err e;
}.

Lemma current_tip_waiting (m : ChainstateManager B E) w f : (current_tip_of (set_failed (set_waiting m w) f)).1 = (current_tip_of m).1.
Proof.
  unfold current_tip_of, abind, reads, ret, raise. cbn [set_failed set_waiting cs_cache cs_params].
  change (cs_store (set_failed (set_waiting m w) f)) with (cs_store m).
  destruct (match get_best_block _ with Some h => Some h | None => _ end); by destruct (get_block_index _ _) as [[?|]|?].
Qed.

Section Blocked.
Context (m0 : ChainstateManager B E) (tip : BlockIndex) (hash : BlockHash) (b : Block).
Hypothesis Hb : blocked m0 tip hash b.

Lemma blocked_loop env av n (m : ChainstateManager B E) : same_but_waiting m0 (next_of tip) hash m ->
  exists r m', activate_loop env av (S n) tip (set_activating m true) = (r, set_activating m' true) /\ same_but_waiting m0 (next_of tip) hash m'.
Proof using Hb.
  intros (w & f & -> & Hw). rewrite activate_loop_step. unfold due_block.
  set (m := set_activating _ true). assert (due_hash m (next_of tip) = Some hash) as Hd.
  { unfold due_hash. change (waiting_blocks m) with w. destruct (w !! next_of tip) as [hash'|] eqn:Ew; [by rewrite (Hw _ eq_refl)|].
    change (cs_store m) with (cs_store m0). by rewrite (bl_chain _ _ _ _ Hb), (bl_height _ _ _ _ Hb). }
  rewrite Hd. assert (forall f', same_but_waiting m0 (next_of tip) hash (set_failed (set_waiting m0 (delete (next_of tip) w)) f')) as Hk
    by (intros f'; exists (delete (next_of tip) w), f'; split; [done|intros hash'; by rewrite lookup_delete_eq]).
  destruct (recently_failed m _ _ _); [exists (Ok tt), (set_failed (set_waiting m0 (delete (next_of tip) w)) f); split; [done|apply Hk]|].
  change (cs_store m) with (cs_store m0). destruct (bl_block _ _ _ _ Hb) as (raw & d & -> & ->). unfold attempt.
  destruct (bl_uncommitted _ _ _ _ Hb) as [e He]. destruct (uncommitted_rejected (taken m (next_of tip)) (join_order env (S n)) av (next_of tip) b tip e) as [e' ->];
    [exact (bl_segwit _ _ _ _ Hb)|done|].
  exists (Ok tt), (set_failed (set_waiting m0 (delete (next_of tip) w)) (Some (next_of tip, hash, clock env (2 * S n + 1)%nat))). split; [done|apply Hk].
Qed.

Lemma blocked_activation env (m : ChainstateManager B E) : same_but_waiting m0 (next_of tip) hash m -> same_but_waiting m0 (next_of tip) hash (activate_best_chain env m).2.
Proof using Hb.
  intros Hm. pose proof Hm as (w & f & E1 & _). unfold activate_best_chain. assert (is_activating m = false) as -> by (rewrite E1; apply Hb).
  assert (set_activating (set_activating m true) false = m) as Hsame by (rewrite E1; pose proof (bl_idle _ _ _ _ Hb); destruct m0; simpl in *; by subst).
  unfold activate_best_chain_inner, abind. pose proof (assume_valid_frame (set_activating m true)) as F1. destruct (assume_valid_of _) as [[av|e] m1]; cbn [snd] in F1; subst m1; [|by rewrite Hsame].
  pose proof (current_tip_frame (set_activating m true)) as F2. pose proof (current_tip_activating m true) as F3.
  assert ((current_tip_of m).1 = Ok tip) as F4 by (rewrite E1, current_tip_waiting; exact (bl_tip _ _ _ _ Hb)). rewrite F4 in F3.
  destruct (current_tip_of _) as [r m1]; cbn [fst snd] in F2, F3; subst r m1. unfold ACTIVATE_BATCH_SIZE. destruct (blocked_loop env av 127 m Hm) as (r & m' & -> & Hm').
  assert (set_activating (set_activating m' true) false = m') as ->; [|exact Hm'].
  destruct Hm' as (w' & f' & -> & _). pose proof (bl_idle _ _ _ _ Hb). destruct m0; simpl in *; by subst.
Qed.
End Blocked.

Lemma blocked_turn (bc0 bc : TheNode) tip b t : blocked (bc_manager bc0) tip (block_hash (header b)) b -> copy_of b t ->
  (exists m, same_but_waiting (bc_manager bc0) (next_of tip) (block_hash (header b)) m /\ bc = set_manager bc0 m) ->
  exists m, same_but_waiting (bc_manager bc0) (next_of tip) (block_hash (header b)) m /\ take_turn bc t = set_manager bc0 m.
Proof.
  intros Hb Ht (m & Hm & ->). destruct t as [env b'|env]; cbn [take_turn copy_of] in *.
  - unfold process_block. destruct (check_block _ _); [|by exists m]. destruct Hm as (w & f & -> & Hw). destruct (bl_index _ _ _ _ Hb) as (i & Hi & [pos Hp] & Hh).
    rewrite Ht. change (get_block_index (bc_store _) ?h) with (get_block_index (cs_store (bc_manager bc0)) h). rewrite Hi. unfold accept_block. rewrite Hp, Hh.
    eexists. split; [|reflexivity]. exists (<[next_of tip := block_hash (header b)]> w), f. split; [done|]. intros hash'. rewrite lookup_insert_eq. by intros [= <-].
  - unfold bc_activate_best_chain, call_chainstate. cbn [handle_chainstate_msg]. pose proof (blocked_activation _ _ _ _ Hb env m Hm) as Hm'.
    change (bc_manager (set_manager bc0 m)) with m. destruct (activate_best_chain env m) as [r m']. by exists m'.
Qed.
Lemma blocked_turns (bc0 bc : TheNode) tip b ts : blocked (bc_manager bc0) tip (block_hash (header b)) b -> Forall (copy_of b) ts ->
  (exists m, same_but_waiting (bc_manager bc0) (next_of tip) (block_hash (header b)) m /\ bc = set_manager bc0 m) ->
  exists m, same_but_waiting (bc_manager bc0) (next_of tip) (block_hash (header b)) m /\ fold_left take_turn ts bc = set_manager bc0 m.
Proof. intros Hb Hts. revert bc. induction Hts as [|t ts Ht _ IH]; intros bc Hm; [done|]. cbn [fold_left]. apply IH. by eapply blocked_turn. Qed.

(** The node is blocked once it has taken the copy in. *)
Lemma relayed_blocked m log u av tip b idx e : awaits m log u av tip b idx -> stored (cs_store m) (handle_store_blocks (cs_store m) [block_write b idx]).2 b idx ->
  write_ok (block_write b idx) -> block_ok b -> get_block_hash (cs_store m) (bi_height idx) = Ok None ->
  segwit_height (consensus (cs_params m)) <= bi_height idx -> check_witness_commitment b = Err e -> blocked (relayed m b idx) tip (block_hash (header b)) b.
Proof using SO DO.
  intros Ha Hst Hw Hok Hc Hs He. destruct Ha. pose proof Hw as (_ & Hu & _). assert (next_of tip = bi_height idx) as Hn by done.
  split; rewrite ?Hn; [done| | | | | |done|by exists e].
  - by apply tip_after_block.
  - destruct (st_index _ _ _ _ Hst) as [pos Hp]. exists (stored_index b idx pos). split_and!; [exact Hp|by exists pos|done].
  - change (cs_store (relayed m b idx)) with (handle_store_blocks (cs_store m) [block_write b idx]).2. by rewrite (st_chain _ _ _ _ Hst).
  - exact (st_height _ _ _ _ Hst).
  - destruct (block_decodes b Hok) as [d Hd]. exists (serialize encode_Block b), d. split; [exact (st_block _ _ _ _ Hst)|done].
Qed.

(** C40: A peer can keep the node from a valid block.  Blocks are stored after checks
    that leave out the witness commitment, and a stored block is not replaced.  Let the
    node wait for the block of a header, next after its tip and where the witness rules
    hold, and let the first copy that arrives not meet its witness commitment (its
    header is the right one: the header does not cover the witness data).  When the
    node takes it in, then whatever other copies of the block arrive, and at whatever
    times activation is tried between them, the active tip, the coins and the store
    stay as they are: the altered copy remains the stored one, and no correct copy is
    ever connected. *)
Theorem mutated_block_sticks (env : Env) (bc : Blockchain B E) (log : list (FlatFilePos * bytes)) (u : UtxoMap) (av : option Z) (tip idx : BlockIndex)
    (b : Block) (h : Z) (e : ValidationError) (ts : list NodeTurn) :
  awaits (bc_manager bc) log u av tip b idx -> sendable (MBlock b) -> (process_block env b bc).1 = Ok h ->
  get_block_hash (bc_store bc) (bi_height idx) = Ok None ->
  segwit_height (consensus (cs_params (bc_manager bc))) <= bi_height idx -> check_witness_commitment b = Err e ->
  Forall (copy_of b) ts ->
  let bc1 := (process_block env b bc).2 in
  let bc2 := fold_left take_turn ts bc1 in
  active_tip (bc_manager bc2) = active_tip (bc_manager bc) /\ cs_cache (bc_manager bc2) = cs_cache (bc_manager bc1) /\
  get_block (bc_store bc2) (block_hash (header b)) = Ok (Some (serialize encode_Block b)).
Proof using SO DO.
  intros Ha Hs Hp Hc Hsw He Hts bc1 bc2. pose proof (awaits_write _ _ _ _ _ _ _ Ha Hs) as Hw.
  destruct (process_block_stores env b bc idx log h) as [E1 Hst]; try apply Ha; try done. subst bc2. fold bc1 in E1. rewrite E1.
  pose proof (relayed_blocked (bc_manager bc) log u av tip b idx e Ha Hst Hw (proj1 Hs) Hc Hsw He) as Hb.
  destruct (blocked_turns (set_manager bc (relayed (bc_manager bc) b idx)) (set_manager bc (relayed (bc_manager bc) b idx)) tip b ts Hb Hts) as (m & (w & f & -> & _) & ->).
  - exists (relayed (bc_manager bc) b idx). split; [|done]. exists (<[bi_height idx := block_hash (header b)]> (waiting_blocks (bc_manager bc))), (last_failed_activation (bc_manager bc)).
    split; [reflexivity|]. intros hash'. unfold next_of. rewrite <- (aw_next _ _ _ _ _ _ _ Ha), lookup_insert_eq. by intros [= <-].
  - split_and!; [done..|]. exact (st_block _ _ _ _ Hst).
Qed.
End EndToEnd.

(** ** A concrete relay *)

(** A node that has the genesis block and the header of the next block, and one peer. *)
Definition relay_block : Block := demo_block demo_parent.
Definition relay_index : BlockIndex := mkBlockIndex (header relay_block) 1 (le_bytes 32 4) None None.
Definition relay_store : Store Database :=
  (@handle_store_block_index _ in_memory (cs_store demo_genesis) (demo_hash demo_parent) relay_index).2.
Definition relay_manager : ChainstateManager Database ConsensusEngine := set_store demo_genesis relay_store.
Definition relay_env : NetEnv :=
  mkNetEnv demo_env 1000 (from_secs 50) (mkReadings 0 0 0 0) (mkBanClock 0 0 0) (fun _ => 0) (fun _ => 0) (fun _ => 0) (fun _ => true).
Definition relay_peer : SocketAddr := mkSocketAddr (V4 [127; 0; 0; 1]) 18444.
Definition relay_net : Net (Blockchain Database ConsensusEngine) :=
  mkNet (PeerTable_new (AddrMan_new [])) (with_tips (demo_hash demo_parent) 1 demo_parent 0 0) (Blockchain_new relay_manager Mempool_new demo_params)
    {[relay_peer := Peer_new 1 OutboundFullRelay]} (mkDownloadProgress 0 0 0) (mkConnman (AddrMan_new []) ∅ ∅) ∅ no_tasks.
(** The frame of the block, cut inside the header and inside the payload. *)
Definition relay_bytes : bytes := @frame toy_digests REGTEST (MBlock relay_block).
Definition relay_chunks : list bytes := [slice relay_bytes 0 10; []; slice relay_bytes 10 90; drop 90 relay_bytes].
Definition relay_event : Event := attempt_event demo_env None ACTIVATE_BATCH_SIZE demo_tip relay_block (@relayed _ _ in_memory toy_digests relay_manager relay_block relay_index).
Definition relay_outcome := @ev_spec _ toy_digests toy_secp demo_verify demo_params (ConsensusEngine_new Native) relay_event ∅.

Lemma relay_awaits : @awaits _ _ in_memory toy_digests relay_manager [] ∅ None demo_tip relay_block relay_index.
Proof.
  destruct demo_store_inv as [Hi Hc].
  assert (@handle_store_block_index _ in_memory (cs_store demo_genesis) (demo_hash demo_parent) relay_index = (Ok tt, relay_store)) as E1
    by (apply (pair_eq (@handle_store_block_index _ in_memory (cs_store demo_genesis) (demo_hash demo_parent) relay_index)); vm_compute; reflexivity).
  split; [|vm_compute; reflexivity|vm_compute; reflexivity|reflexivity| |vm_compute; reflexivity|vm_compute; reflexivity|vm_compute; reflexivity|exists demo_parent; vm_compute; reflexivity|reflexivity|vm_compute; reflexivity].
  - refine (store_inv_message (D := toy_digests) (cs_store demo_genesis) [] (StoreBlockIndex (demo_hash demo_parent) relay_index) (Ok tt) relay_store Hi _ (f_equal Some E1)).
    split; [|done]. unfold block_index_ok, header_ok, hash_ok, array_ok, i32_ok, u32_ok. apply (bool_decide_unpack _). vm_compute. exact I.
  - apply refines_base; [|intros o; apply (store_block_index_coins _ _ _ _ E1)]. split.
    + intros o e He. vm_compute in He. by destruct o as [[] ?].
    + intros o. rewrite get_coin_eq. change (cache (cs_cache demo_genesis)) with (∅ : gmap OutPoint CoinCacheEntry). rewrite !lookup_empty. apply Hc.
Qed.
Lemma relay_sendable : sendable (MBlock relay_block).
Proof.
  split; [|split; [reflexivity|vm_compute; discriminate]]. cbn [message_ok].
  unfold block_ok, header_ok, list_ok, tx_encodable, tx_ok, txin_base_ok, outpoint_ok, witness_ok, list_ok, txout_ok, varbytes_ok, hash_ok, array_ok, vec_ok, i32_ok, u32_ok, u64_ok.
  apply (bool_decide_unpack _). vm_compute. exact I.
Qed.

Lemma relayed_block_connects_witness :
  exists answer, @first_connected _ _ in_memory toy_digests toy_secp demo_verify demo_env None demo_tip (demo_hash demo_parent) relay_block relay_outcome.2 answer
    (bc_manager (n_chain (@run_events _ (@blockchain_validation _ _ in_memory toy_digests toy_secp demo_verify)
      (@blockchain_sync _ _ in_memory toy_digests toy_secp demo_verify) toy_digests demo_hasher
      (map (fun msg => (canonical_order, relay_env, EvMessage relay_peer msg)) (@read_loop toy_digests REGTEST relay_chunks).1 ++ [(canonical_order, relay_env, EvConnectorTick)])
      relay_net))).
Proof.
  apply (@relayed_block_connects _ _ in_memory in_memory_ok toy_digests toy_digests_ok toy_secp demo_verify demo_hasher REGTEST relay_chunks
    canonical_order canonical_order relay_env relay_env relay_peer relay_net [] ∅ relay_outcome.2 None demo_tip relay_index relay_block 1 (0, [])).
  - exact demo_magic_ok.
  - exact relay_sendable.
  - vm_compute. reflexivity.
  - exact relay_awaits.
  - vm_compute. reflexivity.
  - vm_compute. reflexivity.
  - apply (bool_decide_unpack _). vm_compute. exact I.
  - apply (pair_eq relay_outcome). vm_compute. reflexivity.
Defined.

(** The same chain with the witness rules in force from the first block, and the block
    with a witness added to its coinbase: the same header and transaction ids. *)
Definition segwit_params : ChainParams :=
  mkChainParams REGTEST (test_header 0)
    (mkConsensusParams 1000 1000 1000 1 (le_bytes 32 (2 ^ 255 - 1)) 600 1209600 true true 150 ZERO_HASH ZERO_HASH false []) 18444 "bcrt" [] [].
Definition segwit_node : Blockchain Database ConsensusEngine :=
  let m := relay_manager in
  Blockchain_new (mkManager segwit_params (waiting_blocks m) (is_activating m) (cs_cache m) (blocks_since_flush m) (active_tip m) (cs_engine m) (script_checks m)
    (last_failed_activation m)) Mempool_new segwit_params.
Definition mutated_block : Block :=
  mkBlock (header relay_block) [mkTransaction 1 [mkTxIn OutPoint_COINBASE [2; 200; 0] 0 [[1]]] [mkTxOut 50 [0x51]] 0].
Definition turn_at (t : Z) : NodeTurn := Activates (mkEnv (fun _ => t) (fun _ l => l) (fun _ => [])).

Lemma segwit_awaits : @awaits _ _ in_memory toy_digests (bc_manager segwit_node) [] ∅ None demo_tip mutated_block relay_index.
Proof.
  assert (cs_cache (bc_manager segwit_node) = cs_cache relay_manager) as Hc by reflexivity.
  destruct relay_awaits as [A1 A2 _ _ A5 _ _ _ _ _ _]. split; unfold cs_store in *; rewrite ?Hc; [exact A1|exact A2| | |exact A5| | | | | |].
  all: try (vm_compute; reflexivity). exists demo_parent. vm_compute. reflexivity.
Qed.

(** Activation before and after correct copies, and once the thirty seconds are over,
    leaves the node at the genesis block; without the altered copy it connects the
    block. *)
Lemma mutated_block_sticks_witness :
  active_tip (bc_manager (fold_left (@take_turn _ _ in_memory toy_digests toy_secp demo_verify) [turn_at 0; Arrives demo_env relay_block; turn_at 31; Arrives demo_env relay_block; turn_at 90]
    (@process_block _ _ in_memory toy_digests toy_secp demo_verify demo_env mutated_block segwit_node).2)) = active_tip (bc_manager segwit_node) /\
  active_tip (bc_manager segwit_node) = Some (demo_parent, 0) /\
  active_tip (bc_manager (fold_left (@take_turn _ _ in_memory toy_digests toy_secp demo_verify) [Arrives demo_env relay_block; turn_at 0] segwit_node)) = Some (demo_hash demo_parent, 1).
Proof.
  split; [|split; vm_compute; reflexivity]. eapply proj1.
  apply (@mutated_block_sticks _ _ in_memory in_memory_ok toy_digests toy_digests_ok toy_secp demo_verify demo_env segwit_node [] ∅ None demo_tip relay_index
    mutated_block 1 UnexpectedWitness).
  - exact segwit_awaits.
  - split; [|split; [reflexivity|vm_compute; discriminate]]. cbn [message_ok].
    unfold block_ok, header_ok, list_ok, tx_encodable, tx_ok, txin_base_ok, outpoint_ok, witness_ok, list_ok, txout_ok, varbytes_ok, hash_ok, array_ok, vec_ok, i32_ok, u32_ok, u64_ok.
    apply (bool_decide_unpack _). vm_compute. exact I.
  - vm_compute. reflexivity.
  - vm_compute. reflexivity.
  - vm_compute. discriminate.
  - vm_compute. reflexivity.
  - repeat constructor.
Defined.
