(* ===== verification/Tasks.v ===== *)
(** * Tasks over a shared state

    The programs of [tokio] tasks: finite trees of atomic steps on a shared state, with
    a step that cannot be taken yet (a full channel) left waiting.  A pool holds the
    spawned tasks; a task first takes a permit of its lock, runs its steps interleaved
    with those of the others in any order, and gives the permit back when it ends.  A
    [Mutex] is a lock of one permit, a [Semaphore] one of several; which of the waiting
    tasks gets a permit is left open. *)

From S2P Require Import Prelude PeerTable.

(** ** Programs *)

(** [W] is what a step gets from outside, [S] the shared state. *)
Inductive Prog (W S A : Type) : Type :=
  | Done (a : A)
  | Step (f : W -> S -> option (Prog W S A * S * list Effect)).
Arguments Done {W S A}.
Arguments Step {W S A}.

Section Prog.
Context {W S : Type}.

(** The induction principle that looks through the result of a step. *)
Lemma Prog_steps_ind {A} (P : Prog W S A -> Prop) :
  (forall a, P (Done a)) -> (forall f, (forall w s p s' o, f w s = Some (p, s', o) -> P p) -> P (Step f)) -> forall p, P p.
Proof.
  intros HD HS. fix IH 1. intros [a|f]; [apply HD|]. apply HS. intros w s p s' o Hf.
  destruct (f w s) as [[[p1 s1] o1]|]; [|discriminate Hf]. injection Hf as <- _ _. apply IH.
Qed.

Fixpoint prog_bind {A B} (k : A -> Prog W S B) (p : Prog W S A) : Prog W S B :=
  match p with
  | Done a => k a
  | Step f => Step (fun w s => match f w s with Some (p, s, o) => Some (prog_bind k p, s, o) | None => None end)
  end.
#[global] Instance Prog_ret : MRet (Prog W S) := fun A a => Done a.
#[global] Instance Prog_bind : MBind (Prog W S) := fun A B k p => prog_bind k p.

(** One step that never waits. *)
Definition atomic {A} (f : W -> S -> A * S * list Effect) : Prog W S A :=
  Step (fun w s => let '(a, s, o) := f w s in Some (Done a, s, o)).

(** The program run to its end by itself, with one environment: [None] when it waits. *)
Fixpoint alone {A} (w : W) (p : Prog W S A) (s : S) : option (A * S * list Effect) :=
  match p with
  | Done a => Some (a, s, [])
  | Step f =>
    match f w s with
    | None => None
    | Some (p, s, o) => match alone w p s with Some (a, s, o') => Some (a, s, o ++ o') | None => None end
    end
  end.

Lemma alone_bind {A B} w (k : A -> Prog W S B) p s :
  alone w (p ≫= k) s =
    match alone w p s with
    | None => None
    | Some (a, s, o) => match alone w (k a) s with Some (b, s, o') => Some (b, s, o ++ o') | None => None end
    end.
Proof.
  revert s. induction p as [a|f IH] using Prog_steps_ind; intros s.
  - cbn. by destruct (alone w (k a) s) as [[[b s'] o']|].
  - cbn. destruct (f w s) as [[[p s1] o1]|] eqn:Ef; [|done]. specialize (IH w s p s1 o1 Ef s1). unfold mbind, Prog_bind in IH. rewrite IH.
    destruct (alone w p s1) as [[[a s2] o2]|]; [|done]. destruct (alone w (k a) s2) as [[[b s3] o3]|]; [|done]. by rewrite app_assoc.
Qed.
Lemma alone_atomic {A} w (f : W -> S -> A * S * list Effect) s : alone w (atomic f) s = Some (f w s).
Proof. cbn. destruct (f w s) as [[a s'] o]. cbn. by rewrite app_nil_r. Qed.

(** At most [n] steps, whatever they meet. *)
Inductive within {A} : nat -> Prog W S A -> Prop :=
  | within_done n a : within n (Done a)
  | within_step n f : (forall w s p s' o, f w s = Some (p, s', o) -> within n p) -> within (Datatypes.S n) (Step f).

Lemma within_mono {A} n m (p : Prog W S A) : within n p -> (n <= m)%nat -> within m p.
Proof.
  intros H. revert m. induction H as [|n f _ IH]; intros m Hm; [constructor|]. destruct m as [|m]; [lia|]. constructor. intros. eapply IH; [done|lia].
Qed.
Lemma within_bind {A B} n m (p : Prog W S A) (k : A -> Prog W S B) : within n p -> (forall a, within m (k a)) -> within (n + m) (p ≫= k).
Proof.
  intros Hp Hk. induction Hp as [n a|n f _ IH]; [apply (within_mono m); [apply Hk|lia]|].
  constructor. intros w s p s' o E. destruct (f w s) as [[[p1 s1] o1]|] eqn:Ef; [|done]. injection E as <- <- <-. by eapply IH.
Qed.
Lemma within_atomic {A} (f : W -> S -> A * S * list Effect) : within 1 (atomic f).
Proof. constructor. intros w s p s' o E. destruct (f w s) as [[a s1] o1]. injection E as <- _ _. constructor. Qed.

(** Whatever it meets, every step of the program preserves [I]. *)
Definition steps_keep (I : S -> Prop) {A} : Prog W S A -> Prop :=
  fix go p := match p with
  | Done _ => True
  | Step f => forall w s, I s -> match f w s with Some (p, s, o) => I s /\ go p | None => True end
  end.

Lemma steps_keep_bind I {A B} (p : Prog W S A) (k : A -> Prog W S B) : steps_keep I p -> (forall a, steps_keep I (k a)) -> steps_keep I (p ≫= k).
Proof.
  intros Hp Hk. induction p as [a|f IH] using Prog_steps_ind; [apply Hk|]. cbn. intros w s Hs. specialize (Hp w s Hs).
  destruct (f w s) as [[[p s1] o1]|] eqn:Ef; [|done]. destruct Hp as [H1 H2]. split; [done|]. by eapply IH.
Qed.
Lemma steps_keep_atomic (I : S -> Prop) {A} (f : W -> S -> A * S * list Effect) : (forall w s, I s -> I (f w s).1.2) -> steps_keep I (atomic f).
Proof. intros Hf w s Hs. cbn. specialize (Hf w s Hs). by destruct (f w s) as [[a s'] o]. Qed.

(** No step changes [g]. *)
Definition steps_frame {X} (g : S -> X) {A} : Prog W S A -> Prop :=
  fix go p := match p with
  | Done _ => True
  | Step f => forall w s, match f w s with Some (p, s', o) => g s' = g s /\ go p | None => True end
  end.
Lemma steps_frame_bind {X} (g : S -> X) {A B} (p : Prog W S A) (k : A -> Prog W S B) : steps_frame g p -> (forall a, steps_frame g (k a)) -> steps_frame g (p ≫= k).
Proof.
  intros Hp Hk. induction p as [a|f IH] using Prog_steps_ind; [apply Hk|]. cbn. intros w s. specialize (Hp w s).
  destruct (f w s) as [[[p s1] o1]|] eqn:Ef; [|done]. destruct Hp as [H1 H2]. split; [done|]. by eapply IH.
Qed.
Lemma steps_frame_atomic {X} (g : S -> X) {A} (f : W -> S -> A * S * list Effect) : (forall w s, g (f w s).1.2 = g s) -> steps_frame g (atomic f).
Proof. intros Hf w s. cbn. specialize (Hf w s). by destruct (f w s) as [[a s'] o]. Qed.

(** In the environments of [ok] no step waits. *)
Definition responsive (ok : W -> Prop) {A} : Prog W S A -> Prop :=
  fix go p := match p with
  | Done _ => True
  | Step f => forall w s, match f w s with Some (p, s, o) => go p | None => ~ ok w end
  end.

Lemma responsive_bind ok {A B} (p : Prog W S A) (k : A -> Prog W S B) : responsive ok p -> (forall a, responsive ok (k a)) -> responsive ok (p ≫= k).
Proof.
  intros Hp Hk. induction p as [a|f IH] using Prog_steps_ind; [apply Hk|]. cbn. intros w s. specialize (Hp w s).
  destruct (f w s) as [[[p s1] o1]|] eqn:Ef; [|done]. by eapply IH.
Qed.
Lemma responsive_atomic ok {A} (f : W -> S -> A * S * list Effect) : responsive ok (atomic f).
Proof. intros w s. cbn. by destruct (f w s) as [[a s'] o]. Qed.

(** Both: the program ends after at most [n] steps and waits only outside [ok]. *)
Definition ends_by (ok : W -> Prop) {A} (n : nat) (p : Prog W S A) : Prop := responsive ok p /\ within n p.
Lemma ends_by_ret ok {A} n (a : A) : ends_by ok n (mret a).
Proof. split; [done|constructor]. Qed.
Lemma ends_by_atomic ok {A} n (f : W -> S -> A * S * list Effect) : ends_by ok (Datatypes.S n) (atomic f).
Proof. split; [apply responsive_atomic|]. apply (within_mono 1); [apply within_atomic|lia]. Qed.
Lemma ends_by_bind ok {A B} n m (p : Prog W S A) (k : A -> Prog W S B) : ends_by ok n p -> (forall a, ends_by ok m (k a)) -> ends_by ok (n + m) (p ≫= k).
Proof. intros [H1 H2] Hk. split; [apply responsive_bind; [done|apply Hk]|]. apply within_bind; [done|apply Hk]. Qed.
Lemma ends_by_step ok {A B} n (f : W -> S -> A * S * list Effect) (k : A -> Prog W S B) :
  (forall a, ends_by ok n (k a)) -> ends_by ok (Datatypes.S n) (atomic f ≫= k).
Proof. intros Hk. apply (ends_by_bind ok 1 n); [apply ends_by_atomic|done]. Qed.
Lemma ends_by_mono ok {A} n m (p : Prog W S A) : ends_by ok n p -> (n <= m)%nat -> ends_by ok m p.
Proof. intros [H1 H2] Hle. split; [done|by eapply within_mono]. Qed.
End Prog.
Ltac end_steps := repeat first
  [ match goal with |- forall _, _ => intro end | apply ends_by_ret | apply ends_by_step | apply ends_by_atomic
  | match goal with |- ends_by _ _ (match ?x with _ => _ end) => destruct x end ].

(** A program on a part of the state. *)
Section Zoom.
Context {W V S T : Type} (env : W -> V) (get : S -> T) (set : T -> S -> S).
Fixpoint zoom {A} (p : Prog V T A) : Prog W S A :=
  match p with
  | Done a => Done a
  | Step f => Step (fun w s => match f (env w) (get s) with Some (p, t, o) => Some (zoom p, set t s, o) | None => None end)
  end.
Lemma alone_zoom {A} w (p : Prog V T A) s : (forall t s, get (set t s) = t) -> (forall t u s, set t (set u s) = set t s) -> set (get s) s = s ->
  alone w (zoom p) s = match alone (env w) p (get s) with Some (a, t, o) => Some (a, set t s, o) | None => None end.
Proof.
  intros Hgs Hss. revert s. induction p as [a|f IH] using Prog_steps_ind; intros s Hs; cbn; [by rewrite Hs|].
  destruct (f (env w) (get s)) as [[[p t] o]|] eqn:Ef; [|done]. rewrite (IH _ _ _ _ _ Ef), Hgs by (by rewrite Hgs).
  destruct (alone (env w) p t) as [[[a u] o']|]; [|done]. by rewrite Hss.
Qed.
Lemma within_zoom {A} n (p : Prog V T A) : within n p -> within n (zoom p).
Proof.
  induction 1 as [n a|n f _ IH]; [constructor|]. cbn. constructor. intros w s p s' o E.
  destruct (f (env w) (get s)) as [[[p1 t1] o1]|] eqn:Ef; [|done]. injection E as <- _ _. by eapply IH.
Qed.
Lemma responsive_zoom ok {A} (p : Prog V T A) : responsive (fun _ => True) p -> responsive ok (zoom p).
Proof.
  intros Hp. induction p as [a|f IH] using Prog_steps_ind; [done|]. cbn. intros w s. specialize (Hp (env w) (get s)).
  destruct (f (env w) (get s)) as [[[p t] o]|] eqn:Ef; [|tauto]. by eapply IH.
Qed.
Lemma steps_frame_zoom {X} (g : S -> X) {A} (p : Prog V T A) : (forall t s, g (set t s) = g s) -> steps_frame g (zoom p).
Proof.
  intros Hset. induction p as [a|f IH] using Prog_steps_ind; [done|]. cbn. intros w s.
  destruct (f (env w) (get s)) as [[[p t] o]|] eqn:Ef; [|done]. split; [by apply Hset|]. by eapply IH.
Qed.
Lemma ends_by_zoom ok {A} n (p : Prog V T A) : ends_by (fun _ => True) n p -> ends_by ok n (zoom p).
Proof. intros [H1 H2]. split; [by apply responsive_zoom|by apply within_zoom]. Qed.
Lemma steps_keep_zoom (I : S -> Prop) {A} (p : Prog V T A) : (forall t s, I s -> I (set t s)) -> steps_keep I (zoom p).
Proof.
  intros Hset. induction p as [a|f IH] using Prog_steps_ind; [done|]. cbn. intros w s Hs.
  destruct (f (env w) (get s)) as [[[p t] o]|] eqn:Ef; [|done]. split; [by apply Hset|]. by eapply IH.
Qed.
End Zoom.

(** ** The pool *)

Section Pool.
Context {W S L : Type} `{!EqDecision L} (permits : L -> nat).

Record PoolTask : Type := mkPoolTask { tk_lock : L; tk_running : bool; tk_prog : Prog W S unit }.
Definition spawn (l : L) (p : Prog W S unit) : PoolTask := mkPoolTask l false p.
Definition holds (l : L) (t : PoolTask) : bool := tk_running t && bool_decide (tk_lock t = l).
(** The permits of a lock that are taken. *)
Definition holders (l : L) (ts : list PoolTask) : nat := length (List.filter (holds l) ts).

(** What one task does: it takes a permit, takes a step, or ends. *)
Inductive task_move (w : W) : S * list PoolTask -> list Effect -> S * list PoolTask -> Prop :=
  | tm_acquire s ts1 l p ts2 : (holders l (ts1 ++ ts2) < permits l)%nat ->
      task_move w (s, ts1 ++ mkPoolTask l false p :: ts2) [] (s, ts1 ++ mkPoolTask l true p :: ts2)
  | tm_step s ts1 l f ts2 p s' o : f w s = Some (p, s', o) ->
      task_move w (s, ts1 ++ mkPoolTask l true (Step f) :: ts2) o (s', ts1 ++ mkPoolTask l true p :: ts2)
  | tm_done s ts1 l ts2 : task_move w (s, ts1 ++ mkPoolTask l true (Done tt) :: ts2) [] (s, ts1 ++ ts2).

Lemma holders_app l ts1 ts2 : holders l (ts1 ++ ts2) = (holders l ts1 + holders l ts2)%nat.
Proof. unfold holders. by rewrite List.filter_app, length_app. Qed.
Lemma holders_cons l t ts : holders l (t :: ts) = ((if holds l t then 1 else 0) + holders l ts)%nat.
Proof. unfold holders. cbn. by destruct (holds l t). Qed.
Lemma holders_mid l ts1 t ts2 : holders l (ts1 ++ t :: ts2) = ((if holds l t then 1 else 0) + holders l (ts1 ++ ts2))%nat.
Proof. rewrite !holders_app, holders_cons. lia. Qed.
Lemma holds_running l l' b p : holds l (mkPoolTask l' b p) = b && bool_decide (l' = l).
Proof. done. Qed.

(** No lock is held more often than it has permits. *)
Definition locks_ok (ts : list PoolTask) : Prop := forall l, (holders l ts <= permits l)%nat.

Lemma task_move_locks w s ts o s' ts' : task_move w (s, ts) o (s', ts') -> locks_ok ts -> locks_ok ts'.
Proof.
  intros H Hl l'. specialize (Hl l'). inversion H; subst; rewrite ?holders_mid, ?holds_running in *; cbn [andb] in *; try lia.
  case_bool_decide; subst; lia.
Qed.
Lemma spawn_locks l p ts : locks_ok ts -> locks_ok (ts ++ [spawn l p]).
Proof. intros Hl l'. specialize (Hl l'). rewrite holders_app. cbn. lia. Qed.

(** Every task keeps [I]. *)
Lemma task_move_keeps (I : S -> Prop) w s ts o s' ts' : task_move w (s, ts) o (s', ts') ->
  I s -> Forall (fun t => steps_keep I (tk_prog t)) ts -> I s' /\ Forall (fun t => steps_keep I (tk_prog t)) ts'.
Proof.
  intros Hm Hs Ht. inversion Hm; subst; rewrite Forall_app, Forall_cons in Ht; destruct Ht as (K1 & K2 & K3); cbn [tk_prog] in *.
  - split; [done|]. rewrite Forall_app, Forall_cons. done.
  - match goal with E : _ = Some _ |- _ => pose proof (K2 w s Hs) as K4; rewrite E in K4 end. destruct K4 as [K4 K5].
    split; [done|]. rewrite Forall_app, Forall_cons. done.
  - split; [done|]. by apply Forall_app.
Qed.

(** *** How long a pool can run *)

(** An upper bound of the moves left: the steps of each task, its end, and taking its permit. *)
Inductive fuel : list PoolTask -> nat -> Prop :=
  | fuel_nil : fuel [] 0
  | fuel_cons t ts n m : within n (tk_prog t) -> fuel ts m -> fuel (t :: ts) (n + (if tk_running t then 1 else 2) + m).

Lemma fuel_app ts1 ts2 k : fuel (ts1 ++ ts2) k <-> exists n m, fuel ts1 n /\ fuel ts2 m /\ k = (n + m)%nat.
Proof.
  revert k. induction ts1 as [|t ts1 IH]; intros k; cbn.
  - split; [intros H; exists 0%nat, k; split_and!; [constructor|done|lia]|]. intros (n & m & Hn & Hm & ->). by inversion Hn; subst.
  - split.
    + intros H. inversion H as [|t' ts' n m Hw Hf]; subst. apply IH in Hf as (n1 & m1 & K1 & K2 & ->).
      exists (n + (if tk_running t then 1 else 2) + n1)%nat, m1. split_and!; [by constructor|done|lia].
    + intros (n & m & Hn & Hm & ->). inversion Hn as [|t' ts' n1 m1 Hw Hf]; subst. rewrite <- Nat.add_assoc. constructor; [done|]. apply IH. eauto.
Qed.

Lemma task_move_fuel w s ts o s' ts' n : task_move w (s, ts) o (s', ts') -> fuel ts n -> exists m, fuel ts' m /\ (m < n)%nat.
Proof.
  intros H Hn. inversion H; subst; apply fuel_app in Hn as (n1 & n2 & K1 & K2 & ->); inversion K2 as [|t' ts3 n m Hw Hf]; subst; cbn [tk_prog tk_running] in *.
  - exists (n1 + (n + 1 + m))%nat. split; [|lia]. apply fuel_app. exists n1, (n + 1 + m)%nat. split_and!; [done| |done]. by apply (fuel_cons (mkPoolTask l true p)).
  - inversion Hw as [|n0 f' Hs]; subst. exists (n1 + (n0 + 1 + m))%nat. split; [|lia].
    apply fuel_app. exists n1, (n0 + 1 + m)%nat. split_and!; [done| |done]. apply (fuel_cons (mkPoolTask l true p)); [cbn; eauto|done].
  - exists (n1 + m)%nat. split; [|lia]. apply fuel_app. eauto.
Qed.

(** A run of the tasks alone, each move in an environment of its own. *)
Inductive moves (ok : W -> Prop) : nat -> S * list PoolTask -> list Effect -> S * list PoolTask -> Prop :=
  | moves_nil p : moves ok 0 p [] p
  | moves_cons n w p o p1 o' p2 : ok w -> task_move w p o p1 -> moves ok n p1 o' p2 -> moves ok (Datatypes.S n) p (o ++ o') p2.

Lemma moves_fuel ok n s ts o s' ts' k : moves ok n (s, ts) o (s', ts') -> fuel ts k -> (n <= k)%nat.
Proof.
  intros H. remember (s, ts) as p eqn:E1. remember (s', ts') as p' eqn:E2. revert s ts k E1 E2.
  induction H as [|n w p o [s1 ts1] o' p2 _ Hm _ IH]; intros s0 ts0 k -> E2 Hk; [lia|].
  destruct (task_move_fuel _ _ _ _ _ _ _ Hm Hk) as (m & Hm' & Hlt). specialize (IH _ _ m eq_refl E2 Hm'). lia.
Qed.

(** Nothing waits for ever on a lock that has permits: some task moves or there is
    none left, as long as no step waits. *)
Lemma pool_progress ok w s ts : ok w -> (forall l, (0 < permits l)%nat) -> Forall (fun t => responsive ok (tk_prog t)) ts ->
  ts = [] \/ exists o p, task_move w (s, ts) o p.
Proof.
  intros Hw Hp Ht. destruct (decide (Exists (fun t => tk_running t = true) ts)) as [Hr|Hr].
  - right. apply Exists_exists in Hr as (t & Hin & Hr). apply list_elem_of_split in Hin as (ts1 & ts2 & ->).
    apply Forall_app in Ht as [_ Ht]. apply Forall_cons in Ht as [Ht _]. destruct t as [l b [[]|f]]; cbn in *; subst b.
    + eexists _, _. apply tm_done.
    + specialize (Ht w s). destruct (f w s) as [[[p s'] o]|] eqn:Ef; [|done]. eexists _, _. by apply tm_step.
  - destruct ts as [|t ts]; [by left|right]. apply not_Exists_Forall in Hr; [|intros ?; apply _]. destruct t as [l b p].
    assert (b = false) as -> by (apply Forall_inv in Hr; destruct b; [by destruct (Hr eq_refl)|done]). eexists _, _. apply (tm_acquire w s [] l p ts). cbn [app].
    assert (holders l ts = 0%nat) as ->; [|apply Hp]. apply Forall_inv_tail in Hr. clear -Hr. induction Hr as [|t ts Ht _ IH]; [done|].
    rewrite holders_cons, IH. unfold holds. destruct (tk_running t) eqn:Er; [by destruct (Ht Er)|done].
Qed.
Lemma task_move_responsive ok w s ts o s' ts' : task_move w (s, ts) o (s', ts') ->
  Forall (fun t => responsive ok (tk_prog t)) ts -> Forall (fun t => responsive ok (tk_prog t)) ts'.
Proof.
  intros Hm Ht. inversion Hm; subst; rewrite Forall_app, Forall_cons in Ht; destruct Ht as (K1 & K2 & K3); cbn [tk_prog] in *.
  - rewrite Forall_app, Forall_cons. done.
  - match goal with E : _ = Some _ |- _ => pose proof (K2 w s) as K4; rewrite E in K4 end. rewrite Forall_app, Forall_cons. done.
  - by apply Forall_app.
Qed.

(** Tasks that never wait for good are all done after boundedly many moves, however
    they are scheduled. *)
Lemma pool_drains ok ts : (forall l, (0 < permits l)%nat) -> Forall (fun t => exists n, ends_by ok n (tk_prog t)) ts ->
  exists bound, forall s n o s' ts', moves ok n (s, ts) o (s', ts') -> (n <= bound)%nat /\
    (ts' = [] \/ forall w, ok w -> exists o' p, task_move w (s', ts') o' p).
Proof.
  intros Hp Ht. assert (exists k, fuel ts k) as [k Hk].
  { clear Hp. induction Ht as [|t ts [n [_ Hn]] _ [m IH]]; [exists 0%nat; constructor|]. eexists. by constructor. }
  exists k. intros s n o s' ts' Hm. split; [by eapply moves_fuel|].
  assert (Forall (fun t => responsive ok (tk_prog t)) ts') as Hr.
  { assert (Forall (fun t => responsive ok (tk_prog t)) ts) as Hr by (eapply Forall_impl; [exact Ht|]; by intros t [k' [Hr _]]). remember (s, ts) as p eqn:E1. remember (s', ts') as p' eqn:E2. clear Hk Ht. revert s ts E1 E2 Hr.
    induction Hm as [|n w p o [s1 ts1] o' p2 _ Hm _ IH]; intros s0 ts0 -> E2 Hr; [by injection E2 as _ <-|].
    eapply IH; [done|done|]. by eapply task_move_responsive. }
  destruct ts' as [|t' ts']; [by left|right]. intros w Hw. destruct (pool_progress ok w s' (t' :: ts') Hw Hp Hr) as [|H]; done.
Qed.
End Pool.
Arguments PoolTask : clear implicits.

(** ** Rely and guarantee *)

(** [safe R G I Q p s]: from [s], in a world whose other steps are in [R], every step of
    the program keeps [I] and is in [G], and its result satisfies [Q]. *)
Section Safe.
Context {W S : Type} (R G : S -> S -> Prop) (I : S -> Prop).
Definition safe {A} (Q : A -> S -> Prop) : Prog W S A -> S -> Prop :=
  fix go p s := match p with
  | Done a => Q a s
  | Step f => forall w s1, R s s1 -> I s1 -> match f w s1 with Some (p, s2, o) => I s2 /\ G s1 s2 /\ go p s2 | None => True end
  end.

Lemma safe_bind {A B} (Q : A -> S -> Prop) (Q' : B -> S -> Prop) p (k : A -> Prog W S B) s :
  safe Q p s -> (forall a s, Q a s -> safe Q' (k a) s) -> safe Q' (p ≫= k) s.
Proof.
  intros Hp Hk. revert s Hp. induction p as [a|f IH] using Prog_steps_ind; intros s Hp; [by apply Hk|]. cbn. intros w s1 Hr Hi.
  specialize (Hp w s1 Hr Hi). destruct (f w s1) as [[[p s2] o]|] eqn:Ef; [|done]. destruct Hp as (H1 & H2 & H3). split_and!; [done..|]. by eapply IH.
Qed.
Lemma safe_atomic {A} (Q : A -> S -> Prop) (f : W -> S -> A * S * list Effect) s :
  (forall w s1, R s s1 -> I s1 -> I (f w s1).1.2 /\ G s1 (f w s1).1.2 /\ Q (f w s1).1.1 (f w s1).1.2) -> safe Q (atomic f) s.
Proof. intros Hf w s1 Hr Hi. cbn. specialize (Hf w s1 Hr Hi). by destruct (f w s1) as [[a s2] o]. Qed.
Lemma safe_later {A} (p : Prog W S A) s s' : Transitive R -> safe (fun _ _ => True) p s -> R s s' -> safe (fun _ _ => True) p s'.
Proof. intros Ht Hp Hr. destruct p as [a|f]; [done|]. intros w s1 Hr1. apply Hp. by etransitivity. Qed.
Lemma safe_weaken {A} (Q Q' : A -> S -> Prop) (p : Prog W S A) s : (forall a s, Q a s -> Q' a s) -> safe Q p s -> safe Q' p s.
Proof.
  intros HQ. revert s. induction p as [a|f IH] using Prog_steps_ind; intros s Hp; [by apply HQ|]. cbn. intros w s1 Hr Hi.
  specialize (Hp w s1 Hr Hi). destruct (f w s1) as [[[p s2] o]|] eqn:Ef; [|done]. destruct Hp as (H1 & H2 & H3). split_and!; [done..|]. by eapply IH.
Qed.
End Safe.

Lemma safe_zoom {W V S T A} (env : W -> V) (get : S -> T) (set : T -> S -> S) (R G : T -> T -> Prop) (I : T -> Prop) (Q : A -> T -> Prop) (p : Prog V T A) s :
  (forall t s, get (set t s) = t) -> safe R G I Q p (get s) ->
  safe (fun s s' => R (get s) (get s')) (fun s s' => G (get s) (get s')) (fun s => I (get s)) (fun a s => Q a (get s)) (zoom env get set p) s.
Proof.
  intros Hgs. revert s. induction p as [a|f IH] using Prog_steps_ind; intros s Hp; [done|]. cbn. intros w s1 Hr Hi.
  specialize (Hp (env w) (get s1) Hr Hi). destruct (f (env w) (get s1)) as [[[p t] o]|] eqn:Ef; [|done]. rewrite !Hgs. destruct Hp as (H1 & H2 & H3).
  split_and!; [done..|]. eapply IH; [exact Ef|]. by rewrite Hgs.
Qed.

(** A pool whose tasks rely on and guarantee what belongs to their lock.  Tasks of the
    same lock have to tolerate each other only when it has more than one permit. *)
Section RelyPool.
Context {W S L : Type} `{!EqDecision L} (permits : L -> nat) (R G : L -> S -> S -> Prop) (I : S -> Prop).
Context (R_refl : forall l, Reflexive (R l)) (R_trans : forall l, Transitive (R l)).
Hypothesis compatible : forall l l' s s', G l s s' -> l' <> l \/ (1 < permits l)%nat -> R l' s s'.

Definition task_safe (s : S) (t : PoolTask W S L) : Prop :=
  if tk_running t then safe (R (tk_lock t)) (G (tk_lock t)) I (fun _ _ => True) (tk_prog t) s
  else forall s, I s -> safe (R (tk_lock t)) (G (tk_lock t)) I (fun _ _ => True) (tk_prog t) s.

Lemma task_safe_later s s' t : task_safe s t -> (tk_running t = true -> R (tk_lock t) s s') -> task_safe s' t.
Proof using R_trans. unfold task_safe. destruct (tk_running t); [|done]. intros Hs Hr. eapply safe_later; [apply R_trans|exact Hs|by apply Hr]. Qed.

Lemma no_holder l (ts : list (PoolTask W S L)) t : holders l ts = 0%nat -> t ∈ ts -> tk_running t = true -> tk_lock t <> l.
Proof.
  intros H0 Hin Hr <-. apply list_elem_of_split in Hin as (l1 & l2 & ->). rewrite holders_mid in H0. unfold holds in H0. by rewrite Hr, bool_decide_true in H0.
Qed.

Lemma task_move_safe w s ts o s' ts' : task_move permits w (s, ts) o (s', ts') -> locks_ok permits ts -> I s -> Forall (task_safe s) ts ->
  I s' /\ (s' = s \/ exists l, G l s s') /\ Forall (task_safe s') ts'.
Proof using R_refl R_trans compatible.
  intros Hm Hl Hi Ht. inversion Hm as [? ts1 l p ts2 Hp|? ts1 l f ts2 p ? ? Hf|? ts1 l ts2]; subst; rewrite Forall_app, Forall_cons in Ht; destruct Ht as (K1 & K2 & K3).
  - split_and!; [done|by left|]. rewrite Forall_app, Forall_cons. split_and!; [done| |done]. by apply K2.
  - specialize (K2 w s ltac:(reflexivity) Hi). cbn in K2. rewrite Hf in K2. destruct K2 as (J1 & J2 & J3). split_and!; [done|by right; exists l|].
    specialize (Hl l). rewrite holders_mid, holds_running, bool_decide_true in Hl by done. cbn in Hl.
    assert (forall t, t ∈ ts1 ++ ts2 -> task_safe s t -> task_safe s' t) as Hk.
    { intros t Hin Hs. apply (task_safe_later s); [done|]. intros Hr. apply (compatible l); [done|].
      destruct (decide (1 < permits l)%nat); [by right|]. left. apply (no_holder l (ts1 ++ ts2)); [lia|done|done]. }
    rewrite Forall_app, Forall_cons. split_and!; [|done|]; apply Forall_forall; intros t Hin; apply Hk.
    + apply elem_of_app; by left.
    + rewrite Forall_forall in K1. by apply K1.
    + apply elem_of_app; by right.
    + rewrite Forall_forall in K3. by apply K3.
  - split_and!; [done|by left|]. by apply Forall_app.
Qed.
End RelyPool.
