(* ===== verification/PeerTasks.v ===== *)
(** * The peer manager's tasks

    net/p2p/peer_manager.rs: [process_message] spawns a task for every headers and
    every block message and handles the rest in the reader.  The header tasks of all
    peers share the mutex [header_processing], the block tasks the 64 permits of
    [block_processing].  Peers has the handlers as if nothing ran beside them; here
    they are programs of Tasks, cut where they await or take a lock, with the node's
    [process_headers] and [process_block] (node/blockchain.rs) cut at their reads of
    the store, their messages to the actors and the update of the header path.  A
    message to an actor is one step, since the actor answers one message after the
    other (Actors); so is the check of one header against the difficulty rules. *)

From S2P Require Import Prelude Wire Hash Transaction Block Params Pow Coins Taproot Engine Validation BlockFile Store Chainstate Node P2P AddrMan Sync PeerTable Peers Downloader Connect NetProofs Transport Tasks.

(** ** The chain, as the tasks use it *)

(** [ValidationInterface], with awaits. *)
Class ValidationTasks (C : Type) : Type := {
  vt_process_headers : list BlockHeader -> Prog Env C (result (list Z) NodeError);
  vt_process_block : Block -> Prog Env C (result Z NodeError);
}.
(** The programs do what the handlers of [ValidationInterface] do when nothing
    interferes, and never wait. *)
Class ValidationTasksOk (C : Type) {VI : ValidationInterface C} {VT : ValidationTasks C} : Prop := {
  vt_headers_alone env hs c : alone env (vt_process_headers hs) c = Some (vi_process_headers env hs c, []);
  vt_block_alone env b c : alone env (vt_process_block b) c = Some (vi_process_block env b c, []);
  vt_headers_ends hs : exists n, ends_by (fun _ => True) n (vt_process_headers hs);
  vt_block_ends b : exists n, ends_by (fun _ => True) n (vt_process_block b);
}.

(** ** The node *)

Section Node.
Context {B E : Type} {SB : StorageBackend B} {D : Digests} {K : Taproot.Secp} {SE : ScriptEngine E}.
Abbreviation TheNode := (Blockchain B E).
Abbreviation NodeProg := (Prog Env TheNode).

(** A read of the node, and a message to an actor. *)
Definition look {A} (f : TheNode -> A) : NodeProg A := atomic (fun _ bc => (f bc, bc, [])).
Definition ask {A} (f : Env -> TheNode -> A * TheNode) : NodeProg A := atomic (fun env bc => (f env bc, [])).

Fixpoint accept_headers_prog (headers : list BlockHeader) (b : HeaderBatch) : NodeProg (result HeaderBatch NodeError) :=
  match headers with
  | [] => mret (Ok b)
  | hdr :: headers =>
    let hash := block_hash hdr in
    known ← look (fun bc => get_block_index (bc_store bc) hash);
    match known with
    | Err e => mret (Err (NodeStore e))
    | Ok (Some index) => accept_headers_prog headers (batch_known b hash index)
    | Ok None =>
      parent ← look (fun bc => batch_parent (bc_store bc) b (prev_hash hdr));
      match parent with
      | None => mret (Ok b)
      | Some prev =>
        checked ← look (fun bc => check_block_header (P := batch_index_by_height bc (by_height b)) hdr prev (bc_params bc));
        match checked with
        | Err e => mret (Err (HeaderCheckFailed e))
        | Ok _ => accept_headers_prog headers (batch_push b hash (child_index hdr prev))
        end
      end
    end
  end.

(** The path is a lock of its own, taken for one header after the other. *)
Fixpoint update_chains_prog (l : list (BlockHeader * Z)) : NodeProg unit :=
  match l with
  | [] => mret tt
  | (hdr, height) :: l => _ ← ask (fun _ bc => (tt, update_header_chain bc (block_hash hdr) height)); update_chains_prog l
  end.

Definition process_headers_prog (headers : list BlockHeader) : NodeProg (result (list Z) NodeError) :=
  tip ← look (fun bc => get_headers_tip (bc_store bc));
  match tip with
  | Err e => mret (Err (NodeStore e))
  | Ok current_tip =>
    start ← look (fun bc => batch_start (bc_store bc) current_tip);
    accepted ← accept_headers_prog headers start;
    match accepted with
    | Err e => mret (Err e)
    | Ok b =>
      written ← (if (length (pending b) =? 0)%nat then mret (Ok tt)
                 else ask (fun env => call_chainstate env (ProcessHeaders (pending b) (best_tip b))));
      match written with
      | Err e => mret (Err e)
      | Ok _ => _ ← update_chains_prog (zip headers (heights b)); mret (Ok (heights b))
      end
    end
  end.

Definition process_block_prog (b : Block) : NodeProg (result Z NodeError) :=
  let hash := block_hash (header b) in
  found ← look (fun bc => match check_block b (bc_params bc) with
    | Err e => Err (StatelessFailed e)
    | Ok _ => match get_block_index (bc_store bc) hash with
      | Err e => Err (NodeStore e) | Ok None => Err (HeaderNotFound hash) | Ok (Some index) => Ok index end
    end);
  match found with
  | Err e => mret (Err e)
  | Ok index =>
    stored ← ask (fun _ bc => accept_block bc b index);
    match stored with
    | Err e => mret (Err e)
    | Ok _ =>
      told ← ask (fun env => call_chainstate env (ProcessBlockDownloaded hash (bi_height index)));
      mret (match told with Err e => Err e | Ok _ => Ok (bi_height index) end)
    end
  end.

#[export] Instance blockchain_tasks : ValidationTasks TheNode := {|
  vt_process_headers := process_headers_prog;
  vt_process_block := process_block_prog;
|}.

Lemma alone_look {A} env (f : TheNode -> A) bc : alone env (look f) bc = Some (f bc, bc, []).
Proof. exact (alone_atomic env _ bc). Qed.
Lemma alone_ask {A} env (f : Env -> TheNode -> A * TheNode) bc : alone env (ask f) bc = Some (f env bc, []).
Proof. exact (alone_atomic env _ bc). Qed.

Lemma accept_headers_alone env headers b bc : alone env (accept_headers_prog headers b) bc = Some (accept_headers bc headers b, bc, []).
Proof.
  revert b. induction headers as [|hdr headers IH]; intros b; [done|]. cbn [accept_headers_prog accept_headers]. rewrite alone_bind, alone_look.
  destruct (get_block_index _ _) as [[index|]|e]; cbn [map_err rbind]; [by rewrite IH| |done]. rewrite alone_bind, alone_look.
  destruct (batch_parent _ _ _) as [prev|]; [|done]. rewrite alone_bind, alone_look. destruct (check_block_header _ _ _); cbn [map_err rbind]; [by rewrite IH|done].
Qed.
Lemma update_chains_alone env l bc : alone env (update_chains_prog l) bc = Some (tt, fold_left (fun bc p => update_header_chain bc (block_hash p.1) p.2) l bc, []).
Proof. revert bc. induction l as [|[hdr h] l IH]; intros bc; [done|]. cbn [update_chains_prog]. by rewrite alone_bind, alone_ask, IH. Qed.
Lemma process_headers_alone env headers bc : alone env (process_headers_prog headers) bc = Some (process_headers env headers bc, []).
Proof.
  unfold process_headers_prog, process_headers. rewrite alone_bind, alone_look. destruct (get_headers_tip _) as [tip|e]; cbn [map_err rbind]; [|done].
  rewrite alone_bind, alone_look, alone_bind, accept_headers_alone. destruct (accept_headers _ _ _) as [b|e]; [|done]. rewrite alone_bind.
  assert (alone env (if (length (pending b) =? 0)%nat then mret (Ok tt) else ask (fun env => call_chainstate env (ProcessHeaders (pending b) (best_tip b)))) bc =
    Some (if (length (pending b) =? 0)%nat then (Ok tt, bc) else call_chainstate env (ProcessHeaders (pending b) (best_tip b)) bc, [])) as ->
    by (destruct (_ =? _)%nat; [done|exact (alone_ask env (fun env => call_chainstate env (ProcessHeaders (pending b) (best_tip b))) bc)]).
  destruct (_ =? _)%nat; [by rewrite alone_bind, update_chains_alone|].
  destruct (call_chainstate _ _ _) as [[[]|e] bc1]; [|done]. by rewrite alone_bind, update_chains_alone.
Qed.
Lemma process_block_alone env b bc : alone env (process_block_prog b) bc = Some (process_block env b bc, []).
Proof.
  unfold process_block_prog, process_block. rewrite alone_bind, alone_look. destruct (check_block _ _); [|done].
  destruct (get_block_index _ _) as [[index|]|e]; [|done..]. rewrite alone_bind, alone_ask. destruct (accept_block _ _ _) as [[[]|e] bc1]; [|done].
  rewrite alone_bind, alone_ask. by destruct (call_chainstate _ _ _) as [[[]|e] bc2].
Qed.

Lemma accept_headers_ends headers b : ends_by (fun _ => True) (3 * length headers) (accept_headers_prog headers b).
Proof.
  revert b. induction headers as [|hdr headers IH]; intros b; [apply ends_by_ret|]. cbn [accept_headers_prog length].
  replace (3 * S (length headers))%nat with (S (S (S (3 * length headers)))) by lia. end_steps; eapply ends_by_mono; try apply IH; lia.
Qed.
Lemma update_chains_ends l : ends_by (fun _ => True) (length l) (update_chains_prog l).
Proof. induction l as [|[hdr h] l IH]; [apply ends_by_ret|]. cbn [update_chains_prog length]. end_steps. apply IH. Qed.
(** Three reads for each header, one write, and one turn on the path for each height. *)
Lemma process_headers_ends headers : ends_by (fun _ => True) (4 * length headers + 3) (process_headers_prog headers).
Proof.
  apply (ends_by_mono _ (S (S (3 * length headers + (1 + length headers))))); [|lia]. unfold process_headers_prog. end_steps.
  apply ends_by_bind; [apply accept_headers_ends|]. intros [b|e]; [|apply ends_by_ret].
  apply ends_by_bind; [destruct (_ =? _)%nat; [apply ends_by_ret|apply ends_by_atomic]|].
  intros [[]|e]; [|apply ends_by_ret]. apply (ends_by_mono _ (length (zip headers (heights b)) + 0)).
  - apply ends_by_bind; [apply update_chains_ends|]. intros; apply ends_by_ret.
  - rewrite length_zip. lia.
Qed.
Lemma process_block_ends b : ends_by (fun _ => True) 3 (process_block_prog b).
Proof. unfold process_block_prog. cbv zeta. end_steps. Qed.
#[export] Instance blockchain_tasks_ok : ValidationTasksOk TheNode.
Proof.
  split; [apply process_headers_alone|apply process_block_alone| |].
  - intros hs. eexists. apply process_headers_ends.
  - intros b. eexists. apply process_block_ends.
Qed.
End Node.

(** ** The peer manager *)

(** What a step of a task gets: the environment of the handlers, and the connections
    whose handles the tasks hold. *)
Record TaskEnv : Type := mkTaskEnv { te_net : NetEnv; te_end : NodeId -> End }.
(** The mutex of the headers and the semaphore of the blocks. *)
Inductive PeerLock : Type := HeaderProcessing | BlockProcessing.
#[export] Instance PeerLock_eq_dec : EqDecision PeerLock.
Proof. solve_decision. Defined.
Definition permits (l : PeerLock) : nat := match l with HeaderProcessing => 1 | BlockProcessing => 64 end.

Section PeerManager.
Context {C : Type} {VI : ValidationInterface C} {VT : ValidationTasks C} {D : Digests}.
Abbreviation NetProg := (Prog TaskEnv (Net C)).
Abbreviation PeerTask := (PoolTask TaskEnv (Net C) PeerLock).

(** One step of a handler, and a program of the chain. *)
Definition net_step {A} (m : NetEnv -> NetM C A) : NetProg A := atomic (fun w => m (te_net w)).
Definition in_chain {A} (p : Prog Env C A) : NetProg A := zoom (fun w => ne_chain (te_net w)) n_chain set_chain p.
(** [NodeHandle::send], which waits while the channel is full. *)
Definition send_prog (to : NodeId) (m : Message) : NetProg bool :=
  Step (fun w n => match node_send m (te_end w to) with
    | None => None
    | Some (Ok _) => Some (Done true, n, [Send to m])
    | Some (Err _) => Some (Done false, n, [])
    end).

(** [misbehaving]: the score under the lock of the peers, then the peer table. *)
Definition mark_misbehaving (id : NodeId) (how_much : Z) : NetM C (option bool) := fun n =>
  match n_peers n !! id with
  | None => (None, n, [])
  | Some peer =>
    let s := wrap_s 32 (misbehavior_score peer + how_much) in
    let discourage := (100 <=? s) && negb (is_discouraged peer) in
    (Some discourage, set_peers (<[id := mkPeer s (last_height peer) (if discourage then true else is_discouraged peer) (p_conn peer)]> (n_peers n)) n, [])
  end.
Definition misbehaving_prog (id : NodeId) (how_much : Z) : NetProg unit :=
  action ← net_step (fun _ => mark_misbehaving id how_much);
  match action with
  | None => mret tt
  | Some true => net_step (fun env => tell_table (record_critical_failure (ban_clock env) id))
  | Some false => net_step (fun env => tell_table (record_misbehavior (ban_clock env) id how_much))
  end.

(** The request for the next batch, in [on_headers]. *)
Definition next_headers_prog (id : NodeId) (last_hash : BlockHash) (last_height : Z) : NetProg unit :=
  began ← net_step (fun env => ask_sync (try_begin_header_request (readings env) id last_hash last_height HEADER_REQUEST_TIMEOUT));
  if began : bool then
    locator ← net_step (fun _ => gets (fun n => vi_get_block_locator (n_chain n) last_hash));
    sent ← send_prog id (get_headers locator);
    if sent : bool then mret tt else net_step (fun _ => on_sync (finish_header_request id))
  else mret tt.

Definition on_headers_prog (id : NodeId) (hs : list BlockHeader) : NetProg unit :=
  _ ← net_step (fun _ => on_sync (finish_header_request id));
  match hs with
  | [] => mret tt
  | _ =>
    r ← in_chain (vt_process_headers hs);
    match r with
    | Err _ => misbehaving_prog id 20
    | Ok heights =>
      match last (zip hs heights) with
      | None => mret tt
      | Some (last_header, last_height) =>
        let last_hash := block_hash last_header in
        _ ← (if bool_decide (last_hash = ZERO_HASH) then mret tt
             else net_step (fun _ => on_sync (update_headers_tip last_hash last_height (time last_header))));
        if (length hs =? HEADERS_BATCH)%nat then next_headers_prog id last_hash last_height else mret tt
      end
    end
  end.

Definition on_block_prog (id : NodeId) (b : Block) : NetProg unit :=
  let hash := block_hash (header b) in
  r ← in_chain (vt_process_block b);
  match r with
  | Ok _ => _ ← net_step (fun _ => on_sync halve_stalling_timeout); net_step (fun _ => on_sync (mark_block_received hash))
  | Err _ => _ ← net_step (fun _ => on_sync (mark_block_received hash)); misbehaving_prog id 100
  end.

(** The task a message is given to; the others are handled in the reader. *)
Definition message_task (id : NodeId) (m : Message) : option PeerTask :=
  match m with
  | MHeaders h => Some (spawn HeaderProcessing (on_headers_prog id (headers h)))
  | MBlock b => Some (spawn BlockProcessing (on_block_prog id b))
  | _ => None
  end.
Definition inline_event (e : NetEvent) : bool :=
  match e with EvMessage id m => match message_task id m with None => true | Some _ => false end | _ => true end.

(** *** The network layer with its tasks *)

Section Steps.
Context {SP : SyncProvider C} {H : DefaultHasher} (may : Message -> Prop).

(** A message that becomes a task arrives (one that [may]), something else happens, or
    a task moves. *)
Inductive pool_step (HO : HashOrder) (w : TaskEnv) : Net C * list PeerTask -> list Effect -> Net C * list PeerTask -> Prop :=
  | ps_spawn n ts id m t : may m -> message_task id m = Some t -> pool_step HO w (n, ts) [] (n, ts ++ [t])
  | ps_event n ts e n' o : inline_event e = true -> run_event HO (te_net w) e n = (tt, n', o) -> pool_step HO w (n, ts) o (n', ts)
  | ps_move p o p' : task_move permits w p o p' -> pool_step HO w p o p'.

(** A run in environments of [ok]. *)
Inductive pool_run (ok : TaskEnv -> Prop) : Net C * list PeerTask -> list Effect -> Net C * list PeerTask -> Prop :=
  | pr_nil p : pool_run ok p [] p
  | pr_snoc p o p1 HO w o' p2 : pool_run ok p o p1 -> ok w -> pool_step HO w p1 o' p2 -> pool_run ok p (o ++ o') p2.
End Steps.
Definition anything (m : Message) : Prop := True.

(** *** The handlers of Peers *)

(** The connections are as the environment of the handlers says. *)
Definition channels_agree (w : TaskEnv) : Prop := forall id m,
  match node_send m (te_end w id) with Some (Ok _) => send_ok (te_net w) id = true | Some (Err _) => send_ok (te_net w) id = false | None => False end.

Lemma alone_net_step {A} w (m : NetEnv -> NetM C A) n : alone w (net_step m) n = Some (m (te_net w) n).
Proof. exact (alone_atomic w _ n). Qed.
Lemma alone_send w to m n : channels_agree w -> alone w (send_prog to m) n = Some (send (te_net w) to m n).
Proof.
  intros Hc. specialize (Hc to m). unfold send. cbn [alone send_prog]. destruct (node_send _ _) as [[e|e]|]; [rewrite Hc; done..|done].
Qed.
Lemma alone_net_bind {A A'} w (p : NetProg A) (m : NetM C A) (k : A -> NetProg A') (k' : A -> NetM C A') n :
  (forall n, alone w p n = Some (m n)) -> (forall a n, alone w (k a) n = Some (k' a n)) -> alone w (p ≫= k) n = Some ((m ≫= k') n).
Proof.
  intros Hp Hk. rewrite alone_bind, Hp. unfold mbind, NetM_bind. destruct (m n) as [[a n1] o1]. rewrite Hk. by destruct (k' a n1) as [[a' n2] o2].
Qed.
Lemma misbehaving_alone w id k n : alone w (misbehaving_prog id k) n = Some (misbehaving (te_net w) id k n).
Proof.
  unfold misbehaving_prog, misbehaving. rewrite alone_bind, alone_net_step. unfold mark_misbehaving.
  destruct (n_peers n !! id) as [p|]; [|done]. cbv zeta. destruct (_ && _); rewrite alone_net_step; by destruct (tell_table _ _) as [[[] n1] o1].
Qed.
Lemma alone_in_chain {A} w (p : Prog Env C A) f n : (forall c, alone (ne_chain (te_net w)) p c = Some (f c, [])) ->
  alone w (in_chain p) n = Some (ask_chain f n).
Proof.
  intros Hp. unfold in_chain. rewrite alone_zoom; [|done|done|by destruct n]. rewrite Hp. unfold ask_chain. by destruct (f (n_chain n)).
Qed.

Lemma next_headers_alone w id tip h n : channels_agree w -> alone w (next_headers_prog id tip h) n = Some (request_headers (te_net w) id tip h n).
Proof.
  intros Hc. unfold next_headers_prog, request_headers. apply alone_net_bind; [intros; apply alone_net_step|]. intros [|] n1; [|done].
  apply alone_net_bind; [intros; apply alone_net_step|]. intros loc n2. apply alone_net_bind; [intros; by apply alone_send|].
  intros [|] n3; [done|]. exact (alone_net_step w (fun _ => on_sync (finish_header_request id)) n3).
Qed.

Context {VO : ValidationTasksOk C}.
Lemma on_headers_alone w id hs n : channels_agree w -> alone w (on_headers_prog id hs) n = Some (on_headers (te_net w) id hs n).
Proof.
  intros Hc. unfold on_headers_prog, on_headers. apply alone_net_bind; [intros; apply alone_net_step|]. intros _ n1. destruct hs as [|h hs]; [done|].
  apply alone_net_bind; [intros; apply alone_in_chain; intros; apply vt_headers_alone|]. intros [heights|e] n2; [|apply misbehaving_alone].
  destruct (last _) as [[lh lht]|]; [|done]. apply alone_net_bind.
  - intros n3. destruct (bool_decide _); [done|]. exact (alone_net_step w (fun _ => on_sync (update_headers_tip (block_hash lh) lht (time lh))) n3).
  - intros _ n3. destruct (_ =? _)%nat; [by apply next_headers_alone|done].
Qed.
Lemma on_block_alone w id b n : alone w (on_block_prog id b) n = Some (on_block (te_net w) id b n).
Proof.
  unfold on_block_prog, on_block. apply alone_net_bind; [intros; apply alone_in_chain; intros; apply vt_block_alone|].
  intros [h|e] n1; apply alone_net_bind; try (intros; apply alone_net_step).
  intros _ n2. apply misbehaving_alone.
Qed.
(** A task that runs by itself does what [process_message] of Peers does. *)
Lemma message_task_alone w id m t n : channels_agree w -> message_task id m = Some t ->
  alone w (tk_prog t) n = Some (process_message (te_net w) id m n).
Proof. intros Hc. destruct m; intros [= <-]; [by apply on_headers_alone|apply on_block_alone]. Qed.
End PeerManager.
