(* ===== verification/PeerTaskProofs.v ===== *)
(** * What holds however the tasks are scheduled

    [tasks_invariant]: the invariant of the network layer and the limits of the two
    locks hold at every point of every interleaving of the handlers with each other and
    with everything else that happens.  [tasks_end]: the handlers of any messages end
    after boundedly many steps, in any order, while the connections take messages.
    [unread_peer_stops_headers]: they do not otherwise: one peer that stops reading can
    hold the header lock for ever.  [concurrent_header_tree]: on the node, no
    interleaving of header batches, blocks and activation breaks the tree of headers or
    forgets where a block is stored. *)

From S2P Require Import Prelude Wire Hash Transaction Block Params Pow Coins Taproot Engine Validation BlockFile Store Chainstate Node P2P AddrMan AddrManProofs Sync SyncProofs PeerTable Peers Downloader DownloaderProofs Connect NetProofs Transport TransportProofs Tasks PeerTasks.

Section Proofs.
Context {C : Type} {VI : ValidationInterface C} {VT : ValidationTasks C} {SP : SyncProvider C} {D : Digests} {H : DefaultHasher}.
Abbreviation PeerTask := (PoolTask TaskEnv (Net C) PeerLock).

(** ** What the steps of the handlers keep *)

Lemma keep_step (I : Net C -> Prop) {A} (m : NetEnv -> NetM C A) : (forall env, net_keeps I (m env)) -> steps_keep I (net_step m).
Proof. intros Hm. apply steps_keep_atomic. intros w n Hn. by apply Hm. Qed.
Lemma keep_send (I : Net C -> Prop) to m : steps_keep I (send_prog (C := C) to m).
Proof. intros w n Hn. cbn. by destruct (node_send m (te_end w to)) as [[e|e]|]. Qed.

Section Keep.
Variable I : Net C -> Prop.
Hypothesis I_chain : forall c n, I n -> I (set_chain c n).
Hypothesis I_received : forall hash, net_keeps I (on_sync (mark_block_received hash)).
Hypothesis I_halve : net_keeps I (on_sync halve_stalling_timeout).
Hypothesis I_mark : forall id k, net_keeps I (mark_misbehaving id k).
Hypothesis I_critical : forall c id, net_keeps I (tell_table (record_critical_failure c id)).
Hypothesis I_misbehavior : forall c id k, net_keeps I (tell_table (record_misbehavior c id k)).

Lemma keep_misbehaving id k : steps_keep I (misbehaving_prog id k).
Proof using I_mark I_critical I_misbehavior. apply steps_keep_bind; [by apply keep_step|]. intros [[|]|]; [by apply keep_step..|done]. Qed.
Lemma keep_block id b : steps_keep I (on_block_prog id b).
Proof using All.
  apply steps_keep_bind; [by apply steps_keep_zoom|]. intros [h|e]; (apply steps_keep_bind; [by apply keep_step|intros _]); [by apply keep_step|apply keep_misbehaving].
Qed.

Hypothesis I_finish : forall id, net_keeps I (on_sync (finish_header_request id)).
Hypothesis I_begin : forall r id tip h t, net_keeps I (ask_sync (try_begin_header_request r id tip h t)).
Hypothesis I_tip : forall tip h t, net_keeps I (on_sync (update_headers_tip tip h t)).
Lemma keep_headers id hs : steps_keep I (on_headers_prog id hs).
Proof using All.
  apply steps_keep_bind; [by apply keep_step|]. intros _. destruct hs as [|h hs]; [done|]. apply steps_keep_bind; [by apply steps_keep_zoom|].
  intros [heights|e]; [|apply keep_misbehaving]. destruct (last _) as [[lh lt]|]; [|done]. apply steps_keep_bind; [destruct (bool_decide _); [done|by apply keep_step]|].
  intros _. destruct (_ =? _)%nat; [|done]. apply steps_keep_bind; [by apply keep_step|]. intros [|]; [|done].
  apply steps_keep_bind; [apply keep_step; intros; apply net_keeps_gets|]. intros loc. apply steps_keep_bind; [apply keep_send|]. intros [|]; [done|by apply keep_step].
Qed.
Lemma keep_message id m t : message_task id m = Some t -> steps_keep I (tk_prog t).
Proof using All. destruct m; intros [= <-]; [apply keep_headers|apply keep_block]. Qed.
End Keep.

(** ** The invariant *)

Lemma keeps_both (P Q : Net C -> Prop) {A} (m : NetM C A) : net_keeps P m -> net_keeps Q m -> net_keeps (fun n => P n /\ Q n) m.
Proof. intros HP HQ n [Hp Hq]. split; [by apply HP|by apply HQ]. Qed.
Lemma ok_mark id k : net_keeps (C := C) net_ok (mark_misbehaving id k).
Proof. intros n Hn. unfold mark_misbehaving. by destruct (n_peers n !! id). Qed.
Lemma rest_mark h0 b0 id k : net_keeps (C := C) (net_rest h0 b0) (mark_misbehaving id k).
Proof. intros n Hn. unfold mark_misbehaving. destruct (n_peers n !! id); [|done]. by destruct Hn. Qed.

Lemma message_keeps h0 b0 id m (t : PeerTask) : message_task id m = Some t -> steps_keep (net_inv h0 b0) (tk_prog t).
Proof.
  intros Ht. eapply (keep_message (net_inv h0 b0)); [..|exact Ht]; intros; try apply keeps_both.
  - match goal with Hn : net_inv _ _ _ |- _ => destruct Hn as [Ho [? ? ? ?]] end. split; [exact Ho|by split].
  - apply ok_received.
  - by apply rest_on_sync.
  - apply ok_on_sync. intros s Hs. by rewrite halve_download.
  - apply rest_on_sync. intros s. apply halve_tips.
  - apply ok_mark.
  - apply rest_mark.
  - apply net_keeps_tell_table. intros n [Hd Htb]. split; [done|by apply table_ok_critical].
  - apply rest_critical.
  - apply net_keeps_tell_table. intros n [Hd Htb]. split; [done|by apply table_ok_misbehavior].
  - apply rest_misbehavior.
  - apply ok_finish.
  - apply rest_on_sync. intros s. apply finish_tips.
  - apply ok_ask_sync. intros s. apply begin_download.
  - apply rest_ask_sync. intros s. apply begin_tips.
  - apply ok_on_sync. intros s Hs. by rewrite headers_tip_download.
  - apply rest_on_sync. intros s. apply update_headers_tips.
Qed.

Lemma pool_step_locks may HO w n ts o n' ts' : pool_step may HO w (n, ts) o (n', ts') -> locks_ok permits ts -> locks_ok permits ts'.
Proof.
  intros Hs Hl. inversion Hs as [? ? id m t _ Hm| |? ? ? Hmv]; subst; [|done|by eapply task_move_locks].
  destruct m; try discriminate Hm; injection Hm as <-; by apply spawn_locks.
Qed.

Lemma run_locks may ok n ts o n' ts' : pool_run may ok (n, ts) o (n', ts') -> locks_ok permits ts -> locks_ok permits ts'.
Proof.
  intros Hr Hl. remember (n, ts) as p eqn:E1. remember (n', ts') as p' eqn:E2. revert n' ts' E1 E2.
  induction Hr as [p|p o [n1 ts1] HO w o' p2 _ IH _ Hs]; intros n' ts' -> E2; [by injection E2 as _ <-|].
  subst p2. by eapply pool_step_locks; [exact Hs|apply (IH n1 ts1)].
Qed.
(** Two holders of the header lock are the same task. *)
Lemma one_holder (ts : list PeerTask) t t0 : locks_ok permits ts -> t ∈ ts -> tk_lock t = HeaderProcessing -> tk_running t = true ->
  t0 ∈ ts -> tk_lock t0 = HeaderProcessing -> tk_running t0 = true -> t0 = t.
Proof.
  intros Hl Hin Ht1 Ht2 H0 Hl0 Hr0. specialize (Hl HeaderProcessing). cbn [permits] in Hl. apply list_elem_of_split in Hin as (l1 & l2 & ->).
  rewrite holders_mid in Hl. unfold holds at 1 in Hl. rewrite Ht2, Ht1, bool_decide_true in Hl by done. cbn in Hl. rewrite elem_of_app, elem_of_cons in H0.
  assert (t0 = t \/ t0 ∈ l1 ++ l2) as [?|Hn] by (rewrite elem_of_app; tauto); [done|].
  apply list_elem_of_split in Hn as (k1 & k2 & Hk). rewrite Hk, holders_mid in Hl. unfold holds at 1 in Hl. rewrite Hr0, Hl0, bool_decide_true in Hl by done. cbn in Hl. lia.
Qed.

(** C13: Whatever the order in which the tasks of headers and blocks take their steps,
    between themselves and with everything else that happens to the network layer
    (the steps of the loops that keep up the connections and of the attempts they
    start among them), at every point its invariant holds, at most one batch of
    headers and at most 64 blocks are being processed. *)
Theorem tasks_invariant (ok : TaskEnv -> Prop) (h0 b0 : Z) (n n' : Net C) (ts : list PeerTask) (o : list Effect) :
  net_inv h0 b0 n -> pool_run anything ok (n, []) o (n', ts) ->
  net_inv h0 b0 n' /\ (holders HeaderProcessing ts <= 1)%nat /\ (holders BlockProcessing ts <= 64)%nat.
Proof.
  intros Hn Hr. assert (net_inv h0 b0 n' /\ locks_ok permits ts /\ Forall (fun t => steps_keep (net_inv h0 b0) (tk_prog t)) ts) as (H1 & H2 & _);
    [|split_and!; [done|apply (H2 HeaderProcessing)|apply (H2 BlockProcessing)]].
  remember (n, [] : list PeerTask) as p eqn:E1. remember (n', ts) as p' eqn:E2. revert n' ts E1 E2.
  induction Hr as [p|p o [n1 ts1] HO w o' p2 _ IH _ Hs]; intros n' ts -> E2.
  { injection E2 as <- <-. split_and!; [done| |constructor]. intros l. cbn. lia. }
  destruct (IH n1 ts1 eq_refl eq_refl) as (I1 & I2 & I3). clear IH. subst p2. pose proof (pool_step_locks _ _ _ _ _ _ _ _ Hs I2) as I4.
  inversion Hs as [? ? id m t _ Hm|? ? e ? ? He Hev|? ? ? Hmv]; subst.
  - split_and!; [done|done|]. apply Forall_app. split; [done|]. constructor; [by eapply message_keeps|done].
  - split_and!; [|done|done]. destruct I1 as [Io Ir]. pose proof (ok_event HO (te_net w) e n1 Io) as K1. pose proof (rest_event h0 b0 HO (te_net w) e n1 Ir) as K2.
    rewrite Hev in K1, K2. by split.
  - destruct (task_move_keeps permits _ _ _ _ _ _ _ Hmv I1 I3) as [K1 K2]. by split_and!.
Qed.

(** ** The end of the tasks *)

(** Every connection takes a message or has closed. *)
Definition channels_open (w : TaskEnv) : Prop := forall id m, node_send m (te_end w id) <> None.
Definition message_tasks (ms : list (NodeId * Message)) : list PeerTask := omap (fun p => message_task p.1 p.2) ms.

Lemma send_ends to m n : ends_by channels_open (S n) (send_prog (C := C) to m).
Proof.
  split; [|constructor; intros w s p s' o E; destruct (node_send _ _) as [[e|e]|]; [injection E as <- _ _; constructor..|done]].
  intros w s. cbn. destruct (node_send m (te_end w to)) as [[e|e]|] eqn:E; [done..|]. intros Hw. by apply (Hw to m).
Qed.
Lemma misbehaving_ends id k n : ends_by channels_open (S (S n)) (misbehaving_prog (C := C) id k).
Proof. unfold misbehaving_prog, net_step. end_steps. Qed.
Lemma next_headers_ends id tip h n : ends_by channels_open (S (S (S (S n)))) (next_headers_prog (C := C) id tip h).
Proof. unfold next_headers_prog, net_step. end_steps. apply (ends_by_bind _ 1); [apply send_ends|]. end_steps. Qed.
Context {VO : ValidationTasksOk C}.
Lemma message_ends id m (t : PeerTask) : message_task id m = Some t -> exists n, ends_by channels_open n (tk_prog t).
Proof.
  destruct m; intros [= <-]; cbn [tk_prog spawn].
  - destruct (vt_headers_ends (headers m)) as [n Hn]. exists (S (n + 6)). unfold on_headers_prog, net_step. end_steps.
    apply ends_by_bind; [by apply ends_by_zoom|]. intros [heights|e]; [|apply misbehaving_ends]. destruct (last _) as [[lh lt]|]; [|apply ends_by_ret].
    apply (ends_by_bind _ 1 5); [destruct (bool_decide _); [apply ends_by_ret|apply ends_by_atomic]|]. intros _.
    destruct (_ =? _)%nat; [apply next_headers_ends|apply ends_by_ret].
  - destruct (vt_block_ends m) as [n Hn]. exists (n + 3)%nat. apply ends_by_bind; [by apply ends_by_zoom|]. unfold net_step.
    end_steps; apply misbehaving_ends.
Qed.

(** C14: The tasks of any messages end.  However their steps are interleaved, while the
    connections take messages or are closed, there is a bound on the number of steps,
    and as long as a task is left one of them can go on. *)
Theorem tasks_end (ms : list (NodeId * Message)) :
  exists bound, forall n k o n' ts, moves permits channels_open k (n, message_tasks ms) o (n', ts) ->
    (k <= bound)%nat /\ (ts = [] \/ forall w, channels_open w -> exists o' p, task_move permits w (n', ts) o' p).
Proof using VO.
  destruct (pool_drains permits channels_open (message_tasks ms)) as [bound Hb].
  - intros []; cbn; lia.
  - apply Forall_forall. intros t Ht. unfold message_tasks in Ht. apply list_elem_of_omap in Ht as ([id m] & _ & Ht). by eapply message_ends.
  - exists bound. intros n k o n' ts. apply Hb.
Qed.

(** ** A peer that stops reading *)

(** Only headers move the header tip. *)
Section Tip.
Context (x : BlockHash * Z).
Definition tip_is (n : Net C) : Prop := sm_get_headers_tip (n_sync n) = x.

Lemma tip_on_sync f : (forall s, sm_get_headers_tip (f s) = sm_get_headers_tip s) -> net_keeps tip_is (on_sync f).
Proof. intros Hf. apply net_keeps_on_sync. intros n Hn. unfold tip_is in *. cbn. by rewrite Hf. Qed.
Lemma tip_ask_sync {A} (f : SyncManager -> A * SyncManager) : (forall s, sm_get_headers_tip (f s).2 = sm_get_headers_tip s) -> net_keeps tip_is (ask_sync f).
Proof. intros Hf. apply net_keeps_ask_sync. intros n Hn. unfold tip_is in *. cbn. by rewrite Hf. Qed.
Lemma tip_on_table f : net_keeps tip_is (on_table f).
Proof. by apply net_keeps_on_table. Qed.
Lemma tip_tell_table f : net_keeps tip_is (tell_table f).
Proof. by apply net_keeps_tell_table. Qed.
Lemma tip_chain {A} (f : C -> A * C) : net_keeps tip_is (ask_chain f).
Proof. by apply net_keeps_ask_chain. Qed.
Lemma tip_misbehaving env id k : net_keeps tip_is (misbehaving env id k).
Proof. intros n Hn. unfold misbehaving. destruct (n_peers n !! id); [|done]. by apply tip_tell_table. Qed.
#[local] Hint Resolve tip_on_table tip_tell_table tip_chain tip_misbehaving : keep_leaf.

Lemma finish_tip id s : sm_get_headers_tip (finish_header_request id s) = sm_get_headers_tip s.
Proof. unfold finish_header_request. by destruct (header_request s) as [r|]; [destruct (bool_decide _)|]. Qed.
Lemma disconnect_tip id s : sm_get_headers_tip (on_peer_disconnect id s) = sm_get_headers_tip s.
Proof. unfold on_peer_disconnect. by rewrite finish_tip. Qed.
Lemma halve_tip s : sm_get_headers_tip (halve_stalling_timeout s) = sm_get_headers_tip s.
Proof. unfold halve_stalling_timeout. by destruct (2 <? _). Qed.
Lemma begin_tip r id y h t s : sm_get_headers_tip (try_begin_header_request r id y h t s).2 = sm_get_headers_tip s.
Proof. rewrite try_begin_header_request_spec. cbv zeta. repeat case_match; done. Qed.
Lemma blocks_tip y h s : sm_get_headers_tip (update_blocks_tip y h s) = sm_get_headers_tip s.
Proof. unfold update_blocks_tip. by destruct (_ <=? _). Qed.
Lemma prune_tip {HO : HashOrder} f t s : sm_get_headers_tip (prune_timeouts f t s).2 = sm_get_headers_tip s.
Proof. unfold prune_timeouts. by destruct (prune _ _ _). Qed.
Lemma peers_tip now l s : sm_get_headers_tip (sync_peers now l s).2 = sm_get_headers_tip s.
Proof.
  revert s. induction l as [|h l IH]; intros s; [done|]. cbn [sync_peers]. unfold can_peer_sync_headers.
  set (s1 := with_cooldowns _ s). specialize (IH s1). by destruct (sync_peers now l s1) as [hs s2].
Qed.
Hint Rewrite finish_tip disconnect_tip halve_tip begin_tip blocks_tip @prune_tip peers_tip : tip.
Ltac tip_leaf := first [apply tip_on_sync | apply tip_ask_sync | apply net_keeps_change]; intros; autorewrite with tip; done.

Lemma tip_assign env b missing ps a : net_keeps tip_is (assign env b missing a ps).
Proof.
  revert a. induction ps as [|p l IH]; intros a; [apply net_keeps_ret|]. cbn [assign]. apply net_keeps_bind; [|intros; apply IH].
  unfold serve_peer, request_blocks, drop_peer. keep_steps; tip_leaf.
Qed.
Lemma tip_banned now i : net_keeps tip_is (cm_is_banned (C := C) now i).
Proof. intros n Hn. unfold cm_is_banned. destruct (cm_ban_list _ !! i); [destruct (now <? _)|]; done. Qed.
#[local] Hint Resolve tip_assign tip_banned : keep_leaf.
Lemma tip_initiator HO turn needed_of env pc : net_keeps tip_is (@initiator_step C HO turn needed_of env pc).
Proof. unfold initiator_step. keep_steps; tip_leaf. Qed.
Lemma tip_conn env magic nonce dial timer t : net_keeps tip_is (conn_step (C := C) env magic nonce dial timer t).
Proof. unfold conn_step, begin_handshake, with_nonces, initialize_node, on_cm_addr_man. cbv zeta. keep_steps; tip_leaf. Qed.
#[local] Hint Resolve tip_initiator tip_conn : keep_leaf.

Lemma tip_inline HO env e : inline_event e = true -> net_keeps tip_is (run_event HO env e).
Proof.
  intros He. destruct e as [id m| | | | | | | | |]; cbn [run_event].
  - destruct m; try done; cbn [process_message]; unfold on_not_found, on_ping; keep_steps; tip_leaf.
  - unfold finalize_node. keep_steps; tip_leaf.
  - unfold coordinate_headers, drop_peer. keep_steps; tip_leaf.
  - unfold coordinate_downloads, prepare_round. keep_steps; tip_leaf.
  - unfold connector_tick. keep_steps; tip_leaf.
  - unfold accept_connection. keep_steps; tip_leaf.
  - unfold fill_step. keep_steps; tip_leaf.
  - unfold feeler_step. keep_steps; tip_leaf.
  - unfold run_conn. keep_steps; tip_leaf.
  - keep_steps.
Qed.
End Tip.

Definition the_tip (n : Net C) : BlockHash * Z := sm_get_headers_tip (n_sync n).
Lemma block_frame id b : steps_frame the_tip (on_block_prog id b).
Proof.
  assert (forall m : NetM C unit, (forall x, net_keeps (tip_is x) m) -> forall n, the_tip (m n).1.2 = the_tip n) as Hk by (intros m Hm n; by apply (Hm (the_tip n) n)).
  assert (steps_frame the_tip (misbehaving_prog id 100)) as Hm.
  { apply steps_frame_bind; [apply steps_frame_atomic; intros w n; unfold mark_misbehaving; by destruct (n_peers n !! id)|].
    intros [[|]|]; [apply steps_frame_atomic; intros w; apply Hk; intros x; apply tip_tell_table..|done]. }
  apply steps_frame_bind; [by apply steps_frame_zoom|].
  intros [h|e]; (apply steps_frame_bind; [|intros _]); try exact Hm; apply steps_frame_atomic; intros w; apply Hk; intros x; apply tip_on_sync; intros s; [apply halve_tip|done..].
Qed.

(** In a pool of the node only header tasks change the header tip. *)
Definition blocks_frame (ts : list PeerTask) : Prop := Forall (fun t => tk_lock t = BlockProcessing -> steps_frame the_tip (tk_prog t)) ts.
Lemma pool_step_blocks may HO w n ts o n' ts' : pool_step may HO w (n, ts) o (n', ts') -> blocks_frame ts -> blocks_frame ts'.
Proof.
  unfold blocks_frame. intros Hs Hb. inversion Hs as [? ? id m t _ Hm|? ? e ? ? He Hev|? ? ? Hmv]; subst; [|done|].
  - apply Forall_app. split; [done|]. constructor; [|done]. destruct m; try discriminate Hm; injection Hm as <-; [done|]. intros _. apply block_frame.
  - inversion Hmv; subst; rewrite Forall_app, Forall_cons in Hb; destruct Hb as (K1 & K2 & K3); cbn [tk_prog tk_lock] in *.
    + by rewrite Forall_app, Forall_cons.
    + rewrite Forall_app, Forall_cons. split_and!; [done| |done]. cbn. intros ->. specialize (K2 eq_refl w n).
      match goal with E : _ = Some _ |- _ => rewrite E in K2 end. apply K2.
    + by apply Forall_app.
Qed.

(** The task holds the header lock and waits to send to [q]. *)
Definition waits_to_send (q : NodeId) (t : PeerTask) : Prop :=
  tk_lock t = HeaderProcessing /\ tk_running t = true /\ exists m k, tk_prog t = (send_prog q m ≫= k).

Lemma stuck_step q t capacity w n o n' : waits_to_send q t -> stuck capacity (te_end w q) ->
  match tk_prog t with Step f => forall p, f w n <> Some (p, n', o) | Done _ => False end.
Proof.
  intros (_ & _ & m & k & ->) Hs. cbn. intros p. rewrite (stuck_send capacity (te_end w q) m Hs). done.
Qed.

Lemma kept_beside (t0 a : PeerTask) ts1 new ts2 : t0 ∈ ts1 ++ a :: ts2 -> tk_lock t0 = HeaderProcessing -> tk_lock a <> HeaderProcessing -> t0 ∈ ts1 ++ new ++ ts2.
Proof. rewrite !elem_of_app, elem_of_cons. intros [?|[->|?]] Hh Ha; auto. by destruct Ha. Qed.
Lemma blocked_move q t capacity w n ts o n' ts' : waits_to_send q t -> stuck capacity (te_end w q) -> t ∈ ts -> locks_ok permits ts ->
  blocks_frame ts -> task_move permits w (n, ts) o (n', ts') ->
  t ∈ ts' /\ (forall t0, t0 ∈ ts -> tk_lock t0 = HeaderProcessing -> t0 ∈ ts') /\ the_tip n' = the_tip n.
Proof.
  intros Ht Hq Hin Hlk Hb Hm. pose proof Ht as (Ht1 & Ht2 & _).
  pose proof (fun t0 H0 => one_holder ts t t0 Hlk Hin Ht1 Ht2 H0) as Hone. pose proof (Hlk HeaderProcessing) as Hl.
  inversion Hm as [? ts1 l p ts2 Hp|? ts1 l f ts2 p ? ? Hf|? ts1 l ts2]; subst.
  - assert (l <> HeaderProcessing) as Hne.
    { intros ->. apply list_elem_of_split in Hin as (l1 & l2 & E). rewrite holders_mid in Hl. cbn in Hl.
      assert (holders HeaderProcessing (ts1 ++ mkPoolTask HeaderProcessing false p :: ts2) = holders HeaderProcessing (ts1 ++ ts2)) as E1 by (by rewrite holders_mid).
      rewrite E, holders_mid in E1. unfold holds at 1 in E1. rewrite Ht2, Ht1, bool_decide_true in E1 by done. cbn in E1, Hp. lia. }
    pose proof (fun t0 H0 Hh => kept_beside t0 (mkPoolTask l false p) ts1 [mkPoolTask l true p] ts2 H0 Hh Hne) as Hk.
    split_and!; [by apply Hk|done|done].
  - assert (l <> HeaderProcessing) as Hne.
    { intros ->. assert (mkPoolTask HeaderProcessing true (Step f) = t) as <- by (apply Hone; [apply elem_of_app; right; by left|done|done]).
      apply (stuck_step q _ capacity w n o n' Ht Hq) in Hf. done. }
    pose proof (fun t0 H0 Hh => kept_beside t0 (mkPoolTask l true (Step f)) ts1 [mkPoolTask l true p] ts2 H0 Hh Hne) as Hk.
    split_and!; [by apply Hk|done|]. destruct l; [done|]. unfold blocks_frame in Hb. rewrite Forall_app, Forall_cons in Hb. destruct Hb as (_ & Hb & _).
    specialize (Hb eq_refl w n). cbn in Hb. rewrite Hf in Hb. apply Hb.
  - assert (l <> HeaderProcessing) as Hne.
    { intros ->. assert (mkPoolTask HeaderProcessing true (Done tt) = t) as <- by (apply Hone; [apply elem_of_app; right; by left|done|done]).
      by apply (stuck_step q _ capacity w n' [] n' Ht Hq). }
    pose proof (fun t0 H0 Hh => kept_beside t0 (mkPoolTask l true (Done tt)) ts1 [] ts2 H0 Hh Hne) as Hk.
    split_and!; [by apply Hk|done|done].
Qed.

Definition q_stuck (capacity : nat) (q : NodeId) (w : TaskEnv) : Prop := stuck capacity (te_end w q).
(** Once it waits to send to such a peer, a header task keeps the lock for good: no
    header task goes on and the header tip stays what it is. *)
Lemma header_lock_kept may ok capacity q n0 n n' ts ts' o0 o t : pool_run may ok (n0, []) o0 (n, ts) -> t ∈ ts -> waits_to_send q t ->
  pool_run may (q_stuck capacity q) (n, ts) o (n', ts') ->
  (forall t0, t0 ∈ ts -> tk_lock t0 = HeaderProcessing -> t0 ∈ ts') /\ the_tip n' = the_tip n.
Proof.
  intros Hr Hin Ht Hr'.
  assert (blocks_frame ts /\ locks_ok permits ts) as [Hb Hl].
  { clear -Hr. remember (n0, [] : list PeerTask) as p eqn:E1. remember (n, ts) as p' eqn:E2. revert n ts E1 E2.
    induction Hr as [p|p o [n1 ts1] HO w o' p2 _ IH _ Hs]; intros n ts -> E2; [injection E2 as _ <-; split; [constructor|]; intros l; cbn; lia|].
    subst p2. destruct (IH n1 ts1 eq_refl eq_refl) as [I1 I2]. split; [by eapply pool_step_blocks|]. by eapply pool_step_locks. }
  clear Hr. remember (n, ts) as p eqn:E1. remember (n', ts') as p' eqn:E2.
  cut (t ∈ ts' /\ (forall t0, t0 ∈ ts -> tk_lock t0 = HeaderProcessing -> t0 ∈ ts') /\ the_tip n' = the_tip n /\ blocks_frame ts' /\ locks_ok permits ts'); [tauto|].
  revert n' ts' E1 E2. induction Hr' as [p|p o [n1 ts1] HO w o' p2 _ IH Hw Hs]; intros n' ts' -> E2; [by injection E2 as <- <-|].
  subst p2. destruct (IH n1 ts1 eq_refl eq_refl) as (I1 & I2 & I3 & I4 & I5). clear IH.
  pose proof (pool_step_blocks _ _ _ _ _ _ _ _ Hs I4) as K1. pose proof (pool_step_locks _ _ _ _ _ _ _ _ Hs I5) as K2.
  inversion Hs as [? ? id m t1 _ Hm|? ? e ? ? He Hev|? ? ? Hmv]; subst.
  - split_and!; [apply elem_of_app; auto|intros; apply elem_of_app; auto|done..].
  - split_and!; [done|done| |done|done]. pose proof (tip_inline (the_tip n1) HO (te_net w) e He n1 eq_refl) as Ht'. rewrite Hev in Ht'. rewrite <- I3. exact Ht'.
  - destruct (blocked_move q t capacity w n1 ts1 o' n' ts' Ht Hw I1 I5 I4 Hmv) as (J1 & J2 & J3). split_and!; [done|auto|congruence|done..].
Qed.

(** A running task goes on by itself. *)
Lemma run_prefix (may : Message -> Prop) (ok : TaskEnv -> Prop) (HO : HashOrder) w l p0 {A} (p : Prog TaskEnv (Net C) A) k a n n1 o o1 : ok w -> alone w p n = Some (a, n1, o1) ->
  pool_run may ok p0 o (n, [mkPoolTask l true (p ≫= k)]) -> exists o', pool_run may ok p0 o' (n1, [mkPoolTask l true (k a)]).
Proof.
  intros Hw. revert n o o1. induction p as [x|f IH] using Prog_steps_ind; intros n o o1 Ha Hr; cbn in Ha; [injection Ha as -> -> _; eauto|].
  destruct (f w n) as [[[p n2] o2]|] eqn:Ef; [|done]. destruct (alone w p n2) as [[[a' n3] o3]|] eqn:Ea; [|done]. injection Ha as -> -> <-.
  eapply (IH w n p n2 o2 Ef n2 _ _ Ea). eapply (pr_snoc may ok p0 o _ HO w _ _ Hr Hw). apply ps_move. eapply (tm_step permits w n [] l _ [] _ n2 o2). cbn. by rewrite Ef.
Qed.

(** The state when the request for the next batch is due. *)
Definition after_headers (env : NetEnv) (id : NodeId) (hdr : BlockHeader) (height : Z) (c : C) (n : Net C) : Net C :=
  let s := finish_header_request id (n_sync n) in
  set_sync (if bool_decide (block_hash hdr = ZERO_HASH) then s else update_headers_tip (block_hash hdr) height (time hdr) s) (set_chain c n).

(** A full batch leads to the send. *)
Lemma full_batch_waits (may : Message -> Prop) (ok : TaskEnv -> Prop) (HO : HashOrder) w id hs heights c hdr height n : ok w -> may (MHeaders (mkHeaders hs)) ->
  length hs = HEADERS_BATCH -> vi_process_headers (ne_chain (te_net w)) hs (n_chain n) = (Ok heights, c) -> last (zip hs heights) = Some (hdr, height) ->
  (try_begin_header_request (readings (te_net w)) id (block_hash hdr) height HEADER_REQUEST_TIMEOUT (n_sync (after_headers (te_net w) id hdr height c n))).1 = true ->
  exists n' t o, waits_to_send id t /\ the_tip n' = the_tip (after_headers (te_net w) id hdr height c n) /\ pool_run may ok (n, []) o (n', [t]).
Proof using VO.
  intros Hw Hmay Hlen Hp Hlast Hbegin. set (env := te_net w) in *.
  assert (pool_run may ok (n, []) ([] ++ []) (n, [] ++ [spawn HeaderProcessing (on_headers_prog id hs)])) as R.
  { eapply pr_snoc; [constructor|exact Hw|]. by apply (ps_spawn may HO w n [] id (MHeaders (mkHeaders hs))). }
  eapply (pr_snoc may ok _ _ _ HO w [] (n, [mkPoolTask HeaderProcessing true (on_headers_prog id hs)])) in R; [|exact Hw|apply ps_move, (tm_acquire permits w n [] HeaderProcessing _ []); cbn; lia].
  unfold on_headers_prog in R. apply (run_prefix may ok HO w _ _ _ _ _ _ _ _ _ Hw (alone_net_step w _ n)) in R as [o1 R]. cbn [on_sync fst snd] in R.
  destruct hs as [|h0 hs]; [done|]. set (n1 := set_sync _ n) in R.
  assert (alone w (in_chain (vt_process_headers (h0 :: hs))) n1 = Some (Ok heights, set_chain c n1, [])) as E1.
  { rewrite (alone_in_chain w _ (vi_process_headers (ne_chain env) (h0 :: hs))); [|intros; apply vt_headers_alone]. unfold ask_chain. cbn [n1 n_chain set_sync]. by rewrite Hp. }
  apply (run_prefix may ok HO w _ _ _ _ _ _ _ _ _ Hw E1) in R as [o2 R]. rewrite Hlast in R. cbv zeta in R.
  set (n2 := after_headers env id hdr height c n) in *.
  assert (alone w (if bool_decide (block_hash hdr = ZERO_HASH) then mret tt else net_step (fun _ => on_sync (update_headers_tip (block_hash hdr) height (time hdr)))) (set_chain c n1) =
    Some (tt, n2, [])) as E2.
  { unfold n2, after_headers. case_bool_decide; [done|]. exact (alone_net_step w (fun _ => on_sync (update_headers_tip (block_hash hdr) height (time hdr))) _). }
  apply (run_prefix may ok HO w _ _ _ _ _ _ _ _ _ Hw E2) in R as [o3 R]. rewrite Hlen, Nat.eqb_refl in R. unfold next_headers_prog in R.
  destruct (try_begin_header_request (readings env) id (block_hash hdr) height HEADER_REQUEST_TIMEOUT (n_sync n2)) as [began s] eqn:Eb. cbn [fst] in Hbegin. subst began.
  assert (alone w (net_step (fun env => ask_sync (try_begin_header_request (readings env) id (block_hash hdr) height HEADER_REQUEST_TIMEOUT))) n2 = Some (true, set_sync s n2, [])) as E3.
  { rewrite alone_net_step. unfold ask_sync. fold env. by rewrite Eb. }
  apply (run_prefix may ok HO w _ _ _ _ _ _ _ _ _ Hw E3) in R as [o4 R]. apply (run_prefix may ok HO w _ _ _ _ _ _ _ _ _ Hw (alone_net_step w _ _)) in R as [o5 R].
  cbn [gets fst snd] in R. eexists _, _, _. split; [|split; [|exact R]].
  - split_and!; [done|done|]. eauto.
  - unfold the_tip. cbn [n_sync set_sync]. change s with ((true, s).2). rewrite <- Eb. apply begin_tip.
Qed.

(** C39: One peer can stop header sync for all.  When a full batch of its headers has
    been accepted, the task that asks it for more holds the header lock while it waits
    for room in its channel; if the peer has stopped reading by then, so that its
    channel and socket are full, no run of the node from there on, with whatever
    messages of the other peers, timers and connections, lets any header task take a
    step, and the header tip never moves again. *)
Theorem unread_peer_stops_headers (capacity : nat) (HO : HashOrder) (w : TaskEnv) (q : NodeId) (hs : list BlockHeader) (heights : list Z) (c : C)
    (hdr : BlockHeader) (height : Z) (n : Net C) :
  stuck capacity (te_end w q) -> length hs = HEADERS_BATCH -> vi_process_headers (ne_chain (te_net w)) hs (n_chain n) = (Ok heights, c) ->
  last (zip hs heights) = Some (hdr, height) ->
  (try_begin_header_request (readings (te_net w)) q (block_hash hdr) height HEADER_REQUEST_TIMEOUT (n_sync (after_headers (te_net w) q hdr height c n))).1 = true ->
  exists n1 t o1, pool_run anything (q_stuck capacity q) (n, []) o1 (n1, [t]) /\
    forall n2 ts o2, pool_run anything (q_stuck capacity q) (n1, [t]) o2 (n2, ts) ->
      t ∈ ts /\ (forall t0, t0 ∈ ts -> tk_lock t0 = HeaderProcessing -> tk_running t0 = true -> t0 = t) /\ the_tip n2 = the_tip n1.
Proof using VO.
  intros Hw Hlen Hp Hlast Hb. destruct (full_batch_waits anything (q_stuck capacity q) HO w q hs heights c hdr height n Hw I Hlen Hp Hlast Hb) as (n1 & t & o1 & Ht & _ & R).
  exists n1, t, o1. split; [done|]. intros n2 ts o2 R2. pose proof Ht as (Hl & Hrun & _).
  destruct (header_lock_kept _ _ capacity q n n1 n2 [t] ts o1 o2 t R ltac:(by left) Ht R2) as [K1 K2]. assert (t ∈ ts) as Hin by (apply K1; [by left|done]).
  split_and!; [done| |done]. intros t0 H0 Hl0 Hr0. apply (one_holder ts t t0); try done. apply (run_locks _ _ _ _ _ _ _ R2). apply (run_locks _ _ _ _ _ _ _ R). intros l. cbn. lia.
Qed.
End Proofs.

(** ** Concrete runs *)

(** A chain that accepts every header at height 7 and every block. *)
Definition pool_validation : ValidationInterface demo_chain := {|
  vi_process_headers _ hs c := (Ok (map (fun _ => 7) hs), c);
  vi_process_block _ _ c := (Ok 7, c);
  vi_get_block_locator c _ := c;
|}.
Definition pool_tasks : ValidationTasks demo_chain := {|
  vt_process_headers hs := atomic (fun env c => (@vi_process_headers _ pool_validation env hs c, []));
  vt_process_block b := atomic (fun env c => (@vi_process_block _ pool_validation env b c, []));
|}.
Lemma pool_tasks_ok : @ValidationTasksOk demo_chain pool_validation pool_tasks.
Proof. split; intros; try exact (alone_atomic _ _ _); exists 1%nat; apply ends_by_atomic. Qed.

Definition pool_header : BlockHeader := mkBlockHeader 1 (replicate 32 7) (replicate 32 8) 9 0x207fffff 0.
Definition pool_block : Block := mkBlock pool_header [].
Abbreviation demo_pool_run may ok := (@pool_run demo_chain pool_validation pool_tasks toy_digests demo_provider demo_hasher may ok).
Abbreviation demo_task m := (@message_task demo_chain pool_validation pool_tasks toy_digests (demo_peer 1) m).
(** The first peer's channel is full and its writer waits for the socket. *)
Definition unread_end : End := mkEnd (replicate 1024 (MPing (mkPing 1))) 1 false (WWriting [0]) (replicate 10 0) [] (RReading 0) [] [].
Definition pool_env : TaskEnv := mkTaskEnv demo_env (fun id => if decide (id = demo_peer 1) then unread_end else end_start 0).

(** A block arrives, a connection is closed, and the block's task takes its permit. *)
Lemma tasks_invariant_witness :
  exists n ts o, demo_pool_run anything (fun _ => True) (demo_net, []) o (n, ts) /\ length ts = 1%nat /\
    @net_inv demo_chain demo_hasher 103 100 n /\ (holders BlockProcessing ts <= 64)%nat.
Proof.
  set (t := mkPoolTask BlockProcessing true (@on_block_prog demo_chain pool_tasks toy_digests (demo_peer 1) pool_block)).
  set (n := (@finalize_node demo_chain (demo_peer 2) demo_net).1.2).
  assert (demo_pool_run anything (fun _ => True) (demo_net, []) ((([] ++ []) ++ (@finalize_node demo_chain (demo_peer 2) demo_net).2) ++ []) (n, [t])) as R.
  { eapply (pr_snoc _ _ _ _ (n, [spawn BlockProcessing (@on_block_prog demo_chain pool_tasks toy_digests (demo_peer 1) pool_block)]) canonical_order pool_env); [|exact I|].
    - eapply (pr_snoc _ _ _ _ _ canonical_order pool_env); [|exact I|].
      + eapply (pr_snoc _ _ _ _ _ canonical_order pool_env); [constructor|exact I|]. exact (ps_spawn _ _ _ demo_net [] (demo_peer 1) (MBlock pool_block) _ I eq_refl).
      + apply (ps_event _ _ _ demo_net _ (EvClosed (demo_peer 2))); reflexivity.
    - apply ps_move, (tm_acquire _ _ n [] BlockProcessing _ []). cbn. lia. }
  exists n, [t], ((([] ++ []) ++ (@finalize_node demo_chain (demo_peer 2) demo_net).2) ++ []). split; [exact R|]. split; [reflexivity|].
  destruct (@tasks_invariant demo_chain pool_validation pool_tasks demo_provider toy_digests demo_hasher (fun _ => True) 103 100 demo_net n [t]
    ((([] ++ []) ++ (@finalize_node demo_chain (demo_peer 2) demo_net).2) ++ []) demo_net_inv R) as (H1 & _ & H2). split; [exact H1|exact H2].
Defined.

Lemma tasks_end_witness : exists bound : nat, forall n k o n' ts,
  moves permits channels_open k (n, @message_tasks demo_chain pool_validation pool_tasks toy_digests [(demo_peer 1, MBlock pool_block); (demo_peer 2, MHeaders (mkHeaders [pool_header]))])
    o (n', ts) -> (k <= bound)%nat.
Proof.
  destruct (@tasks_end demo_chain pool_validation pool_tasks toy_digests pool_tasks_ok [(demo_peer 1, MBlock pool_block); (demo_peer 2, MHeaders (mkHeaders [pool_header]))]) as [bound Hb].
  exists bound. intros n k o n' ts Hm. exact (proj1 (Hb n k o n' ts Hm)).
Defined.

Lemma unread_peer_stops_headers_witness :
  exists n1 t o1, demo_pool_run anything (q_stuck 10 (demo_peer 1)) (demo_net, []) o1 (n1, [t]) /\
    forall n2 ts o2, demo_pool_run anything (q_stuck 10 (demo_peer 1)) (n1, [t]) o2 (n2, ts) ->
      t ∈ ts /\ (forall t0, t0 ∈ ts -> tk_lock t0 = HeaderProcessing -> tk_running t0 = true -> t0 = t) /\ the_tip n2 = the_tip n1.
Proof.
  apply (@unread_peer_stops_headers demo_chain pool_validation pool_tasks demo_provider toy_digests demo_hasher pool_tasks_ok 10 canonical_order pool_env (demo_peer 1)
    (replicate 2000 pool_header) (replicate 2000 7) [demo_hash 10; demo_hash 11; demo_hash 12] pool_header 7 demo_net).
  - split; [apply Nat.leb_le; vm_compute; reflexivity|]. split; [exists [0]; reflexivity|apply Nat.leb_le; vm_compute; reflexivity].
  - vm_compute. reflexivity.
  - vm_compute. reflexivity.
  - vm_compute. reflexivity.
  - vm_compute. reflexivity.
Defined.
