(* ===== verification/ConcurrentNode.v ===== *)
(** * Header batches, blocks and activation at the same time

    The node under its tasks (PeerTasks): what one handler may rely on while others
    run, and what it guarantees to them.  Block tasks and activation only rewrite
    records of the index, and only their positions; a header task adds records, which
    is why one at a time may run.  [concurrent_header_tree] is the theorem; the race of
    two copies of a block is at the end. *)

From S2P Require Import Prelude Wire Hash Transaction Block Codecs Params Pow Coins ScriptNum ScriptOps Taproot Signet Engine Validation ConnectSpec BlockFile Store StoreInv DownloaderProofs Chainstate ChainstateProofs Node NodeProofs P2P P2PProofs AddrMan AddrManProofs Sync PeerTable Peers Downloader Connect NetProofs Transport Tasks PeerTasks.

Section Node.
Context {B E : Type} {SB : StorageBackend B} {SO : StorageBackendOk B} {D : Digests} {DO : DigestsOk D} {K : Taproot.Secp} {SE : ScriptEngine E}.
Abbreviation TheNode := (Blockchain B E).
Implicit Types s : Store B.

(** ** The index between two moments *)

(** Records stay, with their header, height and work, and a block that has been stored
    stays stored. *)
Definition grows s s' : Prop := forall hash i, indexed s hash i ->
  exists j, indexed s' hash j /\ core j = core i /\ (is_Some (file_pos i) -> is_Some (file_pos j)).
(** ... and no record is added. *)
Definition quiet s s' : Prop := grows s s' /\ forall hash, get_block_index s hash = Ok None -> get_block_index s' hash = Ok None.

#[local] Instance grows_refl : Reflexive grows.
Proof. intros s hash i Hi. by exists i. Qed.
#[local] Instance grows_trans : Transitive grows.
Proof.
  intros s1 s2 s3 H1 H2 hash i Hi. destruct (H1 _ _ Hi) as (j & Hj & Hc & Hf). destruct (H2 _ _ Hj) as (k & Hk & Hc' & Hf').
  exists k. split_and!; [done|congruence|auto].
Qed.
#[local] Instance quiet_refl : Reflexive quiet.
Proof. by split. Qed.
#[local] Instance quiet_trans : Transitive quiet.
Proof. intros s1 s2 s3 [G1 N1] [G2 N2]. split; [by etransitivity|auto]. Qed.
Lemma quiet_same s s' : (forall hash, get_block_index s' hash = get_block_index s hash) -> quiet s s'.
Proof. intros Hg. split; [|intros hash; by rewrite Hg]. intros hash i Hi. exists i. unfold indexed. by rewrite Hg. Qed.

(** The headers that occur, on which the hash is injective. *)
Context (good : BlockHeader -> Prop).
Hypothesis good_ok : forall h, good h -> header_ok h.
Hypothesis good_inj : forall h1 h2, good h1 -> good h2 -> block_hash h1 = block_hash h2 -> h1 = h2.

(** The index is a tree of such headers, and what waits to be written for undo data
    has the position of its block. *)
Record node_inv s : Prop := {
  ni_tree : header_tree s;
  ni_good : forall hash i, indexed s hash i -> good (bi_header i);
  ni_undo : forall hash i, pending_undo_indexes (worker s) !! hash = Some i -> is_Some (file_pos i);
}.

Lemma good_rewritten s s' : (forall hash i, indexed s hash i -> good (bi_header i)) -> (forall hash i, indexed s' hash i -> exists j, indexed s hash j /\ core j = core i) ->
  forall hash i, indexed s' hash i -> good (bi_header i).
Proof. intros Hg Hb hash i Hi. destruct (Hb _ _ Hi) as (j & Hj & Hc). unfold core in Hc. injection Hc as <- _ _. by apply (Hg hash). Qed.

(** *** Undo data and flushes *)

Lemma undo_quiet s hash undo : node_inv s -> node_inv (handle_store_undo s hash undo).2 /\ quiet s (handle_store_undo s hash undo).2.
Proof.
  intros [Ht Hg Hu]. pose proof (tree_undo s hash undo Ht) as Ht'.
  assert ((forall h, get_block_index (handle_store_undo s hash undo).2 h = get_block_index s h) /\
    (forall h k, pending_undo_indexes (worker (handle_store_undo s hash undo).2) !! h = Some k -> is_Some (file_pos k))) as [Hs Hp].
  { clear Ht'. unfold handle_store_undo. destruct (undo_index s hash) as [i|] eqn:Eu; simpl rbind; [|done]. destruct (file_pos i) as [bp|] eqn:Ep; simpl rbind; [|done].
    cbv beta iota zeta. destruct (write_undo _ _ _ _ _) as [[pos size] d]. cbn [snd]. split; [done|].
    cbn [worker with_files pending_undo_indexes]. intros h k. destruct (decide (h = hash)) as [->|Hne]; [|rewrite lookup_insert_ne by done; apply Hu].
    rewrite lookup_insert_eq. intros [= <-]. cbn. rewrite Ep. eauto. }
  split; [|by apply quiet_same]. split; [done| |done]. intros h k. unfold indexed. rewrite Hs. apply Hg.
Qed.

Lemma utxos_quiet s ups best conn : node_inv s -> node_inv (update_utxos s ups best conn).2 /\ quiet s (update_utxos s ups best conn).2.
Proof.
  intros [Ht Hg Hu]. pose proof (tree_utxos s ups best conn Ht) as Ht'. revert Ht'. unfold update_utxos, StoreCoinsStore. destruct (bool_decide _); [|done].
  destruct (handle_update_utxo_set s ups best conn) as [[[]|e] s'] eqn:Eu; cbn [snd]; intros Ht'.
  - pose proof (fun hash => utxos_index_get s ups best conn s' hash Ht Eu) as Hget. apply update_utxo_set_ok in Eu as (_ & _ & _ & _ & _ & Hp).
    assert (quiet s s') as Hq.
    { split.
      - intros hash i Hi. unfold indexed. rewrite Hget. destruct (pending_undo_indexes _ !! hash) as [j|] eqn:Ep; [|by exists i].
        destruct (ht_pending _ Ht _ _ Ep) as [_ (k & Hk & Hc)]. exists j. split_and!; [done|unfold indexed in *; congruence|intros _; by apply (Hu hash)].
      - intros hash Hn. rewrite Hget. destruct (pending_undo_indexes _ !! hash) as [j|] eqn:Ep; [|done].
        destruct (ht_pending _ Ht _ _ Ep) as [_ (k & Hk & Hc)]. unfold indexed in Hk. congruence. }
    split; [|done]. split; [done| |by intros hash i; rewrite Hp, lookup_empty]. apply (good_rewritten s); [done|].
    intros hash i. unfold indexed. rewrite Hget. destruct (pending_undo_indexes _ !! hash) as [j|] eqn:Ep; [intros [= <-]; by apply (ht_pending _ Ht)|by exists i].
  - apply update_utxo_set_err in Eu as [h ->]. split; [by split|]. by apply quiet_same.
Qed.

Lemma activate_quiet env (m : ChainstateManager B E) : node_inv (cs_store m) ->
  node_inv (cs_store (activate_best_chain env m).2) /\ quiet (cs_store m) (cs_store (activate_best_chain env m).2).
Proof.
  intros Hi. apply (keeps_activate (fun s => node_inv s /\ quiet (cs_store m) s)); [| |by split].
  - intros s hash undo [H1 H2]. destruct (undo_quiet s hash undo H1) as [H3 H4]. split; [done|by etransitivity].
  - intros s ups best conn [H1 H2]. destruct (utxos_quiet s ups best conn H1) as [H3 H4]. split; [done|by etransitivity].
Qed.

(** *** Blocks *)

(** Where the index stands after the write of a block. *)
Lemma block_write_index s hdr height work raw : header_tree s -> block_index_ok (mkBlockIndex hdr height work None None) ->
  let s' := (handle_store_blocks s [(hdr, height, work, raw)]).2 in
  pending_undo_indexes (worker s') = pending_undo_indexes (worker s) /\
  ((forall h, get_block_index s' h = get_block_index s h) \/
   exists pos, (forall h, h <> block_hash hdr -> get_block_index s' h = get_block_index s h) /\ indexed s' (block_hash hdr) (mkBlockIndex hdr height work (Some pos) None)).
Proof.
  intros Ht Hok. unfold handle_store_blocks. pose proof (append_one (block_file_manager (worker s)) (disk s) hdr height work raw (ht_file _ Ht)) as Ha.
  destruct (append_blocks _ _ _) as [[[[entries ps]|e] m] d]; cbv zeta; [|split; [done|by left]].
  destruct Ha as (Hf & pos & Hpos & ->). set (i := mkBlockIndex hdr height work (Some pos) None).
  assert (block_index_ok i) as Hi by (destruct Hok as (? & ? & ? & _); by split_and!).
  set (tip := highest_tip _ _). set (s1 := match tip with Some _ => _ | None => _ end).
  assert (forall h, get_block_index s1 h = get_block_index s h) as Hs1 by (intros h; unfold s1; by destruct tip as [[? ?]|]).
  assert (pending_undo_indexes (worker s1) = pending_undo_indexes (worker s)) as Hp1 by (unfold s1; by destruct tip as [[? ?]|]).
  change (concat (map (fun p : BlockHash * BlockIndex => index_ops p.1 p.2) [(block_hash hdr, i)])) with (entries_ops [(block_hash hdr, i)]).
  pose proof (fun h => blocks_ops_index m (last_known_tip_height (worker (with_files s d (with_file_manager (worker s) m)))) [(block_hash hdr, i)] h) as Hops.
  unfold blocks_ops in Hops. fold tip in Hops. destruct (commit_batch s1 _) as [[[]|e] s2] eqn:Ec; cbn [snd].
  - pose proof (commit_batch_ok _ _ _ Ec) as (_ & _ & _ & Hw). rewrite Hw. split; [done|]. right. exists pos. unfold indexed.
    split; [intros h Hne|]; rewrite (entries_get s1 s2 _ [(block_hash hdr, i)] _ Ec (Hops _)) by (by constructor);
      change (reverse [(block_hash hdr, i)]) with [(block_hash hdr, i)]; cbn [list_find fst].
    + rewrite decide_False by done. apply Hs1.
    + by rewrite decide_True.
  - destruct (_ <=? _)%nat; (split; [done|]); by left.
Qed.

Lemma block_quiet s hdr height work raw j : node_inv s -> indexed s (block_hash hdr) j -> core j = (hdr, height, work) ->
  let s' := (handle_store_blocks s [(hdr, height, work, raw)]).2 in node_inv s' /\ quiet s s'.
Proof using SO good_ok.
  intros [Ht Hg Hu] Hj Hc s'. pose proof Hc as Hc'. unfold core in Hc'. injection Hc' as E1 E2 E3.
  assert (header_ok hdr) as Hh by (apply good_ok; rewrite <- E1; by apply (Hg (block_hash hdr))).
  pose proof (tree_block_write s hdr height work raw j Ht Hh Hj Hc) as Ht'. fold s' in Ht'.
  destruct (ht_node _ Ht _ _ Hj) as [(O1 & O2 & O3 & _) _]. rewrite E2 in O2. rewrite E3 in O3.
  destruct (block_write_index s hdr height work raw Ht) as [Hp Hx]; [by split_and!|]. fold s' in Hp, Hx.
  assert (forall hash i, indexed s hash i -> exists k, indexed s' hash k /\ core k = core i /\ (is_Some (file_pos i) -> is_Some (file_pos k))) as Hgr.
  { intros hash i Hi. destruct Hx as [Hsame|(pos & Hsame & Hnew)]; [exists i; unfold indexed; by rewrite Hsame|].
    destruct (decide (hash = block_hash hdr)) as [->|Hne]; [|exists i; unfold indexed; by rewrite Hsame].
    eexists. split; [exact Hnew|]. unfold indexed in *. assert (i = j) as -> by congruence. rewrite Hc. split; [done|]. cbn. eauto. }
  assert (forall hash i, indexed s' hash i -> exists k, indexed s hash k /\ core k = core i) as Hback.
  { intros hash i Hi. unfold indexed in *. destruct Hx as [Hsame|(pos & Hsame & Hnew)]; [exists i; by rewrite <- Hsame|].
    destruct (decide (hash = block_hash hdr)) as [->|Hne]; [|exists i; by rewrite <- Hsame]. exists j. split; [done|]. rewrite Hnew in Hi. by injection Hi as <-. }
  split.
  - split; [done|by apply (good_rewritten s)|]. rewrite Hp. exact Hu.
  - split; [exact Hgr|]. intros hash Hn. destruct Hx as [Hsame|(pos & Hsame & _)]; [by rewrite Hsame|]. rewrite Hsame; [done|]. intros ->. unfold indexed in Hj. congruence.
Qed.

(** *** Header batches *)

Definition known s (hash : BlockHash) (i : BlockIndex) : Prop := exists j, indexed s hash j /\ core j = core i.
Lemma known_grows s s' hash i : grows s s' -> known s hash i -> known s' hash i.
Proof. intros Hg (j & Hj & Hc). destruct (Hg _ _ Hj) as (k & Hk & Hc' & _). exists k. split; [done|congruence]. Qed.
Lemma known_ok s hash i : node_inv s -> known s hash i -> u32_ok (bi_height i) /\ hash_ok (chain_work i).
Proof.
  intros Hi (j & Hj & Hc). destruct (ht_node _ (ni_tree _ Hi) _ _ Hj) as [(_ & H2 & H3 & _) _]. unfold core in Hc. injection Hc as _ <- <-. done.
Qed.

(** The batch so far, against an index that may have moved on. *)
Definition in_batch s (b : HeaderBatch) (hash : BlockHash) (q : BlockIndex) : Prop := known s hash q \/ (hash, q) ∈ pending b.
Definition pending_fine s (b : HeaderBatch) (hash : BlockHash) (i : BlockIndex) : Prop :=
  get_block_index s hash = Ok None /\ by_hash b !! hash = Some i /\ block_hash (bi_header i) = hash /\ good (bi_header i) /\
  block_index_ok i /\ exists q, in_batch s b (prev_hash (bi_header i)) q /\ i = child_index (bi_header i) q.
Record batch_fine s (b : HeaderBatch) : Prop := {
  bf_by_hash : forall hash i, by_hash b !! hash = Some i -> in_batch s b hash i;
  bf_pending : forall hash i, (hash, i) ∈ pending b -> pending_fine s b hash i;
}.

Lemma batch_fine_quiet s s' b : quiet s s' -> batch_fine s b -> batch_fine s' b.
Proof.
  intros [Hg Hn] [H1 H2]. assert (forall hash q, in_batch s b hash q -> in_batch s' b hash q) as Hin.
  { intros hash q [Hk|Hp]; [left; by apply (known_grows s)|by right]. }
  split; [auto|]. intros hash i Hp. destruct (H2 _ _ Hp) as (K1 & K2 & K3 & K4 & K5 & q & K6 & K7). unfold pending_fine. split_and!; eauto.
Qed.
Lemma batch_fine_start s tip : batch_fine s (batch_start s tip).
Proof. split; cbn; [intros hash i; by rewrite lookup_empty|]. by intros hash i []%elem_of_nil. Qed.

Lemma batch_parent_fine s b hash q : batch_fine s b -> batch_parent s b hash = Some q -> in_batch s b hash q.
Proof.
  intros Hb. unfold batch_parent. destruct (by_hash b !! hash) as [j|] eqn:Ej; [intros [= <-]; by apply Hb|].
  intros Hi%index_opt_indexed. left. by exists q.
Qed.
Lemma in_batch_ok s b hash q : node_inv s -> batch_fine s b -> in_batch s b hash q -> u32_ok (bi_height q) /\ hash_ok (chain_work q).
Proof.
  intros Hi Hb [Hk|Hp]; [by apply (known_ok s hash)|]. destruct (bf_pending _ _ Hb _ _ Hp) as (_ & _ & _ & _ & (_ & H2 & H3 & _) & _). done.
Qed.
(** One hash, one core. *)
Lemma in_batch_core s b hash q q' : batch_fine s b -> in_batch s b hash q -> in_batch s b hash q' -> core q = core q'.
Proof.
  intros Hb [(j & Hj & Hc)|Hp] [(j' & Hj' & Hc')|Hp'].
  - unfold indexed in *. assert (j = j') as -> by congruence. congruence.
  - apply (bf_pending _ _ Hb) in Hp' as (Hn & _). unfold indexed in Hj. congruence.
  - apply (bf_pending _ _ Hb) in Hp as (Hn & _). unfold indexed in Hj'. congruence.
  - apply (bf_pending _ _ Hb) in Hp as (_ & H1 & _). apply (bf_pending _ _ Hb) in Hp' as (_ & H2 & _). congruence.
Qed.

Lemma batch_known_fine s b hash index : batch_fine s b -> indexed s hash index -> batch_fine s (batch_known b hash index).
Proof.
  intros [H1 H2] Hi. split; cbn [batch_known by_hash pending].
  - intros h i. destruct (decide (h = hash)) as [->|Hne]; [|rewrite lookup_insert_ne by done; apply H1].
    rewrite lookup_insert_eq. intros [= <-]. left. by exists index.
  - intros h i Hp. destruct (H2 _ _ Hp) as (K1 & K2 & K3). unfold pending_fine. cbn [batch_known by_hash]. split_and!; [done| |exact (proj1 K3)|apply K3..].
    rewrite lookup_insert_ne; [done|]. intros ->. unfold indexed in Hi. congruence.
Qed.
Lemma batch_push_fine s b hdr q : node_inv s -> batch_fine s b -> good hdr -> get_block_index s (block_hash hdr) = Ok None ->
  in_batch s b (prev_hash hdr) q -> batch_fine s (batch_push b (block_hash hdr) (child_index hdr q)).
Proof using good_ok good_inj.
  intros Hi Hb Hgood Hnone Hq. set (hash := block_hash hdr) in *. set (index := child_index hdr q).
  assert (forall i, (hash, i) ∈ pending b -> i = index) as Hold.
  { intros i Hp. destruct (bf_pending _ _ Hb _ _ Hp) as (_ & _ & H3 & H4 & _ & q' & H5 & H6). apply (good_inj _ hdr) in H3; [|done..].
    rewrite H3 in H5, H6. rewrite H6. apply child_core. by apply (in_batch_core s b (prev_hash hdr)). }
  assert (block_index_ok index) as Hok.
  { destruct (in_batch_ok s b (prev_hash hdr) q Hi Hb Hq) as [Hu Hw]. destruct (child_ok hdr (mkBlockIndex hdr (bi_height q) (chain_work q) None None)) as (K1 & K2 & K3 & _).
    - by apply good_ok.
    - unfold block_index_ok. cbn. split_and!; try done; by apply good_ok.
    - by split_and!. }
  assert (forall h i, in_batch s b h i -> in_batch s (batch_push b hash index) h i) as Hmore.
  { intros h i [Hk|Hp]; [by left|right]. cbn [batch_push pending]. apply elem_of_app. by left. }
  split; cbn [batch_push by_hash pending].
  - intros h i. destruct (decide (h = hash)) as [->|Hne]; [|rewrite lookup_insert_ne by done; intros Hh; by apply Hmore, Hb].
    rewrite lookup_insert_eq. intros [= <-]. right. cbn [batch_push pending]. apply elem_of_app. right. by apply list_elem_of_singleton.
  - intros h i Hp. apply elem_of_app in Hp as [Hp|[= -> ->]%list_elem_of_singleton].
    + destruct (bf_pending _ _ Hb _ _ Hp) as (K1 & K2 & K3 & K4 & K5 & q' & K6 & K7). unfold pending_fine. cbn [batch_push by_hash].
      split_and!; [done| |done..|exists q'; split; [by apply Hmore|done]]. destruct (decide (h = hash)) as [->|Hne]; [|by rewrite lookup_insert_ne].
      rewrite lookup_insert_eq. by rewrite (Hold i Hp).
    + unfold pending_fine. cbn [batch_push by_hash]. rewrite lookup_insert_eq. split_and!; [done..|]. exists q. split; [by apply Hmore|done].
Qed.

(** The commit of a batch. *)
Lemma commit_grows s b : node_inv s -> batch_fine s b ->
  let s' := (handle_store_block_indexes s (pending b) (best_tip b)).2 in node_inv s' /\ grows s s'.
Proof using SO good_ok.
  intros [Ht Hg Hu] Hb s'. unfold s', handle_store_block_indexes. fold (entries_ops (pending b)). set (ops := _ ++ _).
  destruct (commit_batch s ops) as [[[]|e] s1] eqn:Ec; cbn [snd]; [|apply commit_batch_err in Ec as ->; split; [by split|reflexivity]].
  assert (Forall (fun p => block_index_ok p.2) (pending b)) as Hok.
  { apply Forall_forall. intros [h i] Hp. by apply (bf_pending _ _ Hb) in Hp as (_ & _ & _ & _ & ? & _). }
  assert (forall hash, ops_effect BLOCK_INDEX (block_key hash) ops = ops_effect BLOCK_INDEX (block_key hash) (entries_ops (pending b))) as Hops.
  { intros hash. unfold ops. rewrite ops_effect_app. destruct (best_tip b); by no_effect. }
  assert (forall hash, get_block_index s1 hash = get_block_index s hash /\ (forall i, (hash, i) ∉ pending b) \/
    exists i, (hash, i) ∈ pending b /\ indexed s1 hash i) as Hget.
  { intros hash. unfold indexed. rewrite (entries_get s s1 ops (pending b) hash Ec (Hops hash) Hok). destruct (list_find _ _) as [[k [h i]]|] eqn:F.
    - right. apply list_find_Some in F as (F1 & F2 & _). cbn [fst] in F2. subst h. apply list_elem_of_lookup_2 in F1. rewrite elem_of_reverse in F1. by exists i.
    - left. split; [done|]. intros i Hi. apply list_find_None in F. rewrite Forall_forall in F. apply (F (hash, i)); [by rewrite elem_of_reverse|done]. }
  assert (forall hash i, indexed s hash i -> indexed s1 hash i) as Hkeep.
  { intros hash i Hi. destruct (Hget hash) as [[Hs _]|(j & Hj & _)]; [unfold indexed; by rewrite Hs|].
    apply (bf_pending _ _ Hb) in Hj as (Hn & _). unfold indexed in Hi. congruence. }
  assert (forall hash i, (hash, i) ∈ pending b -> indexed s1 hash i) as Hin.
  { intros hash i Hp. destruct (Hget hash) as [[_ Hno]|(j & Hj & Hj1)]; [by destruct (Hno i)|].
    apply (bf_pending _ _ Hb) in Hj as (_ & H1 & _). apply (bf_pending _ _ Hb) in Hp as (_ & H2 & _). congruence. }
  pose proof (commit_batch_ok _ _ _ Ec) as (_ & _ & _ & Hw). split; [split|].
  - eapply (tree_batch s s1 ops (pending b)); [done|exact Ec|done|done| |].
    + intros hash i j Hp Hj. apply (bf_pending _ _ Hb) in Hp as (Hn & _). unfold indexed in Hj. congruence.
    + intros hash i Hp. right. destruct (bf_pending _ _ Hb _ _ Hp) as (_ & _ & H3 & _ & _ & q & [(j & Hj & Hc)|Hq] & H8); (split; [done|]); right.
      * exists j. split; [by apply Hkeep|]. rewrite H8 at 1. f_equal. by apply child_core.
      * exists q. split; [by apply Hin|]. by rewrite H8 at 1.
  - intros hash i Hi. destruct (Hget hash) as [[Hs _]|(j & Hj & Hj1)]; [apply (Hg hash); unfold indexed in *; by rewrite <- Hs|].
    unfold indexed in *. assert (i = j) as -> by congruence. by apply (bf_pending _ _ Hb) in Hj as (_ & _ & _ & ? & _).
  - rewrite Hw. exact Hu.
  - intros hash i Hi. exists i. split; [by apply Hkeep|done].
Qed.

(** ** The node's programs *)

Definition n_quiet (bc bc' : TheNode) : Prop := quiet (bc_store bc) (bc_store bc').
Definition n_grows (bc bc' : TheNode) : Prop := grows (bc_store bc) (bc_store bc').
Definition n_inv (bc : TheNode) : Prop := node_inv (bc_store bc).
Abbreviation header_safe := (safe n_quiet n_grows n_inv).
Abbreviation block_safe := (safe n_grows n_quiet n_inv).

(** A read sees the state of its own moment. *)
Lemma look_safe {A} (R G : TheNode -> TheNode -> Prop) `{!Reflexive G} (f : TheNode -> A) (Q : A -> TheNode -> Prop) bc :
  (forall bc1, R bc bc1 -> n_inv bc1 -> Q (f bc1) bc1) -> safe R G n_inv Q (look f) bc.
Proof. intros Hf. apply safe_atomic. intros w bc1 Hr Hi. cbn. split_and!; [done|reflexivity|by apply Hf]. Qed.
#[local] Instance n_grows_refl : Reflexive n_grows.
Proof. intros bc. unfold n_grows. reflexivity. Qed.
#[local] Instance n_quiet_refl : Reflexive n_quiet.
Proof. intros bc. unfold n_quiet. reflexivity. Qed.

Lemma accept_headers_safe headers b bc : Forall good headers -> batch_fine (bc_store bc) b ->
  header_safe (fun r bc => match r with Ok b => batch_fine (bc_store bc) b | Err _ => True end) (accept_headers_prog headers b) bc.
Proof using good_ok good_inj.
  intros Hg. revert b bc. induction Hg as [|hdr headers Hh _ IH]; intros b bc Hb; [done|]. cbn [accept_headers_prog].
  eapply (safe_bind _ _ _ (fun r bc => batch_fine (bc_store bc) b /\ r = get_block_index (bc_store bc) (block_hash hdr))).
  { apply look_safe; [apply _|]. intros bc1 Hr _. split; [by apply (batch_fine_quiet (bc_store bc))|done]. }
  intros r bc1 [Hb1 ->]. destruct (get_block_index (bc_store bc1) (block_hash hdr)) as [[index|]|e] eqn:Eg; [by apply IH, batch_known_fine| |done].
  eapply (safe_bind _ _ _ (fun r bc => n_inv bc /\ batch_fine (bc_store bc) b /\ get_block_index (bc_store bc) (block_hash hdr) = Ok None /\ r = batch_parent (bc_store bc) b (prev_hash hdr))).
  { apply look_safe; [apply _|]. intros bc2 [Hr1 Hr2] Hi. split_and!; [done|by apply (batch_fine_quiet (bc_store bc1))|by apply Hr2|done]. }
  intros r bc2 (Hi2 & Hb2 & Hn2 & ->). destruct (batch_parent (bc_store bc2) b (prev_hash hdr)) as [prev|] eqn:Ep; [|done].
  eapply (safe_bind _ _ _ (fun _ bc => batch_fine (bc_store bc) (batch_push b (block_hash hdr) (child_index hdr prev)))).
  { apply look_safe; [apply _|]. intros bc3 Hr _. apply (batch_fine_quiet (bc_store bc2)); [done|]. apply batch_push_fine; try done. by apply batch_parent_fine. }
  intros [[]|e] bc3 Hb3; [by apply IH|done].
Qed.

Lemma update_chains_safe l bc : header_safe (fun _ _ => True) (update_chains_prog l) bc.
Proof.
  revert bc. induction l as [|[hdr h] l IH]; intros bc; [done|]. eapply (safe_bind _ _ _ (fun _ _ => True)); [|by intros].
  apply safe_atomic. intros w bc1 _ Hi. split_and!; [done| |done]. unfold n_grows. reflexivity.
Qed.

Lemma process_headers_safe headers bc : Forall good headers -> header_safe (fun _ _ => True) (process_headers_prog headers) bc.
Proof using SO good_ok good_inj.
  intros Hg. eapply (safe_bind _ _ _ (fun _ _ => True)); [by apply look_safe; [apply _|]|]. intros [tip|e] bc1 _; [|done].
  eapply (safe_bind _ _ _ (fun b bc => batch_fine (bc_store bc) b)); [apply look_safe; [apply _|]; intros; apply batch_fine_start|].
  intros start bc2 Hb. eapply safe_bind; [by apply accept_headers_safe|]. intros [b|e] bc3 Hb3; [|done].
  eapply (safe_bind _ _ _ (fun _ _ => True)).
  - destruct (_ =? _)%nat; [done|]. apply safe_atomic. intros env bc4 Hr Hi. unfold call_chainstate. cbn [handle_chainstate_msg]. unfold writes.
    destruct (commit_grows (bc_store bc4) b Hi) as [H1 H2]; [by apply (batch_fine_quiet (bc_store bc3))|]. unfold n_inv, n_grows.
    change (cs_store (bc_manager bc4)) with (bc_store bc4). destruct (handle_store_block_indexes _ _ _) as [[[]|e] s1]; done.
  - intros [[]|e] bc4 _; [|done]. eapply (safe_bind _ _ _ (fun _ _ => True)); [apply update_chains_safe|done].
Qed.

Lemma process_block_safe b bc : good (header b) -> block_safe (fun _ _ => True) (process_block_prog b) bc.
Proof using SO good_ok good_inj.
  intros Hg. eapply (safe_bind _ _ _ (fun r bc => match r with Ok i => known (bc_store bc) (block_hash (header b)) i /\ bi_header i = header b | Err _ => True end)).
  { apply look_safe; [apply _|]. intros bc1 _ Hi. destruct (check_block _ _); [|done]. destruct (get_block_index _ _) as [[i|]|e] eqn:Eg; [|done..].
    split; [by exists i|]. apply good_inj; [by apply (ni_good _ Hi (block_hash (header b)))|done|]. by apply (ht_node _ (ni_tree _ Hi) _ i). }
  intros [i|e] bc1 Hi; [|done]. destruct Hi as [Hk Hh]. eapply (safe_bind _ _ _ (fun _ _ => True)).
  - apply safe_atomic. intros env bc2 Hr Hi. unfold accept_block. destruct (file_pos i); [split_and!; [done|unfold n_quiet; reflexivity|done]|].
    destruct (known_grows _ _ _ _ Hr Hk) as (j & Hj & Hc). destruct (block_quiet (bc_store bc2) (header b) (bi_height i) (chain_work i) (serialize encode_Block b) j Hi Hj) as [H1 H2].
    { rewrite Hc. unfold core. by rewrite Hh. }
    unfold n_inv, n_quiet. destruct (handle_store_blocks _ _) as [r s1]. done.
  - intros [[]|e] bc2 _; [|done]. eapply (safe_bind _ _ _ (fun _ _ => True)); [|done]. apply safe_atomic. intros env bc3 _ Hi.
    unfold call_chainstate. cbn [handle_chainstate_msg process_block_downloaded modify]. split_and!; [done|unfold n_quiet; reflexivity|done].
Qed.

(** ** The network layer over the node *)

Context {H : DefaultHasher}.
Abbreviation TheNet := (Net TheNode).

Definition net_R (l : PeerLock) (n n' : TheNet) : Prop :=
  match l with HeaderProcessing => n_quiet (n_chain n) (n_chain n') | BlockProcessing => n_grows (n_chain n) (n_chain n') end.
Definition net_G (l : PeerLock) (n n' : TheNet) : Prop :=
  match l with HeaderProcessing => n_grows (n_chain n) (n_chain n') | BlockProcessing => n_quiet (n_chain n) (n_chain n') end.
Definition net_I (n : TheNet) : Prop := n_inv (n_chain n).
Abbreviation net_safe l := (safe (net_R l) (net_G l) net_I (fun _ _ => True)).

Lemma net_G_refl l n n' : n_chain n' = n_chain n -> net_G l n n'.
Proof. intros E1. destruct l; cbn; rewrite E1; [unfold n_grows|unfold n_quiet]; reflexivity. Qed.
Lemma step_safe l {A} (m : NetEnv -> NetM TheNode A) n : (forall env n, n_chain (m env n).1.2 = n_chain n) -> net_safe l (net_step m) n.
Proof.
  intros Hm. apply safe_atomic. intros w n1 _ Hi. specialize (Hm (te_net w) n1). split_and!; [unfold net_I; by rewrite Hm|by apply net_G_refl|done].
Qed.
Lemma bind_safe l {A A'} (p : Prog TaskEnv TheNet A) (k : A -> Prog TaskEnv TheNet A') n : net_safe l p n -> (forall a n, net_safe l (k a) n) -> net_safe l (p ≫= k) n.
Proof. intros Hp Hk. eapply safe_bind; [exact Hp|]. intros a n1 _. apply Hk. Qed.
Lemma send_safe l to m n : net_safe l (send_prog to m) n.
Proof.
  intros w n1 _ Hi. cbn. destruct (node_send m (te_end w to)) as [[e|e]|]; [split_and!; [done|by apply net_G_refl|done]..|done].
Qed.
Lemma misbehaving_safe l id k n : net_safe l (misbehaving_prog id k) n.
Proof.
  apply bind_safe; [apply step_safe; intros env n1; unfold mark_misbehaving; by destruct (n_peers n1 !! id)|].
  intros [[|]|] n1; [apply step_safe; intros env n2; unfold tell_table; cbv zeta; match goal with |- context [let '(_, _) := ?x in _] => by destruct x end..|done].
Qed.
Lemma ask_sync_chain {A} (f : SyncManager -> A * SyncManager) (n : TheNet) : n_chain (ask_sync f n).1.2 = n_chain n.
Proof. unfold ask_sync. by destruct (f (n_sync n)). Qed.

(** The messages whose headers are among those considered. *)
Definition message_good (m : Message) : Prop :=
  match m with MHeaders h => Forall good (headers h) | MBlock b => good (header b) | _ => True end.

Lemma message_safe id m t n : message_good m -> message_task id m = Some t -> task_safe net_R net_G net_I n t.
Proof using SO good_ok good_inj.
  intros Hg. destruct m; intros [= <-]; unfold task_safe; cbn [tk_running spawn tk_lock tk_prog]; intros n1 _.
  - apply bind_safe; [by apply step_safe|]. intros _ n2. destruct (headers m) as [|h hs] eqn:Eh; [done|].
    apply bind_safe; [apply (safe_zoom _ _ _ n_quiet n_grows n_inv (fun _ _ => True)); [done|]; apply process_headers_safe; by rewrite <- Eh|].
    intros [heights|e] n3; [|apply misbehaving_safe]. destruct (last _) as [[lh lt]|]; [|done].
    apply bind_safe; [destruct (bool_decide _); [done|by apply step_safe]|]. intros _ n4. destruct (_ =? _)%nat; [|done].
    apply bind_safe; [apply step_safe; intros; apply ask_sync_chain|]. intros [|] n5; [|done]. apply bind_safe; [by apply step_safe|]. intros loc n6.
    apply bind_safe; [apply send_safe|]. intros [|] n7; [done|by apply step_safe].
  - apply bind_safe; [apply (safe_zoom _ _ _ n_grows n_quiet n_inv (fun _ _ => True)); [done|]; by apply process_block_safe|].
    intros [h|e] n2; (apply bind_safe; [by apply step_safe|]); intros _ n3; [by apply step_safe|apply misbehaving_safe].
Qed.

(** Of what is not a task, only activation touches the chain. *)
Section Events.
Context (bc0 : TheNode).
Definition since (n : TheNet) : Prop := n_inv (n_chain n) /\ n_quiet bc0 (n_chain n).
Lemma since_on_sync f : net_keeps since (on_sync f).
Proof. by apply net_keeps_on_sync. Qed.
Lemma since_ask_sync {A} (f : SyncManager -> A * SyncManager) : net_keeps since (ask_sync f).
Proof. by apply net_keeps_ask_sync. Qed.
Lemma since_on_table f : net_keeps since (on_table f).
Proof. by apply net_keeps_on_table. Qed.
Lemma since_tell_table f : net_keeps since (tell_table f).
Proof. by apply net_keeps_tell_table. Qed.
Lemma since_activate env : net_keeps since (ask_chain (fun c => (tt, sp_activate_best_chain env c))).
Proof.
  apply net_keeps_ask_chain. intros n [Hi Hq]. cbn. unfold bc_activate_best_chain, call_chainstate. cbn [handle_chainstate_msg].
  destruct (activate_quiet env (bc_manager (n_chain n)) Hi) as [H1 H2]. unfold since. cbn [n_chain set_chain].
  destruct (activate_best_chain env (bc_manager (n_chain n))) as [r m]. split; [exact H1|]. unfold n_quiet in *. by etransitivity.
Qed.
#[local] Hint Resolve since_on_sync since_ask_sync since_on_table since_tell_table since_activate : keep_leaf.
Ltac since_leaf := apply net_keeps_change; by intros.
Lemma since_assign env b missing ps a : net_keeps since (assign env b missing a ps).
Proof.
  revert a. induction ps as [|p l IH]; intros a; [apply net_keeps_ret|]. cbn [assign]. apply net_keeps_bind; [|intros; apply IH].
  unfold serve_peer, request_blocks, drop_peer. keep_steps; since_leaf.
Qed.
Lemma since_banned now i : net_keeps since (cm_is_banned now i).
Proof. intros n Hn. unfold cm_is_banned. destruct (cm_ban_list _ !! i); [destruct (now <? _)|]; done. Qed.
#[local] Hint Resolve since_assign since_banned : keep_leaf.
Lemma since_initiator HO turn needed_of env pc : net_keeps since (@initiator_step TheNode HO turn needed_of env pc).
Proof. unfold initiator_step. keep_steps; since_leaf. Qed.
Lemma since_conn env magic nonce dial timer t : net_keeps since (conn_step (C := TheNode) env magic nonce dial timer t).
Proof. unfold conn_step, begin_handshake, with_nonces, initialize_node, on_cm_addr_man. cbv zeta. keep_steps; since_leaf. Qed.
#[local] Hint Resolve since_initiator since_conn : keep_leaf.

Lemma since_inline HO env e : inline_event (C := TheNode) e = true -> net_keeps since (run_event HO env e).
Proof.
  intros He. destruct e as [id m| | | | | | | | |]; cbn [run_event].
  - destruct m; try done; cbn [process_message]; unfold on_not_found, on_ping; keep_steps.
  - unfold finalize_node. keep_steps; since_leaf.
  - unfold coordinate_headers, drop_peer. keep_steps; since_leaf.
  - unfold coordinate_downloads, prepare_round. keep_steps; since_leaf.
  - unfold connector_tick. keep_steps; since_leaf.
  - unfold accept_connection. keep_steps; since_leaf.
  - unfold fill_step. keep_steps; since_leaf.
  - unfold feeler_step. keep_steps; since_leaf.
  - unfold run_conn. keep_steps; since_leaf.
  - keep_steps.
Qed.
End Events.

Lemma net_compatible l l' (n n' : TheNet) : net_G l n n' -> l' <> l \/ (1 < permits l)%nat -> net_R l' n n'.
Proof. destruct l, l'; cbn; intros Hg Hl; try done; [destruct Hl; [done|lia]|by destruct Hg]. Qed.
Lemma net_R_refl l : Reflexive (net_R l).
Proof. intros n. destruct l; cbn; [unfold n_quiet|unfold n_grows]; reflexivity. Qed.
Lemma net_R_trans l : Transitive (net_R l).
Proof. intros n1 n2 n3. destruct l; cbn; [unfold n_quiet|unfold n_grows]; apply transitivity. Qed.
Lemma quiet_R l (n n' : TheNet) : n_quiet (n_chain n) (n_chain n') -> net_R l n n'.
Proof. destruct l; cbn; [done|]. by intros [Hq _]. Qed.
Lemma G_grows l (n n' : TheNet) : net_G l n n' -> n_grows (n_chain n) (n_chain n').
Proof. destruct l; cbn; [done|]. by intros [Hq _]. Qed.

(** C9: On the node too nothing goes wrong between the tasks.  Whatever headers and
    blocks the peers send, and in whatever order the steps of their handlers,
    activation and everything else are taken, the index stays a tree of headers; a
    record never changes its header, height or work, and a block that has been stored
    stays stored. *)
Theorem concurrent_header_tree (ok : TaskEnv -> Prop) (n n' : Net (Blockchain B E)) (ts : list (PoolTask TaskEnv (Net (Blockchain B E)) PeerLock)) (o : list Effect) :
  node_inv (bc_store (n_chain n)) -> pool_run message_good ok (n, []) o (n', ts) ->
  header_tree (bc_store (n_chain n')) /\ grows (bc_store (n_chain n)) (bc_store (n_chain n')).
Proof using SO good_ok good_inj.
  intros Hn Hr. cut (net_I n' /\ n_grows (n_chain n) (n_chain n') /\ Forall (task_safe net_R net_G net_I n') ts /\ locks_ok permits ts).
  { intros (H1 & H2 & _). split; [apply H1|exact H2]. }
  remember (n, [] : list (PoolTask TaskEnv TheNet PeerLock)) as p eqn:E1. remember (n', ts) as p' eqn:E2. revert n' ts E1 E2.
  induction Hr as [p|p o [n1 ts1] HO w o' p2 _ IH _ Hs]; intros n' ts -> E2.
  { injection E2 as <- <-. split_and!; [done|reflexivity|constructor|]. intros l. cbn. lia. }
  destruct (IH n1 ts1 eq_refl eq_refl) as (I1 & I2 & I3 & I4). clear IH. subst p2. inversion Hs as [? ? id m t Hg Hm|? ? e ? ? He Hev|? ? ? Hmv]; subst.
  - split_and!; [done|done| |]; [apply Forall_app; split; [done|]; constructor; [by eapply message_safe|done]|].
    destruct m; try discriminate Hm; injection Hm as <-; by apply spawn_locks.
  - pose proof (since_inline (n_chain n1) HO (te_net w) e He n1) as Hk. rewrite Hev in Hk. destruct Hk as [K1 K2]; [split; [done|reflexivity]|]. cbn [fst snd] in K1, K2.
    split_and!; [done|unfold n_grows in *; etransitivity; [exact I2|apply K2]| |done]. eapply Forall_impl; [exact I3|]. intros t Ht.
    apply (task_safe_later net_R net_G net_I net_R_trans n1); [done|]. intros _. by apply quiet_R.
  - destruct (task_move_safe permits net_R net_G net_I net_R_refl net_R_trans net_compatible _ _ _ _ _ _ Hmv I4 I1 I3) as (K1 & K2 & K3).
    split_and!; [done| |done|by eapply task_move_locks]. destruct K2 as [->|[l K2]]; [done|]. unfold n_grows in *. etransitivity; [exact I2|by eapply G_grows].
Qed.

(** ** Copies of a block *)

(** Two tasks of one block may both find it not stored yet.  The write of the second
    replaces the record of the first, with the positions it has been given since. *)
Lemma second_copy_drops_undo (bc bc' : TheNode) b i : header_tree (bc_store bc) -> block_index_ok (mkBlockIndex (header b) (bi_height i) (chain_work i) None None) ->
  file_pos i = None -> accept_block bc b i = (Ok tt, bc') ->
  (forall h, get_block_index (bc_store bc') h = get_block_index (bc_store bc) h) \/
  exists pos, indexed (bc_store bc') (block_hash (header b)) (mkBlockIndex (header b) (bi_height i) (chain_work i) (Some pos) None).
Proof.
  intros Ht Hok Hp. unfold accept_block. rewrite Hp.
  destruct (block_write_index (bc_store bc) (header b) (bi_height i) (chain_work i) (serialize encode_Block b) Ht Hok) as [_ Hx].
  destruct (handle_store_blocks _ _) as [r s1]. intros [= _ <-]. destruct Hx as [Hx|(pos & _ & Hx)]; [by left|right; by exists pos].
Qed.
End Node.

(** ** A concrete run *)

(** The node has the genesis block. *)
Definition listed (h : BlockHeader) : Prop := h ∈ [genesis_header demo_params; demo_h1; demo_h2; demo_h3].
Definition pool_net : Net DemoNode :=
  mkNet (PeerTable_new (AddrMan_new [])) (with_tips demo_parent 0 demo_parent 0 0) demo_bc ∅ (mkDownloadProgress 0 0 0) (mkConnman (AddrMan_new []) ∅ ∅) ∅ no_tasks.
Lemma listed_ok h : listed h -> header_ok h.
Proof. intros [->|Hh]%elem_of_cons; [exact demo_header_ok|]. pose proof demo_headers_ok as Hf. rewrite Forall_forall in Hf. by apply Hf. Qed.
Lemma listed_inj h1 h2 : listed h1 -> listed h2 -> @block_hash toy_digests h1 = @block_hash toy_digests h2 -> h1 = h2.
Proof.
  intros H1 H2. repeat (apply elem_of_cons in H1 as [-> | H1]); try by apply elem_of_nil in H1.
  all: repeat (apply elem_of_cons in H2 as [-> | H2]); try by apply elem_of_nil in H2.
  all: try done; intros He; vm_compute in He; discriminate He.
Qed.
Lemma genesis_indexed hash i : @indexed _ in_memory (cs_store demo_genesis) hash i -> bi_header i = genesis_header demo_params.
Proof.
  destruct (@genesis_inv Database ConsensusEngine in_memory toy_digests demo_params demo_new demo_genesis) as (s1 & s2 & s3 & s4 & E1 & E2 & E3 & E4 & ->).
  - apply (pair_eq (@load_genesis_block _ _ in_memory toy_digests demo_params demo_new)). vm_compute. reflexivity.
  - vm_compute. reflexivity.
  - assert (length (@genesis_hash toy_digests demo_params) = 32%nat) as Hl by reflexivity.
    destruct (put_hash_effects (SO := in_memory_ok) _ _ _ _ _ E4 ltac:(done) Hl) as (_ & _ & G4). destruct (put_hash_effects (SO := in_memory_ok) _ _ _ _ _ E3 ltac:(done) Hl) as (_ & _ & G3).
    destruct (put_hash_effects (SO := in_memory_ok) _ _ _ _ _ E2 ltac:(done) Hl) as (_ & _ & G2).
    destruct (store_block_index_effects (SO := in_memory_ok) _ _ _ _ E1) as (G1 & G0 & _); [exact (root_ok _ demo_header_ok)|exact Hl|].
    unfold indexed. change (cs_store (set_active_tip _ _)) with s4. rewrite G4, G3, G2. destruct (decide (hash = @genesis_hash toy_digests demo_params)) as [->|Hne].
    + rewrite G1. by intros [= <-].
    + rewrite G0 by done. intros Hi. vm_compute in Hi. discriminate Hi.
Qed.
Lemma pool_node_inv : @node_inv _ in_memory toy_digests listed (bc_store (n_chain pool_net)).
Proof.
  split.
  - exact demo_tree.
  - intros hash i Hi. rewrite (genesis_indexed hash i Hi). by left.
  - intros hash i Hi. vm_compute in Hi. discriminate Hi.
Qed.

(** A header arrives, and the task of its block waits beside it. *)
Lemma concurrent_header_tree_witness :
  exists n ts o, @pool_run DemoNode (@blockchain_validation _ _ in_memory toy_digests toy_secp demo_verify) (@blockchain_tasks _ _ in_memory toy_digests toy_secp demo_verify)
      toy_digests (@blockchain_sync _ _ in_memory toy_digests toy_secp demo_verify) demo_hasher (message_good listed) (fun _ => True) (pool_net, []) o (n, ts) /\
    length ts = 2%nat /\ @header_tree _ in_memory toy_digests (bc_store (n_chain n)).
Proof.
  set (ts := [mkPoolTask HeaderProcessing true (@on_headers_prog DemoNode (@blockchain_validation _ _ in_memory toy_digests toy_secp demo_verify)
      (@blockchain_tasks _ _ in_memory toy_digests toy_secp demo_verify) toy_digests (mkSocketAddr (V4 [127; 0; 0; 1]) 1) [demo_h1]);
    spawn BlockProcessing (@on_block_prog DemoNode (@blockchain_tasks _ _ in_memory toy_digests toy_secp demo_verify) toy_digests (mkSocketAddr (V4 [127; 0; 0; 1]) 1) (demo_block demo_parent))]).
  assert (@pool_run DemoNode (@blockchain_validation _ _ in_memory toy_digests toy_secp demo_verify) (@blockchain_tasks _ _ in_memory toy_digests toy_secp demo_verify)
      toy_digests (@blockchain_sync _ _ in_memory toy_digests toy_secp demo_verify) demo_hasher (message_good listed) (fun _ => True) (pool_net, []) ((([] ++ []) ++ []) ++ []) (pool_net, ts)) as R.
  { set (w := mkTaskEnv (mkNetEnv demo_env 0 0 (mkReadings 0 0 0 0) (mkBanClock 0 0 0) (fun _ => 0) (fun _ => 0) (fun _ => 0) (fun _ => true)) (fun _ => end_start 0)).
    eapply (pr_snoc _ _ _ _ _ canonical_order w); [|exact I|apply ps_move, (tm_acquire _ _ _ [] HeaderProcessing); cbn; lia].
    eapply (pr_snoc _ _ _ _ _ canonical_order w); [|exact I|].
    - eapply (pr_snoc _ _ _ _ _ canonical_order w); [constructor|exact I|].
      refine (ps_spawn _ _ _ pool_net [] (mkSocketAddr (V4 [127; 0; 0; 1]) 1) (MHeaders (mkHeaders [demo_h1])) _ _ eq_refl). repeat constructor.
    - refine (ps_spawn _ _ _ pool_net _ (mkSocketAddr (V4 [127; 0; 0; 1]) 1) (MBlock (demo_block demo_parent)) _ _ eq_refl). repeat constructor. }
  exists pool_net, ts, ((([] ++ []) ++ []) ++ []). split; [exact R|]. split; [reflexivity|].
  exact (proj1 (@concurrent_header_tree _ _ in_memory in_memory_ok toy_digests toy_secp demo_verify listed listed_ok listed_inj demo_hasher (fun _ => True) pool_net pool_net ts _ pool_node_inv R)).
Defined.
