(* ===== verification/Digest.v ===== *)
(** * The digests

    The model takes SHA-256, RIPEMD-160 and SHA-1 as a parameter ([Digests]), since the
    code gets them from other crates.  This file has the functions themselves, after
    FIPS 180-4 and the definition of RIPEMD-160, as an instance: it shows that the laws
    of [DigestsOk] can hold, and with it the model computes the hashes that the tests
    of the program name (Vectors).  Words are 32-bit integers. *)

From S2P Require Import Prelude Wire Hash.

(** ** Words *)

Definition word (x : Z) : Z := Z.land x 0xffffffff.
Definition add32 (x y : Z) : Z := word (x + y).
Definition not32 (x : Z) : Z := Z.lxor x 0xffffffff.
Definition rotr (n x : Z) : Z := Z.lor (Z.shiftr x n) (word (Z.shiftl x (32 - n))).
Definition rotl (n x : Z) : Z := rotr (32 - n) x.

(** The 32 bits after the point of the square and cube roots of the first primes. *)
Definition is_prime (n : nat) : bool := (1 <? n)%nat && forallb (fun d => negb (n mod d =? 0)%nat) (seq 2 (n - 2)).
Definition primes : list Z := Eval vm_compute in map Z.of_nat (List.filter is_prime (seq 2 310)).
(** The greatest [r] with [r^3 <= n], bit by bit. *)
Fixpoint cube_root (bits : nat) (r n : Z) : Z :=
  match bits with
  | O => r
  | S k => let r' := r + 2 ^ Z.of_nat k in cube_root k (if r' * r' * r' <=? n then r' else r) n
  end.
Definition sqrt_word (p : Z) : Z := word (Z.sqrt (p * 2 ^ 64)).
Definition cbrt_word (p : Z) : Z := word (cube_root 40 0 (p * 2 ^ 96)).

(** Big-endian and little-endian words of a block, and back. *)
Fixpoint words (le : bool) (l : bytes) : list Z :=
  match l with
  | a :: b :: c :: d :: l => of_le (if le then [a; b; c; d] else [d; c; b; a]) :: words le l
  | _ => []
  end.
Definition word_bytes (le : bool) (w : Z) : bytes := if le then le_bytes 4 w else reverse (le_bytes 4 w).

(** The message, a one bit, zeros, and its length in bits: blocks of 64 bytes. *)
Definition padded (le : bool) (m : bytes) : bytes :=
  let n := Z.of_nat (length m) in
  let len := le_bytes 8 (8 * n) in
  m ++ [0x80] ++ replicate (Z.to_nat ((55 - n) mod 64)) 0 ++ (if le then len else reverse len).
Fixpoint blocks (fuel : nat) (l : bytes) : list bytes :=
  match fuel, l with S fuel, _ :: _ => take 64 l :: blocks fuel (drop 64 l) | _, _ => [] end.
Definition message_blocks (le : bool) (m : bytes) : list (list Z) := let p := padded le m in map (words le) (blocks (length p) p).

(** ** SHA-256 *)

Definition K256 : list Z := Eval vm_compute in map cbrt_word (take 64 primes).
Record H256 : Type := mkH256 { ha : Z; hb : Z; hc : Z; hd : Z; he : Z; hf : Z; hg : Z; hh : Z }.
Definition H256_list (x : H256) : list Z := [ha x; hb x; hc x; hd x; he x; hf x; hg x; hh x].
Definition H256_of (f : nat -> Z) : H256 := mkH256 (f 0%nat) (f 1%nat) (f 2%nat) (f 3%nat) (f 4%nat) (f 5%nat) (f 6%nat) (f 7%nat).
Definition H256_add (x y : H256) : H256 := H256_of (fun i => add32 (nth i (H256_list x) 0) (nth i (H256_list y) 0)).
Definition H256_init : H256 := Eval vm_compute in H256_of (fun i => sqrt_word (nth i primes 0)).

Definition Ch (x y z : Z) : Z := Z.lxor (Z.land x y) (Z.land (not32 x) z).
Definition Maj (x y z : Z) : Z := Z.lxor (Z.lxor (Z.land x y) (Z.land x z)) (Z.land y z).
Definition rot3 (a b c x : Z) : Z := Z.lxor (Z.lxor (rotr a x) (rotr b x)) (rotr c x).
Definition rot2 (a b c x : Z) : Z := Z.lxor (Z.lxor (rotr a x) (rotr b x)) (Z.shiftr x c).

(** The schedule, newest word first. *)
Fixpoint schedule256 (n : nat) (w : list Z) : list Z :=
  match n with
  | O => w
  | S n => schedule256 n (add32 (add32 (rot2 17 19 10 (nth 1 w 0)) (nth 6 w 0)) (add32 (rot2 7 18 3 (nth 14 w 0)) (nth 15 w 0)) :: w)
  end.
Definition round256 (s : H256) (kw : Z * Z) : H256 :=
  let t1 := add32 (add32 (add32 (hh s) (rot3 6 11 25 (he s))) (Ch (he s) (hf s) (hg s))) (add32 kw.1 kw.2) in
  let t2 := add32 (rot3 2 13 22 (ha s)) (Maj (ha s) (hb s) (hc s)) in
  mkH256 (add32 t1 t2) (ha s) (hb s) (hc s) (add32 (hd s) t1) (he s) (hf s) (hg s).
Definition compress256 (s : H256) (block : list Z) : H256 :=
  H256_add s (fold_left round256 (zip K256 (reverse (schedule256 48 (reverse block)))) s).
Definition sha256_real (m : bytes) : bytes :=
  concat (map (word_bytes false) (H256_list (fold_left compress256 (message_blocks false m) H256_init))).

(** ** SHA-1 and RIPEMD-160 *)

Record H160 : Type := mkH160 { h0 : Z; h1 : Z; h2 : Z; h3 : Z; h4 : Z }.
Definition H160_list (x : H160) : list Z := [h0 x; h1 x; h2 x; h3 x; h4 x].
Definition H160_init : H160 := mkH160 0x67452301 0xefcdab89 0x98badcfe 0x10325476 0xc3d2e1f0.

Fixpoint schedule160 (n : nat) (w : list Z) : list Z :=
  match n with
  | O => w
  | S n => schedule160 n (rotl 1 (Z.lxor (Z.lxor (nth 2 w 0) (nth 7 w 0)) (Z.lxor (nth 13 w 0) (nth 15 w 0))) :: w)
  end.
(** The function and the constant of the round [t]. *)
Definition sha1_f (t : nat) (x y z : Z) : Z :=
  if (t <? 20)%nat then Ch x y z else if (t <? 40)%nat then Z.lxor (Z.lxor x y) z else if (t <? 60)%nat then Maj x y z else Z.lxor (Z.lxor x y) z.
(** 2^30 times the square roots of 2, 3, 5 and 10. *)
Definition root_word (n : Z) : Z := Z.sqrt (n * 2 ^ 60).
Definition sha1_k (t : nat) : Z := root_word (if (t <? 20)%nat then 2 else if (t <? 40)%nat then 3 else if (t <? 60)%nat then 5 else 10).
Definition sha1_round (s : H160) (tw : nat * Z) : H160 :=
  let t := add32 (add32 (rotl 5 (h0 s)) (sha1_f tw.1 (h1 s) (h2 s) (h3 s))) (add32 (add32 (h4 s) (sha1_k tw.1)) tw.2) in
  mkH160 t (h0 s) (rotl 30 (h1 s)) (h2 s) (h3 s).
Definition sha1_compress (s : H160) (block : list Z) : H160 :=
  let r := fold_left sha1_round (zip (seq 0 80) (reverse (schedule160 64 (reverse block)))) s in
  mkH160 (add32 (h0 s) (h0 r)) (add32 (h1 s) (h1 r)) (add32 (h2 s) (h2 r)) (add32 (h3 s) (h3 r)) (add32 (h4 s) (h4 r)).
Definition sha1_real (m : bytes) : bytes := concat (map (word_bytes false) (H160_list (fold_left sha1_compress (message_blocks false m) H160_init))).

(** The order of the words: the permutations rho and pi of the definition. *)
Definition rho : list nat := [7; 4; 13; 1; 10; 6; 15; 3; 12; 0; 9; 5; 2; 14; 11; 8]%nat.
Definition rho_pow (k : nat) (l : list nat) : list nat := Nat.iter k (map (fun i => nth i rho 0%nat)) l.
Definition rmd_order (start : list nat) : list nat := concat (map (fun k => rho_pow k start) (seq 0 5)).
Definition rmd_left : list nat := Eval vm_compute in rmd_order (seq 0 16).
Definition rmd_right : list nat := Eval vm_compute in rmd_order (map (fun i => (9 * i + 5) mod 16)%nat (seq 0 16)).
(** How far the word [i] is rotated in each of the five rounds. *)
Definition rmd_shifts : list (list Z) :=
  [[11; 14; 15; 12; 5; 8; 7; 9; 11; 13; 14; 15; 6; 7; 9; 8]; [12; 13; 11; 15; 6; 9; 9; 7; 12; 15; 11; 13; 7; 8; 7; 7];
   [13; 15; 14; 11; 7; 7; 6; 8; 13; 14; 13; 12; 5; 5; 6; 9]; [14; 11; 12; 14; 8; 6; 5; 5; 15; 12; 15; 14; 9; 9; 8; 6];
   [15; 12; 13; 13; 9; 5; 8; 6; 14; 11; 12; 11; 8; 6; 5; 5]].
Definition rmd_f (k : nat) (x y z : Z) : Z :=
  match k with
  | 0%nat => Z.lxor (Z.lxor x y) z
  | 1%nat => Z.lor (Z.land x y) (Z.land (not32 x) z)
  | 2%nat => Z.lxor (Z.lor x (not32 y)) z
  | 3%nat => Z.lor (Z.land x z) (Z.land y (not32 z))
  | _ => Z.lxor x (Z.lor y (not32 z))
  end.
(** 2^30 times the square and cube roots of 2, 3, 5 and 7. *)
Definition rmd_k (right : bool) (k : nat) : Z :=
  if right then nth k (map (fun p => cube_root 40 0 (p * 2 ^ 90)) [2; 3; 5; 7] ++ [0]) 0 else nth k (0 :: map root_word [2; 3; 5; 7]) 0.
Definition rmd_step (right : bool) (block : list Z) (s : H160) (ji : nat * nat) : H160 :=
  let '(j, i) := ji in
  let k := (j / 16)%nat in
  let t := add32 (add32 (h0 s) (rmd_f (if right then 4 - k else k)%nat (h1 s) (h2 s) (h3 s))) (add32 (nth i block 0) (rmd_k right k)) in
  mkH160 (h4 s) (add32 (rotl (nth i (nth k rmd_shifts []) 0) t) (h4 s)) (h1 s) (rotl 10 (h2 s)) (h3 s).
Definition rmd_compress (s : H160) (block : list Z) : H160 :=
  let l := fold_left (rmd_step false block) (zip (seq 0 80) rmd_left) s in
  let r := fold_left (rmd_step true block) (zip (seq 0 80) rmd_right) s in
  mkH160 (add32 (add32 (h1 s) (h2 l)) (h3 r)) (add32 (add32 (h2 s) (h3 l)) (h4 r)) (add32 (add32 (h3 s) (h4 l)) (h0 r))
    (add32 (add32 (h4 s) (h0 l)) (h1 r)) (add32 (add32 (h0 s) (h1 l)) (h2 r)).
Definition ripemd160_real (m : bytes) : bytes := concat (map (word_bytes true) (H160_list (fold_left rmd_compress (message_blocks true m) H160_init))).

Definition real_digests : Digests := {| sha256 := sha256_real; ripemd160 := ripemd160_real; sha1 := sha1_real |}.

Lemma word_bytes_array le ws : array_ok (4 * length ws) (concat (map (word_bytes le) ws)).
Proof.
  induction ws as [|w ws [Hl Hb]]; [by split; [|constructor]|]. cbn [map concat length].
  assert (array_ok 4 (word_bytes le w)) as [Hl4 Hb4].
  { unfold word_bytes. destruct le; split; rewrite ?length_reverse; [apply length_le_bytes|apply le_bytes_ok|apply length_le_bytes|]. apply Forall_reverse, le_bytes_ok. }
  split; [rewrite length_app, Hl, Hl4; lia|]. by apply Forall_app.
Qed.
#[export] Instance real_digests_ok : DigestsOk real_digests.
Proof. split; intros m; [exact (word_bytes_array false (H256_list _))|exact (word_bytes_array true (H160_list _))|exact (word_bytes_array false (H160_list _))]. Qed.

(** The empty string and [abc]. *)
Definition abc : bytes := [97; 98; 99].
Example sha256_abc : of_le (reverse (sha256_real abc)) = 0xba7816bf8f01cfea414140de5dae2223b00361a396177a9cb410ff61f20015ad.
Proof. vm_compute. reflexivity. Qed.
Example sha1_abc : of_le (reverse (sha1_real abc)) = 0xa9993e364706816aba3e25717850c26c9cd0d89d.
Proof. vm_compute. reflexivity. Qed.
Example ripemd160_abc : of_le (reverse (ripemd160_real abc)) = 0x8eb208f7e05d987a9b044a8e98c6b087f15a0bfc.
Proof. vm_compute. reflexivity. Qed.
