(* ===== verification/Vectors.v ===== *)
(** * The program's own test vectors

    The unit tests that stand beside the code (the [mod tests] of
    common/types/genesis.rs, block.rs, magic.rs and of script/num.rs, opcode.rs,
    flags.rs, script_ops.rs, sig.rs, sighash.rs and taproot.rs), each as the boolean its
    assertions compute on the model, with the digests of Digest in the place of the
    hash crates.  Running them ties the model to the expectations the authors wrote
    down: [vectors_hold].  The genesis blocks are the real ones: [genesis_proof_of_work]. *)

From Stdlib Require Import Ascii.
From S2P Require Import Prelude Wire Hash Transaction Block Params ScriptNum ScriptOps Sig Sighash Taproot Interpreter Validation Digest Rpc RpcProofs Text.

#[local] Open Scope string_scope.
#[local] Open Scope list_scope.
#[local] Open Scope Z_scope.

(** [assert_eq!], [assert_ne!] and a test: all its assertions. *)
Definition assert_eq {A} `{EqDecision A} (x y : A) : bool := bool_decide (x = y).
Definition assert_ne {A} `{EqDecision A} (x y : A) : bool := negb (assert_eq x y).
Definition asserts (l : list bool) : bool := forallb id l.
(** What a test unwraps must be there. *)
Definition unwrap {A} (x : option A) (k : A -> bool) : bool := match x with Some a => k a | None => false end.
Definition unwrap_ok {A E} (x : result A E) (k : A -> bool) : bool := match x with Ok a => k a | Err _ => false end.

(** ** Constants the program names and does not use (constants.rs) *)

Definition HALVING_INTERVAL : Z := 210000.
Definition MAX_BLOCK_BASE_SIZE : Z := 1000000.
Definition MIN_TRANSACTION_WEIGHT : Z := 60.
Definition MAX_STANDARD_TX_WEIGHT : Z := 400000.
Definition MAX_FUTURE_BLOCK_TIME : Z := 7200.
Definition MEDIAN_TIME_SPAN : nat := 11.
Definition TARGET_BLOCK_TIME : Z := 600.
Definition DIFFICULTY_ADJUSTMENT_INTERVAL : Z := 2016.
Definition TARGET_TIMESPAN : Z := wrap_u 32 (DIFFICULTY_ADJUSTMENT_INTERVAL * TARGET_BLOCK_TIME).

(** Their tests (test/tests/types/common_types_constants.rs). *)
Definition max_money_equals_21m_btc : bool := asserts [assert_eq MAX_MONEY (21000000 * COIN); assert_eq MAX_MONEY 2100000000000000].
Definition target_timespan_is_two_weeks_in_seconds : bool := asserts [assert_eq TARGET_TIMESPAN (2016 * 600); assert_eq TARGET_TIMESPAN 1209600].
Definition coinbase_script_bounds_are_sane : bool := asserts
  [(MIN_COINBASE_SCRIPT_SIZE <? MAX_COINBASE_SCRIPT_SIZE)%nat; assert_eq MIN_COINBASE_SCRIPT_SIZE 2%nat; assert_eq MAX_COINBASE_SCRIPT_SIZE 100%nat].
(** 34 times: add the reward of an epoch, halve it. *)
Fixpoint emission (n : nat) (sum reward : Z) : Z :=
  match n with
  | O => sum
  | S n => emission n (saturating_add_u U64_MAX sum (Z.min U64_MAX (reward * HALVING_INTERVAL))) (reward / 2)
  end.
Definition halving_schedule_fits_in_u64 : bool :=
  let sum := emission 34 0 INITIAL_BLOCK_REWARD in asserts [sum <=? MAX_MONEY; 0 <? sum].

Section Vectors.
#[local] Existing Instance real_digests.
#[local] Existing Instance hex_reference.
#[local] Existing Instance demo_text.

(** ** Genesis blocks (genesis.rs) *)

Definition genesis_shows (g : option Genesis) (expected_hash expected_merkle : string) : bool :=
  unwrap g (fun g => let block := build g in
    asserts [assert_eq (Hash256_text (block_hash (header block))) expected_hash;
             assert_eq (Hash256_text (merkle_root_field (header block))) expected_merkle]).
Definition GENESIS_MERKLE : string := "4a5e1e4baab89f3a32518a88c31bc87f618f76673e2cc77ab2127b7afdeda33b".
Definition test_mainnet_genesis_hash : bool :=
  genesis_shows Genesis_mainnet "000000000019d6689c085ae165831e934ff763ae46a2a6c172b3f1b60a8ce26f" GENESIS_MERKLE.
Definition test_signet_genesis_hash : bool :=
  genesis_shows Genesis_signet "00000008819873e925422c1ff0f99f7cc9bbb232af63a077a480a3633bee1ef6" GENESIS_MERKLE.
Definition test_testnet3_genesis_hash : bool :=
  genesis_shows Genesis_testnet3 "000000000933ea01ad0ee984209779baaec3ced90fa3f408719526f8d77f4943" GENESIS_MERKLE.
Definition test_regtest_genesis_hash : bool :=
  unwrap Genesis_regtest (fun g =>
    assert_eq (Hash256_text (block_hash (header (build g)))) "0f9188f13cb7b2c71f2a335e3a4fc328bf5beb436012afca590b1a11466e2206").
Definition test_genesis_fields : bool :=
  unwrap Genesis_mainnet (fun mainnet => unwrap Genesis_signet (fun signet => unwrap Genesis_regtest (fun regtest => asserts
   [assert_eq (g_version mainnet) 1; assert_eq (timestamp mainnet) 1231006505; assert_eq (g_bits mainnet) 0x1d00ffff;
    assert_eq (g_nonce mainnet) 2083236893; assert_eq (reward mainnet) 5000000000;
    assert_eq (Params.message mainnet) "The Times 03/Jan/2009 Chancellor on brink of second bailout for banks";
    assert_eq (g_version signet) 1; assert_eq (timestamp signet) 1598918400; assert_eq (g_bits signet) 0x1e0377ae;
    assert_eq (g_nonce signet) 52613770; assert_eq (reward signet) 5000000000;
    assert_eq (Params.message signet) "The Times 03/Jan/2009 Chancellor on brink of second bailout for banks";
    assert_eq (g_version regtest) 1; assert_eq (timestamp regtest) 1296688602; assert_eq (g_bits regtest) 0x207fffff;
    assert_eq (g_nonce regtest) 2]))).

(** ** The magic of a signet (magic.rs) *)

Definition test_signet_magic : bool :=
  unwrap (hex_decode "512103ad5e0edad18cb1f0fc0d28a3d4f1f3e445640337489abb10404f2d1e086be430210359ef5021964fe22d6f8e05b2463c9540ce96883fe3b278760f048f5189f2e6c452ae")
    (fun challenge => assert_eq (magic_bytes (from_signet_challenge challenge)) [0x0A; 0x03; 0xCF; 0x40]).

(** ** Block locators (block.rs) *)

Definition hash_for (height : Z) : BlockHash := le_bytes 4 height ++ replicate 28 0.
Definition heights_of (locator : list BlockHash) : list Z := map (fun h => of_le (take 4 h)) locator.
Fixpoint strictly_descending (l : list Z) : bool :=
  match l with x :: ((y :: _) as l) => (y <? x) && strictly_descending l | _ => true end.
Definition genesis_only_chain_yields_single_entry : bool :=
  assert_eq (heights_of (build_block_locator 0 (fun h => Some (hash_for h)))) [0].
Definition short_chain_is_dense_and_ends_at_genesis : bool :=
  assert_eq (heights_of (build_block_locator 5 (fun h => Some (hash_for h)))) [5; 4; 3; 2; 1; 0].
Definition long_chain_steps_back_exponentially_and_ends_at_genesis : bool :=
  let heights := heights_of (build_block_locator 100000 (fun h => Some (hash_for h))) in
  asserts [assert_eq (take 11 heights) [100000; 99999; 99998; 99997; 99996; 99995; 99994; 99993; 99992; 99991; 99990];
    assert_eq (heights !! 11%nat) (Some 99989); assert_eq (heights !! 12%nat) (Some 99987);
    assert_eq (heights !! 13%nat) (Some 99983); assert_eq (heights !! 14%nat) (Some 99975);
    assert_eq (last heights) (Some 0); strictly_descending heights; (length heights <? 40)%nat].
Definition unresolvable_heights_are_skipped_without_breaking_the_walk : bool :=
  let heights := heights_of (build_block_locator 100 (fun h => if h =? 90 then None else Some (hash_for h))) in
  asserts [negb (bool_decide (90 ∈ heights)); assert_eq (head heights) (Some 100); assert_eq (last heights) (Some 0)].

(** ** Script numbers (num.rs) *)

Definition num_roundtrip (value : Z) : bool :=
  unwrap_ok (ScriptNum_decode (ScriptNum_encode value) true 8) (fun decoded => assert_eq decoded value).
Definition roundtrips_representative_values : bool :=
  forallb num_roundtrip [0; 1; -1; 2; -2; 127; -127; 128; -128; 129; -129; 255; -255; 256; -256; 32767; -32767;
    65535; -65535; 16777215; -16777215; 2147483647; -2147483647].
Definition zero_encodes_as_the_empty_element : bool := assert_eq (ScriptNum_encode 0) [].
Definition encoding_matches_known_bitcoin_vectors : bool := asserts
  [assert_eq (ScriptNum_encode 1) [0x01]; assert_eq (ScriptNum_encode (-1)) [0x81]; assert_eq (ScriptNum_encode 127) [0x7f];
   assert_eq (ScriptNum_encode 128) [0x80; 0x00]; assert_eq (ScriptNum_encode (-128)) [0x80; 0x80];
   assert_eq (ScriptNum_encode 256) [0x00; 0x01]].
Definition non_minimal_encodings_are_rejected_only_when_required : bool := asserts
  [assert_eq (ScriptNum_decode [0x01; 0x00] true 4) (Err MinimalData);
   unwrap_ok (ScriptNum_decode [0x01; 0x00] false 4) (fun n => assert_eq n 1)].
Definition sign_carrying_padding_is_minimal : bool := asserts
  [is_minimally_encoded [0x80; 0x00]; negb (is_minimally_encoded [0x01; 0x00]); is_minimally_encoded []].
Definition oversized_numbers_are_rejected : bool :=
  let five_bytes := [0x01; 0x02; 0x03; 0x04; 0x05] in
  asserts [negb (is_ok (ScriptNum_decode five_bytes false DEFAULT_MAX_NUM_SIZE)); is_ok (ScriptNum_decode five_bytes false 5)].
Definition cast_to_bool_treats_negative_zero_as_false : bool := asserts
  [negb (cast_to_bool []); negb (cast_to_bool [0x00]); negb (cast_to_bool [0x00; 0x00]); negb (cast_to_bool [0x80]);
   negb (cast_to_bool [0x00; 0x80]); cast_to_bool [0x01]; cast_to_bool [0x00; 0x01]; cast_to_bool [0x81]].

(** ** Opcodes and flags (opcode.rs, flags.rs) *)

(** [to_u8] is the byte itself: the newtype's field. *)
Definition every_byte_converts_without_undefined_behaviour : bool :=
  forallb (fun byte => negb (bool_decide (opcode_name (Z.of_nat byte) = ""))) (seq 0 256).
Definition op_n_decoding_matches_core : bool := asserts
  [assert_eq (decode_op_n OP_0) (Some 0); assert_eq (decode_op_n OP_1NEGATE) (Some (-1)); assert_eq (decode_op_n OP_1) (Some 1);
   assert_eq (decode_op_n OP_16) (Some 16); assert_eq (decode_op_n OP_DUP) None].
Definition push_boundary_is_op_16 : bool := asserts
  [is_push OP_16; negb (is_push OP_NOP); negb (counts_towards_op_limit OP_16); counts_towards_op_limit OP_NOP].
Definition the_2010_disabled_opcodes_are_flagged : bool := asserts
  [forallb is_disabled [OP_CAT; OP_SUBSTR; OP_LEFT; OP_RIGHT; OP_INVERT; OP_AND; OP_OR; OP_XOR; OP_2MUL; OP_2DIV; OP_MUL; OP_DIV;
     OP_MOD; OP_LSHIFT; OP_RSHIFT];
   negb (is_disabled OP_SIZE); negb (is_disabled OP_EQUAL)].
Definition bit_positions_match_bitcoin_core : bool := asserts
  [assert_eq FLAG_P2SH 1; assert_eq FLAG_DERSIG 4; assert_eq FLAG_NULLDUMMY 16; assert_eq FLAG_CHECKLOCKTIMEVERIFY 512;
   assert_eq FLAG_CHECKSEQUENCEVERIFY 1024; assert_eq FLAG_WITNESS 2048; assert_eq FLAG_TAPROOT (Z.shiftl 1 17)].
Definition contains_is_a_subset_test : bool :=
  let flags := flags_union FLAG_P2SH FLAG_WITNESS in
  asserts [flag flags FLAG_P2SH; flag flags FLAG_WITNESS; negb (flag flags FLAG_LOW_S); flag flags (flags_union FLAG_P2SH FLAG_WITNESS)].

(** ** Script structure (script_ops.rs) *)

Definition ops (script : bytes) : option (list Z) :=
  mapM (fun i => match i with Ok i => Some (opcode i) | Err _ => None end) (instructions script).
Definition parses_direct_pushes_and_opcodes : bool :=
  let script := [0x02; 0x01; 0x02; OP_DUP; OP_HASH160] in
  asserts [unwrap (ops script) (fun l => assert_eq l [0x02; OP_DUP; OP_HASH160]);
    unwrap (head (instructions script)) (fun i => unwrap_ok i (fun first =>
      asserts [assert_eq (data first) [0x01; 0x02]; assert_eq (next first) 3%nat]))].
Definition parses_all_three_pushdata_widths : bool :=
  let script := push_data (push_data [] (replicate 80 0xaa)) (replicate 300 0xbb) in
  unwrap (mapM res_ok (instructions script)) (fun parsed =>
    match parsed with
    | [a; b] => asserts [assert_eq (opcode a) OP_PUSHDATA1; assert_eq (length (data a)) 80%nat;
                         assert_eq (opcode b) OP_PUSHDATA2; assert_eq (length (data b)) 300%nat]
    | _ => false
    end).
(** The items of [Instructions] on a script that ends in the middle of a push. *)
Definition only_bad_opcode (script : bytes) : bool :=
  match instructions script with [Err e] => assert_eq e BadOpcode | _ => false end.
Definition truncated_push_is_an_error_not_a_panic : bool := asserts [only_bad_opcode [0x05; 0x01; 0x02]; only_bad_opcode [OP_PUSHDATA2; 0x01]].
Definition push_only_rejects_non_pushes_and_malformed_scripts : bool := asserts
  [is_push_only [0x02; 0x01; 0x02; OP_1]; is_push_only []; negb (is_push_only [OP_DUP]); negb (is_push_only [0x05; 0x01])].
Definition recognises_p2sh_by_exact_pattern : bool :=
  let script := [OP_HASH160; 0x14] ++ replicate 20 0x11 ++ [OP_EQUAL] in
  asserts [is_pay_to_script_hash script; negb (is_pay_to_script_hash (script ++ [OP_NOP]))].
Definition parses_witness_programs : bool :=
  let p2wpkh := [OP_0; 0x14] ++ replicate 20 0x22 in
  let p2tr := [OP_1; 0x20] ++ replicate 32 0x33 in
  asserts
   [unwrap (parse_witness_program p2wpkh) (fun p => asserts [assert_eq (wp_version p) 0; assert_eq (length (program p)) 20%nat]);
    unwrap (parse_witness_program p2tr) (fun p => asserts [assert_eq (wp_version p) 1; assert_eq (length (program p)) 32%nat]);
    negb (unwrap (parse_witness_program (p2wpkh ++ [OP_NOP])) (fun _ => true));
    negb (unwrap (parse_witness_program [OP_0; 0x01; 0xff]) (fun _ => true))].
Definition find_and_delete_removes_whole_pushes_only : bool :=
  let sig_push := push_data [] [0xde; 0xad] in
  let script := push_data (push_data [] [0xde; 0xad] ++ [OP_DUP]) [0xde; 0xad] in
  let '(cleaned, count) := find_and_delete script sig_push in
  asserts [assert_eq count 2%nat; assert_eq cleaned [OP_DUP]].
Definition find_and_delete_leaves_unrelated_scripts_alone : bool :=
  let sig_push := push_data [] [0xde; 0xad] in
  let script := [OP_DUP; OP_HASH160] in
  let '(cleaned, count) := find_and_delete script sig_push in
  asserts [assert_eq count 0%nat; assert_eq cleaned script].
Definition minimal_push_rules_match_core : bool := asserts
  [check_minimal_push [] OP_0; negb (check_minimal_push [] 0x01);
   check_minimal_push [5] (OP_1 + 4); negb (check_minimal_push [5] 0x01);
   check_minimal_push [0x81] OP_1NEGATE; negb (check_minimal_push [0x81] 0x01);
   check_minimal_push [0x00] 0x01;
   check_minimal_push (replicate 80 0xaa) OP_PUSHDATA1; negb (check_minimal_push (replicate 80 0xaa) OP_PUSHDATA2)].
Definition detects_codeseparator_at_instruction_boundaries : bool := asserts
  [contains_codeseparator [OP_DUP; OP_CODESEPARATOR]; negb (contains_codeseparator (push_data [] [OP_CODESEPARATOR]))].

(** ** Signature and key encodings (sig.rs) *)

(** A signature with the integers [r] and [s] of 32 bytes and SIGHASH_ALL. *)
Definition sig_bytes (r s : bytes) : bytes := [0x30; 0x44; 0x02; 0x20] ++ r ++ [0x02; 0x20] ++ s ++ [SIGHASH_ALL].
Definition valid_sig : bytes := sig_bytes (replicate 32 0x11) (replicate 32 0x22).
Definition with_hashtype (sig : bytes) (h : Z) : bytes := take (length sig - 1) sig ++ [h].
Definition accepts_a_well_formed_signature : bool :=
  asserts [is_valid_signature_encoding valid_sig; is_low_der_signature valid_sig; is_defined_hashtype valid_sig].
Definition rejects_structural_der_violations : bool := asserts
  [negb (is_valid_signature_encoding (<[0%nat := 0x31]> valid_sig)); negb (is_valid_signature_encoding (<[1%nat := 0x43]> valid_sig));
   negb (is_valid_signature_encoding (<[2%nat := 0x03]> valid_sig)); negb (is_valid_signature_encoding (take 8 valid_sig));
   negb (is_valid_signature_encoding (replicate 74 0x30)); negb (is_valid_signature_encoding [])].
Definition rejects_negative_and_non_minimal_integers : bool := asserts
  [negb (is_valid_signature_encoding (<[4%nat := 0x80]> valid_sig));
   negb (is_valid_signature_encoding (sig_bytes ([0x00; 0x01] ++ replicate 30 0x11) (replicate 32 0x22)))].
Definition detects_high_s_values : bool :=
  let at_limit := sig_bytes (replicate 32 0x11) HALF_CURVE_ORDER in
  let above := alter (Z.add 1) (4 + 32 + 2 + 31)%nat at_limit in
  asserts [is_low_der_signature at_limit; negb (is_low_der_signature above)].
Definition hashtype_must_be_one_bitcoin_defines : bool := asserts
  [forallb (fun h => is_defined_hashtype (with_hashtype valid_sig h))
     [SIGHASH_ALL; SIGHASH_NONE; SIGHASH_SINGLE; Z.lor SIGHASH_ALL SIGHASH_ANYONECANPAY; Z.lor SIGHASH_NONE SIGHASH_ANYONECANPAY;
      Z.lor SIGHASH_SINGLE SIGHASH_ANYONECANPAY];
   forallb (fun h => negb (is_defined_hashtype (with_hashtype valid_sig h))) [0x00; 0x04; 0x05; 0x84]].
Definition pubkey_encodings : bool :=
  let compressed := 0x02 :: replicate 32 0x11 in
  let uncompressed := 0x04 :: replicate 64 0x11 in
  asserts [is_compressed_or_uncompressed_pubkey compressed; is_compressed_pubkey compressed;
    is_compressed_or_uncompressed_pubkey uncompressed; negb (is_compressed_pubkey uncompressed);
    negb (is_compressed_or_uncompressed_pubkey (0x05 :: replicate 32 0x11));
    negb (is_compressed_or_uncompressed_pubkey (replicate 10 0x02))].
Definition empty_signature_bypasses_encoding_checks : bool :=
  assert_eq (check_signature_encoding [] (flags_union (flags_union FLAG_DERSIG FLAG_LOW_S) FLAG_STRICTENC)) (Ok tt).
Definition encoding_checks_are_flag_gated : bool :=
  let high_s := sig_bytes (replicate 32 0x11) (0x7f :: replicate 31 0xff) in
  asserts [is_valid_signature_encoding high_s; assert_eq (check_signature_encoding high_s 0) (Ok tt);
    assert_eq (check_signature_encoding high_s FLAG_LOW_S) (Err SigHighS)].

(** ** Signature hashes (sighash.rs) *)

Definition tx_with (ins outs : nat) : Transaction :=
  mkTransaction 2
    (map (fun i => mkTxIn (mkOutPoint (replicate 32 (wrap_u 8 (Z.of_nat i))) (wrap_u 32 (Z.of_nat i))) [0x51] 0xfffffffe []) (seq 0 ins))
    (map (fun i => mkTxOut (1000 * (Z.of_nat i + 1)) [0x6a; wrap_u 8 (Z.of_nat i)]) (seq 0 outs)) 0.
(** [tx.outputs[1].value = 999_999] and [tx.inputs[1].previous_output.vout = 77] *)
Definition with_output_value (tx : Transaction) (i : nat) (v : Z) : Transaction :=
  mkTransaction (version tx) (inputs tx) (alter (fun o => mkTxOut v (script_pubkey o)) i (outputs tx)) (lock_time tx).
Definition with_input_vout (tx : Transaction) (i : nat) (v : Z) : Transaction :=
  mkTransaction (version tx)
    (alter (fun x => mkTxIn (mkOutPoint (op_txid (previous_output x)) v) (script_sig x) (sequence x) (witness x)) i (inputs tx))
    (outputs tx) (lock_time tx).
Definition out_of_range_input_returns_the_sighash_single_bug_value : bool :=
  assert_eq (legacy_signature_hash (tx_with 1 1) 5 [0x51] SIGHASH_ALL) SIGHASH_SINGLE_BUG.
Definition sighash_single_without_a_matching_output_hits_the_bug : bool := let tx := tx_with 2 1 in asserts
  [assert_eq (legacy_signature_hash tx 1 [0x51] SIGHASH_SINGLE) SIGHASH_SINGLE_BUG;
   assert_ne (legacy_signature_hash tx 0 [0x51] SIGHASH_SINGLE) SIGHASH_SINGLE_BUG].
Definition hash_type_changes_the_digest : bool :=
  let tx := tx_with 2 2 in
  bool_decide (NoDup [legacy_signature_hash tx 0 [0x51] SIGHASH_ALL; legacy_signature_hash tx 0 [0x51] SIGHASH_NONE;
    legacy_signature_hash tx 0 [0x51] SIGHASH_SINGLE; legacy_signature_hash tx 0 [0x51] (Z.lor SIGHASH_ALL SIGHASH_ANYONECANPAY)]).
Definition script_code_is_committed_to : bool := let tx := tx_with 1 1 in
  assert_ne (legacy_signature_hash tx 0 [0x51] SIGHASH_ALL) (legacy_signature_hash tx 0 [0x52] SIGHASH_ALL).
Definition sighash_none_ignores_output_changes : bool := let tx := tx_with 2 2 in
  assert_eq (legacy_signature_hash tx 0 [0x51] SIGHASH_NONE) (legacy_signature_hash (with_output_value tx 1 999999) 0 [0x51] SIGHASH_NONE).
Definition sighash_all_does_commit_to_output_changes : bool := let tx := tx_with 2 2 in
  assert_ne (legacy_signature_hash tx 0 [0x51] SIGHASH_ALL) (legacy_signature_hash (with_output_value tx 1 999999) 0 [0x51] SIGHASH_ALL).
Definition anyonecanpay_ignores_other_inputs : bool := let tx := tx_with 2 2 in
  let hash_type := Z.lor SIGHASH_ALL SIGHASH_ANYONECANPAY in
  assert_eq (legacy_signature_hash tx 0 [0x51] hash_type) (legacy_signature_hash (with_input_vout tx 1 77) 0 [0x51] hash_type).
Definition bip143_commits_to_the_spent_amount : bool :=
  let tx := tx_with 1 1 in let cache := Bip143Cache_new tx in
  assert_ne (witness_v0_signature_hash tx 0 [0x51] 50000 SIGHASH_ALL cache) (witness_v0_signature_hash tx 0 [0x51] 50001 SIGHASH_ALL cache).
Definition bip143_differs_from_legacy_for_the_same_inputs : bool :=
  let tx := tx_with 1 1 in let cache := Bip143Cache_new tx in
  assert_ne (legacy_signature_hash tx 0 [0x51] SIGHASH_ALL) (witness_v0_signature_hash tx 0 [0x51] 1000 SIGHASH_ALL cache).
Definition bip143_single_out_of_range_uses_zero_not_the_legacy_bug : bool :=
  let tx := tx_with 2 1 in let cache := Bip143Cache_new tx in
  assert_ne (witness_v0_signature_hash tx 1 [0x51] 1000 SIGHASH_SINGLE cache) SIGHASH_SINGLE_BUG.

(** ** Taproot (taproot.rs) *)

Definition tagged_hash_matches_the_bip340_definition : bool :=
  let tag_hash := sha256 (string_bytes "TapLeaf") in
  assert_eq (tagged_hash "TapLeaf" (string_bytes "payload")) (sha256 (tag_hash ++ tag_hash ++ string_bytes "payload")).
Definition different_tags_give_different_digests : bool := let x := string_bytes "x" in asserts
  [assert_ne (tagged_hash "TapLeaf" x) (tagged_hash "TapBranch" x); assert_ne (tagged_hash "TapTweak" x) (tagged_hash "TapLeaf" x)].
Definition control_block_sizes_are_validated : bool :=
  let parsed n := parse_control_block (replicate n 0xc0) in
  let is_none (x : option ControlBlock) := match x with None => true | Some _ => false end in
  asserts
   [unwrap (parsed TAPROOT_CONTROL_BASE_SIZE) (fun c => asserts [assert_eq (leaf_version c) 0xc0; assert_eq (length (merkle_path c)) 0%nat]);
    unwrap (parsed (TAPROOT_CONTROL_BASE_SIZE + 32)%nat) (fun c => assert_eq (length (merkle_path c)) 1%nat);
    is_none (parsed 32%nat); is_none (parsed (TAPROOT_CONTROL_BASE_SIZE + 5)%nat);
    is_none (parsed (TAPROOT_CONTROL_MAX_SIZE + 32)%nat); negb (is_none (parsed TAPROOT_CONTROL_MAX_SIZE))].
Definition control_byte_splits_into_version_and_parity : bool :=
  let control b := b :: replicate 32 0 in
  asserts [unwrap (parse_control_block (control 0xc0)) (fun c => asserts [assert_eq (leaf_version c) 0xc0; assert_eq (parity_odd c) false]);
           unwrap (parse_control_block (control 0xc1)) (fun c => asserts [assert_eq (leaf_version c) 0xc0; assert_eq (parity_odd c) true])].
Definition control_with (path : list bytes) : ControlBlock := mkControlBlock 0xc0 false (replicate 32 0) path.
Definition merkle_root_sorts_siblings_lexicographically : bool :=
  let low := replicate 32 0x01 in let high := replicate 32 0xfe in
  assert_eq (compute_taproot_merkle_root (control_with [high]) low) (compute_taproot_merkle_root (control_with [low]) high).
Definition empty_merkle_path_leaves_the_leaf_hash_untouched : bool :=
  assert_eq (compute_taproot_merkle_root (control_with []) (replicate 32 0x77)) (replicate 32 0x77).
Definition tapleaf_hash_commits_to_version_and_script : bool :=
  let a := compute_tapleaf_hash 0xc0 [0x51] in
  asserts [assert_ne a (compute_tapleaf_hash 0xc2 [0x51]); assert_ne a (compute_tapleaf_hash 0xc0 [0x52])].
Definition op_success_table_matches_bip342 : bool := asserts
  [forallb is_op_success [80; 98; 126; 129; 131; 134; 137; 138; 141; 142; 149; 153; 187; 254];
   forallb (fun o => negb (is_op_success o)) [0; 81; 99; 118; 130; 135; 139; 143; 148; 154; 172; 186; 255]].
Definition compact_size_boundaries : bool := asserts
  [assert_eq (write_compact_size 0xfc) [0xfc]; assert_eq (write_compact_size 0xfd) [0xfd; 0xfd; 0x00];
   assert_eq (write_compact_size 0x10000) [0xfe; 0x00; 0x00; 0x01; 0x00]].

(** ** The suite *)

Definition vectors : list bool :=
  [max_money_equals_21m_btc; target_timespan_is_two_weeks_in_seconds; coinbase_script_bounds_are_sane; halving_schedule_fits_in_u64;
   test_mainnet_genesis_hash; test_signet_genesis_hash; test_testnet3_genesis_hash;
   test_regtest_genesis_hash; test_genesis_fields; test_signet_magic;
   genesis_only_chain_yields_single_entry; short_chain_is_dense_and_ends_at_genesis; long_chain_steps_back_exponentially_and_ends_at_genesis;
   unresolvable_heights_are_skipped_without_breaking_the_walk; roundtrips_representative_values; zero_encodes_as_the_empty_element;
   encoding_matches_known_bitcoin_vectors; non_minimal_encodings_are_rejected_only_when_required; sign_carrying_padding_is_minimal;
   oversized_numbers_are_rejected; cast_to_bool_treats_negative_zero_as_false; every_byte_converts_without_undefined_behaviour;
   op_n_decoding_matches_core; push_boundary_is_op_16; the_2010_disabled_opcodes_are_flagged;
   bit_positions_match_bitcoin_core; contains_is_a_subset_test; parses_direct_pushes_and_opcodes;
   parses_all_three_pushdata_widths; truncated_push_is_an_error_not_a_panic; push_only_rejects_non_pushes_and_malformed_scripts;
   recognises_p2sh_by_exact_pattern; parses_witness_programs; find_and_delete_removes_whole_pushes_only;
   find_and_delete_leaves_unrelated_scripts_alone; minimal_push_rules_match_core; detects_codeseparator_at_instruction_boundaries;
   accepts_a_well_formed_signature; rejects_structural_der_violations; rejects_negative_and_non_minimal_integers;
   detects_high_s_values; hashtype_must_be_one_bitcoin_defines; pubkey_encodings;
   empty_signature_bypasses_encoding_checks; encoding_checks_are_flag_gated; out_of_range_input_returns_the_sighash_single_bug_value;
   sighash_single_without_a_matching_output_hits_the_bug; hash_type_changes_the_digest; script_code_is_committed_to;
   sighash_none_ignores_output_changes; sighash_all_does_commit_to_output_changes; anyonecanpay_ignores_other_inputs;
   bip143_commits_to_the_spent_amount; bip143_differs_from_legacy_for_the_same_inputs; bip143_single_out_of_range_uses_zero_not_the_legacy_bug;
   tagged_hash_matches_the_bip340_definition; different_tags_give_different_digests; control_block_sizes_are_validated;
   control_byte_splits_into_version_and_parity; merkle_root_sorts_siblings_lexicographically; empty_merkle_path_leaves_the_leaf_hash_untouched;
   tapleaf_hash_commits_to_version_and_script; op_success_table_matches_bip342; compact_size_boundaries].

(** Every unit test of the modules named above passes: with the real SHA-256,
    SHA-1 and RIPEMD-160 the model computes each hash, each encoding and each verdict
    that the authors' assertions name, the hashes of the four genesis blocks among
    them. *)
Lemma vectors_hold : Forall (fun test => test = true) vectors.
Proof. apply (bool_decide_unpack _). vm_compute. exact I. Qed.

(** The genesis blocks of the four chains carry the proof of work they claim. *)
Lemma genesis_proof_of_work : Forall (fun g => exists g', g = Some g' /\ meets_target (header (build g')) = true)
  [Genesis_mainnet; Genesis_testnet3; Genesis_signet; Genesis_regtest].
Proof. repeat constructor; (eexists; split; [reflexivity|vm_compute; reflexivity]). Qed.
End Vectors.
