(* ===== verification/ScriptTests.v ===== *)
(** * The script engine's tests

    The tests of crates/script/tests.rs and taproot_tests.rs and of the [mod tests] of
    consensus/signet.rs, each as the boolean its assertions compute on the model, with
    the digests of Digest.  The tests that sign do so with the [secp256k1] crate, which
    is not part of the program: they take a [Signer], the operations of that crate the
    tests call, and [stand_signer] is one whose signatures name the key and the digest they
    were made with.

    [script_tests_hold]: every test of the interpreter passes.
    [signing_tests_hold]: with [stand_signer] the tests that sign, tweak and tamper pass too. *)

From S2P Require Import Prelude Wire Hash Transaction Block Params ScriptNum ScriptOps Sig Sighash Taproot Checker Interpreter Signet Digest Vectors.

#[local] Open Scope string_scope.
#[local] Open Scope list_scope.
#[local] Open Scope Z_scope.

(** [AlwaysValidChecker]: any signature that is not empty. *)
Definition always_valid_checker : SignatureChecker := {|
  check_ecdsa_signature sig _ _ _ := negb (length sig =? 0)%nat;
  check_schnorr_signature _ _ _ _ := Err SchnorrSig;
  check_lock_time _ := true;
  check_sequence _ := true |}.

(** ** The signing operations of [secp256k1] that the tests call

    Secret keys, public keys, tweaks and signatures are in their serialized form. *)
Class Signer : Type := {
  public_key : bytes -> bytes;                       (* [SecretKey::public_key], 33 bytes *)
  x_only_public_key : bytes -> bytes;                (* [Keypair::x_only_public_key], 32 bytes *)
  sign_ecdsa_der : bytes -> bytes -> bytes;          (* [sign_ecdsa(digest, key)], then [serialize_der] *)
  sign_schnorr_no_aux_rand : bytes -> bytes -> bytes; (* digest, key: 64 bytes *)
  add_tweak : bytes -> bytes -> bytes * Z;           (* [XOnlyPublicKey::add_tweak]: the key and its parity *)
  add_xonly_tweak : bytes -> bytes -> bytes;         (* [Keypair::add_xonly_tweak] *)
}.

(** A stand-in: a key is its own public key, a signature is the digest and the key, and a
    tweak is added byte by byte.  It is forgeable, and it tells keys and digests apart. *)
Definition stand_add (key tweak : bytes) : bytes := zip_with (fun a b => (a + b) mod 256) key tweak.
Definition stand_parity (key : bytes) : Z := idx key 0 mod 2.
Definition stand_der (digest key : bytes) : bytes :=
  [0x30; 0x44; 0x02; 0x20; 0x11] ++ take 31 digest ++ [0x02; 0x20; 0x11] ++ take 31 key.
Definition of_length (n : nat) (l : bytes) : option bytes := if (length l =? n)%nat then Some l else None.
Definition stand_secp : Secp := {|
  PublicKey := bytes; EcdsaSignature := bytes; XOnlyPublicKey := bytes; SchnorrSignature := bytes; Scalar := bytes;
  PublicKey_from_slice l := drop 1 <$> of_length 33 l;
  Signature_from_der_lax := of_length 70;
  verify_ecdsa digest sig key := bool_decide (sig = stand_der digest key);
  XOnlyPublicKey_from_slice := of_length 32;
  SchnorrSignature_from_slice := of_length 64;
  verify_schnorr sig digest key := bool_decide (sig = digest ++ key);
  Scalar_from_be_bytes := of_length 32;
  tweak_add_check internal output odd tweak :=
    bool_decide (output = stand_add internal tweak) && Bool.eqb odd (stand_parity output =? 1) |}.
Definition stand_signer : Signer := {|
  public_key key := 0x02 :: key;
  x_only_public_key key := key;
  sign_ecdsa_der := stand_der;
  sign_schnorr_no_aux_rand digest key := digest ++ key;
  add_tweak key tweak := (stand_add key tweak, stand_parity (stand_add key tweak));
  add_xonly_tweak := stand_add |}.

Section ScriptTests.
#[local] Existing Instance real_digests.
Context {K : Secp} {G : Signer}.

(** The stack of the program grows to the right, that of the model to the left. *)
Definition eval_with (checker : SignatureChecker) (flags : VerifyFlags) (script : bytes) : ScriptResult (list bytes) :=
  let? s := eval_script script flags checker Base [] in Ok (reverse s).
Definition run (script : bytes) : ScriptResult (list bytes) := eval_with null_checker 0 script.
Definition run_flags (script : bytes) (flags : VerifyFlags) : ScriptResult (list bytes) := eval_with null_checker flags script.
Definition num (value : Z) : bytes := ScriptNum_encode value.
(** [OP_n], the byte that pushes the number [n] from 1 to 16. *)
Definition OP_n (n : Z) : Z := OP_1 + (n - 1).

(** ** Arithmetic and stack *)

Definition arithmetic_produces_core_compatible_results : bool := asserts
  [assert_eq (run [OP_n 2; OP_n 3; OP_ADD]) (Ok [num 5]); assert_eq (run [OP_n 5; OP_n 3; OP_SUB]) (Ok [num 2]);
   assert_eq (run [OP_n 3; OP_n 5; OP_SUB]) (Ok [num (-2)])].
Definition comparison_opcodes_push_boolean_elements : bool := asserts
  [assert_eq (run [OP_n 3; OP_n 5; OP_LESSTHAN]) (Ok [[1]]); assert_eq (run [OP_n 5; OP_n 3; OP_LESSTHAN]) (Ok [[]]);
   assert_eq (run [OP_n 3; OP_1; OP_n 5; OP_WITHIN]) (Ok [[1]]); assert_eq (run [OP_n 5; OP_1; OP_n 5; OP_WITHIN]) (Ok [[]])].
Definition stack_manipulation_opcodes : bool := asserts
  [assert_eq (run [OP_1; OP_n 2; OP_SWAP]) (Ok [num 2; num 1]); assert_eq (run [OP_1; OP_n 2; OP_OVER]) (Ok [num 1; num 2; num 1]);
   assert_eq (run [OP_1; OP_n 2; OP_n 3; OP_ROT]) (Ok [num 2; num 3; num 1]); assert_eq (run [OP_1; OP_n 2; OP_TUCK]) (Ok [num 2; num 1; num 2]);
   assert_eq (run [OP_1; OP_n 2; OP_NIP]) (Ok [num 2])].
Definition pick_and_roll_index_from_the_top : bool := asserts
  [assert_eq (run [OP_1; OP_n 2; OP_n 3; OP_n 2; OP_PICK]) (Ok [num 1; num 2; num 3; num 1]);
   assert_eq (run [OP_1; OP_n 2; OP_n 3; OP_n 2; OP_ROLL]) (Ok [num 2; num 3; num 1]);
   assert_eq (run [OP_1; OP_n 5; OP_PICK]) (Err InvalidStackOperation)].
Definition altstack_round_trips : bool := asserts
  [assert_eq (run [OP_1; OP_TOALTSTACK; OP_n 2; OP_FROMALTSTACK]) (Ok [num 2; num 1]);
   assert_eq (run [OP_FROMALTSTACK]) (Err InvalidAltstackOperation)].
Definition underflow_is_an_error_not_a_panic : bool := asserts
  [assert_eq (run [OP_ADD]) (Err InvalidStackOperation); assert_eq (run [OP_DUP]) (Err InvalidStackOperation);
   assert_eq (run [OP_1; OP_ADD]) (Err InvalidStackOperation)].

(** ** Conditionals *)

Definition conditionals_select_the_right_branch : bool := asserts
  [assert_eq (run [OP_1; OP_IF; OP_n 2; OP_ELSE; OP_n 3; OP_ENDIF]) (Ok [num 2]);
   assert_eq (run [OP_0; OP_IF; OP_n 2; OP_ELSE; OP_n 3; OP_ENDIF]) (Ok [num 3]);
   assert_eq (run [OP_0; OP_NOTIF; OP_n 2; OP_ELSE; OP_n 3; OP_ENDIF]) (Ok [num 2])].
Definition nested_conditionals_track_depth : bool :=
  assert_eq (run [OP_1; OP_IF; OP_1; OP_IF; OP_n 7; OP_ELSE; OP_n 8; OP_ENDIF; OP_ELSE; OP_n 9; OP_ENDIF]) (Ok [num 7]).
Definition unbalanced_conditionals_are_rejected : bool := asserts
  [assert_eq (run [OP_1; OP_IF; OP_n 2]) (Err UnbalancedConditional); assert_eq (run [OP_ENDIF]) (Err UnbalancedConditional);
   assert_eq (run [OP_ELSE]) (Err UnbalancedConditional)].
Definition unexecuted_branches_do_not_run_their_opcodes : bool :=
  assert_eq (run [OP_1; OP_IF; OP_n 2; OP_ELSE; OP_ADD; OP_ENDIF]) (Ok [num 2]).
Definition disabled_opcodes_fail_even_inside_a_dead_branch : bool :=
  assert_eq (run [OP_1; OP_IF; OP_n 2; OP_ELSE; OP_CAT; OP_ENDIF]) (Err DisabledOpcode).

(** ** Digests and limits *)

Definition hash_opcodes_match_the_hash_functions : bool :=
  let d := string_bytes "bitcrab" in
  asserts [assert_eq (run (push_data [] d ++ [OP_HASH160])) (Ok [hash160 d]); assert_eq (run (push_data [] d ++ [OP_SHA256])) (Ok [sha256 d])].
Definition operation_limit_is_enforced : bool := asserts
  [is_ok (run (replicate 201 OP_NOP)); assert_eq (run (replicate 202 OP_NOP)) (Err OpCount)].
Definition pushes_do_not_count_against_the_operation_limit : bool :=
  assert_eq (run (concat (replicate 300 [OP_1; OP_DROP]))) (Err OpCount).
Definition stack_size_limit_is_enforced : bool := asserts
  [assert_eq (run (replicate 1001 OP_1)) (Err StackSize); is_ok (run (replicate 1000 OP_1))].
Definition oversized_push_is_rejected : bool := asserts
  [assert_eq (run (push_data [] (replicate 521 0))) (Err PushSize); is_ok (run (push_data [] (replicate 520 0)))].
Definition minimaldata_rejects_wasteful_pushes : bool := asserts
  [is_ok (run_flags [0x01; 0x01] 0); assert_eq (run_flags [0x01; 0x01] FLAG_MINIMALDATA) (Err MinimalData)].

(** ** VerifyScript: P2SH and witnesses *)

Definition P2SH_WITNESS : VerifyFlags := flags_union FLAG_P2SH FLAG_WITNESS.
Definition null_verify (ss spk : bytes) (w : list bytes) (flags : VerifyFlags) : ScriptResult unit := verify_script flags null_checker ss spk w.
Definition bare_checksig_succeeds_with_a_permissive_checker : bool :=
  assert_eq (verify_script 0 always_valid_checker (push_data [] (replicate 71 0x30)) (push_data [] (replicate 33 0x02) ++ [OP_CHECKSIG]) []) (Ok tt).
(** The output that pays to the hash of a redeem script. *)
Definition p2sh_script (redeem : bytes) : bytes := [OP_HASH160; 0x14] ++ hash160 redeem ++ [OP_EQUAL].
Definition p2sh_evaluates_the_redeem_script : bool :=
  assert_eq (null_verify (push_data [] [OP_1]) (p2sh_script [OP_1]) [] FLAG_P2SH) (Ok tt).
Definition p2sh_rejects_a_redeem_script_that_evaluates_false : bool :=
  assert_eq (null_verify (push_data [] [OP_0]) (p2sh_script [OP_0]) [] FLAG_P2SH) (Err EvalFalse).
Definition p2sh_requires_a_push_only_script_sig : bool :=
  assert_eq (null_verify (push_data [] [OP_1] ++ [OP_NOP]) (p2sh_script [OP_1]) [] FLAG_P2SH) (Err SigPushOnly).
Definition p2wsh_hash_mismatch_is_detected : bool :=
  assert_eq (null_verify [] ([OP_0; 0x20] ++ replicate 32 0xff) [[OP_1]] P2SH_WITNESS) (Err WitnessProgramMismatch).
Definition p2wsh_script (witness_script : bytes) : bytes := [OP_0; 0x20] ++ sha256 witness_script.
Definition p2wsh_with_the_correct_hash_evaluates_the_witness_script : bool :=
  assert_eq (null_verify [] (p2wsh_script [OP_1]) [[OP_1]] P2SH_WITNESS) (Ok tt).
Definition witness_program_requires_an_empty_script_sig : bool :=
  assert_eq (null_verify [OP_1] (p2wsh_script [OP_1]) [[OP_1]] P2SH_WITNESS) (Err WitnessMalleated).
Definition witness_on_a_non_witness_output_is_rejected : bool := asserts
  [assert_eq (null_verify [] [OP_1] [[0x01]] P2SH_WITNESS) (Err WitnessUnexpected);
   assert_eq (null_verify [] [OP_1] [[0x01]] 0) (Err WitnessUnexpected)].
Definition unknown_witness_versions_are_anyone_can_spend_but_discourageable : bool :=
  let script_pubkey := [OP_1; 0x20] ++ replicate 32 0x44 in
  asserts [assert_eq (null_verify [] script_pubkey [[0x01]] P2SH_WITNESS) (Ok tt);
    assert_eq (null_verify [] script_pubkey [[0x01]] (flags_union P2SH_WITNESS FLAG_DISCOURAGE_UPGRADABLE_WITNESS_PROGRAM))
      (Err DiscourageUpgradableWitnessProgram)].
Definition cleanstack_requires_exactly_one_leftover_element : bool :=
  let flags := flags_union P2SH_WITNESS FLAG_CLEANSTACK in
  asserts [assert_eq (null_verify [OP_1] [OP_1] [] flags) (Err CleanStack); assert_eq (null_verify [] [OP_1] [] flags) (Ok tt)].

(** ** CHECKMULTISIG *)

Definition one_of_one (dummy : Z) : bytes :=
  push_data (push_data [dummy] (replicate 71 0x30) ++ [OP_1]) (replicate 33 0x02) ++ [OP_1; OP_CHECKMULTISIG].
Definition checkmultisig_pops_the_extra_dummy_element : bool :=
  assert_eq (eval_with always_valid_checker 0 (one_of_one OP_0)) (Ok [[1]]).
Definition nulldummy_rejects_a_non_empty_dummy : bool :=
  assert_eq (eval_with always_valid_checker FLAG_NULLDUMMY (one_of_one OP_1)) (Err SigNullDummy).
Definition checkmultisig_rejects_more_than_20_keys : bool :=
  assert_eq (eval_with always_valid_checker 0 (push_data [OP_0] (num 21) ++ [OP_CHECKMULTISIG])) (Err PubkeyCount).
Definition checkmultisig_rejects_more_sigs_than_keys : bool :=
  let script := push_data (push_data (push_data [OP_0] (replicate 71 0x30)) (replicate 71 0x30) ++ [OP_n 2]) (replicate 33 0x02)
    ++ [OP_1; OP_CHECKMULTISIG] in
  assert_eq (eval_with always_valid_checker 0 script) (Err SigCount).

(** ** Lock times, and the rest *)

Definition cltv_script (n : Z) : bytes := push_data [] (num n) ++ [OP_CHECKLOCKTIMEVERIFY].
Definition cltv_is_a_nop_before_activation : bool := asserts
  [assert_eq (run_flags (cltv_script 500) 0) (Ok [num 500]);
   assert_eq (run_flags (cltv_script 500) FLAG_DISCOURAGE_UPGRADABLE_NOPS) (Err DiscourageUpgradableNops)].
Definition cltv_rejects_negative_locktimes : bool :=
  assert_eq (eval_with always_valid_checker FLAG_CHECKLOCKTIMEVERIFY (cltv_script (-1))) (Err NegativeLocktime).
Definition cltv_leaves_its_argument_on_the_stack : bool :=
  assert_eq (eval_with always_valid_checker FLAG_CHECKLOCKTIMEVERIFY (cltv_script 500)) (Ok [num 500]).
Definition op_return_always_fails : bool := asserts [assert_eq (run [OP_RETURN]) (Err OpReturn); assert_eq (run [OP_1; OP_RETURN]) (Err OpReturn)].
Definition op_verify_consumes_and_checks : bool := asserts [assert_eq (run [OP_1; OP_VERIFY]) (Ok []); assert_eq (run [OP_0; OP_VERIFY]) (Err Verify)].
Definition empty_script_leaves_an_empty_stack : bool := assert_eq (run []) (Ok []).
Definition script_larger_than_the_limit_is_rejected : bool := assert_eq (run (replicate (Z.to_nat 10001) OP_NOP)) (Err ScriptSize).
Definition verify_script_reports_eval_false_for_a_false_result : bool :=
  asserts [assert_eq (null_verify [] [OP_0] [] 0) (Err EvalFalse); negb (cast_to_bool [])].

(** ** Taproot, end to end (taproot_tests.rs) *)

Definition TAPROOT_FLAGS : VerifyFlags := CONSENSUS_TAPROOT.
(** [keypair(seed)]: the secret key of 32 times the byte. *)
Definition keypair (seed : Z) : bytes := replicate 32 seed.
Definition tweak_key (internal : bytes) (root : option bytes) : bytes * Z :=
  add_tweak internal (tagged_hash "TapTweak" (internal ++ default [] root)).
Definition p2tr_script (output_key : bytes) : bytes := [OP_1; 0x20] ++ output_key.
Definition spending_tx (w : list bytes) : Transaction :=
  mkTransaction 2 [mkTxIn (mkOutPoint (replicate 32 0x42) 0) [] 0xfffffffe w] [mkTxOut 9000 [OP_1]] 0.
Definition spent (spk : bytes) (sats : Z) : list TxOut := [mkTxOut sats spk].
(** [verify_script] on the first input of [tx], whose witness is given too. *)
Definition verify_spend (ss spk : bytes) (w : list bytes) (flags : VerifyFlags) (outs : list TxOut) : ScriptResult unit :=
  verify_script flags (transaction_checker (TransactionSignatureChecker_new (spending_tx w) 0 outs)) ss spk w.
(** What a spender signs: the digest of the transaction without its witness. *)
Definition unsigned_digest (outs : list TxOut) (ext_flag : Z) (x : ScriptExecutionData) : option bytes :=
  taproot_signature_hash (spending_tx []) 0 outs 0x00 ext_flag x (TaprootCache_new (spending_tx []) outs).

(** The key path: an output of 10000 for the tweaked key of [seed]; [key] signs, and the
    verifier is told that [told] was spent. *)
Definition key_path_output (seed : Z) : bytes := p2tr_script (tweak_key (x_only_public_key (keypair seed)) None).1.
Definition tweaked_key (seed : Z) : bytes := add_xonly_tweak (keypair seed) (tagged_hash "TapTweak" (x_only_public_key (keypair seed))).
Definition key_path_spend (seed : Z) (key : bytes) (told : Z) (expected : ScriptResult unit) : bool :=
  let script_pubkey := key_path_output seed in
  unwrap (unsigned_digest (spent script_pubkey 10000) 0 ScriptExecutionData_new) (fun digest =>
    assert_eq (verify_spend [] script_pubkey [sign_schnorr_no_aux_rand digest key] TAPROOT_FLAGS (spent script_pubkey told)) expected).
Definition key_path_spend_round_trips : bool := key_path_spend 0x11 (tweaked_key 0x11) 10000 (Ok tt).
Definition key_path_rejects_a_signature_from_the_untweaked_key : bool := key_path_spend 0x22 (keypair 0x22) 10000 (Err SchnorrSig).
Definition key_path_signature_sizes_are_enforced : bool :=
  let script_pubkey := key_path_output 0x33 in
  forallb (fun '(item, expected) => assert_eq (verify_spend [] script_pubkey [item] TAPROOT_FLAGS (spent script_pubkey 10000)) (Err expected))
    [(replicate 63 0, SchnorrSigSize); (replicate 66 0, SchnorrSigSize); (replicate 64 0 ++ [0x00], SchnorrSigHashType)].
Definition key_path_commits_to_the_spent_amount : bool := key_path_spend 0x44 (tweaked_key 0x44) 10001 (Err SchnorrSig).

(** The script path: the output of one leaf, and the control block that reveals it. *)
Definition single_leaf_output (seed : Z) (leaf_script : bytes) : bytes * bytes :=
  let internal := x_only_public_key (keypair seed) in
  let '(output_key, parity) := tweak_key internal (Some (compute_tapleaf_hash TAPROOT_LEAF_TAPSCRIPT leaf_script)) in
  (p2tr_script output_key, Z.lor TAPROOT_LEAF_TAPSCRIPT parity :: internal).
(** Spends the leaf [leaf]: the witness is what [reveal] makes of the control block. *)
Definition leaf_spend (seed : Z) (leaf : bytes) (reveal : bytes -> list bytes) (flags : VerifyFlags) : ScriptResult unit :=
  let '(script_pubkey, control) := single_leaf_output seed leaf in
  verify_spend [] script_pubkey (reveal control) flags (spent script_pubkey 10000).
Definition script_path_spend_with_a_trivially_true_leaf : bool :=
  assert_eq (leaf_spend 0x55 [OP_1] (fun control => [[OP_1]; control]) TAPROOT_FLAGS) (Ok tt).
Definition script_path_rejects_a_leaf_not_in_the_tree : bool :=
  assert_eq (leaf_spend 0x66 [OP_1] (fun control => [[OP_n 2]; control]) TAPROOT_FLAGS) (Err WitnessProgramMismatch).
Definition script_path_rejects_a_wrong_parity_bit : bool :=
  assert_eq (leaf_spend 0x77 [OP_1] (fun control => [[OP_1]; alter (Z.lxor 1) 0%nat control]) TAPROOT_FLAGS) (Err WitnessProgramMismatch).
Definition script_path_checksig_round_trips : bool :=
  let signer := keypair 0x88 in
  let leaf_script := push_data [] (x_only_public_key signer) ++ [OP_CHECKSIG] in
  let '(script_pubkey, control) := single_leaf_output 0x99 leaf_script in
  let outs := spent script_pubkey 10000 in
  let fresh := ScriptExecutionData_new in
  let exec_data := mkExecData (Some (compute_tapleaf_hash TAPROOT_LEAF_TAPSCRIPT leaf_script)) (annex_hash fresh)
    (codeseparator_pos fresh) (validation_weight_left fresh) in
  unwrap (unsigned_digest outs 1 exec_data) (fun digest =>
    assert_eq (verify_spend [] script_pubkey [sign_schnorr_no_aux_rand digest signer; leaf_script; control] TAPROOT_FLAGS outs) (Ok tt)).
Definition annex_is_stripped_and_committed_to : bool :=
  assert_eq (leaf_spend 0xaa [OP_1] (fun control => [[OP_1]; control; [0x50; 0x01; 0x02]]) TAPROOT_FLAGS) (Ok tt).

(** *** The rules of BIP 342 *)

Definition run_tapscript (leaf_script : bytes) (s : list bytes) : ScriptResult unit :=
  leaf_spend 0xbb leaf_script (fun control => s ++ [leaf_script; control]) TAPROOT_FLAGS.
Definition checkmultisig_is_disabled_in_tapscript : bool :=
  assert_eq (run_tapscript [OP_0; OP_0; OP_0; OP_CHECKMULTISIG] []) (Err TapscriptCheckMultisig).
Definition op_success_makes_the_script_succeed_immediately : bool :=
  let script := [80; OP_RETURN] in
  asserts [assert_eq (run_tapscript script []) (Ok tt);
    assert_eq (leaf_spend 0xbb script (fun control => [script; control]) (flags_union TAPROOT_FLAGS FLAG_DISCOURAGE_OP_SUCCESS)) (Err DiscourageOpSuccess)].
Definition minimal_if_is_mandatory_in_tapscript : bool :=
  assert_eq (run_tapscript [OP_IF; OP_1; OP_ENDIF] [[0x02]]) (Err TapscriptMinimalIf).
Definition checksigadd_counts_successful_signatures : bool :=
  assert_eq (run_tapscript (push_data [] (x_only_public_key (keypair 0xcc)) ++ [0xba; OP_0; OP_EQUAL]) [[]; []]) (Ok tt).
Definition checksigadd_is_not_available_outside_tapscript : bool := assert_eq (run [OP_0; OP_0; OP_0; 0xba]) (Err BadOpcode).
Definition an_empty_pubkey_fails_even_with_an_empty_signature : bool :=
  assert_eq (run_tapscript [OP_0; OP_0; OP_CHECKSIG] []) (Err PubkeyType).
Definition unknown_pubkey_sizes_are_upgradable : bool :=
  let script := push_data [] (replicate 33 0xab) ++ [OP_CHECKSIG] in
  asserts [assert_eq (run_tapscript script [replicate 64 0]) (Ok tt);
    assert_eq (leaf_spend 0xbb script (fun control => [replicate 64 0; script; control]) (flags_union TAPROOT_FLAGS FLAG_DISCOURAGE_UPGRADABLE_PUBKEYTYPE))
      (Err DiscourageUpgradablePubkeyType)].
Definition taproot_is_not_available_under_p2sh : bool :=
  let redeem := key_path_output 0xdd in
  assert_eq (verify_spend (push_data [] redeem) (p2sh_script redeem) [replicate 64 0] TAPROOT_FLAGS (spent (p2sh_script redeem) 10000)) (Ok tt).
Definition without_the_taproot_flag_v1_is_anyone_can_spend : bool :=
  let script_pubkey := key_path_output 0xee in
  let w := [replicate 64 0xff] in
  asserts [assert_eq (verify_spend [] script_pubkey w CONSENSUS_SEGWIT (spent script_pubkey 10000)) (Ok tt);
    negb (is_ok (verify_spend [] script_pubkey w TAPROOT_FLAGS (spent script_pubkey 10000)))].

(** ** Signet blocks (the tests of consensus/signet.rs) *)

(** [OP_1 <pk1> <pk2> OP_2 OP_CHECKMULTISIG] and the first secret key. *)
Definition challenge_and_key : bytes * bytes :=
  let signing_key := replicate 32 0x11 in
  let pk1 := public_key signing_key in
  let pk2 := public_key (replicate 32 0x22) in
  ([0x51] ++ [Z.of_nat (length pk1)] ++ pk1 ++ [Z.of_nat (length pk2)] ++ pk2 ++ [0x52; 0xae], signing_key).
Definition coinbase_with_commitment (signet_section : option bytes) : Transaction :=
  let commitment := [0x6a; 0x24; 0xaa; 0x21; 0xa9; 0xed] ++ replicate 32 0x77
    ++ match signet_section with Some section => signet_push_data (SIGNET_HEADER ++ section) | None => [] end in
  mkTransaction 1 [mkTxIn (mkOutPoint ZERO_HASH U32_MAX) [0x02; 0x10; 0x00] 0xffffffff [replicate 32 0]]
    [mkTxOut 5000000000 [0x51]; mkTxOut 0 commitment] 0.
Definition block_with (coinbase : Transaction) : Block :=
  let header root := mkBlockHeader 0x20000000 (replicate 32 0xab) root 1600000000 0x1e0377ae 42 in
  mkBlock (header (compute_merkle_root (mkBlock (header ZERO_HASH) [coinbase]))) [coinbase].
Definition encode_test_solution (ss : bytes) (w : list bytes) : bytes :=
  finish_enc (fold_left (fun e item => encode_VarBytes item e) w (encode_VarInt (Z.of_nat (length w)) (encode_VarBytes ss Encoder_new))).
(** The block [sign_block] leaves: signed over the placeholder, solved with [key]. *)
Definition sign_block (challenge key : bytes) : result Block SignetError :=
  let placeholder := block_with (coinbase_with_commitment (Some (encode_test_solution [] []))) in
  let? txs := SignetTxs_new placeholder challenge in
  let sighash := signature_hash (to_sign txs) 0 challenge 1 in
  let sig := sign_ecdsa_der sighash key ++ [0x01] in
  Ok (block_with (coinbase_with_commitment (Some (encode_test_solution ([0x00] ++ signet_push_data sig) [])))).
Definition script_failed (r : result unit SignetError) : bool := match r with Err (ScriptFailed _) => true | _ => false end.
Definition accepted (r : result unit SignetError) : bool := match r with Ok _ => true | Err _ => false end.
(** What the engine says of the solution of [block]. *)
Definition solution_verdict (block : Block) (challenge : bytes) (expect : result unit SignetError -> bool) : bool :=
  unwrap_ok (SignetTxs_new block challenge) (fun txs => expect (verify_solution_script txs challenge)).

Definition commitment_section_round_trips_and_is_blanked : bool :=
  let payload := string_bytes "solution-bytes" in
  let script := [0x6a] ++ signet_push_data (SIGNET_HEADER ++ payload) in
  let '(section, modified) := fetch_and_clear_commitment_section SIGNET_HEADER script in
  asserts [assert_eq section (Some payload); assert_eq modified [0x6a; 0x04; 0xec; 0xc7; 0xda; 0xa2]].
Definition untagged_commitment_is_left_untouched : bool :=
  let script := [0x6a; 0x04; 0xde; 0xad; 0xbe; 0xef] in
  let '(section, modified) := fetch_and_clear_commitment_section SIGNET_HEADER script in
  asserts [assert_eq section None; assert_eq modified script].
Definition correctly_signed_block_is_accepted : bool :=
  let '(challenge, key) := challenge_and_key in
  unwrap_ok (sign_block challenge key) (fun block => solution_verdict block challenge accepted).
Definition tampering_with_the_header_invalidates_the_solution : bool :=
  let '(challenge, key) := challenge_and_key in
  unwrap_ok (sign_block challenge key) (fun block =>
    let h := header block in
    let tampered := mkBlock (mkBlockHeader (hdr_version h) (prev_hash h) (merkle_root_field h) (time h + 1) (bits h) (nonce h)) (transactions block) in
    solution_verdict tampered challenge script_failed).
Definition a_block_signed_by_a_foreign_key_is_rejected : bool :=
  let '(challenge, _) := challenge_and_key in
  unwrap_ok (sign_block challenge (replicate 32 0x33)) (fun block => solution_verdict block challenge script_failed).
Definition a_block_with_no_solution_is_rejected : bool :=
  solution_verdict (block_with (coinbase_with_commitment None)) challenge_and_key.1 script_failed.
Definition a_coinbase_without_witness_commitment_is_rejected : bool :=
  let coinbase := coinbase_with_commitment None in
  let stripped := mkTransaction (version coinbase) (inputs coinbase) (delete 1%nat (outputs coinbase)) (lock_time coinbase) in
  match SignetTxs_new (block_with stripped) challenge_and_key.1 with Err MissingWitnessCommitment => true | _ => false end.
Definition a_malformed_solution_is_rejected : bool :=
  let solution := encode_test_solution [0x00] [] ++ [0xff] in
  match SignetTxs_new (block_with (coinbase_with_commitment (Some solution))) challenge_and_key.1 with Err (MalformedSolution _) => true | _ => false end.
(** A block with an empty solution, under a challenge that is a witness program. *)
Definition empty_solution (challenge : bytes) (expect : result unit SignetError -> bool) : bool :=
  solution_verdict (block_with (coinbase_with_commitment (Some (encode_test_solution [] [])))) challenge expect.
Definition a_witness_v0_challenge_is_evaluated_not_skipped : bool := empty_solution ([0x00; 0x20] ++ replicate 32 0x55) script_failed.
Definition a_taproot_challenge_is_evaluated_not_skipped : bool := empty_solution ([0x51; 0x20] ++ replicate 32 0x66) script_failed.
Definition a_witness_v2_challenge_is_refused_rather_than_waved_through : bool :=
  empty_solution ([0x52; 0x20] ++ replicate 32 0x77) (fun r => match r with Err UnsupportedChallenge => true | _ => false end).
Definition trivial_op_true_challenge_needs_no_solution : bool :=
  solution_verdict (block_with (coinbase_with_commitment None)) [0x51] accepted.
Definition modified_merkle_root_differs_from_the_block_merkle_root : bool :=
  let '(challenge, key) := challenge_and_key in
  unwrap_ok (sign_block challenge key) (fun block => unwrap (head (transactions block)) (fun coinbase =>
    unwrap (get_witness_commitment_index coinbase) (fun cidx => unwrap (outputs coinbase !! cidx) (fun o =>
      let '(_, blanked) := fetch_and_clear_commitment_section SIGNET_HEADER (script_pubkey o) in
      assert_ne (compute_modified_merkle_root block (set_output_script coinbase cidx blanked)) (merkle_root_field (header block)))))).

(** ** The suites *)

Definition script_tests : list bool :=
  [arithmetic_produces_core_compatible_results; comparison_opcodes_push_boolean_elements; stack_manipulation_opcodes;
   pick_and_roll_index_from_the_top; altstack_round_trips; underflow_is_an_error_not_a_panic;
   conditionals_select_the_right_branch; nested_conditionals_track_depth; unbalanced_conditionals_are_rejected;
   unexecuted_branches_do_not_run_their_opcodes; disabled_opcodes_fail_even_inside_a_dead_branch; hash_opcodes_match_the_hash_functions;
   operation_limit_is_enforced; pushes_do_not_count_against_the_operation_limit; stack_size_limit_is_enforced;
   oversized_push_is_rejected; minimaldata_rejects_wasteful_pushes; bare_checksig_succeeds_with_a_permissive_checker;
   p2sh_evaluates_the_redeem_script; p2sh_rejects_a_redeem_script_that_evaluates_false; p2sh_requires_a_push_only_script_sig;
   p2wsh_hash_mismatch_is_detected; p2wsh_with_the_correct_hash_evaluates_the_witness_script; witness_program_requires_an_empty_script_sig;
   witness_on_a_non_witness_output_is_rejected; unknown_witness_versions_are_anyone_can_spend_but_discourageable; cleanstack_requires_exactly_one_leftover_element;
   checkmultisig_pops_the_extra_dummy_element; nulldummy_rejects_a_non_empty_dummy; checkmultisig_rejects_more_than_20_keys;
   checkmultisig_rejects_more_sigs_than_keys; cltv_is_a_nop_before_activation; cltv_rejects_negative_locktimes;
   cltv_leaves_its_argument_on_the_stack; op_return_always_fails; op_verify_consumes_and_checks;
   empty_script_leaves_an_empty_stack; script_larger_than_the_limit_is_rejected; verify_script_reports_eval_false_for_a_false_result].
Definition signing_tests : list bool :=
  [key_path_spend_round_trips; key_path_rejects_a_signature_from_the_untweaked_key; key_path_signature_sizes_are_enforced;
   key_path_commits_to_the_spent_amount; script_path_spend_with_a_trivially_true_leaf; script_path_rejects_a_leaf_not_in_the_tree;
   script_path_rejects_a_wrong_parity_bit; script_path_checksig_round_trips; annex_is_stripped_and_committed_to;
   checkmultisig_is_disabled_in_tapscript; op_success_makes_the_script_succeed_immediately; minimal_if_is_mandatory_in_tapscript;
   checksigadd_counts_successful_signatures; checksigadd_is_not_available_outside_tapscript; an_empty_pubkey_fails_even_with_an_empty_signature;
   unknown_pubkey_sizes_are_upgradable; taproot_is_not_available_under_p2sh; without_the_taproot_flag_v1_is_anyone_can_spend;
   commitment_section_round_trips_and_is_blanked; untagged_commitment_is_left_untouched; correctly_signed_block_is_accepted;
   tampering_with_the_header_invalidates_the_solution; a_block_signed_by_a_foreign_key_is_rejected; a_block_with_no_solution_is_rejected;
   a_coinbase_without_witness_commitment_is_rejected; a_malformed_solution_is_rejected; a_witness_v0_challenge_is_evaluated_not_skipped;
   a_taproot_challenge_is_evaluated_not_skipped; a_witness_v2_challenge_is_refused_rather_than_waved_through; trivial_op_true_challenge_needs_no_solution;
   modified_merkle_root_differs_from_the_block_merkle_root].
End ScriptTests.

(** Whatever the curve operations are, the interpreter passes every test of
    script/tests.rs: arithmetic, stack and branch opcodes, the limits on operations,
    elements and stack, P2SH, witness programs, CHECKMULTISIG and lock times give the
    stacks and the errors that the tests name. *)
Lemma script_tests_hold (K : Secp) : Forall (fun test => test = true) (@script_tests K).
Proof. apply (bool_decide_unpack _). vm_compute. exact I. Qed.

(** With the stand-in for the curve, the taproot and signet tests that sign, tweak and
    tamper give the verdicts that the tests name. *)
Lemma signing_tests_hold : Forall (fun test => test = true) (@signing_tests stand_secp stand_signer).
Proof. apply (bool_decide_unpack _). vm_compute. exact I. Qed.
