(* ===== verification/TaprootSpend.v ===== *)
(** * Spending a taproot output by its key

    What the whole of VerifyScript (script/interpreter.rs) asks of a spend of a version 1
    output whose witness is a signature, with or without an annex: [p2tr_key_spend]. *)

From S2P Require Import Prelude Wire Hash Transaction Block Params ScriptNum ScriptOps Sig Sighash Taproot Checker Interpreter Digest Vectors ScriptTests.

#[local] Open Scope string_scope.
#[local] Open Scope list_scope.
#[local] Open Scope Z_scope.

Section KeyPath.
Context {D : Digests} {K : Secp}.

(** [OP_1 <32 bytes>] as a script: it pushes a 1 and the program, and is the program. *)
Lemma p2tr_evaluates key checker : length key = 32%nat -> eval_script (p2tr_script key) CONSENSUS_TAPROOT checker Base [] = Ok [key; [1]].
Proof. intros Hl. do 32 (destruct key as [|? key]; [discriminate Hl|]). destruct key; [|discriminate Hl]. vm_compute. reflexivity. Qed.
Lemma p2tr_program key : length key = 32%nat -> parse_witness_program (p2tr_script key) = Some (mkWitnessProgram 1 key) /\
  is_pay_to_script_hash (p2tr_script key) = false.
Proof. intros Hl. do 32 (destruct key as [|? key]; [discriminate Hl|]). destruct key; [|discriminate Hl]. split; vm_compute; reflexivity. Qed.

(** The witness is what decides. *)
Lemma p2tr_decided key checker w : length key = 32%nat -> cast_to_bool key = true -> w <> [] ->
  verify_script CONSENSUS_TAPROOT checker [] (p2tr_script key) w = Ok tt <-> verify_taproot CONSENSUS_TAPROOT checker w key = Ok tt.
Proof.
  intros Hl Hk Hw. unfold verify_script. change (flag CONSENSUS_TAPROOT FLAG_WITNESS) with true. change (flag CONSENSUS_TAPROOT FLAG_SIGPUSHONLY) with false.
  change (eval_script [] CONSENSUS_TAPROOT checker Base []) with (Ok (E := ScriptError) (@nil bytes)). cbn [negb andb rbind].
  rewrite p2tr_evaluates by done. cbn [rbind top_true]. rewrite Hk. cbn [negb]. unfold verify_native_witness.
  destruct (p2tr_program key Hl) as [-> ->]. change (flag CONSENSUS_TAPROOT FLAG_WITNESS) with true. cbn [length Nat.eqb negb wp_version program].
  unfold verify_witness_program. cbn [Z.eqb Z.pos_sub Pos.eqb]. rewrite Hl. change (32 =? WITNESS_V1_TAPROOT_SIZE)%nat with true.
  change (flag CONSENSUS_TAPROOT FLAG_TAPROOT) with true. cbn [andb negb]. rewrite andb_false_r.
  destruct (verify_taproot _ _ _ _) as [[]|e]; cbn [rbind]; [|done]. change (flag CONSENSUS_TAPROOT FLAG_CLEANSTACK) with false. done.
Qed.

(** A signature with its hash type: 64 bytes stand for the default, 65 end in another. *)
Definition sig_form (sig body : bytes) (ht : Z) : Prop :=
  length body = 64%nat /\ (sig = body /\ ht = SIGHASH_DEFAULT \/ sig = body ++ [ht] /\ ht <> SIGHASH_DEFAULT).
Lemma sig_65 sig : length sig = 65%nat -> sig = take 64 sig ++ [idx sig 64].
Proof.
  intros Hl. destruct (lookup_lt_is_Some_2 sig 64) as [x Hx]; [lia|]. rewrite <- (take_drop_middle sig 64 x) at 1 by done.
  rewrite drop_ge by lia. by rewrite (nth_lookup_Some _ _ _ _ Hx).
Qed.

(** What the checker of a transaction accepts on the key path. *)
Lemma schnorr_key_accepts (c : TransactionSignatureChecker) key sig x :
  tx_check_schnorr c sig key TaprootKey x = Ok tt <->
  exists body ht pk s digest, sig_form sig body ht /\ XOnlyPublicKey_from_slice key = Some pk /\ SchnorrSignature_from_slice body = Some s /\
    taproot_signature_hash (ck_tx c) (input_index c) (spent_outputs c) ht 0 x (taproot (ck_cache c)) = Some digest /\ verify_schnorr s digest pk = true.
Proof.
  assert (forall body ht, (let? pubkey := ok_or (XOnlyPublicKey_from_slice key) SchnorrSigPubkey in
      let? signature := ok_or (SchnorrSignature_from_slice body) SchnorrSig in
      let? digest := ok_or (taproot_signature_hash (ck_tx c) (input_index c) (spent_outputs c) ht 0 x (taproot (ck_cache c))) SchnorrSigHashType in
      if verify_schnorr signature digest pubkey then Ok tt else Err SchnorrSig) = Ok tt <->
    exists pk s digest, XOnlyPublicKey_from_slice key = Some pk /\ SchnorrSignature_from_slice body = Some s /\
      taproot_signature_hash (ck_tx c) (input_index c) (spent_outputs c) ht 0 x (taproot (ck_cache c)) = Some digest /\ verify_schnorr s digest pk = true) as Hrest.
  { intros body ht. destruct (XOnlyPublicKey_from_slice key) as [pk|]; cbn [ok_or rbind]; [|split; [done|by intros (? & ? & ? & ?); destruct_and?]].
    destruct (SchnorrSignature_from_slice body) as [s|]; cbn [ok_or rbind]; [|split; [done|by intros (? & ? & ? & ?); destruct_and?]].
    destruct (taproot_signature_hash _ _ _ _ _ _ _) as [d|]; cbn [ok_or rbind]; [|split; [done|by intros (? & ? & ? & ?); destruct_and?]]. destruct (verify_schnorr s d pk) eqn:E.
    - split; [|done]. intros _. by exists pk, s, d.
    - split; [done|]. intros (? & ? & ? & [= <-] & [= <-] & [= <-] & ?). congruence. }
  unfold tx_check_schnorr. destruct (Nat.eqb_spec (length sig) 64) as [H64|H64]; cbn [rbind].
  { rewrite Hrest. split; [intros (pk & s & d & H); exists sig, SIGHASH_DEFAULT, pk, s, d; split; [|exact H]; split; auto|].
    intros (body & ht & pk & s & d & [Hb [[-> ->]|[-> _]]] & H); [naive_solver|]. rewrite length_app in H64. cbn in H64. lia. }
  destruct (Nat.eqb_spec (length sig) 65) as [H65|H65]; cbn [rbind].
  - pose proof (sig_65 sig H65) as Hs. destruct (Z.eqb_spec (idx sig 64) SIGHASH_DEFAULT) as [Hz|Hz]; cbn [rbind].
    + split; [done|]. intros (body & ht & pk & s & d & [Hb [[-> ->]|[E Hn]]] & _); [done|]. exfalso. apply Hn. by rewrite E, <- Hb, idx_at in Hz.
    + rewrite Hrest. split; [intros (pk & s & d & H); exists (take 64 sig), (idx sig 64), pk, s, d; split; [|exact H]; split; [rewrite length_take; lia|auto]|].
      intros (body & ht & pk & s & d & [Hb [[-> _]|[E Hn]]] & H); [done|]. exists pk, s, d.
      assert (take 64 sig = body) as -> by (rewrite E, take_app_length'; done). assert (idx sig 64 = ht) as -> by (rewrite E, <- Hb; apply idx_at). done.
  - split; [done|]. intros (body & ht & pk & s & d & [Hb [[-> _]|[-> _]]] & _); [done|]. rewrite length_app in H65. cbn in H65. lia.
Qed.

(** The annex as the signature commits to it. *)
Definition annex_commitment (annex : option bytes) : option bytes :=
  (fun a => sha256 (write_compact_size (Z.of_nat (length a)) ++ a)) <$> annex.
Definition key_witness (sig : bytes) (annex : option bytes) : list bytes := sig :: match annex with Some a => [a] | None => [] end.
Definition annex_ok (annex : option bytes) : Prop := match annex with Some a => head a = Some ANNEX_TAG | None => True end.

Lemma taproot_key_path flags checker key sig annex : annex_ok annex ->
  verify_taproot flags checker (key_witness sig annex) key = check_schnorr_signature checker sig key TaprootKey (mkExecData None (annex_commitment annex) U32_MAX 0).
Proof. destruct annex as [[|tag a]|]; cbn; [done| |done]. intros [= ->]. done. Qed.

(** C23: A version 1 output of 32 bytes is spent by its key exactly when the witness is a
    signature, which an annex may follow: 64 bytes, or 65 that end in a hash type other
    than the default, that parse and verify under the key over the BIP 341 digest of
    that hash type, which covers the annex.  Nothing else of the script rules stands
    in the way, and nothing else is accepted. *)
Theorem p2tr_key_spend (c : TransactionSignatureChecker) (key sig : bytes) (annex : option bytes) :
  length key = 32%nat -> cast_to_bool key = true -> annex_ok annex ->
  verify_script CONSENSUS_TAPROOT (transaction_checker c) [] (p2tr_script key) (key_witness sig annex) = Ok tt <->
  exists body ht pk s digest, sig_form sig body ht /\ XOnlyPublicKey_from_slice key = Some pk /\ SchnorrSignature_from_slice body = Some s /\
    taproot_signature_hash (ck_tx c) (input_index c) (spent_outputs c) ht 0 (mkExecData None (annex_commitment annex) U32_MAX 0) (taproot (ck_cache c)) = Some digest /\
    verify_schnorr s digest pk = true.
Proof.
  intros Hl Hk Ha. rewrite p2tr_decided, taproot_key_path by (done || discriminate). apply schnorr_key_accepts.
Qed.
End KeyPath.

(** ** A spend with an annex *)

Definition sample_key : bytes := replicate 32 0x11.
Definition sample_annex : option bytes := Some [0x50; 1; 2].
Definition key_spend_checker : TransactionSignatureChecker :=
  @TransactionSignatureChecker_new real_digests (spending_tx []) 0 [mkTxOut 10000 (p2tr_script sample_key)].
Definition key_spend_digest : bytes := Eval vm_compute in default []
  (@taproot_signature_hash real_digests (ck_tx key_spend_checker) 0 (spent_outputs key_spend_checker) 0x81 0
    (mkExecData None (@annex_commitment real_digests sample_annex) U32_MAX 0) (taproot (ck_cache key_spend_checker))).
Definition key_spend_body : bytes := key_spend_digest ++ sample_key.
Lemma p2tr_key_spend_witness :
  @verify_script real_digests stand_secp CONSENSUS_TAPROOT (@transaction_checker real_digests stand_secp key_spend_checker) [] (p2tr_script sample_key)
    (key_witness (key_spend_body ++ [0x81]) sample_annex) = Ok tt.
Proof.
  apply (@p2tr_key_spend real_digests stand_secp key_spend_checker sample_key (key_spend_body ++ [0x81]) sample_annex);
    [reflexivity|reflexivity|reflexivity|].
  exists key_spend_body, 0x81, sample_key, key_spend_body, key_spend_digest. split_and!; try (vm_compute; reflexivity).
  split; [reflexivity|]. right. split; [reflexivity|discriminate].
Defined.
