(* ===== verification/Differential.v ===== *)
(** * The differential tests (crates/consensus/differential.rs)

    Every case of the differential tests gives the native engine and libbitcoinconsensus
    the same transaction, the same coins and the same flags and asserts that they agree
    on accept or reject.  The cases are built here as the tests build them, from the
    signing operations [Signer]; the library is the parameter [Consensus] of Reference.

    [differential_verdicts]: with stand-ins for the digests and the curve the native
    engine gives each case the verdict its description names.
    [assert_engines_agree_spec]: what a passing assertion says of the library. *)

From S2P Require Import Prelude Wire Hash Transaction Block Params ScriptNum ScriptOps Sig Sighash Taproot Checker Interpreter Engine Reference Digest Vectors ScriptTests.

#[local] Open Scope string_scope.
#[local] Open Scope list_scope.
#[local] Open Scope Z_scope.

(** A call of [assert_engines_agree]; [accept] is what the description says of it. *)
Record Case : Type := mkCase { case_tx : Transaction; case_coins : list Coin; case_flags : VerifyFlags; case : string; accept : bool }.

Definition diff_tx (ss : bytes) (w : list bytes) : Transaction :=
  mkTransaction 2 [mkTxIn (mkOutPoint (replicate 32 0x42) 0) ss 0xfffffffe w] [mkTxOut 9000 [OP_1]] 0.
Definition diff_coin (spk : bytes) (sats : Z) : Coin := mkCoin (mkTxOut sats spk) 1 false.
Definition FLAG_SETS : list VerifyFlags := [0; FLAG_P2SH; CONSENSUS_SEGWIT; CONSENSUS_TAPROOT].
(** [for &flags in FLAG_SETS]; [verdict] may depend on the flags. *)
Definition each_flags (tx : Transaction) (coins : list Coin) (name : string) (verdict : VerifyFlags -> bool) : list Case :=
  map (fun flags => mkCase tx coins flags name (verdict flags)) FLAG_SETS.
Definition always (b : bool) : VerifyFlags -> bool := fun _ => b.

Section Differential.
Context {D : Digests} {G : Signer}.

(** [Fixture::new(seed)], [pubkey] and [sign] *)
Definition fixture_key (seed : Z) : bytes := replicate 32 seed.
Definition fixture_pubkey (seed : Z) : bytes := public_key (fixture_key seed).
Definition fixture_sign (seed : Z) (digest : bytes) (hash_type : Z) : bytes := sign_ecdsa_der digest (fixture_key seed) ++ [hash_type].
(** [bad_sig[10] ^= 0xff] *)
Definition corrupted (sig : bytes) : bytes := alter (Z.lxor 0xff) 10%nat sig.
Definition legacy_digest (script_code : bytes) (hash_type : Z) : bytes := legacy_signature_hash (diff_tx [] []) 0 script_code hash_type.
Definition v0_digest (script_code : bytes) (amount : Z) : bytes :=
  witness_v0_signature_hash (diff_tx [] []) 0 script_code (wrap_s 64 amount) 1 (Bip143Cache_new (diff_tx [] [])).
Definition p2pkh_script (key_hash : bytes) : bytes := [OP_DUP; OP_HASH160; 0x14] ++ key_hash ++ [OP_EQUALVERIFY; OP_CHECKSIG].

Definition p2pkh_valid_and_invalid_agree : list Case :=
  let pubkey := fixture_pubkey 0x11 in
  let spk := p2pkh_script (hash160 pubkey) in
  let sig := fixture_sign 0x11 (legacy_digest spk 1) 1 in
  let coins := [diff_coin spk 10000] in
  let tx s p := diff_tx (push_data (push_data [] s) p) [] in
  each_flags (tx sig pubkey) coins "valid p2pkh" (always true)
  ++ each_flags (tx (corrupted sig) pubkey) coins "p2pkh with a corrupted signature" (always false)
  ++ each_flags (tx sig (fixture_pubkey 0x22)) coins "p2pkh with the wrong pubkey" (always false).

Definition bare_multisig_agrees_including_the_dummy_quirk : list Case :=
  let spk := push_data (push_data [OP_1] (fixture_pubkey 0x33)) (fixture_pubkey 0x44) ++ [OP_n 2; OP_CHECKMULTISIG] in
  let sig := fixture_sign 0x33 (legacy_digest spk 1) 1 in
  let coins := [diff_coin spk 10000] in
  let tx dummy := diff_tx (push_data [dummy] sig) [] in
  each_flags (tx OP_0) coins "1-of-2 bare multisig" (always true)
  ++ each_flags (tx OP_1) coins "multisig with a non-null dummy" (fun flags => negb (flag flags FLAG_NULLDUMMY))
  ++ [mkCase (tx OP_1) coins (flags_union FLAG_P2SH FLAG_NULLDUMMY) "multisig with a non-null dummy under NULLDUMMY" false].

Definition p2sh_wrapped_checksig_agrees : list Case :=
  let redeem := push_data [] (fixture_pubkey 0x55) ++ [OP_CHECKSIG] in
  let spk := [OP_HASH160; 0x14] ++ hash160 redeem ++ [OP_EQUAL] in
  let sig := fixture_sign 0x55 (legacy_digest redeem 1) 1 in
  each_flags (diff_tx (push_data (push_data [] sig) redeem) []) [diff_coin spk 10000] "p2sh-wrapped checksig" (always true).

Definition p2sh_with_a_mismatched_redeem_script_agrees : list Case :=
  each_flags (diff_tx (push_data [] [OP_1]) []) [diff_coin ([OP_HASH160; 0x14] ++ replicate 20 0xab ++ [OP_EQUAL]) 10000] "p2sh hash mismatch" (always false).

Definition p2wpkh_agrees : list Case :=
  let pubkey := fixture_pubkey 0x66 in
  let spk := [OP_0; 0x14] ++ hash160 pubkey in
  let sig := fixture_sign 0x66 (v0_digest (p2pkh_script (hash160 pubkey)) 10000) 1 in
  let tx := diff_tx [] [sig; pubkey] in
  [mkCase tx [diff_coin spk 10000] CONSENSUS_SEGWIT "valid p2wpkh" true;
   mkCase tx [diff_coin spk (10000 + 1)] CONSENSUS_SEGWIT "p2wpkh with the wrong amount" false;
   mkCase (diff_tx [] [corrupted sig; pubkey]) [diff_coin spk 10000] CONSENSUS_SEGWIT "p2wpkh with a corrupted signature" false].

Definition p2wsh_agrees : list Case :=
  let witness_script := push_data [] (fixture_pubkey 0x77) ++ [OP_CHECKSIG] in
  let coins := [diff_coin ([OP_0; 0x20] ++ sha256 witness_script) 25000] in
  let sig := fixture_sign 0x77 (v0_digest witness_script 25000) 1 in
  [mkCase (diff_tx [] [sig; witness_script]) coins CONSENSUS_SEGWIT "valid p2wsh" true;
   mkCase (diff_tx [] [[0x00]; [OP_1]]) coins CONSENSUS_SEGWIT "p2wsh program mismatch" false].

Definition witness_on_a_non_witness_output_agrees : list Case :=
  [mkCase (diff_tx [] [[0x01; 0x02]]) [diff_coin [OP_1] 10000] CONSENSUS_SEGWIT "unexpected witness" false].

Definition every_sighash_type_agrees : list Case :=
  let spk := push_data [] (fixture_pubkey 0x88) ++ [OP_CHECKSIG] in
  let case_of hash_type :=
    let sig := fixture_sign 0x88 (legacy_digest spk hash_type) hash_type in
    each_flags (diff_tx (push_data [] sig) []) [diff_coin spk 10000] "checksig with each hash type" (always true) in
  concat (map case_of [0x01; 0x02; 0x03; 0x81; 0x82; 0x83]).

(** The scripts without signatures: each with what it leaves. *)
Definition structural_cases : list (bytes * bytes * string * bool) :=
  [([], [OP_1], "trivially true", true); ([], [OP_0], "trivially false", false); ([], [OP_RETURN], "op_return", false);
   ([], [OP_n 2; OP_n 3; OP_ADD; OP_n 5; OP_EQUAL], "2+3==5", true); ([], [OP_n 2; OP_n 3; OP_ADD; OP_n 6; OP_EQUAL], "2+3==6 (false)", false);
   ([], [OP_1; OP_IF; OP_1; OP_ELSE; OP_0; OP_ENDIF], "if/else true branch", true); ([], [OP_1; OP_IF; OP_1], "unbalanced conditional", false);
   ([], [OP_CAT], "disabled opcode", false); ([], [OP_ADD], "stack underflow", false);
   ([], [OP_1; OP_1; OP_EQUALVERIFY], "equalverify empties the stack", false); ([], [OP_16; OP_16; OP_NUMEQUAL], "16==16", true);
   ([], [OP_1NEGATE; OP_1; OP_ADD; OP_0; OP_NUMEQUAL], "-1+1==0", true); ([], [OP_DEPTH; OP_0; OP_EQUAL], "depth of an empty stack", true);
   ([], replicate 202 OP_NOP, "operation limit exceeded", false); ([], [0x05; 0x01; 0x02], "truncated push", false);
   (push_data [] (string_bytes "bitcrab"), [OP_HASH160; 0x14] ++ hash160 (string_bytes "bitcrab") ++ [OP_EQUAL], "hash160 preimage", true)].
(** Under P2SH the last one is a redeem script that is not one: [bitcrab] as a script. *)
Definition structural_scripts_agree_across_flag_sets : list Case :=
  concat (map (fun '(ss, spk, name, verdict) => each_flags (diff_tx ss []) [diff_coin spk 10000] name
    (fun flags => verdict && negb (is_pay_to_script_hash spk && flag flags FLAG_P2SH))) structural_cases).

Definition minimaldata_and_cleanstack_flags_agree : list Case :=
  let coins := [diff_coin [OP_1] 10000] in
  let extra := diff_tx [OP_1; OP_1] [] in
  let wasteful := diff_tx [0x01; 0x01] [] in
  [mkCase extra coins FLAG_P2SH "extra stack elements" true;
   mkCase extra coins (flags_union (flags_union FLAG_P2SH FLAG_WITNESS) FLAG_CLEANSTACK) "extra stack elements under CLEANSTACK" false;
   mkCase wasteful coins FLAG_P2SH "non-minimal push" true;
   mkCase wasteful coins (flags_union FLAG_P2SH FLAG_MINIMALDATA) "non-minimal push under MINIMALDATA" false].

(** ** Taproot *)

Definition taproot_keypair (seed : Z) : bytes := replicate 32 seed.
Definition tweak (internal : bytes) (root : option bytes) : bytes * Z := add_tweak internal (tagged_hash "TapTweak" (internal ++ default [] root)).
Definition p2tr (output_key : bytes) : bytes := [OP_1; 0x20] ++ output_key.

Definition taproot_key_path_agrees : list Case :=
  let internal := taproot_keypair 0xa1 in
  let internal_xonly := x_only_public_key internal in
  let coins := [diff_coin (p2tr (tweak internal_xonly None).1) 10000] in
  let spent_outputs := map output coins in
  let tweaked := add_xonly_tweak internal (tagged_hash "TapTweak" internal_xonly) in
  let digest := default [] (taproot_signature_hash (diff_tx [] []) 0 spent_outputs 0x00 0 ScriptExecutionData_new
    (TaprootCache_new (diff_tx [] []) spent_outputs)) in
  let bad := diff_tx [] [replicate 64 0xab] in
  [mkCase (diff_tx [] [sign_schnorr_no_aux_rand digest tweaked]) coins CONSENSUS_TAPROOT "valid taproot key-path spend" true;
   mkCase bad coins CONSENSUS_TAPROOT "taproot key-path with a bogus signature" false;
   mkCase bad coins CONSENSUS_SEGWIT "taproot output under pre-taproot rules" true].

(** The coin of one leaf under the key of [seed], and the control block. *)
Definition leaf_coin (seed : Z) (leaf_script : bytes) : Coin * bytes :=
  let internal_xonly := x_only_public_key (taproot_keypair seed) in
  let '(output_key, parity) := tweak internal_xonly (Some (compute_tapleaf_hash TAPROOT_LEAF_TAPSCRIPT leaf_script)) in
  (diff_coin (p2tr output_key) 10000, Z.lor TAPROOT_LEAF_TAPSCRIPT parity :: internal_xonly).
Definition taproot_script_path_agrees : list Case :=
  let '(coin, control) := leaf_coin 0xb2 [OP_1] in
  [mkCase (diff_tx [] [[OP_1]; control]) [coin] CONSENSUS_TAPROOT "valid taproot script-path spend" true;
   mkCase (diff_tx [] [[OP_n 2]; control]) [coin] CONSENSUS_TAPROOT "taproot script-path with an uncommitted leaf" false].
Definition tapscript_rules_agree : list Case :=
  map (fun '(leaf_script, name, verdict) => let '(coin, control) := leaf_coin 0xc3 leaf_script in
      mkCase (diff_tx [] [leaf_script; control]) [coin] CONSENSUS_TAPROOT name verdict)
    [([OP_0; OP_0; OP_0; OP_CHECKMULTISIG], "CHECKMULTISIG is disabled in tapscript", false);
     ([80; OP_RETURN], "OP_SUCCESS80", true); ([OP_1; OP_1; OP_EQUAL], "plain equality", true)].

Definition differential_cases : list Case :=
  p2pkh_valid_and_invalid_agree ++ bare_multisig_agrees_including_the_dummy_quirk ++ p2sh_wrapped_checksig_agrees
  ++ p2sh_with_a_mismatched_redeem_script_agrees ++ p2wpkh_agrees ++ p2wsh_agrees ++ witness_on_a_non_witness_output_agrees
  ++ every_sighash_type_agrees ++ structural_scripts_agree_across_flag_sets ++ minimaldata_and_cleanstack_flags_agree
  ++ taproot_key_path_agrees ++ taproot_script_path_agrees ++ tapscript_rules_agree.
End Differential.

(** ** The assertion *)

Section Assertion.
Context {L : Consensus} {D : Digests} {K : Secp} {G : Signer}.

Definition engine_verdict (k : ConsensusEngineKind) (c : Case) : result unit ValidationError :=
  @verify_transaction _ reference_build (with_flags (ConsensusEngine_new k) (case_flags c)) (case_tx c) (case_coins c).
Definition assert_engines_agree (c : Case) : bool := Bool.eqb (is_ok (engine_verdict Native c)) (is_ok (engine_verdict CoreReference c)).

(** An assertion passes exactly when the native engine accepts the case just where the
    library accepts every coin of it. *)
Lemma assert_engines_agree_spec c : assert_engines_agree c = true <->
  (is_ok (engine_verdict Native c) = true <-> forall i x, case_coins c !! i = Some x -> library_accepts (case_tx c) (case_coins c) (case_flags c) i x).
Proof.
  unfold assert_engines_agree. rewrite Bool.eqb_true_iff. change (engine_verdict CoreReference c) with (verify_reference (case_tx c) (case_coins c) (case_flags c)).
  pose proof (reference_verdict (case_tx c) (case_coins c) (case_flags c)) as H. destruct (verify_reference _ _ _) as [[]|e]; cbn [is_ok].
  - split; [intros ->; by split|]. intros [_ Hn]. by apply Hn.
  - destruct H as (i & x & Hx & _ & Hv & _). split; [intros ->; split; [done|intros Ha; by destruct Hv; apply Ha]|].
    intros [Hn _]. destruct (is_ok (engine_verdict Native c)); [|done]. by destruct Hv; apply Hn.
Qed.

(** Every case has one input and one coin. *)
Lemma cases_one_coin : Forall (fun c => length (case_coins c) = length (inputs (case_tx c))) differential_cases.
Proof.
  unfold differential_cases, taproot_script_path_agrees, tapscript_rules_agree. cbn [map]. rewrite !Forall_app.
  destruct (leaf_coin 0xb2 _), (leaf_coin 0xc3 _), (leaf_coin 0xc3 _), (leaf_coin 0xc3 _). repeat split; repeat constructor.
Qed.
End Assertion.

(** A digest that is cheap to compute and tells the messages of the cases apart. *)
Definition mix (n : nat) (d : bytes) : bytes := le_bytes n (fold_left (fun acc b => Z.land (acc * 31 + b + 1) 0xffffffffffff) d 7).
Definition mixing_digests : Digests := {| sha256 := mix 32; ripemd160 := mix 20; sha1 := mix 20 |}.

(** With these stand-ins for the digests and the curve every case gets from the
    native engine the verdict its description names. *)
Lemma differential_verdicts (L : Consensus) :
  Forall (fun c => is_ok (@engine_verdict L mixing_digests stand_secp Native c) = accept c) (@differential_cases mixing_digests stand_signer).
Proof. apply (bool_decide_unpack _). vm_compute. exact I. Qed.
