(* ===== verification/NodeTests.v ===== *)
(** * The unit tests of the coins cache, the peers and the research model

    The [mod tests] of consensus/coins.rs, net/p2p/peer_table.rs, network.rs,
    initiator.rs, sync/sync_manager.rs, script/research.rs and signature_experiment.rs,
    each as the boolean its assertions compute on the model.  The order in which a hash
    map is visited is not fixed by the program: where a test depends on one, every
    order is tried.  Times are in nanoseconds.

    [node_tests_hold]: every test passes. *)

From S2P Require Import Prelude Wire Hash Taproot Transaction Coins AddrMan PeerTable Sync Peers Connect Digest Vectors ScriptTests Research.

#[local] Open Scope string_scope.
#[local] Open Scope list_scope.
#[local] Open Scope Z_scope.

(** ** The coins cache (coins.rs) *)

Definition cache_len {V} (c : CoinsViewCache V) : nat := size (cache c).
Definition cache_stats {V} (c : CoinsViewCache V) : Z * Z := (hits c, misses c).

(** [EmptyView] *)
Inductive EmptyView : Type := TheEmptyView.
#[local] Instance empty_view : CoinsView EmptyView := {| get_coin _ _ := None; get_best_block _ := None |}.
Definition test_outpoint (n : Z) : OutPoint := mkOutPoint (replicate 32 (wrap_u 8 n)) n.
Definition test_coin : Coin := mkCoin (mkTxOut 1 []) 1 false.
Definition flushed_unspent_coins_remain_as_clean_cache_hits : bool :=
  let c := clear_history [test_outpoint 1] (add_coin (cache_new TheEmptyView 1024) (test_outpoint 1) test_coin false) in
  let '(found, c) := get_coin_counted c (test_outpoint 1) in
  asserts [bool_decide (is_Some found); assert_eq (cache_stats c) (1, 0)].
Definition clean_cache_entries_are_trimmed_to_budget : bool :=
  let outpoints := map test_outpoint [0; 1; 2; 3] in
  let c := fold_left (fun c o => add_coin c o test_coin false) outpoints (cache_new TheEmptyView (ESTIMATED_CACHE_ENTRY_BYTES * 2)%nat) in
  forallb (fun order => assert_eq (cache_len (clear_history order c)) 2%nat) (permutations outpoints).

(** ** The peer table (peer_table.rs) *)

Definition test_addr (octets : bytes) (p : Z) : SocketAddr := mkSocketAddr (V4 octets) p.
Definition local_addr (p : Z) : SocketAddr := test_addr [127; 0; 0; 1] p.
Definition node_handle (addr : SocketAddr) (c : ConnectionType) : NodeHandle := mkHandle addr 0 c.
Definition empty_table : PeerTable := PeerTable_new (AddrMan_new []).
Definition table_of (l : list (Z * ConnectionType)) : PeerTable :=
  fold_left (fun t '(p, c) => add_peer (node_handle (local_addr p) c) t) l empty_table.
Definition address_exclusions_cover_ipv4_mapped_ipv6 : bool :=
  let ipv4 := test_addr [192; 0; 2; 1] 8333 in
  let mapped := mkSocketAddr (V6 (replicate 10 0 ++ [0xff; 0xff; 192; 0; 2; 1])) 8333 in
  let addresses := push_address_variants [] ipv4 in
  asserts [bool_decide (ipv4 ∈ addresses); bool_decide (mapped ∈ addresses)].
Definition connection_counts_match_bitcoin_core_connection_classes : bool :=
  let table := table_of [(1001, Inbound); (1002, OutboundFullRelay); (1003, BlockRelayOnly); (1004, Feeler)] in
  let counts := get_connection_counts table in
  asserts [assert_eq (inbound counts) 1%nat; assert_eq (outbound_full_relay counts) 1%nat; assert_eq (block_relay_only counts) 1%nat;
    assert_eq (feeler counts) 1%nat; assert_eq (total counts) 4%nat; assert_eq (get_outbound_peer_count table) 2%nat].
Definition removing_peer_releases_its_connection_class_slot : bool :=
  let table := table_of [(1001, BlockRelayOnly)] in
  asserts [assert_eq (get_peer_count_by_type table BlockRelayOnly) 1%nat;
    assert_eq (get_peer_count_by_type (remove_peer (local_addr 1001) table) BlockRelayOnly) 0%nat].
Definition inbound_connections_do_not_consume_outbound_quota : bool :=
  let table := table_of (map (fun k => (1000 + Z.of_nat k, Inbound)) (seq 0 10) ++ [(2000, OutboundFullRelay)]) in
  asserts [assert_eq (get_peer_count table) 11%nat; assert_eq (get_outbound_peer_count table) 1%nat].

(** ** Inbound slots and outbound deficits (network.rs, initiator.rs) *)

(** [try_reserve_inbound_slot]: the counter of the tests after the call, and the answer. *)
Definition reserve (active pending : nat) : bool * nat :=
  match try_reserve_inbound_slot pending active MAX_INBOUND_CONNECTIONS with Some p => (true, p) | None => (false, pending) end.
Definition inbound_reservations_never_exceed_available_slots : bool :=
  let active := (MAX_INBOUND_CONNECTIONS - 2)%nat in
  let '(a, pending) := reserve active 0%nat in let '(b, pending) := reserve active pending in let '(c, pending) := reserve active pending in
  asserts [a; b; negb c; assert_eq pending 2%nat].
Definition inbound_slot_can_be_reused_after_failed_handshake : bool :=
  let active := (MAX_INBOUND_CONNECTIONS - 1)%nat in
  let '(a, pending) := reserve active 0%nat in let '(b, pending) := reserve active pending in let '(c, _) := reserve active (pending - 1)%nat in
  asserts [a; negb b; c].
Definition full_inbound_table_rejects_before_handshake : bool :=
  let '(a, pending) := reserve MAX_INBOUND_CONNECTIONS 0%nat in asserts [negb a; assert_eq pending 0%nat].
Definition connection_deficit_counts_pending_attempts_against_quota : bool := asserts
  [assert_eq (connection_deficit 5 2 8) 1%nat; assert_eq (connection_deficit 8 0 8) 0%nat; assert_eq (connection_deficit 8 3 8) 0%nat].
Definition bitcoin_core_outbound_classes_have_independent_deficits : bool := asserts
  [assert_eq (connection_deficit 8 0 MAX_OUTBOUND_FULL_RELAY_CONNECTIONS) 0%nat; assert_eq (connection_deficit 0 0 MAX_BLOCK_RELAY_ONLY_CONNECTIONS) 2%nat].

(** ** The sync manager (sync_manager.rs)

    The clock moves on by a step [dt] at every reading of it. *)
Section SyncTests.
Context (dt : Z).
#[local] Existing Instance canonical_order.

Definition first_peer : SocketAddr := local_addr 8333.
Definition second_peer : SocketAddr := test_addr [127; 0; 0; 2] 8333.
Definition test_hash (n : Z) : BlockHash := replicate 32 n.
Definition minute : Z := from_secs 60.
(** The readings of the [n]-th call. *)
Definition readings (n : Z) : Readings := mkReadings (4 * n * dt) ((4 * n + 1) * dt) ((4 * n + 2) * dt) ((4 * n + 3) * dt).
Definition begin_request (n : Z) (peer : SocketAddr) (timeout : Z) (s : SyncManager) : bool * SyncManager :=
  try_begin_header_request (readings n) peer (test_hash 9) 42 timeout s.
Definition received_block_releases_the_assigned_peer_workload : bool :=
  let s := mark_block_received (test_hash 7) (mark_block_in_flight dt (test_hash 7) first_peer 1 SyncManager_new) in
  asserts [assert_eq (get_peer_workload s first_peer) 0%nat; assert_eq (get_peer_workload s second_peer) 0%nat; assert_eq (get_in_flight_count s) 0%nat].
Definition timed_out_block_is_reassigned_away_from_stalled_peer : bool :=
  let s := (prune_timeouts (fun _ => 2 * dt) 0 (mark_block_in_flight dt (test_hash 8) first_peer 1 SyncManager_new)).2 in
  asserts [assert_eq (get_in_flight_count s) 0%nat; negb (can_peer_download_block s (test_hash 8) first_peer); can_peer_download_block s (test_hash 8) second_peer].
Definition header_request_slot_serializes_getheaders_until_response : bool :=
  let '(a, s) := begin_request 0 first_peer minute SyncManager_new in
  let pending := has_header_request_in_flight s in
  let '(b, s) := begin_request 1 second_peer minute s in
  let s := finish_header_request first_peer s in
  let finished := has_header_request_in_flight s in
  let '(c, _) := begin_request 2 second_peer minute s in
  asserts [a; pending; negb b; negb finished; c].
Definition expired_header_request_can_be_reassigned : bool :=
  let '(a, s) := begin_request 0 first_peer minute SyncManager_new in
  let '(b, _) := begin_request 1 second_peer 0 s in
  asserts [a; b].
Definition expired_header_request_does_not_immediately_reselect_same_peer : bool :=
  let '(a, s) := begin_request 0 first_peer minute SyncManager_new in
  let '(b, s) := begin_request 1 first_peer minute s in
  let '(c, _) := begin_request 2 first_peer 0 s in
  asserts [a; negb b; negb c].
End SyncTests.

(** ** The research model (research.rs, signature_experiment.rs) *)

Section ResearchTests.
#[local] Existing Instance real_digests.

Definition test_manifest (p : AuthorizationPlacement) : ExperimentManifest := mkManifest 2 2 (CommitUntilSpend 32) p.
Definition ml_dsa_projection_uses_fips_sizes : bool :=
  unwrap_ok (project_authorization (test_manifest Witness) MlDsa44) (fun p =>
    asserts [assert_eq (ap_signature_bytes p) 4840; assert_eq (ap_public_key_bytes p) 2624; assert_eq (ap_output_commitment_bytes p) 64;
      assert_eq (ap_authorization_weight p) 7720]).
Definition stripped_authorization_costs_four_weight_per_spend_byte : bool :=
  unwrap_ok (project_authorization (test_manifest Witness) MlDsa44) (fun w =>
    unwrap_ok (project_authorization (test_manifest Stripped) MlDsa44) (fun s =>
      asserts [ap_authorization_weight w <? ap_authorization_weight s; assert_eq (ap_output_commitment_bytes s) (ap_output_commitment_bytes w)])).
Definition manifest_rejects_more_revealed_keys_than_checks : bool :=
  match project_authorization (mkManifest 1 2 PublicKeyInOutput Witness) EcdsaSecp256k1 with Err MoreKeysThanSignatureChecks => true | _ => false end.
Definition manifest_id_changes_when_an_assumption_changes : bool := asserts
  [assert_ne (manifest_id (test_manifest Witness)) (manifest_id (test_manifest Stripped));
   assert_eq (manifest_id (test_manifest Witness)) (manifest_id (test_manifest Witness))].
Definition public_key_in_output_is_not_counted_twice : bool :=
  unwrap_ok (project_authorization (mkManifest 1 1 PublicKeyInOutput Witness) MlDsa44) (fun p =>
    asserts [assert_eq (ap_total_authorization_bytes p) (2420 + 1312); assert_eq (ap_authorization_weight p) (2420 + 1312 * 4)]).

(** The stand-in curve, for the verifier that reads strict DER. *)
#[local] Instance stand_curve : EcdsaCurve bytes bytes := {|
  signature_from_der := of_length 70; public_key_from_slice l := drop 1 <$> of_length 33 l;
  verify_ecdsa digest sig key := bool_decide (sig = stand_der digest key) |}.
Definition classic_workload_benchmark_reports_verified_items : bool :=
  let secret := replicate 32 1 in
  let message := replicate 32 7 in
  let workload := [mkWorkItem message (@sign_ecdsa_der stand_signer message secret) (@public_key stand_signer secret)] in
  unwrap_ok (benchmark_signature_workload TheClassicVerifier workload 0 1) (fun r =>
    asserts [match sb_family r with ClassicSecp256k1 => true | _ => false end; assert_eq (sb_verified r) 1; assert_eq (sb_rejected r) 0]).
End ResearchTests.

(** ** The suite *)

Definition node_tests : list bool :=
  [flushed_unspent_coins_remain_as_clean_cache_hits; clean_cache_entries_are_trimmed_to_budget;
   address_exclusions_cover_ipv4_mapped_ipv6; connection_counts_match_bitcoin_core_connection_classes;
   removing_peer_releases_its_connection_class_slot; inbound_connections_do_not_consume_outbound_quota;
   inbound_reservations_never_exceed_available_slots; inbound_slot_can_be_reused_after_failed_handshake;
   full_inbound_table_rejects_before_handshake; connection_deficit_counts_pending_attempts_against_quota;
   bitcoin_core_outbound_classes_have_independent_deficits; ml_dsa_projection_uses_fips_sizes;
   stripped_authorization_costs_four_weight_per_spend_byte; manifest_rejects_more_revealed_keys_than_checks;
   manifest_id_changes_when_an_assumption_changes; public_key_in_output_is_not_counted_twice;
   classic_workload_benchmark_reports_verified_items].
(** The tests that read the clock, with its step. *)
Definition sync_tests (dt : Z) : list bool :=
  [received_block_releases_the_assigned_peer_workload dt; timed_out_block_is_reassigned_away_from_stalled_peer dt;
   header_request_slot_serializes_getheaders_until_response dt; expired_header_request_can_be_reassigned dt;
   expired_header_request_does_not_immediately_reselect_same_peer dt].

(** Every test passes; those of the sync manager at a clock that stands still and at
    one that moves on by a second between readings. *)
Lemma node_tests_hold : Forall (fun test => test = true) (node_tests ++ sync_tests 0 ++ sync_tests NANOS).
Proof. apply (bool_decide_unpack _). vm_compute. exact I. Qed.
